(* ===== verification/_CoqProject ===== *)
-Q . S2P
Prelude.v
ThreadSafeQueue.v
QueueThreads.v
QueueClients.v
QueueTests.v
Doubles.v
RateLimiter.v
LimiterTests.v
HttpMessages.v
HttpConnection.v
RequestServer.v
Ranking.v
Json.v
Entry.v
Leaderboard.v
BestScores.v
Nameboard.v
ScoreStream.v
BoardTests.v
ThreadSafeMap.v
MapClients.v
MapTests.v
WebSocketSession.v
PersistentServer.v
BroadcastServer.v
StringOps.v
Logger.v
Numerals.v
Query.v
FileHelper.v
Lifecycle.v
ServerLife.v
Destruction.v
ServerProgress.v
Admission.v
EchoServer.v
BoardFiles.v
UpdateLoop.v
ServerShutdown.v
ServerErrors.v
QueueBenchmark.v
BenchmarkStartup.v
ClientBenchmarks.v
