(* ===== verification/Prelude.v ===== *)
(** * server-simple: a verification development (root file)

    server-simple is a header-only C++20 library for small servers: an HTTP
    request server and a WebSocket server over Boost.Asio and Boost.Beast, the
    thread-safe containers they are built on, and three global boards (a
    leaderboard, a nameboard, a stream of scores) saved as JSON files.  File
    names below are relative to [src/src/] unless they start with [src/testing/].

    ** How the parts interact

    [request_server_base] accepts sockets, asks the [rate_limiter] whether the
    caller may be served, and makes an [http_connection] for each.  A connection
    numbers the requests it reads and pushes them on one bounded
    [thread_safe_queue].  Worker threads pop it, call the application's
    [process_client_request] and hand the response back to the connection, which
    reorders the responses by number before it writes them.
    [persistent_server_base] keeps a [websocket_session] per client; sessions push
    what they read on a queue that one update thread drains at a fixed frame
    rate.  [server_base] starts and stops both.  An application parses targets with
    [http_parser::parse_query], keeps its boards, and names their files with
    [file_helper].

    ** Files

    - [Prelude]: outcomes of a call (a value, an exception, undefined behaviour),
      64-bit arithmetic, generic lemmas, tactics and the hint databases ([u64],
      [ranking], and [u64_rw] and [zlist] for rewriting).
    - [ThreadSafeQueue] ([data_structures/thread_safe/thread_safe_queue.hpp]): every member
      function as a function on the state the mutex guards, with the notification it
      issues; [calls] and the abstract bounded deque [spec_calls].
    - [QueueThreads] (the same file): threads, the mutex and the condition variable.
      Each member function is one critical section, its notification a step of its own.
    - [QueueClients], [MapClients] (users of the two containers): a queue that is stopped
      when its producers are done, threads that keep to map keys of their own, and
      elements extracted by several threads.
    - [ThreadSafeMap] ([thread_safe_unordered_map.hpp], [locked_value.hpp]): the member
      functions, the lock that leaves a call inside a [locked_value], and threads.
    - [Doubles]: the operations on [double], with two instances: the exact
      rationals, and IEEE binary64 as [SpecFloat] computes it.
    - [RateLimiter] ([network/security/rate_limiter.hpp]): the token buckets, and the
      cleanup thread with the destructor.
    - [HttpMessages], [HttpConnection], [RequestServer] ([network/communication/http_parser.hpp],
      [http_connection.hpp], [network/servers/request_server_base.hpp]): Beast's messages
      as an interface; the handlers of one connection; the server composed of
      connections, limiter, queue and workers.
    - [ServerProgress], [Admission], [ServerErrors], [ServerShutdown] (the same files): that the
      composed server answers, what its constructor's arguments bound, the exceptions that
      leave its handlers, and [request_server_base::stop] with the real handlers and workers.
    - [WebSocketSession], [PersistentServer] ([websocket_connection.hpp],
      [persistent_server_base.hpp], [src/testing/servers/broadcast_server.hpp]): the handlers of
      one session; the sessions of a server, [broadcast], and one [update].
    - [BroadcastServer] (the same files): the context thread and the update thread together,
      cut at their accesses to shared state.
    - [Lifecycle], [ServerLife], [Destruction], [UpdateLoop] ([network/servers/server_base.hpp],
      [request_server_base.hpp], [persistent_server_base.hpp]): [launch], [try_stop], [stop] and the
      destructors as events, for any background threads ([Loop]); the worker threads
      and the update thread as instances; the members destroyed after [try_stop]; the
      pacing of the update thread.
    - [EchoServer] ([src/testing/servers/echo_server.hpp]): [process_client_request] of the
      echo server, and the composed request server it makes.
    - [Ranking], [Json], [Entry] ([data_structures/global_boards/entry.hpp] and what the boards
      share): [std::multiset] of pointers over an explicit memory; JSON values and
      saved files; entries and their orders.
    - [Leaderboard], [BestScores], [Nameboard], [ScoreStream]
      ([data_structures/global_boards/]): the boards, with their abstract versions; [BestScores] is
      what a leaderboard promises over a history of submissions and restarts.
    - [StringOps], [Numerals], [Query] ([http_parser::parse_query]): [std::string], [std::stoll],
      [std::stoull] and [std::stod], and the parser with its reference reading.
    - [FileHelper] ([storage/file_helper.hpp]): paths, [is_valid_filename], [get_file_path].
    - [BoardFiles] (the subdirectories and [save] of the boards): [save] as operations on
      the file system, and the saves of several boards at the same time.
    - [Logger] ([logger.hpp]): the writes of a debug statement, and the servers' statements.
    - [QueueTests], [MapTests], [LimiterTests], [BoardTests] ([src/testing/tests/]): the
      expectations of the GoogleTest programs, evaluated on the model; for the tests
      with threads they are proved for every interleaving.
    - [QueueBenchmark], [BenchmarkStartup], [ClientBenchmarks] ([src/testing/benchmarks/]): the
      threads that measure a queue, over an interface that [thread_safe_queue] and the baseline
      implement; the protocol that starts the clients of the server benchmarks; their
      statistics, messages, requests and checks.

    A C++ class is a Record of its members and a member function a function on it
    that returns the new state and an [outcome]; concurrency, where the code has it, is
    a step relation or a list of events, with the critical sections as steps.

    ** What the theorems show

    - Refinement: sequences of calls on the queue, the leaderboard and the nameboard
      return what an abstract bounded deque, ranked list and list of names return
      ([queue_calls_refine_bounded_deque], [leaderboard_calls_refine_ranked_list],
      [nameboard_calls_refine_ranked_list]); interleaved calls on the map are atomic
      ([locked_sections_are_atomic]).
    - Ordering: elements leave the queue in the order they came ([fifo_delivery]), responses
      and messages are written in the order of requests and sends, one at a time
      ([http_responses_in_request_order], [websocket_messages_in_order],
      [responses_answer_requests_in_order]); all clients of the broadcast server see one
      sequence ([clients_see_one_sequence]).
    - Invariants and safety: nothing is lost or duplicated between producers and
      consumers, no wake-up is lost, an identifier gets no more than its bucket
      allows, a save never leaves half a file, nor do saves of different boards at
      the same time, a path stays in its directory, a board keeps the best scores, a
      stopped server has ended and joined every thread and can be destroyed.  Threads
      with map keys of their own do not notice each other.
    - Bounds: the connections of an address are limited by its bucket, and the requests
      that wait by the queue ([accepted_connections_are_rate_limited],
      [request_queue_stays_bounded]).
    - Termination and liveness: left to itself the server comes to rest with every
      request answered ([server_comes_to_rest]), stopping ends, the destructors join their threads,
      consumers return after a stop, a patient caller is served, whatever was queued is
      processed before a request server has stopped, though the answers are not sent
      ([stop_computes_answers_it_never_sends]).
    - Errors: nothing but the address of a client that has gone makes a handler of the
      request server throw ([missing_peers_are_the_only_errors]).
    - The benchmarks: every operation is counted once and no run hangs
      ([benchmark_counts_every_operation_once]), measurements start when all clients are
      ready ([benchmark_start_is_safe]), and the echo server's answers pass the checks
      ([http_benchmark_accepts_the_echo_server]).
    - Round trips and parsing: boards come back from their files; a query is read back
      as it was written; [parse_query] agrees with the plain reading of a query, and
      gives every parameter the type its text asks for.
    - Where the code does not do what it seems to mean, a theorem says exactly
      what it does instead: [replace] wakes no consumer, the clean up of a relaunched
      server is skipped, a stop from the base destructor never ends, equal scores
      compare uninitialised members, a lowest-first board is reversed by a restart, a
      client that joins during a broadcast is a data race, a second stop does not wait,
      long integers become floating-point numbers, two boards can share a file, a
      benchmark of 2{^32} operations rejects its own checksum.

    ** Interfaces, bounds and fuel

    Code that is not in the repository is a class or a section variable, with its
    documented behaviour as laws: [HttpMessages] (Beast messages), [Json] and
    [JsonLaws] (nlohmann::json and the files), [Params] and [ParamsLaws] (the JSON object
    [parse_query] fills), [Score] (the boards' template parameter), [Double], [QueueSizeTraits],
    and [create_directories].  [WorkQueue] and [WorkQueueLaws] are the queue that
    [run_benchmark] is a template over.  Whether [std::stod] refuses a subnormal value, which C leaves
    to the implementation, is the variable [underflow_is_error].  Each has an instance
    with which the witnesses are computed.

    Fuel occurs in three loops and is never what ends them, which is proved: one
    [update] takes at most as many turns as the queue has packets (each turn removes
    one), trimming a stream at most the length of the deque, and [parse_query] at
    most the length of the query plus one (each turn consumes a character).  The
    order of the responses assumes fewer than 2{^64} requests on a connection
    ([ids_fit]), that of a nameboard fewer than 2{^64} names, and a leaderboard
    fewer than 2{^63} rows in its file; elsewhere counters wrap around as in C++.
    That the server answers assumes that it has a worker, and an application that
    returns.

    ** Not modelled

    - The insides of Asio and Beast: the handlers are their callers' events, in any
      order the documentation allows.
    - Data races other than that on [active_sessions], which is the undefined step of
      [BroadcastServer]: the rest of the shared state is locked, atomic, or used by one
      thread, and the models take a critical section as one step.
    - Weak memory, allocation failure, and the time a step takes (except where a
      clock is read).  An exception that leaves a thread ends the program in C++; only
      [ServerErrors] has it as an outcome, elsewhere such a step does not happen and the
      application answers or never returns.
    - Hooks with an empty body, the unused [send] of [persistent_server_base], and what
      the benchmarks print.  Their statistics are computed in exact arithmetic.  The clocks of
      the tests are not replayed: where a test sleeps, the model is given a time that
      could have been read. *)

From stdpp Require Export base list numbers gmap strings sets relations fin_maps.
From Stdlib Require Export ZArith Lia.

Declare Scope srv_scope.
Delimit Scope srv_scope with srv.
Global Open Scope srv_scope.

(** ** Outcomes of C++ calls

    A call returns, throws an exception (the payload is the text given to the
    exception's constructor), or has undefined behaviour. *)
Inductive outcome (A : Type) : Type :=
  | Returns (a : A)
  | Throws (what : string)
  | Undefined.
Arguments Returns {A} a.
Arguments Throws {A} what.
Arguments Undefined {A}.

Definition outcome_bind {A B : Type} (m : outcome A) (k : A → outcome B) : outcome B :=
  match m with
  | Returns a => k a
  | Throws e => Throws e
  | Undefined => Undefined
  end.

Notation "'let!' x ':=' m 'in' k" := (outcome_bind m (λ x, k))
  (at level 10, x name, m at level 100, k at level 200) : srv_scope.
Notation "'let!' ' x ':=' m 'in' k" := (outcome_bind m (λ x, k))
  (at level 10, x strict pattern, m at level 100, k at level 200) : srv_scope.

(** ** [size_t] and [uint64_t]: 64-bit unsigned arithmetic with wrap-around *)
Definition two64 : Z := 18446744073709551616.

Definition u64 (z : Z) : Z := z mod two64.

Definition is_u64 (z : Z) : Prop := (0 ≤ z < two64)%Z.

#[export] Instance is_u64_dec z : Decision (is_u64 z).
Proof. unfold is_u64. apply _. Defined.

Create HintDb u64.
Create HintDb ranking.
Create Rewrite HintDb u64_rw.

Lemma u64_range z : is_u64 (u64 z).
Proof. apply Z.mod_pos_bound. reflexivity. Qed.

Lemma u64_small z : is_u64 z → u64 z = z.
Proof. intros H. apply Z.mod_small, H. Qed.

Lemma u64_add_l a b : u64 (u64 a + b) = u64 (a + b).
Proof. apply Z.add_mod_idemp_l. discriminate. Qed.

Lemma u64_add_r a b : u64 (a + u64 b) = u64 (a + b).
Proof. apply Z.add_mod_idemp_r. discriminate. Qed.

Lemma u64_sub_l a b : u64 (u64 a - b) = u64 (a - b).
Proof. apply Zminus_mod_idemp_l. Qed.

Lemma u64_idemp a : u64 (u64 a) = u64 a.
Proof. apply u64_small, u64_range. Qed.

#[export] Hint Resolve u64_range u64_small : u64.
#[export] Hint Rewrite u64_add_l u64_add_r u64_sub_l u64_idemp : u64_rw.

(** ** Lists *)

(** [container.size()] of a standard container, as a [size_t]. *)
Definition zlen {A : Type} (l : list A) : Z := Z.of_nat (length l).

(** The sum of a measure over a list, as an unbounded integer. *)
Definition zsum {A : Type} (f : A → Z) (l : list A) : Z := foldr (λ x acc, (f x + acc)%Z) 0%Z l.

Section lists.
Context {A : Type}.
Implicit Types (l k : list A) (f : A → Z).

Lemma zlen_nil : zlen (@nil A) = 0%Z.
Proof. reflexivity. Qed.

Lemma zlen_cons x l : zlen (x :: l) = (1 + zlen l)%Z.
Proof. unfold zlen. simpl. lia. Qed.

Lemma zlen_app l k : zlen (l ++ k) = (zlen l + zlen k)%Z.
Proof. unfold zlen. rewrite length_app. lia. Qed.

Lemma zlen_nonneg l : (0 ≤ zlen l)%Z.
Proof. unfold zlen. lia. Qed.

Lemma zsum_nil f : zsum f [] = 0%Z.
Proof. reflexivity. Qed.

Lemma zsum_cons f x l : zsum f (x :: l) = (f x + zsum f l)%Z.
Proof. reflexivity. Qed.

Lemma zsum_app f l k : zsum f (l ++ k) = (zsum f l + zsum f k)%Z.
Proof. induction l as [|x l IH]; [done|]. rewrite <-app_comm_cons, !zsum_cons, IH. lia. Qed.

Lemma zsum_permutation f l k : l ≡ₚ k → zsum f l = zsum f k.
Proof. induction 1; rewrite ?zsum_cons in *; try lia. Qed.

Lemma zsum_nonneg f l : (∀ x, (0 ≤ f x)%Z) → (0 ≤ zsum f l)%Z.
Proof. intros Hf. induction l as [|x l IH]; [done|]. rewrite zsum_cons. specialize (Hf x). lia. Qed.

(** The last element, when there is one, splits the list. *)
Lemma last_split l x : last l = Some x → l = removelast l ++ [x].
Proof.
  intros [l' ->]%last_Some. by rewrite removelast_last.
Qed.
End lists.

Create Rewrite HintDb zlist.
#[export] Hint Rewrite @zlen_nil @zlen_cons @zlen_app @zsum_nil @zsum_cons @zsum_app : zlist.

(** ** Maps: the sum of a measure over the values *)
Definition map_weight `{Countable K} {V : Type} (f : V → nat) (m : gmap K V) : nat :=
  map_fold (λ _ v acc, f v + acc) 0 m.

Section map_weight.
Context `{Countable K} {V : Type} (f : V → nat).
Implicit Types (m : gmap K V).

Lemma map_weight_delete m k v : m !! k = Some v → map_weight f m = f v + map_weight f (delete k m).
Proof.
  intros Hk. unfold map_weight.
  apply (map_fold_delete_L (λ _ v acc, f v + acc) 0 k v m); [|done]. intros; lia.
Qed.

Lemma map_weight_insert m k v v' :
  m !! k = Some v → map_weight f (<[k := v']> m) + f v = f v' + map_weight f m.
Proof.
  intros Hk. rewrite (map_weight_delete (<[k := v']> m) k v') by apply lookup_insert_eq.
  rewrite delete_insert_eq, (map_weight_delete m k v) by done. lia.
Qed.

(** An element less. *)
Lemma map_size_delete_S m k : is_Some (m !! k) → S (base.size (delete k m)) = base.size m.
Proof.
  intros [v Hk]. rewrite <-(insert_delete_id m k v Hk) at 2.
  by rewrite map_size_insert_None by apply lookup_delete_eq.
Qed.
End map_weight.

(** ** Lists updated at one place *)
Lemma sum_list_insert {A : Type} (f : A → nat) (l : list A) (i : nat) (x y : A) :
  l !! i = Some x → sum_list (f <$> <[i := y]> l) + f x = f y + sum_list (f <$> l).
Proof.
  revert i. induction l as [|z l IH]; intros [|i] Hi; simplify_eq/=; [lia|].
  specialize (IH i Hi). lia.
Qed.

Lemma concat_insert {A B : Type} (f : A → list B) (l : list A) (i : nat) (x y : A) :
  l !! i = Some x → f y ++ concat (f <$> l) ≡ₚ f x ++ concat (f <$> <[i := y]> l).
Proof.
  revert i. induction l as [|z l IH]; intros [|i] Hi; simplify_eq/=; [apply Permutation_app_swap_app|].
  rewrite (Permutation_app_swap_app (f y)), (IH i Hi). apply Permutation_app_swap_app.
Qed.

(** ** State machines: an invariant of every step holds on every run. *)
Lemma rtc_invariant {S : Type} (step : S → S → Prop) (I : S → Prop) :
  (∀ s s', I s → step s s' → I s') → ∀ s s', rtc step s s' → I s → I s'.
Proof. intros Hstep s s' Hrun. induction Hrun; eauto. Qed.

(** ** Automation *)

(** Splits tests on booleans that decide integer comparisons. *)
Ltac zbool :=
  repeat match goal with
  | H : context [ Z.ltb ?a ?b ] |- _ => destruct (Z.ltb_spec a b)
  | H : context [ Z.leb ?a ?b ] |- _ => destruct (Z.leb_spec a b)
  | H : context [ Z.eqb ?a ?b ] |- _ => destruct (Z.eqb_spec a b)
  | |- context [ Z.ltb ?a ?b ] => destruct (Z.ltb_spec a b)
  | |- context [ Z.leb ?a ?b ] => destruct (Z.leb_spec a b)
  | |- context [ Z.eqb ?a ?b ] => destruct (Z.eqb_spec a b)
  end.
