(* ===== verification/ThreadSafeQueue.v ===== *)
(** * The bounded queue: [src/data_structures/thread_safe/thread_safe_queue.hpp]

    The critical section of every member function of [thread_safe_queue], as a
    function on the state the mutex protects, together with the notification
    the function issues once the mutex is released.  How threads interleave
    these sections is the subject of [QueueThreads]. *)
From S2P Require Import Prelude.

(** [queue_size_traits<T>::get], a [size_t]. *)
Class QueueSizeTraits (T : Type) := {
  queue_item_size : T → Z;
  queue_item_size_range : ∀ x, is_u64 (queue_item_size x)
}.

(** The primary template of [queue_size_traits]: the compile-time [sizeof(T)]. *)
Definition sizeof_traits (T : Type) (sizeof_T : Z) (H : is_u64 sizeof_T) : QueueSizeTraits T :=
  {| queue_item_size := λ _, sizeof_T; queue_item_size_range := λ _, H |}.

(** The template flags and the [const] members. *)
Record queue_config := QueueConfig {
  enable_max_size : bool;
  enable_max_bytes : bool;
  maximum_size : Z;
  maximum_bytes : Z
}.

(** [thread_safe_queue<T>] with both limits compiled in, the default. *)
Definition bounded_config (maximum_size maximum_bytes : Z) : queue_config :=
  QueueConfig true true maximum_size maximum_bytes.

(** The members guarded by [mutex_queue]. *)
Record queue (T : Type) := Queue {
  dequeue : list T;
  stopped : bool;
  current_bytes : Z
}.
Arguments Queue {T} dequeue stopped current_bytes.
Arguments dequeue {T} q : rename.
Arguments stopped {T} q : rename.
Arguments current_bytes {T} q : rename.

Definition new_queue {T : Type} : queue T := Queue [] false 0.

(** What is sent to the condition variable [waiting] after the unlock. *)
Inductive signal := NoSignal | NotifyOne | NotifyAll.

#[export] Instance signal_eq_dec : EqDecision signal.
Proof. solve_decision. Defined.

(** The exception text of [front], [back], [pop_front] and [pop_back]. *)
Definition queue_is_empty_error : string := "Queue is empty".

Section queue.
Context {T : Type} `{QueueSizeTraits T} (cfg : queue_config).
Implicit Types (q : queue T) (item : T).

(** ** Size accounting *)

(** [EnableMaxSize] and a non-zero [maximum_size]. *)
Definition size_limited : bool := enable_max_size cfg && negb (maximum_size cfg =? 0)%Z.

(** [EnableMaxBytes] and a non-zero [maximum_bytes]. *)
Definition bytes_limited : bool := enable_max_bytes cfg && negb (maximum_bytes cfg =? 0)%Z.

Definition pre_addition_check_protocol item q : bool * queue T :=
  if stopped q then (false, q)
  else if size_limited && (maximum_size cfg <=? zlen (dequeue q))%Z then (false, q)
  else if bytes_limited then
    let bytes := queue_item_size item in
    if ((maximum_bytes cfg <? current_bytes q)
        || (u64 (maximum_bytes cfg - current_bytes q) <? bytes))%Z
    then (false, q)
    else (true, Queue (dequeue q) (stopped q) (u64 (current_bytes q + bytes)))
  else (true, q).

Definition unchecked_addition_protocol item q : queue T :=
  if bytes_limited
  then Queue (dequeue q) (stopped q) (u64 (current_bytes q + queue_item_size item))
  else q.

Definition removal_protocol item q : queue T :=
  if bytes_limited
  then Queue (dequeue q) (stopped q) (u64 (current_bytes q - queue_item_size item))
  else q.

(** [dequeue.emplace_back], [dequeue.emplace_front], [dequeue.pop_front] and
    [dequeue.pop_back] on the member. *)
Definition emplace_back item q : queue T :=
  Queue (dequeue q ++ [item]) (stopped q) (current_bytes q).
Definition emplace_front item q : queue T :=
  Queue (item :: dequeue q) (stopped q) (current_bytes q).
Definition drop_front q : queue T :=
  Queue (tail (dequeue q)) (stopped q) (current_bytes q).
Definition drop_back q : queue T :=
  Queue (removelast (dequeue q)) (stopped q) (current_bytes q).

(** ** Additions *)

Definition try_push_back item q : bool * queue T * signal :=
  let '(admitted, q1) := pre_addition_check_protocol item q in
  if admitted then (true, emplace_back item q1, NotifyOne) else (false, q1, NoSignal).

Definition try_push_front item q : bool * queue T * signal :=
  let '(admitted, q1) := pre_addition_check_protocol item q in
  if admitted then (true, emplace_front item q1, NotifyOne) else (false, q1, NoSignal).

(** The [T&&] overloads: the last component is the caller's object after the
    call, [None] once it has been moved into the queue. *)
Definition try_push_back_move item q : bool * queue T * signal * option T :=
  let '(admitted, q1) := pre_addition_check_protocol item q in
  if admitted then (true, emplace_back item q1, NotifyOne, None)
  else (false, q1, NoSignal, Some item).

Definition try_push_front_move item q : bool * queue T * signal * option T :=
  let '(admitted, q1) := pre_addition_check_protocol item q in
  if admitted then (true, emplace_front item q1, NotifyOne, None)
  else (false, q1, NoSignal, Some item).

Definition push_back item q : queue T * signal :=
  (emplace_back item (unchecked_addition_protocol item q), NotifyOne).

Definition push_front item q : queue T * signal :=
  (emplace_front item (unchecked_addition_protocol item q), NotifyOne).

(** ** Observers *)

Definition front q : outcome T :=
  match dequeue q with
  | [] => Throws queue_is_empty_error
  | item :: _ => Returns item
  end.

Definition back q : outcome T :=
  match last (dequeue q) with
  | None => Throws queue_is_empty_error
  | Some item => Returns item
  end.

Definition empty q : bool := match dequeue q with [] => true | _ => false end.

Definition size q : Z := zlen (dequeue q).

Definition max_size : Z := if enable_max_size cfg then maximum_size cfg else 0%Z.

Definition max_bytes : Z := if enable_max_bytes cfg then maximum_bytes cfg else 0%Z.

Definition to_vector q : list T := dequeue q.

(** ** Removals *)

Definition clear q : queue T := Queue [] (stopped q) 0.

Definition pop_front q : outcome (T * queue T) :=
  match dequeue q with
  | [] => Throws queue_is_empty_error
  | item :: _ => Returns (item, drop_front (removal_protocol item q))
  end.

Definition pop_back q : outcome (T * queue T) :=
  match last (dequeue q) with
  | None => Throws queue_is_empty_error
  | Some item => Returns (item, drop_back (removal_protocol item q))
  end.

(** The predicate given to [waiting.wait]. *)
Definition wait_ready q : bool := stopped q || negb (empty q).

(** The part of [wait_and_pop] that runs once the wait is over. *)
Definition wait_and_pop_ready q : option T * queue T :=
  match dequeue q with
  | [] => (None, q)
  | item :: _ => (Some item, drop_front (removal_protocol item q))
  end.

(** [wait_and_pop] called without other threads: [None] if it blocks. *)
Definition wait_and_pop q : option (option T * queue T) :=
  if wait_ready q then Some (wait_and_pop_ready q) else None.

Definition stop q : queue T * signal :=
  if stopped q then (q, NoSignal)
  else (Queue (dequeue q) true (current_bytes q), NotifyAll).

(** ** [replace]

    The loop of [replace] from [current_size], with the [break] taken when the
    incremented [current_size] reaches [maximum_size]. *)
Fixpoint replace_loop (items : list T) (current_size : Z) q : queue T :=
  match items with
  | [] => q
  | item :: items' =>
      let q1 := emplace_back item q in
      let q2 :=
        if enable_max_bytes cfg
        then Queue (dequeue q1) (stopped q1) (u64 (current_bytes q1 + queue_item_size item))
        else q1 in
      if enable_max_size cfg then
        if (0 <? maximum_size cfg)%Z then
          let current_size1 := u64 (current_size + 1) in
          if (maximum_size cfg <=? current_size1)%Z then q2
          else replace_loop items' current_size1 q2
        else replace_loop items' current_size q2
      else replace_loop items' current_size q2
  end.

Definition replace (items : list T) q : queue T := replace_loop items 0 (clear q).

(** ** The member functions as calls *)

Inductive queue_call :=
  | CallTryPushBack (item : T)
  | CallTryPushFront (item : T)
  | CallPushBack (item : T)
  | CallPushFront (item : T)
  | CallPopFront
  | CallPopBack
  | CallWaitAndPop
  | CallClear
  | CallReplace (items : list T)
  | CallStop
  | CallFront
  | CallBack
  | CallEmpty
  | CallSize
  | CallToVector.

Inductive queue_result :=
  | RUnit
  | RBool (b : bool)
  | RSize (n : Z)
  | RItem (item : T)
  | ROptional (item : option T)
  | RVector (items : list T)
  | RThrow (what : string)
  | RBlocked.

Definition result_of (o : outcome T) : queue_result :=
  match o with
  | Returns item => RItem item
  | Throws what => RThrow what
  | Undefined => RBlocked
  end.

Definition result_of_pop (o : outcome (T * queue T)) q : queue_result * queue T :=
  match o with
  | Returns (item, q') => (RItem item, q')
  | Throws what => (RThrow what, q)
  | Undefined => (RBlocked, q)
  end.

Definition call (c : queue_call) q : queue_result * queue T * signal :=
  match c with
  | CallTryPushBack item =>
      let '(b, q', s) := try_push_back item q in (RBool b, q', s)
  | CallTryPushFront item =>
      let '(b, q', s) := try_push_front item q in (RBool b, q', s)
  | CallPushBack item => let '(q', s) := push_back item q in (RUnit, q', s)
  | CallPushFront item => let '(q', s) := push_front item q in (RUnit, q', s)
  | CallPopFront => (result_of_pop (pop_front q) q, NoSignal)
  | CallPopBack => (result_of_pop (pop_back q) q, NoSignal)
  | CallWaitAndPop =>
      match wait_and_pop q with
      | None => (RBlocked, q, NoSignal)
      | Some (item, q') => (ROptional item, q', NoSignal)
      end
  | CallClear => (RUnit, clear q, NoSignal)
  | CallReplace items => (RUnit, replace items q, NoSignal)
  | CallStop => let '(q', s) := stop q in (RUnit, q', s)
  | CallFront => (result_of (front q), q, NoSignal)
  | CallBack => (result_of (back q), q, NoSignal)
  | CallEmpty => (RBool (empty q), q, NoSignal)
  | CallSize => (RSize (size q), q, NoSignal)
  | CallToVector => (RVector (to_vector q), q, NoSignal)
  end.

Fixpoint calls (cs : list queue_call) q : list queue_result * queue T :=
  match cs with
  | [] => ([], q)
  | c :: cs' =>
      let '(r, q1, _) := call c q in
      let '(rs, q2) := calls cs' q1 in
      (r :: rs, q2)
  end.

(** ** The abstract bounded deque

    What the class promises: a sequence and a closed flag; an addition with a
    check is admitted exactly when the queue is open and both limits still
    hold after it.  No byte counter, no machine arithmetic. *)
Record bounded_deque := BoundedDeque { contents : list T; closed : bool }.
Implicit Types (d : bounded_deque).

Definition total_bytes (l : list T) : Z := zsum queue_item_size l.

Definition admits item d : bool :=
  negb (closed d)
  && (negb size_limited || (zlen (contents d) + 1 <=? maximum_size cfg))%Z
  && (negb bytes_limited
      || (total_bytes (contents d) + queue_item_size item <=? maximum_bytes cfg))%Z.

(** The prefix that [replace] keeps. *)
Definition kept_by_replace (items : list T) : list T :=
  if size_limited then take (Z.to_nat (maximum_size cfg)) items else items.

Definition head_result (l : list T) : queue_result :=
  match head l with Some item => RItem item | None => RThrow queue_is_empty_error end.

Definition last_result (l : list T) : queue_result :=
  match last l with Some item => RItem item | None => RThrow queue_is_empty_error end.

Definition spec_call (c : queue_call) d : queue_result * bounded_deque :=
  let with_contents l := BoundedDeque l (closed d) in
  match c with
  | CallTryPushBack item =>
      if admits item d then (RBool true, with_contents (contents d ++ [item])) else (RBool false, d)
  | CallTryPushFront item =>
      if admits item d then (RBool true, with_contents (item :: contents d)) else (RBool false, d)
  | CallPushBack item => (RUnit, with_contents (contents d ++ [item]))
  | CallPushFront item => (RUnit, with_contents (item :: contents d))
  | CallPopFront => (head_result (contents d), with_contents (tail (contents d)))
  | CallPopBack => (last_result (contents d), with_contents (removelast (contents d)))
  | CallWaitAndPop =>
      match contents d with
      | [] => if closed d then (ROptional None, d) else (RBlocked, d)
      | item :: l => (ROptional (Some item), with_contents l)
      end
  | CallClear => (RUnit, with_contents [])
  | CallReplace items => (RUnit, with_contents (kept_by_replace items))
  | CallStop => (RUnit, BoundedDeque (contents d) true)
  | CallFront => (head_result (contents d), d)
  | CallBack => (last_result (contents d), d)
  | CallEmpty => (RBool (bool_decide (contents d = [])), d)
  | CallSize => (RSize (zlen (contents d)), d)
  | CallToVector => (RVector (contents d), d)
  end.

(** The run of a call sequence; [None] once the elements held no longer add up
    to a [size_t], which needs more than 2{^64} bytes of payload. *)
Fixpoint spec_calls (cs : list queue_call) d : option (list queue_result * bounded_deque) :=
  if (two64 <=? total_bytes (contents d))%Z then None else
  match cs with
  | [] => Some ([], d)
  | c :: cs' =>
      let '(r, d1) := spec_call c d in
      match spec_calls cs' d1 with
      | None => None
      | Some (rs, d2) => Some (r :: rs, d2)
      end
  end.

(** The byte counter agrees with the contents, modulo the width of [size_t]. *)
Definition accounted q : Prop :=
  bytes_limited = true → current_bytes q = u64 (total_bytes (dequeue q)).

(** The representation relation. *)
Record represents q d : Prop := Represents {
  represents_contents : dequeue q = contents d;
  represents_closed : stopped q = closed d;
  represents_accounted : accounted q
}.

(** ** Limits kept by the checked operations *)
Record within_limits q : Prop := WithinLimits {
  within_size : size_limited = true → (zlen (dequeue q) <= maximum_size cfg)%Z;
  within_bytes : bytes_limited = true → (total_bytes (dequeue q) <= maximum_bytes cfg)%Z;
  within_accounted : accounted q
}.

(** The calls that check the limits, remove elements or only look. *)
Definition checked_call (c : queue_call) : bool :=
  match c with
  | CallPushBack _ | CallPushFront _ | CallReplace _ => false
  | _ => true
  end.

End queue.
Arguments queue_call : clear implicits.
Arguments queue_result : clear implicits.
Arguments bounded_deque : clear implicits.

(** [maximum_size] and [maximum_bytes] are [size_t] members. *)
Record wf_config (cfg : queue_config) : Prop := WfConfig {
  wf_maximum_size : is_u64 (maximum_size cfg);
  wf_maximum_bytes : is_u64 (maximum_bytes cfg)
}.

Lemma wf_bounded_config n b : is_u64 n → is_u64 b → wf_config (bounded_config n b).
Proof. by constructor. Qed.

Create HintDb queue.
#[export] Hint Resolve wf_bounded_config : queue.

Section queue_lemmas.
Context {T : Type} `{QueueSizeTraits T} (cfg : queue_config) (Hcfg : wf_config cfg).
Implicit Types (q : queue T) (d : bounded_deque T) (item : T).

Lemma total_bytes_nonneg (l : list T) : (0 ≤ total_bytes l)%Z.
Proof. apply zsum_nonneg. intros x. apply queue_item_size_range. Qed.

Lemma total_bytes_app (l k : list T) : total_bytes (l ++ k) = (total_bytes l + total_bytes k)%Z.
Proof. apply zsum_app. Qed.

Lemma total_bytes_cons item (l : list T) :
  total_bytes (item :: l) = (queue_item_size item + total_bytes l)%Z.
Proof. done. Qed.

Lemma total_bytes_one item : total_bytes [item] = queue_item_size item.
Proof. unfold total_bytes, zsum. simpl. lia. Qed.

Lemma size_limited_nonzero :
  size_limited cfg = true ↔ enable_max_size cfg = true ∧ (0 < maximum_size cfg)%Z.
Proof.
  destruct Hcfg as [[Hs _] _]. unfold size_limited. rewrite andb_true_iff, negb_true_iff, Z.eqb_neq.
  split; intros [? ?]; split; done || lia.
Qed.

Lemma bytes_limited_enabled : bytes_limited cfg = true → enable_max_bytes cfg = true.
Proof. unfold bytes_limited. by intros [? _]%andb_true_iff. Qed.

(** Adding [n] bytes to an accounted counter accounts for any sequence with
    [n] more bytes; likewise for removals. *)
Lemma accounted_shift q q' n :
  accounted cfg q →
  (bytes_limited cfg = true →
    current_bytes q' = u64 (current_bytes q + n)
    ∧ total_bytes (dequeue q') = (total_bytes (dequeue q) + n)%Z) →
  accounted cfg q'.
Proof.
  intros Hq Hq' Hb. destruct (Hq' Hb) as [-> ->]. rewrite (Hq Hb). by autorewrite with u64_rw.
Qed.

Lemma accounted_new : accounted cfg new_queue.
Proof. by intros _. Qed.

(** *** The protocol functions *)

(** On an accounted queue whose elements add up to a [size_t], the check is
    the test of both limits on the contents. *)
Lemma pre_addition_check_admits item q d :
  represents cfg q d → (bytes_limited cfg = true → (total_bytes (contents d) < two64)%Z) →
  pre_addition_check_protocol cfg item q =
    if admits cfg item d
    then (true, unchecked_addition_protocol cfg item q) else (false, q).
Proof.
  intros [Hc Hs Ha] Hfit.
  pose proof (total_bytes_nonneg (contents d)) as Hnn.
  pose proof (queue_item_size_range item) as Hi. unfold is_u64 in Hi.
  unfold pre_addition_check_protocol, admits, unchecked_addition_protocol.
  rewrite Hs, Hc. destruct (closed d); [done|]. simpl.
  replace (zlen (contents d) + 1 <=? maximum_size cfg)%Z
    with (negb (maximum_size cfg <=? zlen (contents d))%Z) by (zbool; simpl; lia || done).
  destruct (size_limited cfg); simpl;
    (destruct (maximum_size cfg <=? zlen (contents d))%Z; simpl; try done);
    (destruct (bytes_limited cfg) eqn:Hb; simpl; [|done]);
    specialize (Hfit eq_refl); rewrite (Ha Hb), Hc, u64_small by (split; assumption);
    destruct Hcfg as [_ [Hm0 Hm1]]; unfold is_u64 in *;
    (destruct (Z.ltb_spec (maximum_bytes cfg) (total_bytes (contents d))); simpl;
      [|rewrite u64_small by (unfold is_u64; lia)]);
    zbool; simpl; done || lia.
Qed.

Lemma unchecked_addition_dequeue item q :
  dequeue (unchecked_addition_protocol cfg item q) = dequeue q.
Proof. unfold unchecked_addition_protocol. by case_match. Qed.

Lemma unchecked_addition_stopped item q :
  stopped (unchecked_addition_protocol cfg item q) = stopped q.
Proof. unfold unchecked_addition_protocol. by case_match. Qed.

Lemma removal_dequeue item q : dequeue (removal_protocol cfg item q) = dequeue q.
Proof. unfold removal_protocol. by case_match. Qed.

Lemma removal_stopped item q : stopped (removal_protocol cfg item q) = stopped q.
Proof. unfold removal_protocol. by case_match. Qed.

Lemma unchecked_addition_bytes item q :
  bytes_limited cfg = true →
  current_bytes (unchecked_addition_protocol cfg item q)
    = u64 (current_bytes q + queue_item_size item).
Proof. unfold unchecked_addition_protocol. by intros ->. Qed.

Lemma removal_bytes item q :
  bytes_limited cfg = true →
  current_bytes (removal_protocol cfg item q)
    = u64 (current_bytes q + - queue_item_size item).
Proof. unfold removal_protocol. by intros ->. Qed.
End queue_lemmas.

#[export] Hint Rewrite @unchecked_addition_dequeue @unchecked_addition_stopped
  @removal_dequeue @removal_stopped @total_bytes_app @total_bytes_cons @total_bytes_one
  : zlist.
#[export] Hint Resolve accounted_new : queue.

Section queue_theorems.
Context {T : Type} `{QueueSizeTraits T} (cfg : queue_config) (Hcfg : wf_config cfg).
Implicit Types (q : queue T) (d : bounded_deque T) (item : T).

(** *** Representation is kept by the state changes *)

Lemma represents_new : represents cfg new_queue (BoundedDeque [] false : bounded_deque T).
Proof. by constructor. Qed.

Lemma represents_push item q d (back_end : bool) :
  represents cfg q d →
  let q1 := unchecked_addition_protocol cfg item q in
  represents cfg (if back_end then emplace_back item q1 else emplace_front item q1)
    (BoundedDeque (if back_end then contents d ++ [item] else item :: contents d) (closed d)).
Proof.
  intros [Hc Hs Ha]. split.
  - destruct back_end; simpl; autorewrite with zlist; by rewrite Hc.
  - destruct back_end; simpl; autorewrite with zlist; done.
  - apply (accounted_shift cfg q _ (queue_item_size item)); [done|]. intros Hb.
    destruct back_end; simpl; autorewrite with zlist;
      rewrite unchecked_addition_bytes by done; split; done || lia.
Qed.

Lemma represents_drop_front item l q d :
  represents cfg q d → contents d = item :: l →
  represents cfg (drop_front (removal_protocol cfg item q)) (BoundedDeque l (closed d)).
Proof.
  intros [Hc Hs Ha] Hl. split; simpl; autorewrite with zlist; [by rewrite Hc, Hl|done|].
  apply (accounted_shift cfg q _ (- queue_item_size item)); [done|]. intros Hb.
  simpl. autorewrite with zlist. rewrite removal_bytes, Hc, Hl by done. simpl.
  autorewrite with zlist. split; [done|lia].
Qed.

Lemma represents_drop_back item l q d :
  represents cfg q d → contents d = l ++ [item] →
  represents cfg (drop_back (removal_protocol cfg item q)) (BoundedDeque l (closed d)).
Proof.
  intros [Hc Hs Ha] Hl.
  split; simpl; autorewrite with zlist; [by rewrite Hc, Hl, removelast_last|done|].
  apply (accounted_shift cfg q _ (- queue_item_size item)); [done|]. intros Hb.
  simpl. autorewrite with zlist. rewrite removal_bytes, Hc, Hl, removelast_last by done.
  autorewrite with zlist. split; [done|lia].
Qed.

(** *** [replace] *)

(** What the loop keeps of [items] when [n] elements are already in. *)
Definition kept_from (n : Z) (items : list T) : list T :=
  if size_limited cfg then take (Z.to_nat (maximum_size cfg - n)) items else items.

Definition replace_step item q : queue T :=
  let q1 := emplace_back item q in
  if enable_max_bytes cfg
  then Queue (dequeue q1) (stopped q1) (u64 (current_bytes q1 + queue_item_size item))
  else q1.

Lemma replace_loop_cons item items n q :
  (0 ≤ n)%Z → (size_limited cfg = true → (n < maximum_size cfg)%Z) →
  replace_loop cfg (item :: items) n q =
    if size_limited cfg && (maximum_size cfg <=? n + 1)%Z then replace_step item q
    else replace_loop cfg items (if size_limited cfg then n + 1 else n)%Z (replace_step item q).
Proof.
  intros Hn Hlt. destruct Hcfg as [[Hm0 Hm1] _]. revert Hlt.
  simpl. unfold size_limited, replace_step. destruct (enable_max_size cfg); simpl; [|done].
  destruct (Z.eqb_spec (maximum_size cfg) 0) as [->|Hne]; simpl; [done|]. intros Hlt.
  specialize (Hlt eq_refl). rewrite (proj2 (Z.ltb_lt 0 _)) by lia.
  rewrite (u64_small (n + 1)) by (unfold is_u64; lia). done.
Qed.

Lemma kept_from_cons item items n :
  (size_limited cfg = true → (n < maximum_size cfg)%Z) →
  kept_from n (item :: items) =
    item :: (if size_limited cfg && (maximum_size cfg <=? n + 1)%Z then []
             else kept_from (if size_limited cfg then n + 1 else n)%Z items).
Proof.
  unfold kept_from. destruct (size_limited cfg); simpl; [|done]. intros Hlt.
  specialize (Hlt eq_refl).
  replace (Z.to_nat (maximum_size cfg - n)) with (S (Z.to_nat (maximum_size cfg - (n + 1)))) by lia.
  rewrite firstn_cons. f_equal. destruct (Z.leb_spec (maximum_size cfg) (n + 1)); [|done].
  by replace (Z.to_nat _) with 0 by lia.
Qed.

Lemma replace_step_bytes item q :
  enable_max_bytes cfg = true →
  current_bytes (replace_step item q) = u64 (current_bytes q + queue_item_size item).
Proof. unfold replace_step. by intros ->. Qed.

Lemma replace_step_rest item q :
  dequeue (replace_step item q) = dequeue q ++ [item] ∧ stopped (replace_step item q) = stopped q.
Proof. unfold replace_step. by case_match. Qed.

Lemma replace_loop_spec items n q :
  (0 ≤ n)%Z → (size_limited cfg = true → (n < maximum_size cfg)%Z) → is_u64 (current_bytes q) →
  let q' := replace_loop cfg items n q in
  dequeue q' = dequeue q ++ kept_from n items
  ∧ stopped q' = stopped q
  ∧ (enable_max_bytes cfg = true →
      current_bytes q' = u64 (current_bytes q + total_bytes (kept_from n items))).
Proof.
  revert n q. induction items as [|item items IH]; intros n q Hn Hlt Hu; cbn zeta.
  { simpl. unfold kept_from. rewrite take_nil. replace (if size_limited cfg then [] else []) with (@nil T)
      by (by case_match). rewrite app_nil_r, Z.add_0_r. by rewrite u64_small. }
  rewrite replace_loop_cons, kept_from_cons by done.
  destruct (replace_step_rest item q) as [Hd Hs].
  assert (is_u64 (current_bytes (replace_step item q))) as Hu'.
  { unfold replace_step. case_match; simpl; auto with u64. }
  destruct (size_limited cfg && (maximum_size cfg <=? n + 1)%Z) eqn:Hstop.
  { rewrite Hd, Hs. split_and!; [done..|]. intros He. rewrite replace_step_bytes by done.
    by autorewrite with zlist. }
  destruct (IH (if size_limited cfg then n + 1 else n)%Z (replace_step item q)) as (Hd' & Hs' & Hb').
  { case_match; lia. }
  { intros Hl. rewrite Hl in *. simpl in Hstop. zbool; [done|lia]. }
  { done. }
  rewrite Hd', Hs', Hd, Hs, <-app_assoc. split_and!; [done..|].
  intros He. rewrite Hb', replace_step_bytes by done. autorewrite with u64_rw zlist.
  f_equal. lia.
Qed.

Lemma kept_from_0 items : kept_from 0 items = kept_by_replace cfg items.
Proof. unfold kept_from, kept_by_replace. by rewrite Z.sub_0_r. Qed.

Lemma represents_replace items q d :
  represents cfg q d →
  represents cfg (replace cfg items q) (BoundedDeque (kept_by_replace cfg items) (closed d)).
Proof.
  intros [Hc Hs Ha]. unfold replace.
  destruct (replace_loop_spec items 0 (clear q)) as (Hd & Hst & Hb); [done| |done|].
  { intros Hl. by apply size_limited_nonzero in Hl as [_ ?]. }
  rewrite kept_from_0 in *. split; simpl; [done|by rewrite Hst|].
  intros Hbl. rewrite (Hb (bytes_limited_enabled cfg Hbl)), Hd. done.
Qed.

(** *** One call *)

Lemma try_push_refines item (back_end : bool) q d :
  represents cfg q d → (bytes_limited cfg = true → (total_bytes (contents d) < two64)%Z) →
  let q1 := unchecked_addition_protocol cfg item q in
  (if back_end then try_push_back cfg item q else try_push_front cfg item q) =
    if admits cfg item d
    then (true, if back_end then emplace_back item q1 else emplace_front item q1, NotifyOne)
    else (false, q, NoSignal).
Proof.
  intros Hr Hfit. unfold try_push_back, try_push_front.
  rewrite (pre_addition_check_admits cfg Hcfg item q d) by done.
  destruct back_end, (admits cfg item d); done.
Qed.

Lemma represents_stop q d :
  represents cfg q d → represents cfg (stop q).1 (BoundedDeque (contents d) true).
Proof. intros [Hc Hs Ha]. unfold stop. destruct (stopped q) eqn:E; by split. Qed.

Lemma represents_clear q d :
  represents cfg q d → represents cfg (clear q) (BoundedDeque [] (closed d)).
Proof. intros [Hc Hs Ha]. by split. Qed.

Lemma call_refines c q d :
  represents cfg q d → (bytes_limited cfg = true → (total_bytes (contents d) < two64)%Z) →
  (call cfg c q).1.1 = (spec_call cfg c d).1
  ∧ represents cfg (call cfg c q).1.2 (spec_call cfg c d).2.
Proof.
  intros Hr Hfit. pose proof Hr as [Hc Hs Ha].
  destruct c as [item|item|item|item| | | | |items| | | | | | ]; simpl.
  - rewrite (try_push_refines item true q d Hr Hfit).
    destruct (admits cfg item d); simpl; [|done]. split; [done|]. by apply (represents_push _ _ _ true).
  - rewrite (try_push_refines item false q d Hr Hfit).
    destruct (admits cfg item d); simpl; [|done]. split; [done|]. by apply (represents_push _ _ _ false).
  - split; [done|]. by apply (represents_push _ _ _ true).
  - split; [done|]. by apply (represents_push _ _ _ false).
  - unfold pop_front, head_result. rewrite Hc. destruct d as [[|x l] cl]; simpl; [done|].
    split; [done|]. by apply (represents_drop_front x l q (BoundedDeque (x :: l) cl)).
  - unfold pop_back, last_result. rewrite Hc. destruct (last (contents d)) as [x|] eqn:Hl; simpl.
    + split; [done|]. apply (represents_drop_back x); [done|]. by apply last_split.
    + apply last_None in Hl. rewrite Hl. split; [done|]. destruct d; simpl in *. by rewrite Hl in Hr.
  - unfold wait_and_pop, wait_ready, empty, wait_and_pop_ready. rewrite Hc, Hs.
    destruct d as [[|x l] cl]; simpl; [by destruct cl|]. rewrite orb_true_r. simpl.
    split; [done|]. by apply (represents_drop_front x l q (BoundedDeque (x :: l) cl)).
  - split; [done|]. by apply represents_clear.
  - split; [done|]. by apply represents_replace.
  - pose proof (represents_stop q d Hr) as Hst. by destruct (stop q).
  - unfold front, head_result. rewrite Hc. by destruct (contents d).
  - unfold back, last_result. rewrite Hc. by destruct (last (contents d)).
  - unfold empty. rewrite Hc. by destruct (contents d).
  - unfold size. by rewrite Hc.
  - unfold to_vector. by rewrite Hc.
Qed.

(** *** Call sequences *)

Lemma calls_refine cs q d rs d' :
  represents cfg q d → spec_calls cfg cs d = Some (rs, d') →
  (calls cfg cs q).1 = rs ∧ represents cfg (calls cfg cs q).2 d'.
Proof.
  revert q d rs. induction cs as [|c cs IH]; intros q d rs Hr; simpl;
    (destruct (Z.leb_spec two64 (total_bytes (contents d))); [done|]).
  { by intros [= <- <-]. }
  destruct (call_refines c q d Hr) as [Hres Hr']; [done|].
  destruct (call cfg c q) as [[r q1] sg], (spec_call cfg c d) as [r' d1]; simpl in *.
  destruct (spec_calls cfg cs d1) as [[rs1 d2]|] eqn:Hcs; [|done]. intros [= <- <-].
  destruct (IH q1 d1 rs1 Hr' Hcs) as [Hrs Hq2].
  destruct (calls cfg cs q1) as [rs2 q2]; simpl in *. by subst.
Qed.
End queue_theorems.

Section queue_limits.
Context {T : Type} `{QueueSizeTraits T} (cfg : queue_config) (Hcfg : wf_config cfg).
Implicit Types (q : queue T) (d : bounded_deque T) (item : T).

Lemma admits_within item d :
  admits cfg item d = true →
  (size_limited cfg = true → (zlen (contents d) + 1 ≤ maximum_size cfg)%Z)
  ∧ (bytes_limited cfg = true →
      (total_bytes (contents d) + queue_item_size item ≤ maximum_bytes cfg)%Z).
Proof.
  unfold admits. intros [[_ Hs]%andb_true_iff Hb]%andb_true_iff.
  split; intros Hl; rewrite Hl in *; simpl in *; by apply Z.leb_le.
Qed.

Lemma represents_self q : accounted cfg q → represents cfg q (BoundedDeque (dequeue q) (stopped q)).
Proof. by constructor. Qed.

Lemma tail_within (l : list T) : (zlen (tail l) ≤ zlen l ∧ total_bytes (tail l) ≤ total_bytes l)%Z.
Proof.
  destruct l as [|x l]; simpl; [done|]. autorewrite with zlist.
  pose proof (queue_item_size_range x) as [? _]. lia.
Qed.

Lemma removelast_within (l : list T) :
  (zlen (removelast l) ≤ zlen l ∧ total_bytes (removelast l) ≤ total_bytes l)%Z.
Proof.
  destruct (last l) as [x|] eqn:Hl.
  - apply last_split in Hl. rewrite Hl at 2 4. autorewrite with zlist.
    pose proof (queue_item_size_range x) as [? _]. lia.
  - by apply last_None in Hl as ->.
Qed.

Lemma spec_call_within c d :
  checked_call c = true →
  (size_limited cfg = true → (zlen (contents d) ≤ maximum_size cfg)%Z) →
  (bytes_limited cfg = true → (total_bytes (contents d) ≤ maximum_bytes cfg)%Z) →
  let d' := (spec_call cfg c d).2 in
  (size_limited cfg = true → (zlen (contents d') ≤ maximum_size cfg)%Z)
  ∧ (bytes_limited cfg = true → (total_bytes (contents d') ≤ maximum_bytes cfg)%Z).
Proof.
  pose proof (tail_within (contents d)). pose proof (removelast_within (contents d)).
  destruct Hcfg as [[? _] [? _]].
  assert (zlen (@nil T) = 0%Z ∧ total_bytes (@nil T) = 0%Z) as [Hz0 Hb0] by done.
  intros Hc Hs Hb. destruct c; simpl in *; try done;
    try (match goal with |- context [ admits ?c ?i ?d ] =>
           destruct (admits c i d) eqn:Ha; [apply admits_within in Ha as [Has Hab]|done] end;
         simpl; autorewrite with zlist; split; intros Hl;
         [specialize (Has Hl)|specialize (Hab Hl)]; lia);
    try (split; intros Hl; [specialize (Hs Hl)|specialize (Hb Hl)]; lia).
  destruct (contents d) as [|x l] eqn:E; simpl in *; [case_match; simpl; by rewrite E|].
  split; intros Hl; [specialize (Hs Hl)|specialize (Hb Hl)]; lia.
Qed.

Lemma call_within_limits c q :
  checked_call c = true → within_limits cfg q → within_limits cfg (call cfg c q).1.2.
Proof.
  intros Hc [Hs Hb Ha]. pose proof (represents_self q Ha) as Hr.
  destruct (call_refines cfg Hcfg c q _ Hr) as [_ [Hd' _ Ha']].
  { intros Hl. destruct Hcfg as [_ [_ Hm]]. specialize (Hb Hl). simpl. lia. }
  destruct (spec_call_within c (BoundedDeque (dequeue q) (stopped q)) Hc Hs Hb) as [Hs' Hb'].
  split; [| |done]; by rewrite Hd'.
Qed.

Lemma calls_within_limits cs q :
  forallb checked_call cs = true → within_limits cfg q → within_limits cfg (calls cfg cs q).2.
Proof.
  revert q. induction cs as [|c cs IH]; intros q; simpl; [done|].
  intros [Hc Hcs]%andb_true_iff Hq. apply (call_within_limits c) in Hq; [|done].
  destruct (call cfg c q) as [[r q1] sg]. specialize (IH q1 Hcs Hq).
  by destruct (calls cfg cs q1).
Qed.

Lemma within_limits_new : within_limits cfg (new_queue : queue T).
Proof. destruct Hcfg as [[? _] [? _]]. by split. Qed.

(** *** Shutdown *)

Lemma calls_cons c cs q :
  (calls cfg (c :: cs) q).1 = (call cfg c q).1.1 :: (calls cfg cs (call cfg c q).1.2).1.
Proof. simpl. destruct (call cfg c q) as [[r q1] s]. simpl. by destruct (calls cfg cs q1). Qed.

Lemma call_stopped c q : stopped q = true → stopped (call cfg c q).1.2 = true.
Proof.
  intros Hs. destruct c as [item|item|item|item| | | | |items| | | | | | ]; simpl; try done;
    unfold try_push_back, try_push_front, pre_addition_check_protocol, stop, push_back, push_front,
      pop_front, pop_back, wait_and_pop, wait_and_pop_ready;
    rewrite ?Hs; simpl; repeat case_match; simplify_eq/=; autorewrite with zlist; try done.
  unfold replace. destruct (replace_loop_spec cfg Hcfg items 0 (clear q)) as (_ & -> & _); [done| |done..].
  intros Hl. by apply (size_limited_nonzero cfg Hcfg) in Hl as [_ ?].
Qed.

Lemma try_push_stopped item q :
  stopped q = true →
  try_push_back cfg item q = (false, q, NoSignal) ∧ try_push_front cfg item q = (false, q, NoSignal).
Proof. intros Hs. unfold try_push_back, try_push_front, pre_addition_check_protocol. by rewrite Hs. Qed.

Lemma drain_stopped q :
  stopped q = true →
  (calls cfg (replicate (S (length (dequeue q))) CallWaitAndPop) q).1
    = (ROptional ∘ Some <$> dequeue q) ++ [ROptional None].
Proof.
  remember (dequeue q) as l eqn:Hl. revert q Hl.
  induction l as [|x l IH]; intros q Hl Hs; cbn [length]; rewrite replicate_S, calls_cons.
  { simpl. unfold wait_and_pop, wait_ready, wait_and_pop_ready. by rewrite Hs, <-Hl. }
  assert (call cfg CallWaitAndPop q
          = (ROptional (Some x), drop_front (removal_protocol cfg x q), NoSignal)) as ->.
  { simpl. unfold wait_and_pop, wait_ready, wait_and_pop_ready. by rewrite Hs, <-Hl. }
  cbn [fst snd]. rewrite IH; [done|simpl..]; autorewrite with zlist; [by rewrite <-Hl|done].
Qed.
End queue_limits.

Section queue_shapes.
Context {T : Type} `{QueueSizeTraits T} (cfg : queue_config).
Implicit Types (q : queue T) (item : T).

(** ** What one call does to the sequence held *)

(** An insertion either leaves the queue alone and sends nothing, or adds the
    element and notifies one waiter. *)
Lemma try_push_back_shape item q :
  (∃ q1, try_push_back cfg item q = (true, q1, NotifyOne) ∧ dequeue q1 = dequeue q ++ [item]
    ∧ stopped q1 = stopped q)
  ∨ try_push_back cfg item q = (false, q, NoSignal).
Proof.
  unfold try_push_back, pre_addition_check_protocol.
  repeat case_match; simplify_eq; first [by right | left; eexists; by split_and!].
Qed.

Lemma try_push_front_shape item q :
  (∃ q1, try_push_front cfg item q = (true, q1, NotifyOne) ∧ dequeue q1 = item :: dequeue q
    ∧ stopped q1 = stopped q)
  ∨ try_push_front cfg item q = (false, q, NoSignal).
Proof.
  unfold try_push_front, pre_addition_check_protocol.
  repeat case_match; simplify_eq; first [by right | left; eexists; by split_and!].
Qed.

Lemma push_back_shape item q :
  ∃ q1, push_back cfg item q = (q1, NotifyOne)
    ∧ dequeue q1 = dequeue q ++ [item] ∧ stopped q1 = stopped q.
Proof. eexists. split; [done|]. simpl. by autorewrite with zlist. Qed.

Lemma push_front_shape item q :
  ∃ q1, push_front cfg item q = (q1, NotifyOne)
    ∧ dequeue q1 = item :: dequeue q ∧ stopped q1 = stopped q.
Proof. eexists. split; [done|]. simpl. by autorewrite with zlist. Qed.

Lemma pop_front_shape q :
  (∃ item q1, pop_front cfg q = Returns (item, q1) ∧ dequeue q = item :: dequeue q1
    ∧ stopped q1 = stopped q)
  ∨ (dequeue q = [] ∧ pop_front cfg q = Throws queue_is_empty_error).
Proof.
  unfold pop_front. destruct (dequeue q) as [|x l] eqn:E; [by right|left].
  eexists _, _. split; [done|]. simpl. autorewrite with zlist. by rewrite E.
Qed.

Lemma pop_back_shape q :
  (∃ item q1, pop_back cfg q = Returns (item, q1) ∧ dequeue q = dequeue q1 ++ [item]
    ∧ stopped q1 = stopped q)
  ∨ (dequeue q = [] ∧ pop_back cfg q = Throws queue_is_empty_error).
Proof.
  unfold pop_back. destruct (last (dequeue q)) as [x|] eqn:E; [left|right; by apply last_None in E].
  eexists _, _. split; [done|]. simpl. autorewrite with zlist. split; [by apply last_split|done].
Qed.

Lemma wait_ready_shape q :
  (∃ item q1, wait_and_pop_ready cfg q = (Some item, q1) ∧ dequeue q = item :: dequeue q1
    ∧ stopped q1 = stopped q)
  ∨ (dequeue q = [] ∧ wait_and_pop_ready cfg q = (None, q)).
Proof.
  unfold wait_and_pop_ready. destruct (dequeue q) as [|x l] eqn:E; [by right|left].
  eexists _, _. split; [done|]. simpl. autorewrite with zlist. by rewrite E.
Qed.

Lemma wait_ready_false q : wait_ready q = false ↔ stopped q = false ∧ dequeue q = [].
Proof. unfold wait_ready, empty. by destruct (stopped q), (dequeue q); split; intros; simplify_eq/=; destruct_and?. Qed.

Lemma stop_shape q :
  (stop q = (q, NoSignal) ∧ stopped q = true)
  ∨ (∃ q1, stop q = (q1, NotifyAll) ∧ dequeue q1 = dequeue q ∧ stopped q1 = true).
Proof. unfold stop. destruct (stopped q); [by left|right]. by eexists. Qed.

(** [wait_and_pop] as a call blocks, or behaves as its ready part. *)
Lemma wait_and_pop_shape q :
  (wait_and_pop cfg q = None ∧ wait_ready q = false)
  ∨ wait_and_pop cfg q = Some (wait_and_pop_ready cfg q).
Proof. unfold wait_and_pop. destruct (wait_ready q); naive_solver. Qed.
End queue_shapes.

(** ** Properties *)

(** C5. Every sequence of calls on a fresh [thread_safe_queue] returns what the
    abstract bounded deque returns, call by call, and ends in a state that
    represents the abstract one: first-in first-out order, admission by both
    limits, the [break] of [replace], exceptions on an empty queue, and the
    blocking and shutdown behaviour of [wait_and_pop].  The only side
    condition is that the payload held at any time adds up to a [size_t]. *)
Theorem queue_calls_refine_bounded_deque {T : Type} `{QueueSizeTraits T} (cfg : queue_config)
    (cs : list (queue_call T)) (rs : list (queue_result T)) (d : bounded_deque T) :
  wf_config cfg →
  spec_calls cfg cs (BoundedDeque [] false) = Some (rs, d) →
  (calls cfg cs new_queue).1 = rs ∧ represents cfg (calls cfg cs new_queue).2 d.
Proof. intros Hcfg. by apply calls_refine, represents_new. Qed.

(** On a queue used through its checked insertions, removals, [clear],
    [stop] and observers, both configured limits hold after every call
    sequence, and the byte counter is the exact total of the sizes held: it
    never wraps. *)
Theorem queue_checked_calls_bounded {T : Type} `{QueueSizeTraits T} (cfg : queue_config)
    (cs : list (queue_call T)) :
  wf_config cfg → forallb checked_call cs = true →
  let q := (calls cfg cs new_queue).2 in
  (size_limited cfg = true → (size q ≤ maximum_size cfg)%Z)
  ∧ (bytes_limited cfg = true →
      (current_bytes q ≤ maximum_bytes cfg)%Z ∧ current_bytes q = total_bytes (dequeue q)).
Proof.
  intros Hcfg Hcs. destruct (calls_within_limits cfg Hcfg cs new_queue) as [Hs Hb Ha];
    [done|by apply within_limits_new|]. split; [done|]. intros Hl. rewrite (Ha Hl).
  destruct Hcfg as [_ [_ Hm]]. specialize (Hb Hl). rewrite u64_small; [done|].
  split; [apply total_bytes_nonneg|lia].
Qed.

(** [stop] is permanent: once the queue is stopped no call reopens it, both
    checked insertions are refused without changing it, and the consumers
    still receive every element left, in order, and then [std::nullopt]. *)
Theorem stopped_queue_refuses_and_drains {T : Type} `{QueueSizeTraits T} (cfg : queue_config)
    (q : queue T) (c : queue_call T) (item : T) :
  wf_config cfg → stopped q = true →
  stopped (call cfg c q).1.2 = true
  ∧ try_push_back cfg item q = (false, q, NoSignal)
  ∧ try_push_front cfg item q = (false, q, NoSignal)
  ∧ (calls cfg (replicate (S (length (dequeue q))) CallWaitAndPop) q).1
      = (ROptional ∘ Some <$> dequeue q) ++ [ROptional None].
Proof.
  intros Hcfg Hs. split; [by apply call_stopped|].
  destruct (try_push_stopped cfg item q Hs). split_and!; [done..|by apply drain_stopped].
Qed.

(** ** Witnesses *)

(** Queues of 4-byte integers holding at most three elements and ten bytes. *)
Definition int_traits : QueueSizeTraits Z :=
  sizeof_traits Z 4 ltac:(unfold is_u64, two64; lia).

Lemma queue_calls_refine_bounded_deque_witness :
  let cs := [CallTryPushBack 1; CallTryPushFront 2; CallTryPushBack 3; CallPopBack;
             CallReplace [7; 8; 9; 10]; CallStop; CallTryPushBack 5; CallWaitAndPop]%Z in
  let rs := [RBool true; RBool true; RBool false; RItem 1; RUnit; RUnit; RBool false;
             ROptional (Some 7)]%Z in
  (@calls _ int_traits (bounded_config 3 10) cs new_queue).1 = rs
  ∧ @represents _ int_traits (bounded_config 3 10) (@calls _ int_traits (bounded_config 3 10) cs new_queue).2
      (BoundedDeque [8; 9]%Z true).
Proof.
  apply (@queue_calls_refine_bounded_deque _ int_traits).
  - split; vm_compute; intuition discriminate.
  - vm_compute. reflexivity.
Defined.

Lemma queue_checked_calls_bounded_witness :
  let q := (@calls _ int_traits (bounded_config 3 10)
              [CallTryPushBack 1; CallTryPushFront 2; CallTryPushBack 3]%Z new_queue).2 in
  (size q ≤ 3)%Z ∧ (current_bytes q ≤ 10)%Z ∧ dequeue q = [2; 1]%Z.
Proof.
  destruct (@queue_checked_calls_bounded _ int_traits (bounded_config 3 10)
              [CallTryPushBack 1; CallTryPushFront 2; CallTryPushBack 3]%Z) as [Hs Hb].
  - split; vm_compute; intuition discriminate.
  - reflexivity.
  - split; [apply Hs; reflexivity|split; [apply Hb; reflexivity|reflexivity]].
Defined.

Lemma stopped_queue_refuses_and_drains_witness :
  let q : queue Z := Queue [4; 5]%Z true 8 in
  stopped (@call _ int_traits (bounded_config 3 10) (CallReplace [6]%Z) q).1.2 = true
  ∧ @try_push_back _ int_traits (bounded_config 3 10) 6%Z q = (false, q, NoSignal)
  ∧ @try_push_front _ int_traits (bounded_config 3 10) 6%Z q = (false, q, NoSignal)
  ∧ (@calls _ int_traits (bounded_config 3 10) (replicate 3 CallWaitAndPop) q).1
      = [ROptional (Some 4); ROptional (Some 5); ROptional None]%Z.
Proof.
  apply (@stopped_queue_refuses_and_drains _ int_traits (bounded_config 3 10) (Queue [4; 5]%Z true 8)).
  - split; vm_compute; intuition discriminate.
  - reflexivity.
Defined.

(** ** An observation on [replace]

    [replace] looks at [maximum_size] only: it can leave more payload in the
    queue than [maximum_bytes] allows. *)
Lemma replace_ignores_maximum_bytes :
  let q := @replace _ int_traits (bounded_config 3 10) [1; 2; 3]%Z new_queue in
  (maximum_bytes (bounded_config 3 10) < current_bytes q)%Z.
Proof. reflexivity. Qed.
