(* ===== verification/QueueThreads.v ===== *)
(** * Threads on a [thread_safe_queue]

    The interleavings of producers, consumers and the condition variable
    [waiting] of [thread_safe_queue.hpp].  Each member function is one critical
    section on the state ([ThreadSafeQueue.call]); its notification is a later
    step of its own, since the code calls [notify_one] or [notify_all] after
    the scope of the lock.  A consumer in [wait_and_pop] tests the predicate
    with the lock held and is blocked, woken (by a notification or spuriously)
    and tests again.  The history (what was accepted, delivered, discarded) is
    read off the results of the calls. *)
From S2P Require Import Prelude ThreadSafeQueue.

Abbreviation tid := nat (only parsing).

Record history (T : Type) := History {
  accepted : list T;
  delivered : list T;
  discarded : list T
}.
Arguments History {T} accepted delivered discarded.
Arguments accepted {T} h : rename.
Arguments delivered {T} h : rename.
Arguments discarded {T} h : rename.

Record threads (T : Type) := Threads {
  shared : queue T;
  blocked : gset tid;
  awake : gset tid;
  pending_one : nat;
  pending_all : nat;
  log : history T;
  finished : list (tid * option T)
}.
Arguments Threads {T} shared blocked awake pending_one pending_all log finished.
Arguments shared {T} s : rename.
Arguments blocked {T} s : rename.
Arguments awake {T} s : rename.
Arguments pending_one {T} s : rename.
Arguments pending_all {T} s : rename.
Arguments log {T} s : rename.
Arguments finished {T} s : rename.

Definition initial_threads {T : Type} : threads T :=
  Threads new_queue ∅ ∅ 0 0 (History [] [] []) [].

Section threads.
Context {T : Type} `{QueueSizeTraits T} (cfg : queue_config).
Implicit Types (q : queue T) (s : threads T) (c : queue_call T) (t : tid).

(** ** What a call adds to the history *)

Definition accepted_by c (r : queue_result T) (q' : queue T) : list T :=
  match c, r with
  | CallTryPushBack item, RBool true | CallTryPushFront item, RBool true => [item]
  | CallPushBack item, _ | CallPushFront item, _ => [item]
  | CallReplace _, _ => dequeue q'
  | _, _ => []
  end.

Definition delivered_by c (r : queue_result T) : list T :=
  match c, r with
  | CallPopFront, RItem item | CallPopBack, RItem item => [item]
  | CallWaitAndPop, ROptional (Some item) => [item]
  | _, _ => []
  end.

Definition discarded_by c q : list T :=
  match c with CallClear | CallReplace _ => dequeue q | _ => [] end.

Definition record_call c (r : queue_result T) q q' (h : history T) : history T :=
  History (accepted h ++ accepted_by c r q') (delivered h ++ delivered_by c r)
    (discarded h ++ discarded_by c q).

(** ** Steps *)

(** A member function other than [wait_and_pop], up to the unlock. *)
Definition run_call c s : threads T :=
  let '(r, q', sig) := call cfg c (shared s) in
  Threads q' (blocked s) (awake s)
    (pending_one s + if decide (sig = NotifyOne) then 1 else 0)
    (pending_all s + if decide (sig = NotifyAll) then 1 else 0)
    (record_call c r (shared s) q' (log s)) (finished s).

(** Consumer [t] holds the lock in [wait_and_pop], just called or just woken:
    it returns if the predicate holds and blocks otherwise. *)
Definition run_wait t s : threads T :=
  if wait_ready (shared s) then
    let '(item, q') := wait_and_pop_ready cfg (shared s) in
    Threads q' (blocked s) (awake s) (pending_one s) (pending_all s)
      (record_call CallWaitAndPop (ROptional item) (shared s) q' (log s)) (finished s ++ [(t, item)])
  else
    Threads (shared s) ({[t]} ∪ blocked s) (awake s) (pending_one s) (pending_all s)
      (log s) (finished s).

Definition unblock t s : threads T :=
  Threads (shared s) (blocked s ∖ {[t]}) ({[t]} ∪ awake s) (pending_one s) (pending_all s)
    (log s) (finished s).

Definition unblock_all s : threads T :=
  Threads (shared s) ∅ (blocked s ∪ awake s) (pending_one s) (pending_all s) (log s) (finished s).

Definition take_awake t s : threads T :=
  Threads (shared s) (blocked s) (awake s ∖ {[t]}) (pending_one s) (pending_all s)
    (log s) (finished s).

Definition use_one s : threads T :=
  Threads (shared s) (blocked s) (awake s) (pred (pending_one s)) (pending_all s)
    (log s) (finished s).

Definition use_all s : threads T :=
  Threads (shared s) (blocked s) (awake s) (pending_one s) (pred (pending_all s))
    (log s) (finished s).

(** The steps that only move the consumers already inside [wait_and_pop]. *)
Inductive wake_step : threads T → threads T → Prop :=
  | step_notify_one t s :
      0 < pending_one s → t ∈ blocked s → wake_step s (unblock t (use_one s))
  | step_notify_nobody s :
      0 < pending_one s → blocked s = ∅ → wake_step s (use_one s)
  | step_notify_all s :
      0 < pending_all s → wake_step s (unblock_all (use_all s))
  | step_spurious t s :
      t ∈ blocked s → wake_step s (unblock t s)
  | step_resume t s :
      t ∈ awake s → wake_step s (run_wait t (take_awake t s)).

(** All steps; [allowed] says which member functions the program calls. *)
Inductive thread_step (allowed : queue_call T → bool) : threads T → threads T → Prop :=
  | step_call c s :
      allowed c = true → c ≠ CallWaitAndPop → thread_step allowed s (run_call c s)
  | step_wait t s :
      t ∉ blocked s → t ∉ awake s → thread_step allowed s (run_wait t s)
  | step_wake s s' :
      wake_step s s' → thread_step allowed s s'.

Definition reachable (allowed : queue_call T → bool) s : Prop :=
  rtc (thread_step allowed) initial_threads s.

(** The calls of a program that adds at the back and removes at the front. *)
Definition fifo_call c : bool :=
  match c with
  | CallTryPushFront _ | CallPushFront _ | CallPopBack | CallClear | CallReplace _ => false
  | _ => true
  end.

Definition not_replace c : bool := match c with CallReplace _ => false | _ => true end.

Definition any_call c : bool := true.

(** ** Invariants *)

Definition conserved s : Prop :=
  accepted (log s) ≡ₚ delivered (log s) ++ discarded (log s) ++ dequeue (shared s).

Definition in_order s : Prop :=
  accepted (log s) = delivered (log s) ++ dequeue (shared s).

(** While somebody is blocked, every element held has a wake-up under way; and
    a stopped queue with somebody blocked has its [notify_all] under way. *)
Record no_lost_wakeup s : Prop := NoLostWakeup {
  wakeups_cover_elements :
    blocked s ≠ ∅ → length (dequeue (shared s)) ≤ pending_one s + base.size (awake s);
  wakeup_of_stop : blocked s ≠ ∅ → stopped (shared s) = true → 0 < pending_all s;
  blocked_not_awake : blocked s ## awake s
}.

(** The distance to a state in which no consumer is left inside. *)
Definition wake_measure s : nat :=
  2 * base.size (blocked s) + base.size (awake s) + pending_one s + pending_all s.

End threads.

Section thread_lemmas.
Context {T : Type} `{QueueSizeTraits T} (cfg : queue_config).
Implicit Types (q : queue T) (s : threads T) (c : queue_call T) (t : tid).

(** What the other proofs use of a call: the history it records balances the
    change of the sequence (in order, for the calls of a first-in first-out
    program), it adds at most one element, and then notifies, and the flag is
    only set by the call that notifies everybody. *)
Record call_effect c q (r : queue_result T) q' (sig : signal) : Prop := CallEffect {
  effect_balance :
    dequeue q ++ accepted_by c r q' ≡ₚ delivered_by c r ++ discarded_by c q ++ dequeue q';
  effect_in_order : fifo_call c = true → dequeue q ++ accepted_by c r q' = delivered_by c r ++ dequeue q';
  effect_length : not_replace c = true →
    length (dequeue q') ≤ length (dequeue q) + if decide (sig = NotifyOne) then 1 else 0;
  effect_stop : stopped q' = true → stopped q = true ∨ sig = NotifyAll
}.

(** Splits a call by the shape of its critical section. *)
Ltac call_shapes c q :=
  destruct c as [item|item|item|item| | | | |items| | | | | | ];
  [ destruct (try_push_back_shape cfg item q) as [(q1 & Hcall & Hd & Hst)|Hcall]
  | destruct (try_push_front_shape cfg item q) as [(q1 & Hcall & Hd & Hst)|Hcall]
  | destruct (push_back_shape cfg item q) as (q1 & Hcall & Hd & Hst)
  | destruct (push_front_shape cfg item q) as (q1 & Hcall & Hd & Hst)
  | destruct (pop_front_shape cfg q) as [(item & q1 & Hcall & Hd & Hst)|[Hd Hcall]]
  | destruct (pop_back_shape cfg q) as [(item & q1 & Hcall & Hd & Hst)|[Hd Hcall]]
  | destruct (wait_and_pop_shape cfg q) as [[Hcall Hready]|Hcall];
      [|destruct (wait_ready_shape cfg q) as [(item & q1 & Hpop & Hd & Hst)|[Hd Hpop]];
        rewrite Hpop in Hcall]
  | | | destruct (stop_shape q) as [[Hcall Hst]|(q1 & Hcall & Hd & Hst)] | .. ].

Lemma replace_keeps_stopped items q : stopped (replace cfg items q) = stopped q.
Proof.
  unfold replace. change (stopped q) with (stopped (clear q)). generalize 0%Z (clear q).
  induction items as [|item items IH]; intros n q1; simpl; [done|].
  repeat case_match; simpl; rewrite ?IH; done.
Qed.

Lemma call_effects c q r q' sig : call cfg c q = (r, q', sig) → call_effect c q r q' sig.
Proof.
  call_shapes c q; cbn [call]; rewrite ?Hcall; simpl; intros [= <- <- <-]; split; simpl;
    rewrite ?app_nil_r, ?replace_keeps_stopped; auto;
    try (rewrite ?Hd, ?length_app; simpl; intros; first [done | lia | solve_Permutation]);
    try (rewrite Hst; auto).
Qed.

Lemma run_call_effect c s :
  ∃ r q' sig, call_effect c (shared s) r q' sig
    ∧ run_call cfg c s = Threads q' (blocked s) (awake s)
        (pending_one s + if decide (sig = NotifyOne) then 1 else 0)
        (pending_all s + if decide (sig = NotifyAll) then 1 else 0)
        (record_call c r (shared s) q' (log s)) (finished s).
Proof.
  unfold run_call. destruct (call cfg c (shared s)) as [[r q'] sig] eqn:E.
  exists r, q', sig. by split; [apply call_effects|].
Qed.

(** [wait_and_pop] either returns, with the effect of the call, or finds the
    queue open and empty and blocks. *)
Lemma run_wait_effect t s :
  (∃ item q', call_effect CallWaitAndPop (shared s) (ROptional item) q' NoSignal
    ∧ (item = None → stopped (shared s) = true ∧ dequeue (shared s) = [])
    ∧ (length (dequeue q') = pred (length (dequeue (shared s))))
    ∧ stopped q' = stopped (shared s)
    ∧ run_wait cfg t s = Threads q' (blocked s) (awake s) (pending_one s) (pending_all s)
        (record_call CallWaitAndPop (ROptional item) (shared s) q' (log s))
        (finished s ++ [(t, item)]))
  ∨ (stopped (shared s) = false ∧ dequeue (shared s) = []
    ∧ run_wait cfg t s = Threads (shared s) ({[t]} ∪ blocked s) (awake s) (pending_one s)
        (pending_all s) (log s) (finished s)).
Proof.
  unfold run_wait. destruct (wait_ready (shared s)) eqn:Hw; [left|right].
  2:{ apply wait_ready_false in Hw as [? ?]. by split_and!. }
  destruct (wait_ready_shape cfg (shared s)) as [(item & q1 & Hpop & Hd & Hst)|[Hd Hpop]]; rewrite Hpop;
    eexists _, _; (split; [apply call_effects; cbn [call]; unfold wait_and_pop; by rewrite Hw, Hpop|]).
  - split_and!; [done|by rewrite Hd|done|done].
  - split_and!; [|by rewrite Hd|done|done]. intros _. split; [|done].
    unfold wait_ready, empty in Hw. rewrite Hd in Hw. by destruct (stopped (shared s)).
Qed.

(** ** The invariants are kept *)

Lemma conserved_record c q r q' sig h :
  call_effect c q r q' sig →
  accepted h ≡ₚ delivered h ++ discarded h ++ dequeue q →
  accepted (record_call c r q q' h)
    ≡ₚ delivered (record_call c r q q' h) ++ discarded (record_call c r q q' h) ++ dequeue q'.
Proof.
  intros [Hb _ _ _] Hs. destruct h as [acc del dis]; simpl in *. rewrite Hs.
  transitivity (del ++ dis ++ (dequeue q ++ accepted_by c r q')); [solve_Permutation|].
  rewrite Hb. solve_Permutation.
Qed.

Lemma in_order_record c q r q' sig h :
  call_effect c q r q' sig → fifo_call c = true →
  accepted h = delivered h ++ dequeue q →
  accepted (record_call c r q q' h) = delivered (record_call c r q q' h) ++ dequeue q'.
Proof.
  intros [_ Hb _ _] Hf Hs. destruct h as [acc del dis]; simpl in *.
  by rewrite Hs, <-app_assoc, Hb, app_assoc by done.
Qed.

Lemma wake_step_log s s' : wake_step cfg s s' →
  (log s' = log s ∧ shared s' = shared s)
  ∨ (∃ item, call_effect CallWaitAndPop (shared s) (ROptional item) (shared s') NoSignal
      ∧ log s' = record_call CallWaitAndPop (ROptional item) (shared s) (shared s') (log s)).
Proof.
  intros Hstep. destruct Hstep as [| | | |t s Ht]; try by left.
  destruct (run_wait_effect t (take_awake t s)) as [(item & q' & He & _ & _ & _ & ->)|(_ & _ & ->)];
    simpl; eauto.
Qed.

Lemma conserved_step allowed s s' : conserved s → thread_step cfg allowed s s' → conserved s'.
Proof.
  unfold conserved. intros Hs Hstep. destruct Hstep as [c s1 _ _|t s1 _ _|s1 s2 Hstep].
  - destruct (run_call_effect c s1) as (r & q' & sig & He & ->). cbn [log shared]; eapply conserved_record; eauto.
  - destruct (run_wait_effect t s1) as [(item & q' & He & _ & _ & _ & ->)|(_ & _ & ->)];
      [cbn [log shared]; eapply conserved_record; eauto|done].
  - destruct (wake_step_log s1 s2 Hstep) as [[-> ->]|(item & He & ->)];
      [done|cbn [log shared]; eapply conserved_record; eauto].
Qed.

Lemma in_order_step s s' : in_order s → thread_step cfg fifo_call s s' → in_order s'.
Proof.
  unfold in_order. intros Hs Hstep. destruct Hstep as [c s1 Hc _|t s1 _ _|s1 s2 Hstep].
  - destruct (run_call_effect c s1) as (r & q' & sig & He & ->). cbn [log shared]; eapply in_order_record; eauto.
  - destruct (run_wait_effect t s1) as [(item & q' & He & _ & _ & _ & ->)|(_ & _ & ->)];
      [cbn [log shared]; eapply in_order_record; eauto|done].
  - destruct (wake_step_log s1 s2 Hstep) as [[-> ->]|(item & He & ->)];
      [done|cbn [log shared]; eapply in_order_record; eauto].
Qed.
End thread_lemmas.

Section wakeups.
Context {T : Type} `{QueueSizeTraits T} (cfg : queue_config).
Implicit Types (q : queue T) (s : threads T) (c : queue_call T) (t : tid).

Lemma size_awake_add t s : t ∈ blocked s → blocked s ## awake s →
  base.size ({[t]} ∪ awake s) = S (base.size (awake s)).
Proof. intros Ht Hd. rewrite size_union, size_singleton by set_solver. done. Qed.

Lemma size_remove (X : gset tid) t : t ∈ X → base.size X = S (base.size (X ∖ {[t]})).
Proof.
  intros Ht. rewrite (union_difference_singleton_L t X Ht) at 1.
  by rewrite size_union, size_singleton by set_solver.
Qed.

(** Consumer [t] holds the lock and is no longer counted among the awake. *)
Lemma run_wait_no_lost_wakeup t s :
  (blocked s ≠ ∅ → length (dequeue (shared s)) ≤ S (pending_one s + base.size (awake s))) →
  (blocked s ≠ ∅ → stopped (shared s) = true → 0 < pending_all s) →
  blocked s ## awake s → t ∉ awake s →
  no_lost_wakeup (run_wait cfg t s).
Proof.
  intros Hlen Hstop Hdis Ht.
  destruct (run_wait_effect cfg t s) as [(item & q' & _ & _ & Hd & Hst & ->)|(Hst & Hd & ->)];
    split; simpl.
  - intros Hb. specialize (Hlen Hb). lia.
  - by rewrite Hst.
  - done.
  - rewrite Hd. simpl. lia.
  - by rewrite Hst.
  - set_solver.
Qed.

Lemma wake_step_no_lost_wakeup s s' : no_lost_wakeup s → wake_step cfg s s' → no_lost_wakeup s'.
Proof.
  intros [Hlen Hstop Hdis] Hstep.
  destruct Hstep as [t s Hp Ht|s Hp Hb|s Hp|t s Ht|t s Ht].
  - split; simpl; [|set_solver|set_solver].
    intros Hb. rewrite size_awake_add by done. specialize (Hlen ltac:(set_solver)). lia.
  - split; simpl; [by rewrite Hb|by rewrite Hb|set_solver].
  - split; simpl; [done|done|set_solver].
  - split; simpl; [|set_solver|set_solver].
    intros Hb. rewrite size_awake_add by done. specialize (Hlen ltac:(set_solver)). lia.
  - apply run_wait_no_lost_wakeup; simpl; [|done|set_solver|set_solver].
    intros Hb. specialize (Hlen Hb). rewrite (size_remove _ _ Ht) in Hlen. lia.
Qed.

Lemma no_lost_wakeup_step allowed s s' :
  (∀ c, allowed c = true → not_replace c = true) →
  no_lost_wakeup s → thread_step cfg allowed s s' → no_lost_wakeup s'.
Proof.
  intros Hallowed Hs Hstep. destruct Hstep as [c s Hc _|t s Hnb Hna|s s' Hstep].
  - destruct Hs as [Hlen Hstop Hdis].
    destruct (run_call_effect cfg c s) as (r & q' & sig & [_ _ He Hst] & ->).
    specialize (He (Hallowed c Hc)). split; simpl; [| |done].
    + intros Hb. specialize (Hlen Hb). lia.
    + intros Hb Hq. destruct (Hst Hq) as [Hq0| ->]; [specialize (Hstop Hb Hq0); lia|].
      rewrite decide_True by done. lia.
  - destruct Hs as [Hlen Hstop Hdis]. apply run_wait_no_lost_wakeup; [|done..].
    intros Hb. specialize (Hlen Hb). lia.
  - by apply (wake_step_no_lost_wakeup s).
Qed.

Lemma no_lost_wakeup_initial : no_lost_wakeup (initial_threads : threads T).
Proof. by split. Qed.

Lemma no_lost_wakeup_reachable allowed s :
  (∀ c, allowed c = true → not_replace c = true) →
  reachable cfg allowed s → no_lost_wakeup s.
Proof.
  intros Ha Hr. apply (rtc_invariant (thread_step cfg allowed) no_lost_wakeup) with initial_threads;
    [|done|apply no_lost_wakeup_initial]. intros s1 s2. by apply no_lost_wakeup_step.
Qed.

(** ** Termination of the consumers after [stop] *)

Lemma wake_step_stopped s s' :
  wake_step cfg s s' → stopped (shared s) = true → stopped (shared s') = true.
Proof.
  intros Hstep Hs. destruct Hstep as [| | | |t s Ht]; try done.
  by destruct (run_wait_effect cfg t (take_awake t s)) as [(item & q' & _ & _ & _ & Hst & ->)|(Hst & _ & ->)];
    simpl in *; congruence.
Qed.

Lemma wake_step_measure s s' :
  no_lost_wakeup s → stopped (shared s) = true → wake_step cfg s s' →
  wake_measure s' < wake_measure s.
Proof.
  unfold wake_measure. intros [_ _ Hdis] Hstop Hstep.
  destruct Hstep as [t s Hp Ht|s Hp Hb|s Hp|t s Ht|t s Ht];
    cbn [unblock unblock_all use_one use_all blocked awake pending_one pending_all].
  - rewrite size_awake_add, (size_remove _ _ Ht) by done. lia.
  - lia.
  - rewrite size_empty, size_union by done. lia.
  - rewrite size_awake_add, (size_remove _ _ Ht) by done. lia.
  - destruct (run_wait_effect cfg t (take_awake t s)) as [(item & q' & _ & _ & _ & _ & ->)|(Hst & _ & ->)];
      simpl in *; [|congruence]. rewrite (size_remove _ _ Ht). lia.
Qed.

(** A stopped queue in which some consumer is inside can move one of them. *)
Lemma stopped_progress s :
  no_lost_wakeup s → stopped (shared s) = true →
  blocked s ≠ ∅ ∨ awake s ≠ ∅ → ∃ s', wake_step cfg s s'.
Proof.
  intros [_ Hstop _] Hs [Hb|Ha].
  - eexists. apply step_notify_all. by apply Hstop.
  - apply set_choose_L in Ha as [t Ht]. eexists. by apply (step_resume _ t).
Qed.

Lemma stopped_wake_accessible s :
  no_lost_wakeup s → stopped (shared s) = true → Acc (flip (wake_step cfg)) s.
Proof.
  remember (wake_measure s) as n eqn:Hn. revert s Hn.
  induction (lt_wf n) as [n _ IH]. intros s -> Hs Hst. constructor. intros s' Hstep.
  apply (IH (wake_measure s')); [|done| |]; unfold flip in Hstep;
    eauto using wake_step_measure, wake_step_no_lost_wakeup, wake_step_stopped.
Qed.
End wakeups.

Section consumers.
Context {T : Type} `{QueueSizeTraits T} (cfg : queue_config).
Implicit Types (s : threads T) (t : tid).

(** A consumer that is inside [wait_and_pop], or has returned from it. *)
Definition inside_or_returned t s : Prop :=
  t ∈ blocked s ∪ awake s ∨ t ∈ (finished s).*1.

Lemma wake_step_inside t s s' :
  wake_step cfg s s' → inside_or_returned t s → inside_or_returned t s'.
Proof.
  unfold inside_or_returned.
  intros Hstep Hin. destruct Hstep as [u s Hp Hu|s Hp Hb|s Hp|u s Hu|u s Hu]; simpl.
  - destruct Hin; [left|by right]. destruct (decide (t = u)); set_solver.
  - done.
  - set_solver.
  - destruct Hin; [left|by right]. destruct (decide (t = u)); set_solver.
  - destruct (run_wait_effect cfg u (take_awake u s)) as [(item & q' & _ & _ & _ & _ & ->)|(_ & _ & ->)];
      simpl; rewrite ?fmap_app, ?elem_of_app; destruct (decide (t = u)) as [->|]; set_solver.
Qed.

Lemma wake_steps_inside t s s' :
  rtc (wake_step cfg) s s' → inside_or_returned t s → inside_or_returned t s'.
Proof. apply rtc_invariant. intros s1 s2 Hin Hstep. by eapply wake_step_inside. Qed.

Lemma wake_steps_good s s' :
  rtc (wake_step cfg) s s' → no_lost_wakeup s ∧ stopped (shared s) = true →
  no_lost_wakeup s' ∧ stopped (shared s') = true.
Proof.
  refine (rtc_invariant _ (λ x, no_lost_wakeup x ∧ stopped (shared x) = true) _ s s').
  intros s1 s2 [Hn Hs] Hstep. split; [by eapply wake_step_no_lost_wakeup|by eapply wake_step_stopped].
Qed.

Lemma stopped_consumers_end s :
  reachable cfg not_replace s → stopped (shared s) = true →
  Acc (flip (wake_step cfg)) s
  ∧ ∀ s', rtc (wake_step cfg) s s' → (∀ s'', ¬ wake_step cfg s' s'') →
      blocked s' = ∅ ∧ awake s' = ∅
      ∧ ∀ t, t ∈ blocked s ∪ awake s → t ∈ (finished s').*1.
Proof.
  intros Hr Hs. pose proof (no_lost_wakeup_reachable cfg not_replace s (λ _ Hc, Hc) Hr) as Hn.
  split; [by apply stopped_wake_accessible|]. intros s' Hrun Hend.
  destruct (wake_steps_good s s' Hrun (conj Hn Hs)) as [Hn' Hs'].
  assert (blocked s' = ∅ ∧ awake s' = ∅) as [Hb Ha].
  { split; apply dec_stable; intros Hne;
      destruct (stopped_progress cfg s' Hn' Hs' ltac:(auto)) as [s'' Hstep]; by destruct (Hend s''). }
  split_and!; [done..|]. intros t Ht.
  destruct (wake_steps_inside t s s' Hrun (or_introl Ht)) as [Hin|]; [|done].
  rewrite Hb, Ha in Hin. set_solver.
Qed.
End consumers.

(** ** Properties *)

(** C14. Elements are delivered in the order in which they were accepted, under
    every interleaving of producers and consumers that add at the back and
    remove at the front ([push_back], [try_push_back], [pop_front],
    [wait_and_pop], [stop]): what was accepted is what was delivered followed
    by what is still held, so nothing is lost, duplicated or reordered. *)
Theorem fifo_delivery {T : Type} `{QueueSizeTraits T} (cfg : queue_config) (s : threads T) :
  reachable cfg fifo_call s →
  accepted (log s) = delivered (log s) ++ dequeue (shared s).
Proof.
  intros Hr. change (in_order s).
  apply (rtc_invariant (thread_step cfg fifo_call) in_order) with initial_threads; [|done|by cbv].
  intros s1 s2. apply in_order_step.
Qed.

(** Under every interleaving of all member functions, every element ever
    accepted is exactly once delivered to a caller, discarded by [clear] or
    [replace], or still held. *)
Theorem elements_conserved {T : Type} `{QueueSizeTraits T} (cfg : queue_config) (s : threads T) :
  reachable cfg any_call s →
  accepted (log s) ≡ₚ delivered (log s) ++ discarded (log s) ++ dequeue (shared s).
Proof.
  intros Hr. change (conserved s).
  apply (rtc_invariant (thread_step cfg any_call) conserved) with initial_threads; [|done|by cbv].
  intros s1 s2. apply conserved_step.
Qed.


(** After [stop] every consumer returns: from any reachable state of a
    stopped queue the wake-ups terminate whatever their order, and once none is
    left no consumer is blocked or waiting to run, and each one that was inside
    [wait_and_pop] has returned. *)
Theorem stopped_consumers_return {T : Type} `{QueueSizeTraits T} (cfg : queue_config)
    (s : threads T) :
  reachable cfg not_replace s → stopped (shared s) = true →
  Acc (flip (wake_step cfg)) s
  ∧ ∀ s', rtc (wake_step cfg) s s' → (∀ s'', ¬ wake_step cfg s' s'') →
      blocked s' = ∅ ∧ awake s' = ∅
      ∧ ∀ t, t ∈ blocked s ∪ awake s → t ∈ (finished s').*1.
Proof. exact (stopped_consumers_end cfg s). Qed.

(** [replace] does lose wake-ups: it fills the queue without notifying
    [waiting], so a consumer can stay blocked on a non-empty queue with nothing
    left that would wake it (other than a spurious wake-up or a later call). *)
Theorem replace_leaves_consumer_blocked {T : Type} `{QueueSizeTraits T} (cfg : queue_config)
    (item : T) :
  ∃ s, reachable cfg any_call s
    ∧ blocked s = {[0]} ∧ dequeue (shared s) = [item]
    ∧ awake s = ∅ ∧ pending_one s = 0 ∧ pending_all s = 0.
Proof.
  exists (run_call cfg (CallReplace [item]) (run_wait cfg 0 initial_threads)). split.
  - eapply rtc_l; [by apply step_wait|]. eapply rtc_l; [|apply rtc_refl]. by apply step_call.
  - unfold run_call, run_wait. cbn. split_and!; [set_solver| |done..].
    unfold replace. simpl. repeat case_match; done.
Qed.

(** ** Witnesses *)

(** A producer adds two elements while a consumer is blocked; the consumer is
    notified and takes the first. *)
Definition sample_run : threads Z :=
  let cfg := bounded_config 3 10 in
  let s1 := @run_wait _ int_traits cfg 0 initial_threads in
  let s2 := @run_call _ int_traits cfg (CallTryPushBack 1%Z) s1 in
  let s3 := @run_call _ int_traits cfg (CallPushBack 2%Z) s2 in
  let s4 := unblock 0 (use_one s3) in
  @run_wait _ int_traits cfg 0 (take_awake 0 s4).

Lemma sample_run_reachable allowed :
  allowed (CallTryPushBack 1%Z) = true → allowed (CallPushBack 2%Z) = true →
  @reachable _ int_traits (bounded_config 3 10) allowed sample_run.
Proof.
  intros H1 H2. unfold sample_run.
  eapply rtc_l; [by apply (step_wait _ _ 0)|].
  eapply rtc_l; [by apply (step_call _ _ (CallTryPushBack 1%Z))|].
  eapply rtc_l; [by apply (step_call _ _ (CallPushBack 2%Z))|].
  eapply rtc_l; [apply step_wake, (step_notify_one _ 0); vm_compute; [lia|reflexivity]|].
  eapply rtc_l; [apply step_wake, (step_resume _ 0); vm_compute; reflexivity|].
  apply rtc_refl.
Qed.

Lemma fifo_delivery_witness :
  delivered (log sample_run) = [1]%Z ∧ dequeue (shared sample_run) = [2]%Z
  ∧ accepted (log sample_run) = delivered (log sample_run) ++ dequeue (shared sample_run).
Proof.
  split; [reflexivity|split; [reflexivity|]].
  apply (@fifo_delivery _ int_traits (bounded_config 3 10)). by apply sample_run_reachable.
Defined.

Lemma elements_conserved_witness :
  accepted (log sample_run)
    ≡ₚ delivered (log sample_run) ++ discarded (log sample_run) ++ dequeue (shared sample_run).
Proof.
  apply (@elements_conserved _ int_traits (bounded_config 3 10)). by apply sample_run_reachable.
Defined.


(** The queue is stopped while that consumer is blocked. *)
Lemma stopped_consumers_return_witness :
  let cfg := bounded_config 3 10 in
  let s := @run_call _ int_traits cfg CallStop (@run_wait _ int_traits cfg 0 initial_threads) in
  let s' := @run_wait _ int_traits cfg 0 (take_awake 0 (unblock_all (use_all s))) in
  rtc (@wake_step _ int_traits cfg) s s' ∧ finished s' = [(0, None)]
  ∧ (blocked s' = ∅ ∧ awake s' = ∅ ∧ ∀ t, t ∈ blocked s ∪ awake s → t ∈ (finished s').*1).
Proof.
  intros cfg s s'.
  assert (rtc (@wake_step _ int_traits cfg) s s') as Hrun.
  { eapply rtc_l; [apply step_notify_all; vm_compute; lia|].
    eapply rtc_l; [apply (step_resume _ 0); vm_compute; reflexivity|]. apply rtc_refl. }
  split; [exact Hrun|split; [reflexivity|]].
  apply (@stopped_consumers_return _ int_traits cfg s); [|reflexivity|exact Hrun|].
  - eapply rtc_l; [by apply (step_wait _ _ 0)|].
    eapply rtc_l; [by apply (step_call _ _ CallStop)|apply rtc_refl].
  - intros s'' Hstep. inversion Hstep as [t x Hp Ht|x Hp Hb|x Hp|t x Ht|t x Ht]; subst x;
      try (vm_compute in Hp; lia); vm_compute in Ht; discriminate.
Defined.
