(* ===== verification/QueueClients.v ===== *)
(** * Clients of the thread-safe queue

    What a program of producers and consumers gets from a [thread_safe_queue]
    that it stops when the producers are done, whatever the interleaving: the
    use that [request_server_base] and the tests of the queue make of it. *)
From S2P Require Import Prelude ThreadSafeQueue QueueThreads.

Section work.
Context {T : Type} `{QueueSizeTraits T} (cfg : queue_config).
Implicit Types (s : threads T) (q : queue T) (c : queue_call T).

(** Producers add at the back, somebody stops the queue, and consumers loop on
    [wait_and_pop]. *)
Definition work_call c : bool :=
  match c with CallPushBack _ | CallTryPushBack _ | CallStop => true | _ => false end.

(** Once the queue is stopped nothing is added any more. *)
Definition work_step s s' : Prop :=
  thread_step cfg work_call s s' ∧
  (stopped (shared s) = true → accepted (log s') = accepted (log s)).

(** What the calls of [wait_and_pop] have returned, in order. *)
Definition consumed s : list T := omap snd (finished s).

Record work_ok s : Prop := WorkOk {
  work_in_order : in_order s;
  work_consumed : delivered (log s) = consumed s;
  work_ended t : (t, None) ∈ finished s → stopped (shared s) = true ∧ dequeue (shared s) = []
}.

Lemma work_call_keeps c q r q' sig :
  work_call c = true → call cfg c q = (r, q', sig) →
  fifo_call c = true ∧ delivered_by c r = [] ∧ (stopped q = true → stopped q' = true).
Proof.
  intros Hc Hcall. destruct c as [item| |item| | | | | | | | | | | |]; try done; cbn [call] in Hcall.
  - destruct (try_push_back_shape cfg item q) as [(q1 & E & _ & Hst)|E]; rewrite E in Hcall; simplify_eq;
      (split_and!; [done|done|congruence]).
  - destruct (push_back_shape cfg item q) as (q1 & E & _ & Hst). rewrite E in Hcall. simplify_eq.
    split_and!; [done|done|congruence].
  - destruct (stop_shape q) as [[E Hst]|(q1 & E & _ & Hst)]; rewrite E in Hcall; simplify_eq; by split_and!.
Qed.

(** A consumer in [wait_and_pop], just called or just woken. *)
Lemma work_ok_wait t s : work_ok s → work_ok (run_wait cfg t s).
Proof.
  intros [Ho Hc He]. destruct (run_wait_effect cfg t s)
    as [(item & q' & Heff & Hnone & _ & Hst & ->)|(_ & _ & ->)]; [|by split].
  split; unfold in_order, consumed in *; cbn [log shared finished].
  - by eapply in_order_record.
  - rewrite omap_app. cbn. rewrite Hc. by destruct item.
  - intros t' [Ht|Ht]%elem_of_app.
    + destruct (He t' Ht) as [Hs Hd]. split; [by rewrite Hst|].
      destruct Heff as [_ Hbal _ _]. specialize (Hbal eq_refl). cbn in Hbal.
      rewrite Hd in Hbal. by destruct item, (dequeue q').
    + apply list_elem_of_singleton in Ht. injection Ht as -> <-. destruct (Hnone eq_refl) as [Hs Hd].
      split; [by rewrite Hst|].
      destruct Heff as [_ Hbal _ _]. specialize (Hbal eq_refl). cbn in Hbal.
      by rewrite Hd in Hbal.
Qed.

Lemma work_ok_call c s :
  work_call c = true → work_ok s →
  (stopped (shared s) = true → accepted (log (run_call cfg c s)) = accepted (log s)) →
  work_ok (run_call cfg c s).
Proof.
  intros Hc [Ho Hcons He] Hadd. unfold run_call in *.
  destruct (call cfg c (shared s)) as [[r q'] sig] eqn:E.
  pose proof (call_effects cfg _ _ _ _ _ E) as Heff.
  destruct (work_call_keeps _ _ _ _ _ Hc E) as (Hf & Hdel & Hst).
  assert (in_order (Threads q' (blocked s) (awake s) (pending_one s) (pending_all s)
    (record_call c r (shared s) q' (log s)) (finished s))) as Ho' by by eapply in_order_record.
  unfold in_order, consumed in *. cbn [log shared finished record_call accepted delivered] in *.
  assert (delivered (log s) ++ delivered_by c r = delivered (log s)) as Hsame
    by by rewrite Hdel, app_nil_r.
  split; unfold in_order, consumed; cbn [log shared finished record_call accepted delivered];
    [done|by rewrite Hsame|].
  intros t Ht. destruct (He t Ht) as [Hs Hd]. split; [by apply Hst|].
  specialize (Hadd Hs). cbn [log accepted] in Hadd. rewrite Hsame, Hadd, Ho, Hd in Ho'.
  by apply app_inv_head in Ho'.
Qed.

Lemma work_ok_step s s' : work_ok s → work_step s s' → work_ok s'.
Proof.
  intros Hok [Hstep Hadd]. destruct Hstep as [c s1 Hc _|t s1 _ _|s1 s2 Hstep].
  - by apply work_ok_call.
  - by apply work_ok_wait.
  - destruct Hstep as [| | | |t s1 Ht]; try (by destruct Hok as [? ? ?]; split).
    apply work_ok_wait. by destruct Hok as [? ? ?]; split.
Qed.

Lemma work_ok_reachable s : rtc work_step initial_threads s → work_ok s.
Proof.
  intros Hrun. apply (rtc_invariant work_step work_ok) with initial_threads; [|done|].
  - intros s1 s2. apply work_ok_step.
  - split; [done|done|]. by intros t Ht%elem_of_nil.
Qed.

Lemma ended_work s t :
  rtc work_step initial_threads s → (t, None) ∈ finished s → consumed s = accepted (log s).
Proof.
  intros Hok%work_ok_reachable Ht. destruct (work_ended _ Hok t Ht) as [_ Hd].
  rewrite <-(work_consumed _ Hok). pose proof (work_in_order _ Hok) as Ho. unfold in_order in Ho.
  by rewrite Ho, Hd, app_nil_r.
Qed.
End work.

(** ** Properties *)

(** C15. A queue that is stopped after its last addition gives all of its work to
    its consumers: as soon as one consumer has been told that the queue is
    stopped, the items returned by the calls of [wait_and_pop], in order, are
    exactly the items accepted, in order, whatever the interleaving of
    producers, consumers, notifications and spurious wake-ups. *)
Theorem consumers_take_all_the_work {T : Type} `{QueueSizeTraits T} (cfg : queue_config)
    (s : threads T) (t : nat) :
  rtc (work_step cfg) initial_threads s → (t, None) ∈ finished s →
  consumed s = accepted (log s).
Proof. exact (ended_work cfg s t). Qed.

(** ** Witness

    A producer adds two items while one consumer waits; the queue is stopped, a
    second consumer takes the other item, and the first is told of the stop. *)
Section witness.
#[local] Existing Instance int_traits.

Definition unlimited : queue_config := bounded_config 0 0.

Definition drained : threads Z :=
  let s := run_wait unlimited 0 initial_threads in
  let s := run_call unlimited (CallPushBack 1%Z) s in
  let s := run_call unlimited (CallPushBack 2%Z) s in
  let s := run_wait unlimited 0 (take_awake 0 (unblock 0 (use_one s))) in
  let s := run_call unlimited CallStop s in
  run_wait unlimited 0 (run_wait unlimited 1 s).

Lemma drained_run : rtc (work_step unlimited) initial_threads drained.
Proof.
  eapply rtc_l; [split; [by apply (step_wait _ _ 0)|done]|].
  eapply rtc_l; [split; [by apply (step_call _ _ (CallPushBack 1%Z))|done]|].
  eapply rtc_l; [split; [by apply (step_call _ _ (CallPushBack 2%Z))|done]|].
  eapply rtc_l; [split; [apply step_wake, (step_notify_one _ 0); [vm_compute; lia|by vm_compute]|done]|].
  eapply rtc_l; [split; [apply step_wake, (step_resume _ 0); by vm_compute|done]|].
  eapply rtc_l; [split; [by apply (step_call _ _ CallStop)|done]|].
  eapply rtc_l; [split; [by apply (step_wait _ _ 1)|intros _; vm_compute; reflexivity]|].
  eapply rtc_l; [split; [by apply (step_wait _ _ 0)|intros _; vm_compute; reflexivity]|]. unfold drained. apply rtc_refl.
Qed.

Lemma consumers_take_all_the_work_witness :
  finished drained = [(0, Some 1%Z); (1, Some 2%Z); (0, None)] ∧ consumed drained = [1%Z; 2%Z].
Proof.
  split; [by vm_compute|].
  apply (consumers_take_all_the_work unlimited drained 0); [apply drained_run|].
  assert (finished drained = [(0, Some 1%Z); (1, Some 2%Z); (0, None)]) as -> by by vm_compute.
  right. right. left.
Defined.
End witness.
