(* ===== verification/QueueTests.v ===== *)
(** * The tests of the queue: [src/testing/tests/thread_safe_queue_test.cpp]

    The expectations of the repository's tests, evaluated on the model; those of
    the tests with threads are proved for every interleaving.  A test of the
    source and its counterpart here have the same name, after [queue_]. *)
From S2P Require Import Prelude ThreadSafeQueue QueueThreads QueueClients.

(** The results of the calls of a test, on a new queue. *)
Definition queue_results {T : Type} `{QueueSizeTraits T} (cfg : queue_config) (cs : list (queue_call T)) :=
  (calls cfg cs new_queue).1.

Section int_queue.
#[local] Existing Instance int_traits.
Abbreviation results cfg cs := (queue_results (T := Z) cfg cs).
Abbreviation is_empty := (RThrow "Queue is empty").

Example queue_PushAndPopPreservesOrder :
  results unlimited [CallPushBack 1; CallPushBack 2; CallPushBack 3; CallSize; CallFront; CallBack;
    CallPopFront; CallPopFront; CallPopFront; CallEmpty]%Z
  = [RUnit; RUnit; RUnit; RSize 3; RItem 1; RItem 3; RItem 1; RItem 2; RItem 3; RBool true]%Z.
Proof. by vm_compute. Qed.

Example queue_PushFrontChangesOrder :
  results unlimited [CallPushBack 2; CallPushFront 1; CallPushBack 3; CallToVector]%Z
  = [RUnit; RUnit; RUnit; RVector [1; 2; 3]]%Z.
Proof. by vm_compute. Qed.

Example queue_TryPushRespectsMaximumSize :
  results (bounded_config 2 0) [CallTryPushBack 1; CallTryPushBack 2; CallTryPushBack 3; CallSize]%Z
  = [RBool true; RBool true; RBool false; RSize 2].
Proof. by vm_compute. Qed.

Example queue_StoppedQueueRejectsTryPush :
  results unlimited [CallStop; CallTryPushBack 42%Z; CallEmpty] = [RUnit; RBool false; RBool true].
Proof. by vm_compute. Qed.

Example queue_ClearRemovesAllElements :
  results unlimited [CallPushBack 1; CallPushBack 2; CallPushBack 3; CallClear; CallEmpty; CallSize]%Z
  = [RUnit; RUnit; RUnit; RUnit; RBool true; RSize 0].
Proof. by vm_compute. Qed.

Example queue_ReplaceReplacesContents :
  results unlimited [CallPushBack 1; CallPushBack 2; CallReplace [10; 20; 30]; CallToVector]%Z
  = [RUnit; RUnit; RUnit; RVector [10; 20; 30]]%Z.
Proof. by vm_compute. Qed.

Example queue_EmptyAccessThrows :
  results unlimited [CallFront; CallBack; CallPopFront; CallPopBack]
  = [is_empty; is_empty; is_empty; is_empty].
Proof. by vm_compute. Qed.

Example queue_PopBackPreservesReverseOrder :
  results unlimited [CallPushBack 1; CallPushBack 2; CallPushBack 3; CallPopBack; CallPopBack;
    CallPopBack; CallEmpty]%Z
  = [RUnit; RUnit; RUnit; RItem 3; RItem 2; RItem 1; RBool true]%Z.
Proof. by vm_compute. Qed.

Example queue_TryPushFrontRespectsMaximumSize :
  results (bounded_config 2 0) [CallTryPushFront 2; CallTryPushFront 1; CallTryPushFront 0; CallToVector]%Z
  = [RBool true; RBool true; RBool false; RVector [1; 2]]%Z.
Proof. by vm_compute. Qed.

Example queue_StopIsIdempotent :
  results unlimited [CallStop; CallStop; CallStop; CallTryPushBack 1%Z] = [RUnit; RUnit; RUnit; RBool false].
Proof. by vm_compute. Qed.

Example queue_ReplaceRespectsMaximumSize :
  results (QueueConfig true false 2 0) [CallReplace [1; 2; 3]; CallSize]%Z = [RUnit; RSize 2].
Proof. by vm_compute. Qed.

Example queue_StopAllowsExistingItemsToBeConsumed :
  results unlimited [CallPushBack 1; CallPushBack 2; CallStop; CallWaitAndPop; CallWaitAndPop;
    CallWaitAndPop]%Z
  = [RUnit; RUnit; RUnit; ROptional (Some 1); ROptional (Some 2); ROptional None]%Z.
Proof. by vm_compute. Qed.

Example queue_StoppedQueueRemainsStoppedAfterDraining :
  results unlimited [CallPushBack 42; CallStop; CallWaitAndPop; CallWaitAndPop; CallTryPushBack 43]%Z
  = [RUnit; RUnit; ROptional (Some 42%Z); ROptional None; RBool false].
Proof. by vm_compute. Qed.

Example queue_MaximumSizeCanBeDisabled :
  results (QueueConfig false true 2 0) [CallTryPushBack 1; CallTryPushBack 2; CallTryPushBack 3; CallSize]%Z
  = [RBool true; RBool true; RBool true; RSize 3].
Proof. by vm_compute. Qed.
End int_queue.

(** ** Limits in bytes: payloads of 16 bytes, and [variable_size] *)
Section payload_queue.
Definition payload_traits : QueueSizeTraits unit := sizeof_traits unit 16 ltac:(unfold is_u64, two64; lia).
#[local] Existing Instance payload_traits.
Abbreviation results cfg cs := (queue_results (T := unit) cfg cs).
Abbreviation try_push := (CallTryPushBack tt).

Example queue_TryPushRespectsMaximumBytes :
  results (bounded_config 0 32) [try_push; try_push; try_push; CallSize]
  = [RBool true; RBool true; RBool false; RSize 2].
Proof. by vm_compute. Qed.

Example queue_PoppingFreesMaximumByteCapacity :
  results (bounded_config 0 32) [try_push; try_push; try_push; CallPopFront; try_push; CallSize]
  = [RBool true; RBool true; RBool false; RItem tt; RBool true; RSize 2].
Proof. by vm_compute. Qed.

Example queue_PopBackUpdatesMaximumByteAccounting :
  results (bounded_config 0 32) [try_push; try_push; CallPopBack; try_push; CallSize]
  = [RBool true; RBool true; RItem tt; RBool true; RSize 2].
Proof. by vm_compute. Qed.

Example queue_ClearResetsMaximumByteAccounting :
  results (bounded_config 0 32) [try_push; try_push; try_push; CallClear; CallEmpty; try_push; try_push]
  = [RBool true; RBool true; RBool false; RUnit; RBool true; RBool true; RBool true].
Proof. by vm_compute. Qed.

Example queue_ReplaceResetsMaximumByteAccounting :
  results (bounded_config 0 48)
    [CallPushBack tt; CallPushBack tt; CallReplace [tt]; try_push; try_push; try_push]
  = [RUnit; RUnit; RUnit; RBool true; RBool true; RBool false].
Proof. by vm_compute. Qed.

Example queue_ByteCapacityAcceptsExactLimit :
  results (bounded_config 0 16) [try_push; try_push] = [RBool true; RBool false].
Proof. by vm_compute. Qed.

Example queue_ByteCapacityRejectsOversizedItem :
  results (bounded_config 0 8) [try_push; CallEmpty] = [RBool false; RBool true].
Proof. by vm_compute. Qed.

Example queue_MaximumBytesCanBeDisabled :
  results (QueueConfig true false 0 16) [try_push; try_push; try_push; CallSize]
  = [RBool true; RBool true; RBool true; RSize 3].
Proof. by vm_compute. Qed.
End payload_queue.

(** ** Tests with threads *)
Section threaded.
#[local] Existing Instance int_traits.
Implicit Types (s : threads Z).

(** [ConcurrentTryPushRespectsMaximumSize]: any number of threads that each try
    to push, in any order, with consumers or without. *)
Definition only_tries (c : queue_call Z) : bool :=
  match c with CallTryPushBack _ => true | _ => false end.

(** One element is in the queue, and it is all that was ever accepted. *)
Definition one_accepted s : Prop :=
  length (dequeue (shared s)) = 1 ∧ accepted (log s) = dequeue (shared s) ∧ stopped (shared s) = false.

Definition one_place : queue_config := bounded_config 1 0.

(** Producers only: no thread calls [wait_and_pop]. *)
Definition producer_step s s' : Prop := ∃ item, s' = run_call one_place (CallTryPushBack item) s.

Theorem queue_ConcurrentTryPushRespectsMaximumSize item s :
  rtc producer_step (run_call one_place (CallTryPushBack item) initial_threads) s →
  length (accepted (log s)) = 1 ∧ size (shared s) = 1%Z.
Proof.
  intros Hrun. assert (one_accepted s) as (Hl & Ha & _).
  { apply (rtc_invariant producer_step one_accepted)
      with (run_call one_place (CallTryPushBack item) initial_threads); [|done|by vm_compute].
    intros s1 s2 (Hl & Ha & Hs) [item' ->]. unfold one_accepted, run_call.
    assert (call one_place (CallTryPushBack item') (shared s1) = (RBool false, shared s1, NoSignal)) as ->.
    { cbn [call]. unfold try_push_back, pre_addition_check_protocol. rewrite Hs. cbn.
      unfold zlen. rewrite Hl. done. }
    cbn. by rewrite app_nil_r. }
  split; [congruence|]. unfold size, zlen. by rewrite Hl.
Qed.

(** [ConcurrentProducersAndConsumersPreserveWork], where 4 producers push 5000
    items each: the consumers have taken all of them, and their sum is that of
    the numbers below the total. *)
Definition produced_by (items_per_producer producer : nat) : list nat :=
  seq (producer * items_per_producer) items_per_producer.

Lemma produced_all producer_count n :
  seq 0 producer_count ≫= produced_by n = seq 0 (producer_count * n).
Proof.
  induction producer_count as [|p IH]; [done|].
  rewrite seq_S, bind_app, IH. cbn. unfold produced_by.
  by rewrite app_nil_r, Nat.add_comm, seq_app.
Qed.

Theorem queue_ConcurrentProducersAndConsumersPreserveWork producer_count n s t :
  rtc (work_step unlimited) initial_threads s →
  accepted (log s) ≡ₚ Z.of_nat <$> (seq 0 producer_count ≫= produced_by n) →
  (t, None) ∈ finished s →
  let total := producer_count * n in
  length (consumed s) = total ∧ zsum id (consumed s) = zsum id (Z.of_nat <$> seq 0 total).
Proof.
  intros Hrun Hacc Ht total. rewrite (ended_work _ _ _ Hrun Ht). rewrite produced_all in Hacc. split.
  - by rewrite Hacc, length_fmap, length_seq.
  - exact (zsum_permutation id _ _ Hacc).
Qed.

(** [WaitAndPopBlocksUntilItemArrives] and [WaitAndPopWakesAfterPushFront]: the
    consumer blocks, and takes the item when the notification reaches it. *)
Definition woken_after (c : queue_call Z) : threads Z :=
  run_wait unlimited 0 (take_awake 0 (unblock 0 (use_one (run_call unlimited c
    (run_wait unlimited 0 initial_threads))))).

Example queue_WaitAndPopBlocksUntilItemArrives :
  finished (run_wait unlimited 0 (initial_threads : threads Z)) = []
  ∧ finished (woken_after (CallPushBack 42%Z)) = [(0, Some 42%Z)].
Proof. by vm_compute. Qed.

Example queue_WaitAndPopWakesAfterPushFront :
  finished (woken_after (CallPushFront 42%Z)) = [(0, Some 42%Z)].
Proof. by vm_compute. Qed.

(** Nothing is left to take, and nothing was taken. *)
Definition nothing_taken s : Prop :=
  dequeue (shared s) = [] ∧ ∀ t o, (t, o) ∈ finished s → o = None.

Lemma nothing_taken_wake s s' : nothing_taken s → wake_step unlimited s s' → nothing_taken s'.
Proof.
  intros [Hd Hf] Hstep. destruct Hstep as [| | | |t s Ht]; try done.
  destruct (run_wait_effect unlimited t (take_awake t s))
    as [(item & q' & Heff & _ & _ & _ & ->)|(_ & Hd' & ->)]; [|done].
  destruct Heff as [_ Hbal _ _]. specialize (Hbal eq_refl). cbn in Hbal. rewrite Hd in Hbal.
  destruct item as [x|]; [done|]. split; [exact (eq_sym Hbal)|].
  intros t' o [Ht'|Ht']%elem_of_app; [by apply (Hf t')|].
  apply list_elem_of_singleton in Ht'. by injection Ht'.
Qed.

(** [StopUnblocksWaitingConsumer] and [StopUnblocksAllWaitingConsumers]: the
    consumers that wait on an empty queue when it is stopped all return, and
    with nothing. *)
Theorem queue_StopUnblocksAllWaitingConsumers (s : threads Z) :
  reachable unlimited not_replace s → dequeue (shared s) = [] → finished s = [] →
  let stopped_s := run_call unlimited CallStop s in
  Acc (flip (wake_step unlimited)) stopped_s
  ∧ ∀ s', rtc (wake_step unlimited) stopped_s s' → (∀ s'', ¬ wake_step unlimited s' s'') →
      blocked s' = ∅ ∧ (∀ t, t ∈ blocked s → t ∈ (finished s').*1) ∧ ∀ t o, (t, o) ∈ finished s' → o = None.
Proof.
  intros Hr Hd Hf stopped_s.
  assert (stopped (shared stopped_s) = true ∧ dequeue (shared stopped_s) = [] ∧
    blocked stopped_s = blocked s ∧ finished stopped_s = finished s) as (Hs & Hd' & Hb & Hf').
  { unfold stopped_s, run_call. cbn [call]. destruct (stop_shape (shared s)) as [[-> ?]|(q1 & -> & Hq & ?)];
      cbn; rewrite ?Hq; by split_and!. }
  assert (reachable unlimited not_replace stopped_s) as Hr'.
  { eapply rtc_r; [exact Hr|]. by apply step_call. }
  destruct (stopped_consumers_end unlimited _ Hr' Hs) as [Hacc Hend]. split; [done|].
  intros s' Hrun Hstuck. destruct (Hend s' Hrun Hstuck) as (Hb' & _ & Hall). split_and!; [done| |].
  - intros t Ht. apply Hall. rewrite Hb. set_solver.
  - assert (nothing_taken s') as [_ Hnone]; [|done].
    apply (rtc_invariant (wake_step unlimited) nothing_taken) with stopped_s; [|done|].
    + intros s1 s2. apply nothing_taken_wake.
    + split; [done|]. rewrite Hf', Hf. by intros t o Hin%elem_of_nil.
Qed.
End threaded.

(** [CustomSizeTraitsAreUsed]: an item is the length of its vector. *)
Section custom_traits.
Definition variable_size_traits : QueueSizeTraits (list unit) :=
  {| queue_item_size := λ data, u64 (zlen data); queue_item_size_range := λ data, u64_range (zlen data) |}.
#[local] Existing Instance variable_size_traits.

Example queue_CustomSizeTraitsAreUsed :
  queue_results (bounded_config 0 10)
    [CallTryPushBack (replicate 6 tt); CallTryPushBack (replicate 5 tt); CallPopFront;
     CallTryPushBack (replicate 10 tt)]
  = [RBool true; RBool false; RItem (replicate 6 tt); RBool true].
Proof. by vm_compute. Qed.
End custom_traits.
