(* ===== verification/Doubles.v ===== *)
(** * [double] and [std::chrono::duration<double>]

    The operations on [double] that the sources use, as an interface with two
    implementations: IEEE 754 binary64, rounding to nearest even, as computed
    by [SpecFloat] (what the program runs on), and the rationals (the exact
    arithmetic that the accounting arguments are about). *)
From S2P Require Import Prelude.
From Stdlib Require Import SpecFloat QArith Qminmax Lqa.

Class Double := {
  double : Type;
  d_zero : double;
  d_one : double;
  d_add : double → double → double;
  d_sub : double → double → double;
  d_mul : double → double → double;
  d_ltb : double → double → bool;
  d_leb : double → double → bool;
  (** [duration<double>(ticks).count()], of a duration of nanoseconds. *)
  d_seconds : Z → double
}.

(** [std::min(a, b)]: [(b < a) ? b : a]. *)
Definition d_min `{Double} (a b : double) : double := if d_ltb b a then b else a.

(** ** binary64 *)
Definition prec : Z := 53.
Definition emax : Z := 1024.

(** The conversion of an integer to the nearest [double]. *)
Definition b64_of_Z (n : Z) : spec_float := binary_normalize prec emax n 0 false.

(** [static_cast<double>(ticks) / static_cast<double>(std::nano::den)]. *)
Definition b64_seconds (ticks : Z) : spec_float :=
  SFdiv prec emax (b64_of_Z ticks) (b64_of_Z 1000000000).

Definition binary64 : Double := {|
  double := spec_float;
  d_zero := S754_zero false;
  d_one := b64_of_Z 1;
  d_add := SFadd prec emax;
  d_sub := SFsub prec emax;
  d_mul := SFmul prec emax;
  d_ltb := SFltb;
  d_leb := SFleb;
  d_seconds := b64_seconds
|}.

(** ** Exact arithmetic *)
Definition nanoseconds (ticks : Z) : Q := Qmake ticks 1000000000.

Definition exact : Double := {|
  double := Q;
  d_zero := 0%Q;
  d_one := 1%Q;
  d_add := Qplus;
  d_sub := Qminus;
  d_mul := Qmult;
  d_ltb := λ a b, negb (Qle_bool b a);
  d_leb := Qle_bool;
  d_seconds := nanoseconds
|}.
