(* ===== verification/RateLimiter.v ===== *)
(** * The token bucket: [src/network/security/rate_limiter.hpp]

    [consume] and [cleanup] on the map of buckets, with the value read from
    [steady_clock] as an argument; the class is written once for any
    implementation of [Double].  The cleanup thread is a step relation. *)
From S2P Require Import Prelude Doubles.
From Stdlib Require Import QArith Qminmax Lqa SpecFloat.
#[local] Close Scope Q_scope.

(** In seconds. *)
Definition DEFAULT_RATE_LIMITER_CLEANUP_AFTER_IDLE_DURATION : Z := 120.

Section rate_limiter.
Context `{Double}.

(** [rate_limiter::entry]; [last_refill] is a [steady_clock::time_point] in
    nanoseconds. *)
Record bucket := Bucket { tokens : double; last_refill : Z }.

(** The members set by the constructor. *)
Record limits := Limits {
  max_tokens : double;
  refill_rate : double;
  cleanup_after_idle_duration : double
}.

Abbreviation buckets := (gmap string bucket) (only parsing).
Implicit Types (requests : gmap string bucket) (identifier : string) (now : Z).

(** The constructor's checks, in their order. *)
Definition make_rate_limiter (l : limits) : outcome (limits * buckets) :=
  if d_leb (max_tokens l) d_zero then
    Throws "max_tokens of rate_limiter must be positive"
  else if d_leb (refill_rate l) d_zero then
    Throws "refill_rate of rate_limiter must be positive"
  else Returns (l, ∅).

(** [std::chrono::duration<double>(now - last_refill).count()]. *)
Definition elapsed_since (last now : Z) : double := d_seconds (now - last).

(** The bucket after the refill, before the comparison with the cost. *)
Definition refill (l : limits) now (b : bucket) : bucket :=
  Bucket
    (d_min (max_tokens l)
      (d_add (tokens b) (d_mul (elapsed_since (last_refill b) now) (refill_rate l))))
    now.

Definition consume (l : limits) identifier (cost : double) now requests : bool * buckets :=
  if d_leb cost d_zero || d_ltb (max_tokens l) cost then (false, requests)
  else
    match requests !! identifier with
    | None => (true, <[identifier := Bucket (d_sub (max_tokens l) cost) now]> requests)
    | Some b =>
        let b1 := refill l now b in
        if d_ltb (tokens b1) cost then (false, <[identifier := b1]> requests)
        else (true, <[identifier := Bucket (d_sub (tokens b1) cost) (last_refill b1)]> requests)
    end.

(** The test on one entry in the loop of [cleanup]. *)
Definition idle_too_long (l : limits) now (b : bucket) : bool :=
  d_ltb (cleanup_after_idle_duration l) (elapsed_since (last_refill b) now).

Definition cleanup (l : limits) now requests : buckets :=
  filter (λ '(_, b), idle_too_long l now b = false) requests.

(** ** Call sequences *)

Inductive limiter_call :=
  | Consume (identifier : string) (cost : double)
  | Cleanup.

(** One call at time [now]: what [consume] returned, and the buckets. *)
Definition limiter_step (l : limits) now (c : limiter_call) requests : bool * buckets :=
  match c with
  | Consume identifier cost => consume l identifier cost now requests
  | Cleanup => (false, cleanup l now requests)
  end.

(** A run of timed calls; the log keeps the time, the call and the result. *)
Fixpoint limiter_run (l : limits) (cs : list (Z * limiter_call)) requests
    : list (Z * limiter_call * bool) * buckets :=
  match cs with
  | [] => ([], requests)
  | (now, c) :: cs' =>
      let '(granted, requests1) := limiter_step l now c requests in
      let '(log, requests2) := limiter_run l cs' requests1 in
      ((now, c, granted) :: log, requests2)
  end.

(** The calls happen at non-decreasing times from [start]; [steady_clock] is
    monotonic. *)
Fixpoint clock_from (start : Z) (cs : list (Z * limiter_call)) : Prop :=
  match cs with
  | [] => True
  | (now, _) :: cs' => (start ≤ now)%Z ∧ clock_from now cs'
  end.

(** The time of the last call, or [start]. *)
Fixpoint clock_end (start : Z) (cs : list (Z * limiter_call)) : Z :=
  match cs with
  | [] => start
  | (now, _) :: cs' => clock_end now cs'
  end.

End rate_limiter.

(** ** Exact arithmetic: the token-bucket bound *)

Section exact_buckets.
#[local] Existing Instance exact.
#[local] Open Scope Q_scope.
Implicit Types (l : limits) (b : bucket) (requests : gmap string bucket).
Implicit Types (identifier : string) (now : Z).

(** What the constructor guarantees. *)
Definition positive_limits l : Prop := 0 < (max_tokens l : Q) ∧ 0 < (refill_rate l : Q).

(** A bucket left alone long enough for [cleanup] to drop it is full. *)
Definition cleanup_is_late l : Prop :=
  (max_tokens l : Q) <= (refill_rate l : Q) * (cleanup_after_idle_duration l : Q).

(** The tokens a caller could spend at time [now]. *)
Definition available l requests identifier now : Q :=
  match requests !! identifier with
  | None => max_tokens l
  | Some b => tokens (refill l now b)
  end.

(** Buckets hold between 0 and [max_tokens] tokens and are not from the future. *)
Definition sound_buckets l now requests : Prop :=
  map_Forall (λ _ b,
    0 <= (tokens b : Q) ∧ (tokens b : Q) <= max_tokens l ∧ (last_refill b ≤ now)%Z) requests.

Lemma Qle_bool_false (a b : Q) : Qle_bool a b = false ↔ b < a.
Proof.
  rewrite <-not_true_iff_false, Qle_bool_iff. split; [apply Qnot_le_lt|apply Qlt_not_le].
Qed.

Lemma exact_ltb (a b : Q) : @d_ltb exact a b = true ↔ a < b.
Proof. simpl. rewrite negb_true_iff. apply Qle_bool_false. Qed.

Lemma exact_ltb_false (a b : Q) : @d_ltb exact a b = false ↔ b <= a.
Proof. simpl. rewrite negb_false_iff. apply Qle_bool_iff. Qed.

Lemma exact_leb (a b : Q) : @d_leb exact a b = true ↔ a <= b.
Proof. apply Qle_bool_iff. Qed.

Lemma exact_leb_false (a b : Q) : @d_leb exact a b = false ↔ b < a.
Proof. apply Qle_bool_false. Qed.

Lemma exact_min (a b : Q) : (b < a ∧ @d_min exact a b = b) ∨ (a <= b ∧ @d_min exact a b = a).
Proof.
  unfold d_min. destruct (@d_ltb exact b a) eqn:E; [left|right]; split; try done.
  - by apply exact_ltb.
  - by apply exact_ltb_false.
Qed.

Lemma nanoseconds_add (a b : Z) : nanoseconds (a + b) == nanoseconds a + nanoseconds b.
Proof. unfold nanoseconds, Qeq, Qplus. cbn [Qnum Qden]. rewrite Pos2Z.inj_mul. ring. Qed.

Lemma nanoseconds_nonneg (a : Z) : (0 ≤ a)%Z → 0 <= nanoseconds a.
Proof. intros H. unfold nanoseconds, Qle. cbn [Qnum Qden]. lia. Qed.

(** The refill of a sound bucket, as an inequality between rationals. *)
Lemma refill_spec l now b :
  (tokens (refill l now b) : Q)
    == Qmin (max_tokens l) ((tokens b : Q) + nanoseconds (now - last_refill b) * (refill_rate l : Q)).
Proof.
  unfold refill, elapsed_since. cbn [tokens].
  destruct (exact_min (max_tokens l)
              (d_add (tokens b) (d_mul (d_seconds (now - last_refill b)) (refill_rate l)))) as [[Hlt ->]|[Hle ->]].
  - rewrite Q.min_r; [done|]. by apply Qlt_le_weak.
  - by rewrite Q.min_l.
Qed.

(** *** The refill function on rationals *)

Lemma Qmin_cases (a b : Q) : (a <= b ∧ Qmin a b == a) ∨ (b <= a ∧ Qmin a b == b).
Proof.
  destruct (Q.min_spec a b) as [[H1 H2]|[H1 H2]]; [left|right]; split; try done.
  by apply Qlt_le_weak.
Qed.

Lemma refill_bounds (m r t e : Q) :
  0 < m → 0 < r → 0 <= t → 0 <= e → 0 <= Qmin m (t + e * r) ∧ Qmin m (t + e * r) <= m.
Proof. intros Hm Hr Ht He. assert (0 <= e * r) by nra. destruct (Qmin_cases m (t + e * r)); lra. Qed.

Lemma refill_later (m r t e d : Q) :
  0 < r → 0 <= d → Qmin m (t + (e + d) * r) <= Qmin m (t + e * r) + d * r.
Proof.
  intros Hr Hd. assert (0 <= d * r) by nra.
  destruct (Qmin_cases m (t + (e + d) * r)), (Qmin_cases m (t + e * r)); lra.
Qed.

Lemma refill_grows (m r t e d : Q) :
  0 < r → 0 <= d → Qmin m (t + e * r) <= Qmin m (t + (e + d) * r).
Proof.
  intros Hr Hd. assert (0 <= d * r) by nra.
  destruct (Qmin_cases m (t + (e + d) * r)), (Qmin_cases m (t + e * r)); lra.
Qed.

Lemma refill_now (m r t : Q) : t <= m → Qmin m (t + 0 * r) == t.
Proof. intros Ht. destruct (Qmin_cases m (t + 0 * r)); lra. Qed.

Lemma nanoseconds_0 : nanoseconds 0 == 0.
Proof. reflexivity. Qed.

(** *** Tokens available to one caller *)

Section one_caller.
Context (l : limits) (Hl : positive_limits l).

Lemma available_present requests identifier b now :
  requests !! identifier = Some b →
  available l requests identifier now
    == Qmin (max_tokens l) ((tokens b : Q) + nanoseconds (now - last_refill b) * (refill_rate l : Q)).
Proof. unfold available. intros ->. apply refill_spec. Qed.

Lemma available_absent requests identifier now :
  requests !! identifier = None → available l requests identifier now == max_tokens l.
Proof. unfold available. by intros ->. Qed.

Lemma available_bounds requests identifier t now :
  sound_buckets l t requests → (t ≤ now)%Z →
  0 <= available l requests identifier now ∧ available l requests identifier now <= max_tokens l.
Proof.
  intros Hs Ht. destruct Hl as [Hm Hr]. destruct (requests !! identifier) as [b|] eqn:E.
  - rewrite (available_present _ _ b) by done. destruct (Hs _ _ E) as (H0 & H1 & H2).
    apply refill_bounds; try done. apply nanoseconds_nonneg. lia.
  - rewrite available_absent by done. lra.
Qed.

(** Waiting adds at most [refill_rate] tokens per second, and removes none. *)
Lemma available_later requests identifier t now later :
  sound_buckets l t requests → (t ≤ now ≤ later)%Z →
  available l requests identifier now <= available l requests identifier later
  ∧ available l requests identifier later
      <= available l requests identifier now + nanoseconds (later - now) * (refill_rate l : Q).
Proof.
  intros Hs Ht. destruct Hl as [Hm Hr].
  pose proof (nanoseconds_nonneg (later - now) ltac:(lia)) as Hd.
  destruct (requests !! identifier) as [b|] eqn:E.
  - rewrite !(available_present _ _ b) by done. destruct (Hs _ _ E) as (H0 & H1 & H2).
    replace (later - last_refill b)%Z with ((now - last_refill b) + (later - now))%Z by lia.
    rewrite nanoseconds_add. split; [by apply refill_grows|by apply refill_later].
  - rewrite !available_absent by done. split; [lra|]. assert (0 <= nanoseconds (later - now) * refill_rate l) by nra. lra.
Qed.

Lemma available_other requests identifier identifier' b now :
  identifier ≠ identifier' →
  available l (<[identifier' := b]> requests) identifier now = available l requests identifier now.
Proof. intros Hne. unfold available. by rewrite lookup_insert_ne. Qed.

(** Writing back a bucket stamped [now] makes its tokens available. *)
Lemma available_stored requests identifier t now :
  t <= max_tokens l →
  available l (<[identifier := @Bucket exact t now]> requests) identifier now == t.
Proof.
  intros Ht. rewrite (available_present _ _ (@Bucket exact t now)) by apply lookup_insert_eq. simpl.
  rewrite Z.sub_diag, nanoseconds_0. by apply refill_now.
Qed.

(** *** One call *)

Lemma store_spec requests identifier t now :
  sound_buckets l now requests → 0 <= t → t <= max_tokens l →
  let requests' := <[identifier := @Bucket exact t now]> requests in
  sound_buckets l now requests'
  ∧ available l requests' identifier now == t
  ∧ (∀ identifier', identifier' ≠ identifier → requests' !! identifier' = requests !! identifier').
Proof.
  intros Hs H0 H1. split_and!.
  - apply map_Forall_insert_2; [|done]. simpl. split_and!; [done..|lia].
  - by apply available_stored.
  - intros i Hi. by rewrite lookup_insert_ne.
Qed.

Lemma sound_later requests t now :
  sound_buckets l t requests → (t ≤ now)%Z → sound_buckets l now requests.
Proof. intros Hs Ht identifier b Hb. destruct (Hs _ _ Hb) as (? & ? & ?). split_and!; [done..|lia]. Qed.

(** [consume], by what is available: an invalid cost changes nothing, a valid
    one is granted exactly when enough is available, and then pays for it. *)
Lemma consume_spec requests identifier (cost : Q) now :
  sound_buckets l now requests →
  let '(granted, requests') := consume l identifier cost now requests in
  sound_buckets l now requests'
  ∧ (granted = true ↔ 0 < cost ∧ cost <= max_tokens l ∧ cost <= available l requests identifier now)
  ∧ available l requests' identifier now
      == available l requests identifier now - (if granted then cost else 0)
  ∧ (∀ identifier', identifier' ≠ identifier → requests' !! identifier' = requests !! identifier').
Proof.
  intros Hs. pose proof (available_bounds _ identifier _ now Hs ltac:(lia)) as [Hlo Hhi].
  set (av := available l requests identifier now) in *. unfold consume.
  destruct (@d_leb exact cost d_zero) eqn:Hc0; cbn [orb].
  { apply exact_leb in Hc0. cbn iota. fold av. split_and!; [done| |lra|done].
    split; [done|]. intros (? & _). exfalso. change (cost <= 0) in Hc0. lra. }
  apply exact_leb_false in Hc0. change (0 < cost) in Hc0.
  destruct (@d_ltb exact (max_tokens l) cost) eqn:Hcm.
  { apply exact_ltb in Hcm. cbn iota. fold av. split_and!; [done| |lra|done]. split; [done|]. intros (_ & ? & _). lra. }
  apply exact_ltb_false in Hcm.
  destruct (requests !! identifier) as [b|] eqn:E.
  - assert (av = tokens (refill l now b)) as Hav by (unfold av, available; by rewrite E).
    change (refill l now b) with (@Bucket exact (tokens (refill l now b)) now).
    rewrite <-Hav. cbn [tokens last_refill].
    destruct (@d_ltb exact av cost) eqn:Hlt.
    + apply exact_ltb in Hlt. destruct (store_spec requests identifier av now Hs Hlo Hhi) as (H1 & H2 & H3).
      cbn iota. split_and!; [done| |rewrite H2; lra|done]. split; [done|]. intros (_ & _ & ?). lra.
    + apply exact_ltb_false in Hlt. change (@d_sub exact av cost) with (av - cost).
      destruct (store_spec requests identifier (av - cost) now Hs) as (H1 & H2 & H3); [lra..|].
      by split_and!.
  - assert (av = max_tokens l) as Hav by (unfold av, available; by rewrite E).
    change (max_tokens l) with (max_tokens l : Q) in Hav. rewrite <-Hav in Hcm, Hhi |- *.
    change (@d_sub exact av cost) with (av - cost).
    destruct (store_spec requests identifier (av - cost) now Hs) as (H1 & H2 & H3);
      [lra|rewrite <-Hav; lra|]. split_and!; [done| |done|done]. split; [done|]. done.
Qed.

(** *** [cleanup] *)

Lemma cleanup_sound requests now : sound_buckets l now requests → sound_buckets l now (cleanup l now requests).
Proof. intros Hs i b Hb. apply map_lookup_filter_Some in Hb as [Hb _]. by apply (Hs i). Qed.

Lemma cleanup_lookup requests now identifier :
  cleanup l now requests !! identifier =
    match requests !! identifier with
    | Some b => if idle_too_long l now b then None else Some b
    | None => None
    end.
Proof.
  unfold cleanup. destruct (requests !! identifier) as [b|] eqn:E.
  - destruct (idle_too_long l now b) eqn:Hi.
    + apply map_lookup_filter_None_2. right. intros b' Hb'. congruence.
    + by apply map_lookup_filter_Some_2.
  - apply map_lookup_filter_None_2. by left.
Qed.

(** When it comes late enough, the buckets it drops are full. *)
Lemma cleanup_available requests now later identifier :
  cleanup_is_late l → sound_buckets l now requests → (now ≤ later)%Z →
  available l (cleanup l now requests) identifier later == available l requests identifier later.
Proof.
  intros Hd Hs Hle. destruct Hl as [Hm Hr]. pose proof (cleanup_lookup requests now identifier) as Hc.
  destruct (requests !! identifier) as [b|] eqn:E; [|by rewrite !available_absent].
  destruct (idle_too_long l now b) eqn:Hidle; [|by rewrite !(available_present _ _ b)].
  rewrite (available_absent _ _ _ Hc), (available_present _ _ b) by done.
  apply exact_ltb in Hidle. change (elapsed_since (last_refill b) now) with (nanoseconds (now - last_refill b)) in Hidle.
  destruct (Hs _ _ E) as (H0 & _ & H2). unfold cleanup_is_late in Hd.
  replace (later - last_refill b)%Z with ((now - last_refill b) + (later - now))%Z by lia.
  rewrite nanoseconds_add. pose proof (nanoseconds_nonneg (later - now) ltac:(lia)).
  set (e := nanoseconds (now - last_refill b)) in *. set (d := nanoseconds (later - now)) in *.
  symmetry. apply Q.min_l. assert (0 <= d * refill_rate l) by nra.
  assert ((refill_rate l : Q) * cleanup_after_idle_duration l <= e * refill_rate l) by nra. lra.
Qed.

(** *** Runs *)

(** What [identifier] was granted in a log. *)
Fixpoint granted_cost identifier (log : list (Z * limiter_call * bool)) : Q :=
  match log with
  | [] => 0
  | (_, Consume identifier' cost, true) :: log' =>
      (if decide (identifier' = identifier) then cost else 0) + granted_cost identifier log'
  | _ :: log' => granted_cost identifier log'
  end.

Lemma limiter_step_spec c requests identifier now :
  cleanup_is_late l → sound_buckets l now requests →
  let '(granted, requests') := limiter_step l now c requests in
  sound_buckets l now requests'
  ∧ granted_cost identifier [(now, c, granted)] + available l requests' identifier now
      == available l requests identifier now.
Proof.
  intros Hd Hs. destruct c as [identifier' cost|]; cbn [limiter_step].
  - pose proof (consume_spec requests identifier' cost now Hs) as Hc.
    destruct (consume l identifier' cost now requests) as [granted requests'].
    destruct Hc as (Hs' & _ & Hav & Hother). split; [done|].
    cbn [granted_cost]. destruct (decide (identifier' = identifier)) as [->|Hne].
    + rewrite Hav. destruct granted; lra.
    + assert (available l requests' identifier now = available l requests identifier now) as ->
        by (unfold available; by rewrite Hother by done).
      destruct granted; lra.
  - split; [by apply cleanup_sound|]. rewrite cleanup_available by (done || lia). cbn [granted_cost]. lra.
Qed.

Lemma limiter_run_bound cs requests identifier t :
  cleanup_is_late l → sound_buckets l t requests → clock_from t cs →
  let '(log, requests') := limiter_run l cs requests in
  (t ≤ clock_end t cs)%Z
  ∧ sound_buckets l (clock_end t cs) requests'
  ∧ granted_cost identifier log + available l requests' identifier (clock_end t cs)
      <= available l requests identifier t + nanoseconds (clock_end t cs - t) * (refill_rate l : Q).
Proof.
  intros Hd. revert requests t. induction cs as [|[now c] cs IH]; intros requests t Hs Hclock; simpl.
  { split_and!; [lia|done|]. rewrite Z.sub_diag, nanoseconds_0. lra. }
  destruct Hclock as [Hle Hclock].
  pose proof (limiter_step_spec c requests identifier now Hd (sound_later _ _ _ Hs Hle)) as Hstep.
  destruct (limiter_step l now c requests) as [granted requests1]. destruct Hstep as [Hs1 Hg].
  specialize (IH requests1 now Hs1 Hclock).
  destruct (limiter_run l cs requests1) as [log requests2]. destruct IH as (Hle2 & Hs2 & Hrun).
  split_and!; [lia|done|].
  pose proof (available_later requests identifier t t now Hs ltac:(lia)) as [_ Hlater].
  replace (clock_end now cs - t)%Z with ((now - t) + (clock_end now cs - now))%Z by lia.
  rewrite nanoseconds_add.
  assert (granted_cost identifier ((now, c, granted) :: log)
          == granted_cost identifier [(now, c, granted)] + granted_cost identifier log) as ->.
  { cbn [granted_cost]. destruct c, granted; lra. }
  lra.
Qed.

Lemma sound_empty t : sound_buckets l t ∅.
Proof. apply map_Forall_empty. Qed.
End one_caller.
End exact_buckets.

(** ** Callers do not affect each other *)

Section callers.
Context `{Double} (l : limits).
Implicit Types (requests : gmap string bucket) (identifier : string) (now : Z).

(** The calls that concern [identifier]: its own, and the clean-ups. *)
Definition concerns identifier (c : limiter_call) : bool :=
  match c with
  | Consume identifier' _ => bool_decide (identifier' = identifier)
  | Cleanup => true
  end.

Definition calls_of identifier (cs : list (Z * limiter_call)) : list (Z * limiter_call) :=
  List.filter (λ c, concerns identifier c.2) cs.

Definition log_of identifier (log : list (Z * limiter_call * bool)) : list (Z * limiter_call * bool) :=
  List.filter (λ e, concerns identifier e.1.2) log.

Lemma cleanup_lookup_congr requests requests' now identifier :
  requests !! identifier = requests' !! identifier →
  cleanup l now requests !! identifier = cleanup l now requests' !! identifier.
Proof.
  intros Heq. unfold cleanup.
  destruct (filter _ requests !! identifier) as [b|] eqn:E, (filter _ requests' !! identifier) as [b'|] eqn:E'; try done;
    rewrite ?map_lookup_filter_Some, ?map_lookup_filter_None, ?Heq in *; [|exfalso..].
  - destruct E, E'. congruence.
  - destruct E as [E1 E2], E' as [E'|E']; [congruence|by apply (E' b)].
  - destruct E' as [E1 E2], E as [E|E]; [congruence|by apply (E b')].
Qed.

(** A call that does not concern [identifier] leaves its bucket alone. *)
Lemma limiter_step_other c requests identifier now :
  concerns identifier c = false →
  (limiter_step l now c requests).2 !! identifier = requests !! identifier.
Proof.
  destruct c as [identifier' cost|]; [|done]. intros Hne%bool_decide_eq_false. simpl. unfold consume.
  repeat case_match; simpl; rewrite ?lookup_insert_ne by done; done.
Qed.

(** A call that does depends on its bucket only. *)
Lemma limiter_step_own c requests requests' identifier now :
  concerns identifier c = true → requests !! identifier = requests' !! identifier →
  (limiter_step l now c requests).1 = (limiter_step l now c requests').1
  ∧ (limiter_step l now c requests).2 !! identifier = (limiter_step l now c requests').2 !! identifier.
Proof.
  destruct c as [identifier' cost|]; simpl.
  - intros ->%bool_decide_eq_true Heq. unfold consume. rewrite Heq.
    repeat case_match; simpl; rewrite ?lookup_insert_eq; done.
  - intros _ Heq. split; [done|by apply cleanup_lookup_congr].
Qed.

Lemma limiter_run_own cs requests requests' identifier :
  requests !! identifier = requests' !! identifier →
  log_of identifier (limiter_run l cs requests).1
    = (limiter_run l (calls_of identifier cs) requests').1.
Proof.
  revert requests requests'. induction cs as [|[now c] cs IH]; intros requests requests' Heq; simpl; [done|].
  pose proof (limiter_step_other c requests identifier now) as Hother.
  pose proof (limiter_step_own c requests requests' identifier now) as Hown.
  destruct (limiter_step l now c requests) as [g r1] eqn:E1. simpl in *.
  specialize (IH r1). destruct (limiter_run l cs r1) as [lg r2] eqn:E2. simpl in *.
  destruct (concerns identifier c); simpl.
  - destruct (Hown eq_refl Heq) as [Hg Hr]. destruct (limiter_step l now c requests') as [g' r1'].
    simpl in *. rewrite (IH r1' Hr), Hg. by destruct (limiter_run l _ r1').
  - apply IH. rewrite Hother by done. done.
Qed.
End callers.

(** ** The cleanup thread and the destructor

    [cleanup_loop] holds [cleanup_mutex] except while it waits or cleans; the
    destructor sets [stop] and notifies without taking that mutex. *)
Inductive cleaner_pc :=
  | LoopTest      (** about to evaluate [!stop.load()] *)
  | PredicateTest (** in [wait_for], about to evaluate the predicate *)
  | Blocking      (** the predicate was false; about to release and block *)
  | Blocked       (** blocked on [cleanup_cv] *)
  | TimedOut      (** the minute is over; about to evaluate the predicate *)
  | Cleaning      (** in [cleanup()] *)
  | Exited.

Inductive destructor_pc := Alive | StopSet | Notified | Joined.

#[export] Instance cleaner_pc_eq_dec : EqDecision cleaner_pc.
Proof. solve_decision. Defined.
#[export] Instance destructor_pc_eq_dec : EqDecision destructor_pc.
Proof. solve_decision. Defined.

Record cleaner := Cleaner { cleaner_at : cleaner_pc; stop_flag : bool; destructor_at : destructor_pc }.

Definition initial_cleaner : cleaner := Cleaner LoopTest false Alive.

Inductive cleaner_step : cleaner → cleaner → Prop :=
  | loop_test stop d :
      cleaner_step (Cleaner LoopTest stop d) (Cleaner (if stop then Exited else PredicateTest) stop d)
  | predicate_test stop d :
      cleaner_step (Cleaner PredicateTest stop d) (Cleaner (if stop then Exited else Blocking) stop d)
  | block stop d :
      cleaner_step (Cleaner Blocking stop d) (Cleaner Blocked stop d)
  | spurious_wakeup stop d :
      cleaner_step (Cleaner Blocked stop d) (Cleaner PredicateTest stop d)
  | minute_over stop d :
      cleaner_step (Cleaner Blocked stop d) (Cleaner TimedOut stop d)
  | timeout_test stop d :
      cleaner_step (Cleaner TimedOut stop d) (Cleaner (if stop then Exited else Cleaning) stop d)
  | cleanup_done stop d :
      cleaner_step (Cleaner Cleaning stop d) (Cleaner LoopTest stop d)
  | set_stop pc stop :
      cleaner_step (Cleaner pc stop Alive) (Cleaner pc true StopSet)
  | notify_cleaner pc stop :
      cleaner_step (Cleaner pc stop StopSet)
        (Cleaner (if decide (pc = Blocked) then PredicateTest else pc) stop Notified)
  | join_cleaner stop :
      cleaner_step (Cleaner Exited stop Notified) (Cleaner Exited stop Joined).

(** The steps left, at most, once [stop] is set. *)
Definition cleaner_measure (c : cleaner) : nat :=
  match cleaner_at c with
  | Cleaning => 6 | LoopTest => 5 | Blocking => 4 | Blocked => 3 | TimedOut | PredicateTest => 2 | Exited => 0
  end
  + match destructor_at c with Alive => 3 | StopSet => 2 | Notified => 1 | Joined => 0 end.

Definition stop_follows_destructor (c : cleaner) : Prop :=
  stop_flag c = true ↔ destructor_at c ≠ Alive.

Lemma stop_follows_destructor_step c c' :
  stop_follows_destructor c → cleaner_step c c' → stop_follows_destructor c'.
Proof.
  unfold stop_follows_destructor. intros Hc Hstep. destruct Hstep; simpl in *; try done; naive_solver.
Qed.

Lemma cleaner_step_measure c c' :
  stop_flag c = true → destructor_at c ≠ Alive → cleaner_step c c' →
  cleaner_measure c' < cleaner_measure c ∧ stop_flag c' = true ∧ destructor_at c' ≠ Alive.
Proof.
  intros Hs Hd Hstep. unfold cleaner_measure.
  destruct Hstep as [[] d|[] d|st d|st d|st d|[] d|st d|pc st|pc st|st]; simpl in *; try done;
    try (split_and!; [lia|done..]).
  destruct pc; simpl; (split_and!; [lia|done..]).
Qed.

Lemma cleaner_accessible c :
  stop_flag c = true → destructor_at c ≠ Alive → Acc (flip cleaner_step) c.
Proof.
  remember (cleaner_measure c) as n eqn:Hn. revert c Hn.
  induction (lt_wf n) as [n _ IH]. intros c -> Hs Hd. constructor. intros c' Hstep.
  destruct (cleaner_step_measure c c' Hs Hd Hstep) as (Hm & Hs' & Hd').
  by apply (IH (cleaner_measure c')).
Qed.

(** Until the join has happened some thread can move. *)
Lemma cleaner_progress c :
  destructor_at c ≠ Joined → destructor_at c ≠ Alive → ∃ c', cleaner_step c c'.
Proof.
  destruct c as [pc stop d]. simpl. intros Hj Ha. destruct d; try done.
  - eexists. apply notify_cleaner.
  - destruct pc; eexists; econstructor.
Qed.

(** ** Properties *)

Section exact_properties.
#[local] Existing Instance exact.
#[local] Open Scope Q_scope.

(** The buckets a limiter can have at time [t]. *)
Definition reachable_buckets (l : limits) (t : Z) (requests : gmap string bucket) : Prop :=
  ∃ start cs, clock_from start cs ∧ (clock_end start cs ≤ t)%Z
    ∧ requests = (limiter_run l cs ∅).2.

Lemma reachable_sound (l : limits) t requests :
  positive_limits l → cleanup_is_late l → reachable_buckets l t requests → sound_buckets l t requests.
Proof.
  intros Hl Hd (start & cs & Hclock & Ht & ->).
  pose proof (limiter_run_bound l Hl cs ∅ "" start Hd (sound_empty l start) Hclock) as Hrun.
  destruct (limiter_run l cs ∅) as [log requests]. destruct Hrun as (_ & Hs & _).
  by eapply sound_later.
Qed.

(** What is granted in a window. *)
Lemma granted_in_window (l : limits) (Hl : positive_limits l) (t : Z) (requests : gmap string bucket)
    (cs : list (Z * limiter_call)) (identifier : string) :
  cleanup_is_late l → reachable_buckets l t requests → clock_from t cs →
  granted_cost identifier (limiter_run l cs requests).1
    <= (max_tokens l : Q) + nanoseconds (clock_end t cs - t) * (refill_rate l : Q).
Proof.
  intros Hd Hr Hclock. pose proof (reachable_sound l t requests Hl Hd Hr) as Hs.
  pose proof (limiter_run_bound l Hl cs requests identifier t Hd Hs Hclock) as Hrun.
  destruct (limiter_run l cs requests) as [log requests']. destruct Hrun as (Hle & Hs' & Hrun).
  pose proof (available_bounds l Hl requests identifier t t Hs ltac:(lia)).
  pose proof (available_bounds l Hl requests' identifier _ (clock_end t cs) Hs' ltac:(lia)).
  cbn [fst]. lra.
Qed.



(** The proviso of the rate bound is needed, and the constructor does not
    check it: with a burst of 15, one token per ten seconds and the default
    clean-up after 120 seconds, a client that spends its burst gets a full
    bucket again after 121 seconds because [cleanup] dropped its entry: 30
    tokens in a window that allows 27.1. *)
Theorem early_cleanup_exceeds_rate :
  let l := @Limits exact 15 (1 # 10) 120 in
  let later := 121000000000%Z in
  let cs := [(0%Z, @Consume exact "client" 15); (later, @Cleanup exact);
             (later, @Consume exact "client" 15)] in
  make_rate_limiter l = Returns (l, ∅)
  ∧ (max_tokens l : Q) + nanoseconds (clock_end 0 cs - 0) * (refill_rate l : Q)
      < granted_cost "client" (limiter_run l cs ∅).1.
Proof. split; [reflexivity|]. vm_compute. reflexivity. Qed.

End exact_properties.

(** Buckets are independent, for either arithmetic: what [consume] answers
    to one identifier over a run is what it answers when every other
    identifier's calls are left out of the run. *)
Theorem callers_are_independent `{Double} (l : limits) (cs : list (Z * limiter_call))
    (requests : gmap string bucket) (identifier : string) :
  log_of identifier (limiter_run l cs requests).1
    = (limiter_run l (calls_of identifier cs) requests).1.
Proof. by apply limiter_run_own. Qed.

(** Destroying the limiter terminates: once the destructor has set [stop],
    every interleaving of the cleanup thread with the rest of the destructor is
    finite, and cannot end before the thread has been joined. *)
Theorem rate_limiter_destruction_terminates (c : cleaner) :
  rtc cleaner_step initial_cleaner c → destructor_at c ≠ Alive →
  Acc (flip cleaner_step) c
  ∧ ∀ c', rtc cleaner_step c c' → (∀ c'', ¬ cleaner_step c' c'') → destructor_at c' = Joined.
Proof.
  intros Hr Hd.
  assert (stop_flag c = true) as Hs.
  { assert (stop_follows_destructor c) as Hinv; [|by apply Hinv].
    apply (rtc_invariant cleaner_step stop_follows_destructor) with initial_cleaner; [|done|by split].
    intros. by eapply stop_follows_destructor_step. }
  split; [by apply cleaner_accessible|]. intros c' Hrun Hend.
  assert (stop_flag c' = true ∧ destructor_at c' ≠ Alive) as [_ Hd'].
  { refine (rtc_invariant cleaner_step (λ x, stop_flag x = true ∧ destructor_at x ≠ Alive) _ c c' Hrun _);
      [|done]. intros s s' [Hs1 Hd1] Hstep. by destruct (cleaner_step_measure s s' Hs1 Hd1 Hstep). }
  apply dec_stable. intros Hj. destruct (cleaner_progress c' Hj Hd') as [c'' Hstep]. by destruct (Hend c'').
Qed.

(** The destructor's notification can be lost: it may come between the
    evaluation of the predicate and the wait, because [stop] is not set under
    [cleanup_mutex].  The thread then blocks with [stop] already set, and only
    the end of the minute (or a spurious wake-up) lets the join proceed. *)
Theorem destructor_notification_can_be_lost :
  rtc cleaner_step initial_cleaner (Cleaner Blocked true Notified)
  ∧ ∀ c, cleaner_step (Cleaner Blocked true Notified) c →
      c = Cleaner TimedOut true Notified ∨ c = Cleaner PredicateTest true Notified.
Proof.
  split.
  - eapply rtc_l; [apply loop_test|]. eapply rtc_l; [apply predicate_test|].
    eapply rtc_l; [apply set_stop|]. eapply rtc_l; [apply notify_cleaner|].
    eapply rtc_l; [apply block|]. apply rtc_refl.
  - intros c Hstep. inversion Hstep; subst; auto.
Qed.

(** ** Witnesses *)

Section witnesses.
#[local] Existing Instance exact.
#[local] Open Scope Q_scope.

(** The limits of [request_server_base] by default. *)
Definition default_ip_limits : limits :=
  @Limits exact 50 (1 # 2) (inject_Z DEFAULT_RATE_LIMITER_CLEANUP_AFTER_IDLE_DURATION).

Lemma default_limits_sound : positive_limits default_ip_limits ∧ cleanup_is_late default_ip_limits.
Proof. repeat split; vm_compute; try reflexivity; discriminate. Qed.

Lemma reachable_empty (l : limits) t : reachable_buckets l t ∅.
Proof. exists t, []. simpl. split_and!; [done|lia|done]. Qed.


End witnesses.

Lemma rate_limiter_destruction_terminates_witness :
  let c := Cleaner Blocked true Notified in
  Acc (flip cleaner_step) c
  ∧ ∀ c', rtc cleaner_step c c' → (∀ c'', ¬ cleaner_step c' c'') → destructor_at c' = Joined.
Proof.
  apply rate_limiter_destruction_terminates; [|discriminate].
  eapply rtc_l; [apply loop_test|]. eapply rtc_l; [apply predicate_test|].
  eapply rtc_l; [apply set_stop|]. eapply rtc_l; [apply notify_cleaner|].
  eapply rtc_l; [apply block|]. apply rtc_refl.
Defined.

(** ** binary64: values that are not numbers *)
Section nan.
#[local] Existing Instance binary64.
Implicit Types (identifier : string) (now : Z).

Lemma min_nan (x : double) : d_min (S754_nan : double) x = S754_nan.
Proof. unfold d_min. cbn. by destruct x as [[]|[]| |[]]. Qed.

(** The checks do not refuse NaN.  A limiter constructed with it grants every
    request of positive cost; and a request whose cost is NaN is granted on any
    bucket and leaves it full for the next one. *)
Theorem nan_is_not_refused (refill_rate idle cost : double) identifier now now' requests :
  SFleb refill_rate (S754_zero false) = false → SFleb cost (S754_zero false) = false →
  let l := Limits (S754_nan : double) refill_rate idle in
  make_rate_limiter l = Returns (l, ∅) ∧ (consume l identifier cost now requests).1 = true
  ∧ ∀ l' : limits, let '(granted, requests') := consume l' identifier S754_nan now requests in
      granted = true ∧ ∃ b, requests' !! identifier = Some b ∧
        ∀ tokens_added, d_min (max_tokens l') (d_add (tokens b) tokens_added) = max_tokens l'.
Proof.
  intros Hrate Hcost l. split_and!.
  - unfold make_rate_limiter. cbn in *. by rewrite Hrate.
  - unfold consume, l. cbn in *. rewrite Hcost. cbn. destruct (requests !! identifier) as [b|]; [|done].
    unfold refill. cbn [tokens max_tokens]. rewrite min_nan. done.
  - intros l'. unfold consume.
    assert (d_leb S754_nan d_zero || d_ltb (max_tokens l') S754_nan = false) as ->
      by (cbn; by destruct (max_tokens l') as [[]|[]| |[]]).
    assert (∀ x : double, d_ltb x (S754_nan : double) = false) as Hnan by (by intros [[]|[]| |[]]).
    assert (∀ x : double, d_sub x (S754_nan : double) = S754_nan) as Hsub by (by intros [[]|[]| |[]]).
    destruct (requests !! identifier) as [b|]; rewrite ?Hnan, Hsub; (split; [done|]);
      (eexists; split; [apply lookup_insert_eq|]); intros added; unfold d_min; cbn [tokens];
      assert (d_add (S754_nan : double) added = S754_nan) as -> by (by destruct added as [[]|[]| |[]]);
      done.
Qed.
End nan.
