(* ===== verification/LimiterTests.v ===== *)
(** * The tests of the rate limiter: [src/testing/tests/rate_limiter_test.cpp]

    Evaluated in binary64, with clocks that could have been read: the calls of a
    test follow each other within a millisecond, and a sleep of 100 ms takes
    101.  A test of the source and its counterpart here have the same name,
    after [limiter_]. *)
From S2P Require Import Prelude Doubles RateLimiter.
From Stdlib Require Import SpecFloat.

#[local] Existing Instance binary64.

Definition test_limits (max_tokens refill_rate : Z) : limits :=
  @Limits binary64 (b64_of_Z max_tokens) (b64_of_Z refill_rate)
    (b64_of_Z DEFAULT_RATE_LIMITER_CLEANUP_AFTER_IDLE_DURATION).

(** The results of calls of [consume] on a new limiter: the time in
    milliseconds, the identifier and the cost. *)
Definition consumed (l : limits) (cs : list (Z * string * Z)) : outcome (list bool) :=
  let! ' (l, requests) := make_rate_limiter l in
  Returns (limiter_run l ((λ c, ((c.1.1 * 1000000)%Z, Consume c.1.2 (b64_of_Z c.2))) <$> cs) requests).1.*2.

#[local] Open Scope Z_scope.

Example limiter_RejectsInvalidConfiguration :
  consumed (test_limits 0 1) [] = Throws "max_tokens of rate_limiter must be positive"
  ∧ consumed (test_limits 1 0) [] = Throws "refill_rate of rate_limiter must be positive".
Proof. by vm_compute. Qed.

Example limiter_AllowsInitialBurst :
  consumed (test_limits 3 1) [(5, "client", 1); (6, "client", 1); (6, "client", 1); (7, "client", 1)]
  = Returns [true; true; true; false].
Proof. by vm_compute. Qed.

Example limiter_DifferentIdentifiersHaveIndependentBuckets :
  consumed (test_limits 1 1) [(5, "alice", 1); (5, "bob", 1); (6, "alice", 1); (7, "bob", 1)]
  = Returns [true; true; false; false].
Proof. by vm_compute. Qed.

Example limiter_RejectsInvalidCost :
  consumed (test_limits 3 1) [(5, "client", 0); (5, "client", -1); (6, "client", 4)]
  = Returns [false; false; false].
Proof. by vm_compute. Qed.

Example limiter_TokensRefillOverTime :
  consumed (test_limits 1 20) [(5, "client", 1); (6, "client", 1); (107, "client", 1)]
  = Returns [true; false; true].
Proof. by vm_compute. Qed.
