(* ===== verification/HttpMessages.v ===== *)
(** * HTTP messages: the part of Boost.Beast the sources use

    [boost::beast::http::request<string_body>] and [response<string_body>] are
    third-party classes: they are an interface here, with the accessor
    behaviour their documentation states as the laws.  The response helpers of
    [http_parser.hpp] are defined on it. *)
From S2P Require Import Prelude ThreadSafeQueue.

Class HttpMessages := {
  request : Type;
  response : Type;
  request_version : request → Z;
  request_body : request → string;
  (** What [std::move] leaves behind, and [clear()]. *)
  moved_from : request → request;
  request_clear : request → request;
  new_response : response;
  set_version : Z → response → response;
  set_result : Z → response → response;
  set_field : string → string → response → response;
  set_body : string → response → response;
  set_keep_alive : bool → response → response;
  prepare_payload : response → response;
  response_version : response → Z;
  response_result : response → Z;
  response_field : string → response → option string;
  response_body : response → string;
  keep_alive : response → bool
}.

(** [status] values and [field] names as the sources use them. *)
Definition status_ok : Z := 200.
Definition status_bad_request : Z := 400.
Definition status_unauthorized : Z := 401.
Definition status_not_found : Z := 404.
Definition status_too_many_requests : Z := 429.
Definition status_service_unavailable : Z := 503.
Definition content_type : string := "Content-Type".

Class HttpMessagesLaws `{HttpMessages} : Prop := {
  result_of_set_result : ∀ s r, response_result (set_result s r) = s;
  result_of_set_field : ∀ n v r, response_result (set_field n v r) = response_result r;
  result_of_set_body : ∀ b r, response_result (set_body b r) = response_result r;
  field_of_set_field : ∀ n v r, response_field n (set_field n v r) = Some v;
  field_of_set_body : ∀ n b r, response_field n (set_body b r) = response_field n r;
  field_of_set_result : ∀ n s r, response_field n (set_result s r) = response_field n r;
  body_of_set_body : ∀ b r, response_body (set_body b r) = b;
  keep_alive_of_set : ∀ b r, keep_alive (set_keep_alive b r) = b;
  keep_alive_of_prepare : ∀ r, keep_alive (prepare_payload r) = keep_alive r;
  version_of_set_version : ∀ v r, response_version (set_version v r) = v;
  version_of_set_result : ∀ s r, response_version (set_result s r) = response_version r;
  version_of_set_field : ∀ n v r, response_version (set_field n v r) = response_version r;
  version_of_set_body : ∀ b r, response_version (set_body b r) = response_version r;
  (** [prepare_payload] only adjusts the fields that describe the length and
      [keep_alive] the one that describes the connection. *)
  version_of_prepare : ∀ r, response_version (prepare_payload r) = response_version r;
  result_of_prepare : ∀ r, response_result (prepare_payload r) = response_result r;
  body_of_prepare : ∀ r, response_body (prepare_payload r) = response_body r;
  type_of_prepare : ∀ r, response_field content_type (prepare_payload r) = response_field content_type r;
  version_of_set_keep_alive : ∀ b r, response_version (set_keep_alive b r) = response_version r;
  result_of_set_keep_alive : ∀ b r, response_result (set_keep_alive b r) = response_result r;
  body_of_set_keep_alive : ∀ b r, response_body (set_keep_alive b r) = response_body r;
  type_of_set_keep_alive : ∀ b r,
    response_field content_type (set_keep_alive b r) = response_field content_type r
}.

Create Rewrite HintDb http.
#[export] Hint Rewrite @result_of_set_result @result_of_set_field @result_of_set_body
  @result_of_prepare @result_of_set_keep_alive @body_of_set_body @body_of_prepare
  @body_of_set_keep_alive @field_of_set_field @field_of_set_body @field_of_set_result
  @type_of_prepare @type_of_set_keep_alive @keep_alive_of_set @keep_alive_of_prepare
  @version_of_set_version @version_of_set_result @version_of_set_field @version_of_set_body
  @version_of_prepare @version_of_set_keep_alive using typeclasses eauto : http.

(** ** The response helpers of [http_parser] *)
Section helpers.
Context `{HttpMessages}.
Implicit Types (r : response) (response_text : string).

Definition set_response_bad_request r response_text : response :=
  set_body response_text (set_field content_type "text/plain" (set_result status_bad_request r)).

Definition set_response_not_found r response_text : response :=
  set_body response_text (set_result status_not_found (set_field content_type "text/plain" r)).

(** [j.dump()] is given as its text. *)
Definition set_response_json r (dumped : string) : response :=
  set_body dumped (set_field content_type "application/json" r).

Definition set_response_unauthorized r response_text : response :=
  set_body response_text (set_field content_type "text/plain" (set_result status_unauthorized r)).

Definition set_response_rate_limited r response_text : response :=
  set_body response_text (set_field content_type "text/plain" (set_result status_too_many_requests r)).

Definition set_response_server_overloaded r : response :=
  set_body "Server overloaded"
    (set_field content_type "text/plain" (set_result status_service_unavailable r)).

End helpers.

(** ** A concrete instance, for examples *)
Module PlainMessages.

Record plain_request := PlainRequest { q_version : Z; q_body : string }.

Record plain_response := PlainResponse {
  r_version : Z; r_result : Z; r_fields : gmap string string; r_body : string; r_keep_alive : bool
}.

#[export] Instance messages : HttpMessages := {|
  request := plain_request;
  response := plain_response;
  request_version := q_version;
  request_body := q_body;
  moved_from := λ q, PlainRequest (q_version q) "";
  request_clear := λ q, PlainRequest (q_version q) "";
  new_response := PlainResponse 11 200 ∅ "" true;
  set_version := λ v r, PlainResponse v (r_result r) (r_fields r) (r_body r) (r_keep_alive r);
  set_result := λ s r, PlainResponse (r_version r) s (r_fields r) (r_body r) (r_keep_alive r);
  set_field := λ n v r,
    PlainResponse (r_version r) (r_result r) (<[n := v]> (r_fields r)) (r_body r) (r_keep_alive r);
  set_body := λ b r, PlainResponse (r_version r) (r_result r) (r_fields r) b (r_keep_alive r);
  set_keep_alive := λ k r, PlainResponse (r_version r) (r_result r) (r_fields r) (r_body r) k;
  prepare_payload := λ r, r;
  response_version := r_version;
  response_result := r_result;
  response_field := λ n r, r_fields r !! n;
  response_body := r_body;
  keep_alive := r_keep_alive
|}.

#[export] Instance messages_laws : HttpMessagesLaws.
Proof. split; intros; simpl; first [done | apply lookup_insert_eq]. Qed.
End PlainMessages.

(** ** Properties *)

(** The response helpers set the status, the content type and the body
    their comments name; [set_response_json] leaves the status alone. *)
Theorem response_helpers_set_what_they_say `{HttpMessagesLaws} (r : response) (text : string) :
  let shows r' status type body :=
    response_result r' = status ∧ response_field content_type r' = Some type
    ∧ response_body r' = body in
  shows (set_response_bad_request r text) status_bad_request "text/plain" text
  ∧ shows (set_response_not_found r text) status_not_found "text/plain" text
  ∧ shows (set_response_json r text) (response_result r) "application/json" text
  ∧ shows (set_response_unauthorized r text) status_unauthorized "text/plain" text
  ∧ shows (set_response_rate_limited r text) status_too_many_requests "text/plain" text
  ∧ shows (set_response_server_overloaded r) status_service_unavailable "text/plain" "Server overloaded".
Proof.
  cbv zeta. unfold set_response_bad_request, set_response_not_found, set_response_json,
    set_response_unauthorized, set_response_rate_limited, set_response_server_overloaded.
  split_and!; by autorewrite with http.
Qed.

Lemma response_helpers_set_what_they_say_witness :
  response_result (set_response_bad_request (new_response (HttpMessages := PlainMessages.messages)) "no")
    = 400%Z
  ∧ response_body (set_response_bad_request (new_response (HttpMessages := PlainMessages.messages)) "no")
    = "no".
Proof.
  destruct (@response_helpers_set_what_they_say PlainMessages.messages PlainMessages.messages_laws
              (new_response (HttpMessages := PlainMessages.messages)) "no") as ((Hr & _ & Hb) & _).
  split; [exact Hr|exact Hb].
Defined.
