(* ===== verification/HttpConnection.v ===== *)
(** * One HTTP connection: [src/network/communication/http_connection.hpp]

    The handlers of [http_connection] as functions on its members.  Boost.Asio
    runs them one at a time on the connection's strand; what it keeps for the
    connection (an outstanding read, an outstanding write, the closures posted
    to the strand) is part of the state.  Starting a second composed read or
    write while one is outstanding is not allowed by Boost.Beast: such a call
    is [Undefined] here, and is shown never to happen. *)
From S2P Require Import Prelude ThreadSafeQueue HttpMessages.

Section http_connection.
Context `{HttpMessages}.

(** [request_task]; the [shared_ptr] to the connection is its number. *)
Record request_task := RequestTask {
  task_connection : nat;
  task_request : request;
  task_client_ip : string;
  task_sequence_id : Z
}.

(** [queue_size_traits<request_task>::get]: the size of the body. *)
#[export] Instance request_task_size : QueueSizeTraits request_task := {|
  queue_item_size task := u64 (Z.of_nat (String.length (request_body (task_request task))));
  queue_item_size_range task := u64_range _
|}.

(** The closures [send_response] and [reject_overloaded] post to the strand. *)
Inductive posted_closure :=
  | PostedResponse (r : response) (sequence_id : Z)
  | PostedOverload (sequence_id : Z) (version : Z).

Record http_connection := HttpConn {
  (** What [socket.remote_endpoint()] reports; it throws when there is none. *)
  peer : option string;
  (** An [async_read] is outstanding. *)
  reading : bool;
  current_request : option request;
  responses : gmap Z response;
  writing : bool;
  (** The response of the outstanding [async_write]. *)
  in_flight : option response;
  next_sequence_id : Z;
  next_response_sequence_id : Z;
  posted : list posted_closure;
  (** The responses written so far, under their sequence ids. *)
  wire : list (Z * response)
}.
Implicit Types (c : http_connection) (q : queue request_task) (r : response).

Definition with_peer v c := HttpConn v (reading c) (current_request c) (responses c) (writing c)
  (in_flight c) (next_sequence_id c) (next_response_sequence_id c) (posted c) (wire c).
Definition with_reading v c := HttpConn (peer c) v (current_request c) (responses c) (writing c)
  (in_flight c) (next_sequence_id c) (next_response_sequence_id c) (posted c) (wire c).
Definition with_request v c := HttpConn (peer c) (reading c) v (responses c) (writing c)
  (in_flight c) (next_sequence_id c) (next_response_sequence_id c) (posted c) (wire c).
Definition with_responses v c := HttpConn (peer c) (reading c) (current_request c) v (writing c)
  (in_flight c) (next_sequence_id c) (next_response_sequence_id c) (posted c) (wire c).
Definition with_writing v c := HttpConn (peer c) (reading c) (current_request c) (responses c) v
  (in_flight c) (next_sequence_id c) (next_response_sequence_id c) (posted c) (wire c).
Definition with_in_flight v c := HttpConn (peer c) (reading c) (current_request c) (responses c)
  (writing c) v (next_sequence_id c) (next_response_sequence_id c) (posted c) (wire c).
Definition with_next_sequence_id v c := HttpConn (peer c) (reading c) (current_request c)
  (responses c) (writing c) (in_flight c) v (next_response_sequence_id c) (posted c) (wire c).
Definition with_next_response v c := HttpConn (peer c) (reading c) (current_request c)
  (responses c) (writing c) (in_flight c) (next_sequence_id c) v (posted c) (wire c).
Definition with_posted v c := HttpConn (peer c) (reading c) (current_request c) (responses c)
  (writing c) (in_flight c) (next_sequence_id c) (next_response_sequence_id c) v (wire c).
Definition with_wire v c := HttpConn (peer c) (reading c) (current_request c) (responses c)
  (writing c) (in_flight c) (next_sequence_id c) (next_response_sequence_id c) (posted c) v.

(** The constructor, on an accepted socket. *)
Definition new_connection (client_ip : option string) : http_connection :=
  HttpConn client_ip false None ∅ false None 0 0 [] [].

(** ** Members *)

(** The [system_error] of [remote_endpoint] on an unconnected socket. *)
Definition not_connected_error : string := "remote_endpoint: Transport endpoint is not connected".

Definition get_client_ip c : outcome string :=
  match peer c with
  | Some ip => Returns ip
  | None => Throws not_connected_error
  end.

(** [socket.shutdown(shutdown_both, ec); socket.close(ec)]. *)
Definition close c : http_connection := with_peer None c.

(** [async_read] is started. *)
Definition read c : outcome http_connection :=
  if reading c then Undefined else Returns (with_reading true c).

Definition start c : outcome http_connection := read c.

(** The posting halves of [send_response] and [reject_overloaded]. *)
Definition send_response r (sequence_id : Z) c : http_connection :=
  with_posted (posted c ++ [PostedResponse r sequence_id]) c.

Definition reject_overloaded (sequence_id version : Z) c : http_connection :=
  with_posted (posted c ++ [PostedOverload sequence_id version]) c.

(** [responses.emplace]: keeps an existing entry. *)
Definition emplace_response (sequence_id : Z) r c : http_connection :=
  match responses c !! sequence_id with
  | Some _ => c
  | None => with_responses (<[sequence_id := r]> (responses c)) c
  end.

(** [write]: the shared response is prepared in place, in the map too. *)
Definition write c : outcome http_connection :=
  match responses c !! next_response_sequence_id c with
  | None => Returns (with_writing false c)
  | Some r =>
      match in_flight c with
      | Some _ => Undefined
      | None =>
          let r1 := prepare_payload r in
          Returns (with_in_flight (Some r1)
            (with_responses (<[next_response_sequence_id c := r1]> (responses c))
              (with_writing true c)))
      end
  end.

Definition write_unless_writing c : outcome http_connection :=
  if writing c then Returns c else write c.

(** The response [reject_overloaded] builds. *)
Definition overload_response (version : Z) : response :=
  set_keep_alive false
    (prepare_payload (set_response_server_overloaded (set_version version new_response))).

(** A posted closure runs on the strand. *)
Definition run_closure (p : posted_closure) c : outcome http_connection :=
  match p with
  | PostedResponse r sequence_id => write_unless_writing (emplace_response sequence_id r c)
  | PostedOverload sequence_id version =>
      write_unless_writing (emplace_response sequence_id (overload_response version) c)
  end.

(** The completion handler of [async_read]; [None] stands for an error code.
    The members of [request_task] are initialised in order, so the request is
    moved before [get_client_ip] may throw. *)
Definition on_read (cfg : queue_config) (self : nat) (received : option request) c q
    : outcome (http_connection * queue request_task * signal) :=
  let c := with_reading false c in
  match received with
  | None => Returns (close c, q, NoSignal)
  | Some request =>
      let sequence_id := next_sequence_id c in
      let c := with_next_sequence_id (u64 (sequence_id + 1)) c in
      let c := with_request (Some (moved_from request)) c in
      let! client_ip := get_client_ip c in
      let task := RequestTask self request client_ip sequence_id in
      let '(pushed, q', sig, _) := try_push_back_move cfg task q in
      if pushed then
        let! c' := read (with_request (Some (request_clear (moved_from request))) c) in
        Returns (c', q', sig)
      else
        Returns (reject_overloaded sequence_id (request_version (moved_from request)) c, q', sig)
  end.

(** The completion handler of [async_write]. *)
Definition on_write (failed : bool) c : outcome http_connection :=
  match in_flight c with
  | None => Undefined
  | Some r =>
      let c := with_in_flight None c in
      if failed then Returns (close c)
      else
        let sequence_id := next_response_sequence_id c in
        let c := with_responses (delete sequence_id (responses c)) c in
        let c := with_next_response (u64 (sequence_id + 1)) c in
        let c := with_wire (wire c ++ [(sequence_id, r)]) c in
        if keep_alive r then write c else Returns (close c)
  end.

(** ** Events of one connection

    [conn_handler] is one run of a handler, with its outcome; the queue and the
    workers are arbitrary: any queue state at a read, any response for any
    sequence id from a worker. *)
Inductive conn_handler (cfg : queue_config) (self : nat) c : outcome http_connection → Prop :=
  | read_completes received q :
      reading c = true →
      conn_handler cfg self c (let! '(c', _, _) := on_read cfg self received c q in Returns c')
  | worker_responds r sequence_id :
      conn_handler cfg self c (Returns (send_response r sequence_id c))
  | closure_runs p ps :
      posted c = p :: ps → conn_handler cfg self c (run_closure p (with_posted ps c))
  | write_completes failed :
      is_Some (in_flight c) → conn_handler cfg self c (on_write failed c)
  | peer_disconnects :
      conn_handler cfg self c (Returns (with_peer None c)).

Definition conn_step (cfg : queue_config) (self : nat) c c' : Prop :=
  conn_handler cfg self c (Returns c').

Definition conn_reachable (cfg : queue_config) (self : nat) c : Prop :=
  ∃ ip c0, start (new_connection ip) = Returns c0 ∧ rtc (conn_step cfg self) c0 c.

(** ** Invariant *)

(** The sequence ids [0, 1, 2, ...] of [uint64_t]. *)
Definition sequence_ids (n : nat) : list Z := (λ k, u64 (Z.of_nat k)) <$> seq 0 n.

Record conn_ok c : Prop := ConnOk {
  (** Responses leave in sequence order, without gaps. *)
  wire_in_order : (wire c).*1 = sequence_ids (length (wire c));
  next_is_after_wire : next_response_sequence_id c = u64 (Z.of_nat (length (wire c)));
  (** A connection that is not writing has nothing it could write. *)
  idle_has_nothing : writing c = false →
    in_flight c = None ∧ responses c !! next_response_sequence_id c = None;
  (** The response in flight is the one under the next sequence id. *)
  flight_is_next : ∀ r, in_flight c = Some r →
    writing c = true ∧ responses c !! next_response_sequence_id c = Some r;
  (** Only the last response can be one that closes the connection, and then
      nothing is being written any more. *)
  only_last_closes : Forall (λ e, keep_alive e.2 = true) (wire c)
    ∨ (writing c = true ∧ in_flight c = None
       ∧ Forall (λ e, keep_alive e.2 = true) (removelast (wire c)))
}.
End http_connection.

Section conn_lemmas.
Context `{HttpMessages} (cfg : queue_config) (self : nat).
Implicit Types (c : http_connection) (q : queue request_task) (r : response).

Lemma sequence_ids_S n : sequence_ids (S n) = sequence_ids n ++ [u64 (Z.of_nat n)].
Proof. unfold sequence_ids. by rewrite seq_S, fmap_app. Qed.

Lemma next_sequence_id_S (n : nat) : u64 (u64 (Z.of_nat n) + 1) = u64 (Z.of_nat (S n)).
Proof. rewrite u64_add_l. f_equal. lia. Qed.

(** [write] with no write outstanding starts at most one. *)
Lemma write_ok c :
  in_flight c = None → Forall (λ e, keep_alive e.2 = true) (wire c) →
  (wire c).*1 = sequence_ids (length (wire c)) →
  next_response_sequence_id c = u64 (Z.of_nat (length (wire c))) →
  ∃ c', write c = Returns c' ∧ conn_ok c'.
Proof.
  intros Hf Hk Hw Hn. unfold write. rewrite Hf.
  destruct (responses c !! next_response_sequence_id c) as [r|] eqn:Hr; (eexists; split; [done|]);
    split; simpl; auto.
  - done.
  - intros r' [= <-]. by rewrite lookup_insert_eq.
  - by rewrite Hf.
Qed.

Lemma emplace_response_ok sequence_id r c :
  conn_ok c →
  let c' := emplace_response sequence_id r c in
  (wire c' = wire c ∧ writing c' = writing c ∧ in_flight c' = in_flight c
   ∧ next_response_sequence_id c' = next_response_sequence_id c)
  ∧ (∀ r', in_flight c = Some r' → responses c' !! next_response_sequence_id c = Some r').
Proof.
  intros Hc. unfold emplace_response.
  destruct (responses c !! sequence_id) eqn:E; simpl; (split; [done|]); intros r' Hr';
    destruct (flight_is_next c Hc r' Hr') as [_ Hn]; [done|].
  rewrite lookup_insert_ne; [done|]. congruence.
Qed.

Lemma write_unless_writing_ok sequence_id r c :
  conn_ok c →
  ∃ c', write_unless_writing (emplace_response sequence_id r c) = Returns c' ∧ conn_ok c'.
Proof.
  intros Hc. destruct (emplace_response_ok sequence_id r c Hc) as [(Hw & Hwr & Hf & Hn) Hfl].
  unfold write_unless_writing. rewrite Hwr. destruct (writing c) eqn:Ewr.
  - eexists; split; [done|]. split; rewrite ?Hw, ?Hwr, ?Hf, ?Hn; [apply Hc|apply Hc|congruence| |].
    + intros r' Hr'. by rewrite (Hfl r' Hr').
    + pose proof (only_last_closes c Hc) as Ho. by rewrite Ewr in Ho.
  - destruct (idle_has_nothing c Hc Ewr) as [Hf0 _]. apply write_ok; rewrite ?Hw, ?Hf, ?Hn; try apply Hc; [done|].
    destruct (only_last_closes c Hc) as [?|(? & _ & _)]; [done|congruence].
Qed.

Lemma on_write_ok failed c :
  conn_ok c → is_Some (in_flight c) → ∃ c', on_write failed c = Returns c' ∧ conn_ok c'.
Proof.
  intros Hc [r Hr]. destruct (flight_is_next c Hc r Hr) as [Hw Hn]. unfold on_write. rewrite Hr.
  assert (Forall (λ e, keep_alive e.2 = true) (wire c)) as Hk.
  { destruct (only_last_closes c Hc) as [?|(_ & Hf & _)]; [done|congruence]. }
  destruct failed.
  { eexists; split; [done|]. split; simpl; try apply Hc; try done; [congruence|by left]. }
  assert (((wire c ++ [(next_response_sequence_id c, r)]).*1)
          = sequence_ids (length (wire c ++ [(next_response_sequence_id c, r)]))) as Hids.
  { rewrite fmap_app, length_app, Nat.add_1_r, sequence_ids_S, wire_in_order by done.
    simpl. by rewrite next_is_after_wire. }
  assert (u64 (next_response_sequence_id c + 1)
          = u64 (Z.of_nat (length (wire c ++ [(next_response_sequence_id c, r)])))) as Hnext.
  { rewrite next_is_after_wire, next_sequence_id_S, length_app, Nat.add_1_r by done. done. }
  destruct (keep_alive r) eqn:Hka.
  - apply write_ok; simpl; [done| |done..]. apply Forall_app. by repeat constructor.
  - eexists; split; [done|]. split; simpl; try done; [congruence|].
    right. by rewrite removelast_last.
Qed.

(** The read handler touches neither the responses nor the writes. *)
Lemma on_read_shape received c q :
  match on_read cfg self received c q with
  | Returns (c', _, _) => wire c' = wire c ∧ writing c' = writing c ∧ in_flight c' = in_flight c
      ∧ responses c' = responses c ∧ next_response_sequence_id c' = next_response_sequence_id c
  | Throws _ => peer c = None
  | Undefined => False
  end.
Proof.
  unfold on_read. destruct received as [rq|]; [|done]. simpl. unfold get_client_ip. simpl.
  destruct (peer c) as [ip|]; simpl; [|done].
  destruct (try_push_back_move _ _ _) as [[[pushed q'] sig] left]. by destruct pushed.
Qed.

Lemma conn_ok_congr c c' :
  wire c' = wire c → writing c' = writing c → in_flight c' = in_flight c →
  responses c' = responses c → next_response_sequence_id c' = next_response_sequence_id c →
  conn_ok c → conn_ok c'.
Proof. intros Hw Hwr Hf Hr Hn [? ? ? ? ?]. split; by rewrite ?Hw, ?Hwr, ?Hf, ?Hr, ?Hn. Qed.

(** Every handler keeps the invariant, and its outcome is defined. *)
Lemma conn_handler_ok c o :
  conn_ok c → conn_handler cfg self c o →
  match o with Returns c' => conn_ok c' | Throws _ => peer c = None | Undefined => False end.
Proof.
  intros Hc Hh. destruct Hh as [received q Hr|r id|p ps Hp|failed Hf|].
  - pose proof (on_read_shape received c q) as Hs.
    destruct (on_read cfg self received c q) as [[[c' q'] sig]| |]; simpl; try done.
    destruct Hs as (? & ? & ? & ? & ?). by apply (conn_ok_congr c).
  - by apply (conn_ok_congr c).
  - assert (conn_ok (with_posted ps c)) as Hc' by (by apply (conn_ok_congr c)).
    destruct p as [r id|id version]; simpl.
    + by destruct (write_unless_writing_ok id r _ Hc') as (c' & -> & ?).
    + by destruct (write_unless_writing_ok id (overload_response version) _ Hc') as (c' & -> & ?).
  - by destruct (on_write_ok failed c Hc Hf) as (c' & -> & ?).
  - by apply (conn_ok_congr c).
Qed.

Lemma conn_ok_start ip c0 : start (new_connection ip) = Returns c0 → conn_ok c0.
Proof. intros [= <-]. split; simpl; try done. by left. Qed.

Lemma conn_reachable_ok c : conn_reachable cfg self c → conn_ok c.
Proof.
  intros (ip & c0 & H0 & Hr). apply (rtc_invariant (conn_step cfg self) conn_ok) with c0; [|done|].
  - intros c1 c2 Hc Hstep. by apply (conn_handler_ok c1 (Returns c2)).
  - by apply (conn_ok_start ip).
Qed.
End conn_lemmas.

(** ** Properties *)

(** C9. Responses leave a connection in request order: whatever the workers post
    and however the handlers interleave, the responses written carry the
    sequence ids 0, 1, 2, ... without gap or repetition, only the last one can
    be a response that closes the connection, an idle connection has no
    response it could be writing, and no handler ever starts a read or a write
    while another is outstanding. *)
Theorem http_responses_in_request_order `{HttpMessages} (cfg : queue_config) (self : nat)
    (c : http_connection) :
  conn_reachable cfg self c →
  (wire c).*1 = sequence_ids (length (wire c))
  ∧ Forall (λ e, keep_alive e.2 = true) (removelast (wire c))
  ∧ (writing c = false → responses c !! next_response_sequence_id c = None)
  ∧ ∀ o, conn_handler cfg self c o → o ≠ Undefined.
Proof.
  intros Hr. pose proof (conn_reachable_ok cfg self c Hr) as Hc. split_and!.
  - apply Hc.
  - destruct (only_last_closes c Hc) as [Hk|(_ & _ & ?)]; [|done].
    destruct (last (wire c)) as [e|] eqn:Hl.
    + rewrite (last_split _ _ Hl) in Hk. by apply Forall_app in Hk as [? _].
    + apply last_None in Hl as ->. constructor.
  - intros Hw. by apply (idle_has_nothing c Hc).
  - intros o Ho ->. by apply (conn_handler_ok cfg self c Undefined Hc) in Ho.
Qed.

(** The read handler can let an exception escape into the thread that runs
    [io_context::run]: the peer disappears (or the server closes the socket
    after a response without keep-alive) while a request that has been read is
    waiting for its handler, and [get_client_ip] calls the throwing overload of
    [remote_endpoint]. *)
Theorem read_handler_can_throw `{HttpMessages} (cfg : queue_config) (self : nat) (rq : request) :
  ∃ c what, conn_reachable cfg self c ∧ conn_handler cfg self c (Throws what).
Proof.
  set (c0 := with_reading true (new_connection (Some "10.0.0.1"))).
  exists (with_peer None c0), not_connected_error. split.
  - exists (Some "10.0.0.1"), c0. split; [done|]. apply rtc_once, peer_disconnects.
  - exact (read_completes cfg self (with_peer None c0) (Some rq) new_queue eq_refl).
Qed.

Lemma http_responses_in_request_order_witness :
  let _ := PlainMessages.messages in
  ∃ c, conn_reachable (bounded_config 10 1000) 0 c
    ∧ (wire c).*1 = [0; 1]%Z
    ∧ (wire c).*1 = sequence_ids (length (wire c)).
Proof.
  intros M.
  set (ok (v : outcome http_connection) := match v with Returns c => c | _ => new_connection None end).
  set (ans body := set_body body (new_response (HttpMessages := M))).
  (* responses posted out of order: the one for request 1 first *)
  set (c0 := ok (start (new_connection (Some "10.0.0.1")))).
  set (c1 := send_response (ans "one") 1 c0).
  set (c2 := send_response (ans "zero") 0 c1).
  set (c3 := ok (run_closure (PostedResponse (ans "one") 1) (with_posted [PostedResponse (ans "zero") 0] c2))).
  set (c4 := ok (run_closure (PostedResponse (ans "zero") 0) (with_posted [] c3))).
  set (c5 := ok (on_write false c4)).
  set (c6 := ok (on_write false c5)).
  assert (conn_reachable (bounded_config 10 1000) 0 c6) as Hr.
  { exists (Some "10.0.0.1"), c0. split; [done|].
    eapply rtc_l; [apply (worker_responds _ _ c0 (ans "one") 1)|].
    eapply rtc_l; [apply (worker_responds _ _ c1 (ans "zero") 0)|].
    eapply rtc_l; [by apply (closure_runs _ _ c2 (PostedResponse (ans "one") 1))|].
    eapply rtc_l; [by apply (closure_runs _ _ c3 (PostedResponse (ans "zero") 0))|].
    eapply rtc_l; [by apply (write_completes _ _ c4 false)|].
    eapply rtc_l; [by apply (write_completes _ _ c5 false)|].
    apply rtc_refl. }
  exists c6. split; [exact Hr|split; [vm_compute; reflexivity|]].
  apply (http_responses_in_request_order _ _ _ Hr).
Defined.
