(* ===== verification/RequestServer.v ===== *)
(** * The HTTP server: [src/network/servers/request_server_base.hpp]

    The composition of the accept handler, the rate limiter, the connections,
    the bounded request queue and the worker threads, as one step relation.
    The application's [process_client_request] is a relation between what it is
    given and what it answers. *)
From S2P Require Import Prelude ThreadSafeQueue Doubles RateLimiter HttpMessages HttpConnection.

Section request_server.
Context `{HttpMessages} `{Double}.
(** [process_client_request(client_ip, request)] may return this response. *)
Context (process_client_request : string → request → response → Prop).
(** The arguments of the constructor. *)
Context (cfg : queue_config) (ip_limits : limits).

(** ** The accept handler *)

(** The completion handler of [async_accept] at time [now]: what it does before
    it accepts again.  [peer] is what [remote_endpoint] reports of the new
    socket; the result is the connection started, if any. *)
Definition on_accept (failed : bool) (peer : option string) (now : Z) (ips : gmap string bucket)
    : outcome (option http_connection * gmap string bucket) :=
  if failed then Returns (None, ips)
  else
    match peer with
    | None => Throws not_connected_error
    | Some client_ip =>
        let '(granted, ips') := consume ip_limits client_ip d_one now ips in
        if granted then
          let! c := start (new_connection (Some client_ip)) in
          Returns (Some c, ips')
        else Returns (None, ips')
    end.

(** ** The worker loop

    [wait_and_pop] up to the call of [process_client_request]; the blocking
    half of [wait_and_pop] is treated in [QueueThreads]. *)
Definition worker_takes (q : queue request_task) : option (request_task * queue request_task) :=
  match wait_and_pop cfg q with
  | Some (Some task, q') => Some (task, q')
  | _ => None
  end.

(** ** The server *)

(** A connection with the requests read on it so far: the address and the
    request of each task, in reading order (a history variable). *)
Record served := Served { connection : http_connection; received : list (string * request) }.

Record server := Server {
  connections : gmap nat served;
  request_queue : queue request_task;
  (** The task each busy worker thread is processing. *)
  workers : gmap nat request_task;
  ip_rate_limiter : gmap string bucket
}.
Implicit Types (s : server) (v : served) (c : http_connection) (q : queue request_task).

Definition initial_server : server := Server ∅ new_queue ∅ ∅.

Definition with_connection (k : nat) v s : server :=
  Server (<[k := v]> (connections s)) (request_queue s) (workers s) (ip_rate_limiter s).

(** The history after a read: one more request, unless the read failed. *)
Definition log_request c (rq : option request) (l : list (string * request)) :=
  match rq, peer c with
  | Some rq, Some ip => l ++ [(ip, rq)]
  | _, _ => l
  end.

Inductive server_step : server → server → Prop :=
  | server_accepts failed peer now c ips' k s :
      on_accept failed peer now (ip_rate_limiter s) = Returns (Some c, ips') →
      connections s !! k = None →
      server_step s (Server (<[k := Served c []]> (connections s)) (request_queue s) (workers s) ips')
  | server_refuses failed peer now ips' s :
      on_accept failed peer now (ip_rate_limiter s) = Returns (None, ips') →
      server_step s (Server (connections s) (request_queue s) (workers s) ips')
  | server_reads k c l rq c' q' sig s :
      connections s !! k = Some (Served c l) → reading c = true →
      on_read cfg k rq c (request_queue s) = Returns (c', q', sig) →
      server_step s (Server (<[k := Served c' (log_request c rq l)]> (connections s)) q'
        (workers s) (ip_rate_limiter s))
  | worker_pops w task q' s :
      workers s !! w = None → worker_takes (request_queue s) = Some (task, q') →
      server_step s (Server (connections s) q' (<[w := task]> (workers s)) (ip_rate_limiter s))
  | worker_answers w task r c l s :
      workers s !! w = Some task →
      process_client_request (task_client_ip task) (task_request task) r →
      connections s !! task_connection task = Some (Served c l) →
      server_step s (Server
        (<[task_connection task := Served (send_response r (task_sequence_id task) c) l]> (connections s))
        (request_queue s) (delete w (workers s)) (ip_rate_limiter s))
  | strand_runs k c l p ps c' s :
      connections s !! k = Some (Served c l) → posted c = p :: ps →
      run_closure p (with_posted ps c) = Returns c' →
      server_step s (with_connection k (Served c' l) s)
  | server_wrote k c l failed c' s :
      connections s !! k = Some (Served c l) → is_Some (in_flight c) →
      on_write failed c = Returns c' →
      server_step s (with_connection k (Served c' l) s)
  | peer_leaves k c l s :
      connections s !! k = Some (Served c l) →
      server_step s (with_connection k (Served (with_peer None c) l) s).

Definition server_reachable s : Prop := rtc server_step initial_server s.

(** ** Invariant *)

(** What may be answered to request number [n] of a connection: what the
    application answers, or the overload response if the request was refused,
    which is then the last one read. *)
Definition answer (v : served) (n : nat) r : Prop :=
  ∃ ip rq, received v !! n = Some (ip, rq)
    ∧ (process_client_request ip rq r
       ∨ (r = overload_response (request_version (moved_from rq))
          ∧ S n = length (received v) ∧ reading (connection v) = false)).

Definition answer_at (v : served) (id : Z) r : Prop := ∃ n, id = Z.of_nat n ∧ answer v n r.

(** What a posted closure would put under a sequence id. *)
Definition closure_answer (p : posted_closure) : Z * response :=
  match p with
  | PostedResponse r id => (id, r)
  | PostedOverload id version => (id, overload_response version)
  end.

Record served_ok v : Prop := ServedOk {
  served_conn_ok : conn_ok (connection v);
  served_count : next_sequence_id (connection v) = Z.of_nat (length (received v));
  served_posted : ∀ p, p ∈ posted (connection v) →
    answer_at v (closure_answer p).1 (closure_answer p).2;
  (** Unless writing has ended for good, every stored response is an answer
      that has not been touched, except the one in flight. *)
  served_stored : writing (connection v) = false ∨ is_Some (in_flight (connection v)) →
    ∀ id r, responses (connection v) !! id = Some r →
      (id = next_response_sequence_id (connection v) ∧ in_flight (connection v) = Some r)
      ∨ answer_at v id r;
  served_flight : ∀ r, in_flight (connection v) = Some r →
    ∃ r0, r = prepare_payload r0 ∧ answer v (length (wire (connection v))) r0;
  served_wire : ∀ n id r, wire (connection v) !! n = Some (id, r) →
    ∃ r0, r = prepare_payload r0 ∧ answer v n r0
}.

(** The tasks that are queued or with a worker. *)
Definition outstanding s (task : request_task) : Prop :=
  task ∈ dequeue (request_queue s) ∨ ∃ w, workers s !! w = Some task.

Definition task_ok s (task : request_task) : Prop :=
  ∃ v n, connections s !! task_connection task = Some v
    ∧ task_sequence_id task = Z.of_nat n
    ∧ received v !! n = Some (task_client_ip task, task_request task).

(** Request number [n] of connection [k] has not been dropped. *)
Definition accounted_for s (k : nat) v (n : nat) : Prop :=
  (∃ task, outstanding s task ∧ task_connection task = k ∧ task_sequence_id task = Z.of_nat n)
  ∨ (∃ p, p ∈ posted (connection v) ∧ (closure_answer p).1 = Z.of_nat n)
  ∨ is_Some (responses (connection v) !! Z.of_nat n)
  ∨ n < length (wire (connection v)).

Record server_ok s : Prop := ServerOk {
  all_served_ok : map_Forall (λ _ v, served_ok v) (connections s);
  all_tasks_ok : ∀ task, outstanding s task → task_ok s task;
  all_accounted : ∀ k v n, connections s !! k = Some v → n < length (received v) →
    accounted_for s k v n
}.

(** Fewer than 2{^64} requests were read on each connection. *)
Definition ids_fit s : Prop :=
  map_Forall (λ _ v, (Z.of_nat (length (received v)) < two64)%Z) (connections s).
End request_server.

Section server_lemmas.
Context `{HttpMessages} `{Double}.
Context (process_client_request : string → request → response → Prop).
Context (cfg : queue_config) (ip_limits : limits).
Implicit Types (s : server) (v : served) (c : http_connection) (q : queue request_task).
Implicit Types (l : list (string * request)).

Abbreviation answer := (answer process_client_request).
Abbreviation answer_at := (answer_at process_client_request).
Abbreviation served_ok := (served_ok process_client_request).

(** ** Answers stay answers *)

Lemma answer_congr c c' l n r :
  reading c' = reading c → answer (Served c l) n r → answer (Served c' l) n r.
Proof. intros Hr (ip & rq & Hn & Ha). exists ip, rq. split; [done|]. simpl in *. by rewrite Hr. Qed.

Lemma answer_at_congr c c' l id r :
  reading c' = reading c → answer_at (Served c l) id r → answer_at (Served c' l) id r.
Proof. intros Hr (n & -> & Ha). exists n. split; [done|]. by apply (answer_congr c). Qed.

(** As long as the connection is still reading, nothing has been refused. *)
Lemma answer_read c c' l l' n r :
  reading c = true → answer (Served c l) n r → answer (Served c' (l ++ l')) n r.
Proof.
  intros Hr (ip & rq & Hn & [Ha|(_ & _ & Hf)]); [|simpl in Hf; congruence].
  exists ip, rq. simpl in *. split; [by apply lookup_app_l_Some|by left].
Qed.

Lemma answer_at_read c c' l l' id r :
  reading c = true → answer_at (Served c l) id r → answer_at (Served c' (l ++ l')) id r.
Proof. intros Hr (n & -> & Ha). exists n. split; [done|]. by apply (answer_read c). Qed.

Lemma answer_lt v n r : answer v n r → n < length (received v).
Proof. intros (ip & rq & Hn & _). by apply lookup_lt_Some in Hn. Qed.

(** ** One connection *)

Lemma wire_short v : served_ok v → length (wire (connection v)) ≤ length (received v).
Proof.
  intros Hv. destruct (length (wire (connection v))) as [|n] eqn:E; [lia|].
  destruct (lookup_lt_is_Some_2 (wire (connection v)) n ltac:(lia)) as [[id r] Hn].
  destruct (served_wire _ _ Hv n id r Hn) as (r0 & _ & Ha%answer_lt). lia.
Qed.

Lemma next_response_exact v :
  served_ok v → (Z.of_nat (length (received v)) < two64)%Z →
  next_response_sequence_id (connection v) = Z.of_nat (length (wire (connection v))).
Proof.
  intros Hv Hfit. pose proof (wire_short v Hv).
  rewrite (next_is_after_wire _ (served_conn_ok _ _ Hv)). apply u64_small. unfold is_u64. lia.
Qed.

Lemma write_cases c c' :
  write c = Returns c' →
  (responses c !! next_response_sequence_id c = None ∧ c' = with_writing false c)
  ∨ ∃ r, responses c !! next_response_sequence_id c = Some r ∧ in_flight c = None
      ∧ c' = with_in_flight (Some (prepare_payload r))
               (with_responses (<[next_response_sequence_id c := prepare_payload r]> (responses c))
                 (with_writing true c)).
Proof.
  unfold write. destruct (responses c !! _) as [r|] eqn:E; [|intros [= <-]; by left].
  destruct (in_flight c); [done|]. intros [= <-]. right. by exists r.
Qed.

(** Everything [served_ok] says except [conn_ok], with no write outstanding. *)
Record before_write c l : Prop := BeforeWrite {
  bw_flight : in_flight c = None;
  bw_next : next_response_sequence_id c = Z.of_nat (length (wire c));
  bw_count : next_sequence_id c = Z.of_nat (length l);
  bw_posted : ∀ p, p ∈ posted c → answer_at (Served c l) (closure_answer p).1 (closure_answer p).2;
  bw_stored : ∀ id r, responses c !! id = Some r → answer_at (Served c l) id r;
  bw_wire : ∀ n id r, wire c !! n = Some (id, r) →
    ∃ r0, r = prepare_payload r0 ∧ answer (Served c l) n r0
}.

Lemma write_served c c' l :
  before_write c l → write c = Returns c' → conn_ok c' →
  served_ok (Served c' l)
  ∧ (∀ id, is_Some (responses c !! id) → is_Some (responses c' !! id))
  ∧ posted c' = posted c ∧ wire c' = wire c.
Proof.
  intros [Hf Hn Hc Hp Hs Hw] Hwr Hok. destruct (write_cases c c' Hwr) as [[_ ->]|(r & Hr & _ & ->)].
  - split_and!; try done. split; simpl; try done.
    + intros _ id r Hr. right. by apply (Hs id r).
    + rewrite Hf. done.
  - split_and!; try done.
    + split; simpl; try done.
      * intros _ id r' Hr'. destruct (decide (id = next_response_sequence_id c)) as [->|Hne].
        -- left. by rewrite lookup_insert_eq in Hr'; simplify_eq.
        -- right. rewrite lookup_insert_ne in Hr' by done. by apply (Hs id r').
      * intros r' [= <-]. exists r. split; [done|].
        destruct (Hs _ _ Hr) as (n & Hid & Ha). rewrite Hn in Hid. apply Nat2Z.inj in Hid.
        by rewrite Hid.
    + simpl. intros id [r' Hr']. destruct (decide (id = next_response_sequence_id c)) as [->|Hne].
      * rewrite lookup_insert_eq. by eexists.
      * rewrite lookup_insert_ne by done. by eexists.
Qed.

Lemma emplace_response_cases id r c :
  (is_Some (responses c !! id) ∧ emplace_response id r c = c)
  ∨ (responses c !! id = None
     ∧ emplace_response id r c = with_responses (<[id := r]> (responses c)) c).
Proof. unfold emplace_response. destruct (responses c !! id); [left|right]; done. Qed.

Lemma run_closure_eq p c :
  run_closure p c
    = write_unless_writing (emplace_response (closure_answer p).1 (closure_answer p).2 c).
Proof. by destruct p. Qed.

(** Where a sequence id can be held by the connection. *)
Definition held_by c (id : Z) : Prop :=
  (∃ p, p ∈ posted c ∧ (closure_answer p).1 = id) ∨ is_Some (responses c !! id).

Lemma emplaced_stored c l ps p id r :
  served_ok (Served c l) → posted c = p :: ps →
  let c1 := emplace_response (closure_answer p).1 (closure_answer p).2 (with_posted ps c) in
  responses c1 !! id = Some r →
  responses c !! id = Some r ∨ answer_at (Served c l) id r.
Proof.
  intros Hv Hp c1 Hr. unfold c1 in *.
  destruct (emplace_response_cases (closure_answer p).1 (closure_answer p).2 (with_posted ps c))
    as [[_ Heq]|[_ Heq]]; rewrite Heq in Hr; simpl in Hr; [by left|].
  destruct (decide (id = (closure_answer p).1)) as [->|Hne].
  - rewrite lookup_insert_eq in Hr. simplify_eq. right. apply (served_posted _ _ Hv). simpl.
    rewrite Hp. by left.
  - rewrite lookup_insert_ne in Hr by done. by left.
Qed.

Lemma emplaced_held c ps p id :
  posted c = p :: ps → held_by c id →
  held_by (emplace_response (closure_answer p).1 (closure_answer p).2 (with_posted ps c)) id.
Proof.
  intros Hp Hh. unfold held_by in *.
  destruct (emplace_response_cases (closure_answer p).1 (closure_answer p).2 (with_posted ps c))
    as [[Hin ->]|[Hnone ->]]; simpl in *; rewrite Hp in Hh.
  - destruct Hh as [(p' & [->|Hp']%elem_of_cons & <-)|?]; eauto.
  - destruct (decide (id = (closure_answer p).1)) as [->|Hne].
    + right. rewrite lookup_insert_eq. by eexists.
    + destruct Hh as [(p' & [->|Hp']%elem_of_cons & <-)|[r Hr]]; [done|by eauto|].
      right. rewrite lookup_insert_ne by done. by eexists.
Qed.

Lemma emplaced_rest c id r :
  let c1 := emplace_response id r c in
  posted c1 = posted c ∧ wire c1 = wire c ∧ reading c1 = reading c ∧ writing c1 = writing c
  ∧ in_flight c1 = in_flight c ∧ next_sequence_id c1 = next_sequence_id c
  ∧ next_response_sequence_id c1 = next_response_sequence_id c.
Proof. unfold emplace_response. cbv zeta. by destruct (responses c !! id). Qed.

Lemma closure_served c l p ps c' :
  served_ok (Served c l) → (Z.of_nat (length l) < two64)%Z →
  posted c = p :: ps → run_closure p (with_posted ps c) = Returns c' →
  served_ok (Served c' l) ∧ wire c' = wire c ∧ (∀ id, held_by c id → held_by c' id).
Proof.
  intros Hv Hfit Hp. rewrite run_closure_eq.
  pose proof (next_response_exact _ Hv Hfit) as Hn. simpl in Hn.
  pose proof (emplaced_stored c l ps p) as Hst. pose proof (emplaced_held c ps p) as Hheld.
  destruct (emplaced_rest (with_posted ps c) (closure_answer p).1 (closure_answer p).2)
    as (Hp1 & Hw1 & Hrd1 & Hwr1 & Hf1 & Hs1 & Hn1).
  assert (conn_ok (with_posted ps c)) as Hok by (by apply (conn_ok_congr c), (served_conn_ok _ _ Hv)).
  destruct (write_unless_writing_ok (closure_answer p).1 (closure_answer p).2 _ Hok) as (c2 & Hc2 & Hok2).
  set (c1 := emplace_response _ _ _) in *. intros Hc'. rewrite Hc' in Hc2. simplify_eq.
  simpl in *. unfold write_unless_writing in Hc'. rewrite Hwr1 in Hc'.
  assert (∀ p', p' ∈ posted c1 → answer_at (Served c1 l) (closure_answer p').1 (closure_answer p').2) as Hpost.
  { intros p' Hp'. rewrite Hp1 in Hp'. apply (answer_at_congr c); [done|].
    apply (served_posted _ _ Hv). simpl. rewrite Hp. by right. }
  assert (∀ n id r, wire c1 !! n = Some (id, r) → ∃ r0, r = prepare_payload r0 ∧ answer (Served c1 l) n r0) as Hwire.
  { intros n id r. rewrite Hw1. intros Hr. destruct (served_wire _ _ Hv n id r Hr) as (r0 & ? & ?).
    exists r0. split; [done|]. by apply (answer_congr c). }
  destruct (writing c) eqn:Ewr.
  - simplify_eq. split_and!; [|done|by intros; apply Hheld].
    split; simpl; try done; [rewrite Hs1; apply Hv| |].
    + rewrite Hwr1, Hf1, Hn1. intros Halive id r Hr. destruct (Hst id r Hv Hp Hr) as [Hold|Hnew].
      * destruct (served_stored _ _ Hv ltac:(simpl; rewrite Ewr; exact Halive) id r Hold) as [?|?];
          [by left|right; by apply (answer_at_congr c)].
      * right. by apply (answer_at_congr c).
    + intros r. rewrite Hf1, Hw1. intros Hr. destruct (served_flight _ _ Hv r Hr) as (r0 & ? & ?).
      exists r0. split; [done|]. by apply (answer_congr c).
  - destruct (idle_has_nothing c (served_conn_ok _ _ Hv) Ewr) as [Hf0 _].
    destruct (write_served c1 c2 l) as (Hv2 & Hresp & Hp2 & Hw2); [|done|done|].
    { split; [by rewrite Hf1|by rewrite Hn1, Hw1|rewrite Hs1; apply Hv|done| |done].
      intros id r Hr. apply (answer_at_congr c); [done|].
      destruct (Hst id r Hv Hp Hr) as [Hold|Hnew]; [|done].
      destruct (served_stored _ _ Hv (or_introl Ewr) id r Hold) as [[_ Hfl]|?]; [|done].
      simpl in Hfl. congruence. }
    split_and!; [done|by rewrite Hw2, Hw1|]. intros id Hid. apply Hheld in Hid; [|done].
    destruct Hid as [(p' & Hp' & Hid)|Hid]; [left|right; by apply Hresp].
    exists p'. by rewrite Hp2.
Qed.

(** The state after a successful write, before the next one is considered. *)
Definition after_write c r : http_connection :=
  let id := next_response_sequence_id c in
  with_wire (wire c ++ [(id, r)])
    (with_next_response (u64 (id + 1))
      (with_responses (delete id (responses c)) (with_in_flight None c))).

Lemma after_write_good c l r :
  served_ok (Served c l) → (Z.of_nat (length l) < two64)%Z → in_flight c = Some r →
  before_write (after_write c r) l.
Proof.
  intros Hv Hfit Hr. pose proof (next_response_exact _ Hv Hfit) as Hn. simpl in Hn.
  destruct (served_flight _ _ Hv r Hr) as (r0 & Hr0 & Ha). simpl in Ha.
  pose proof (answer_lt _ _ _ Ha) as Hlt. simpl in Hlt.
  split; simpl; [done| |apply Hv|apply Hv| |].
  - rewrite Hn, length_app, Nat.add_1_r. rewrite u64_small by (unfold is_u64; lia). lia.
  - intros id r' [Hne Hr']%lookup_delete_Some.
    destruct (served_stored _ _ Hv ltac:(right; by eexists) id r' Hr') as [[-> _]|?]; [done|].
    by apply (answer_at_congr c).
  - intros n id r' [Hr'|[Hge Hr']]%lookup_app_Some.
    + destruct (served_wire _ _ Hv n id r' Hr') as (r1 & ? & ?). exists r1. split; [done|].
      by apply (answer_congr c).
    + apply list_lookup_singleton_Some in Hr' as [Hz [= <- <-]].
      exists r0. split; [done|]. apply (answer_congr c); [done|].
      by replace n with (length (wire c)) by lia.
Qed.

Lemma after_write_held c l r id :
  served_ok (Served c l) → (Z.of_nat (length l) < two64)%Z →
  held_by c id → held_by (after_write c r) id ∨ id = Z.of_nat (length (wire c)).
Proof.
  intros Hv Hfit Hid. pose proof (next_response_exact _ Hv Hfit) as Hn. simpl in Hn.
  destruct (decide (id = Z.of_nat (length (wire c)))) as [|Hne]; [by right|left].
  destruct Hid as [?|Hs]; [by left|right]. simpl. by rewrite lookup_delete_ne by congruence.
Qed.

Lemma wrote_served c l failed c' :
  served_ok (Served c l) → (Z.of_nat (length l) < two64)%Z →
  is_Some (in_flight c) → on_write failed c = Returns c' →
  served_ok (Served c' l) ∧ length (wire c) ≤ length (wire c')
  ∧ (∀ id, held_by c id → held_by c' id
      ∨ (id = Z.of_nat (length (wire c)) ∧ length (wire c) < length (wire c'))).
Proof.
  intros Hv Hfit [r Hr] Hw.
  destruct (on_write_ok failed c (served_conn_ok _ _ Hv) ltac:(by eexists)) as (c2 & Hc2 & Hok).
  rewrite Hw in Hc2. simplify_eq. unfold on_write in Hw. rewrite Hr in Hw.
  destruct (flight_is_next c (served_conn_ok _ _ Hv) r Hr) as [Hwr _].
  destruct failed.
  { simplify_eq. split_and!; [|done|by left].
    split; simpl; try done; try apply Hv. intros [?|[? ?]]; congruence. }
  pose proof (after_write_good c l r Hv Hfit Hr) as Hb.
  pose proof (after_write_held c l r) as Hheld.
  assert (length (wire (after_write c r)) = S (length (wire c))) as Hlen
    by (simpl; rewrite length_app; simpl; lia).
  destruct (keep_alive r).
  - destruct (write_served _ _ _ Hb Hw Hok) as (Hv2 & Hresp & Hp2 & Hw2).
    rewrite Hw2, Hlen. split_and!; [done|lia|]. intros id Hid.
    destruct (Hheld id Hv Hfit Hid) as [[(p & Hp & Hpid)|Hs]| ->]; [left|left|right; split; [done|lia]].
    + left. exists p. by rewrite Hp2.
    + right. by apply Hresp.
  - injection Hw as <-. split_and!; [| |].
    + destruct Hb as [? ? ? ? ? ?]. split; simpl; try done. rewrite Hwr. intros [?|[? ?]]; congruence.
    + simpl in *. lia.
    + intros id Hid. destruct (Hheld id Hv Hfit Hid) as [?| ->]; [by left|right].
      simpl in *. split; [done|lia].
Qed.

(** *** Reading *)

(** The three ways the read handler returns. *)
Inductive read_effect (k : nat) c q (rq : option request) l
    : http_connection → queue request_task → list (string * request) → Prop :=
  | read_failed c' :
      posted c' = posted c → reading c' = false → next_sequence_id c' = next_sequence_id c →
      read_effect k c q rq l c' q l
  | read_queued c' q' ip request :
      dequeue q' = dequeue q ++ [RequestTask k request ip (next_sequence_id c)] →
      posted c' = posted c → next_sequence_id c' = u64 (next_sequence_id c + 1) →
      read_effect k c q rq l c' q' (l ++ [(ip, request)])
  | read_rejected c' ip request :
      posted c' = posted c ++ [PostedOverload (next_sequence_id c) (request_version (moved_from request))] →
      reading c' = false → next_sequence_id c' = u64 (next_sequence_id c + 1) →
      read_effect k c q rq l c' q (l ++ [(ip, request)]).

Lemma on_read_effect k c q rq l c' q' sig :
  on_read cfg k rq c q = Returns (c', q', sig) →
  read_effect k c q rq l c' q' (log_request c rq l).
Proof.
  unfold on_read, log_request. destruct rq as [rq|]; [|intros [= <- <- _]; by apply read_failed].
  simpl. unfold get_client_ip. simpl. destruct (peer c) as [ip|]; simpl; [|done].
  unfold try_push_back_move.
  destruct (pre_addition_check_protocol _ _ _) as [ok q1] eqn:Hpre.
  assert (dequeue q1 = dequeue q ∧ (ok = false → q1 = q)) as [Hd Hq]
    by (unfold pre_addition_check_protocol in Hpre; repeat case_match; by simplify_eq).
  destruct ok; simpl; intros [= <- <- _].
  - apply read_queued; simpl; [by rewrite Hd|done..].
  - rewrite Hq by done. by apply read_rejected.
Qed.

Lemma read_served k c q rq l c' q' sig :
  served_ok (Served c l) → (Z.of_nat (length (log_request c rq l)) < two64)%Z →
  reading c = true → on_read cfg k rq c q = Returns (c', q', sig) →
  served_ok (Served c' (log_request c rq l)).
Proof.
  intros Hv Hfit Hrd Hread. pose proof (on_read_shape cfg k rq c q) as Hsh. rewrite Hread in Hsh.
  destruct Hsh as (Hw & Hwr & Hf & Hr & Hn).
  apply (on_read_effect k c q rq l) in Hread.
  assert (∃ l', log_request c rq l = l ++ l') as [l' Hl'].
  { unfold log_request. destruct rq, (peer c); (by eexists) || (exists []; by rewrite app_nil_r). }
  pose proof (served_count _ _ Hv) as Hcount. simpl in Hcount.
  assert (∀ id r, answer_at (Served c l) id r → answer_at (Served c' (log_request c rq l)) id r) as Hmono.
  { intros id r. rewrite Hl'. by apply answer_at_read. }
  assert (∀ n r, answer (Served c l) n r → answer (Served c' (log_request c rq l)) n r) as Hmono'.
  { intros n r. rewrite Hl'. by apply answer_read. }
  split; simpl.
  - apply (conn_ok_congr c); try done. apply Hv.
  - destruct Hread as [c' _ _ Hs|c' q' ip request _ _ Hs|c' ip request _ _ Hs]; rewrite Hs, Hcount;
      [done|..]; rewrite length_app in *; simpl in *; rewrite u64_small by (unfold is_u64; lia); lia.
  - destruct Hread as [c' Hp _ Hs|c' q' ip request _ Hp Hs|c' ip request Hp Hrd' Hs]; rewrite Hp.
    + intros p Hin. by apply Hmono, (served_posted _ _ Hv).
    + intros p Hin. by apply Hmono, (served_posted _ _ Hv).
    + intros p [Hin| ->%list_elem_of_singleton]%elem_of_app; [by apply Hmono, (served_posted _ _ Hv)|].
      simpl. exists (length l). rewrite Hcount. split; [done|]. exists ip, request. simpl.
      rewrite lookup_app_r, Nat.sub_diag by done. split; [done|right].
      rewrite length_app, Nat.add_1_r. done.
  - rewrite Hwr, Hf, Hr, Hn. intros Halive id r Hid.
    destruct (served_stored _ _ Hv Halive id r Hid) as [?|?]; [by left|right; by apply Hmono].
  - rewrite Hf, Hw. intros r Hfl. destruct (served_flight _ _ Hv r Hfl) as (r0 & ? & ?). eauto.
  - rewrite Hw. intros n id r Hid. destruct (served_wire _ _ Hv n id r Hid) as (r0 & ? & ?). eauto.
Qed.

(** ** The server *)

Abbreviation server_ok := (server_ok process_client_request).
Abbreviation server_step := (server_step process_client_request cfg ip_limits).

Lemma task_ok_update s s' k v v' t :
  connections s !! k = Some v → connections s' = <[k := v']> (connections s) →
  received v `prefix_of` received v' → task_ok s t → task_ok s' t.
Proof.
  intros Hk Hs' Hpre (v1 & n & Hv1 & Hid & Hn). unfold task_ok. rewrite Hs'.
  destruct (decide (task_connection t = k)) as [Heq|Hne].
  - rewrite Heq in *. simplify_eq. exists v', n. rewrite lookup_insert_eq. split_and!; [done..|].
    by eapply prefix_lookup_Some.
  - exists v1, n. by rewrite lookup_insert_ne.
Qed.

Lemma accounted_for_held s k v n :
  accounted_for s k v n ↔
  (∃ t, outstanding s t ∧ task_connection t = k ∧ task_sequence_id t = Z.of_nat n)
  ∨ held_by (connection v) (Z.of_nat n) ∨ n < length (wire (connection v)).
Proof. unfold accounted_for, held_by. tauto. Qed.

(** A step that replaces the state of connection [k] keeps the invariant if
    the new state is sound, every outstanding task is an old one or sound, and
    no request of [k] is dropped. *)
Lemma server_update s s' k v v' :
  server_ok s → connections s !! k = Some v → connections s' = <[k := v']> (connections s) →
  served_ok v' → received v `prefix_of` received v' →
  (∀ t, outstanding s' t → outstanding s t ∨ task_ok s' t) →
  (∀ t, outstanding s t → outstanding s' t
     ∨ (task_connection t = k ∧ held_by (connection v') (task_sequence_id t))) →
  (∀ n, held_by (connection v) (Z.of_nat n) ∨ n < length (wire (connection v)) →
     held_by (connection v') (Z.of_nat n) ∨ n < length (wire (connection v'))) →
  (∀ n, length (received v) ≤ n < length (received v') → accounted_for s' k v' n) →
  server_ok s'.
Proof.
  intros [Hall Htask Hacc] Hk Hs' Hv' Hpre Hold Hkeep Hheld Hnew. split.
  - rewrite Hs'. by apply map_Forall_insert_2.
  - intros t Ht. destruct (Hold t Ht) as [Ht'|]; [|done]. by eapply task_ok_update; eauto.
  - intros k1 v1 n Hk1 Hn. rewrite Hs' in Hk1. rewrite accounted_for_held.
    destruct (decide (k1 = k)) as [->|Hne].
    + rewrite lookup_insert_eq in Hk1. simplify_eq.
      destruct (decide (n < length (received v))) as [Hlt|Hge];
        [|rewrite <-accounted_for_held; apply Hnew; lia].
      destruct (proj1 (accounted_for_held _ _ _ _) (Hacc k v n Hk Hlt)) as [(t & Ht & Htk & Hid)|Hh];
        [|right; by apply Hheld].
      destruct (Hkeep t Ht) as [?|[_ ?]]; [left; by exists t|right; left; by rewrite <-Hid].
    + rewrite lookup_insert_ne in Hk1 by done.
      destruct (proj1 (accounted_for_held _ _ _ _) (Hacc k1 v1 n Hk1 Hn)) as [(t & Ht & Htk & Hid)|Hh];
        [|by right].
      left. exists t. destruct (Hkeep t Ht) as [?|[? _]]; [done|congruence].
Qed.

(** The tasks do not change and neither does the history: only a handler of
    connection [k] ran. *)
Lemma server_update_handler s k c c' l :
  server_ok s → connections s !! k = Some (Served c l) → served_ok (Served c' l) →
  (∀ n, held_by c (Z.of_nat n) ∨ n < length (wire c) →
     held_by c' (Z.of_nat n) ∨ n < length (wire c')) →
  server_ok (with_connection k (Served c' l) s).
Proof.
  intros Hs Hk Hv' Hheld.
  refine (server_update s (with_connection k (Served c' l) s) k (Served c l) (Served c' l)
    Hs Hk eq_refl Hv' _ _ _ Hheld _); simpl.
  - done.
  - intros t Ht. by left.
  - intros t Ht. by left.
  - lia.
Qed.

(** *** Steps *)

Lemma step_reads s k c l rq c' q' sig :
  server_ok s → connections s !! k = Some (Served c l) → reading c = true →
  on_read cfg k rq c (request_queue s) = Returns (c', q', sig) →
  (Z.of_nat (length (log_request c rq l)) < two64)%Z →
  server_ok (Server (<[k := Served c' (log_request c rq l)]> (connections s)) q'
    (workers s) (ip_rate_limiter s)).
Proof.
  intros Hs Hk Hrd Hread Hfit. pose proof (all_served_ok _ _ Hs k _ Hk) as Hv.
  pose proof (read_served k c _ rq l c' q' sig Hv Hfit Hrd Hread) as Hv'.
  pose proof (on_read_shape cfg k rq c (request_queue s)) as Hsh. rewrite Hread in Hsh.
  destruct Hsh as (Hw & _ & _ & Hr & _). pose proof (served_count _ _ Hv) as Hcount. simpl in Hcount.
  apply (on_read_effect k c (request_queue s) rq l) in Hread.
  set (s' := Server _ q' _ _).
  refine (server_update s s' k _ _ Hs Hk eq_refl Hv' _ _ _ _ _); simpl.
  - destruct Hread; simpl; [reflexivity|by apply prefix_app_r..].
  - intros t [Ht|Ht]; [|by left; right]. unfold s' in *. simpl in Ht.
    destruct Hread as [c' _ _ _|c' q' ip request Hd _ _|c' ip request _ _ _]; [by left; left| |by left; left].
    rewrite Hd in Ht. apply elem_of_app in Ht as [Ht| ->%list_elem_of_singleton]; [by left; left|right].
    exists (Served c' (l ++ [(ip, request)])), (length l). simpl. rewrite lookup_insert_eq.
    split_and!; [done|done|]. by rewrite lookup_app_r, Nat.sub_diag.
  - intros t Ht. left. destruct Ht as [Ht|Ht]; [left|by right]. unfold s'. simpl.
    destruct Hread as [|c' q' ip request Hd _ _|]; [done| |done]. rewrite Hd. apply elem_of_app. by left.
  - intros n [[(p & Hp & Hid)|Hres]|Hlt]; [left; left; exists p|left; right; by rewrite Hr|right; by rewrite Hw].
    split; [|done]. destruct Hread as [c' Hpo _ _|c' q' ip request _ Hpo _|c' ip request Hpo _ _]; rewrite Hpo;
      [done|done|]. apply elem_of_app. by left.
  - intros n Hn. destruct Hread as [|c' q' ip request Hd _ _|c' ip request Hpo _ _];
      rewrite ?length_app in Hn; simpl in Hn; [lia|left|right; left].
    + exists (RequestTask k request ip (next_sequence_id c)). simpl. split_and!; [left|done|].
      * unfold s'. simpl. rewrite Hd. apply elem_of_app. right. by left.
      * rewrite Hcount. f_equal. lia.
    + exists (PostedOverload (next_sequence_id c) (request_version (moved_from request))). simpl.
      rewrite Hpo, Hcount. split; [apply elem_of_app; right; by left|]. f_equal. lia.
Qed.

Lemma worker_takes_head q task q' :
  worker_takes cfg q = Some (task, q') → dequeue q = task :: dequeue q'.
Proof.
  unfold worker_takes, wait_and_pop. destruct (wait_ready q); [|done].
  unfold wait_and_pop_ready. destruct (dequeue q) as [|x xs] eqn:E; [done|]. intros [= <- <-].
  simpl. rewrite removal_dequeue. by rewrite E.
Qed.

Lemma step_pops s w task q' :
  server_ok s → workers s !! w = None → worker_takes cfg (request_queue s) = Some (task, q') →
  server_ok (Server (connections s) q' (<[w := task]> (workers s)) (ip_rate_limiter s)).
Proof.
  intros [Hall Htask Hacc] Hw Hq%worker_takes_head. set (s' := Server _ q' _ _).
  assert (∀ t, outstanding s' t ↔ outstanding s t) as Hout.
  { intros t. unfold outstanding, s'. simpl. rewrite Hq. split.
    - intros [Ht|[w' Hw']]; [left; by right|].
      apply lookup_insert_Some in Hw' as [[_ <-]|[_ Hw']]; [left; by left|right; by exists w'].
    - intros [[->|Ht]%elem_of_cons|[w' Hw']]; [right; exists w; by rewrite lookup_insert_eq|by left|].
      right. exists w'. rewrite lookup_insert_ne; [done|]. congruence. }
  split; [done| |].
  - intros t Ht. apply Hout in Ht. by apply (Htask t).
  - intros k v n Hk Hn. destruct (Hacc k v n Hk Hn) as [(t & Ht & ?)|?]; [left|by right].
    exists t. by rewrite Hout.
Qed.

Lemma step_answers s w task r c l :
  server_ok s → workers s !! w = Some task →
  process_client_request (task_client_ip task) (task_request task) r →
  connections s !! task_connection task = Some (Served c l) →
  server_ok (Server
    (<[task_connection task := Served (send_response r (task_sequence_id task) c) l]> (connections s))
    (request_queue s) (delete w (workers s)) (ip_rate_limiter s)).
Proof.
  intros Hs Hw Hans Hk. pose proof (all_served_ok _ _ Hs _ _ Hk) as Hv.
  destruct (all_tasks_ok _ _ Hs task ltac:(right; by exists w)) as (v & n & Hv1 & Hid & Hn).
  rewrite Hk in Hv1. simplify_eq. set (s' := Server _ _ _ _).
  refine (server_update s s' _ _ _ Hs Hk eq_refl _ _ _ _ _ _); simpl.
  - destruct Hv. split; simpl; try done.
    { by apply (conn_ok_congr c). }
    intros p [Hin| ->%list_elem_of_singleton]%elem_of_app; [by apply served_posted0|].
    exists n. split; [done|]. eexists _, _. split; [exact Hn|by left].
  - done.
  - intros t [Ht|[w' Hw']]; left; [by left|right]. unfold s' in Hw'. simpl in Hw'. apply lookup_delete_Some in Hw' as [_ Hw']. by exists w'.
  - intros t [Ht|[w' Hw']]; [left; by left|]. destruct (decide (w' = w)) as [->|Hne].
    + right. simplify_eq. split; [done|]. left. exists (PostedResponse r (task_sequence_id task)).
      split; [|done]. simpl. apply elem_of_app. right. by left.
    + left. right. exists w'. simpl. by rewrite lookup_delete_ne.
  - intros m [[(p & Hp & Hpid)|Hres]|Hlt]; [left; left; exists p|left; by right|by right].
    split; [|done]. simpl. apply elem_of_app. by left.
  - lia.
Qed.

Lemma step_accepts s k ip ips' c :
  server_ok s → connections s !! k = None → start (new_connection ip) = Returns c →
  server_ok (Server (<[k := Served c []]> (connections s)) (request_queue s) (workers s) ips').
Proof.
  intros [Hall Htask Hacc] Hk Hc. set (s' := Server _ _ _ _).
  assert (served_ok (Served c [])) as Hv.
  { pose proof (conn_ok_start ip c Hc) as Hok. injection Hc as <-. split; simpl; try done.
    intros p Hp. by apply elem_of_nil in Hp. }
  assert (∀ k' v, connections s !! k' = Some v → connections s' !! k' = Some v) as Hkeep.
  { intros k' v Hv'. unfold s'. simpl. rewrite lookup_insert_ne; [done|congruence]. }
  split.
  - by apply map_Forall_insert_2.
  - intros t Ht. destruct (Htask t Ht) as (v & n & Hv1 & ?). exists v, n. split; [by apply Hkeep|done].
  - intros k' v n Hk' Hn. destruct (decide (k' = k)) as [->|Hne].
    + unfold s' in Hk'. simpl in Hk'. rewrite lookup_insert_eq in Hk'. simplify_eq/=. lia.
    + unfold s' in Hk'. simpl in Hk'. rewrite lookup_insert_ne in Hk' by done. by apply Hacc.
Qed.

Lemma on_accept_started failed ip now ips c ips' :
  on_accept ip_limits failed ip now ips = Returns (Some c, ips') → start (new_connection ip) = Returns c.
Proof.
  unfold on_accept. destruct failed; [done|]. destruct ip as [ip|]; [|done].
  destruct (consume _ _ _ _ _) as [[] ips1]; [|done]. by intros [= <- _].
Qed.

Lemma ids_fit_connection s k v :
  ids_fit s → connections s !! k = Some v → (Z.of_nat (length (received v)) < two64)%Z.
Proof. intros Hf. by apply Hf. Qed.

(** Histories only grow. *)
Lemma ids_fit_step s s' : server_step s s' → ids_fit s' → ids_fit s.
Proof.
  intros Hstep.
  assert (∀ k v, connections s !! k = Some v →
    ∃ v', connections s' !! k = Some v' ∧ length (received v) ≤ length (received v')) as Hgrow.
  { intros k0 v0 Hk0.
    destruct Hstep as [failed peer now c ips' k s _ Hnone|failed peer now ips' s _
      |k c l rq c' q' sig s Hk _ _|w task q' s _ _|w task r c l s _ _ Hk|k c l p ps c' s Hk _ _
      |k c l failed c' s Hk _ _|k c l s Hk]; simpl;
      try (by exists v0);
      try (match goal with |- context [ <[?key := _]> _ ] => destruct (decide (k0 = key)) as [->|Hne] end;
        [|rewrite lookup_insert_ne by done; by exists v0]; rewrite lookup_insert_eq; first [congruence|simplify_eq;
        eexists; split; [done|]; simpl; try done]).
    unfold log_request. destruct rq, (HttpConnection.peer c); rewrite ?length_app; simpl; lia. }
  intros Hfit k v Hk. destruct (Hgrow k v Hk) as (v' & Hk' & Hle). specialize (Hfit k v' Hk'). simpl in Hfit. lia.
Qed.

Lemma server_ok_step s s' : server_ok s → ids_fit s' → server_step s s' → server_ok s'.
Proof.
  intros Hs Hfit Hstep. pose proof (ids_fit_step s s' Hstep Hfit) as Hfit0.
  destruct Hstep as [failed peer now c ips' k s Hacc Hk|failed peer now ips' s _
    |k c l rq c' q' sig s Hk Hrd Hread|w task q' s Hw Hq|w task r c l s Hw Hans Hk|k c l p ps c' s Hk Hp Hc'
    |k c l failed c' s Hk Hf Hc'|k c l s Hk].
  - eapply step_accepts; eauto. by eapply on_accept_started.
  - by destruct Hs.
  - eapply step_reads; eauto. apply (Hfit k (Served c' _)). simpl. by rewrite lookup_insert_eq.
  - by apply step_pops.
  - by eapply step_answers.
  - destruct (closure_served c l p ps c') as (Hv & Hw & Hheld); try done;
      [by apply (all_served_ok _ _ Hs k)|by apply (Hfit0 k _ Hk)|].
    eapply server_update_handler; eauto. rewrite Hw. intros n [?|?]; auto.
  - destruct (wrote_served c l failed c') as (Hv & Hlen & Hheld); try done;
      [by apply (all_served_ok _ _ Hs k)|by apply (Hfit0 k _ Hk)|].
    eapply server_update_handler; eauto. intros n [Hn|Hn]; [|right; lia].
    destruct (Hheld _ Hn) as [?|[Heq Hlt]]; [by left|right]. lia.
  - eapply server_update_handler; eauto. pose proof (all_served_ok _ _ Hs k _ Hk) as [].
    split; simpl; try done. by apply (conn_ok_congr c).
Qed.

Lemma server_ok_initial : server_ok initial_server.
Proof.
  split; [by intros k v Hk| |by intros k v n Hk].
  intros t [Ht|[w Hw]]; [by apply elem_of_nil in Ht|done].
Qed.

Lemma server_reachable_ok s :
  server_reachable process_client_request cfg ip_limits s → ids_fit s → server_ok s.
Proof.
  intros Hr. apply (rtc_invariant server_step (λ x, ids_fit x → server_ok x)) with initial_server;
    [|done|intros _; apply server_ok_initial].
  intros s1 s2 IH Hstep Hfit. eapply server_ok_step; eauto using ids_fit_step.
Qed.

(** Nothing queued, processed, posted or being written: all is answered. *)
Lemma quiet_answered s k v :
  server_ok s → ids_fit s → connections s !! k = Some v →
  dequeue (request_queue s) = [] → workers s = ∅ →
  posted (connection v) = [] → writing (connection v) = false →
  length (wire (connection v)) = length (received v).
Proof.
  intros Hs Hfit Hk Hq Hw Hp Hwr.
  pose proof (all_served_ok _ _ Hs k v Hk) as Hv. pose proof (wire_short v Hv) as Hle.
  destruct (decide (length (wire (connection v)) < length (received v))) as [Hlt|]; [exfalso|lia].
  destruct (all_accounted _ _ Hs k v _ Hk Hlt) as [(t & Ht & _)|[(p & Hin & _)|[Hres|?]]]; [| | |lia].
  - destruct Ht as [Ht|[w Ht]]; [rewrite Hq in Ht; by apply elem_of_nil in Ht|by rewrite Hw in Ht].
  - rewrite Hp in Hin. by apply elem_of_nil in Hin.
  - destruct (idle_has_nothing _ (served_conn_ok _ _ Hv) Hwr) as [_ Hnone].
    rewrite (next_response_exact v Hv (Hfit k v Hk)) in Hnone. rewrite Hnone in Hres. by destruct Hres.
Qed.
End server_lemmas.

(** ** The step relation, executably

    A schedule lists the events in the order in which they happen; the
    application is a function. *)
Inductive server_event `{HttpMessages} :=
  | EvAccept (failed : bool) (peer : option string) (now : Z) (k : nat)
  | EvRead (k : nat) (rq : option request)
  | EvPop (w : nat)
  | EvAnswer (w : nat)
  | EvStrand (k : nat)
  | EvWrite (k : nat) (failed : bool)
  | EvLeave (k : nat).

Section schedules.
Context `{HttpMessages} `{Double}.
Context (process_client_request : string → request → response → Prop).
Context (cfg : queue_config) (ip_limits : limits).
Context (application : string → request → outcome response).
Context (application_ok : ∀ ip rq r,
  application ip rq = Returns r → process_client_request ip rq r).

Definition run_event (e : server_event) (s : server) : option server :=
  match e with
  | EvAccept failed peer now k =>
      match on_accept ip_limits failed peer now (ip_rate_limiter s), connections s !! k with
      | Returns (Some c, ips'), None =>
          Some (Server (<[k := Served c []]> (connections s)) (request_queue s) (workers s) ips')
      | Returns (None, ips'), _ => Some (Server (connections s) (request_queue s) (workers s) ips')
      | _, _ => None
      end
  | EvRead k rq =>
      match connections s !! k with
      | Some (Served c l) =>
          if reading c then
            match on_read cfg k rq c (request_queue s) with
            | Returns (c', q', _) =>
                Some (Server (<[k := Served c' (log_request c rq l)]> (connections s)) q'
                  (workers s) (ip_rate_limiter s))
            | _ => None
            end
          else None
      | None => None
      end
  | EvPop w =>
      match workers s !! w, worker_takes cfg (request_queue s) with
      | None, Some (task, q') =>
          Some (Server (connections s) q' (<[w := task]> (workers s)) (ip_rate_limiter s))
      | _, _ => None
      end
  | EvAnswer w =>
      match workers s !! w with
      | Some task =>
          match connections s !! task_connection task,
                application (task_client_ip task) (task_request task) with
          | Some (Served c l), Returns r =>
              Some (Server
                (<[task_connection task := Served (send_response r (task_sequence_id task) c) l]>
                  (connections s))
                (request_queue s) (delete w (workers s)) (ip_rate_limiter s))
          | _, _ => None
          end
      | None => None
      end
  | EvStrand k =>
      match connections s !! k with
      | Some (Served c l) =>
          match posted c with
          | p :: ps =>
              match run_closure p (with_posted ps c) with
              | Returns c' => Some (with_connection k (Served c' l) s)
              | _ => None
              end
          | [] => None
          end
      | None => None
      end
  | EvWrite k failed =>
      match connections s !! k with
      | Some (Served c l) =>
          match in_flight c, on_write failed c with
          | Some _, Returns c' => Some (with_connection k (Served c' l) s)
          | _, _ => None
          end
      | None => None
      end
  | EvLeave k =>
      match connections s !! k with
      | Some (Served c l) => Some (with_connection k (Served (with_peer None c) l) s)
      | None => None
      end
  end.

Fixpoint run_schedule (es : list server_event) (s : server) : option server :=
  match es with
  | [] => Some s
  | e :: es' => match run_event e s with Some s1 => run_schedule es' s1 | None => None end
  end.

Lemma run_event_sound e s s' :
  run_event e s = Some s' → server_step process_client_request cfg ip_limits s s'.
Proof.
  destruct e as [failed peer now k|k rq|w|w|k|k failed|k]; simpl; intros Hrun;
    repeat case_match; simplify_eq.
  - by eapply server_accepts.
  - by eapply server_refuses.
  - by eapply server_reads.
  - by eapply worker_pops.
  - eapply worker_answers; eauto.
  - by eapply strand_runs.
  - eapply server_wrote; [done|by eexists|done].
  - by eapply peer_leaves.
Qed.

Lemma run_schedule_sound es s s' :
  run_schedule es s = Some s' → rtc (server_step process_client_request cfg ip_limits) s s'.
Proof.
  revert s. induction es as [|e es IH]; intros s; simpl; [by intros [= ->]|].
  destruct (run_event e s) as [s1|] eqn:E; [|done]. intros Hrun.
  eapply rtc_l; [by apply (run_event_sound e)|by apply IH].
Qed.
End schedules.

(** ** Properties *)

(** C1. End to end: in every reachable state of the server, the [n]-th response
    written on a connection carries sequence id [n] and answers the [n]-th
    request read on it: it is what the application returned for that request
    and that client's address, or, if the queue refused the request, the
    overload response, and then the request is the last one read.  This holds
    for every interleaving of connections, worker threads and strands. *)
Theorem responses_answer_requests_in_order `{HttpMessages} `{Double}
    (process_client_request : string → request → response → Prop) (cfg : queue_config)
    (ip_limits : limits) (s : server) (k : nat) (v : served) (n : nat) (id : Z) (r : response) :
  server_reachable process_client_request cfg ip_limits s → ids_fit s →
  connections s !! k = Some v → wire (connection v) !! n = Some (id, r) →
  id = Z.of_nat n
  ∧ ∃ ip rq r0, received v !! n = Some (ip, rq) ∧ r = prepare_payload r0
      ∧ (process_client_request ip rq r0
         ∨ (r0 = overload_response (request_version (moved_from rq)) ∧ S n = length (received v))).
Proof.
  intros Hr Hfit Hk Hn.
  pose proof (server_reachable_ok process_client_request cfg ip_limits s Hr Hfit) as Hs.
  pose proof (all_served_ok _ _ Hs k v Hk) as Hv.
  split.
  - pose proof (wire_in_order _ (served_conn_ok _ _ Hv)) as Hids.
    assert ((wire (connection v)).*1 !! n = Some id) as Hid by (rewrite list_lookup_fmap, Hn; done).
    rewrite Hids in Hid. unfold sequence_ids in Hid.
    rewrite list_lookup_fmap, lookup_seq_lt in Hid by (by apply lookup_lt_Some in Hn).
    pose proof (wire_short _ v Hv). apply lookup_lt_Some in Hn. specialize (Hfit k v Hk). simpl in *.
    simplify_eq/=. apply u64_small. unfold is_u64. lia.
  - destruct (served_wire _ _ Hv n id r Hn) as (r0 & Hr0 & ip & rq & Hrec & Ha).
    exists ip, rq, r0. split_and!; [done..|]. destruct Ha as [?|(? & ? & _)]; auto.
Qed.

(** Nothing is left unanswered: once no task is queued or with a worker, a
    connection with no posted closure that is not writing has written exactly
    one response for every request read on it. *)
Theorem quiet_connection_has_answered_everything `{HttpMessages} `{Double}
    (process_client_request : string → request → response → Prop) (cfg : queue_config)
    (ip_limits : limits) (s : server) (k : nat) (v : served) :
  server_reachable process_client_request cfg ip_limits s → ids_fit s →
  connections s !! k = Some v →
  dequeue (request_queue s) = [] → workers s = ∅ →
  posted (connection v) = [] → writing (connection v) = false →
  length (wire (connection v)) = length (received v).
Proof.
  intros Hr Hfit. apply (quiet_answered process_client_request); [|done].
  by apply (server_reachable_ok process_client_request cfg ip_limits).
Qed.

(** ** Witnesses

    Two requests pipelined on one connection, processed by two workers that
    finish in the opposite order; a third is refused by the full queue. *)
Section witnesses.
#[local] Existing Instance PlainMessages.messages.
#[local] Existing Instance exact.

Definition shout (ip : string) (rq : request) : outcome response :=
  Returns (set_body (String.append "echo " (request_body rq)) new_response).

Definition shouts (ip : string) (rq : request) (r : response) : Prop := shout ip rq = Returns r.

Definition sample_request (body : string) : request := PlainMessages.PlainRequest 11 body.

Definition small_queue : queue_config := bounded_config 1 1000.

Definition sample_schedule : list server_event :=
  [EvAccept false (Some "10.0.0.1") 0 0;
   EvRead 0 (Some (sample_request "a")); EvPop 0;
   EvRead 0 (Some (sample_request "b")); EvPop 1;
   EvAnswer 1; EvAnswer 0; EvStrand 0; EvStrand 0; EvWrite 0 false; EvWrite 0 false].

Definition refused_schedule : list server_event :=
  [EvAccept false (Some "10.0.0.1") 0 0;
   EvRead 0 (Some (sample_request "a")); EvRead 0 (Some (sample_request "b"));
   EvStrand 0; EvPop 0; EvAnswer 0; EvStrand 0; EvWrite 0 false; EvWrite 0 false].

Definition after_schedule (es : list server_event) : server :=
  default initial_server (run_schedule small_queue default_ip_limits shout es initial_server).

Definition runs (es : list server_event) : bool :=
  match run_schedule small_queue default_ip_limits shout es initial_server with
  | Some _ => true | None => false
  end.

Definition served_on (s : server) (k : nat) : served :=
  default (Served (new_connection None) []) (connections s !! k).

Definition has_connection (s : server) (k : nat) : bool :=
  match connections s !! k with Some _ => true | None => false end.

Definition few_requests (s : server) : bool :=
  bool_decide (map_Forall (λ _ v, length (received v) < 100) (connections s)).

Definition written_on (s : server) (k n : nat) : Z * response :=
  default (0%Z, new_response) (wire (connection (served_on s k)) !! n).

Definition has_written (s : server) (k n : nat) : bool :=
  bool_decide (n < length (wire (connection (served_on s k)))).

Lemma after_schedule_reachable es :
  runs es = true → server_reachable shouts small_queue default_ip_limits (after_schedule es).
Proof.
  unfold runs, after_schedule. destruct (run_schedule _ _ _ _ _) as [s|] eqn:Hs; [|done]. intros _.
  by apply (run_schedule_sound shouts small_queue default_ip_limits shout ltac:(done) es).
Qed.

Lemma has_connection_lookup s k : has_connection s k = true → connections s !! k = Some (served_on s k).
Proof. unfold has_connection, served_on. by destruct (connections s !! k). Qed.

Lemma few_requests_fit s : few_requests s = true → ids_fit s.
Proof.
  unfold few_requests, ids_fit. intros Hf%bool_decide_eq_true k v Hk.
  specialize (Hf k v Hk). cbv beta in *. unfold two64. lia.
Qed.

Lemma has_written_lookup s k n :
  has_written s k n = true →
  wire (connection (served_on s k)) !! n = Some ((written_on s k n).1, (written_on s k n).2).
Proof.
  unfold has_written, written_on. intros [r Hr]%bool_decide_eq_true%lookup_lt_is_Some_2.
  rewrite Hr. by destruct r.
Qed.

Lemma responses_answer_requests_in_order_witness :
  let s := after_schedule sample_schedule in
  response_body (written_on s 0 1).2 = "echo b"
  ∧ (written_on s 0 1).1 = 1%Z
  ∧ ∃ ip rq r0, received (served_on s 0) !! 1 = Some (ip, rq)
      ∧ (written_on s 0 1).2 = prepare_payload r0
      ∧ (shouts ip rq r0
         ∨ (r0 = overload_response (request_version (moved_from rq))
            ∧ 2 = length (received (served_on s 0)))).
Proof.
  split; [vm_compute; reflexivity|].
  apply (responses_answer_requests_in_order shouts small_queue default_ip_limits
           (after_schedule sample_schedule) 0 (served_on (after_schedule sample_schedule) 0) 1
           (written_on (after_schedule sample_schedule) 0 1).1
           (written_on (after_schedule sample_schedule) 0 1).2).
  - apply after_schedule_reachable. vm_compute. reflexivity.
  - apply few_requests_fit. vm_compute. reflexivity.
  - apply has_connection_lookup. vm_compute. reflexivity.
  - apply has_written_lookup. vm_compute. reflexivity.
Defined.

Lemma quiet_connection_has_answered_everything_witness :
  let s := after_schedule sample_schedule in
  length (wire (connection (served_on s 0))) = length (received (served_on s 0)).
Proof.
  apply (quiet_connection_has_answered_everything shouts small_queue default_ip_limits
           (after_schedule sample_schedule) 0).
  - apply after_schedule_reachable. vm_compute. reflexivity.
  - apply few_requests_fit. vm_compute. reflexivity.
  - apply has_connection_lookup. vm_compute. reflexivity.
  - apply nil_length_inv. vm_compute. reflexivity.
  - apply map_size_empty_inv. vm_compute. reflexivity.
  - apply nil_length_inv. vm_compute. reflexivity.
  - vm_compute. reflexivity.
Defined.

(** The refused request gets the overload response, after the queued one. *)
Example refused_request_is_last :
  (λ e, response_body e.2) <$> wire (connection (served_on (after_schedule refused_schedule) 0))
    = ["echo a"; "Server overloaded"].
Proof. vm_compute. reflexivity. Qed.
End witnesses.
