(* ===== verification/Ranking.v ===== *)
(** * Rankings: [std::multiset] of pointers to entries

    What [leaderboard] and [nameboard] use of [std::multiset<entry*, Compare>]:
    the nodes in order, each with its identity (which is what an iterator
    holds) and its pointer.  The comparison reads the entries through the
    pointers, and each entry stores the iterator of its own node, so the memory
    the entries live in is explicit.  Dereferencing a dangling pointer and using
    an iterator of an erased node are undefined. *)
From S2P Require Import Prelude.
From Stdlib Require Import Sorted.

Definition pointer := nat.
Definition iterator := nat.

(** An entry in memory, with the iterator it stores ([None]: default-constructed). *)
Record cell (A : Type) := Cell { content : A; position : option iterator }.
Arguments Cell {A} content position.
Arguments content {A} c.
Arguments position {A} c.

Record multiset := Multiset { nodes : list (iterator * pointer); next_node : iterator }.

Definition empty_multiset : multiset := Multiset [] 0.

Section multiset.
Context {A : Type} (lt : A → A → bool).
Abbreviation memory := (gmap pointer (cell A)) (only parsing).
Implicit Types (m : gmap pointer (cell A)) (p q : pointer) (it : iterator) (s : multiset).
Implicit Types (ns : list (iterator * pointer)) (a b : A) (l : list A).

Definition deref m p : outcome A :=
  match m !! p with Some c => Returns (content c) | None => Undefined end.

(** The comparison of two stored pointers. *)
Definition less m p q : outcome bool :=
  let! a := deref m p in
  let! b := deref m q in
  Returns (lt a b).

(** [insert]: after the elements that are not greater than the new one. *)
Fixpoint insert_node m it p ns : outcome (list (iterator * pointer)) :=
  match ns with
  | [] => Returns [(it, p)]
  | n :: ns' =>
      let! before := less m p n.2 in
      if (before : bool) then Returns ((it, p) :: n :: ns')
      else
        let! rest := insert_node m it p ns' in
        Returns (n :: rest)
  end.

Definition ms_insert m p s : outcome (iterator * multiset) :=
  let! ns := insert_node m (next_node s) p (nodes s) in
  Returns (next_node s, Multiset ns (S (next_node s))).

(** [erase(it)]. *)
Fixpoint erase_node it ns : outcome (list (iterator * pointer)) :=
  match ns with
  | [] => Undefined
  | n :: ns' =>
      if Nat.eqb n.1 it then Returns ns'
      else
        let! rest := erase_node it ns' in
        Returns (n :: rest)
  end.

Definition ms_erase it s : outcome multiset :=
  let! ns := erase_node it (nodes s) in
  Returns (Multiset ns (next_node s)).

(** [std::distance(begin(), it)]. *)
Fixpoint distance_to it ns : outcome nat :=
  match ns with
  | [] => Undefined
  | n :: ns' =>
      if Nat.eqb n.1 it then Returns 0
      else
        let! d := distance_to it ns' in
        Returns (S d)
  end.

(** [p->position = it]. *)
Definition set_position p it m : outcome (gmap pointer (cell A)) :=
  match m !! p with
  | Some c => Returns (<[p := Cell (content c) (Some it)]> m)
  | None => Undefined
  end.

(** [for (i = 0; i < count; i++, ++it) result.push_back( **it )]. *)
Fixpoint collect m (count : nat) ns : outcome (list A) :=
  match count, ns with
  | 0, _ => Returns []
  | S _, [] => Undefined
  | S count', n :: ns' =>
      let! a := deref m n.2 in
      let! rest := collect m count' ns' in
      Returns (a :: rest)
  end.

(** [std::advance(it, count)] from [begin()] (or [rbegin()]). *)
Fixpoint advance (count : nat) ns : outcome (list (iterator * pointer)) :=
  match count, ns with
  | 0, _ => Returns ns
  | S _, [] => Undefined
  | S count', _ :: ns' => advance count' ns'
  end.

(** The query loops of the boards, over the nodes [ns] from [begin()] or from
    [rbegin()]: the first [count] entries, and those from [start] to [stop]. *)
Definition first_entries m s ns (count : Z) : outcome (list A) :=
  collect m (Z.to_nat (Z.min count (zlen (nodes s)))) ns.

Definition range_of m s ns (start stop : Z) : outcome (list A) :=
  if (zlen (nodes s) <=? start)%Z || (stop <? start)%Z then Returns []
  else
    let! first := advance (Z.to_nat start) ns in
    collect m (Z.to_nat (Z.min stop (zlen (nodes s))) - Z.to_nat start) first.

(** ** The abstract ranking: a list of entries *)
Definition slice (start stop : Z) l : list A :=
  take (Z.to_nat stop - Z.to_nat start) (drop (Z.to_nat start) l).

Fixpoint upper_bound a l : nat :=
  match l with
  | [] => 0
  | b :: l' => if lt a b then 0 else S (upper_bound a l')
  end.

Fixpoint insert_upper a l : list A :=
  match l with
  | [] => [a]
  | b :: l' => if lt a b then a :: b :: l' else b :: insert_upper a l'
  end.

(** No entry is less than one before it. *)
Definition ranked l : Prop := StronglySorted (λ a b, lt b a = false) l.

(** [s] holds, in order, pointers to the entries [l], and every entry knows its
    node. *)
Record linked m s l : Prop := Linked {
  linked_cells : Forall2 (λ n a, m !! n.2 = Some (Cell a (Some n.1))) (nodes s) l;
  linked_nodes : NoDup (nodes s).*1;
  linked_pointers : NoDup (nodes s).*2;
  linked_bound : Forall (λ it, it < next_node s) (nodes s).*1
}.

(** ** Facts about the abstract ranking *)
Lemma upper_bound_le a l : upper_bound a l ≤ length l.
Proof. induction l as [|b l IH]; simpl; [done|]. destruct (lt a b); lia. Qed.

Lemma insert_upper_split a l :
  insert_upper a l = take (upper_bound a l) l ++ a :: drop (upper_bound a l) l.
Proof. induction l as [|b l IH]; simpl; [done|]. destruct (lt a b); simpl; [done|]. by rewrite IH. Qed.

Lemma insert_upper_perm a l : insert_upper a l ≡ₚ a :: l.
Proof.
  rewrite insert_upper_split, <-Permutation_middle. by rewrite take_drop.
Qed.

Lemma length_insert_upper a l : length (insert_upper a l) = S (length l).
Proof. by rewrite insert_upper_perm. Qed.

Lemma lookup_upper_bound a l : insert_upper a l !! upper_bound a l = Some a.
Proof.
  rewrite insert_upper_split. pose proof (upper_bound_le a l).
  rewrite lookup_app_r; rewrite length_take, Nat.min_l by done; [|done].
  by rewrite Nat.sub_diag.
Qed.

Lemma insert_upper_ranked a l :
  (∀ a b, lt a b = true → lt b a = false) →
  (∀ a b c, lt a b = true → lt b c = true → lt a c = true) →
  ranked l → ranked (insert_upper a l).
Proof.
  unfold ranked. intros lt_asym lt_trans. induction 1 as [|b l Hl IH Hb]; simpl; [by repeat constructor|].
  destruct (lt a b) eqn:Eab.
  - repeat (constructor; try done); [by apply lt_asym|].
    eapply Forall_impl; [exact Hb|]. intros c Hcb. simpl in Hcb.
    destruct (lt c a) eqn:Eca; [|done]. by rewrite (lt_trans c a b) in Hcb.
  - constructor; [done|]. rewrite insert_upper_perm. by constructor.
Qed.

(** Inserting something that is not less than anything puts it at the end. *)
Lemma insert_upper_end a l :
  Forall (λ b, lt a b = false) l → insert_upper a l = l ++ [a] ∧ upper_bound a l = length l.
Proof.
  induction 1 as [|b l Hb _ [IH1 IH2]]; simpl; [done|]. rewrite Hb. by rewrite IH1, IH2.
Qed.

Lemma insert_upper_snoc a l w :
  lt a w = true → insert_upper a (l ++ [w]) = insert_upper a l ++ [w].
Proof.
  intros Haw. induction l as [|b l IH]; simpl; [by rewrite Haw|]. destruct (lt a b); [done|].
  by rewrite IH.
Qed.

Lemma ranked_snoc l w : ranked (l ++ [w]) → ∀ b, b ∈ l → lt w b = false.
Proof.
  unfold ranked. induction l as [|c l IH]; intros Hl b Hb; [by apply elem_of_nil in Hb|].
  apply StronglySorted_inv in Hl as [Hl Hc]. apply elem_of_cons in Hb as [->|Hb]; [|by apply IH].
  rewrite Forall_forall in Hc. apply Hc. set_solver.
Qed.

Lemma ranked_lookup l i j a b :
  ranked l → i < j → l !! i = Some a → l !! j = Some b → lt b a = false.
Proof.
  unfold ranked. intros Hl. revert i j. induction Hl as [|c l Hl IH Hc]; intros i j Hij Hi Hj; [done|].
  destruct j as [|j]; [lia|]. destruct i as [|i]; simpl in *.
  - simplify_eq. rewrite Forall_forall in Hc. apply Hc. by eapply list_elem_of_lookup_2.
  - apply (IH i j); [lia|done..].
Qed.

Lemma ranked_delete i l : ranked l → ranked (delete i l).
Proof.
  unfold ranked. revert i. induction l as [|b l IH]; intros [|i] Hl; simpl; try done;
    apply StronglySorted_inv in Hl as [Hl Hb]; [done|].
  constructor; [by apply IH|]. by apply Forall_delete.
Qed.

(** Inserting rows that are already ranked appends them. *)
Lemma foldl_insert_ranked l k :
  ranked (l ++ k) → foldl (λ l e, insert_upper e l) l k = l ++ k.
Proof.
  revert l. induction k as [|e k IH]; intros l Hl; simpl; [by rewrite app_nil_r|].
  replace (l ++ e :: k) with ((l ++ [e]) ++ k) in * by (by rewrite <-app_assoc).
  destruct (insert_upper_end e l) as [-> _]; [|by apply IH].
  apply Forall_forall. intros b Hb. apply list_elem_of_lookup in Hb as [i Hi].
  pose proof (lookup_lt_Some _ _ _ Hi). eapply (ranked_lookup _ i (length l)); [exact Hl|done| |].
  - rewrite <-app_assoc. by apply lookup_app_l_Some.
  - rewrite <-app_assoc, lookup_app_r, Nat.sub_diag by lia. done.
Qed.

Lemma ranked_of_lookup l :
  (∀ i j x y, i < j → l !! i = Some x → l !! j = Some y → lt y x = false) → ranked l.
Proof.
  unfold ranked. induction l as [|c l IH]; intros Hl; constructor.
  - apply IH. intros i j x y Hij Hi Hj. apply (Hl (S i) (S j)); [lia|done..].
  - apply Forall_forall. intros b [j Hj]%list_elem_of_lookup. apply (Hl 0 (S j)); [lia|done..].
Qed.

Lemma foldl_insert_perm l k :
  foldl (λ l e, insert_upper e l) l k ≡ₚ l ++ k.
Proof.
  revert l. induction k as [|e k IH]; intros l; simpl; [by rewrite app_nil_r|].
  by rewrite IH, insert_upper_perm, <-Permutation_middle.
Qed.

(** ** The concrete ranking implements the abstract one *)
Abbreviation linked_node m := (λ n a, m !! n.2 = Some (Cell a (Some n.1))).

Lemma linked_length m s l : linked m s l → length (nodes s) = length l.
Proof. intros [H _ _ _]. by eapply Forall2_length. Qed.

Lemma linked_lookup m s l i it p :
  linked m s l → nodes s !! i = Some (it, p) → ∃ a, l !! i = Some a ∧ m !! p = Some (Cell a (Some it)).
Proof. intros [H _ _ _] Hi. by destruct (Forall2_lookup_l _ _ _ _ _ H Hi) as (a & Ha & Hp); eauto. Qed.

Lemma linked_lookup_r m s l i a :
  linked m s l → l !! i = Some a → ∃ it p, nodes s !! i = Some (it, p) ∧ m !! p = Some (Cell a (Some it)).
Proof.
  intros [H _ _ _] Hi. destruct (Forall2_lookup_r _ _ _ _ _ H Hi) as ([it p] & Hn & Hp); eauto.
Qed.

Lemma linked_pointer_index m s l i j it it' p :
  linked m s l → nodes s !! i = Some (it, p) → nodes s !! j = Some (it', p) → i = j.
Proof.
  intros H Hi Hj. eapply (NoDup_lookup _ i j p (linked_pointers _ _ _ H));
    rewrite list_lookup_fmap, ?Hi, ?Hj; done.
Qed.

Lemma Forall2_other m m' ns l :
  (∀ n, n ∈ ns → m' !! n.2 = m !! n.2) → Forall2 (linked_node m) ns l → Forall2 (linked_node m') ns l.
Proof.
  intros Heq H. induction H as [|n a ns l Hn _ IH]; [constructor|].
  constructor; [rewrite Heq; [done|by left]|]. apply IH. intros; apply Heq. by right.
Qed.

(** Memory the ranking does not point to is irrelevant. *)
Lemma linked_other m m' s l :
  (∀ q, q ∈ (nodes s).*2 → m' !! q = m !! q) → linked m s l → linked m' s l.
Proof.
  intros Heq [Hc Hn Hp Hb]. split; try done. eapply Forall2_other; [|done].
  intros n Hin. apply Heq. apply list_elem_of_fmap. eauto.
Qed.

Lemma set_position_returns p it m a pos :
  m !! p = Some (Cell a pos) → set_position p it m = Returns (<[p := Cell a (Some it)]> m).
Proof. intros Hp. unfold set_position. by rewrite Hp. Qed.

Lemma insert_node_linked m it p a pos ns l :
  m !! p = Some (Cell a pos) → Forall2 (linked_node m) ns l →
  insert_node m it p ns
    = Returns (take (upper_bound a l) ns ++ (it, p) :: drop (upper_bound a l) ns).
Proof.
  intros Hp H. induction H as [|n b ns l Hn H IH]; simpl; [done|].
  unfold less, deref. rewrite Hp, Hn. simpl. destruct (lt a b); simpl; [done|]. by rewrite IH.
Qed.

Lemma distance_to_app it ns n ns' :
  it ∉ ns.*1 → n.1 = it → distance_to it (ns ++ n :: ns') = Returns (length ns).
Proof.
  intros Hit Hn. induction ns as [|n0 ns IH]; simpl in *.
  - by destruct (Nat.eqb_spec n.1 it).
  - apply not_elem_of_cons in Hit as [Hne Hit]. destruct (Nat.eqb_spec n0.1 it); [congruence|].
    by rewrite IH.
Qed.

Lemma erase_node_app it ns n ns' :
  it ∉ ns.*1 → n.1 = it → erase_node it (ns ++ n :: ns') = Returns (ns ++ ns').
Proof.
  intros Hit Hn. induction ns as [|n0 ns IH]; simpl in *.
  - by destruct (Nat.eqb_spec n.1 it).
  - apply not_elem_of_cons in Hit as [Hne Hit]. destruct (Nat.eqb_spec n0.1 it); [congruence|].
    by rewrite IH.
Qed.

Lemma fmap_insert_perm {B} (f : iterator * pointer → B) i n ns :
  (f <$> (take i ns ++ n :: drop i ns)) ≡ₚ f n :: (f <$> ns).
Proof. rewrite <-fmap_cons. apply fmap_Permutation. by rewrite <-Permutation_middle, take_drop. Qed.

(** [ranking.insert(p)] followed by [p->position = it]. *)
Lemma insert_linked m s l p a pos :
  linked m s l → m !! p = Some (Cell a pos) → p ∉ (nodes s).*2 →
  ∃ s', ms_insert m p s = Returns (next_node s, s')
    ∧ nodes s' = take (upper_bound a l) (nodes s) ++ (next_node s, p) :: drop (upper_bound a l) (nodes s)
    ∧ distance_to (next_node s) (nodes s') = Returns (upper_bound a l)
    ∧ linked (<[p := Cell a (Some (next_node s))]> m) s' (insert_upper a l).
Proof.
  intros H Hp Hnew. pose proof (linked_length m s l H) as Hlen. destruct H as [Hc Hn Hps Hb].
  assert (next_node s ∉ (nodes s).*1) as Hfresh.
  { intros Hin. rewrite Forall_forall in Hb. specialize (Hb _ Hin). simpl in Hb. lia. }
  unfold ms_insert. rewrite (insert_node_linked _ _ _ a pos _ l) by done. simpl.
  eexists. split; [done|]. simpl. split; [done|]. split.
  { rewrite distance_to_app; [|intros Hin; apply Hfresh|done].
    - f_equal. rewrite length_take. pose proof (upper_bound_le a l). lia.
    - rewrite fmap_take in Hin. by apply elem_of_take in Hin as (? & ?%list_elem_of_lookup_2 & _). }
  split; simpl.
  - rewrite insert_upper_split.
    assert (Forall2 (linked_node (<[p:=Cell a (Some (next_node s))]> m)) (nodes s) l) as Hc'.
    { eapply Forall2_other; [|done]. intros n Hin. rewrite lookup_insert_ne; [done|]. intros ->.
      apply Hnew, list_elem_of_fmap. eauto. }
    apply Forall2_app; [by apply Forall2_take|]. constructor; [by rewrite lookup_insert_eq|].
    by apply Forall2_drop.
  - rewrite fmap_insert_perm. by constructor.
  - rewrite fmap_insert_perm. by constructor.
  - rewrite fmap_insert_perm. constructor; [simpl; lia|]. eapply Forall_impl; [done|]. simpl. lia.
Qed.

Lemma node_split s i (n : iterator * pointer) :
  NoDup (nodes s).*1 → nodes s !! i = Some n →
  nodes s = take i (nodes s) ++ n :: drop (S i) (nodes s) ∧ (n.1 ∉ (take i (nodes s)).*1)
  ∧ length (take i (nodes s)) = i.
Proof.
  intros Hnd Hi. pose proof (take_drop_middle _ _ _ Hi) as Heq. split_and!; [done| |].
  - rewrite <-Heq in Hnd. rewrite fmap_app, fmap_cons in Hnd. apply NoDup_app in Hnd as (_ & Hd & _).
    intros Hin. apply (Hd _ Hin). by left.
  - apply length_take_le. apply lookup_lt_Some in Hi. lia.
Qed.

Lemma distance_linked m s l i it p :
  linked m s l → nodes s !! i = Some (it, p) → distance_to it (nodes s) = Returns i.
Proof.
  intros [_ Hnd _ _] Hi. destruct (node_split s i (it, p) Hnd Hi) as (Heq & Hit & Hlen).
  rewrite Heq, (distance_to_app it _ (it, p)) by done. by rewrite Hlen.
Qed.

Lemma erase_linked m s l i it p :
  linked m s l → nodes s !! i = Some (it, p) →
  ∃ s', ms_erase it s = Returns s' ∧ nodes s' = delete i (nodes s) ∧ linked m s' (delete i l).
Proof.
  intros [Hc Hnd Hp Hb] Hi. destruct (node_split s i (it, p) Hnd Hi) as (Heq & Hit & Hlen).
  assert (erase_node it (nodes s) = Returns (delete i (nodes s))) as Herase.
  { by rewrite Heq, (erase_node_app it _ (it, p)), <-Heq, delete_take_drop by done. }
  unfold ms_erase. rewrite Herase. simpl. eexists. split; [done|]. simpl. split; [done|].
  split; simpl; rewrite ?list_fmap_delete.
  - by apply Forall2_delete.
  - eapply sublist_NoDup; [apply Hnd|apply sublist_delete].
  - eapply sublist_NoDup; [apply Hp|apply sublist_delete].
  - by apply Forall_delete.
Qed.

Lemma collect_linked m n ns l :
  Forall2 (linked_node m) ns l → n ≤ length l → collect m n ns = Returns (take n l).
Proof.
  intros H. revert n. induction H as [|n0 a ns l Hn H IH]; intros [|n] Hle; simpl in *; try done; [lia|].
  unfold deref. rewrite Hn. simpl. rewrite IH by lia. done.
Qed.

Lemma advance_drop n ns : n ≤ length ns → advance n ns = Returns (drop n ns).
Proof. revert n. induction ns as [|n0 ns IH]; intros [|n] Hle; simpl in *; try done; [lia|apply IH; lia]. Qed.
Lemma first_entries_spec m s ns l (n : Z) :
  Forall2 (linked_node m) ns l → length (nodes s) = length l → first_entries m s ns n = Returns (take (Z.to_nat n) l).
Proof.
  intros Hns Hk. unfold first_entries, zlen.
  rewrite (collect_linked _ _ _ l Hns) by lia. f_equal. rewrite Hk.
  destruct (decide (Z.to_nat n ≤ length l)).
  - f_equal. lia.
  - rewrite !take_ge by lia. done.
Qed.

Lemma range_of_spec m s ns l (i j : Z) :
  Forall2 (linked_node m) ns l → length (nodes s) = length l → range_of m s ns i j = Returns (slice i j l).
Proof.
  intros Hns Hk. unfold range_of, slice, zlen. rewrite Hk.
  pose proof (Forall2_length _ _ _ Hns) as Hlen.
  destruct (Z.leb_spec (Z.of_nat (length l)) i) as [Hi|Hi]; simpl.
  { rewrite drop_ge by lia. by rewrite take_nil. }
  destruct (Z.ltb_spec j i) as [Hij|Hij].
  { replace (Z.to_nat j - Z.to_nat i) with 0 by lia. done. }
  rewrite advance_drop by lia. simpl.
  rewrite (collect_linked _ _ _ (drop (Z.to_nat i) l)); [|by apply Forall2_drop|rewrite length_drop; lia].
  f_equal. destruct (decide (Z.to_nat j ≤ length l)).
  - f_equal. lia.
  - rewrite !take_ge; rewrite ?length_drop; try lia. done.
Qed.

End multiset.

#[export] Hint Resolve insert_upper_ranked ranked_delete : ranking.
