(* ===== verification/Json.v ===== *)
(** * JSON values and saved files

    [nlohmann::json] is a library the sources call, so its values and functions
    are an interface; the laws are the documented behaviour that the boards rely
    on.  Values are taken up to the library's [operator==], under which a
    signed and an unsigned integer of the same value are the same.  A function
    that can throw returns an option, [None] being the exception: the boards
    catch them all alike.

    The second half is what [leaderboard], [nameboard] and [score_stream] share
    of [save] and [load]: the temporary file, the rename, and reading back. *)
From S2P Require Import Prelude.

Class Json := {
  json : Type;
  (** The contents of a file. *)
  text : Type;
  empty_text : text;
  json_string : string → json;
  (** From [int64_t] and from [uint64_t]. *)
  json_int : Z → json;
  (** [{{key, value}, ...}]. *)
  json_object : list (string * json) → json;
  (** [json::array()]. *)
  empty_array : json;
  push_back : json → json → json;
  is_array : json → bool;
  is_object : json → bool;
  (** What a range-based [for] visits. *)
  items : json → list json;
  (** [at(key)], [get<std::string>()], [get<std::int64_t>()] and
      [get<std::uint64_t>()]. *)
  at_key : string → json → option json;
  get_string : json → option string;
  get_int64 : json → option Z;
  get_uint64 : json → option Z;
  (** [dump(4)] and [operator>>]. *)
  dump : json → option text;
  parse : text → option json;
  (** Values whose text parses back to them: all but non-finite numbers. *)
  finite : json → Prop
}.

Definition is_i64 (z : Z) : Prop := (-9223372036854775808 ≤ z < 9223372036854775808)%Z.

#[export] Instance is_i64_dec z : Decision (is_i64 z).
Proof. unfold is_i64. apply _. Defined.

Class JsonLaws `{Json} : Prop := {
  is_array_empty : is_array empty_array = true;
  is_array_push j x : is_array j = true → is_array (push_back j x) = true;
  items_empty : items empty_array = [];
  items_push j x : is_array j = true → items (push_back j x) = items j ++ [x];
  is_object_object kvs : is_object (json_object kvs) = true;
  at_key_object k v kvs : NoDup kvs.*1 → (k, v) ∈ kvs → at_key k (json_object kvs) = Some v;
  get_string_string s : get_string (json_string s) = Some s;
  get_int64_int z : is_i64 z → get_int64 (json_int z) = Some z;
  get_uint64_int z : is_u64 z → get_uint64 (json_int z) = Some z;
  parse_dump j t : finite j → dump j = Some t → parse t = Some j;
  finite_string s : finite (json_string s);
  finite_int z : finite (json_int z);
  finite_object kvs : Forall finite kvs.*2 → finite (json_object kvs);
  finite_empty : finite empty_array;
  finite_push j x : finite j → finite x → finite (push_back j x)
}.

Section json.
Context `{Json}.
Implicit Types (j : json) (path : string) (fs : gmap string text).

(** [for (...) j.push_back(...)]. *)
Definition push_all (js : list json) j : json := foldl push_back j js.

Lemma items_push_all `{!JsonLaws} js j :
  is_array j = true → items (push_all js j) = items j ++ js ∧ is_array (push_all js j) = true.
Proof.
  revert j. induction js as [|x js IH]; intros j Hj; simpl; [by rewrite app_nil_r|].
  destruct (IH (push_back j x)) as [-> ->]; [by apply is_array_push|].
  by rewrite items_push, <-app_assoc.
Qed.

Lemma finite_push_all `{!JsonLaws} js j : finite j → Forall finite js → finite (push_all js j).
Proof.
  intros Hj Hjs. revert j Hj. induction Hjs as [|x js Hx _ IH]; intros j Hj; simpl; [done|].
  apply IH. by apply finite_push.
Qed.

(** ** Saving

    What the file system does during one [save]. *)
Record disk_events := DiskEvents {
  open_succeeds : bool;
  (** What the temporary file holds while the stream is drained into it. *)
  partial_contents : list text;
  write_succeeds : bool;
  rename_succeeds : bool;
  remove_succeeds : bool
}.

Definition quiet_disk : disk_events := DiskEvents true [] true true true.

Definition temp_path path : string := String.append path ".tmp".

(** The file systems a crash could leave, and the returned value. *)
Record save_result := SaveResult { disk_history : list (gmap string text); saved : bool }.

Definition final_files fs (r : save_result) : gmap string text := default fs (last (disk_history r)).

(** [catch (...)]: [remove(temp_path, ec)]. *)
Definition give_up_save path (ev : disk_events) fs : list (gmap string text) :=
  if remove_succeeds ev then [delete (temp_path path) fs] else [].

(** [save], once the array [j] is built. *)
Definition save_json path j (ev : disk_events) fs : save_result :=
  if negb (open_succeeds ev) then SaveResult [] false
  else
    let opened := <[temp_path path := empty_text]> fs in
    match dump j with
    | None => SaveResult (opened :: give_up_save path ev opened) false
    | Some t =>
        let drained := (λ c, <[temp_path path := c]> fs) <$> partial_contents ev in
        if negb (write_succeeds ev) then SaveResult (opened :: drained) false
        else
          let written := <[temp_path path := t]> fs in
          if rename_succeeds ev then
            SaveResult (opened :: drained ++ [written; <[path := t]> (delete (temp_path path) fs)]) true
          else
            SaveResult (opened :: drained ++ written :: give_up_save path ev written) false
    end.

(** ** Loading

    [load] up to its loop: the items of the array, or [None] when it returns
    [false] or throws on the way. *)
Definition read_items path (readable : bool) fs : option (list json) :=
  match fs !! path with
  | Some t =>
      if readable then
        match parse t with
        | Some j => if is_array j then Some (items j) else None
        | None => None
        end
      else None
  | None => None
  end.

(** ** Facts *)
Lemma length_append (a b : string) : String.length (String.append a b) = String.length a + String.length b.
Proof. induction a as [|c a IH]; simpl; [done|]. by rewrite IH. Qed.

Lemma temp_path_ne path : temp_path path ≠ path.
Proof.
  intros Heq. apply (f_equal String.length) in Heq. unfold temp_path in Heq.
  rewrite length_append in Heq. simpl in Heq. lia.
Qed.

(** Reading back an object written in the sources' style. *)
Lemma at_key_three `{!JsonLaws} k1 k2 k3 v1 v2 v3 :
  k1 ≠ k2 → k1 ≠ k3 → k2 ≠ k3 →
  let j := json_object [(k1, v1); (k2, v2); (k3, v3)] in
  at_key k1 j = Some v1 ∧ at_key k2 j = Some v2 ∧ at_key k3 j = Some v3.
Proof.
  intros. split_and!; apply at_key_object; simpl; try set_solver;
    (repeat constructor; set_solver).
Qed.

Lemma at_key_two `{!JsonLaws} k1 k2 v1 v2 :
  k1 ≠ k2 →
  let j := json_object [(k1, v1); (k2, v2)] in
  at_key k1 j = Some v1 ∧ at_key k2 j = Some v2.
Proof.
  intros. split_and!; apply at_key_object; simpl; try set_solver;
    (repeat constructor; set_solver).
Qed.

(** A state in which only the temporary file differs. *)
Definition only_temp path fs fs' : Prop := ∀ q, q ≠ temp_path path → fs' !! q = fs !! q.

Lemma only_temp_insert path c fs : only_temp path fs (<[temp_path path := c]> fs).
Proof. intros q Hq. by rewrite lookup_insert_ne. Qed.

Lemma only_temp_delete path fs fs' : only_temp path fs fs' → only_temp path fs (delete (temp_path path) fs').
Proof. intros Ho q Hq. rewrite lookup_delete_ne by done. by apply Ho. Qed.

Lemma only_temp_give_up path ev fs fs' :
  only_temp path fs fs' → Forall (only_temp path fs) (give_up_save path ev fs').
Proof.
  intros Ho. unfold give_up_save. destruct (remove_succeeds ev); [|done].
  constructor; [by apply only_temp_delete|done].
Qed.

Hint Resolve only_temp_insert only_temp_give_up only_temp_delete : core.

(** The states of the disk before the rename. *)
Lemma save_json_history path j ev fs :
  let r := save_json path j ev fs in
  (saved r = false ∧ Forall (only_temp path fs) (disk_history r))
  ∨ (saved r = true ∧ ∃ t before, dump j = Some t
       ∧ disk_history r = before ++ [<[path := t]> (delete (temp_path path) fs)]
       ∧ Forall (only_temp path fs) before).
Proof.
  cbv zeta. unfold save_json.
  assert (Forall (only_temp path fs) ((λ c, <[temp_path path := c]> fs) <$> partial_contents ev)) as Hd.
  { apply Forall_fmap, Forall_forall. intros c _. apply only_temp_insert. }
  destruct (open_succeeds ev); simpl; [|by left].
  destruct (dump j) as [t|]; [|left; split; [done|constructor; auto]].
  destruct (write_succeeds ev); simpl; [|left; split; [done|constructor; auto]].
  destruct (rename_succeeds ev); simpl.
  - right. split; [done|]. eexists t, (_ :: _ ++ [_]). split; [done|].
    split; [simpl; f_equal; rewrite <-app_assoc; reflexivity|]. constructor; [auto|]. apply Forall_app; split; [done|constructor; auto].
  - left. split; [done|]. constructor; [auto|]. apply Forall_app; split; [done|constructor; auto].
Qed.

Lemma read_items_saved `{!JsonLaws} path js ev fs fs' :
  Forall finite js →
  saved (save_json path (push_all js empty_array) ev fs) = true →
  fs' = final_files fs (save_json path (push_all js empty_array) ev fs) →
  read_items path true fs' = Some js.
Proof.
  intros Hjs Hs ->.
  destruct (save_json_history path (push_all js empty_array) ev fs)
    as [[? _]|(_ & t & before & Ht & Hh & _)]; [congruence|].
  unfold final_files, read_items. rewrite Hh, last_snoc. simpl. rewrite lookup_insert_eq.
  rewrite (parse_dump _ _ (finite_push_all js _ finite_empty Hjs) Ht).
  destruct (items_push_all js empty_array is_array_empty) as [-> ->].
  by rewrite items_empty.
Qed.
End json.

(** ** A concrete interface: the values themselves as text *)
Module PlainJson.
Inductive value :=
  | VNull
  | VString (s : string)
  | VInt (z : Z)
  | VObject (kvs : list (string * value))
  | VArray (vs : list value).

Fixpoint find_key (k : string) (kvs : list (string * value)) : option value :=
  match kvs with
  | [] => None
  | (k', v) :: kvs' => if String.eqb k k' then Some v else find_key k kvs'
  end.

Lemma find_key_in k v kvs : NoDup kvs.*1 → (k, v) ∈ kvs → find_key k kvs = Some v.
Proof.
  induction kvs as [|[k' v'] kvs IH]; intros Hnd Hin; [by apply elem_of_nil in Hin|].
  simpl in *. apply NoDup_cons in Hnd as [Hk Hnd].
  destruct (String.eqb_spec k k') as [->|Hne].
  - apply elem_of_cons in Hin as [[= ->]|Hin]; [done|]. destruct Hk.
    apply list_elem_of_fmap. by exists (k', v).
  - apply elem_of_cons in Hin as [[= ? _]|Hin]; [done|by apply IH].
Qed.

#[export] Instance plain_json : Json := {|
  json := value;
  text := value;
  empty_text := VNull;
  json_string := VString;
  json_int := VInt;
  json_object := VObject;
  empty_array := VArray [];
  push_back j x := match j with VArray vs => VArray (vs ++ [x]) | _ => j end;
  is_array j := match j with VArray _ => true | _ => false end;
  is_object j := match j with VObject _ => true | _ => false end;
  items j := match j with VArray vs => vs | _ => [] end;
  at_key k j := match j with VObject kvs => find_key k kvs | _ => None end;
  get_string j := match j with VString s => Some s | _ => None end;
  get_int64 j := match j with VInt z => Some z | _ => None end;
  get_uint64 j := match j with VInt z => Some z | _ => None end;
  dump j := match j with VNull => None | _ => Some j end;
  parse t := match t with VNull => None | _ => Some t end;
  finite j := j ≠ VNull
|}.

#[export] Instance plain_json_laws : JsonLaws.
Proof.
  split; simpl; try done; try by intros; destruct j.
  - intros k v kvs. apply find_key_in.
  - intros [] t ? [= <-]; done.
Qed.
End PlainJson.

(** ** Properties *)

(** C29. Saving is atomic.  Whatever the disk does, in every state of the file
    system during [save] the saved file is the old one or the complete new one,
    and no file but it and its temporary differs; [save] returns [true] only
    when the new file is in place and the temporary one gone, and after [false]
    the old file is still there. *)
Theorem save_is_atomic `{Json} (path : string) (j : json) (ev : disk_events) (fs : gmap string text) :
  let r := save_json path j ev fs in
  (∀ fs', fs' ∈ disk_history r →
     (fs' !! path = fs !! path ∨ (fs' !! path = dump j ∧ is_Some (dump j)))
     ∧ ∀ q, q ≠ path → q ≠ temp_path path → fs' !! q = fs !! q)
  ∧ (if saved r
     then final_files fs r !! path = dump j ∧ is_Some (dump j) ∧ final_files fs r !! temp_path path = None
     else final_files fs r !! path = fs !! path).
Proof.
  cbv zeta. pose proof (temp_path_ne path) as Hne.
  destruct (save_json_history path j ev fs) as [[-> Hh]|(-> & t & before & Ht & Heq & Hh)];
    rewrite Forall_forall in Hh; split.
  - intros fs' Hin. split; [left; by apply (Hh fs' Hin)|]. intros q _ Hq. by apply (Hh fs' Hin).
  - unfold final_files. destruct (last _) as [fs'|] eqn:E; simpl; [|done].
    apply Hh; [by apply last_Some_elem_of|done].
  - intros fs'. rewrite Heq. intros [Hin|Hin]%elem_of_app.
    + split; [left; by apply (Hh fs' Hin)|]. intros q _ Hq. by apply (Hh fs' Hin).
    + apply list_elem_of_singleton in Hin as ->. split.
      * right. rewrite lookup_insert_eq, Ht. by split; [|eexists].
      * intros q Hq Hqt. by rewrite lookup_insert_ne, lookup_delete_ne.
  - unfold final_files. rewrite Heq, last_snoc, Ht. simpl.
    rewrite lookup_insert_eq, lookup_insert_ne, lookup_delete_eq by done. split_and!; by eexists || done.
Qed.
