(* ===== verification/Entry.v ===== *)
(** * Entries of the boards: [src/data_structures/global_boards/entry.hpp]

    Entries, their orders and their JSON form.  The score type [T] of the
    templates is a class: its comparisons, and its conversions by
    [nlohmann::json]. *)
From S2P Require Import Prelude Json.

Class Score `{Json} := {
  score : Type;
  (** [a == b] and [a < b]. *)
  score_eqb : score → score → bool;
  score_ltb : score → score → bool;
  json_of_score : score → json;
  score_of_json : json → option score
}.

(** A totally ordered score type, such as [int] (a [double] that is NaN is
    outside it). *)
Class ScoreLaws `{Score} : Prop := {
  score_eqb_eq a b : score_eqb a b = true ↔ a = b;
  score_ltb_asym a b : score_ltb a b = true → score_ltb b a = false;
  score_ltb_trans a b c : score_ltb a b = true → score_ltb b c = true → score_ltb a c = true;
  score_ltb_total a b : a ≠ b → score_ltb a b = true ∨ score_ltb b a = true;
  score_json a : score_of_json (json_of_score a) = Some a;
  score_finite a : finite (json_of_score a)
}.

(** The constructor arguments of a board: the JSON file and the capacity, a
    [size_t]. *)
Record board_config := BoardConfig { file_path : string; max_size : Z }.

Record entry := Entry { name : string; timestamp : Z; id : Z }.

(** [entry_comparator] and [entry_ptr_comparator]. *)
Definition entry_less (a b : entry) : bool :=
  if negb (timestamp a =? timestamp b)%Z then (timestamp a <? timestamp b)%Z
  else (id a <? id b)%Z.

Section entries.
Context `{Score}.

Record leaderboard_entry := LeaderboardEntry { lb_entry : entry; lb_score : score }.

Record score_stream_entry := ScoreStreamEntry { ss_entry : entry; ss_score : score }.

(** [leaderboard_entry_comparator], whose pointer version reads the entries. *)
Definition leaderboard_entry_less (highest_first : bool) (a b : leaderboard_entry) : bool :=
  if negb (score_eqb (lb_score a) (lb_score b)) then
    if highest_first then score_ltb (lb_score b) (lb_score a) else score_ltb (lb_score a) (lb_score b)
  else entry_less (lb_entry a) (lb_entry b).

(** ** JSON conversions

    [from_json] assigns the members in order; the boolean is [false] when one of
    the calls throws, and then the members before it have been assigned. *)
Definition entry_to_json (e : entry) : json :=
  json_object [("name", json_string (name e)); ("timestamp", json_int (timestamp e));
    ("id", json_int (id e))].

Definition entry_from_json (j : json) (e : entry) : entry * bool :=
  match at_key "name" j ≫= get_string with
  | None => (e, false)
  | Some n =>
      match at_key "timestamp" j ≫= get_int64 with
      | None => (Entry n (timestamp e) (id e), false)
      | Some t =>
          match at_key "id" j ≫= get_uint64 with
          | None => (Entry n t (id e), false)
          | Some i => (Entry n t i, true)
          end
      end
  end.

Definition leaderboard_entry_to_json (e : leaderboard_entry) : json :=
  json_object [("name", json_string (name (lb_entry e)));
    ("timestamp", json_int (timestamp (lb_entry e))); ("score", json_of_score (lb_score e))].

Definition leaderboard_entry_from_json (j : json) (e : leaderboard_entry) : leaderboard_entry * bool :=
  let i := id (lb_entry e) in
  match at_key "name" j ≫= get_string with
  | None => (e, false)
  | Some n =>
      match at_key "timestamp" j ≫= get_int64 with
      | None => (LeaderboardEntry (Entry n (timestamp (lb_entry e)) i) (lb_score e), false)
      | Some t =>
          match at_key "score" j ≫= score_of_json with
          | None => (LeaderboardEntry (Entry n t i) (lb_score e), false)
          | Some s => (LeaderboardEntry (Entry n t i) s, true)
          end
      end
  end.

Definition score_stream_entry_to_json (e : score_stream_entry) : json :=
  json_object [("name", json_string (name (ss_entry e)));
    ("timestamp", json_int (timestamp (ss_entry e))); ("score", json_of_score (ss_score e))].

Definition score_stream_entry_from_json (j : json) (e : score_stream_entry) : score_stream_entry * bool :=
  let i := id (ss_entry e) in
  match at_key "name" j ≫= get_string with
  | None => (e, false)
  | Some n =>
      match at_key "timestamp" j ≫= get_int64 with
      | None => (ScoreStreamEntry (Entry n (timestamp (ss_entry e)) i) (ss_score e), false)
      | Some t =>
          match at_key "score" j ≫= score_of_json with
          | None => (ScoreStreamEntry (Entry n t i) (ss_score e), false)
          | Some s => (ScoreStreamEntry (Entry n t i) s, true)
          end
      end
  end.
End entries.

(** ** Orders *)
Lemma entry_less_asym a b : entry_less a b = true → entry_less b a = false.
Proof. unfold entry_less. zbool; simpl; intros; zbool; (done || lia). Qed.

Lemma entry_less_trans a b c : entry_less a b = true → entry_less b c = true → entry_less a c = true.
Proof. unfold entry_less. zbool; simpl; intros; zbool; simpl; (done || lia). Qed.

Section order.
Context `{ScoreLaws}.
Implicit Types (a b c : leaderboard_entry) (hf : bool).

(** The score part of the order: [a] has the better score. *)
Definition better (hf : bool) (x y : score) : bool :=
  if hf then score_ltb y x else score_ltb x y.

Lemma better_irrefl hf x : better hf x x = false.
Proof.
  unfold better. destruct (score_ltb x x) eqn:E; [|by destruct hf]. by rewrite (score_ltb_asym x x E) in E.
Qed.

Lemma better_asym hf x y : better hf x y = true → better hf y x = false.
Proof. unfold better. destruct hf; apply score_ltb_asym. Qed.

Lemma better_trans hf x y z : better hf x y = true → better hf y z = true → better hf x z = true.
Proof. unfold better. destruct hf; eauto using score_ltb_trans. Qed.

Lemma better_total hf x y : better hf x y = false → better hf y x = false → x = y.
Proof.
  unfold better. intros Hxy Hyx. destruct (score_eqb x y) eqn:E; [by apply score_eqb_eq|].
  assert (x ≠ y) as [?|?]%score_ltb_total; [|destruct hf; congruence..].
  intros Heq%score_eqb_eq. congruence.
Qed.

(** Not being worse is transitive. *)
Lemma not_better_trans hf x y z : better hf y x = false → better hf z y = false → better hf z x = false.
Proof.
  intros Hyx Hzy. destruct (better hf z x) eqn:E; [|done].
  destruct (better hf x y) eqn:Exy.
  - rewrite (better_trans hf z x y) in Hzy; done.
  - rewrite (better_total hf x y Exy Hyx) in E. congruence.
Qed.

Lemma leaderboard_entry_less_cases hf a b :
  leaderboard_entry_less hf a b = true ↔
  better hf (lb_score a) (lb_score b) = true
  ∨ (lb_score a = lb_score b ∧ entry_less (lb_entry a) (lb_entry b) = true).
Proof.
  unfold leaderboard_entry_less. destruct (score_eqb (lb_score a) (lb_score b)) eqn:E; simpl.
  - apply score_eqb_eq in E. rewrite E, better_irrefl. naive_solver.
  - assert (lb_score a ≠ lb_score b) by (intros Heq%score_eqb_eq; congruence).
    unfold better. destruct hf; naive_solver.
Qed.

Lemma leaderboard_entry_less_asym hf a b :
  leaderboard_entry_less hf a b = true → leaderboard_entry_less hf b a = false.
Proof.
  intros Hab. destruct (leaderboard_entry_less hf b a) eqn:Hba; [|done].
  apply leaderboard_entry_less_cases in Hab as [Hab|[Eab Hab]], Hba as [Hba|[Eba Hba]].
  - by rewrite (better_asym _ _ _ Hab) in Hba.
  - by rewrite Eba, better_irrefl in Hab.
  - by rewrite Eab, better_irrefl in Hba.
  - by rewrite (entry_less_asym _ _ Hab) in Hba.
Qed.

Lemma leaderboard_entry_less_trans hf a b c :
  leaderboard_entry_less hf a b = true → leaderboard_entry_less hf b c = true →
  leaderboard_entry_less hf a c = true.
Proof.
  rewrite !leaderboard_entry_less_cases. intros [Hab|[Eab Hab]] [Hbc|[Ebc Hbc]].
  - left. by eapply better_trans.
  - left. by rewrite <-Ebc.
  - left. by rewrite Eab.
  - right. split; [congruence|]. by eapply entry_less_trans.
Qed.

(** Not being ranked before means having no better score. *)
Lemma not_less_not_better hf a b :
  leaderboard_entry_less hf a b = false → better hf (lb_score a) (lb_score b) = false.
Proof.
  intros Hab. destruct (better hf _ _) eqn:E; [|done].
  assert (leaderboard_entry_less hf a b = true); [|congruence].
  apply leaderboard_entry_less_cases. by left.
Qed.

Lemma less_not_worse hf a b :
  leaderboard_entry_less hf a b = true → better hf (lb_score b) (lb_score a) = false.
Proof. intros Hab. by apply not_less_not_better, leaderboard_entry_less_asym. Qed.
End order.

#[export] Hint Resolve entry_less_asym entry_less_trans leaderboard_entry_less_asym
  leaderboard_entry_less_trans : ranking.

(** ** Integer scores: [leaderboard<int>] over the plain JSON values *)
Module IntScore.
Definition int_of_json (j : PlainJson.value) : option Z :=
  match j with PlainJson.VInt z => Some z | _ => None end.

#[export] Instance int_score : @Score PlainJson.plain_json :=
  @Build_Score PlainJson.plain_json Z Z.eqb Z.ltb PlainJson.VInt int_of_json.

Definition points (z : Z) : @score PlainJson.plain_json int_score := z.

#[export] Instance int_score_laws : @ScoreLaws PlainJson.plain_json int_score.
Proof. split; simpl; intros; try done; zbool; lia. Qed.
End IntScore.

(** ** Properties *)
Definition in_ranges (e : entry) : Prop := is_i64 (timestamp e) ∧ is_u64 (id e).

(** The JSON conversions of entries round trip: reading what was written
    gives the written entry, except that leaderboard and score stream entries
    keep the id they had, since theirs is not written. *)
Theorem entry_json_round_trip `{!Json} `{!JsonLaws} `{!Score} `{!ScoreLaws} (e e0 : entry)
    (l l0 : leaderboard_entry) (s s0 : score_stream_entry) :
  in_ranges e → in_ranges (lb_entry l) → in_ranges (ss_entry s) →
  entry_from_json (entry_to_json e) e0 = (e, true)
  ∧ leaderboard_entry_from_json (leaderboard_entry_to_json l) l0
    = (LeaderboardEntry (Entry (name (lb_entry l)) (timestamp (lb_entry l)) (id (lb_entry l0)))
         (lb_score l), true)
  ∧ score_stream_entry_from_json (score_stream_entry_to_json s) s0
    = (ScoreStreamEntry (Entry (name (ss_entry s)) (timestamp (ss_entry s)) (id (ss_entry s0)))
         (ss_score s), true).
Proof.
  intros [He Hi] [Hl _] [Hs _].
  unfold entry_from_json, entry_to_json, leaderboard_entry_from_json, leaderboard_entry_to_json,
    score_stream_entry_from_json, score_stream_entry_to_json.
  destruct (at_key_three "name" "timestamp" "id" (json_string (name e)) (json_int (timestamp e))
    (json_int (id e))) as (-> & -> & ->); [done..|].
  destruct (at_key_three "name" "timestamp" "score" (json_string (name (lb_entry l)))
    (json_int (timestamp (lb_entry l))) (json_of_score (lb_score l))) as (-> & -> & ->); [done..|].
  destruct (at_key_three "name" "timestamp" "score" (json_string (name (ss_entry s)))
    (json_int (timestamp (ss_entry s))) (json_of_score (ss_score s))) as (-> & -> & ->); [done..|].
  simpl. rewrite !get_string_string, !get_int64_int, get_uint64_int, !score_json by done.
  by destruct e.
Qed.

Section witnesses.
Import PlainJson IntScore.

Definition scored (i : Z) (sc : Z) : leaderboard_entry := LeaderboardEntry (Entry "alice" 1700000000 i) sc.

Definition stream_scored (i : Z) (sc : Z) : score_stream_entry := ScoreStreamEntry (Entry "alice" 1700000000 i) sc.

Lemma entry_json_round_trip_witness :
  entry_from_json (entry_to_json (Entry "alice" 1700000000 3)) (Entry "" 0 0)
    = (Entry "alice" 1700000000 3, true)
  ∧ (leaderboard_entry_from_json
       (leaderboard_entry_to_json (scored 3 (-5)))
       (scored 7 0)).1
    = scored 7 (-5).
Proof.
  destruct (entry_json_round_trip (Entry "alice" 1700000000 3) (Entry "" 0 0)
    (scored 3 (-5)) (scored 7 0)
    (stream_scored 3 (-5)) (stream_scored 7 0))
    as (He & Hl & _); [by split..|].
  split; [exact He|by rewrite Hl].
Defined.
End witnesses.
