(* ===== verification/Leaderboard.v ===== *)
(** * The leaderboard: [src/data_structures/global_boards/leaderboard.hpp]

    The entries live in memory and are owned by a map from player names; the
    ranking is a multiset of pointers to them.  [system_clock::now()] is the
    argument [now].  [submit_score] compares a local [candidate] of which only
    the score is initialised: what its other members happen to hold is the
    argument [junk].  An abstract leaderboard is the list of its entries in
    ranking order. *)
From S2P Require Import Prelude Ranking Json Entry.
From Stdlib Require Import Sorted.

Definition DEFAULT_MAX_LEADERBOARD_SIZE : Z := 300.

Section leaderboard.
Context `{Score}.

Record leaderboard := Leaderboard {
  memory : gmap pointer (cell leaderboard_entry);
  next_pointer : pointer;
  entries : gmap string pointer;
  ranking : multiset;
  (** The comparison object stored in [ranking]. *)
  highest_first : bool;
  next_id : Z
}.
Implicit Types (b : leaderboard) (cfg : board_config) (player : string) (now : Z).

(** [(entry ranking position, removed position)]. *)
Abbreviation placement := (option nat * option nat)%type (only parsing).

Definition entry_name (e : leaderboard_entry) : string := name (lb_entry e).

Definition key_comp b := leaderboard_entry_less (highest_first b).

Definition candidate (junk : entry) (sc : score) : leaderboard_entry :=
  LeaderboardEntry (Entry "" (timestamp junk) (id junk)) sc.

(** [remove_last]. *)
Definition remove_last b : outcome leaderboard :=
  match last (nodes (ranking b)) with
  | None => Returns b
  | Some (it, p) =>
      let! r := ms_erase it (ranking b) in
      let! e := deref (memory b) p in
      Returns (Leaderboard
        (match entries b !! entry_name e with Some q => delete q (memory b) | None => memory b end)
        (next_pointer b) (delete (entry_name e) (entries b)) r (highest_first b) (next_id b))
  end.

(** The branch of [submit_score] for a player who has an entry, at [p]. *)
Definition update_score (junk : entry) (sc : score) now p b : outcome ((option nat * option nat) * leaderboard) :=
  match memory b !! p with
  | None => Undefined
  | Some c =>
      let e := content c in
      if negb (key_comp b (candidate junk sc) e) then Returns ((None, None), b)
      else
        match position c with
        | None => Undefined
        | Some previous_position =>
            let! previous_index := distance_to previous_position (nodes (ranking b)) in
            let! r := ms_erase previous_position (ranking b) in
            let e' := LeaderboardEntry (Entry (entry_name e) now (next_id b)) sc in
            let m := <[p := Cell e' (position c)]> (memory b) in
            let! ' (it, r') := ms_insert (key_comp b) m p r in
            let! m' := set_position p it m in
            let! index := distance_to it (nodes r') in
            Returns ((Some index, Some previous_index),
              Leaderboard m' (next_pointer b) (entries b) r' (highest_first b) (u64 (next_id b + 1)))
        end
  end.

(** The guard of the other branch: the board is full and the entry at [p] is not
    better than the worst one. *)
Definition rejected cfg m p b : outcome bool :=
  if (max_size cfg <=? zlen (nodes (ranking b)))%Z then
    match last (nodes (ranking b)) with
    | None => Undefined
    | Some (_, worst) =>
        let! better := less (key_comp b) m p worst in
        Returns (negb better)
    end
  else Returns false.

(** The branch for a player who has no entry. *)
Definition add_score cfg player (sc : score) now b : outcome ((option nat * option nat) * leaderboard) :=
  let p := next_pointer b in
  let e := LeaderboardEntry (Entry player now (next_id b)) sc in
  let m := <[p := Cell e None]> (memory b) in
  let id' := u64 (next_id b + 1) in
  let! reject := rejected cfg m p b in
  if (reject : bool) then
    Returns ((None, None),
      Leaderboard (delete p m) (S p) (entries b) (ranking b) (highest_first b) id')
  else
    let! ' (it, r) := ms_insert (key_comp b) m p (ranking b) in
    let! m' := set_position p it m in
    let! index := distance_to it (nodes r) in
    let b' := Leaderboard m' (S p) (<[player := p]> (entries b)) r (highest_first b) id' in
    let! b'' := (if (max_size cfg <? zlen (nodes r))%Z then remove_last b' else Returns b') in
    Returns ((Some index, None), b'').

Definition submit_score cfg (junk : entry) player (sc : score) now b
    : outcome ((option nat * option nat) * leaderboard) :=
  match entries b !! player with
  | Some p => update_score junk sc now p b
  | None => add_score cfg player sc now b
  end.

(** ** Queries *)
Definition size b : Z := zlen (nodes (ranking b)).

Definition get_top_scores (count : Z) b : outcome (list leaderboard_entry) :=
  first_entries (memory b) (ranking b) (nodes (ranking b)) count.

(** From [rbegin()]. *)
Definition get_bottom_scores (count : Z) b : outcome (list leaderboard_entry) :=
  first_entries (memory b) (ranking b) (reverse (nodes (ranking b))) count.

Definition get_range_from_top (start stop : Z) b : outcome (list leaderboard_entry) :=
  range_of (memory b) (ranking b) (nodes (ranking b)) start stop.

Definition get_range_from_bottom (start stop : Z) b : outcome (list leaderboard_entry) :=
  range_of (memory b) (ranking b) (reverse (nodes (ranking b))) start stop.

(** ** Persistence *)
Definition saved_item (e : leaderboard_entry) : json :=
  json_object [("name", json_string (entry_name e)); ("score", json_of_score (lb_score e));
    ("timestamp", json_int (timestamp (lb_entry e)))].

Definition save cfg (ev : disk_events) (fs : gmap string text) b : outcome save_result :=
  let! es := collect (memory b) (length (nodes (ranking b))) (nodes (ranking b)) in
  Returns (save_json (file_path cfg) (push_all (saved_item <$> es) empty_array) ev fs).

(** The local variables of [load]: [new_entries], [new_ranking] (with a
    default-constructed comparison object), [new_next_id], which is an
    [int64_t], and the memory. *)
Record loading := Loading {
  ld_memory : gmap pointer (cell leaderboard_entry);
  ld_pointer : pointer;
  ld_entries : gmap string pointer;
  ld_ranking : multiset;
  ld_next_id : Z
}.

Definition item_entry (item : json) (i : Z) : outcome leaderboard_entry :=
  match at_key "name" item ≫= get_string with
  | None => Throws "name"
  | Some n =>
      match at_key "score" item ≫= score_of_json with
      | None => Throws "score"
      | Some s =>
          match at_key "timestamp" item ≫= get_int64 with
          | None => Throws "timestamp"
          | Some t => Returns (LeaderboardEntry (Entry n t i) s)
          end
      end
  end.

(** One turn of the loop; [None]: [return false]. *)
Definition load_item (item : json) (ld : loading) : outcome (option loading) :=
  if negb (is_object item) then Returns None
  else
    let! e := item_entry item (u64 (ld_next_id ld)) in
    if (ld_next_id ld =? 9223372036854775807)%Z then Undefined
    else
      let p := ld_pointer ld in
      let m := <[p := Cell e None]> (ld_memory ld) in
      let! ' (it, r) := ms_insert (leaderboard_entry_less true) m p (ld_ranking ld) in
      let! m' := set_position p it m in
      match ld_entries ld !! entry_name e with
      | Some _ => Returns None
      | None =>
          Returns (Some (Loading m' (S p) (<[entry_name e := p]> (ld_entries ld)) r (ld_next_id ld + 1)))
      end.

Fixpoint load_loop cfg (item_count : Z) (js : list json) (ld : loading) : outcome (option loading) :=
  match js with
  | [] => Returns (Some ld)
  | item :: js' =>
      let item_count' := (item_count + 1)%Z in
      if (max_size cfg <? item_count')%Z then Returns (Some ld)
      else
        let! r := load_item item ld in
        match r with
        | None => Returns None
        | Some ld' => load_loop cfg item_count' js' ld'
        end
  end.

(** The entries owned by the old map are destroyed when the new one is moved in. *)
Definition free_entries (owned : gmap string pointer) (m : gmap pointer (cell leaderboard_entry)) :=
  map_fold (λ _ p acc, delete p acc) m owned.

Definition load cfg (readable : bool) (fs : gmap string text) b : outcome (bool * leaderboard) :=
  match read_items (file_path cfg) readable fs with
  | None => Returns (false, b)
  | Some js =>
      match load_loop cfg 0 js (Loading (memory b) (next_pointer b) ∅ empty_multiset (next_id b)) with
      | Undefined => Undefined
      | Throws _ | Returns None => Returns (false, b)
      | Returns (Some ld) =>
          Returns (true, Leaderboard (free_entries (entries b) (ld_memory ld)) (ld_pointer ld)
            (ld_entries ld) (ld_ranking ld) true (u64 (ld_next_id ld)))
      end
  end.

(** The constructor. *)
Definition make_leaderboard cfg (hf : bool) (readable : bool) (fs : gmap string text) : outcome leaderboard :=
  let! ' (_, b) := load cfg readable fs (Leaderboard ∅ 0 ∅ empty_multiset hf 0) in
  Returns b.

(** ** The abstract leaderboard *)
Record ranked_list := RankedList { rows : list leaderboard_entry; fresh_id : Z }.

Definition spec_submit cfg (hf : bool) (junk : entry) player (sc : score) now (a : ranked_list)
    : (option nat * option nat) * ranked_list :=
  let lt := leaderboard_entry_less hf in
  let e' := LeaderboardEntry (Entry player now (fresh_id a)) sc in
  let id' := u64 (fresh_id a + 1) in
  match list_find (λ e, entry_name e = player) (rows a) with
  | Some (i, e) =>
      if lt (candidate junk sc) e then
        let l := delete i (rows a) in
        ((Some (upper_bound lt e' l), Some i), RankedList (insert_upper lt e' l) id')
      else ((None, None), a)
  | None =>
      if (max_size cfg <=? zlen (rows a))%Z
         && negb (from_option (lt e') false (last (rows a)))
      then ((None, None), RankedList (rows a) id')
      else ((Some (upper_bound lt e' (rows a)), None),
            RankedList (take (Z.to_nat (max_size cfg)) (insert_upper lt e' (rows a))) id')
  end.

(** ** The calls of a board *)
Inductive board_call :=
  | CallSubmit (junk : entry) (player : string) (sc : score) (now : Z)
  | CallTop (count : Z)
  | CallBottom (count : Z)
  | CallRangeTop (start stop : Z)
  | CallRangeBottom (start stop : Z)
  | CallSize.

Inductive board_result :=
  | Placed (r : option nat * option nat)
  | Entries (es : list leaderboard_entry)
  | Size (n : Z).

Definition board_step cfg (c : board_call) b : outcome (board_result * leaderboard) :=
  match c with
  | CallSubmit junk player sc now =>
      let! ' (r, b') := submit_score cfg junk player sc now b in Returns (Placed r, b')
  | CallTop n => let! es := get_top_scores n b in Returns (Entries es, b)
  | CallBottom n => let! es := get_bottom_scores n b in Returns (Entries es, b)
  | CallRangeTop i j => let! es := get_range_from_top i j b in Returns (Entries es, b)
  | CallRangeBottom i j => let! es := get_range_from_bottom i j b in Returns (Entries es, b)
  | CallSize => Returns (Size (size b), b)
  end.

Definition spec_step cfg (hf : bool) (c : board_call) (a : ranked_list) : board_result * ranked_list :=
  match c with
  | CallSubmit junk player sc now => let '(r, a') := spec_submit cfg hf junk player sc now a in (Placed r, a')
  | CallTop n => (Entries (take (Z.to_nat n) (rows a)), a)
  | CallBottom n => (Entries (take (Z.to_nat n) (reverse (rows a))), a)
  | CallRangeTop i j => (Entries (slice i j (rows a)), a)
  | CallRangeBottom i j => (Entries (slice i j (reverse (rows a))), a)
  | CallSize => (Size (zlen (rows a)), a)
  end.

Fixpoint board_steps cfg (cs : list board_call) b : outcome (list board_result * leaderboard) :=
  match cs with
  | [] => Returns ([], b)
  | c :: cs' =>
      let! ' (r, b1) := board_step cfg c b in
      let! ' (rs, b2) := board_steps cfg cs' b1 in
      Returns (r :: rs, b2)
  end.

Fixpoint spec_steps cfg (hf : bool) (cs : list board_call) (a : ranked_list) : list board_result * ranked_list :=
  match cs with
  | [] => ([], a)
  | c :: cs' =>
      let '(r, a1) := spec_step cfg hf c a in
      let '(rs, a2) := spec_steps cfg hf cs' a1 in
      (r :: rs, a2)
  end.

(** ** Representation *)

(** The board holds exactly the entries [l], in this order: the ranking is
    linked to them, the map finds each by its name, and nothing else is in
    memory. *)
Record represents b (l : list leaderboard_entry) : Prop := Represents {
  rep_linked : linked (memory b) (ranking b) l;
  rep_owned : ∀ nm p, entries b !! nm = Some p → ∃ c, memory b !! p = Some c ∧ entry_name (content c) = nm;
  rep_found : ∀ p c, memory b !! p = Some c → entries b !! entry_name (content c) = Some p;
  rep_ranked_memory : ∀ p c, memory b !! p = Some c → p ∈ (nodes (ranking b)).*2;
  rep_fresh : ∀ p c, memory b !! p = Some c → p < next_pointer b;
  rep_sorted : ranked (key_comp b) l
}.
End leaderboard.

Section refinement.
Context `{ScoreLaws}.
Implicit Types (b : leaderboard) (cfg : board_config) (player : string) (now : Z).
Implicit Types (l : list leaderboard_entry).

Lemma key_comp_asym b x y : key_comp b x y = true → key_comp b y x = false.
Proof. apply leaderboard_entry_less_asym. Qed.

Lemma key_comp_trans b x y z : key_comp b x y = true → key_comp b y z = true → key_comp b x z = true.
Proof. apply leaderboard_entry_less_trans. Qed.

Hint Resolve key_comp_asym key_comp_trans : ranking.

Lemma rep_size b l : represents b l → size b = zlen l.
Proof. intros Hr. unfold size, zlen. by rewrite (linked_length _ _ _ (rep_linked _ _ Hr)). Qed.

Lemma rep_unique b l i j e e' :
  represents b l → l !! i = Some e → l !! j = Some e' → entry_name e = entry_name e' → i = j.
Proof.
  intros Hr Hi Hj Hn. pose proof (rep_linked _ _ Hr) as Hl.
  destruct (linked_lookup_r _ _ _ _ _ Hl Hi) as (it & p & Hni & Hp).
  destruct (linked_lookup_r _ _ _ _ _ Hl Hj) as (it' & p' & Hnj & Hp').
  pose proof (rep_found _ _ Hr _ _ Hp) as Hf. pose proof (rep_found _ _ Hr _ _ Hp') as Hf'.
  simpl in *. rewrite Hn in Hf. assert (p = p') as <- by congruence.
  by eapply linked_pointer_index.
Qed.

(** A player in the map has the entry the abstract search finds. *)
Lemma rep_find b l player p :
  represents b l → entries b !! player = Some p →
  ∃ i e it, list_find (λ e, entry_name e = player) l = Some (i, e) ∧ l !! i = Some e
    ∧ nodes (ranking b) !! i = Some (it, p) ∧ memory b !! p = Some (Cell e (Some it))
    ∧ entry_name e = player.
Proof.
  intros Hr Hp. destruct (rep_owned _ _ Hr _ _ Hp) as (c & Hc & Hname).
  pose proof (rep_ranked_memory _ _ Hr _ _ Hc) as ([it q] & -> & Hin)%list_elem_of_fmap.
  apply list_elem_of_lookup in Hin as [i Hi].
  destruct (linked_lookup _ _ _ _ _ _ (rep_linked _ _ Hr) Hi) as (e & He & Hm).
  simpl in *. rewrite Hc in Hm. simplify_eq/=. exists i, e, it. split_and!; try done.
  apply list_find_Some. split_and!; try done. intros j e' Hj Hlt Heq.
  assert (j = i); [|lia]. by eapply rep_unique.
Qed.

Lemma rep_find_none b l player :
  represents b l → entries b !! player = None → list_find (λ e, entry_name e = player) l = None.
Proof.
  intros Hr Hp. apply list_find_None, Forall_forall. intros e [i Hi]%list_elem_of_lookup Hn.
  destruct (linked_lookup_r _ _ _ _ _ (rep_linked _ _ Hr) Hi) as (it & q & _ & Hq).
  pose proof (rep_found _ _ Hr _ _ Hq) as Hf. simpl in Hf. congruence.
Qed.

Lemma rep_last b l :
  represents b l →
  match last l, last (nodes (ranking b)) with
  | Some e, Some (it, p) =>
      memory b !! p = Some (Cell e (Some it)) ∧ nodes (ranking b) !! pred (length l) = Some (it, p)
  | None, None => l = []
  | _, _ => False
  end.
Proof.
  intros Hr. pose proof (rep_linked _ _ Hr) as Hl. pose proof (linked_length _ _ _ Hl) as Hlen.
  rewrite !last_lookup, Hlen.
  destruct (l !! pred (length l)) as [e|] eqn:E.
  - by destruct (linked_lookup_r _ _ _ _ _ Hl E) as (it & p & -> & Hp).
  - apply lookup_ge_None in E. destruct l as [|e0 l]; [|simpl in E; lia].
    apply nil_length_inv in Hlen. by rewrite Hlen.
Qed.

(** ** [submit_score] on a player who is on the board *)
Lemma update_score_spec cfg (junk : entry) player sc now p b l :
  represents b l → entries b !! player = Some p →
  let '(r, a) := spec_submit cfg (highest_first b) junk player sc now (RankedList l (next_id b)) in
  ∃ b', update_score junk sc now p b = Returns (r, b') ∧ represents b' (rows a)
    ∧ next_id b' = fresh_id a ∧ highest_first b' = highest_first b.
Proof.
  intros Hr Hp. destruct (rep_find b l player p Hr Hp) as (i & e & it & Hf & Hi & Hn & Hm & Hname).
  subst player. unfold spec_submit, update_score. simpl. rewrite Hf, Hm. simpl. unfold key_comp at 1.
  destruct (leaderboard_entry_less (highest_first b) (candidate junk sc) e) eqn:Ec; simpl; [|by exists b].
  destruct Hr as [Hl Ho Hfd Hrm Hfr Hs].
  rewrite (distance_linked _ _ _ _ _ _ Hl Hn). simpl.
  destruct (erase_linked _ _ _ _ _ _ Hl Hn) as (r1 & -> & Hr1 & Hl1). simpl.
  set (e' := LeaderboardEntry (Entry (entry_name e) now (next_id b)) sc).
  assert (p ∉ (nodes r1).*2) as Hp1.
  { rewrite Hr1, list_fmap_delete. pose proof (linked_pointers _ _ _ Hl) as Hnd.
    rewrite (delete_Permutation _ i p) in Hnd by (by rewrite list_lookup_fmap, Hn).
    by apply NoDup_cons in Hnd as [? _]. }
  assert (linked (<[p := Cell e' (Some it)]> (memory b)) r1 (delete i l)) as Hl1'.
  { eapply linked_other; [|done]. intros q Hq. rewrite lookup_insert_ne; [done|]. by intros ->. }
  destruct (insert_linked (key_comp b) _ r1 _ p e' (Some it) Hl1' ltac:(by rewrite lookup_insert_eq) Hp1)
    as (r2 & -> & Hr2 & Hd & Hl2). simpl.
  rewrite (set_position_returns p _ _ e' (Some it)) by (by rewrite lookup_insert_eq). simpl.
  rewrite Hd. simpl. eexists. split; [done|]. split; [|done].
  rewrite insert_insert_eq in *.
  split; simpl; [done|..].
  - intros nm q Hq. destruct (decide (p = q)) as [<-|Hne].
    + rewrite lookup_insert_eq. eexists. split; [done|]. simpl.
      destruct (Ho _ _ Hq) as (c & Hc & <-). rewrite Hm in Hc. by simplify_eq.
    + rewrite lookup_insert_ne by done. by apply Ho.
  - intros q c. destruct (decide (p = q)) as [<-|Hne].
    + rewrite lookup_insert_eq. by intros [= <-].
    + rewrite lookup_insert_ne by done. apply Hfd.
  - intros q c Hq. rewrite Hr2, fmap_insert_perm, Hr1, list_fmap_delete. simpl.
    rewrite <-(delete_Permutation _ i p) by (by rewrite list_lookup_fmap, Hn).
    destruct (decide (p = q)) as [<-|Hne]; [by eapply Hrm|].
    rewrite lookup_insert_ne in Hq by done. by eapply Hrm.
  - intros q c Hq. destruct (decide (p = q)) as [<-|Hne]; [by eapply Hfr|].
    rewrite lookup_insert_ne in Hq by done. by eapply Hfr.
  - apply insert_upper_ranked; eauto using ranked_delete with ranking.
Qed.

(** ** [submit_score] on a new player *)
Lemma rep_fresh_cell b l c :
  represents b l → memory b !! next_pointer b = Some c → False.
Proof. intros Hr Hc. pose proof (rep_fresh _ _ Hr _ _ Hc). lia. Qed.

Lemma rejected_spec cfg b l e :
  represents b l → (0 < max_size cfg)%Z →
  rejected cfg (<[next_pointer b := Cell e None]> (memory b)) (next_pointer b) b
    = Returns ((max_size cfg <=? zlen l)%Z && negb (from_option (key_comp b e) false (last l))).
Proof.
  intros Hr Hpos. unfold rejected. rewrite <-(rep_size b l Hr). fold (size b).
  destruct (Z.leb_spec (max_size cfg) (size b)) as [Hle|]; [|done]. simpl.
  pose proof (rep_last b l Hr) as Hlast. rewrite (rep_size b l Hr) in Hle.
  destruct (last l) as [w|] eqn:El, (last (nodes (ranking b))) as [[it q]|]; try done.
  - destruct Hlast as [Hq _]. unfold less, deref. rewrite lookup_insert_eq.
    rewrite lookup_insert_ne, Hq; [done|]. intros Heq. rewrite <-Heq in Hq. by eapply rep_fresh_cell.
  - subst l. unfold zlen in Hle. simpl in Hle. lia.
Qed.

(** Adding an entry under a fresh pointer. *)
Lemma represents_add b l player sc now :
  represents b l →
  let p := next_pointer b in
  let e := LeaderboardEntry (Entry player now (next_id b)) sc in
  ∃ r, ms_insert (key_comp b) (<[p := Cell e None]> (memory b)) p (ranking b)
         = Returns (next_node (ranking b), r)
    ∧ distance_to (next_node (ranking b)) (nodes r) = Returns (upper_bound (key_comp b) e l)
    ∧ (entries b !! player = None → represents
        (Leaderboard (<[p := Cell e (Some (next_node (ranking b)))]> (memory b)) (S p)
           (<[player := p]> (entries b)) r (highest_first b) (u64 (next_id b + 1)))
        (insert_upper (key_comp b) e l)).
Proof.
  intros Hr. pose proof (λ c, rep_fresh_cell b l c Hr) as Hfresh.
  destruct Hr as [Hl Ho Hfd Hrm Hfr Hs]. cbv zeta.
  set (p := next_pointer b) in *. set (e := LeaderboardEntry _ sc).
  assert (p ∉ (nodes (ranking b)).*2) as Hp.
  { intros ([it q] & Heq & [i Hi]%list_elem_of_lookup)%list_elem_of_fmap. simpl in Heq.
    destruct (linked_lookup _ _ _ _ _ _ Hl Hi) as (a & _ & Ha). subst q. by eapply Hfresh. }
  assert (linked (<[p := Cell e None]> (memory b)) (ranking b) l) as Hl'.
  { eapply linked_other; [|done]. intros q Hq. rewrite lookup_insert_ne; [done|]. by intros ->. }
  destruct (insert_linked (key_comp b) _ _ _ p e None Hl' ltac:(by rewrite lookup_insert_eq) Hp)
    as (r & -> & Hrn & Hd & Hlr).
  rewrite insert_insert_eq in Hlr. exists r. split_and!; [done|done|]. intros Hnone.
  split; simpl; [done|..].
  - intros nm q Hq. destruct (decide (nm = player)) as [->|Hne].
    + rewrite lookup_insert_eq in Hq. simplify_eq. rewrite lookup_insert_eq. eauto.
    + rewrite lookup_insert_ne in Hq by done. destruct (Ho _ _ Hq) as (c & Hc & Hn).
      rewrite lookup_insert_ne; [by eauto|]. intros <-. by eapply Hfresh.
  - intros q c Hq. destruct (decide (p = q)) as [<-|Hne].
    + rewrite lookup_insert_eq in Hq. simplify_eq/=. by rewrite lookup_insert_eq.
    + rewrite lookup_insert_ne in Hq by done. pose proof (Hfd _ _ Hq) as Hf.
      rewrite lookup_insert_ne; [done|]. intros ->. congruence.
  - intros q c Hq. rewrite Hrn, fmap_insert_perm. simpl.
    destruct (decide (p = q)) as [<-|Hne]; [by left|right].
    rewrite lookup_insert_ne in Hq by done. by eapply Hrm.
  - intros q c Hq. destruct (decide (p = q)) as [<-|Hne]; [lia|].
    rewrite lookup_insert_ne in Hq by done. specialize (Hfr _ _ Hq). lia.
  - apply insert_upper_ranked; eauto with ranking.
Qed.

(** [remove_last] drops the last entry. *)
Lemma remove_last_spec b l :
  represents b l →
  ∃ b', remove_last b = Returns b' ∧ represents b' (take (pred (length l)) l)
    ∧ next_id b' = next_id b ∧ highest_first b' = highest_first b.
Proof.
  intros Hr. pose proof (rep_last b l Hr) as Hlast. unfold remove_last.
  destruct (last l) as [w|] eqn:El, (last (nodes (ranking b))) as [[it p]|]; try done.
  2:{ exists b. subst l. by split_and!. }
  destruct Hlast as [Hp Hn]. pose proof (rep_unique b l) as Huniq.
  destruct Hr as [Hl Ho Hfd Hrm Hfr Hs].
  destruct (erase_linked _ _ _ _ _ _ Hl Hn) as (r & -> & Hrn & Hlr). simpl.
  unfold deref. rewrite Hp. simpl. pose proof (Hfd _ _ Hp) as Hfp. simpl in Hfp. rewrite Hfp.
  eexists. split; [done|]. split; [|done].
  assert (delete (pred (length l)) l = take (pred (length l)) l) as <-.
  { rewrite delete_take_drop, drop_ge, app_nil_r by lia. done. }
  assert (p ∉ (nodes r).*2) as Hpr.
  { rewrite Hrn, list_fmap_delete. pose proof (linked_pointers _ _ _ Hl) as Hnd.
    rewrite (delete_Permutation _ (pred (length l)) p) in Hnd by (by rewrite list_lookup_fmap, Hn).
    by apply NoDup_cons in Hnd as [? _]. }
  split; simpl.
  - eapply linked_other; [|done]. intros q Hq. rewrite lookup_delete_ne; [done|]. by intros ->.
  - intros nm q Hq. apply lookup_delete_Some in Hq as [Hne Hq].
    destruct (Ho _ _ Hq) as (c & Hc & <-). rewrite lookup_delete_ne; [by eauto|].
    intros <-. rewrite Hp in Hc. by simplify_eq.
  - intros q c [Hne Hq]%lookup_delete_Some. pose proof (Hfd _ _ Hq) as Hf.
    rewrite lookup_delete_ne; [done|]. intros Heq. rewrite Heq in Hfp. congruence.
  - intros q c [Hne Hq]%lookup_delete_Some. pose proof (Hrm _ _ Hq) as Hin.
    rewrite Hrn, list_fmap_delete.
    rewrite (delete_Permutation _ (pred (length l)) p) in Hin by (by rewrite list_lookup_fmap, Hn).
    apply elem_of_cons in Hin as [->|?]; done.
  - intros q c [_ Hq]%lookup_delete_Some. by eapply Hfr.
  - by apply ranked_delete.
Qed.

Lemma add_score_spec cfg (junk : entry) player sc now b l :
  represents b l → entries b !! player = None → (0 < max_size cfg)%Z → (zlen l ≤ max_size cfg)%Z →
  let '(r, a) := spec_submit cfg (highest_first b) junk player sc now (RankedList l (next_id b)) in
  ∃ b', add_score cfg player sc now b = Returns (r, b') ∧ represents b' (rows a)
    ∧ next_id b' = fresh_id a ∧ highest_first b' = highest_first b.
Proof.
  intros Hr Hnone Hpos Hcap. unfold spec_submit, add_score. simpl.
  rewrite (rep_find_none b l player Hr Hnone), (rejected_spec cfg b l _ Hr Hpos).
  fold (key_comp b). set (e := LeaderboardEntry _ sc).
  destruct (_ && _); simpl.
  { eexists. split; [done|]. split; [|done]. rewrite delete_insert_id.
    - destruct Hr; split; try done. simpl. intros p c Hp. apply Nat.lt_lt_succ_r. eauto.
    - destruct (memory b !! next_pointer b) eqn:E; [|done]. by destruct (rep_fresh_cell b l _ Hr E). }
  destruct (represents_add b l player sc now Hr) as (r & Hins & Hd & Hrep). specialize (Hrep Hnone).
  fold e in Hins, Hd, Hrep. rewrite Hins. simpl.
  rewrite (set_position_returns _ _ _ e None) by (by rewrite lookup_insert_eq). simpl.
  rewrite insert_insert_eq, Hd. simpl.
  pose proof (rep_size _ _ Hrep) as Hsize. unfold size in Hsize. simpl in Hsize. rewrite Hsize.
  unfold zlen in *. rewrite length_insert_upper in *.
  destruct (Z.ltb_spec (max_size cfg) (Z.of_nat (S (length l)))) as [Hov|Hfit].
  - destruct (remove_last_spec _ _ Hrep) as (b' & -> & Hrep' & Hid & Hhf). simpl.
    exists b'. split; [done|]. split; [|done]. rewrite length_insert_upper in Hrep'. simpl in Hrep'.
    by replace (Z.to_nat (max_size cfg)) with (length l) by lia.
  - eexists. split; [done|]. split; [|done].
    rewrite take_ge; [done|]. rewrite length_insert_upper. lia.
Qed.

Lemma submit_score_spec cfg (junk : entry) player sc now b l :
  represents b l → (0 < max_size cfg)%Z → (zlen l ≤ max_size cfg)%Z →
  let '(r, a) := spec_submit cfg (highest_first b) junk player sc now (RankedList l (next_id b)) in
  ∃ b', submit_score cfg junk player sc now b = Returns (r, b') ∧ represents b' (rows a)
    ∧ next_id b' = fresh_id a ∧ highest_first b' = highest_first b.
Proof.
  intros Hr Hpos Hcap. unfold submit_score. destruct (entries b !! player) as [p|] eqn:E.
  - by apply update_score_spec.
  - by apply add_score_spec.
Qed.

Lemma spec_submit_length cfg (hf : bool) (junk : entry) player sc now a :
  (zlen (rows a) ≤ max_size cfg)%Z →
  (zlen (rows (spec_submit cfg hf junk player sc now a).2) ≤ max_size cfg)%Z.
Proof.
  intros Hcap. unfold spec_submit, zlen in *.
  destruct (list_find _ _) as [[i e]|] eqn:E.
  - destruct (leaderboard_entry_less _ _ _); simpl; [|done].
    rewrite length_insert_upper. apply list_find_Some in E as (E & _ & _).
    rewrite length_delete by done. apply lookup_lt_Some in E. lia.
  - destruct (_ && _); simpl; [done|]. rewrite length_take. lia.
Qed.

(** ** Queries *)
Lemma board_step_spec cfg c b l :
  represents b l → (0 < max_size cfg)%Z → (zlen l ≤ max_size cfg)%Z →
  let '(r, a) := spec_step cfg (highest_first b) c (RankedList l (next_id b)) in
  ∃ b', board_step cfg c b = Returns (r, b') ∧ represents b' (rows a)
    ∧ next_id b' = fresh_id a ∧ highest_first b' = highest_first b ∧ (zlen (rows a) ≤ max_size cfg)%Z.
Proof.
  intros Hr Hpos Hcap. pose proof (linked_cells _ _ _ (rep_linked _ _ Hr)) as Hc.
  pose proof (Forall2_reverse _ _ _ Hc) as Hc'. pose proof (length_reverse l) as Hlr.
  pose proof (linked_length _ _ _ (rep_linked _ _ Hr)) as Hlen.
  destruct c as [junk player sc now|n|n|i j|i j|]; simpl.
  - pose proof (submit_score_spec cfg junk player sc now b l Hr Hpos Hcap) as Hsub.
    pose proof (spec_submit_length cfg (highest_first b) junk player sc now (RankedList l (next_id b)) Hcap).
    destruct (spec_submit _ _ _ _ _ _ _) as [r a]. destruct Hsub as (b' & -> & ? & ? & ?).
    simpl in *. eauto 10.
  - unfold get_top_scores. rewrite (first_entries_spec _ _ _ l) by done. simpl. eauto 10.
  - unfold get_bottom_scores. rewrite (first_entries_spec _ _ _ (reverse l)) by (done || congruence). simpl. eauto 10.
  - unfold get_range_from_top. rewrite (range_of_spec _ _ _ l) by done. simpl. eauto 10.
  - unfold get_range_from_bottom. rewrite (range_of_spec _ _ _ (reverse l)) by (done || congruence). simpl. eauto 10.
  - rewrite (rep_size b l) by done. eauto 10.
Qed.

Lemma board_steps_spec cfg cs b l :
  represents b l → (0 < max_size cfg)%Z → (zlen l ≤ max_size cfg)%Z →
  let '(rs, a) := spec_steps cfg (highest_first b) cs (RankedList l (next_id b)) in
  ∃ b', board_steps cfg cs b = Returns (rs, b') ∧ represents b' (rows a)
    ∧ next_id b' = fresh_id a ∧ highest_first b' = highest_first b ∧ (zlen (rows a) ≤ max_size cfg)%Z.
Proof.
  revert b l. induction cs as [|c cs IH]; intros b l Hr Hpos Hcap; simpl; [by eauto 10|].
  pose proof (board_step_spec cfg c b l Hr Hpos Hcap) as Hstep.
  destruct (spec_step _ _ _ _) as [r [l1 id1]]. destruct Hstep as (b1 & -> & Hr1 & Hid & Hhf & Hcap1).
  simpl in *. specialize (IH b1 l1 Hr1 Hpos Hcap1). rewrite Hid, Hhf in IH.
  destruct (spec_steps _ _ _ _) as [rs a]. destruct IH as (b' & -> & ? & ? & ? & ?). simpl. eauto 10.
Qed.

(** ** Loading *)
Definition board_of (ld : loading) : leaderboard :=
  Leaderboard (ld_memory ld) (ld_pointer ld) (ld_entries ld) (ld_ranking ld) true (u64 (ld_next_id ld)).

Lemma represents_empty_board (hf : bool) : represents (Leaderboard ∅ 0 ∅ empty_multiset hf 0) [].
Proof.
  split; simpl; try done; [|constructor]. split; simpl; constructor.
Qed.

Lemma load_item_spec ld l item e :
  represents (board_of ld) l → is_object item = true →
  item_entry item (u64 (ld_next_id ld)) = Returns e → (ld_next_id ld < 9223372036854775807)%Z →
  match ld_entries ld !! entry_name e with
  | Some _ => load_item item ld = Returns None
  | None => ∃ ld', load_item item ld = Returns (Some ld')
      ∧ represents (board_of ld') (insert_upper (leaderboard_entry_less true) e l)
      ∧ ld_next_id ld' = (ld_next_id ld + 1)%Z
      ∧ ld_entries ld' = <[entry_name e := ld_pointer ld]> (ld_entries ld)
  end.
Proof.
  intros Hr Hobj He Hid. unfold load_item. rewrite Hobj, He. simpl.
  destruct (Z.eqb_spec (ld_next_id ld) 9223372036854775807); [lia|].
  assert (∃ player now sc, e = LeaderboardEntry (Entry player now (next_id (board_of ld))) sc)
    as (player & now & sc & ->).
  { unfold item_entry in He. repeat case_match; try done. simplify_eq. eauto. }
  simpl. destruct (represents_add (board_of ld) l player sc now Hr) as (r & Hins & _ & Hrep).
  simpl in *. unfold key_comp in *. simpl in *. rewrite Hins. simpl.
  rewrite (set_position_returns _ _ _ (LeaderboardEntry (Entry player now (u64 (ld_next_id ld))) sc) None)
    by (by rewrite lookup_insert_eq).
  simpl. rewrite insert_insert_eq. unfold entry_name in *. simpl in *.
  destruct (ld_entries ld !! player) as [q|] eqn:E; [done|].
  eexists. split; [done|]. split; [|done]. simpl. specialize (Hrep eq_refl). by destruct Hrep.
Qed.

(** Loading any array: it stops with [false] or an exception, or it has a board
    within the capacity. *)
Lemma load_loop_safe cfg js count ld l :
  represents (board_of ld) l → (zlen l ≤ count)%Z → (count ≤ max_size cfg)%Z →
  (0 ≤ ld_next_id ld)%Z → (ld_next_id ld + zlen js < 9223372036854775808)%Z →
  match load_loop cfg count js ld with
  | Returns (Some ld') => ∃ l', represents (board_of ld') l' ∧ (zlen l' ≤ max_size cfg)%Z
  | Undefined => False
  | _ => True
  end.
Proof.
  revert count ld l. induction js as [|item js IH]; intros count ld l Hr Hl Hcap Hnn Hfit; simpl.
  { exists l. split; [done|lia]. }
  rewrite zlen_cons in Hfit. pose proof (zlen_nonneg js).
  destruct (Z.ltb_spec (max_size cfg) (count + 1)); [exists l; split; [done|lia]|].
  destruct (is_object item) eqn:Eo; [|by unfold load_item; rewrite Eo].
  destruct (item_entry item (u64 (ld_next_id ld))) as [e|w|] eqn:Ee.
  - pose proof (load_item_spec ld l item e Hr Eo Ee ltac:(lia)) as Hi.
    destruct (ld_entries ld !! entry_name e); [by rewrite Hi|].
    destruct Hi as (ld' & -> & Hr' & Hid & _). simpl. apply (IH _ _ _ Hr'); try lia.
    unfold zlen in *. rewrite length_insert_upper. lia.
  - unfold load_item. by rewrite Eo, Ee.
  - unfold item_entry in Ee. by repeat case_match.
Qed.

(** Loading distinct well-formed items one after the other. *)
Lemma load_loop_items cfg (es : list leaderboard_entry) (js : list json) count ld l :
  represents (board_of ld) l → (count + zlen js ≤ max_size cfg)%Z →
  (0 ≤ ld_next_id ld)%Z → (ld_next_id ld + zlen js < 9223372036854775808)%Z →
  Forall2 (λ e j, is_object j = true ∧ ∀ i, item_entry j i
     = Returns (LeaderboardEntry (Entry (entry_name e) (timestamp (lb_entry e)) i) (lb_score e))) es js →
  NoDup (entry_name <$> es) → (∀ e, e ∈ es → ld_entries ld !! entry_name e = None) →
  let renumbered := imap (λ k e, LeaderboardEntry
    (Entry (entry_name e) (timestamp (lb_entry e)) (ld_next_id ld + Z.of_nat k)) (lb_score e)) es in
  ∃ ld', load_loop cfg count js ld = Returns (Some ld')
    ∧ represents (board_of ld') (foldl (λ l e, insert_upper (leaderboard_entry_less true) e l) l renumbered)
    ∧ ld_next_id ld' = (ld_next_id ld + zlen js)%Z.
Proof.
  intros Hr Hcap Hnn Hfit Hes. revert count ld l Hr Hcap Hnn Hfit.
  induction Hes as [|e j es js [Ho He] Hes IH]; intros count ld l Hr Hcap Hnn Hfit Hnd Hnew; simpl.
  { exists ld. rewrite zlen_nil, Z.add_0_r. done. }
  rewrite zlen_cons in *. pose proof (zlen_nonneg js). apply NoDup_cons in Hnd as [Hne Hnd].
  destruct (Z.ltb_spec (max_size cfg) (count + 1)); [lia|].
  pose proof (load_item_spec ld l j _ Hr Ho (He _) ltac:(lia)) as Hi.
  unfold entry_name at 1 in Hi. simpl in Hi. rewrite (Hnew e) in Hi by (by left).
  destruct Hi as (ld' & -> & Hr' & Hid & Hent). simpl.
  destruct (IH (count + 1)%Z ld' _ Hr') as (ld2 & -> & Hr2 & Hid2); try lia; try done.
  { intros e2 Hin. rewrite Hent, lookup_insert_ne; [apply Hnew; by right|].
    unfold entry_name at 1. simpl. intros Heq. apply Hne. rewrite Heq. by apply list_elem_of_fmap_2. }
  exists ld2. split; [done|]. split; [|lia]. rewrite Hid in Hr2. rewrite Z.add_0_r.
  rewrite (u64_small (ld_next_id ld)) in Hr2 by (unfold is_u64, two64; lia).
  erewrite imap_ext; [exact Hr2|]. intros k x _. simpl. do 2 f_equal. lia.
Qed.
End refinement.

(** ** Properties *)

(** What [submit_score] returns is true of the boards before and after it:
    an accepted score is found at the returned position, the returned previous
    position is where the player was, and a rejected score leaves the rows. *)
Theorem submit_score_reports_positions `{!Json} `{!Score} `{!ScoreLaws} (cfg : board_config)
    (junk : entry) (player : string) (sc : score) (now : Z) (b : leaderboard) (l : list leaderboard_entry) :
  represents b l → (0 < max_size cfg)%Z → (zlen l ≤ max_size cfg)%Z →
  ∃ placed previous b' l', submit_score cfg junk player sc now b = Returns ((placed, previous), b')
    ∧ represents b' l'
    ∧ match placed with
      | Some i => l' !! i = Some (LeaderboardEntry (Entry player now (next_id b)) sc)
      | None => l' = l ∧ previous = None
      end
    ∧ match previous with
      | Some k => ∃ e, l !! k = Some e ∧ entry_name e = player
      | None => placed = None ∨ ∀ e, e ∈ l → entry_name e ≠ player
      end.
Proof.
  intros Hr Hpos Hfit. pose proof (submit_score_spec cfg junk player sc now b l Hr Hpos Hfit) as Hs.
  unfold spec_submit in Hs. simpl in Hs. destruct (list_find _ l) as [[i e]|] eqn:Ef.
  - apply list_find_Some in Ef as (Hi & Hn & _).
    destruct (leaderboard_entry_less _ _ e); destruct Hs as (b' & Hb' & Hr' & _); simpl in *;
      (eexists _, _, b', _; split; [exact Hb'|]; split; [exact Hr'|]; simpl); [|by eauto].
    split; [apply lookup_upper_bound|by eauto].
  - apply list_find_None in Ef. rewrite Forall_forall in Ef.
    destruct (_ && _) eqn:Ereject; destruct Hs as (b' & Hb' & Hr' & _); simpl in *;
      (eexists _, _, b', _; split; [exact Hb'|]; split; [exact Hr'|]; simpl); [by eauto|].
    split; [|by eauto].
    set (e' := LeaderboardEntry _ sc) in *. rewrite lookup_take_lt; [apply lookup_upper_bound|].
    pose proof (upper_bound_le (leaderboard_entry_less (highest_first b)) e' l) as Hle.
    apply andb_false_iff in Ereject as [Hspace%Z.leb_gt|Hbetter%negb_false_iff]; [unfold zlen in *; lia|].
    destruct (last l) as [w|] eqn:El; [|done]. apply last_split in El. rewrite El in Hle, Hfit |- *.
    unfold zlen in Hfit. rewrite length_app in Hfit. simpl in *.
    enough (upper_bound (leaderboard_entry_less (highest_first b)) e' (removelast l ++ [w]) ≤ length (removelast l))
      by lia.
    generalize (removelast l). intros k. induction k as [|c k IH]; simpl; [by rewrite Hbetter|].
    destruct (leaderboard_entry_less _ e' c); lia.
Qed.

(** Submitting a score equal to the player's own is decided by whatever the
    uninitialised timestamp of [candidate] holds: one value rejects it, another
    accepts it and moves the entry. *)
Theorem equal_score_outcome_is_indeterminate `{!Json} `{!Score} `{!ScoreLaws} (cfg : board_config)
    (b : leaderboard) (l : list leaderboard_entry) (e : leaderboard_entry) (now : Z) :
  represents b l → (0 < max_size cfg)%Z → (zlen l ≤ max_size cfg)%Z → e ∈ l →
  submit_score cfg (Entry "" (timestamp (lb_entry e) + 1) 0) (entry_name e) (lb_score e) now b
    = Returns ((None, None), b)
  ∧ ∃ i k b', submit_score cfg (Entry "" (timestamp (lb_entry e) - 1) 0) (entry_name e) (lb_score e) now b
      = Returns ((Some i, Some k), b').
Proof.
  intros Hr Hpos Hfit [i Hi]%list_elem_of_lookup.
  destruct (linked_lookup_r _ _ _ _ _ (rep_linked _ _ Hr) Hi) as (it & p & Hn & Hp).
  pose proof (rep_found _ _ Hr _ _ Hp) as Hentry. simpl in Hentry.
  assert (∀ d, leaderboard_entry_less (highest_first b)
    (candidate (Entry "" (timestamp (lb_entry e) + d) 0) (lb_score e)) e = true ↔ (d < 0)%Z ∨ (d = 0 ∧ 0 < id (lb_entry e))%Z)
    as Hless.
  { intros d. rewrite leaderboard_entry_less_cases. simpl. rewrite better_irrefl. unfold entry_less. simpl.
    destruct (Z.eqb_spec (timestamp (lb_entry e) + d) (timestamp (lb_entry e))); simpl;
      rewrite Z.ltb_lt; naive_solver lia. }
  split.
  - unfold submit_score, update_score. rewrite Hentry, Hp. simpl. unfold key_comp.
    destruct (leaderboard_entry_less _ _ e) eqn:E; [|done]. apply Hless in E. lia.
  - pose proof (submit_score_spec cfg (Entry "" (timestamp (lb_entry e) - 1) 0) (entry_name e) (lb_score e)
      now b l Hr Hpos Hfit) as Hs.
    destruct (rep_find b l _ p Hr Hentry) as (i' & e' & it' & Hf & Hi' & _ & Hp' & _).
    rewrite Hp in Hp'. simplify_eq. unfold spec_submit in Hs. simpl in Hs. rewrite Hf in Hs.
    assert (leaderboard_entry_less (highest_first b)
      (candidate (Entry "" (timestamp (lb_entry e') - 1) 0) (lb_score e')) e' = true) as Htrue
      by (apply (Hless (-1)%Z); lia).
    rewrite Htrue in Hs. destruct Hs as (b' & -> & _). eauto.
Qed.

(** A board of capacity 0 does not reject scores: every submission reads the
    last element of an empty ranking. *)
Theorem zero_capacity_submission_is_undefined `{!Json} `{!Score} (cfg : board_config) (hf readable : bool)
    (fs : gmap string text) (b : leaderboard) (junk : entry) (player : string) (sc : score) (now : Z) :
  max_size cfg = 0%Z → make_leaderboard cfg hf readable fs = Returns b →
  submit_score cfg junk player sc now b = Undefined.
Proof.
  intros Hmax. unfold make_leaderboard, load.
  assert (∀ js, load_loop cfg 0 js (Loading ∅ 0 ∅ empty_multiset 0) = Returns (Some (Loading ∅ 0 ∅ empty_multiset 0)))
    as Hload by (intros [|item js]; simpl; rewrite ?Hmax; done).
  destruct (read_items _ _ _) as [js|]; simpl; rewrite ?Hload; simpl; intros [= <-];
    unfold submit_score, add_score, rejected; simpl; by rewrite lookup_empty, Hmax.
Qed.

(** ** Witnesses

    A board of two [int] scores: "carol" displaces "alice", and "bob" improves. *)
Section witnesses.
Import PlainJson IntScore.

Definition two_places : board_config := BoardConfig "scores.json" 2.

Definition junk0 : entry := Entry "" 0 0.

Definition submissions : list board_call :=
  [CallSubmit junk0 "alice" (points 100) 1700000000; CallSubmit junk0 "bob" (points 200) 1700000001;
   CallTop 2; CallSubmit junk0 "carol" (points 150) 1700000002; CallSubmit junk0 "bob" (points 50) 1700000003;
   CallSubmit junk0 "bob" (points 300) 1700000004; CallRangeBottom 0 1].

Definition empty_board (hf : bool) : leaderboard := Leaderboard ∅ 0 ∅ empty_multiset hf 0.

Definition board_after (hf : bool) (cs : list board_call) : leaderboard :=
  match board_steps two_places cs (empty_board hf) with Returns (_, b) => b | _ => empty_board hf end.

Definition rows_after (hf : bool) (cs : list board_call) : list leaderboard_entry :=
  rows (spec_steps two_places hf cs (RankedList [] 0)).2.

Definition names_and_scores (es : list leaderboard_entry) : list (string * Z) :=
  (λ e, (entry_name e, lb_score e)) <$> es.

Lemma board_after_represents hf cs : represents (board_after hf cs) (rows_after hf cs).
Proof.
  pose proof (board_steps_spec two_places cs (empty_board hf) [] (represents_empty_board hf) ltac:(done)
    ltac:(vm_compute; discriminate)) as Hs.
  unfold board_after, rows_after. simpl in Hs. destruct (spec_steps _ _ _ _) as [rs a].
  by destruct Hs as (b' & -> & Hr & _).
Qed.

Lemma board_steps_after hf cs :
  board_steps two_places cs (empty_board hf)
    = Returns ((spec_steps two_places hf cs (RankedList [] 0)).1, board_after hf cs).
Proof.
  pose proof (board_steps_spec two_places cs (empty_board hf) [] (represents_empty_board hf) ltac:(done)
    ltac:(vm_compute; discriminate)) as Hs.
  unfold board_after. simpl in Hs. destruct (spec_steps _ _ _ _) as [rs a].
  by destruct Hs as (b' & -> & _).
Qed.

Lemma submit_score_reports_positions_witness :
  ∃ placed previous b' l',
    submit_score two_places junk0 "carol" (points 350) 1700000009 (board_after true submissions)
      = Returns ((placed, previous), b')
    ∧ represents b' l'
    ∧ match placed with
      | Some i => l' !! i = Some (LeaderboardEntry
          (Entry "carol" 1700000009 (next_id (board_after true submissions))) (points 350))
      | None => l' = rows_after true submissions ∧ previous = None
      end
    ∧ match previous with
      | Some k => ∃ e, rows_after true submissions !! k = Some e ∧ entry_name e = "carol"
      | None => placed = None ∨ ∀ e, e ∈ rows_after true submissions → entry_name e ≠ "carol"
      end.
Proof.
  apply (submit_score_reports_positions two_places junk0 "carol" (points 350) 1700000009
    (board_after true submissions) (rows_after true submissions)).
  - apply board_after_represents.
  - done.
  - vm_compute. discriminate.
Defined.

Lemma equal_score_outcome_is_indeterminate_witness :
  let e := LeaderboardEntry (Entry "bob" 1700000004 3) (points 300) in
  submit_score two_places (Entry "" 1700000005 0) "bob" (points 300) 1700000009 (board_after true submissions)
    = Returns ((None, None), board_after true submissions)
  ∧ ∃ i k b', submit_score two_places (Entry "" 1700000003 0) "bob" (points 300) 1700000009
                (board_after true submissions) = Returns ((Some i, Some k), b').
Proof.
  intros e.
  apply (equal_score_outcome_is_indeterminate two_places (board_after true submissions)
    (rows_after true submissions) e 1700000009).
  - apply board_after_represents.
  - done.
  - vm_compute. discriminate.
  - apply list_elem_of_lookup. exists 0. vm_compute. reflexivity.
Defined.
Lemma zero_capacity_submission_is_undefined_witness :
  submit_score (BoardConfig "scores.json" 0) junk0 "alice" (points 100) 1700000000 (empty_board true) = Undefined.
Proof.
  apply (zero_capacity_submission_is_undefined (BoardConfig "scores.json" 0) true true ∅ (empty_board true)).
  - done.
  - vm_compute. reflexivity.
Defined.

Example carol_overtakes_bob :
  match submit_score two_places junk0 "carol" (points 350) 1700000009 (board_after true submissions) with
  | Returns (r, _) => r = (Some 0, Some 1)
  | _ => False
  end.
Proof. vm_compute. reflexivity. Qed.

End witnesses.
