(* ===== verification/BestScores.v ===== *)
(** * What the leaderboard promises

    The abstract leaderboard keeps the best scores ever submitted; the concrete
    one implements it from whatever file it was loaded, and comes back from its
    own file in the same order.  The three places where the code does not keep
    its promise are stated at the end. *)
From S2P Require Import Prelude Ranking Json Entry Leaderboard.
From Stdlib Require Import Sorted.

Section best_scores.
Context `{ScoreLaws}.
Implicit Types (l : list leaderboard_entry) (hist : list (string * score)) (hf : bool) (player : string).

(** The best score submitted for a player, in a history with the newest first. *)
Fixpoint best_score hf player hist : option score :=
  match hist with
  | [] => None
  | (p, s) :: hist' =>
      if String.eqb p player then
        match best_score hf player hist' with
        | None => Some s
        | Some s' => Some (if better hf s s' then s else s')
        end
      else best_score hf player hist'
  end.

(** The submissions among the calls, added to the history. *)
Fixpoint history_of (cs : list board_call) hist : list (string * score) :=
  match cs with
  | [] => hist
  | CallSubmit _ player sc _ :: cs' => history_of cs' ((player, sc) :: hist)
  | _ :: cs' => history_of cs' hist
  end.

(** Every row holds its player's best score, and a player who is not listed has
    submitted nothing better than any row of a full board. *)
Record holds_best_scores (cfg : board_config) hf hist l : Prop := HoldsBestScores {
  listed_best : ∀ e, e ∈ l → best_score hf (entry_name e) hist = Some (lb_score e);
  unlisted_worse : ∀ player s, best_score hf player hist = Some s →
    (∃ e, e ∈ l ∧ entry_name e = player)
    ∨ (zlen l = max_size cfg ∧ ∀ e, e ∈ l → better hf s (lb_score e) = false)
}.

Lemma best_score_other hf p s player hist :
  p ≠ player → best_score hf player ((p, s) :: hist) = best_score hf player hist.
Proof. intros Hne. simpl. by destruct (String.eqb_spec p player). Qed.

Lemma best_score_same hf p s hist :
  best_score hf p ((p, s) :: hist)
    = Some (match best_score hf p hist with
            | None => s | Some s' => if better hf s s' then s else s' end).
Proof. simpl. rewrite String.eqb_refl. by destruct (best_score hf p hist). Qed.

(** A score that is not worse than the best one is the new best one. *)
Lemma best_score_improved hf s s' :
  better hf s' s = false → (if better hf s s' then s else s') = s.
Proof. intros Hn. destruct (better hf s s') eqn:E; [done|]. by apply (better_total hf). Qed.

Lemma listed_update cfg hf hist l i e e' :
  holds_best_scores cfg hf hist l → l !! i = Some e → entry_name e' = entry_name e →
  (∀ j e2, l !! j = Some e2 → entry_name e2 = entry_name e → j = i) →
  better hf (lb_score e) (lb_score e') = false →
  holds_best_scores cfg hf ((entry_name e, lb_score e') :: hist)
    (insert_upper (leaderboard_entry_less hf) e' (delete i l)).
Proof.
  intros [Hl Hu] Hi Hname Huniq Hbetter. pose proof (list_elem_of_lookup_2 _ _ _ Hi) as Hin.
  assert (∀ e2, e2 ∈ delete i l → e2 ∈ l ∧ entry_name e2 ≠ entry_name e) as Hother.
  { intros e2 [j Hj]%list_elem_of_lookup. rewrite list_lookup_delete in Hj.
    case_decide; (split; [by eapply list_elem_of_lookup_2|]); intros Heq;
      apply Huniq in Hj; (done || lia). }
  split.
  - intros e2. rewrite insert_upper_perm. intros [->|Hin2]%elem_of_cons.
    + rewrite Hname, best_score_same, (Hl e Hin). f_equal. by apply best_score_improved.
    + destruct (Hother _ Hin2) as [Hin2' Hne]. rewrite best_score_other by done. by apply Hl.
  - intros player s Hs. destruct (decide (player = entry_name e)) as [->|Hne].
    { left. exists e'. split; [|done]. rewrite insert_upper_perm. by left. }
    rewrite best_score_other in Hs by done. destruct (Hu _ _ Hs) as [(e2 & Hin2 & Hn2)|[Hfull Hworse]].
    + left. exists e2. split; [|done]. rewrite insert_upper_perm. right.
      rewrite (delete_Permutation _ _ _ Hi) in Hin2. apply elem_of_cons in Hin2 as [->|?]; done.
    + right. split.
      * unfold zlen in *. rewrite length_insert_upper, length_delete by done.
        apply lookup_lt_Some in Hi. lia.
      * intros e2. rewrite insert_upper_perm. intros [->|Hin2]%elem_of_cons.
        -- eapply not_better_trans; [exact Hbetter|]. by apply Hworse.
        -- apply Hworse. by apply Hother.
Qed.

Lemma unlisted_not_better cfg hf hist l player sc :
  holds_best_scores cfg hf hist l → (∀ e, e ∈ l → entry_name e ≠ player) →
  zlen l = max_size cfg → (∀ e, e ∈ l → better hf sc (lb_score e) = false) →
  holds_best_scores cfg hf ((player, sc) :: hist) l.
Proof.
  intros [Hl Hu] Hnew Hfull Hworse. split.
  - intros e Hin. rewrite best_score_other by (intros ->; by apply (Hnew e)). by apply Hl.
  - intros p s Hs. destruct (decide (p = player)) as [->|Hne].
    + right. split; [done|]. rewrite best_score_same in Hs. injection Hs as <-.
      destruct (best_score hf player hist) as [s'|] eqn:E; [|done].
      destruct (Hu _ _ E) as [(e & Hin & Hn)|[_ Hs']]; [by destruct (Hnew e)|].
      destruct (better hf sc s'); done.
    + rewrite best_score_other in Hs by done. by apply Hu.
Qed.

(** A new player is listed on a board that is not full. *)
Lemma listed_new cfg hf hist l e' :
  holds_best_scores cfg hf hist l → (∀ e, e ∈ l → entry_name e ≠ entry_name e') →
  zlen l ≠ max_size cfg →
  holds_best_scores cfg hf ((entry_name e', lb_score e') :: hist)
    (insert_upper (leaderboard_entry_less hf) e' l).
Proof.
  intros [Hl Hu] Hnew Hspace.
  assert (∀ p s, best_score hf p hist = Some s → ∃ e, e ∈ l ∧ entry_name e = p) as Hall.
  { intros p s Hs. destruct (Hu _ _ Hs) as [?|[? _]]; done. }
  split.
  - intros e. rewrite insert_upper_perm. intros [->|Hin]%elem_of_cons.
    + rewrite best_score_same. destruct (best_score hf (entry_name e') hist) as [s'|] eqn:E; [|done].
      destruct (Hall _ _ E) as (e & Hin & Hn). by destruct (Hnew e).
    + rewrite best_score_other by (intros Heq; by apply (Hnew e)). by apply Hl.
  - intros p s Hs. left. destruct (decide (p = entry_name e')) as [->|Hne].
    + exists e'. rewrite insert_upper_perm. split; [by left|done].
    + rewrite best_score_other in Hs by done. destruct (Hall _ _ Hs) as (e & Hin & Hn).
      exists e. rewrite insert_upper_perm. split; [by right|done].
Qed.

(** A new player displaces the last row [w] of a full board. *)
Lemma listed_displacing cfg hf hist l w e' :
  holds_best_scores cfg hf hist (l ++ [w]) → ranked (leaderboard_entry_less hf) (l ++ [w]) →
  (∀ e, e ∈ l ++ [w] → entry_name e ≠ entry_name e') → (∀ e, e ∈ l → entry_name e ≠ entry_name w) →
  zlen (l ++ [w]) = max_size cfg → leaderboard_entry_less hf e' w = true →
  holds_best_scores cfg hf ((entry_name e', lb_score e') :: hist)
    (insert_upper (leaderboard_entry_less hf) e' l).
Proof.
  intros [Hl Hu] Hsorted Hnew Hw Hfull Hless. pose proof (less_not_worse _ _ _ Hless) as Hbw.
  assert (∀ e, e ∈ insert_upper (leaderboard_entry_less hf) e' l →
    ∀ s, better hf s (lb_score w) = false → better hf s (lb_score e) = false) as Hbelow.
  { intros e He s Hs. eapply not_better_trans; [|exact Hs]. rewrite insert_upper_perm in He.
    apply elem_of_cons in He as [->|He]; [done|].
    apply not_less_not_better. by apply (ranked_snoc _ l w Hsorted). }
  assert (zlen (insert_upper (leaderboard_entry_less hf) e' l) = max_size cfg) as Hlen.
  { unfold zlen in *. rewrite length_app in Hfull. rewrite length_insert_upper. simpl in *. lia. }
  split.
  - intros e. rewrite insert_upper_perm. intros [->|Hin]%elem_of_cons.
    + rewrite best_score_same. f_equal.
      destruct (best_score hf (entry_name e') hist) as [s'|] eqn:E; [|done].
      apply best_score_improved. destruct (Hu _ _ E) as [(e & Hin & Hn)|[_ Hs']]; [by destruct (Hnew e)|].
      eapply not_better_trans; [exact Hbw|]. apply Hs'. set_solver.
    + rewrite best_score_other by (intros Heq; apply (Hnew e); set_solver). apply Hl. set_solver.
  - intros p s Hs. destruct (decide (p = entry_name e')) as [->|Hne].
    { left. exists e'. rewrite insert_upper_perm. split; [by left|done]. }
    rewrite best_score_other in Hs by done. destruct (Hu _ _ Hs) as [(e & Hin & Hn)|[_ Hworse]].
    + apply elem_of_app in Hin as [Hin|Hin].
      * left. exists e. rewrite insert_upper_perm. split; [by right|done].
      * apply list_elem_of_singleton in Hin as ->. subst p.
        rewrite (Hl w) in Hs by set_solver. injection Hs as <-. right. split; [done|].
        intros e He. apply (Hbelow e He). apply better_irrefl.
    + right. split; [done|]. intros e He. apply (Hbelow e He). apply Hworse. set_solver.
Qed.

(** The rows of a board: ranked, within the capacity, one per player. *)
Record rows_ok (cfg : board_config) hf l : Prop := RowsOk {
  rows_ranked : ranked (leaderboard_entry_less hf) l;
  rows_fit : (zlen l ≤ max_size cfg)%Z;
  rows_unique : ∀ i j e e', l !! i = Some e → l !! j = Some e' → entry_name e = entry_name e' → i = j
}.

Lemma represents_rows_ok cfg b l :
  represents b l → (zlen l ≤ max_size cfg)%Z → rows_ok cfg (highest_first b) l.
Proof.
  intros Hr Hfit. split; [apply (rep_sorted _ _ Hr)|done|]. intros i j e e'. by apply rep_unique with b.
Qed.

Lemma submit_listed_best cfg hf (junk : entry) sc now hist l id i e :
  rows_ok cfg hf l → holds_best_scores cfg hf hist l → l !! i = Some e →
  holds_best_scores cfg hf ((entry_name e, sc) :: hist)
    (if leaderboard_entry_less hf (candidate junk sc) e
     then insert_upper (leaderboard_entry_less hf)
            (LeaderboardEntry (Entry (entry_name e) now id) sc) (delete i l)
     else l).
Proof.
  intros Hok Hbest Hi. pose proof (list_elem_of_lookup_2 _ _ _ Hi) as Hin.
  destruct (leaderboard_entry_less hf (candidate junk sc) e) eqn:E.
  - apply (listed_update cfg hf hist l i e (LeaderboardEntry (Entry (entry_name e) now id) sc)); try done.
    + intros j e2 Hj Hn. by eapply (rows_unique _ _ _ Hok).
    + exact (less_not_worse _ _ _ E).
  - apply not_less_not_better in E. simpl in E. destruct Hbest as [Hl Hu]. split.
    + intros e2 Hin2. destruct (decide (entry_name e2 = entry_name e)) as [Hn|Hn].
      * apply list_elem_of_lookup in Hin2 as [j Hj].
        assert (i = j) as <- by (by eapply (rows_unique _ _ _ Hok)). simplify_eq.
        by rewrite best_score_same, (Hl e Hin), E.
      * rewrite best_score_other by congruence. by apply Hl.
    + intros player s Hs. destruct (decide (player = entry_name e)) as [->|Hne].
      * left. eauto.
      * rewrite best_score_other in Hs by done. by apply Hu.
Qed.

Lemma submit_new_best cfg hf player sc now hist l id :
  rows_ok cfg hf l → holds_best_scores cfg hf hist l → (0 < max_size cfg)%Z →
  (∀ e, e ∈ l → entry_name e ≠ player) →
  let e' := LeaderboardEntry (Entry player now id) sc in
  holds_best_scores cfg hf ((player, sc) :: hist)
    (if (max_size cfg <=? zlen l)%Z && negb (from_option (leaderboard_entry_less hf e') false (last l))
     then l
     else take (Z.to_nat (max_size cfg)) (insert_upper (leaderboard_entry_less hf) e' l)).
Proof.
  intros Hok Hbest Hpos Hnew e'. pose proof (rows_fit _ _ _ Hok) as Hfit.
  destruct (Z.leb_spec (max_size cfg) (zlen l)) as [Hfull|Hspace]; simpl.
  2:{ rewrite take_ge by (rewrite length_insert_upper; unfold zlen in *; lia).
      apply (listed_new cfg hf hist l e'); [done|done|lia]. }
  destruct (last l) as [w|] eqn:El.
  2:{ apply last_None in El as ->. unfold zlen in *. simpl in *. lia. }
  apply last_split in El. set (l0 := removelast l) in *. clearbody l0. subst l.
  pose proof (rows_ranked _ _ _ Hok) as Hr. pose proof (rows_unique _ _ _ Hok) as Hu. simpl.
  assert (zlen (l0 ++ [w]) = max_size cfg) as Hlen by lia.
  destruct (leaderboard_entry_less hf e' w) eqn:E; simpl.
  - rewrite insert_upper_snoc, take_app_le, take_ge by
      (try done; rewrite length_insert_upper; unfold zlen in Hlen; rewrite length_app in Hlen; simpl in Hlen; lia).
    apply (listed_displacing cfg hf hist l0 w e'); try done.
    intros e [i Hi]%list_elem_of_lookup Hn. assert (i = length l0) as ->.
    { eapply (Hu i (length l0) e w); [by apply lookup_app_l_Some| |done].
      rewrite lookup_app_r, Nat.sub_diag by lia. done. }
    apply lookup_lt_Some in Hi. lia.
  - apply unlisted_not_better; [done|done|lia|]. intros e He.
    apply not_less_not_better in E. simpl in E. eapply not_better_trans; [|exact E].
    apply elem_of_app in He as [He|He%list_elem_of_singleton]; [|subst e; apply better_irrefl].
    apply not_less_not_better. by apply (ranked_snoc _ l0 w Hr).
Qed.

Lemma spec_submit_best cfg hf (junk : entry) player sc now hist a :
  rows_ok cfg hf (rows a) → holds_best_scores cfg hf hist (rows a) → (0 < max_size cfg)%Z →
  holds_best_scores cfg hf ((player, sc) :: hist) (rows (spec_submit cfg hf junk player sc now a).2).
Proof.
  intros Hok Hbest Hpos. unfold spec_submit. destruct (list_find _ _) as [[i e]|] eqn:Ef.
  - apply list_find_Some in Ef as (Hi & <- & _).
    pose proof (submit_listed_best cfg hf junk sc now hist _ (fresh_id a) i e Hok Hbest Hi) as Hs.
    by destruct (leaderboard_entry_less hf (candidate junk sc) e).
  - apply list_find_None in Ef. rewrite Forall_forall in Ef.
    pose proof (submit_new_best cfg hf player sc now hist _ (fresh_id a) Hok Hbest Hpos Ef) as Hs.
    simpl in Hs. by destruct (_ && _).
Qed.

Lemma spec_steps_best cfg cs rs a' b l hist :
  represents b l → (0 < max_size cfg)%Z → (zlen l ≤ max_size cfg)%Z →
  holds_best_scores cfg (highest_first b) hist l →
  spec_steps cfg (highest_first b) cs (RankedList l (next_id b)) = (rs, a') →
  holds_best_scores cfg (highest_first b) (history_of cs hist) (rows a').
Proof.
  revert rs a' b l hist. induction cs as [|c cs IH]; intros rs a' b l hist Hr Hpos Hcap Hbest Hrun;
    simpl in Hrun; [by simplify_eq|].
  pose proof (board_step_spec cfg c b l Hr Hpos Hcap) as Hstep.
  destruct (spec_step _ _ c _) as [r [l1 id1]] eqn:Es.
  destruct Hstep as (b1 & _ & Hr1 & Hid & Hhf & Hcap1). simpl in *. subst id1.
  destruct (spec_steps _ _ cs _) as [rs' a1] eqn:Erun. simplify_eq. rewrite <-Hhf in *.
  assert (holds_best_scores cfg (highest_first b1)
    (match c with CallSubmit _ player sc _ => (player, sc) :: hist | _ => hist end) l1) as Hbest1.
  { destruct c; simpl in Es; try (by simplify_eq).
    destruct (spec_submit _ _ _ _ _ _ _) as [r0 a0] eqn:Esub. injection Es as <- Ha.
    pose proof (spec_submit_best cfg (highest_first b1) junk player sc now hist (RankedList l (next_id b)))
      as Hs. rewrite Esub in Hs. simpl in Hs. rewrite Ha in Hs. simpl in Hs. apply Hs; try done.
    rewrite Hhf. by apply represents_rows_ok. }
  pose proof (IH rs' a' b1 l1 _ Hr1 Hpos Hcap1 Hbest1 Erun) as Hfinal. by destruct c.
Qed.

Lemma no_best_scores cfg hf : holds_best_scores cfg hf [] [].
Proof. split; [|done]. intros e He. by apply elem_of_nil in He. Qed.

Lemma make_leaderboard_no_file cfg hf (readable : bool) (fs : gmap string text) :
  fs !! file_path cfg = None →
  make_leaderboard cfg hf readable fs = Returns (Leaderboard ∅ 0 ∅ empty_multiset hf 0).
Proof. intros Hn. unfold make_leaderboard, load, read_items. by rewrite Hn. Qed.

(** The constructor on any file. *)
Lemma make_leaderboard_safe cfg hf (readable : bool) (fs : gmap string text) :
  (0 ≤ max_size cfg)%Z →
  (∀ js, read_items (file_path cfg) readable fs = Some js → zlen js < 9223372036854775808)%Z →
  ∃ b l, make_leaderboard cfg hf readable fs = Returns b ∧ represents b l ∧ (zlen l ≤ max_size cfg)%Z.
Proof.
  intros Hpos Hfew. unfold make_leaderboard, load.
  assert (represents (Leaderboard ∅ 0 ∅ empty_multiset hf 0) []) as Hnew by apply represents_empty_board.
  destruct (read_items _ _ _) as [js|]; simpl; [|by eauto].
  pose proof (load_loop_safe cfg js 0 (Loading ∅ 0 ∅ empty_multiset 0) [] (represents_empty_board true)
    ltac:(done) Hpos ltac:(done) (Hfew js eq_refl)) as Hload.
  destruct (load_loop _ _ _ _) as [[ld|]|w|]; simpl; try done; eauto.
  destruct Hload as (l & Hr & Hl). exists (Leaderboard (free_entries ∅ (ld_memory ld)) (ld_pointer ld)
    (ld_entries ld) (ld_ranking ld) true (u64 (ld_next_id ld))), l.
  split; [done|]. split; [|done]. by destruct Hr.
Qed.
End best_scores.

(** ** Saving and loading *)
Section restart.
Context `{!Json} `{!JsonLaws} `{!Score} `{!ScoreLaws}.
Implicit Types (l : list leaderboard_entry) (b : leaderboard) (cfg : board_config).

(** The same rows with the ids that loading gives them. *)
Definition renumbered l : list leaderboard_entry :=
  imap (λ k e, LeaderboardEntry (Entry (entry_name e) (timestamp (lb_entry e)) (Z.of_nat k)) (lb_score e)) l.

Lemma saved_item_entry e i :
  is_i64 (timestamp (lb_entry e)) →
  is_object (saved_item e) = true
  ∧ item_entry (saved_item e) i
    = Returns (LeaderboardEntry (Entry (entry_name e) (timestamp (lb_entry e)) i) (lb_score e)).
Proof.
  intros Ht. split; [apply is_object_object|]. unfold item_entry, saved_item.
  destruct (at_key_three "name" "score" "timestamp" (json_string (entry_name e))
    (json_of_score (lb_score e)) (json_int (timestamp (lb_entry e)))) as (-> & -> & ->); [done..|].
  simpl. by rewrite get_string_string, score_json, get_int64_int.
Qed.

Lemma saved_item_finite e : finite (saved_item e).
Proof.
  apply finite_object. simpl.
  repeat (constructor; auto using finite_string, finite_int, score_finite).
Qed.

Lemma renumbered_ranked l : ranked (leaderboard_entry_less true) l → ranked (leaderboard_entry_less true) (renumbered l).
Proof.
  intros Hl. apply ranked_of_lookup. intros i j a b Hij Ha Hb. unfold renumbered in *.
  rewrite list_lookup_imap in Ha, Hb. apply fmap_Some in Ha as (a0 & Ha & ->), Hb as (b0 & Hb & ->).
  pose proof (ranked_lookup _ _ _ _ _ _ Hl Hij Ha Hb) as Hn.
  unfold leaderboard_entry_less, entry_less in *. simpl in *.
  destruct (negb (score_eqb (lb_score b0) (lb_score a0))); [done|].
  destruct (negb _); [done|]. apply Z.ltb_ge. lia.
Qed.

Lemma restart_rows cfg b l ev (fs : gmap string text) (hf readable : bool) r :
  represents b l → (zlen l ≤ max_size cfg)%Z → (zlen l < 9223372036854775808)%Z →
  Forall (λ e, is_i64 (timestamp (lb_entry e))) l →
  save cfg ev fs b = Returns r → saved r = true →
  ∃ b', make_leaderboard cfg hf true (final_files fs r) = Returns b'
    ∧ represents b' (foldl (λ l e, insert_upper (leaderboard_entry_less true) e l) [] (renumbered l))
    ∧ next_id b' = zlen l ∧ highest_first b' = true.
Proof.
  intros Hr Hcap Hfit Hts Hsave Hok. pose proof (linked_length _ _ _ (rep_linked _ _ Hr)) as Hlen.
  unfold save in Hsave. rewrite (collect_linked _ _ _ l (linked_cells _ _ _ (rep_linked _ _ Hr))) in Hsave by lia.
  simpl in Hsave. rewrite take_ge in Hsave by lia. simplify_eq.
  unfold make_leaderboard, load. simpl.
  rewrite (read_items_saved _ (saved_item <$> l) ev fs _ ltac:(apply Forall_fmap, Forall_forall; intros; apply saved_item_finite)
    Hok eq_refl).
  assert (zlen (saved_item <$> l) = zlen l) as Hzlen by (unfold zlen; by rewrite length_fmap).
  destruct (load_loop_items cfg l (saved_item <$> l) 0 (Loading ∅ 0 ∅ empty_multiset 0) [] (represents_empty_board true))
    as (ld & -> & Hrep & Hid); try (simpl; rewrite ?Hzlen; lia).
  - apply Forall2_fmap_r, Forall_Forall2_diag. eapply Forall_impl; [exact Hts|].
    intros e Ht. split; [by apply (saved_item_entry e 0)|]. intros i. by apply saved_item_entry.
  - apply NoDup_alt. intros i j nm Hi Hj. rewrite list_lookup_fmap in Hi, Hj.
    apply fmap_Some in Hi as (e & Hi & ->), Hj as (e' & Hj & Hn). by eapply rep_unique.
  - intros e _. done.
  - simpl. eexists. split; [done|]. split; [by destruct Hrep|]. simpl. split; [|done].
    rewrite Hid, Hzlen. simpl. apply u64_small. pose proof (zlen_nonneg l). unfold is_u64, two64. lia.
Qed.
End restart.

(** ** Properties *)

(** C23. From any file, constructing a leaderboard of positive capacity and
    calling it in any way returns, and what the calls return is what the
    abstract ranked list returns: memory, map and multiset stay a faithful
    representation of the ranked rows throughout, whatever the uninitialised
    members of [candidate] hold. *)
Theorem leaderboard_calls_refine_ranked_list `{!Json} `{!Score} `{!ScoreLaws} (cfg : board_config)
    (hf readable : bool) (fs : gmap string text) (cs : list board_call) :
  (0 < max_size cfg)%Z →
  (∀ js, read_items (file_path cfg) readable fs = Some js → zlen js < 9223372036854775808)%Z →
  ∃ b l, make_leaderboard cfg hf readable fs = Returns b ∧ represents b l
    ∧ let '(rs, a) := spec_steps cfg (highest_first b) cs (RankedList l (next_id b)) in
      ∃ b', board_steps cfg cs b = Returns (rs, b') ∧ represents b' (rows a)
        ∧ rows_ok cfg (highest_first b') (rows a).
Proof.
  intros Hpos Hfew.
  destruct (make_leaderboard_safe cfg hf readable fs ltac:(lia) Hfew) as (b & l & Hb & Hr & Hfit).
  exists b, l. split; [done|]. split; [done|].
  pose proof (board_steps_spec cfg cs b l Hr Hpos Hfit) as Hsteps.
  destruct (spec_steps _ _ _ _) as [rs a]. destruct Hsteps as (b' & Hrun & Hr' & _ & _ & Hfit').
  exists b'. split; [done|]. split; [done|]. by apply represents_rows_ok.
Qed.

(** C6. The leaderboard keeps the best scores.  After any calls on a board that
    started without a file, the whole ranking is sorted, within the capacity and
    lists each player once; every listed score is the best one its player ever
    submitted, and a player who is not listed never submitted a score better
    than any listed one, the board being full. *)
Theorem leaderboard_keeps_best_scores `{!Json} `{!Score} `{!ScoreLaws} (cfg : board_config)
    (hf readable : bool) (fs : gmap string text) (cs : list board_call) (b b' : leaderboard)
    (rs : list board_result) :
  (0 < max_size cfg)%Z → fs !! file_path cfg = None →
  make_leaderboard cfg hf readable fs = Returns b → board_steps cfg cs b = Returns (rs, b') →
  ∃ es, get_top_scores (size b') b' = Returns es ∧ rows_ok cfg hf es
    ∧ holds_best_scores cfg hf (history_of cs []) es.
Proof.
  intros Hpos Hnone Hb Hrun. rewrite (make_leaderboard_no_file cfg hf readable fs Hnone) in Hb.
  injection Hb as <-. pose proof (represents_empty_board hf) as Hr.
  assert (zlen (@nil leaderboard_entry) ≤ max_size cfg)%Z as Hfit by (unfold zlen; simpl; lia).
  pose proof (board_steps_spec cfg cs _ [] Hr Hpos Hfit) as Hsteps.
  destruct (spec_steps _ _ cs _) as [rs' a] eqn:Es.
  destruct Hsteps as (b2 & Hrun2 & Hr2 & _ & Hhf & Hfit2). rewrite Hrun in Hrun2. simplify_eq.
  exists (rows a). split_and!.
  - unfold get_top_scores. pose proof (linked_cells _ _ _ (rep_linked _ _ Hr2)) as Hc.
    rewrite (first_entries_spec _ _ _ _ _ Hc (Forall2_length _ _ _ Hc)), (rep_size _ _ Hr2). f_equal. apply take_ge.
    unfold zlen. lia.
  - simpl in Hhf. rewrite <-Hhf. by apply represents_rows_ok.
  - by eapply (spec_steps_best cfg cs _ _ _ [] [] Hr Hpos Hfit (no_best_scores cfg hf)).
Qed.

(** C32. A highest-first leaderboard survives a restart: once [save] has returned
    [true], constructing a leaderboard on the files it left gives back the same
    rows in the same order, with ids renumbered from 0. *)
Theorem leaderboard_survives_restart `{!Json} `{!JsonLaws} `{!Score} `{!ScoreLaws} (cfg : board_config)
    (b : leaderboard) (l : list leaderboard_entry) (ev : disk_events) (fs : gmap string text)
    (r : save_result) :
  represents b l → highest_first b = true → (zlen l ≤ max_size cfg)%Z → (zlen l < 9223372036854775808)%Z →
  Forall (λ e, is_i64 (timestamp (lb_entry e))) l →
  save cfg ev fs b = Returns r → saved r = true →
  ∃ b', make_leaderboard cfg true true (final_files fs r) = Returns b'
    ∧ represents b' (renumbered l) ∧ next_id b' = zlen l.
Proof.
  intros Hr Hhf Hcap Hfit Hts Hsave Hok.
  destruct (restart_rows cfg b l ev fs true true r Hr Hcap Hfit Hts Hsave Hok) as (b' & Hb' & Hr' & Hid & _).
  exists b'. split; [done|]. split; [|done].
  rewrite (foldl_insert_ranked _ [] (renumbered l)) in Hr'; [done|].
  apply renumbered_ranked. pose proof (rep_sorted _ _ Hr) as Hs. unfold key_comp in Hs. by rewrite Hhf in Hs.
Qed.

(** A lowest-first leaderboard does not survive a restart: [load] moves a
    default-constructed ranking into place, and with it the comparison object,
    so that the same board constructed again with [highest_first = false] ranks
    the highest score first. *)
Theorem restart_ranks_highest_first `{!Json} `{!JsonLaws} `{!Score} `{!ScoreLaws} (cfg : board_config)
    (b : leaderboard) (l : list leaderboard_entry) (ev : disk_events) (fs : gmap string text)
    (r : save_result) :
  represents b l → highest_first b = false → (zlen l ≤ max_size cfg)%Z → (zlen l < 9223372036854775808)%Z →
  Forall (λ e, is_i64 (timestamp (lb_entry e))) l →
  save cfg ev fs b = Returns r → saved r = true →
  ∃ b' l', make_leaderboard cfg false true (final_files fs r) = Returns b' ∧ represents b' l'
    ∧ l' ≡ₚ renumbered l ∧ ranked (leaderboard_entry_less true) l' ∧ highest_first b' = true.
Proof.
  intros Hr _ Hcap Hfit Hts Hsave Hok.
  destruct (restart_rows cfg b l ev fs false true r Hr Hcap Hfit Hts Hsave Hok)
    as (b' & Hb' & Hr' & _ & Hhf).
  eexists b', _. split; [done|]. split; [exact Hr'|]. split; [by rewrite foldl_insert_perm|].
  split; [|done]. pose proof (rep_sorted _ _ Hr') as Hs. unfold key_comp in Hs. by rewrite Hhf in Hs.
Qed.

(** ** Witnesses

    The sample boards of [Leaderboard]. *)
Section witnesses.
Import PlainJson IntScore.

Definition saved_files (hf : bool) (cs : list board_call) : save_result :=
  match save two_places quiet_disk ∅ (board_after hf cs) with Returns r => r | _ => SaveResult [] false end.

Lemma timestamps_fit (es : list leaderboard_entry) :
  forallb (λ e, bool_decide (is_i64 (timestamp (lb_entry e)))) es = true →
  Forall (λ e, is_i64 (timestamp (lb_entry e))) es.
Proof. intros Hb%Is_true_true%forallb_True. eapply Forall_impl; [exact Hb|]. intros e. by rewrite bool_decide_spec. Qed.

Lemma save_after hf cs :
  save two_places quiet_disk ∅ (board_after hf cs) = Returns (saved_files hf cs).
Proof.
  unfold saved_files, save. pose proof (rep_linked _ _ (board_after_represents hf cs)) as Hl.
  rewrite (collect_linked _ _ _ _ (linked_cells _ _ _ Hl)); [done|].
  by rewrite (linked_length _ _ _ Hl).
Qed.

Lemma leaderboard_calls_refine_ranked_list_witness :
  ∃ b l, make_leaderboard two_places true true ∅ = Returns b ∧ represents b l
    ∧ let '(rs, a) := spec_steps two_places (highest_first b) submissions (RankedList l (next_id b)) in
      ∃ b', board_steps two_places submissions b = Returns (rs, b') ∧ represents b' (rows a)
        ∧ rows_ok two_places (highest_first b') (rows a).
Proof.
  apply (leaderboard_calls_refine_ranked_list two_places true true ∅ submissions); [done|].
  intros js Hjs. vm_compute in Hjs. discriminate.
Defined.

Lemma leaderboard_keeps_best_scores_witness :
  ∃ es, get_top_scores (size (board_after true submissions)) (board_after true submissions) = Returns es
    ∧ rows_ok two_places true es ∧ holds_best_scores two_places true (history_of submissions []) es.
Proof.
  apply (leaderboard_keeps_best_scores two_places true true ∅ submissions (empty_board true)
    (board_after true submissions) (spec_steps two_places true submissions (RankedList [] 0)).1).
  - done.
  - done.
  - by apply make_leaderboard_no_file.
  - apply board_steps_after.
Defined.

Lemma leaderboard_survives_restart_witness :
  ∃ b', make_leaderboard two_places true true (final_files ∅ (saved_files true submissions)) = Returns b'
    ∧ represents b' (renumbered (rows_after true submissions))
    ∧ next_id b' = zlen (rows_after true submissions).
Proof.
  apply (leaderboard_survives_restart two_places (board_after true submissions)
    (rows_after true submissions) quiet_disk ∅ (saved_files true submissions)).
  - apply board_after_represents.
  - vm_compute. reflexivity.
  - vm_compute. discriminate.
  - vm_compute. reflexivity.
  - apply timestamps_fit. vm_compute. reflexivity.
  - apply save_after.
  - vm_compute. reflexivity.
Defined.

Lemma restart_ranks_highest_first_witness :
  names_and_scores (rows_after false submissions) = [("bob", 50%Z); ("alice", 100%Z)]
  ∧ ∃ b' l', make_leaderboard two_places false true (final_files ∅ (saved_files false submissions)) = Returns b'
    ∧ represents b' l' ∧ l' ≡ₚ renumbered (rows_after false submissions)
    ∧ ranked (leaderboard_entry_less true) l' ∧ highest_first b' = true.
Proof.
  split; [vm_compute; reflexivity|].
  apply (restart_ranks_highest_first two_places (board_after false submissions)
    (rows_after false submissions) quiet_disk ∅ (saved_files false submissions)).
  - apply board_after_represents.
  - vm_compute. reflexivity.
  - vm_compute. discriminate.
  - vm_compute. reflexivity.
  - apply timestamps_fit. vm_compute. reflexivity.
  - apply save_after.
  - vm_compute. reflexivity.
Defined.

End witnesses.
