(* ===== verification/Nameboard.v ===== *)
(** * The nameboard: [src/data_structures/global_boards/nameboard.hpp]

    The entries live in the nodes of a [std::list], which is the list of their
    addresses here; the ranking is a multiset of pointers to them, ordered by
    timestamp and id.  An abstract nameboard is the list of its entries in
    ranking order. *)
From S2P Require Import Prelude Ranking Json Entry.
From Stdlib Require Import Sorted.

Definition DEFAULT_MAX_NAMEBOARD_SIZE : Z := 10000.

Section nameboard.
Context `{Json}.

Record nameboard := Nameboard {
  memory : gmap pointer (cell entry);
  next_pointer : pointer;
  next_id : Z;
  entries : list pointer;
  ranking : multiset
}.
Implicit Types (b : nameboard) (cfg : board_config) (now : Z).

Definition size b : Z := zlen (nodes (ranking b)).

(** [contains]: [std::any_of] over the entries. *)
Fixpoint any_named (nm : string) (m : gmap pointer (cell entry)) (ps : list pointer) : outcome bool :=
  match ps with
  | [] => Returns false
  | p :: ps' =>
      let! e := deref m p in
      if String.eqb (name e) nm then Returns true else any_named nm m ps'
  end.

Definition contains (nm : string) b : outcome bool := any_named nm (memory b) (entries b).

(** [for (it = entries.begin(); ...) if (&*it == p) { entries.erase(it); break; }]. *)
Fixpoint erase_entry (p : pointer) (ps : list pointer) : list pointer * bool :=
  match ps with
  | [] => ([], false)
  | q :: ps' =>
      if Nat.eqb q p then (ps', true) else let '(r, found) := erase_entry p ps' in (q :: r, found)
  end.

(** Erasing the oldest entry, the node [oldest] of the ranking and its entry. *)
Definition erase_oldest (oldest : iterator) (oldest_entry : pointer) b : outcome nameboard :=
  let! r := ms_erase oldest (ranking b) in
  let '(ps, found) := erase_entry oldest_entry (entries b) in
  Returns (Nameboard (if found : bool then delete oldest_entry (memory b) else memory b)
    (next_pointer b) (next_id b) ps r).

Definition add_name cfg (nm : string) now b : outcome (option nat * nameboard) :=
  let! present := contains nm b in
  if (present : bool) then Returns (None, b)
  else
    let p := next_pointer b in
    let m := <[p := Cell (Entry nm now (next_id b)) None]> (memory b) in
    let! ' (rank_it, r) := ms_insert entry_less m p (ranking b) in
    let! m' := set_position p rank_it m in
    let! index := distance_to rank_it (nodes r) in
    let b' := Nameboard m' (S p) (u64 (next_id b + 1)) (entries b ++ [p]) r in
    if (max_size cfg <? size b')%Z then
      match nodes r with
      | [] => Undefined
      | (oldest, oldest_entry) :: _ =>
          let! b'' := erase_oldest oldest oldest_entry b' in
          if Nat.eqb oldest rank_it then Returns (None, b'') else Returns (Some index, b'')
      end
    else Returns (Some index, b').

(** ** Queries *)
Definition get_all b : outcome (list entry) :=
  collect (memory b) (length (nodes (ranking b))) (nodes (ranking b)).

Definition get_from_first (amount : Z) b := first_entries (memory b) (ranking b) (nodes (ranking b)) amount.

Definition get_from_last (amount : Z) b := first_entries (memory b) (ranking b) (reverse (nodes (ranking b))) amount.

(** [first = next(begin, start)], [last = next(begin, min(end, size))]. *)
Definition get_in_range_from_top (start stop : Z) b := range_of (memory b) (ranking b) (nodes (ranking b)) start stop.

Definition get_in_range_from_bottom (start stop : Z) b := range_of (memory b) (ranking b) (reverse (nodes (ranking b))) start stop.

(** ** Persistence *)
Definition saved_item (e : entry) : json :=
  json_object [("name", json_string (name e)); ("timestamp", json_int (timestamp e))].

Definition save cfg (ev : disk_events) (fs : gmap string text) b : outcome save_result :=
  let! es := get_all b in
  Returns (save_json (file_path cfg) (push_all (saved_item <$> es) empty_array) ev fs).

Definition item_entry (item : json) (i : Z) : outcome entry :=
  match at_key "name" item ≫= get_string with
  | None => Throws "name"
  | Some n =>
      match at_key "timestamp" item ≫= get_int64 with
      | None => Throws "timestamp"
      | Some t => Returns (Entry n t i)
      end
  end.

(** One turn of the loop of [load], on the board that the new values make up;
    [None]: [return false]. *)
Definition load_item (item : json) b : outcome (option nameboard) :=
  if negb (is_object item) then Returns None
  else
    let! e := item_entry item (next_id b) in
    let p := next_pointer b in
    let m := <[p := Cell e None]> (memory b) in
    let! ' (rank_it, r) := ms_insert entry_less m p (ranking b) in
    let! m' := set_position p rank_it m in
    Returns (Some (Nameboard m' (S p) (u64 (next_id b + 1)) (entries b ++ [p]) r)).

Fixpoint load_loop cfg (item_count : Z) (js : list json) b : outcome (option nameboard) :=
  match js with
  | [] => Returns (Some b)
  | item :: js' =>
      let item_count' := (item_count + 1)%Z in
      if (max_size cfg <? item_count')%Z then Returns (Some b)
      else
        let! r := load_item item b in
        match r with
        | None => Returns None
        | Some b' => load_loop cfg item_count' js' b'
        end
  end.

Definition load cfg (readable : bool) (fs : gmap string text) b : outcome (bool * nameboard) :=
  match read_items (file_path cfg) readable fs with
  | None => Returns (false, b)
  | Some js =>
      match load_loop cfg 0 js (Nameboard (memory b) (next_pointer b) 0 [] empty_multiset) with
      | Undefined => Undefined
      | Throws _ | Returns None => Returns (false, b)
      | Returns (Some b') =>
          Returns (true, Nameboard (foldr delete (memory b') (entries b)) (next_pointer b') (next_id b')
            (entries b') (ranking b'))
      end
  end.

(** The constructor. *)
Definition empty_nameboard : nameboard := Nameboard ∅ 0 0 [] empty_multiset.

Definition make_nameboard cfg (readable : bool) (fs : gmap string text) : outcome nameboard :=
  let! ' (_, b) := load cfg readable fs empty_nameboard in
  Returns b.

(** ** The abstract nameboard *)
Record ranked_names := RankedNames { rows : list entry; fresh_id : Z }.

Definition spec_add cfg (nm : string) now (a : ranked_names) : option nat * ranked_names :=
  if bool_decide (nm ∈ name <$> rows a) then (None, a)
  else
    let e := Entry nm now (fresh_id a) in
    let l := insert_upper entry_less e (rows a) in
    let id' := u64 (fresh_id a + 1) in
    if (max_size cfg <? zlen l)%Z then
      (if Nat.eqb (upper_bound entry_less e (rows a)) 0 then None
       else Some (upper_bound entry_less e (rows a)),
       RankedNames (drop 1 l) id')
    else (Some (upper_bound entry_less e (rows a)), RankedNames l id').

Inductive board_call :=
  | CallAdd (nm : string) (now : Z)
  | CallContains (nm : string)
  | CallAll
  | CallFirst (amount : Z)
  | CallLast (amount : Z)
  | CallRangeTop (start stop : Z)
  | CallRangeBottom (start stop : Z)
  | CallSize.

Inductive board_result :=
  | Placed (r : option nat)
  | Contained (r : bool)
  | Entries (es : list entry)
  | Size (n : Z).

Definition board_step cfg (c : board_call) b : outcome (board_result * nameboard) :=
  match c with
  | CallAdd nm now => let! ' (r, b') := add_name cfg nm now b in Returns (Placed r, b')
  | CallContains nm => let! r := contains nm b in Returns (Contained r, b)
  | CallAll => let! es := get_all b in Returns (Entries es, b)
  | CallFirst n => let! es := get_from_first n b in Returns (Entries es, b)
  | CallLast n => let! es := get_from_last n b in Returns (Entries es, b)
  | CallRangeTop i j => let! es := get_in_range_from_top i j b in Returns (Entries es, b)
  | CallRangeBottom i j => let! es := get_in_range_from_bottom i j b in Returns (Entries es, b)
  | CallSize => Returns (Size (size b), b)
  end.

Definition spec_step cfg (c : board_call) (a : ranked_names) : board_result * ranked_names :=
  match c with
  | CallAdd nm now => let '(r, a') := spec_add cfg nm now a in (Placed r, a')
  | CallContains nm => (Contained (bool_decide (nm ∈ name <$> rows a)), a)
  | CallAll => (Entries (rows a), a)
  | CallFirst n => (Entries (take (Z.to_nat n) (rows a)), a)
  | CallLast n => (Entries (take (Z.to_nat n) (reverse (rows a))), a)
  | CallRangeTop i j => (Entries (slice i j (rows a)), a)
  | CallRangeBottom i j => (Entries (slice i j (reverse (rows a))), a)
  | CallSize => (Size (zlen (rows a)), a)
  end.

Fixpoint board_steps cfg (cs : list board_call) b : outcome (list board_result * nameboard) :=
  match cs with
  | [] => Returns ([], b)
  | c :: cs' =>
      let! ' (r, b1) := board_step cfg c b in
      let! ' (rs, b2) := board_steps cfg cs' b1 in
      Returns (r :: rs, b2)
  end.

Fixpoint spec_steps cfg (cs : list board_call) (a : ranked_names) : list board_result * ranked_names :=
  match cs with
  | [] => ([], a)
  | c :: cs' =>
      let '(r, a1) := spec_step cfg c a in
      let '(rs, a2) := spec_steps cfg cs' a1 in
      (r :: rs, a2)
  end.

(** The board holds exactly the entries [l], in this order. *)
Record represents b (l : list entry) : Prop := Represents {
  rep_linked : linked (memory b) (ranking b) l;
  rep_entries : entries b ≡ₚ (nodes (ranking b)).*2;
  rep_owned : ∀ p c, memory b !! p = Some c → p ∈ entries b ∧ p < next_pointer b;
  rep_sorted : ranked entry_less l
}.
End nameboard.

Section refinement.
Context `{Json}.
Implicit Types (b : nameboard) (cfg : board_config) (now : Z) (l : list entry).

Lemma nb_rep_size b l : represents b l → size b = zlen l.
Proof. intros Hr. unfold size, zlen. by rewrite (linked_length _ _ _ (rep_linked _ _ Hr)). Qed.

Lemma any_named_spec nm (m : gmap pointer (cell entry)) ps :
  (∀ p, p ∈ ps → is_Some (m !! p)) →
  ∃ r, any_named nm m ps = Returns r
    ∧ (r = true ↔ ∃ p c, p ∈ ps ∧ m !! p = Some c ∧ name (content c) = nm).
Proof.
  induction ps as [|p ps IH]; intros Hlive; simpl.
  { exists false. split; [done|]. split; [done|]. intros (p & c & Hp & _). by apply elem_of_nil in Hp. }
  destruct (Hlive p) as [c Hc]; [by left|]. unfold deref. rewrite Hc. simpl.
  destruct (String.eqb_spec (name (content c)) nm) as [Hn|Hn].
  { exists true. split; [done|]. split; [|done]. intros _. exists p, c. split; [by left|done]. }
  destruct IH as (r & -> & Hr); [intros q Hq; apply Hlive; by right|].
  exists r. split; [done|]. rewrite Hr. split.
  - intros (q & c' & Hq & Hrest). exists q, c'. split; [by right|done].
  - intros (q & c' & [->|Hq]%elem_of_cons & Hc' & Hn'); [congruence|by eauto].
Qed.

Lemma rep_cells b l :
  represents b l → ∀ e, e ∈ l ↔ ∃ p c, p ∈ entries b ∧ memory b !! p = Some c ∧ content c = e.
Proof.
  intros Hr e. pose proof (rep_linked _ _ Hr) as Hl. split.
  - intros [i Hi]%list_elem_of_lookup. destruct (linked_lookup_r _ _ _ _ _ Hl Hi) as (it & p & Hn & Hp).
    exists p, (Cell e (Some it)). split; [|done]. rewrite (rep_entries _ _ Hr). apply list_elem_of_fmap.
    exists (it, p). split; [done|]. by eapply list_elem_of_lookup_2.
  - intros (p & c & Hp & Hc & <-). rewrite (rep_entries _ _ Hr) in Hp.
    apply list_elem_of_fmap in Hp as ([it q] & -> & [i Hi]%list_elem_of_lookup).
    destruct (linked_lookup _ _ _ _ _ _ Hl Hi) as (a & Ha & Hq). simpl in *. rewrite Hc in Hq.
    simplify_eq. by eapply list_elem_of_lookup_2.
Qed.

Lemma rep_live b l p : represents b l → p ∈ entries b → is_Some (memory b !! p).
Proof.
  intros Hr Hp. rewrite (rep_entries _ _ Hr) in Hp.
  apply list_elem_of_fmap in Hp as ([it q] & -> & [i Hi]%list_elem_of_lookup).
  destruct (linked_lookup _ _ _ _ _ _ (rep_linked _ _ Hr) Hi) as (a & _ & Hq). eauto.
Qed.

Lemma contains_spec b l nm : represents b l → contains nm b = Returns (bool_decide (nm ∈ name <$> l)).
Proof.
  intros Hr. destruct (any_named_spec nm (memory b) (entries b)) as (r & Hc & Hiff).
  { intros p. by apply rep_live with l. }
  unfold contains. rewrite Hc. f_equal. apply Bool.eq_true_iff_eq. rewrite Hiff, bool_decide_eq_true.
  rewrite list_elem_of_fmap. split.
  - intros (p & c & Hp & Hm & Hn). exists (content c). split; [done|]. apply (rep_cells b l Hr). eauto.
  - intros (e & -> & He). apply (rep_cells b l Hr) in He as (p & c & Hp & Hm & <-). eauto.
Qed.

Lemma erase_entry_spec p ps :
  p ∈ ps → (erase_entry p ps).2 = true ∧ ps ≡ₚ p :: (erase_entry p ps).1.
Proof.
  induction ps as [|q ps IH]; intros Hp; [by apply elem_of_nil in Hp|]. simpl.
  destruct (Nat.eqb_spec q p) as [->|Hne]; [done|].
  apply elem_of_cons in Hp as [->|Hp]; [done|]. destruct (IH Hp) as [Hf Hperm].
  destruct (erase_entry p ps) as [r found]. simpl in *. split; [done|].
  rewrite Hperm. apply Permutation_swap.
Qed.

(** Adding an entry under a fresh pointer. *)
Lemma nb_represents_add b l (e : entry) (id' : Z) :
  represents b l →
  let p := next_pointer b in
  let it := next_node (ranking b) in
  ∃ r, ms_insert entry_less (<[p := Cell e None]> (memory b)) p (ranking b) = Returns (it, r)
    ∧ distance_to it (nodes r) = Returns (upper_bound entry_less e l)
    ∧ nodes r !! upper_bound entry_less e l = Some (it, p)
    ∧ represents (Nameboard (<[p := Cell e (Some it)]> (memory b)) (S p) id' (entries b ++ [p]) r)
        (insert_upper entry_less e l).
Proof.
  intros Hr. cbv zeta. set (p := next_pointer b). pose proof (rep_linked _ _ Hr) as Hl.
  assert (p ∉ (nodes (ranking b)).*2) as Hp.
  { intros Hin. rewrite <-(rep_entries _ _ Hr) in Hin. destruct (rep_live b l p Hr Hin) as [c Hc].
    apply (rep_owned _ _ Hr) in Hc as [_ Hlt]. unfold p in Hlt. lia. }
  assert (linked (<[p := Cell e None]> (memory b)) (ranking b) l) as Hl'.
  { eapply linked_other; [|done]. intros q Hq. rewrite lookup_insert_ne; [done|]. by intros ->. }
  destruct (insert_linked entry_less _ _ _ p e None Hl' ltac:(by rewrite lookup_insert_eq) Hp)
    as (r & -> & Hrn & Hd & Hlr).
  rewrite insert_insert_eq in Hlr. exists r. split_and!; [done|done| |].
  - rewrite Hrn. pose proof (upper_bound_le entry_less e l) as Hle.
    pose proof (linked_length _ _ _ Hl) as Hlen.
    rewrite lookup_app_r; rewrite length_take, Nat.min_l by lia; [|done]. by rewrite Nat.sub_diag.
  - split; simpl; [done| | |].
    + rewrite Hrn, fmap_insert_perm, (rep_entries _ _ Hr). simpl. by rewrite Permutation_app_comm.
    + intros q c Hq. destruct (decide (p = q)) as [<-|Hne].
      * split; [set_solver|]. unfold p. lia.
      * rewrite lookup_insert_ne in Hq by done. destruct (rep_owned _ _ Hr _ _ Hq) as [? ?].
        split; [set_solver|]. unfold p. lia.
    + apply insert_upper_ranked; [apply entry_less_asym|apply entry_less_trans|apply (rep_sorted _ _ Hr)].
Qed.

Lemma erase_oldest_spec b l it p :
  represents b l → nodes (ranking b) !! 0 = Some (it, p) →
  ∃ b', erase_oldest it p b = Returns b' ∧ represents b' (drop 1 l) ∧ next_id b' = next_id b.
Proof.
  intros Hr Hn. pose proof (rep_linked _ _ Hr) as Hl.
  destruct (erase_linked _ _ _ _ _ _ Hl Hn) as (r & Hrr & Hrn & Hlr). unfold erase_oldest. rewrite Hrr. simpl.
  assert (p ∈ entries b) as Hin.
  { rewrite (rep_entries _ _ Hr). apply list_elem_of_fmap. exists (it, p). split; [done|].
    by eapply list_elem_of_lookup_2. }
  destruct (erase_entry_spec p (entries b) Hin) as [Hfound Hperm].
  destruct (erase_entry p (entries b)) as [ps found]. simpl in *. subst found.
  eexists. split; [done|]. split; [|done].
  assert ((nodes (ranking b)).*2 ≡ₚ p :: (nodes r).*2) as Hnodes.
  { rewrite Hrn, list_fmap_delete. apply delete_Permutation. by rewrite list_lookup_fmap, Hn. }
  assert (p ∉ (nodes r).*2) as Hpr.
  { pose proof (linked_pointers _ _ _ Hl) as Hnd. rewrite Hnodes in Hnd. by apply NoDup_cons in Hnd as [? _]. }
  assert (ps ≡ₚ (nodes r).*2) as Hps.
  { apply (Permutation_cons_inv (a := p)). by rewrite <-Hperm, <-Hnodes, (rep_entries _ _ Hr). }
  assert (delete 0 l = drop 1 l) as Hdrop by (by destruct l).
  split; simpl.
  - rewrite <-Hdrop. eapply linked_other; [|done]. intros q Hq. rewrite lookup_delete_ne; [done|]. by intros ->.
  - done.
  - intros q c [Hne Hq]%lookup_delete_Some. destruct (rep_owned _ _ Hr _ _ Hq) as [Hin' ?].
    split; [|done]. rewrite Hperm in Hin'. by apply elem_of_cons in Hin' as [->|?].
  - rewrite <-Hdrop. apply ranked_delete, (rep_sorted _ _ Hr).
Qed.

Lemma add_name_spec cfg nm now b l :
  represents b l →
  let '(r, a) := spec_add cfg nm now (RankedNames l (next_id b)) in
  ∃ b', add_name cfg nm now b = Returns (r, b') ∧ represents b' (rows a) ∧ next_id b' = fresh_id a.
Proof.
  intros Hr. unfold spec_add, add_name. simpl. rewrite (contains_spec b l nm Hr). simpl.
  destruct (bool_decide _); [by eauto|].
  destruct (nb_represents_add b l (Entry nm now (next_id b)) (u64 (next_id b + 1)) Hr)
    as (r & Hins & Hd & Hub & Hrep).
  set (e := Entry nm now (next_id b)) in *. rewrite Hins. simpl.
  rewrite (set_position_returns _ _ _ e None) by (by rewrite lookup_insert_eq). simpl.
  rewrite insert_insert_eq, Hd. simpl. rewrite (nb_rep_size _ _ Hrep).
  destruct (max_size cfg <? _)%Z; [|by eauto].
  destruct (nodes r) as [|[oldest op] ns] eqn:En; [done|].
  destruct (erase_oldest_spec _ _ oldest op Hrep) as (b' & -> & Hrep' & Hid); [simpl; by rewrite En|].
  simpl. assert (Nat.eqb oldest (next_node (ranking b)) = Nat.eqb (upper_bound entry_less e l) 0) as ->.
  { pose proof (linked_nodes _ _ _ (rep_linked _ _ Hrep)) as Hnd. simpl in Hnd. rewrite En in Hnd.
    apply Bool.eq_true_iff_eq. rewrite !Nat.eqb_eq. split; intros Heq.
    - symmetry. apply (NoDup_lookup _ _ _ oldest Hnd); [done|]. by rewrite list_lookup_fmap, Hub, Heq.
    - rewrite Heq in Hub. by simplify_eq/=. }
  destruct (Nat.eqb _ 0); eauto.
Qed.

Lemma get_all_spec b l : represents b l → get_all b = Returns l.
Proof.
  intros Hr. pose proof (rep_linked _ _ Hr) as Hl. pose proof (linked_length _ _ _ Hl) as Hlen.
  unfold get_all. rewrite (collect_linked _ _ _ l (linked_cells _ _ _ Hl)) by lia.
  by rewrite take_ge by lia.
Qed.

Lemma nb_board_step_spec cfg c b l :
  represents b l →
  let '(r, a) := spec_step cfg c (RankedNames l (next_id b)) in
  ∃ b', board_step cfg c b = Returns (r, b') ∧ represents b' (rows a) ∧ next_id b' = fresh_id a.
Proof.
  intros Hr. pose proof (linked_cells _ _ _ (rep_linked _ _ Hr)) as Hc.
  pose proof (Forall2_reverse _ _ _ Hc) as Hc'. pose proof (length_reverse l) as Hlr.
  pose proof (linked_length _ _ _ (rep_linked _ _ Hr)) as Hlen.
  destruct c as [nm now|nm| |n|n|i j|i j|]; simpl.
  - pose proof (add_name_spec cfg nm now b l Hr) as Hadd.
    destruct (spec_add _ _ _ _) as [r a]. destruct Hadd as (b' & -> & ? & ?). simpl. eauto.
  - rewrite (contains_spec b l nm Hr). simpl. eauto.
  - rewrite (get_all_spec b l Hr). simpl. eauto.
  - unfold get_from_first. rewrite (first_entries_spec _ _ _ l) by done. simpl. eauto.
  - unfold get_from_last. rewrite (first_entries_spec _ _ _ (reverse l)) by (done || congruence). simpl. eauto.
  - unfold get_in_range_from_top. rewrite (range_of_spec _ _ _ l) by done. simpl. eauto.
  - unfold get_in_range_from_bottom.
    rewrite (range_of_spec _ _ _ (reverse l)) by (done || congruence). simpl. eauto.
  - rewrite (nb_rep_size b l Hr). eauto.
Qed.

Lemma nb_board_steps_spec cfg cs b l :
  represents b l →
  let '(rs, a) := spec_steps cfg cs (RankedNames l (next_id b)) in
  ∃ b', board_steps cfg cs b = Returns (rs, b') ∧ represents b' (rows a) ∧ next_id b' = fresh_id a.
Proof.
  revert b l. induction cs as [|c cs IH]; intros b l Hr; simpl; [by eauto|].
  pose proof (nb_board_step_spec cfg c b l Hr) as Hstep.
  destruct (spec_step _ _ _) as [r [l1 id1]]. destruct Hstep as (b1 & -> & Hr1 & Hid).
  simpl in *. specialize (IH b1 l1 Hr1). rewrite Hid in IH.
  destruct (spec_steps _ _ _) as [rs a]. destruct IH as (b' & -> & ? & ?). simpl. eauto.
Qed.

(** ** Loading *)
Lemma represents_empty : represents empty_nameboard [].
Proof. split; simpl; try done; [|constructor]. split; simpl; constructor. Qed.

Lemma nb_load_item_spec b l item :
  represents b l → is_object item = true →
  match item_entry item (next_id b) with
  | Returns e => ∃ b', load_item item b = Returns (Some b') ∧ represents b' (insert_upper entry_less e l)
      ∧ next_id b' = u64 (next_id b + 1)
  | Throws w => load_item item b = Throws w
  | Undefined => False
  end.
Proof.
  intros Hr Hobj. unfold load_item. rewrite Hobj. simpl.
  destruct (item_entry item (next_id b)) as [e|w|] eqn:E; simpl; [|done|].
  2:{ unfold item_entry in E. by repeat case_match. }
  destruct (nb_represents_add b l e (u64 (next_id b + 1)) Hr) as (r & -> & _ & _ & Hrep). simpl.
  rewrite (set_position_returns _ _ _ e None) by (by rewrite lookup_insert_eq). simpl.
  rewrite insert_insert_eq. eauto.
Qed.

Lemma nb_load_loop_safe cfg js count b l :
  represents b l → (zlen l ≤ count)%Z → (count ≤ max_size cfg)%Z →
  match load_loop cfg count js b with
  | Returns (Some b') => ∃ l', represents b' l' ∧ (zlen l' ≤ max_size cfg)%Z
  | Undefined => False
  | _ => True
  end.
Proof.
  revert count b l. induction js as [|item js IH]; intros count b l Hr Hl Hcap; simpl.
  { exists l. split; [done|lia]. }
  destruct (Z.ltb_spec (max_size cfg) (count + 1)); [exists l; split; [done|lia]|].
  destruct (is_object item) eqn:Eo; [|by unfold load_item; rewrite Eo].
  pose proof (nb_load_item_spec b l item Hr Eo) as Hi.
  destruct (item_entry item (next_id b)) as [e|w|]; [|by rewrite Hi|done].
  destruct Hi as (b' & -> & Hr' & _). simpl. apply (IH _ _ _ Hr'); try lia.
  unfold zlen in *. rewrite length_insert_upper. lia.
Qed.

Lemma make_nameboard_safe cfg (readable : bool) (fs : gmap string text) :
  (0 ≤ max_size cfg)%Z →
  ∃ b l, make_nameboard cfg readable fs = Returns b ∧ represents b l ∧ (zlen l ≤ max_size cfg)%Z.
Proof.
  intros Hpos. unfold make_nameboard, load. pose proof represents_empty as Hnew.
  destruct (read_items _ _ _) as [js|]; simpl; [|by eauto].
  pose proof (nb_load_loop_safe cfg js 0 empty_nameboard [] Hnew ltac:(done) Hpos) as Hload.
  unfold empty_nameboard in Hload.
  destruct (load_loop _ _ _ _) as [[b|]|w|]; simpl; try done; eauto.
  destruct Hload as (l & Hr & Hl). eexists _, l. split; [done|]. split; [|done]. by destruct Hr.
Qed.

(** Loading well-formed items one after the other. *)
Lemma nb_load_loop_items cfg (es : list entry) (js : list json) count b l :
  represents b l → (count + zlen js ≤ max_size cfg)%Z →
  (0 ≤ next_id b)%Z → (next_id b + zlen js < two64)%Z →
  Forall2 (λ e j, is_object j = true ∧ ∀ i, item_entry j i
     = Returns (Entry (name e) (timestamp e) i)) es js →
  let renumbered := imap (λ k e, Entry (name e) (timestamp e) (next_id b + Z.of_nat k)) es in
  ∃ b', load_loop cfg count js b = Returns (Some b')
    ∧ represents b' (foldl (λ l e, insert_upper entry_less e l) l renumbered)
    ∧ next_id b' = (next_id b + zlen js)%Z.
Proof.
  intros Hr Hcap Hnn Hfit Hes. revert count b l Hr Hcap Hnn Hfit.
  induction Hes as [|e j es js [Ho He] Hes IH]; intros count b l Hr Hcap Hnn Hfit; simpl.
  { exists b. rewrite zlen_nil, Z.add_0_r. done. }
  rewrite zlen_cons in *. pose proof (zlen_nonneg js).
  destruct (Z.ltb_spec (max_size cfg) (count + 1)); [lia|].
  pose proof (nb_load_item_spec b l j Hr Ho) as Hi. rewrite He in Hi.
  destruct Hi as (b1 & -> & Hr1 & Hid). simpl.
  rewrite u64_small in Hid by (unfold is_u64; lia).
  destruct (IH (count + 1)%Z b1 _ Hr1) as (b2 & -> & Hr2 & Hid2); try lia.
  exists b2. split; [done|]. split; [|lia]. rewrite Hid in Hr2. rewrite Z.add_0_r.
  erewrite imap_ext; [exact Hr2|]. intros k x _. simpl. f_equal. lia.
Qed.
End refinement.

(** ** Names in the order of their arrival *)
Section chronology.
Context `{Json}.
Implicit Types (cfg : board_config) (cs : list board_call).

(** The calls of [add_name], with the time of each. *)
Fixpoint adds_of cs : list (string * Z) :=
  match cs with
  | [] => []
  | CallAdd nm now :: cs' => (nm, now) :: adds_of cs'
  | _ :: cs' => adds_of cs'
  end.

(** The times of the calls never decrease. *)
Fixpoint clock_from (t : Z) (adds : list (string * Z)) : Prop :=
  match adds with
  | [] => True
  | (_, now) :: adds' => (t ≤ now)%Z ∧ clock_from now adds'
  end.

(** The most recent [max] distinct names, oldest first. *)
Fixpoint chronicle (max : nat) (adds : list string) (names : list string) : list string :=
  match adds with
  | [] => names
  | nm :: adds' =>
      chronicle max adds'
        (if decide (nm ∈ names) then names else drop (S (length names) - max) (names ++ [nm]))
  end.

Record in_time_order (t : Z) (max : Z) (a : ranked_names) : Prop := InTimeOrder {
  times_past : ∀ e, e ∈ rows a → (timestamp e ≤ t)%Z;
  ids_past : ∀ e, e ∈ rows a → (id e < fresh_id a)%Z;
  names_unique : NoDup (name <$> rows a);
  names_fit : (zlen (rows a) ≤ max)%Z
}.

Lemma spec_add_in_time cfg nm now t a :
  in_time_order t (max_size cfg) a → (t ≤ now)%Z → (0 ≤ fresh_id a)%Z → (fresh_id a + 1 < two64)%Z →
  nm ∉ name <$> rows a →
  let e := Entry nm now (fresh_id a) in
  upper_bound entry_less e (rows a) = length (rows a)
  ∧ spec_add cfg nm now a
    = (if (max_size cfg <? zlen (rows a) + 1)%Z
       then if Nat.eqb (length (rows a)) 0 then None else Some (length (rows a))
       else Some (length (rows a)),
       RankedNames (drop (S (length (rows a)) - Z.to_nat (max_size cfg)) (rows a ++ [e])) (fresh_id a + 1)).
Proof.
  intros [Ht Hid _ Hfit] Hnow Hnn Hwrap Hnew e.
  destruct (insert_upper_end entry_less e (rows a)) as [Hins Hub].
  { apply Forall_forall. intros x Hx. specialize (Ht x Hx). specialize (Hid x Hx).
    unfold entry_less. simpl. destruct (Z.eqb_spec now (timestamp x)); simpl; apply Z.ltb_ge; lia. }
  split; [done|]. unfold spec_add. rewrite bool_decide_false by done. fold e. rewrite Hins, Hub.
  rewrite u64_small by (unfold is_u64; lia). rewrite zlen_app. change (zlen [e]) with 1%Z. unfold zlen in *.
  destruct (Z.ltb_spec (max_size cfg) (Z.of_nat (length (rows a)) + 1)).
  - replace (S (length (rows a)) - Z.to_nat (max_size cfg)) with 1 by lia. done.
  - replace (S (length (rows a)) - Z.to_nat (max_size cfg)) with 0 by lia. done.
Qed.

Lemma spec_add_keeps_order cfg nm now t a :
  in_time_order t (max_size cfg) a → (t ≤ now)%Z → (0 ≤ max_size cfg)%Z →
  (0 ≤ fresh_id a)%Z → (fresh_id a + 1 < two64)%Z →
  let a' := (spec_add cfg nm now a).2 in
  in_time_order now (max_size cfg) a'
  ∧ name <$> rows a' = chronicle (Z.to_nat (max_size cfg)) [nm] (name <$> rows a)
  ∧ (fresh_id a ≤ fresh_id a' ≤ fresh_id a + 1)%Z.
Proof.
  intros Ho Hnow Hmax Hnn Hwrap. cbv zeta. simpl. destruct (decide (nm ∈ name <$> rows a)) as [Hin|Hnew].
  { unfold spec_add. rewrite bool_decide_true by done. destruct Ho as [Ht Hi Hn Hf].
    split_and!; simpl; try done; try lia. split; try done. intros e He. specialize (Ht e He). lia. }
  destruct (spec_add_in_time cfg nm now t a Ho Hnow Hnn Hwrap Hnew) as [_ ->]. simpl.
  rewrite length_fmap. split_and!; [|by rewrite fmap_drop, fmap_app|lia|lia].
  destruct Ho as [Ht Hi Hn Hf].
  assert (∀ e, e ∈ drop (S (length (rows a)) - Z.to_nat (max_size cfg))
      (rows a ++ [Entry nm now (fresh_id a)]) → e ∈ rows a ∨ e = Entry nm now (fresh_id a)) as Hin.
  { intros e He. apply elem_of_sublist with (l2 := rows a ++ [Entry nm now (fresh_id a)]) in He;
      [set_solver|apply sublist_drop]. }
  split; simpl.
  - intros e [He| ->]%Hin; [|simpl; lia]. specialize (Ht e He). lia.
  - intros e [He| ->]%Hin; [|simpl; lia]. specialize (Hi e He). lia.
  - rewrite fmap_drop, fmap_app. eapply sublist_NoDup; [|apply sublist_drop].
    apply NoDup_app. split_and!; [done| |apply NoDup_singleton]. intros x Hx Hx'.
    apply list_elem_of_singleton in Hx'. simpl in Hx'. by subst x.
  - unfold zlen in *. rewrite length_drop, length_app. simpl. lia.
Qed.

Lemma spec_steps_chronicle cfg cs t a :
  in_time_order t (max_size cfg) a → clock_from t (adds_of cs) → (0 ≤ max_size cfg)%Z →
  (0 ≤ fresh_id a)%Z → (fresh_id a + zlen (adds_of cs) < two64)%Z →
  let a' := (spec_steps cfg cs a).2 in
  name <$> rows a' = chronicle (Z.to_nat (max_size cfg)) (adds_of cs).*1 (name <$> rows a)
  ∧ ∃ t', in_time_order t' (max_size cfg) a'.
Proof.
  revert t a. induction cs as [|c cs IH]; intros t a Ho Hclock Hmax Hnn Hwrap; simpl; [by eauto|].
  destruct (spec_step cfg c a) as [r a1] eqn:Es. destruct (spec_steps cfg cs a1) as [rs a2] eqn:Er. simpl.
  assert (a2 = (spec_steps cfg cs a1).2) as -> by (by rewrite Er).
  destruct c as [nm now|nm| |n|n|i j|i j|]; simpl in *;
    try (injection Es as _ <-; by apply (IH t)).
  destruct Hclock as [Hnow Hclock]. rewrite zlen_cons in Hwrap. pose proof (zlen_nonneg (adds_of cs)).
  destruct (spec_add_keeps_order cfg nm now t a Ho Hnow Hmax Hnn ltac:(lia)) as (Ho1 & Hn1 & Hid1).
  destruct (spec_add cfg nm now a) as [r0 a0]. injection Es as _ <-. simpl in *. rewrite <-Hn1.
  apply (IH now); try done; lia.
Qed.
End chronology.

(** ** Saving and loading *)
Section restart.
Context `{!Json} `{!JsonLaws}.
Implicit Types (l : list entry) (b : nameboard) (cfg : board_config).

(** The same rows with the ids that loading gives them. *)
Definition renumbered l : list entry := imap (λ k e, Entry (name e) (timestamp e) (Z.of_nat k)) l.

Lemma nb_saved_item_entry e i :
  is_i64 (timestamp e) →
  is_object (saved_item e) = true
  ∧ item_entry (saved_item e) i = Returns (Entry (name e) (timestamp e) i).
Proof.
  intros Ht. split; [apply is_object_object|]. unfold item_entry, saved_item.
  destruct (at_key_two "name" "timestamp" (json_string (name e)) (json_int (timestamp e))) as (-> & ->);
    [done|].
  simpl. by rewrite get_string_string, get_int64_int.
Qed.

Lemma nb_saved_item_finite e : finite (saved_item e).
Proof.
  apply finite_object. simpl.
  repeat (constructor; auto using finite_string, finite_int).
Qed.

Lemma nb_renumbered_ranked l : ranked entry_less l → ranked entry_less (renumbered l).
Proof.
  intros Hl. apply ranked_of_lookup. intros i j x y Hij Hx Hy. unfold renumbered in *.
  rewrite list_lookup_imap in Hx, Hy. apply fmap_Some in Hx as (x0 & Hx & ->), Hy as (y0 & Hy & ->).
  pose proof (ranked_lookup _ _ _ _ _ _ Hl Hij Hx Hy) as Hn.
  unfold entry_less in *. simpl in *. destruct (negb _); [done|]. apply Z.ltb_ge. lia.
Qed.

Lemma nb_restart_rows cfg b l ev (fs : gmap string text) r :
  represents b l → (zlen l ≤ max_size cfg)%Z → (zlen l < two64)%Z →
  Forall (λ e, is_i64 (timestamp e)) l →
  save cfg ev fs b = Returns r → saved r = true →
  ∃ b', make_nameboard cfg true (final_files fs r) = Returns b'
    ∧ represents b' (renumbered l) ∧ next_id b' = zlen l.
Proof.
  intros Hr Hcap Hfit Hts Hsave Hok. unfold save in Hsave. rewrite (get_all_spec b l Hr) in Hsave.
  simpl in Hsave. simplify_eq. unfold make_nameboard, load.
  rewrite (read_items_saved _ (saved_item <$> l) ev fs _
    ltac:(apply Forall_fmap, Forall_forall; intros; apply nb_saved_item_finite) Hok eq_refl).
  assert (zlen (saved_item <$> l) = zlen l) as Hzlen by (unfold zlen; by rewrite length_fmap).
  destruct (nb_load_loop_items cfg l (saved_item <$> l) 0 empty_nameboard [] represents_empty)
    as (b' & Hload & Hrep & Hid); try (simpl; rewrite ?Hzlen; lia).
  - apply Forall2_fmap_r, Forall_Forall2_diag. eapply Forall_impl; [exact Hts|].
    intros e Ht. split; [by apply (nb_saved_item_entry e 0)|]. intros i. by apply nb_saved_item_entry.
  - unfold empty_nameboard in *. simpl in *. rewrite Hload. simpl. eexists. split; [done|].
    split; [|simpl; lia].
    rewrite (foldl_insert_ranked _ [] (renumbered l)) in Hrep; [by destruct Hrep|].
    apply nb_renumbered_ranked, (rep_sorted _ _ Hr).
Qed.
End restart.

(** ** Properties *)

(** C33. From any file, constructing a nameboard and calling it in any way
    returns, and what the calls return is what the abstract list of entries
    returns: memory, [std::list] and multiset stay a faithful representation. *)
Theorem nameboard_calls_refine_ranked_list `{Json} (cfg : board_config) (readable : bool)
    (fs : gmap string text) (cs : list board_call) :
  (0 ≤ max_size cfg)%Z →
  ∃ b l, make_nameboard cfg readable fs = Returns b ∧ represents b l ∧ (zlen l ≤ max_size cfg)%Z
    ∧ let '(rs, a) := spec_steps cfg cs (RankedNames l (next_id b)) in
      ∃ b', board_steps cfg cs b = Returns (rs, b') ∧ represents b' (rows a).
Proof.
  intros Hmax. destruct (make_nameboard_safe cfg readable fs Hmax) as (b & l & Hb & Hr & Hfit).
  exists b, l. split_and!; try done. pose proof (nb_board_steps_spec cfg cs b l Hr) as Hs.
  destruct (spec_steps _ _ _) as [rs a]. destruct Hs as (b' & ? & ? & _). eauto.
Qed.

(** C34. A nameboard that started without a file holds the most recent distinct
    names in the order of their arrival, at most [max_size] of them, provided
    that the clock does not go back. *)
Theorem nameboard_is_chronological `{Json} (cfg : board_config) (readable : bool)
    (fs : gmap string text) (cs : list board_call) (t : Z) (b b' : nameboard) (rs : list board_result) :
  (0 ≤ max_size cfg)%Z → fs !! file_path cfg = None → clock_from t (adds_of cs) →
  (zlen (adds_of cs) < two64)%Z →
  make_nameboard cfg readable fs = Returns b → board_steps cfg cs b = Returns (rs, b') →
  ∃ es, get_all b' = Returns es
    ∧ name <$> es = chronicle (Z.to_nat (max_size cfg)) (adds_of cs).*1 []
    ∧ NoDup (name <$> es) ∧ (zlen es ≤ max_size cfg)%Z.
Proof.
  intros Hmax Hnone Hclock Hfew Hb Hrun. unfold make_nameboard, load, read_items in Hb.
  rewrite Hnone in Hb. injection Hb as <-. pose proof represents_empty as Hr.
  pose proof (nb_board_steps_spec cfg cs _ _ Hr) as Hs.
  destruct (spec_steps_chronicle cfg cs t (RankedNames [] 0)) as [Hn [t' Ho]]; try done.
  { split; simpl; try (intros e He; by apply elem_of_nil in He); [constructor|done]. }
  destruct (spec_steps _ _ _) as [rs' a]. destruct Hs as (b2 & Hrun2 & Hr2 & _).
  rewrite Hrun in Hrun2. simplify_eq. exists (rows a). split_and!.
  - by apply get_all_spec.
  - done.
  - apply (names_unique _ _ _ Ho).
  - apply (names_fit _ _ _ Ho).
Qed.

(** On a full board, [add_name] returns the position the new name had before
    the oldest one was erased, so the newest name is reported one place past the
    end of the ranking. *)
Theorem full_board_reports_position_past_end `{Json} (cfg : board_config) (b : nameboard)
    (l : list entry) (nm : string) (now : Z) :
  represents b l → (0 < max_size cfg)%Z → zlen l = max_size cfg → nm ∉ name <$> l →
  in_time_order now (max_size cfg) (RankedNames l (next_id b)) →
  (0 ≤ next_id b)%Z → (next_id b + 1 < two64)%Z →
  ∃ i b' l', add_name cfg nm now b = Returns (Some i, b') ∧ represents b' l'
    ∧ i = length l' ∧ l' !! pred i = Some (Entry nm now (next_id b)).
Proof.
  intros Hr Hpos Hfull Hnew Ho Hnn Hwrap. pose proof (add_name_spec cfg nm now b l Hr) as Hs.
  destruct (spec_add_in_time cfg nm now now _ Ho ltac:(lia) Hnn Hwrap Hnew) as [_ Heq].
  rewrite Heq in Hs. cbn [rows fresh_id] in Hs. rewrite Hfull in Hs.
  destruct Hs as (b' & Hb' & Hr' & _).
  destruct (Z.ltb_spec (max_size cfg) (max_size cfg + 1)); [|lia]. unfold zlen in Hfull.
  destruct (Nat.eqb_spec (length l) 0); [lia|]. eexists _, b', _. split; [exact Hb'|].
  split; [exact Hr'|]. destruct l as [|e0 l0]; [done|]. cbn [length] in *.
  replace (S (S (length l0)) - Z.to_nat (max_size cfg)) with 1 by lia. simpl.
  rewrite drop_0, length_app. simpl. split; [lia|]. by rewrite lookup_app_r, Nat.sub_diag by lia.
Qed.

(** A nameboard survives a restart: once [save] has returned [true],
    constructing a nameboard on the files it left gives back the same names and
    times in the same order, with ids renumbered from 0. *)
Theorem nameboard_survives_restart `{!Json} `{!JsonLaws} (cfg : board_config) (b : nameboard)
    (l : list entry) (ev : disk_events) (fs : gmap string text) (r : save_result) :
  represents b l → (zlen l ≤ max_size cfg)%Z → (zlen l < two64)%Z →
  Forall (λ e, is_i64 (timestamp e)) l →
  save cfg ev fs b = Returns r → saved r = true →
  ∃ b', make_nameboard cfg true (final_files fs r) = Returns b'
    ∧ get_all b' = Returns (renumbered l) ∧ next_id b' = zlen l.
Proof.
  intros Hr Hcap Hfit Hts Hsave Hok.
  destruct (nb_restart_rows cfg b l ev fs r Hr Hcap Hfit Hts Hsave Hok) as (b' & Hb' & Hr' & Hid).
  exists b'. split; [done|]. split; [|done]. by apply get_all_spec.
Qed.

(** ** Witnesses *)
Section witnesses.
Import PlainJson.

Definition two_names : board_config := BoardConfig "names.json" 2.

Definition arrivals : list board_call :=
  [CallAdd "alice" 10; CallAdd "bob" 11; CallContains "alice"; CallAdd "alice" 12].

Definition board_after (cs : list board_call) : nameboard :=
  match board_steps two_names cs empty_nameboard with Returns (_, b) => b | _ => empty_nameboard end.

Definition rows_after (cs : list board_call) : list entry :=
  rows (spec_steps two_names cs (RankedNames [] 0)).2.

Lemma nb_board_steps_after cs :
  board_steps two_names cs empty_nameboard
    = Returns ((spec_steps two_names cs (RankedNames [] 0)).1, board_after cs)
  ∧ represents (board_after cs) (rows_after cs).
Proof.
  pose proof (nb_board_steps_spec two_names cs empty_nameboard [] represents_empty) as Hs.
  unfold board_after, rows_after. simpl in Hs. destruct (spec_steps _ _ _) as [rs a].
  by destruct Hs as (b' & -> & Hr & _).
Qed.

Definition saved_files (cs : list board_call) : save_result :=
  match save two_names quiet_disk ∅ (board_after cs) with Returns r => r | _ => SaveResult [] false end.

Lemma nb_save_after cs : save two_names quiet_disk ∅ (board_after cs) = Returns (saved_files cs).
Proof.
  unfold saved_files, save. by rewrite (get_all_spec _ _ (proj2 (nb_board_steps_after cs))).
Qed.

Lemma nameboard_calls_refine_ranked_list_witness :
  ∃ b l, make_nameboard two_names true ∅ = Returns b ∧ represents b l ∧ (zlen l ≤ max_size two_names)%Z
    ∧ let '(rs, a) := spec_steps two_names arrivals (RankedNames l (next_id b)) in
      ∃ b', board_steps two_names arrivals b = Returns (rs, b') ∧ represents b' (rows a).
Proof. apply (nameboard_calls_refine_ranked_list two_names true ∅ arrivals). done. Defined.

Lemma nameboard_is_chronological_witness :
  let cs := arrivals ++ [CallAdd "carol" 12] in
  ∃ es, get_all (board_after cs) = Returns es
    ∧ name <$> es = chronicle 2 (adds_of cs).*1 []
    ∧ NoDup (name <$> es) ∧ (zlen es ≤ 2)%Z.
Proof.
  intros cs.
  apply (nameboard_is_chronological two_names true ∅ cs 10 empty_nameboard (board_after cs)
    (spec_steps two_names cs (RankedNames [] 0)).1).
  - done.
  - done.
  - vm_compute. repeat split; discriminate.
  - vm_compute. reflexivity.
  - done.
  - apply nb_board_steps_after.
Defined.

Example oldest_name_left : chronicle 2 (adds_of (arrivals ++ [CallAdd "carol" 12])).*1 [] = ["bob"; "carol"].
Proof. reflexivity. Qed.

Lemma full_board_reports_position_past_end_witness :
  ∃ i b' l', add_name two_names "carol" 12 (board_after arrivals) = Returns (Some i, b')
    ∧ represents b' l' ∧ i = length l'
    ∧ l' !! pred i = Some (Entry "carol" 12 (next_id (board_after arrivals))).
Proof.
  apply (full_board_reports_position_past_end two_names (board_after arrivals) (rows_after arrivals)).
  - apply nb_board_steps_after.
  - done.
  - vm_compute. reflexivity.
  - vm_compute. intros Hin. by repeat apply elem_of_cons in Hin as [[=]|Hin]; apply elem_of_nil in Hin.
  - apply (λ H1 H2 H3 H4, InTimeOrder 12 2 (RankedNames (rows_after arrivals) _) H1 H2 H3 H4).
    + apply Forall_forall. vm_compute. repeat constructor; discriminate.
    + apply Forall_forall. vm_compute. repeat constructor.
    + apply (bool_decide_eq_true_1 _). vm_compute. reflexivity.
    + vm_compute. discriminate.
  - vm_compute. discriminate.
  - vm_compute. reflexivity.
Defined.

Lemma nameboard_survives_restart_witness :
  ∃ b', make_nameboard two_names true (final_files ∅ (saved_files arrivals)) = Returns b'
    ∧ get_all b' = Returns (renumbered (rows_after arrivals)) ∧ next_id b' = zlen (rows_after arrivals).
Proof.
  apply (nameboard_survives_restart two_names (board_after arrivals) (rows_after arrivals) quiet_disk ∅
    (saved_files arrivals)).
  - apply nb_board_steps_after.
  - vm_compute. discriminate.
  - vm_compute. reflexivity.
  - apply (bool_decide_eq_true_1 _). vm_compute. reflexivity.
  - apply nb_save_after.
  - vm_compute. reflexivity.
Defined.
End witnesses.
