(* ===== verification/ScoreStream.v ===== *)
(** * The score stream: [src/data_structures/global_boards/score_stream.hpp]

    A [std::deque] of entries, the newest first, cut to [max_size] from the
    back. *)
From S2P Require Import Prelude Ranking Json Entry.

Definition DEFAULT_MAX_SCORE_STREAM_SIZE : Z := 300.

Section score_stream.
Context `{Score}.

(** The deque from front to back. *)
Record score_stream := ScoreStream { next_id : Z; entries : list score_stream_entry }.
Implicit Types (s : score_stream) (cfg : board_config) (now : Z).

(** [while (entries.size() > max_size) entries.pop_back()], at most [fuel] turns;
    [None]: more are needed. *)
Fixpoint pop_while (fuel : nat) (max : Z) (es : list score_stream_entry) : option (list score_stream_entry) :=
  if (max <? zlen es)%Z then
    match fuel with
    | 0 => None
    | S fuel' => pop_while fuel' max (removelast es)
    end
  else Some es.

(** [submit_score]; [next_id] is not advanced. *)
Definition submit_score cfg (nm : string) (sc : score) now s : option score_stream :=
  let e := ScoreStreamEntry (Entry nm now (next_id s)) sc in
  let pushed := e :: entries s in
  match pop_while (length pushed) (max_size cfg) pushed with
  | Some es => Some (ScoreStream (next_id s) es)
  | None => None
  end.

(** ** Queries *)
Definition size s : Z := zlen (entries s).

Definition get_all s : list score_stream_entry := entries s.

Definition get_from_first (amount : Z) s : list score_stream_entry :=
  let all := get_all s in
  if (amount <? zlen all)%Z then take (Z.to_nat amount) all else all.

(** [{all.begin() + i, all.begin() + j}]. *)
Definition sub_vector (i j : Z) (all : list score_stream_entry) : list score_stream_entry :=
  drop (Z.to_nat i) (take (Z.to_nat j) all).

Definition get_in_range_from_top (start stop : Z) s : list score_stream_entry :=
  let all := get_all s in
  if (zlen all <=? start)%Z || (stop <=? start)%Z then []
  else sub_vector start (Z.min stop (zlen all)) all.

Definition get_in_range_from_bottom (start stop : Z) s : list score_stream_entry :=
  let all := get_all s in
  if (zlen all <=? start)%Z || (stop <=? start)%Z then []
  else
    let stop' := Z.min stop (zlen all) in
    sub_vector (zlen all - stop') (zlen all - start) all.

(** ** Persistence *)
Definition saved_item (e : score_stream_entry) : json :=
  json_object [("name", json_string (name (ss_entry e))); ("score", json_of_score (ss_score e));
    ("timestamp", json_int (timestamp (ss_entry e)))].

(** From the oldest entry to the newest. *)
Definition save cfg (ev : disk_events) (fs : gmap string text) s : save_result :=
  save_json (file_path cfg) (push_all (saved_item <$> reverse (get_all s)) empty_array) ev fs.

Definition item_entry (item : json) (i : Z) : outcome score_stream_entry :=
  match at_key "name" item ≫= get_string with
  | None => Throws "name"
  | Some n =>
      match at_key "score" item ≫= score_of_json with
      | None => Throws "score"
      | Some sc =>
          match at_key "timestamp" item ≫= get_int64 with
          | None => Throws "timestamp"
          | Some t => Returns (ScoreStreamEntry (Entry n t i) sc)
          end
      end
  end.

(** The loop of [load] on its local variables; [None]: [return false]. *)
Fixpoint load_loop cfg (item_count : Z) (js : list json) s : outcome (option score_stream) :=
  match js with
  | [] => Returns (Some s)
  | item :: js' =>
      let item_count' := (item_count + 1)%Z in
      if (max_size cfg <? item_count')%Z then Returns (Some s)
      else if negb (is_object item) then Returns None
      else
        let! e := item_entry item (next_id s) in
        load_loop cfg item_count' js' (ScoreStream (u64 (next_id s + 1)) (e :: entries s))
  end.

Definition load cfg (readable : bool) (fs : gmap string text) s : bool * score_stream :=
  match read_items (file_path cfg) readable fs with
  | None => (false, s)
  | Some js =>
      match load_loop cfg 0 js (ScoreStream 0 []) with
      | Returns (Some s') => (true, s')
      | _ => (false, s)
      end
  end.

(** The constructor. *)
Definition make_score_stream cfg (readable : bool) (fs : gmap string text) : score_stream :=
  (load cfg readable fs (ScoreStream 0 [])).2.

(** A sequence of submissions. *)
Fixpoint submit_all cfg (subs : list (string * score * Z)) s : option score_stream :=
  match subs with
  | [] => Some s
  | (nm, sc, now) :: subs' => submit_score cfg nm sc now s ≫= submit_all cfg subs'
  end.
End score_stream.

Section lemmas.
Context `{!Json} `{!JsonLaws} `{!Score} `{!ScoreLaws}.
Implicit Types (s : score_stream) (cfg : board_config) (es : list score_stream_entry).

(** The loop terminates and leaves the first [max] entries. *)
Lemma pop_while_take fuel max es :
  (0 ≤ max)%Z → length es ≤ fuel → pop_while fuel max es = Some (take (Z.to_nat max) es).
Proof.
  intros Hmax. revert es. induction fuel as [|fuel IH]; intros es Hfuel; simpl.
  - destruct es; [|simpl in Hfuel; lia]. rewrite take_nil. destruct (Z.ltb_spec max (zlen (@nil score_stream_entry))); [|done].
    unfold zlen in *. simpl in *. lia.
  - destruct (Z.ltb_spec max (zlen es)) as [Hlt|Hge]; unfold zlen in *.
    + destruct es as [|e es _] using rev_ind; [simpl in Hlt; lia|].
      rewrite length_app in *. simpl in *. rewrite removelast_last, IH by lia.
      by rewrite take_app_le by lia.
    + by rewrite take_ge by lia.
Qed.

Lemma ss_submit_score_spec cfg nm sc now s :
  (0 ≤ max_size cfg)%Z →
  submit_score cfg nm sc now s
    = Some (ScoreStream (next_id s)
        (take (Z.to_nat (max_size cfg)) (ScoreStreamEntry (Entry nm now (next_id s)) sc :: entries s))).
Proof. intros Hmax. unfold submit_score. by rewrite pop_while_take by (done || lia). Qed.

Definition entry_of (i : Z) (sub : string * score * Z) : score_stream_entry :=
  ScoreStreamEntry (Entry sub.1.1 sub.2 i) sub.1.2.

Lemma submit_all_spec cfg subs s :
  (0 ≤ max_size cfg)%Z → (zlen (entries s) ≤ max_size cfg)%Z →
  submit_all cfg subs s
    = Some (ScoreStream (next_id s)
        (take (Z.to_nat (max_size cfg)) (reverse (entry_of (next_id s) <$> subs) ++ entries s))).
Proof.
  intros Hmax. revert s. induction subs as [|[[nm sc] now] subs IH]; intros s Hfit; simpl.
  - rewrite take_ge; [by destruct s|]. unfold zlen in *. simpl. lia.
  - rewrite ss_submit_score_spec by done. simpl. rewrite IH.
    + simpl. f_equal. f_equal. rewrite reverse_cons, <-app_assoc. simpl.
      rewrite !take_app, !length_reverse, take_take. f_equal. f_equal.
      change (ScoreStreamEntry (Entry nm now (next_id s)) sc) with (entry_of (next_id s) (nm, sc, now)).
      by rewrite Nat.min_l by lia.
    + simpl. unfold zlen. rewrite length_take. lia.
Qed.

Lemma ss_saved_item_entry e i :
  is_i64 (timestamp (ss_entry e)) →
  is_object (saved_item e) = true
  ∧ item_entry (saved_item e) i
    = Returns (ScoreStreamEntry (Entry (name (ss_entry e)) (timestamp (ss_entry e)) i) (ss_score e)).
Proof.
  intros Ht. split; [apply is_object_object|]. unfold item_entry, saved_item.
  destruct (at_key_three "name" "score" "timestamp" (json_string (name (ss_entry e)))
    (json_of_score (ss_score e)) (json_int (timestamp (ss_entry e)))) as (-> & -> & ->); [done..|].
  simpl. by rewrite get_string_string, score_json, get_int64_int.
Qed.

Lemma ss_saved_item_finite e : finite (saved_item e).
Proof.
  apply finite_object. simpl.
  repeat (constructor; auto using finite_string, finite_int, score_finite).
Qed.

(** An entry as it comes back, with the id it gets. *)
Definition reloaded (i : Z) (e : score_stream_entry) : score_stream_entry :=
  ScoreStreamEntry (Entry (name (ss_entry e)) (timestamp (ss_entry e)) i) (ss_score e).

Lemma ss_load_loop_items cfg es count s :
  (count ≤ max_size cfg)%Z → (0 ≤ next_id s)%Z → (next_id s + zlen es < two64)%Z →
  Forall (λ e, is_i64 (timestamp (ss_entry e))) es →
  let kept := take (Z.to_nat (max_size cfg - count)) es in
  load_loop cfg count (saved_item <$> es) s
    = Returns (Some (ScoreStream (next_id s + zlen kept)
        (reverse (imap (λ k, reloaded (next_id s + Z.of_nat k)) kept) ++ entries s))).
Proof.
  intros Hcount Hnn Hfit Hts. cbv zeta. revert count s Hcount Hnn Hfit.
  induction Hts as [|e es Ht Hts IH]; intros count s Hcount Hnn Hfit; simpl.
  { rewrite take_nil. simpl. rewrite zlen_nil, Z.add_0_r. by destruct s. }
  rewrite zlen_cons in Hfit. pose proof (zlen_nonneg es).
  destruct (Z.ltb_spec (max_size cfg) (count + 1)).
  { replace (Z.to_nat (max_size cfg - count)) with 0 by lia. simpl. rewrite zlen_nil, Z.add_0_r. by destruct s. }
  destruct (ss_saved_item_entry e (next_id s) Ht) as [-> ->]. simpl.
  rewrite u64_small by (unfold is_u64; lia). rewrite IH by (simpl; lia). simpl.
  replace (Z.to_nat (max_size cfg - count)) with (S (Z.to_nat (max_size cfg - (count + 1)))) by lia.
  simpl. rewrite zlen_cons, reverse_cons, <-app_assoc, Z.add_0_r. simpl. f_equal. f_equal. f_equal; [lia|].
  f_equal. f_equal. apply imap_ext. intros k x _. simpl. f_equal. lia.
Qed.
End lemmas.

(** ** Properties *)

(** C36. A score stream that started without a file holds, after any submissions,
    exactly the last [max_size] of them, the newest first; every [submit_score]
    returns (its loop terminates), and all entries carry the same id, since
    [next_id] is never advanced. *)
Theorem score_stream_holds_latest `{Score} (cfg : board_config) (readable : bool)
    (fs : gmap string text) (subs : list (string * score * Z)) :
  (0 ≤ max_size cfg)%Z → fs !! file_path cfg = None →
  ∃ s', submit_all cfg subs (make_score_stream cfg readable fs) = Some s'
    ∧ get_all s' = take (Z.to_nat (max_size cfg)) (reverse (entry_of 0 <$> subs)).
Proof.
  intros Hmax Hnone. unfold make_score_stream, load, read_items. rewrite Hnone. simpl.
  rewrite submit_all_spec by (unfold zlen; simpl; lia). eexists. split; [done|]. simpl.
  by rewrite app_nil_r.
Qed.

(** The range queries of a score stream: from the top, positions [start] to
    [stop] of the stream; from the bottom, the same positions counted from the
    oldest entry, in stream order. *)
Theorem score_stream_queries `{Score} (s : score_stream) (start stop amount : Z) :
  (0 ≤ start)%Z → (0 ≤ stop)%Z →
  get_from_first amount s = take (Z.to_nat amount) (get_all s)
  ∧ get_in_range_from_top start stop s = slice start stop (get_all s)
  ∧ get_in_range_from_bottom start stop s = reverse (slice start stop (reverse (get_all s))).
Proof.
  intros Hstart Hstop. unfold get_from_first, get_in_range_from_top, get_in_range_from_bottom, slice,
    sub_vector, zlen. set (all := get_all s). split_and!.
  - destruct (Z.ltb_spec amount (Z.of_nat (length all))); [done|]. by rewrite take_ge by lia.
  - destruct (Z.leb_spec (Z.of_nat (length all)) start); simpl.
    { rewrite drop_ge by lia. by rewrite take_nil. }
    destruct (Z.leb_spec stop start); simpl.
    { by replace (Z.to_nat stop - Z.to_nat start) with 0 by lia. }
    rewrite skipn_firstn_comm. destruct (decide (Z.to_nat stop ≤ length all)).
    + f_equal. lia.
    + rewrite !take_ge; rewrite ?length_drop; try lia. done.
  - destruct (Z.leb_spec (Z.of_nat (length all)) start); simpl.
    { rewrite drop_ge by (rewrite length_reverse; lia). by rewrite take_nil. }
    destruct (Z.leb_spec stop start); simpl.
    { by replace (Z.to_nat stop - Z.to_nat start) with 0 by lia. }
    rewrite drop_reverse, take_reverse, reverse_involutive, length_take.
    f_equal; [lia|]. f_equal. lia.
Qed.

(** Name, score and time: what the file records of an entry. *)
Definition recorded `{Score} (e : score_stream_entry) : string * score * Z :=
  (name (ss_entry e), ss_score e, timestamp (ss_entry e)).

(** C37. A score stream survives a restart: once [save] has returned [true], a
    stream constructed on the files it left holds the same names, scores and
    times in the same order.  When its capacity [max_size cfg'] is smaller than
    the saved stream, it is the oldest entries that it keeps. *)
Theorem score_stream_survives_restart `{!Json} `{!JsonLaws} `{!Score} `{!ScoreLaws}
    (cfg cfg' : board_config) (s : score_stream) (ev : disk_events) (fs : gmap string text) :
  file_path cfg' = file_path cfg → (0 ≤ max_size cfg')%Z → (zlen (get_all s) < two64)%Z →
  Forall (λ e, is_i64 (timestamp (ss_entry e))) (get_all s) →
  saved (save cfg ev fs s) = true →
  let s' := make_score_stream cfg' true (final_files fs (save cfg ev fs s)) in
  recorded <$> get_all s' = recorded <$> drop (length (get_all s) - Z.to_nat (max_size cfg')) (get_all s)
  ∧ next_id s' = zlen (get_all s').
Proof.
  intros Hpath Hmax Hfit Hts Hok. cbv zeta. unfold make_score_stream, load.
  rewrite Hpath. unfold save in *. rewrite (read_items_saved _ (saved_item <$> reverse (get_all s)) ev fs _
    ltac:(apply Forall_fmap, Forall_forall; intros; apply ss_saved_item_finite) Hok eq_refl).
  rewrite ss_load_loop_items; [|done|done| |by apply Forall_reverse].
  2:{ unfold zlen in *. rewrite length_reverse. simpl. lia. }
  simpl. rewrite app_nil_r, Z.sub_0_r. split.
  - rewrite fmap_reverse, fmap_imap, take_reverse.
    rewrite (imap_ext _ (const recorded)) by done. by rewrite imap_const, fmap_reverse, reverse_involutive.
  - unfold zlen. by rewrite length_reverse, length_imap.
Qed.

(** ** Witnesses *)
Section witnesses.
Import PlainJson IntScore.

Definition two_scores : board_config := BoardConfig "scores.json" 2.

Definition sample_submissions : list (string * score * Z) :=
  [("alice", points 100, 10%Z); ("bob", points 200, 11%Z); ("alice", points 300, 12%Z)].

Definition sample_stream : score_stream :=
  default (ScoreStream 0 []) (submit_all two_scores sample_submissions (ScoreStream 0 [])).

Lemma score_stream_holds_latest_witness :
  ∃ s', submit_all two_scores sample_submissions (make_score_stream two_scores true ∅) = Some s'
    ∧ get_all s' = [entry_of 0 ("alice", points 300, 12%Z); entry_of 0 ("bob", points 200, 11%Z)].
Proof. apply (score_stream_holds_latest two_scores true ∅ sample_submissions); done. Defined.

Lemma score_stream_queries_witness :
  get_from_first 1 sample_stream = take 1 (get_all sample_stream)
  ∧ get_in_range_from_top 0 1 sample_stream = slice 0 1 (get_all sample_stream)
  ∧ get_in_range_from_bottom 0 1 sample_stream = reverse (slice 0 1 (reverse (get_all sample_stream))).
Proof. apply (score_stream_queries sample_stream 0 1 1); done. Defined.

Lemma score_stream_survives_restart_witness :
  let s' := make_score_stream (BoardConfig "scores.json" 1) true
    (final_files ∅ (save two_scores quiet_disk ∅ sample_stream)) in
  recorded <$> get_all s' = [("bob", points 200, 11%Z)] ∧ next_id s' = zlen (get_all s').
Proof.
  apply (score_stream_survives_restart two_scores (BoardConfig "scores.json" 1) sample_stream quiet_disk ∅).
  - done.
  - done.
  - vm_compute. reflexivity.
  - apply (bool_decide_eq_true_1 _). vm_compute. reflexivity.
  - vm_compute. reflexivity.
Defined.
End witnesses.
