(* ===== verification/BoardTests.v ===== *)
(** * The tests of the boards: [src/testing/tests/data_structures_test.cpp]

    Evaluated on the model, with integer scores, over the plain JSON values of
    [Json.v], on an empty directory and a disk without failures; the clock of a
    call is written out.  A test of the source and its counterpart here have the
    same name, after the board where several tests share one. *)
From S2P Require Import Prelude Json Entry Leaderboard BestScores Nameboard ScoreStream.
Import PlainJson IntScore.
#[local] Open Scope Z_scope.

(** ** Leaderboard *)
Module LeaderboardTests.
Import Leaderboard.

Definition config (max_size : Z) : board_config := BoardConfig "leaderboard.json" max_size.

(** [board.submit_score(player, score)]. *)
Definition submit (player : string) (sc now : Z) : Leaderboard.board_call :=
  Leaderboard.CallSubmit junk0 player (points sc) now.

(** The results of the calls of a test, on the board its constructor makes. *)
Definition results (cfg : board_config) (files : gmap string text) (cs : list Leaderboard.board_call) :=
  let! b := make_leaderboard cfg true true files in
  let! ' (rs, b') := Leaderboard.board_steps cfg cs b in
  Returns ((λ r, match r with
                 | Leaderboard.Placed r => ([], if r.1 then 1 else 0)
                 | Leaderboard.Entries es => (names_and_scores es, zlen es)
                 | Leaderboard.Size n => ([], n)
                 end) <$> rs, b').

(** What a test expects of a call: the entries it gives, in order, or whether
    the submission was placed (1) or not (0), or the size. *)
Definition expected (cfg : board_config) (files : gmap string text) (cs : list Leaderboard.board_call)
    : outcome (list (list (string * Z) * Z)) :=
  let! ' (rs, _) := results cfg files cs in Returns rs.

Example RanksHighestScoreFirst :
  expected (config DEFAULT_MAX_LEADERBOARD_SIZE) ∅
    [submit "alice" 100 10; submit "bob" 200 10; Leaderboard.CallTop 2]
  = Returns [([], 1); ([], 1); ([("bob", 200); ("alice", 100)], 2)].
Proof. by vm_compute. Qed.

Example WorseScoreDoesNotReplaceExistingScore :
  expected (config DEFAULT_MAX_LEADERBOARD_SIZE) ∅
    [submit "alice" 100 10; submit "alice" 50 10; Leaderboard.CallTop 1]
  = Returns [([], 1); ([], 0); ([("alice", 100)], 1)].
Proof. by vm_compute. Qed.

Example CapacityRejectsScoresBelowWorst :
  expected (config 2) ∅
    [submit "alice" 100 10; submit "bob" 200 10; submit "charlie" 50 11; Leaderboard.CallSize]
  = Returns [([], 1); ([], 1); ([], 0); ([], 2)].
Proof. by vm_compute. Qed.

(** The files after the first block. *)
Definition saved_leaderboard : outcome save_result :=
  let cfg := config DEFAULT_MAX_LEADERBOARD_SIZE in
  let! ' (_, b) := results cfg ∅ [submit "alice" 100 10; submit "bob" 200 10] in
  Leaderboard.save cfg quiet_disk ∅ b.

Example leaderboard_SavesAndReloads :
  (let! r := saved_leaderboard in
   let! rs := expected (config DEFAULT_MAX_LEADERBOARD_SIZE) (final_files ∅ r) [Leaderboard.CallTop 2] in
   Returns (saved r, rs))
  = Returns (true, [([("bob", 200); ("alice", 100)], 2)]).
Proof. by vm_compute. Qed.
End LeaderboardTests.

(** ** Nameboard *)
Module NameboardTests.
Definition config (max_size : Z) : board_config := BoardConfig "names.json" max_size.

Definition results (cfg : board_config) (files : gmap string text) (cs : list Nameboard.board_call) :=
  let! b := make_nameboard cfg true files in Nameboard.board_steps cfg cs b.

(** Whether each name was placed, and then what the queries answer. *)
Definition expected (cfg : board_config) (files : gmap string text) (cs : list Nameboard.board_call)
    : outcome (list Z) :=
  let! ' (rs, _) := results cfg files cs in
  Returns ((λ r, match r with
                 | Nameboard.Placed r => if r then 1 else 0
                 | Nameboard.Contained b => if b : bool then 1 else 0
                 | Nameboard.Entries es => zlen es
                 | Nameboard.Size n => n
                 end) <$> rs).

Example AddsAndRanksNames :
  expected (config DEFAULT_MAX_NAMEBOARD_SIZE) ∅
    [Nameboard.CallAdd "alice" 10; Nameboard.CallAdd "bob" 10; Nameboard.CallContains "alice";
     Nameboard.CallContains "bob"; Nameboard.CallSize]
  = Returns [1; 1; 1; 1; 2].
Proof. by vm_compute. Qed.

(** The oldest name makes room. *)
Example nameboard_EnforcesMaximumSize :
  expected (config 2) ∅
    [Nameboard.CallAdd "alice" 10; Nameboard.CallAdd "bob" 10; Nameboard.CallAdd "charlie" 10;
     Nameboard.CallContains "alice"; Nameboard.CallSize]
  = Returns [1; 1; 1; 0; 2].
Proof. by vm_compute. Qed.

Definition saved_nameboard : outcome save_result :=
  let cfg := config DEFAULT_MAX_NAMEBOARD_SIZE in
  let! ' (_, b) := results cfg ∅ [Nameboard.CallAdd "alice" 10; Nameboard.CallAdd "bob" 10] in
  Nameboard.save cfg quiet_disk ∅ b.

Example nameboard_SavesAndReloads :
  (let! r := saved_nameboard in
   let! rs := expected (config DEFAULT_MAX_NAMEBOARD_SIZE) (final_files ∅ r)
     [Nameboard.CallContains "alice"; Nameboard.CallContains "bob"; Nameboard.CallSize] in
   Returns (saved r, rs))
  = Returns (true, [1; 1; 2]).
Proof. by vm_compute. Qed.
End NameboardTests.

(** ** Score stream *)
Module ScoreStreamTests.
Definition config (max_size : Z) : board_config := BoardConfig "scores.json" max_size.

(** [stream.submit_score(name, score)] for each pair, at time 10. *)
Definition stream_after (cfg : board_config) (files : gmap string text) (submitted : list (string * Z)) : score_stream :=
  default (make_score_stream cfg true files)
    (submit_all cfg ((λ p, (p.1, points p.2, 10)) <$> submitted) (make_score_stream cfg true files)).

Definition rows (s : score_stream) : list (string * Z) :=
  (λ e, (name (ss_entry e), ss_score e)) <$> get_all s.

Example NewScoresAppearAtFront :
  rows (stream_after (config DEFAULT_MAX_SCORE_STREAM_SIZE) ∅ [("alice", 100); ("bob", 200)])
  = [("bob", 200); ("alice", 100)].
Proof. by vm_compute. Qed.

Example stream_EnforcesMaximumSize :
  let s := stream_after (config 2) ∅ [("alice", 100); ("bob", 200); ("charlie", 300)] in
  ScoreStream.size s = 2 ∧ (rows s).*2 = [300; 200].
Proof. by vm_compute. Qed.

Example stream_SavesAndReloads :
  let cfg := config DEFAULT_MAX_SCORE_STREAM_SIZE in
  let r := ScoreStream.save cfg quiet_disk ∅ (stream_after cfg ∅ [("alice", 100); ("bob", 200)]) in
  saved r = true ∧ (rows (make_score_stream cfg true (final_files ∅ r))).*2 = [200; 100].
Proof. by vm_compute. Qed.
End ScoreStreamTests.
