(* ===== verification/ThreadSafeMap.v ===== *)
(** * The thread-safe map: [src/data_structures/thread_safe/thread_safe_unordered_map.hpp]
    and [src/data_structures/thread_safe/locked_value.hpp]

    The member functions on the map the mutex guards, the [locked_value] that
    carries the mutex out of a call, and threads that use both.  A reference to
    a mapped value is its key: [std::unordered_map] keeps references to other
    elements valid, and elements are only erased with the mutex held. *)
From S2P Require Import Prelude.

Section map.
Context `{Countable K} {V : Type}.
Implicit Types (m : gmap K V) (k : K) (v : V).

(** ** Member functions

    [insert] and [emplace] have a copying and a moving overload, with the same
    effect on the map. *)
Definition insert k v m : gmap K V := <[k := v]> m.

Definition emplace k v m : bool * gmap K V :=
  match m !! k with
  | Some _ => (false, m)
  | None => (true, <[k := v]> m)
  end.

Definition get k m : outcome V :=
  match m !! k with
  | Some v => Returns v
  | None => Throws "Key not found - thread_safe_map"
  end.

(** The returned boolean, and the value assigned to the reference argument. *)
Definition try_get k m : bool * option V :=
  match m !! k with
  | Some v => (true, Some v)
  | None => (false, None)
  end.

Definition erase k m : bool * gmap K V :=
  (match m !! k with Some _ => true | None => false end, delete k m).

Definition contains k m : bool := match m !! k with Some _ => true | None => false end.

Definition size m : Z := Z.of_nat (base.size m).

Definition empty m : bool := Nat.eqb (base.size m) 0.

Definition clear m : gmap K V := ∅.

Definition snapshot m : gmap K V := m.

Definition extract k m : outcome (V * gmap K V) :=
  match m !! k with
  | Some v => Returns (v, delete k m)
  | None => Throws "Key not found"
  end.

(** [for_each], in the iteration order [order] of the table; [function] may
    assign to the value it is given.  The pairs the callback saw are returned. *)
Fixpoint for_each (function : K → V → V) (order : list K) m : list (K * V) * gmap K V :=
  match order with
  | [] => ([], m)
  | k :: order' =>
      match m !! k with
      | Some v =>
          let '(seen, m') := for_each function order' (<[k := function k v]> m) in
          ((k, v) :: seen, m')
      | None => for_each function order' m
      end
  end.

Definition try_emplace k v m : bool * gmap K V := emplace k v m.

(** An iteration order visits every key once. *)
Definition iteration_order (order : list K) m : Prop := NoDup order ∧ ∀ k, k ∈ order ↔ is_Some (m !! k).

(** ** Calls *)
Inductive map_call :=
  | CallInsert k v
  | CallEmplace k v
  | CallGet k
  | CallTryGet k
  | CallErase k
  | CallContains k
  | CallSize
  | CallEmpty
  | CallClear
  | CallSnapshot
  | CallExtract k
  | CallForEach (function : K → V → V) (order : list K)
  | CallTryEmplace k v.

Inductive map_result :=
  | Done
  | Answer (b : bool)
  | Value v
  | Found (r : bool * option V)
  | Count (n : Z)
  | Copy m
  | Seen (l : list (K * V))
  | Thrown (what : string).

Definition call (c : map_call) m : map_result * gmap K V :=
  match c with
  | CallInsert k v => (Done, insert k v m)
  | CallEmplace k v => let '(b, m') := emplace k v m in (Answer b, m')
  | CallGet k => (match get k m with Returns v => Value v | Throws w => Thrown w | Undefined => Done end, m)
  | CallTryGet k => (Found (try_get k m), m)
  | CallErase k => let '(b, m') := erase k m in (Answer b, m')
  | CallContains k => (Answer (contains k m), m)
  | CallSize => (Count (size m), m)
  | CallEmpty => (Answer (empty m), m)
  | CallClear => (Done, clear m)
  | CallSnapshot => (Copy (snapshot m), m)
  | CallExtract k =>
      match extract k m with
      | Returns (v, m') => (Value v, m')
      | Throws w => (Thrown w, m)
      | Undefined => (Done, m)
      end
  | CallForEach f order => let '(l, m') := for_each f order m in (Seen l, m')
  | CallTryEmplace k v => let '(b, m') := try_emplace k v m in (Answer b, m')
  end.

(** ** [locked_value]

    Whether its [unique_lock] owns the mutex, and the mapped value it points
    to.  Moving transfers the lock; the pointer is only copied. *)
Record locked_value := LockedValue { owns_lock : bool; value : K }.

Definition moved_to (lv : locked_value) : locked_value := lv.

Definition moved_from (lv : locked_value) : locked_value := LockedValue false (value lv).

(** [get_locked] and [try_emplace_locked], with the lock taken: the
    [locked_value] that takes the lock over. *)
Definition get_locked k m : outcome locked_value :=
  match m !! k with
  | Some _ => Returns (LockedValue true k)
  | None => Throws "Key not found - thread_safe_map"
  end.

Definition try_emplace_locked k v m : locked_value * bool * gmap K V :=
  let '(inserted, m') := try_emplace k v m in (LockedValue true k, inserted, m').

(** [operator bool]: the pointer is never null. *)
Definition tests_true (lv : locked_value) : bool := true.

(** ** Threads

    [owner] is the thread that holds the mutex.  Each thread has variables of
    type [locked_value].  [section] is a history variable: the key that the
    owner has locked, its value at that time, and the accesses made through the
    [locked_value] since. *)
Inductive access := Read v | Write v.

Record system := System {
  contents : gmap K V;
  owner : option nat;
  variables : gmap (nat * nat) locked_value;
  section : option (K * V * list access)
}.
Implicit Types (s : system) (t x y : nat).

Inductive event :=
  | Called t (c : map_call) (r : map_result)
  | Section t k (accesses : list access)
  | Emplaced t k v (inserted : bool)
  | LockFailed t k.

(** A thread's step, with the event it makes visible. *)
Inductive system_step : system → option event → system → Prop :=
  | step_call t c r m' s :
      owner s = None → call c (contents s) = (r, m') →
      match c with CallForEach _ order => iteration_order order (contents s) | _ => True end →
      system_step s (Some (Called t c r)) (System m' None (variables s) (section s))
  | step_get_locked t x k v lv s :
      owner s = None → get_locked k (contents s) = Returns lv → contents s !! k = Some v →
      variables s !! (t, x) = None →
      system_step s None
        (System (contents s) (Some t) (<[(t, x) := lv]> (variables s)) (Some (k, v, [])))
  | step_get_locked_throws t k w s :
      owner s = None → get_locked k (contents s) = Throws w → system_step s (Some (LockFailed t k)) s
  | step_try_emplace_locked t x k v v' lv inserted m' s :
      owner s = None → try_emplace_locked k v (contents s) = (lv, inserted, m') → m' !! k = Some v' →
      variables s !! (t, x) = None →
      system_step s (Some (Emplaced t k v inserted))
        (System m' (Some t) (<[(t, x) := lv]> (variables s)) (Some (k, v', [])))
  | step_read t x lv v k0 v0 accs s :
      variables s !! (t, x) = Some lv → owns_lock lv = true → contents s !! value lv = Some v →
      section s = Some (k0, v0, accs) →
      system_step s None (System (contents s) (owner s) (variables s) (Some (k0, v0, accs ++ [Read v])))
  | step_write t x lv v k0 v0 accs s :
      variables s !! (t, x) = Some lv → owns_lock lv = true → section s = Some (k0, v0, accs) →
      system_step s None
        (System (<[value lv := v]> (contents s)) (owner s) (variables s) (Some (k0, v0, accs ++ [Write v])))
  | step_move t x y lv s :
      variables s !! (t, x) = Some lv → variables s !! (t, y) = None →
      system_step s None
        (System (contents s) (owner s)
           (<[(t, x) := moved_from lv]> (<[(t, y) := moved_to lv]> (variables s))) (section s))
  | step_destroy_owner t x lv k0 v0 accs s :
      variables s !! (t, x) = Some lv → owns_lock lv = true → section s = Some (k0, v0, accs) →
      system_step s (Some (Section t k0 accs))
        (System (contents s) None (delete (t, x) (variables s)) None)
  | step_destroy_moved t x lv s :
      variables s !! (t, x) = Some lv → owns_lock lv = false →
      system_step s None (System (contents s) (owner s) (delete (t, x) (variables s)) (section s)).

(** The visible events of a run, in order. *)
Inductive run : system → list event → system → Prop :=
  | run_refl s : run s [] s
  | run_silent s1 s2 s3 es : run s1 es s2 → system_step s2 None s3 → run s1 es s3
  | run_event s1 s2 s3 es e : run s1 es s2 → system_step s2 (Some e) s3 → run s1 (es ++ [e]) s3.

Definition initial_system m : system := System m None ∅ None.

(** ** The specification: every call and every locked section is atomic *)

(** Accesses to one variable, from its first value to its last. *)
Inductive accesses_run : V → list access → V → Prop :=
  | accesses_nil v : accesses_run v [] v
  | accesses_read v accs v' : accesses_run v accs v' → accesses_run v (accs ++ [Read v']) v'
  | accesses_write v accs v' w : accesses_run v accs v' → accesses_run v (accs ++ [Write w]) w.

Inductive atomic_step : gmap K V → event → gmap K V → Prop :=
  | atomic_call t c r m m' : call c m = (r, m') → atomic_step m (Called t c r) m'
  | atomic_section t k v v' accs m :
      m !! k = Some v → accesses_run v accs v' → atomic_step m (Section t k accs) (<[k := v']> m)
  | atomic_emplace t k v b m m' : emplace k v m = (b, m') → atomic_step m (Emplaced t k v b) m'
  | atomic_lock_failed t k m : m !! k = None → atomic_step m (LockFailed t k) m.

Inductive atomic_run : gmap K V → list event → gmap K V → Prop :=
  | atomic_refl m : atomic_run m [] m
  | atomic_snoc m1 m2 m3 es e : atomic_run m1 es m2 → atomic_step m2 e m3 → atomic_run m1 (es ++ [e]) m3.

(** What the specification has while a section is open: the value at its start. *)
Definition committed s : gmap K V :=
  match section s with
  | Some (k, v, _) => <[k := v]> (contents s)
  | None => contents s
  end.

(** The mutex is held iff a section is open, by the thread with the one variable
    that owns the lock; that variable points to the locked key, which is in the
    map with the value the accesses lead to. *)
Record system_ok s : Prop := SystemOk {
  free_iff_closed : owner s = None ↔ section s = None;
  section_value : ∀ k v accs, section s = Some (k, v, accs) →
    ∃ v', contents s !! k = Some v' ∧ accesses_run v accs v';
  one_owner : ∀ t x lv, variables s !! (t, x) = Some lv → owns_lock lv = true →
    owner s = Some t ∧ ∃ v accs, section s = Some (value lv, v, accs);
  owner_unique : ∀ t x lv t' x' lv', variables s !! (t, x) = Some lv → owns_lock lv = true →
    variables s !! (t', x') = Some lv' → owns_lock lv' = true → (t, x) = (t', x')
}.
End map.

Section atomicity.
Context `{Countable K} {V : Type}.
Implicit Types (m : gmap K V) (k : K) (v : V) (s : system (K := K) (V := V)).

Lemma closed_committed s : section s = None → committed s = contents s.
Proof. unfold committed. by intros ->. Qed.

Lemma system_ok_initial m : system_ok (initial_system m).
Proof. by split. Qed.

(** A new section, by a thread that got the free mutex. *)
Lemma system_ok_open s t x k v m :
  system_ok s → owner s = None → m !! k = Some v → variables s !! (t, x) = None →
  system_ok (System m (Some t) (<[(t, x) := LockedValue true k]> (variables s)) (Some (k, v, []))).
Proof.
  intros Hok Ho Hk Hx.
  assert (∀ t' x' lv, variables s !! (t', x') = Some lv → owns_lock lv = false) as Hnone.
  { intros t' x' lv Hlv. destruct (owns_lock lv) eqn:E; [|done].
    destruct (one_owner _ Hok _ _ _ Hlv E) as [? _]. congruence. }
  split; simpl; [done| | |].
  - intros k' v' accs [= <- <- <-]. exists v. split; [done|constructor].
  - intros t' x' lv Hlv Hown. destruct (decide ((t', x') = (t, x))) as [Heq|Hne].
    + simplify_eq. rewrite lookup_insert_eq in Hlv. simplify_eq/=. eauto.
    + rewrite lookup_insert_ne in Hlv by congruence. by rewrite (Hnone _ _ _ Hlv) in Hown.
  - intros t1 x1 lv1 t2 x2 lv2 H1 Ho1 H2 Ho2.
    destruct (decide ((t1, x1) = (t, x))) as [->|Hne1].
    + destruct (decide ((t2, x2) = (t, x))) as [->|Hne2]; [done|].
      rewrite lookup_insert_ne in H2 by congruence. by rewrite (Hnone _ _ _ H2) in Ho2.
    + rewrite lookup_insert_ne in H1 by congruence. by rewrite (Hnone _ _ _ H1) in Ho1.
Qed.

Lemma system_ok_access s k v accs a m v' :
  system_ok s → section s = Some (k, v, accs) → m !! k = Some v' → accesses_run v (accs ++ [a]) v' →
  system_ok (System m (owner s) (variables s) (Some (k, v, accs ++ [a]))).
Proof.
  intros Hok Hs Hk Ha. split; simpl.
  - rewrite (free_iff_closed _ Hok), Hs. done.
  - intros k0 v0 accs0 [= <- <- <-]. eauto.
  - intros t x lv Hlv Hown. destruct (one_owner _ Hok _ _ _ Hlv Hown) as [? (v0 & accs0 & Hs0)].
    rewrite Hs in Hs0. simplify_eq. eauto.
  - apply (owner_unique _ Hok).
Qed.

(** The owning variable names the locked key. *)
Lemma owning_key s t x lv k v accs :
  system_ok s → variables s !! (t, x) = Some lv → owns_lock lv = true →
  section s = Some (k, v, accs) → value lv = k.
Proof.
  intros Hok Hlv Hown Hs. destruct (one_owner _ Hok _ _ _ Hlv Hown) as [_ (v0 & accs0 & Hs0)]. congruence.
Qed.

Lemma system_ok_move s t x y lv :
  system_ok s → variables s !! (t, x) = Some lv → variables s !! (t, y) = None →
  system_ok (System (contents s) (owner s)
    (<[(t, x) := moved_from lv]> (<[(t, y) := moved_to lv]> (variables s))) (section s)).
Proof.
  intros Hok Hx Hy.
  assert (∀ t' x' lv', <[(t, x) := moved_from lv]> (<[(t, y) := moved_to lv]> (variables s)) !! (t', x') = Some lv' →
    owns_lock lv' = true →
    ((t', x') = (t, y) ∧ lv' = lv) ∨ ((t', x') ≠ (t, x) ∧ (t', x') ≠ (t, y) ∧ variables s !! (t', x') = Some lv'))
    as Hcases.
  { intros t' x' lv' Hlv' Hown. apply lookup_insert_Some in Hlv' as [[_ <-]|[Hnx Hlv']]; [done|].
    apply lookup_insert_Some in Hlv' as [[<- <-]|[Hny Hlv']]; [by left|right; by split_and!]. }
  split; simpl.
  - apply (free_iff_closed _ Hok).
  - apply (section_value _ Hok).
  - intros t' x' lv' Hlv' Hown. destruct (Hcases _ _ _ Hlv' Hown) as [[Heq ->]|(_ & _ & Hv)].
    + simplify_eq. by apply (one_owner _ Hok t x).
    + by apply (one_owner _ Hok t' x').
  - intros t1 x1 lv1 t2 x2 lv2 H1 Ho1 H2 Ho2.
    destruct (Hcases _ _ _ H1 Ho1) as [[Heq1 ->]|(Hx1 & _ & Hv1)],
      (Hcases _ _ _ H2 Ho2) as [[Heq2 ->]|(Hx2 & _ & Hv2)].
    + congruence.
    + destruct Hx2. symmetry. by eapply (owner_unique _ Hok).
    + destruct Hx1. by eapply (owner_unique _ Hok).
    + by eapply (owner_unique _ Hok).
Qed.

Lemma system_ok_destroy s t x lv (closing : bool) :
  system_ok s → variables s !! (t, x) = Some lv → owns_lock lv = closing →
  system_ok (System (contents s) (if closing then None else owner s) (delete (t, x) (variables s))
    (if closing then None else section s)).
Proof.
  intros Hok Hx Hown.
  assert (∀ t' x' lv', delete (t, x) (variables s) !! (t', x') = Some lv' → owns_lock lv' = true → closing = false)
    as Hno.
  { intros t' x' lv' [Hne Hlv']%lookup_delete_Some Hown'. destruct closing; [|done].
    destruct Hne. by eapply (owner_unique _ Hok). }
  split; simpl.
  - destruct closing; [done|apply (free_iff_closed _ Hok)].
  - destruct closing; [done|apply (section_value _ Hok)].
  - intros t' x' lv' Hlv' Hown'. rewrite (Hno _ _ _ Hlv' Hown').
    apply lookup_delete_Some in Hlv' as [_ Hlv']. by apply (one_owner _ Hok t' x').
  - intros t1 x1 lv1 t2 x2 lv2 [_ H1]%lookup_delete_Some Ho1 [_ H2]%lookup_delete_Some Ho2.
    by eapply (owner_unique _ Hok).
Qed.

Lemma get_locked_returns k m lv :
  get_locked k m = Returns lv → lv = LockedValue true k ∧ is_Some (m !! k).
Proof. unfold get_locked. destruct (m !! k) as [v|]; [|done]. intros [= <-]. split; [done|by exists v]. Qed.

Lemma get_locked_throws k m w : get_locked k m = Throws w → m !! k = None.
Proof. unfold get_locked. by destruct (m !! k). Qed.

Lemma try_emplace_locked_eq k v m lv b m' :
  try_emplace_locked k v m = (lv, b, m') → lv = LockedValue true k ∧ emplace k v m = (b, m').
Proof.
  unfold try_emplace_locked, try_emplace. destruct (emplace k v m) as [b1 m1]. by intros [= <- <- <-].
Qed.

Lemma step_simulates s e s' :
  system_ok s → system_step s e s' →
  system_ok s' ∧ match e with
                 | Some e => atomic_step (committed s) e (committed s')
                 | None => committed s' = committed s
                 end.
Proof.
  intros Hok Hstep.
  destruct Hstep as [t c r m' s Ho Hc _|t x k v lv s Ho Hg Hk Hx|t k w s Ho Hg|t x k v v' lv ins m' s Ho He Hk Hx
    |t x lv v k0 v0 accs s Hx Hown Hv Hs|t x lv v k0 v0 accs s Hx Hown Hs|t x y lv s Hx Hy
    |t x lv k0 v0 accs s Hx Hown Hs|t x lv s Hx Hown].
  - pose proof (proj1 (free_iff_closed _ Hok) Ho) as Hs. split.
    + split; simpl; [by rewrite Hs|by rewrite Hs| |apply (owner_unique _ Hok)].
      intros t' x lv Hlv Hl. destruct (one_owner _ Hok _ _ _ Hlv Hl) as [? _]. congruence.
    + unfold committed. simpl. rewrite Hs. by constructor.
  - apply get_locked_returns in Hg as [-> _].
    pose proof (proj1 (free_iff_closed _ Hok) Ho) as Hs. split; [by apply system_ok_open|].
    unfold committed. simpl. rewrite Hs. by apply insert_id.
  - pose proof (proj1 (free_iff_closed _ Hok) Ho) as Hs. split; [done|].
    constructor. rewrite closed_committed by done. by eapply get_locked_throws.
  - apply try_emplace_locked_eq in He as [-> He]. pose proof (proj1 (free_iff_closed _ Hok) Ho) as Hs. split; [by apply system_ok_open|].
    unfold committed. simpl. rewrite Hs, insert_id by done. by constructor.
  - pose proof (owning_key _ _ _ _ _ _ _ Hok Hx Hown Hs) as Hkey. subst k0. split.
    + eapply system_ok_access; [done|done|exact Hv|].
      destruct (section_value _ Hok _ _ _ Hs) as (v' & Hv' & Ha). assert (v' = v) as -> by congruence.
      by constructor.
    + unfold committed. simpl. by rewrite Hs.
  - pose proof (owning_key _ _ _ _ _ _ _ Hok Hx Hown Hs) as Hkey. subst k0. split.
    + eapply system_ok_access; [done|done|by rewrite lookup_insert_eq|].
      destruct (section_value _ Hok _ _ _ Hs) as (v' & Hv' & Ha). by econstructor.
    + unfold committed. simpl. by rewrite Hs, insert_insert_eq.
  - split; [by apply system_ok_move|done].
  - split; [by apply (system_ok_destroy s t x lv true)|].
    destruct (section_value _ Hok _ _ _ Hs) as (v' & Hv' & Ha).
    unfold committed at 1. rewrite Hs. unfold committed. simpl.
    replace (contents s) with (<[k0 := v']> (<[k0 := v0]> (contents s))) at 2
      by (by rewrite insert_insert_eq, insert_id).
    econstructor; [by rewrite lookup_insert_eq|done].
  - split; [by apply (system_ok_destroy s t x lv false)|done].
Qed.

Lemma run_simulates s es s' :
  system_ok s → run s es s' → system_ok s' ∧ atomic_run (committed s) es (committed s').
Proof.
  intros Hok Hrun.
  induction Hrun as [s|s1 s2 s3 es _ IH Hstep|s1 s2 s3 es e _ IH Hstep]; [split; [done|constructor]| |];
    destruct (IH Hok) as [Hok2 Hrun2];
    destruct (step_simulates _ _ _ Hok2 Hstep) as [Hok3 Hstep3]; (split; [done|]).
  - by rewrite Hstep3.
  - by econstructor.
Qed.

(** A run that ends with the mutex free, as a run of the specification. *)
Lemma free_run_atomic m es s :
  run (initial_system m) es s → owner s = None → atomic_run m es (contents s).
Proof.
  intros Hrun Ho. destruct (run_simulates _ _ _ (system_ok_initial m) Hrun) as [Hok Hatomic].
  rewrite (closed_committed s) in Hatomic by by apply (free_iff_closed _ Hok). done.
Qed.
End atomicity.

Section iteration.
Context `{Countable K} {V : Type}.
Implicit Types (m : gmap K V) (order : list K).

Lemma for_each_spec (f : K → V → V) order m l m' :
  NoDup order → (∀ k, k ∈ order → is_Some (m !! k)) → for_each f order m = (l, m') →
  l.*1 = order ∧ (∀ k v, (k, v) ∈ l → m !! k = Some v)
  ∧ ∀ k, m' !! k = if decide (k ∈ order) then f k <$> m !! k else m !! k.
Proof.
  intros Hnd. revert m l m'. induction Hnd as [|k order Hk Hnd IH]; intros m l m' Hin Hf; simpl in Hf.
  { simplify_eq. split_and!; [done| |].
    - intros k v Hkv. by apply elem_of_nil in Hkv.
    - intros k. by rewrite decide_False by apply not_elem_of_nil. }
  destruct (Hin k) as [v Hv]; [by left|]. rewrite Hv in Hf.
  destruct (for_each f order (<[k := f k v]> m)) as [l1 m1] eqn:E. simplify_eq.
  assert (∀ k', k' ∈ order → k ≠ k') as Hne by (by intros k' ? <-).
  assert (∀ k', k' ∈ order → is_Some (<[k := f k v]> m !! k')) as Hin'.
  { intros k' Hk'. rewrite lookup_insert_ne by auto. apply Hin. by right. }
  destruct (IH _ _ _ Hin' E) as (Hl & Hseen & Hm). split_and!.
  - rewrite fmap_cons. by rewrite Hl.
  - intros k' v' [[= -> ->]|Hkv]%elem_of_cons; [done|]. pose proof (Hseen _ _ Hkv) as Hs.
    assert (k' ∈ order) by (rewrite <-Hl; apply list_elem_of_fmap; by exists (k', v')).
    by rewrite lookup_insert_ne in Hs by auto.
  - intros k'. rewrite Hm. destruct (decide (k' = k)) as [->|Hkk].
    + rewrite (decide_False (P := k ∈ order)), decide_True by (done || (by left)).
      by rewrite lookup_insert_eq, Hv.
    + rewrite lookup_insert_ne by done. destruct (decide (k' ∈ order)).
      * by rewrite decide_True by by right.
      * by rewrite decide_False by (by intros [?|?]%elem_of_cons).
Qed.
End iteration.

(** ** Counters *)

(** A call that only reads. *)
Definition read_only {K V : Type} `{Countable K} (c : map_call (K := K) (V := V)) : bool :=
  match c with
  | CallGet _ | CallTryGet _ | CallContains _ | CallSize | CallEmpty | CallSnapshot => true
  | _ => false
  end.

Fixpoint sections_of {K V : Type} `{Countable K} (es : list (event (K := K) (V := V))) : nat :=
  match es with
  | [] => 0
  | Section _ _ _ :: es' => S (sections_of es')
  | _ :: es' => sections_of es'
  end.

Section counters.
Context `{Countable K}.

(** A section that adds one to what it read, or a call that reads. *)
Definition counts k (e : event (K := K) (V := Z)) : Prop :=
  (∃ t v, e = Section t k [Read v; Write (v + 1)%Z]) ∨ (∃ t c r, e = Called t c r ∧ read_only c = true).

Lemma sections_of_app (es es' : list (event (K := K) (V := Z))) :
  sections_of (es ++ es') = sections_of es + sections_of es'.
Proof. induction es as [|[] es IH]; simpl; try rewrite IH; done. Qed.

Lemma snoc_two {A} (accs : list A) a x y : accs ++ [a] = [x; y] → accs = [x] ∧ a = y.
Proof. change [x; y] with ([x] ++ [y]). by intros [-> [= ->]]%app_inj_tail. Qed.

Lemma increment_accesses (v v' w : Z) :
  accesses_run v [Read w; Write (w + 1)%Z] v' → v' = (v + 1)%Z.
Proof.
  intros Hrun. remember [Read w; Write (w + 1)%Z] as accs eqn:E.
  destruct Hrun as [v|v accs v' Hrun|v accs v' x Hrun]; [done|by apply snoc_two in E as [_ ?]|].
  apply snoc_two in E as [-> [= ->]]. remember [Read w] as accs eqn:E.
  destruct Hrun as [v|v accs v' Hrun|v accs v' x Hrun]; [done| |]; destruct accs as [|a accs]; simplify_eq/=.
  - inversion Hrun as [? Heq|? accs0 ? _ Hn|? accs0 ? ? _ Hn]; subst; [done|by destruct accs0..].
  - by destruct accs.
  - by destruct accs.
Qed.

Lemma counting_run k m es m' v :
  atomic_run m es m' → Forall (counts k) es → m !! k = Some v →
  m' !! k = Some (v + Z.of_nat (sections_of es))%Z.
Proof.
  intros Hrun Hall Hv. induction Hrun as [m|m1 m2 m3 es e Hrun IH Hstep]; [rewrite Hv; f_equal; simpl; lia|].
  apply Forall_app in Hall as [Hall Hlast]. rewrite Forall_singleton in Hlast. specialize (IH Hall Hv).
  rewrite sections_of_app. destruct Hlast as [(t & w & ->)|(t & c & r & -> & Hro)]; inversion Hstep; simplify_eq/=.
  - rewrite lookup_insert_eq. f_equal.
    match goal with Ha : accesses_run _ _ _ |- _ => rewrite (increment_accesses _ _ _ Ha) end. lia.
  - destruct c; simplify_eq/=; rewrite IH; f_equal; lia.
Qed.
End counters.

(** ** Properties *)

(** C7. Locked sections are atomic.  Every run of threads that call the map and
    read and write through [locked_value]s, moving and destroying them in any
    interleaving, is a run of the specification in which each call and each
    section, from acquiring the [locked_value] to destroying the object that
    owns the lock, happens at once: the reads of a section see only its own
    writes. *)
Theorem locked_sections_are_atomic `{Countable K} {V : Type} (m : gmap K V)
    (es : list (event (K := K) (V := V))) (s : system (K := K) (V := V)) :
  run (initial_system m) es s →
  atomic_run m es (committed s) ∧ (owner s = None → committed s = contents s).
Proof.
  intros Hrun. destruct (run_simulates _ _ _ (system_ok_initial m) Hrun) as [Hok Hatomic].
  split; [done|]. intros Ho. by apply closed_committed, (free_iff_closed _ Hok).
Qed.

(** No increment is lost: if every section reads the counter and writes one
    more, and all other calls only read, then whenever the mutex is free the
    counter has advanced by the number of sections, however they interleaved. *)
Theorem increments_are_not_lost `{Countable K} (m : gmap K Z) (k : K) (v : Z)
    (es : list (event (K := K) (V := Z))) (s : system (K := K) (V := Z)) :
  run (initial_system m) es s → Forall (counts k) es → m !! k = Some v → owner s = None →
  contents s !! k = Some (v + Z.of_nat (sections_of es))%Z.
Proof.
  intros Hrun Hall Hv Ho. pose proof (free_run_atomic _ _ _ Hrun Ho). by apply (counting_run k m).
Qed.

(** [for_each] calls its argument exactly once for every pair of the map,
    with the value the map had, and replaces each value by what the callback
    assigned, in whatever order the table is traversed. *)
Theorem for_each_visits_every_pair_once `{Countable K} {V : Type} (f : K → V → V) (order : list K)
    (m : gmap K V) (l : list (K * V)) (m' : gmap K V) :
  iteration_order order m → for_each f order m = (l, m') →
  l ≡ₚ map_to_list m ∧ ∀ k, m' !! k = f k <$> m !! k.
Proof.
  intros [Hnd Hdom] Hf.
  destruct (for_each_spec f order m l m' Hnd ltac:(intros k; apply Hdom) Hf) as (Hl & Hseen & Hm).
  split.
  - apply NoDup_Permutation; [apply (NoDup_fmap_1 fst); by rewrite Hl|apply NoDup_map_to_list|].
    intros [k v]. rewrite elem_of_map_to_list. split; [apply Hseen|]. intros Hk.
    assert (k ∈ l.*1) as ([k' v'] & -> & Hin)%list_elem_of_fmap by (rewrite Hl; apply Hdom; eauto).
    simpl in *. rewrite (Hseen _ _ Hin) in Hk. by simplify_eq.
  - intros k. rewrite Hm. destruct (decide (k ∈ order)) as [|Hk]; [done|].
    rewrite Hdom in Hk. destruct (m !! k); [|done]. destruct Hk. by eexists.
Qed.

(** ** Witnesses

    Two threads that each lock the counter at key 0 and add one, the second
    after moving its [locked_value] to another variable. *)
Section witnesses.
Abbreviation counter_run := (run (K := nat) (V := Z)).

Definition with_counter (v : Z) : system (K := nat) (V := Z) := initial_system {[0 := v]}.

Lemma counter_value (v w : Z) : <[0 := w]> ({[0 := v]} : gmap nat Z) = {[0 := w]}.
Proof. by rewrite insert_singleton_eq. Qed.

(** Solves the premises of a step on concrete variables. *)
Ltac variables_eq :=
  simpl; rewrite ?insert_empty, ?lookup_insert_eq, ?lookup_singleton_eq by done; reflexivity.

Lemma section_run s0 es t v :
  counter_run s0 es (with_counter v) →
  counter_run s0 (es ++ [Section t 0 [Read v; Write (v + 1)%Z]]) (with_counter (v + 1)).
Proof.
  intros Hrun. unfold with_counter, initial_system in *.
  eapply (run_silent _ _ _ _) in Hrun; [|eapply (step_get_locked t 0 0 v (LockedValue true 0)); variables_eq].
  eapply (run_silent _ _ _ _) in Hrun; [|eapply (step_read t 0); variables_eq].
  eapply (run_silent _ _ _ _) in Hrun; [|eapply (step_write t 0 _ (v + 1)%Z); variables_eq].
  eapply (run_event _ _ _ _ _) in Hrun; [|eapply (step_destroy_owner t 0); variables_eq].
  simpl in Hrun. rewrite delete_insert_id, counter_value in Hrun by done. exact Hrun.
Qed.

(** The second variable's destruction releases the mutex; the first one, moved
    from, still tests [true] and still points to the value. *)
Example moved_locked_value :
  ∃ s, counter_run (with_counter 6) [Section 2 0 [Read 6%Z; Write 7%Z]] s
    ∧ contents s !! 0 = Some 7%Z ∧ owner s = None
    ∧ ∃ lv, variables s !! (2, 0) = Some lv ∧ owns_lock lv = false ∧ tests_true lv = true ∧ value lv = 0.
Proof.
  pose proof (run_refl (with_counter 6)) as Hrun. unfold with_counter, initial_system in *.
  eapply (run_silent _ _ _ _) in Hrun; [|by apply (step_get_locked 2 0 0 6%Z (LockedValue true 0))].
  eapply (run_silent _ _ _ _) in Hrun; [|by eapply (step_read 2 0)].
  eapply (run_silent _ _ _ _) in Hrun; [|by eapply (step_move 2 0 1)].
  eapply (run_silent _ _ _ _) in Hrun; [|by eapply (step_write 2 1 _ 7%Z)].
  eapply (run_event _ _ _ _ _) in Hrun; [|by eapply (step_destroy_owner 2 1)].
  eexists. split; [exact Hrun|]. split_and!; try done. eexists. by split_and!.
Qed.

Definition two_increments : list (event (K := nat) (V := Z)) :=
  [Section 1 0 [Read 5%Z; Write 6%Z]; Section 2 0 [Read 6%Z; Write 7%Z]].

Lemma two_increments_run : counter_run (with_counter 5) two_increments (with_counter 7).
Proof.
  apply (section_run _ [Section 1 0 [Read 5%Z; Write 6%Z]] 2 6), (section_run _ [] 1 5). constructor.
Qed.

Lemma locked_sections_are_atomic_witness :
  atomic_run {[0 := 5%Z]} two_increments (committed (with_counter 7))
  ∧ (owner (with_counter 7) = None → committed (with_counter 7) = contents (with_counter 7)).
Proof.
  apply (locked_sections_are_atomic {[0 := 5%Z]} two_increments (with_counter 7)).
  exact two_increments_run.
Defined.

Lemma increments_are_not_lost_witness : contents (with_counter 7) !! 0 = Some (5 + 2)%Z.
Proof.
  apply (increments_are_not_lost {[0 := 5%Z]} 0 5 two_increments (with_counter 7)).
  - exact two_increments_run.
  - constructor; [left; by exists 1, 5%Z|]. constructor; [left; by exists 2, 6%Z|constructor].
  - done.
  - done.
Defined.

Lemma for_each_visits_every_pair_once_witness :
  let m : gmap nat Z := <[1 := 10%Z]> {[2 := 20%Z]} in
  let r := for_each (λ _ v, (v + 1)%Z) [2; 1] m in
  r.1 ≡ₚ map_to_list m ∧ ∀ k, r.2 !! k = (λ v, (v + 1)%Z) <$> m !! k.
Proof.
  intros m r. apply (for_each_visits_every_pair_once (λ _ v, (v + 1)%Z) [2; 1] m).
  - split; [by apply (bool_decide_eq_true_1 _)|]. intros k. unfold m. split.
    + intros [->|[->|Hk%elem_of_nil]%elem_of_cons]%elem_of_cons; [by eexists..|done].
    + intros [v Hv]. rewrite lookup_insert_Some, lookup_singleton_Some in Hv. set_solver.
  - unfold r. by destruct (for_each _ _ _).
Defined.
End witnesses.
