(* ===== verification/MapClients.v ===== *)
(** * Clients of the thread-safe map

    What threads that share a [thread_safe_unordered_map] can rely on, whatever
    their interleaving, proved from the atomicity of calls and locked sections
    ([ThreadSafeMap.run_simulates]): events on one key depend on that key alone,
    threads that keep to keys of their own do not notice each other, and an
    element is extracted once. *)
From S2P Require Import Prelude ThreadSafeMap.

Section clients.
Context `{Countable K} {V : Type}.
Abbreviation map_event := (ThreadSafeMap.event (K := K) (V := V)).
Implicit Types (m n : gmap K V) (k : K) (v : V) (c : map_call (K := K) (V := V)) (e : map_event).

(** ** Keys of calls and events *)

(** The key of a call that looks at one element. *)
Definition call_key c : option K :=
  match c with
  | CallInsert k _ | CallEmplace k _ | CallGet k | CallTryGet k | CallErase k | CallContains k
  | CallExtract k | CallTryEmplace k _ => Some k
  | CallSize | CallEmpty | CallClear | CallSnapshot | CallForEach _ _ => None
  end.

Definition event_key e : option K :=
  match e with
  | Called _ c _ => call_key c
  | ThreadSafeMap.Section _ k _ | Emplaced _ k _ _ | LockFailed _ k => Some k
  end.

Definition event_thread e : nat :=
  match e with
  | Called t _ _ | ThreadSafeMap.Section t _ _ | Emplaced t _ _ _ | LockFailed t _ => t
  end.

(** ** Locality *)

(** A call on one key answers and acts by what the map has there. *)
Lemma call_local c k m n r m' :
  call_key c = Some k → call c m = (r, m') → m !! k = n !! k →
  (∃ n', call c n = (r, n') ∧ n' !! k = m' !! k) ∧ (∀ j, j ≠ k → m' !! j = m !! j).
Proof.
  assert (∀ v j, j ≠ k → <[k := v]> m !! j = m !! j) as Hins by (intros; by apply lookup_insert_ne).
  assert (∀ j, j ≠ k → delete k m !! j = m !! j) as Hdel by (intros; by apply lookup_delete_ne).
  destruct c; simpl; intros Hk Hc E; try done; injection Hk as ->;
    unfold emplace, get, erase, extract, insert, try_emplace, emplace, try_get, contains in *;
    destruct (m !! k) eqn:Em; symmetry in E; rewrite ?Em in Hc; rewrite ?E; simplify_eq/=;
    (split; [eexists; split; [reflexivity|]|by auto]);
    rewrite ?lookup_insert_eq, ?lookup_delete_eq; congruence.
Qed.

(** An atomic event on one key, in another map with the same value there. *)
Lemma event_local e k m n m' :
  event_key e = Some k → atomic_step m e m' → m !! k = n !! k →
  (∃ n', atomic_step n e n' ∧ n' !! k = m' !! k ∧ ∀ j, j ≠ k → n' !! j = n !! j)
  ∧ (∀ j, j ≠ k → m' !! j = m !! j).
Proof.
  intros Hk Hstep E.
  destruct Hstep as [t c r m m' Hc|t k0 v v' accs m Hv Ha|t k0 v b m m' He|t k0 m Hn]; simpl in Hk.
  - destruct (call_local c k m n r m' Hk Hc E) as [(n' & Hn & En) Hm]. split; [|done].
    exists n'. split_and!; [by constructor|done|].
    by destruct (call_local c k n m r n' Hk Hn (eq_sym E)) as [_ ?].
  - injection Hk as ->. split; [|intros j Hj; by apply lookup_insert_ne].
    exists (<[k := v']> n). split_and!; [|by rewrite !lookup_insert_eq|intros j Hj; by apply lookup_insert_ne].
    econstructor; [by rewrite <-E|done].
  - injection Hk as ->. unfold emplace in He. destruct (m !! k) eqn:Em; simplify_eq.
    + split; [|done]. exists n. split_and!; [constructor; unfold emplace; by rewrite <-E|congruence|done].
    + split; [|intros j Hj; by apply lookup_insert_ne]. exists (<[k := v]> n).
      split_and!; [constructor; unfold emplace; by rewrite <-E|by rewrite !lookup_insert_eq|].
      intros j Hj. by apply lookup_insert_ne.
  - injection Hk as ->. split; [|done]. exists n. split_and!; [constructor; congruence|done|done].
Qed.

(** ** Events that keep to keys of their own

    [own] divides the keys among the threads, or among other parties that
    [party] tells of an event. *)
Section ownership.
Context (own : K → nat) (party : map_event → nat).

Definition keeps_to_own e : Prop := ∃ k, event_key e = Some k ∧ own k = party e.

Lemma parties_do_not_interfere m es m' p :
  atomic_run m es m' → Forall keeps_to_own es →
  ∃ n, atomic_run m (filter (λ e, party e = p) es) n ∧ ∀ k, own k = p → n !! k = m' !! k.
Proof.
  intros Hrun Hall. induction Hrun as [m|m1 m2 m3 es e Hrun IH Hstep].
  { exists m. split; [constructor|done]. }
  apply Forall_app in Hall as [Hall Hlast]. apply Forall_singleton in Hlast as (k & Hk & Hown).
  destruct (IH Hall) as (n & Hn & En). rewrite filter_app. destruct (decide (party e = p)) as [Hp|Hp].
  - destruct (event_local e k m2 n m3 Hk Hstep) as [(n' & Hstep' & En' & Hrest) Hrest'].
    { symmetry. apply En. congruence. }
    exists n'. rewrite filter_cons_True, filter_nil by done. split; [by econstructor|].
    intros j Hj. destruct (decide (j = k)) as [->|Hne]; [done|].
    by rewrite Hrest, Hrest', En.
  - rewrite filter_cons_False, filter_nil, app_nil_r by done. exists n. split; [done|].
    intros j Hj. rewrite En by done.
    destruct (event_local e k m2 m2 m3 Hk Hstep eq_refl) as [_ Hrest']. symmetry. apply Hrest'. congruence.
Qed.
End ownership.

(** ** Extracting *)

(** The results of the calls on one key, in order. *)
Definition answers_on k (es : list map_event) : list (map_result (K := K) (V := V)) :=
  omap (λ e, match e with
             | Called _ c r => if decide (call_key c = Some k) then Some r else None
             | _ => None
             end) es.

(** An event on a key, which is a call of [extract] if the key is [k]. *)
Definition only_extracts k e : Prop :=
  ∃ j, event_key e = Some j ∧ (j = k → ∃ t r, e = Called t (CallExtract k) r).

Definition not_found : map_result (K := K) (V := V) := Thrown "Key not found".

Lemma extracts_run k v m es m' :
  atomic_run m es m' → Forall (only_extracts k) es → m !! k = Some v →
  (answers_on k es = [] ∧ m' !! k = Some v)
  ∨ ∃ later, answers_on k es = Value v :: replicate later not_found ∧ m' !! k = None.
Proof.
  intros Hrun Hall Hv. induction Hrun as [m|m1 m2 m3 es e Hrun IH Hstep]; [by left|].
  apply Forall_app in Hall as [Hall Hlast]. apply Forall_singleton in Hlast as (j & Hj & Hex).
  specialize (IH Hall Hv). unfold answers_on. rewrite omap_app. fold (answers_on k es).
  destruct (decide (j = k)) as [->|Hne].
  - destruct (Hex eq_refl) as (t & r & ->). inversion Hstep as [? ? ? ? ? Hc| | |]; subst.
    cbn [omap list_omap call_key]. rewrite decide_True by done. cbn [call] in Hc. unfold extract in Hc.
    right. destruct IH as [[-> Hk]|(later & -> & Hk)]; rewrite Hk in Hc; simplify_eq.
    + exists 0. split; [done|apply lookup_delete_eq].
    + exists (S later). split; [|done]. by rewrite replicate_S_end.
  - destruct (event_local e j m2 m2 m3 Hj Hstep eq_refl) as [_ Hrest]. rewrite Hrest by done.
    assert (omap (λ e, match e with
             | Called _ c r => if decide (call_key c = Some k) then Some r else None
             | _ => None
             end) [e] = []) as ->; [|by rewrite app_nil_r].
    destruct e as [t c r| | |]; [|done..]. cbn in *. rewrite decide_False; [done|congruence].
Qed.

(** ** Threads that only call *)

Definition run_calls (cs : list (map_call (K := K) (V := V))) m : gmap K V :=
  foldl (λ m c, (call c m).2) m cs.

(** The calls among events, in order. *)
Definition calls_of (es : list map_event) : list (map_call (K := K) (V := V)) :=
  omap (λ e, match e with Called _ c _ => Some c | _ => None end) es.

Definition is_call e : Prop := ∃ t c r, e = Called t c r.

Lemma calls_run m es m' : atomic_run m es m' → Forall is_call es → m' = run_calls (calls_of es) m.
Proof.
  intros Hrun Hall. induction Hrun as [m|m1 m2 m3 es e Hrun IH Hstep]; [done|].
  apply Forall_app in Hall as [Hall Hlast]. apply Forall_singleton in Hlast as (t & c & r & ->).
  unfold calls_of. rewrite omap_app. fold (calls_of es). unfold run_calls. rewrite foldl_app.
  fold (run_calls (calls_of es) m1). rewrite <-IH by done. inversion Hstep as [? ? ? ? ? Hc| | |]; subst.
  cbn. by rewrite Hc.
Qed.

(** What every allowed event keeps, and what it then shows of the event. *)
Lemma atomic_invariant (I : gmap K V → Prop) (allowed shows : map_event → Prop) m es m' :
  (∀ m e m', I m → allowed e → atomic_step m e m' → I m' ∧ shows e) →
  atomic_run m es m' → I m → Forall allowed es → I m' ∧ Forall shows es.
Proof.
  intros Hkeep Hrun Hm. induction Hrun as [m|m1 m2 m3 es e Hrun IH Hstep]; [done|].
  intros [Hall Hlast]%Forall_app. rewrite Forall_singleton in Hlast.
  destruct (IH Hm Hall) as [H2 Hes]. destruct (Hkeep m2 e m3 H2 Hlast Hstep). split; [done|].
  apply Forall_app. split; [done|by rewrite Forall_singleton].
Qed.

(** Threads that run programs of their own, each on its own keys. *)
Lemma own_programs own (program : nat → list (map_call (K := K) (V := V))) m es m' k :
  atomic_run m es m' → Forall is_call es →
  (∀ t, calls_of (filter (λ e, event_thread e = t) es) = program t) →
  (∀ t c, c ∈ program t → ∃ k, call_key c = Some k ∧ own k = t) →
  m' !! k = run_calls (program (own k)) m !! k.
Proof.
  intros Hrun Hcalls Hprog Hown.
  destruct (parties_do_not_interfere own event_thread m es m' (own k) Hrun) as (n & Hn & En).
  - apply Forall_forall. intros e He. rewrite Forall_forall in Hcalls.
    destruct (Hcalls e He) as (t & c & r & ->).
    apply (Hown t c). rewrite <-Hprog. unfold calls_of. apply list_elem_of_omap.
    exists (Called t c r). split; [|done]. by apply list_elem_of_filter.
  - rewrite <-En by done. rewrite (calls_run _ _ _ Hn), Hprog; [done|]. apply Forall_forall.
    intros e [_ He]%list_elem_of_filter. rewrite Forall_forall in Hcalls. by apply Hcalls.
Qed.

Lemma run_inserts (f : K → V) ks m k :
  run_calls ((λ k, CallInsert k (f k)) <$> ks) m !! k = if decide (k ∈ ks) then Some (f k) else m !! k.
Proof.
  unfold run_calls. revert m. induction ks as [|j ks IH]; intros m; [done|]. cbn. rewrite IH.
  destruct (decide (k ∈ ks)) as [Hk|Hk]; [by rewrite decide_True by by right|].
  unfold insert. destruct (decide (k = j)) as [->|Hne].
  - rewrite decide_True by left. by rewrite lookup_insert_eq.
  - rewrite decide_False by by intros [?|?]%elem_of_cons. by rewrite lookup_insert_ne.
Qed.
End clients.

(** ** Properties *)

(** C8. Threads that keep to keys of their own do not notice each other: in every
    interleaving, the calls and locked sections of a thread, with the results
    they had, are a run of that thread alone on the initial map, and where the
    mutex is free the map has that run's values at the thread's keys. *)
Theorem threads_with_own_keys_do_not_interfere `{Countable K} {V : Type} (own : K → nat)
    (m : gmap K V) (es : list (event (K := K) (V := V))) (s : system (K := K) (V := V)) (t : nat) :
  run (initial_system m) es s → owner s = None →
  Forall (λ e, ∃ k, event_key e = Some k ∧ own k = event_thread e) es →
  ∃ alone, atomic_run m (filter (λ e, event_thread e = t) es) alone ∧
    ∀ k, own k = t → contents s !! k = alone !! k.
Proof.
  intros Hrun Ho Hall. pose proof (free_run_atomic _ _ _ Hrun Ho) as Hatomic.
  destruct (parties_do_not_interfere own event_thread _ _ _ t Hatomic Hall) as (n & Hn & En).
  exists n. split; [done|]. intros k Hk. symmetry. by apply En.
Qed.

(** An element is extracted once: whatever the threads do with other keys,
    if they use the key only to extract it, then the first call that comes to it
    returns the element and every other one throws. *)
Theorem an_element_is_extracted_once `{Countable K} {V : Type} (k : K) (v : V)
    (m : gmap K V) (es : list (event (K := K) (V := V))) (s : system (K := K) (V := V)) :
  run (initial_system m) es s → owner s = None → Forall (only_extracts k) es → m !! k = Some v →
  (answers_on k es = [] ∧ contents s !! k = Some v)
  ∨ ∃ later, answers_on k es = Value v :: replicate later not_found ∧ contents s !! k = None.
Proof.
  intros Hrun Ho Hall Hv. pose proof (free_run_atomic _ _ _ Hrun Ho) as Hatomic.
  by apply (extracts_run k v m).
Qed.

(** ** Witnesses *)
Section witnesses.
Abbreviation number_run := (run (K := nat) (V := Z)).

(** Two threads insert and extract, each its own keys: the odd and the even. *)
Definition own_keys (k : nat) : nat := Nat.modulo k 2.

Definition own_events : list (event (K := nat) (V := Z)) :=
  [Called 1 (CallInsert 3 30%Z) Done; Called 0 (CallExtract 4) (Value 40%Z);
   Called 1 (CallGet 3) (Value 30%Z); Called 0 (CallExtract 4) not_found].

Definition after_own_events : system (K := nat) (V := Z) :=
  initial_system (delete 4 (<[3 := 30%Z]> {[4 := 40%Z]})).

Lemma own_events_run : number_run (initial_system {[4 := 40%Z]}) own_events after_own_events.
Proof.
  apply (run_event _ after_own_events _ (take 3 own_events) _); [|by constructor].
  apply (run_event _ after_own_events _ (take 2 own_events) _); [|by constructor].
  apply (run_event _ (initial_system (<[3 := 30%Z]> {[4 := 40%Z]})) _ (take 1 own_events) _);
    [|by constructor].
  apply (run_event _ (initial_system {[4 := 40%Z]}) _ [] _); [constructor|by constructor].
Qed.

Lemma threads_with_own_keys_do_not_interfere_witness :
  ∃ alone, atomic_run {[4 := 40%Z]}
    [Called 1 (CallInsert 3 30%Z) Done; Called 1 (CallGet 3) (Value 30%Z)] alone ∧
    alone !! 3 = Some 30%Z.
Proof.
  destruct (threads_with_own_keys_do_not_interfere own_keys {[4 := 40%Z]} own_events after_own_events 1
    own_events_run eq_refl) as (alone & Hrun & Hk).
  - repeat constructor; by eexists.
  - exists alone. split; [exact Hrun|]. by rewrite <-(Hk 3).
Defined.

Lemma an_element_is_extracted_once_witness :
  answers_on 4 own_events = [Value 40%Z; not_found] ∧ contents after_own_events !! 4 = None.
Proof.
  destruct (an_element_is_extracted_once 4 40%Z {[4 := 40%Z]} own_events after_own_events
    own_events_run eq_refl) as [[E _]|(later & E & Hk)].
  - repeat constructor; eexists; (split; [reflexivity|]); [done|by eexists _, _|done|by eexists _, _].
  - done.
  - done.
  - split; [reflexivity|exact Hk].
Defined.
End witnesses.
