(* ===== verification/MapTests.v ===== *)
(** * The tests of the map: [src/testing/tests/thread_safe_map_test.cpp]

    The expectations of the repository's tests, evaluated on the model; those of
    the tests with threads are proved for every interleaving.  A test of the
    source and its counterpart here have the same name, after [map_]. *)
From S2P Require Import Prelude ThreadSafeMap MapClients.

(** The results of the calls of a test, on a new map. *)
Fixpoint map_results {K V : Type} `{Countable K} (cs : list (map_call (K := K) (V := V))) (m : gmap K V)
    : list (map_result (K := K) (V := V)) :=
  match cs with
  | [] => []
  | c :: cs' => let '(r, m') := call c m in r :: map_results cs' m'
  end.

Section sequential.
Abbreviation results cs := (map_results (K := string) (V := Z) cs ∅).
Abbreviation int_results cs := (map_results (K := Z) (V := Z) cs ∅).
#[local] Open Scope Z_scope.

Example map_InsertAndGet :
  results [CallInsert "alice" 42; CallContains "alice"; CallGet "alice"; CallSize; CallEmpty]
  = [Done; Answer true; Value 42; Count 1; Answer false].
Proof. by vm_compute. Qed.

Example map_InsertReplacesExistingValue :
  results [CallInsert "alice" 10; CallInsert "alice" 20; CallGet "alice"; CallSize]
  = [Done; Done; Value 20; Count 1].
Proof. by vm_compute. Qed.

Example map_EmplaceDoesNotReplaceExistingValue :
  results [CallEmplace "alice" 10; CallEmplace "alice" 20; CallGet "alice"]
  = [Answer true; Answer false; Value 10].
Proof. by vm_compute. Qed.

Example map_TryGetReportsMissingKeys :
  results [CallTryGet "missing"; CallInsert "alice" 42; CallTryGet "alice"]
  = [Found (false, None); Done; Found (true, Some 42)].
Proof. by vm_compute. Qed.

Example map_EraseRemovesKey :
  results [CallInsert "alice" 42; CallErase "alice"; CallContains "alice"; CallErase "alice"]
  = [Done; Answer true; Answer false; Answer false].
Proof. by vm_compute. Qed.

Example map_ExtractReturnsAndRemovesValue :
  results [CallInsert "alice" 42; CallExtract "alice"; CallContains "alice"]
  = [Done; Value 42; Answer false].
Proof. by vm_compute. Qed.

Example map_SnapshotContainsCurrentState :
  results [CallInsert "alice" 1; CallInsert "bob" 2; CallSnapshot]
  = [Done; Done; Copy (<["bob" := 2]> {["alice" := 1]})].
Proof. by vm_compute. Qed.

Example map_MissingKeyOperations :
  int_results [CallContains 1; CallErase 1; CallTryGet 1] = [Answer false; Answer false; Found (false, None)]
  ∧ get_locked 1 (∅ : gmap Z Z) = Throws "Key not found - thread_safe_map".
Proof. by vm_compute. Qed.

(** [GetMissingKeyThrows], [GetLockedMissingKeyThrows], [ExtractMissingKeyThrows]. *)
Example map_MissingKeyThrows :
  get 42 (∅ : gmap Z Z) = Throws "Key not found - thread_safe_map"
  ∧ get_locked 42 (∅ : gmap Z Z) = Throws "Key not found - thread_safe_map"
  ∧ extract 42 (∅ : gmap Z Z) = Throws "Key not found".
Proof. by vm_compute. Qed.

#[local] Close Scope Z_scope.

(** [LockedValueCanModifyStoredObject] and [LockedValueReleasesLock]: a section
    that writes 42, and then calls. *)
Example map_LockedValueReleasesLock :
  ∃ s : system (K := nat) (V := Z),
    run (initial_system {[0 := 1%Z]}) [Section 0 0 [Write 42%Z]; Called 0 (CallGet 0) (Value 42%Z)] s
    ∧ contents s = {[0 := 42%Z]}.
Proof.
  pose proof (run_refl (initial_system ({[0 := 1%Z]} : gmap nat Z))) as Hrun. unfold initial_system in Hrun.
  eapply (run_silent _ _ _ _) in Hrun; [|by apply (step_get_locked 0 0 0 1%Z (LockedValue true 0))].
  eapply (run_silent _ _ _ _) in Hrun; [|by eapply (step_write 0 0 _ 42%Z)].
  eapply (run_event _ _ _ _ _) in Hrun; [|by eapply (step_destroy_owner 0 0)].
  eapply (run_event _ _ _ _ _) in Hrun; [|by apply (step_call 0 (CallGet 0))].
  eexists. split; [exact Hrun|]. by vm_compute.
Qed.
End sequential.

(** ** Tests with threads

    [run (initial_system m) es s] with the mutex free: all threads have been
    joined, and [es] is what they did, in some interleaving. *)
Section threaded.
Abbreviation map_event := (event (K := nat) (V := Z)).
Abbreviation counter := ({[0 := 0%Z]} : gmap nat Z).
Implicit Types (es : list map_event) (s : system (K := nat) (V := Z)).

(** [ConcurrentUpdatesToSameKey] (8 threads, 10000 times each) and
    [LockedValueSerializesAccess] (8 threads, 1000 times each). *)
Theorem map_ConcurrentUpdatesToSameKey (thread_count times : nat) es s :
  run (initial_system counter) es s → owner s = None → Forall (counts 0) es →
  sections_of es = thread_count * times →
  contents s !! 0 = Some (Z.of_nat (thread_count * times)).
Proof.
  intros Hrun Ho Hall Hn. rewrite (counting_run 0 counter es _ 0%Z); [by rewrite Hn| |done|done].
  by apply free_run_atomic.
Qed.

(** The keys of a thread in a test where each thread has [n] of them. *)
Definition keys_of (n t : nat) : list nat := seq (t * n) n.

(** What the threads of a test do: only calls, thread [t] those of its program. *)
Definition follows (program : nat → list (map_call (K := nat) (V := Z))) es : Prop :=
  Forall is_call es ∧ ∀ t, calls_of (filter (λ e, event_thread e = t) es) = program t.

Lemma keys_of_owner n t k : k ∈ keys_of n t → k / n = t.
Proof.
  unfold keys_of. rewrite elem_of_seq. intros [Hl Hr]. symmetry. apply (Nat.div_unique k n t (k - t * n)); lia.
Qed.

Lemma owner_keys n k : n ≠ 0 → k ∈ keys_of n (k / n).
Proof.
  intros Hn. unfold keys_of. rewrite elem_of_seq. pose proof (Nat.div_mod_eq k n).
  pose proof (Nat.mod_upper_bound k n Hn). lia.
Qed.

(** [ConcurrentInsertsRemainConsistent]: 4 threads, 1000 items each. *)
Definition inserts (thread_count n t : nat) : list (map_call (K := nat) (V := Z)) :=
  if decide (t < thread_count) then (λ k, CallInsert k (Z.of_nat k * 2)%Z) <$> keys_of n t else [].

Theorem map_ConcurrentInsertsRemainConsistent thread_count n es s :
  n ≠ 0 → run (initial_system ∅) es s → owner s = None → follows (inserts thread_count n) es →
  size (contents s) = Z.of_nat (thread_count * n) ∧
  ∀ k, k < thread_count * n → contents s !! k = Some (Z.of_nat k * 2)%Z.
Proof.
  intros Hn Hrun Ho [Hcalls Hprog]. pose proof (free_run_atomic _ _ _ Hrun Ho) as Hatomic.
  assert (∀ k, contents s !! k = if decide (k < thread_count * n) then Some (Z.of_nat k * 2)%Z else None) as Hk.
  { intros k. rewrite (own_programs (λ k, k / n) _ ∅ es _ k Hatomic Hcalls Hprog).
    - unfold inserts. destruct (decide (k / n < thread_count)) as [Ht|Ht].
      + rewrite (run_inserts (λ k, Z.of_nat k * 2)%Z), decide_True by by apply owner_keys.
        rewrite decide_True; [done|].
        pose proof (Nat.div_mod_eq k n). pose proof (Nat.mod_upper_bound k n Hn). nia.
      + rewrite decide_False; [done|]. intros Hlt. apply Ht. by apply Nat.div_lt_upper_bound; [|lia].
    - intros t c. unfold inserts. destruct (decide _); [|by intros ?%elem_of_nil].
      intros (k' & -> & Hk')%list_elem_of_fmap. exists k'. split; [done|]. by apply keys_of_owner. }
  split.
  - unfold size. f_equal. rewrite <-size_dom.
    replace (dom (contents s)) with (list_to_set (C := gset nat) (seq 0 (thread_count * n))).
    + rewrite size_list_to_set by apply NoDup_seq. apply length_seq.
    + apply set_eq. intros k. rewrite elem_of_list_to_set, elem_of_seq, elem_of_dom, Hk.
      destruct (decide _); (split; [intros|intros [? ?]]); (lia || by eexists || done).
  - intros k Hlt. by rewrite Hk, decide_True.
Qed.

(** [ConcurrentInsertAndErase]: 8 threads, 10000 operations each. *)
Definition inserts_and_erases (thread_count n t : nat) : list (map_call (K := nat) (V := Z)) :=
  if decide (t < thread_count)
  then keys_of n t ≫= (λ k, [CallInsert k (Z.of_nat (k mod n)); CallErase k]) else [].

Theorem map_ConcurrentInsertAndErase thread_count n es s :
  run (initial_system ∅) es s → owner s = None → follows (inserts_and_erases thread_count n) es →
  empty (contents s) = true.
Proof.
  intros Hrun Ho [Hcalls Hprog]. pose proof (free_run_atomic _ _ _ Hrun Ho) as Hatomic.
  assert (∀ ks, run_calls (ks ≫= (λ k, [CallInsert k (Z.of_nat (k mod n)); CallErase k])) (∅ : gmap nat Z) = ∅)
    as Hempty.
  { induction ks as [|k ks IH]; [done|]. cbn. unfold insert. by rewrite delete_insert_id. }
  assert (contents s = ∅) as ->; [|done]. apply map_eq. intros k.
  rewrite (own_programs (λ k, k / n) _ ∅ es _ k Hatomic Hcalls Hprog).
  - unfold inserts_and_erases. destruct (decide _); [by rewrite Hempty|done].
  - intros t c. unfold inserts_and_erases. destruct (decide _); [|by intros ?%elem_of_nil].
    intros (k' & Hc & Hk')%list_elem_of_bind. exists k'. rewrite (keys_of_owner n t k' Hk').
    repeat (apply elem_of_cons in Hc as [->|Hc]; [done|]). by apply elem_of_nil in Hc.
Qed.

(** [ConcurrentReads]: the readers find what was inserted, the double of the key. *)
Theorem map_ConcurrentReads (m : gmap nat Z) es s :
  run (initial_system m) es s → owner s = None → map_Forall (λ k v, v = (Z.of_nat k * 2)%Z) m →
  Forall (λ e, ∃ t k r, k ∈ dom m ∧ e = Called t (CallGet k) r) es →
  Forall (λ e, ∃ t k, e = Called t (CallGet k) (Value (Z.of_nat k * 2)%Z)) es.
Proof.
  intros Hrun Ho Hm Hall. pose proof (free_run_atomic _ _ _ Hrun Ho) as Hatomic.
  refine (proj2 (atomic_invariant (λ m', m' = m) _ _ m es _ _ Hatomic eq_refl Hall)).
  intros m1 e m2 -> (t & k & r & Hk & ->) Hstep. inversion Hstep as [? ? ? ? ? Hc| | |]; subst.
  cbn in Hc. apply elem_of_dom in Hk as [v Hv]. unfold get in Hc. rewrite Hv in Hc. simplify_eq.
  split; [done|]. rewrite (Hm _ _ Hv). by eexists _, _.
Qed.

(** [ConcurrentReadersAndWriters]: the writers insert keys that are there, so the
    size stays. *)
Theorem map_ConcurrentReadersAndWriters (m : gmap nat Z) es s :
  run (initial_system m) es s → owner s = None →
  Forall (λ e, ∃ t c r, e = Called t c r ∧
    (read_only c = true ∨ ∃ k v, c = CallInsert k v ∧ k ∈ dom m)) es →
  size (contents s) = size m.
Proof.
  intros Hrun Ho Hall. pose proof (free_run_atomic _ _ _ Hrun Ho) as Hatomic.
  unfold size. rewrite <-!size_dom.
  assert (dom (contents s) = dom m) as ->; [|done].
  refine (proj1 (atomic_invariant (λ m', dom m' = dom m) _ (λ _, True) m es _ _ Hatomic eq_refl Hall)).
  intros m1 e m2 Hm (t & c & r & -> & Hc) Hstep. split; [|done].
  inversion Hstep as [? ? ? ? ? Hcall| | |]; subst. destruct Hc as [Hro|(k & v & -> & Hk)].
  - by destruct c; simplify_eq/=.
  - cbn in Hcall. simplify_eq. unfold insert. rewrite dom_insert_L. set_solver.
Qed.

(** [ConcurrentSnapshot]: every snapshot holds pairs of equal numbers. *)
Theorem map_ConcurrentSnapshot es s :
  run (initial_system ∅) es s → owner s = None →
  Forall (λ e, ∃ t r, (∃ i, e = Called t (CallInsert i (Z.of_nat i)) r) ∨ e = Called t CallSnapshot r) es →
  Forall (λ e, ∀ t snapshot, e = Called t CallSnapshot (Copy snapshot) →
    map_Forall (λ k v, v = Z.of_nat k) snapshot) es.
Proof.
  intros Hrun Ho Hall. pose proof (free_run_atomic _ _ _ Hrun Ho) as Hatomic.
  refine (proj2 (atomic_invariant (map_Forall (λ k v, v = Z.of_nat k)) _ _ ∅ es _ _ Hatomic _ Hall));
    [|apply map_Forall_empty].
  intros m1 e m2 Hm (t & r & He) Hstep. destruct He as [[i ->]| ->];
    inversion Hstep as [? ? ? ? ? Hc| | |]; subst; cbn in Hc; simplify_eq.
  - split; [|done]. by apply map_Forall_insert_2.
  - split; [done|]. intros t' snapshot E. by simplify_eq.
Qed.

(** [ConcurrentExtractSameKey]: at least one thread, and all of them extract. *)
Theorem map_ConcurrentExtractSameKey (key : nat) (expected_value : Z) es s :
  run (initial_system {[key := expected_value]}) es s → owner s = None → es ≠ [] →
  Forall (λ e, ∃ t r, e = Called t (CallExtract key) r) es →
  answers_on key es = Value expected_value :: replicate (length es - 1) not_found
  ∧ contains key (contents s) = false.
Proof.
  intros Hrun Ho Hne Hall. pose proof (free_run_atomic _ _ _ Hrun Ho) as Hatomic.
  assert (length (answers_on key es) = length es) as Hlen.
  { unfold answers_on. clear -Hall. induction Hall as [|e es (t & r & ->) _ IH]; [done|].
    cbn [omap list_omap call_key]. rewrite decide_True by done. cbn. by f_equal. }
  destruct (extracts_run key expected_value _ _ _ Hatomic) as [[E _]|(later & E & Hk)].
  - eapply Forall_impl; [exact Hall|]. intros e (t & r & ->). exists key. split; [done|]. by eexists _, _.
  - apply lookup_singleton_eq.
  - rewrite E in Hlen. by destruct es.
  - split; [|unfold contains; by rewrite Hk]. rewrite E in *. cbn in Hlen. rewrite length_replicate in Hlen.
    by rewrite <-Hlen, Nat.sub_succ, Nat.sub_0_r.
Qed.
End threaded.
