(* ===== verification/WebSocketSession.v ===== *)
(** * WebSocket sessions: [src/network/communication/websocket_connection.hpp]

    The state of one [websocket_session] and its handlers.  All handlers run on
    the one thread of the [io_context], one at a time; [send] may be called from
    any thread and posts a closure.  Beast's stream is represented by what it is
    asked to do: whether a read is outstanding, the buffer of an outstanding
    write, and what has been written. *)
From S2P Require Import Prelude ThreadSafeQueue.

(** [incoming_packet]: the session and the payload. *)
Record incoming_packet := IncomingPacket { packet_session : nat; payload : string }.

(** [queue_size_traits<incoming_packet>]. *)
#[export] Instance incoming_packet_size : QueueSizeTraits incoming_packet := {|
  queue_item_size := λ p, u64 (Z.of_nat (String.length (payload p)));
  queue_item_size_range := λ p, u64_range _
|}.

(** The last four fields are history: the messages given to [send] in the order
    of the calls, those written to the peer, the payloads read, and those that
    the incoming queue accepted. *)
Record session := Session {
  is_open : bool;
  reading : bool;
  write_queue : list string;
  (** The message in the buffer of the outstanding [async_write]. *)
  writing : option string;
  posted : list string;
  write_failed : bool;
  requested : list string;
  sent : list string;
  received : list string;
  accepted : list string
}.

Section session.
Implicit Types (s : session) (msg : string) (q : queue incoming_packet).

Definition with_write_queue v s := Session (is_open s) (reading s) v (writing s) (posted s)
  (write_failed s) (requested s) (sent s) (received s) (accepted s).
Definition with_writing v s := Session (is_open s) (reading s) (write_queue s) v (posted s)
  (write_failed s) (requested s) (sent s) (received s) (accepted s).
Definition with_reading v s := Session (is_open s) v (write_queue s) (writing s) (posted s)
  (write_failed s) (requested s) (sent s) (received s) (accepted s).
Definition with_posted v s := Session (is_open s) (reading s) (write_queue s) (writing s) v
  (write_failed s) (requested s) (sent s) (received s) (accepted s).

(** The constructor, on an accepted socket. *)
Definition new_session : session := Session true false [] None [] false [] [] [] [].

(** ** Writing *)

(** [send]: the posting half. *)
Definition send msg s : session :=
  Session (is_open s) (reading s) (write_queue s) (writing s) (posted s ++ [msg]) (write_failed s)
    (requested s ++ [msg]) (sent s) (received s) (accepted s).

(** [write_message_async]: the buffer refers to the front of the queue; a second
    outstanding write is not allowed. *)
Definition write_message_async s : outcome session :=
  match write_queue s with
  | [] => Undefined
  | msg :: _ =>
      match writing s with
      | Some _ => Undefined
      | None => Returns (with_writing (Some msg) s)
      end
  end.

(** The posted closure of [send]. *)
Definition run_send msg s : outcome session :=
  let write_in_progress := match write_queue s with [] => false | _ => true end in
  let s1 := with_write_queue (write_queue s ++ [msg]) s in
  if write_in_progress then Returns s1 else write_message_async s1.

(** The completion handler of [async_write]. *)
Definition on_write (failed : bool) s : outcome session :=
  let msg := writing s in
  let s0 := with_writing None s in
  if failed then
    Returns (Session (is_open s0) (reading s0) (write_queue s0) None (posted s0) true
      (requested s0) (sent s0) (received s0) (accepted s0))
  else
    match write_queue s0 with
    | [] => Undefined
    | _ :: rest =>
        let s1 := Session (is_open s0) (reading s0) rest None (posted s0) (write_failed s0)
          (requested s0) (sent s0 ++ option_list msg) (received s0) (accepted s0) in
        match rest with
        | [] => Returns s1
        | _ => write_message_async s1
        end
    end.

(** ** Reading *)
Definition read_message_async s : outcome session :=
  if reading s then Undefined else Returns (with_reading true s).

(** The completion handler of [async_accept], the WebSocket handshake. *)
Definition on_accept (failed : bool) s : outcome session :=
  if failed then Returns s else read_message_async s.

(** [push_incoming_packet]: closes the stream when the queue refuses. *)
Definition push_incoming_packet (cfg : queue_config) (self : nat) (data : string) s q
    : session * queue incoming_packet * signal :=
  let '(ok, q', sig) := try_push_back cfg (IncomingPacket self data) q in
  (Session (is_open s && ok) (reading s) (write_queue s) (writing s) (posted s) (write_failed s)
     (requested s) (sent s) (received s ++ [data])
     (if ok then accepted s ++ [data] else accepted s), q', sig).

(** The completion handler of [async_read]; [None]: an error, including the end
    of the stream. *)
Definition on_read (cfg : queue_config) (self : nat) (data : option string) s q
    : outcome (session * queue incoming_packet * signal) :=
  let s0 := with_reading false s in
  match data with
  | None => Returns (s0, q, NoSignal)
  | Some data =>
      let '(s1, q', sig) := push_incoming_packet cfg self data s0 q in
      let! s2 := read_message_async s1 in
      Returns (s2, q', sig)
  end.

(** ** Steps of one session

    Nothing is read from a stream that was closed. *)
Inductive session_handler (cfg : queue_config) (self : nat) s : outcome session → Prop :=
  | handler_send msg : session_handler cfg self s (Returns (send msg s))
  | handler_posted msg ps :
      posted s = msg :: ps → session_handler cfg self s (run_send msg (with_posted ps s))
  | handler_wrote failed : is_Some (writing s) → session_handler cfg self s (on_write failed s)
  | handler_read data q :
      reading s = true → (is_Some data → is_open s = true) →
      session_handler cfg self s (let! r := on_read cfg self data s q in Returns r.1.1).

Definition session_step (cfg : queue_config) (self : nat) s s' : Prop :=
  session_handler cfg self s (Returns s').

(** From [start], once the handshake is accepted. *)
Definition session_reachable (cfg : queue_config) (self : nat) s : Prop :=
  rtc (session_step cfg self) (with_reading true new_session) s.

(** ** Invariant *)
Record session_ok s : Prop := SessionOk {
  in_order : requested s = sent s ++ write_queue s ++ posted s;
  buffer_is_front : ∀ msg, writing s = Some msg → head (write_queue s) = Some msg;
  writes_when_queued : write_failed s = false → write_queue s ≠ [] → is_Some (writing s);
  silent_after_failure : write_failed s = true → writing s = None ∧ write_queue s ≠ [];
  read_in_order : received s = accepted s ∧ is_open s = true
    ∨ is_open s = false ∧ ∃ refused, received s = accepted s ++ [refused]
}.

Lemma session_ok_initial : session_ok (with_reading true new_session).
Proof. split; simpl; try done. by left. Qed.

Lemma write_message_async_cases s s' :
  write_message_async s = Returns s' →
  writing s = None ∧ ∃ msg, head (write_queue s) = Some msg ∧ s' = with_writing (Some msg) s.
Proof.
  unfold write_message_async. destruct (write_queue s) as [|msg ms]; [done|].
  destruct (writing s); [done|]. intros [= <-]. eauto.
Qed.

Lemma send_ok msg s : session_ok s → session_ok (send msg s).
Proof.
  intros [Ho Hb Hw Hf Hr]. split; simpl; try done. by rewrite Ho, <-!app_assoc.
Qed.

(** In a state of the invariant, a posted closure runs. *)
Lemma run_send_ok msg ps s :
  session_ok s → posted s = msg :: ps →
  ∃ s', run_send msg (with_posted ps s) = Returns s' ∧ session_ok s' ∧ sent s' = sent s
    ∧ write_failed s' = write_failed s.
Proof.
  intros [Ho Hb Hw Hf Hr] Hp. unfold run_send. simpl. rewrite Hp in Ho.
  destruct (write_queue s) as [|m ms] eqn:Eq; simpl.
  - unfold write_message_async. simpl. destruct (writing s) as [w|] eqn:Ew.
    { specialize (Hb w eq_refl). done. }
    eexists. split; [done|]. split; [|done]. split; simpl;
      [done|by intros ? [= <-]|by eauto|intros Hfailed; by destruct (Hf Hfailed)|done].
  - eexists. split; [done|]. split; [|done]. split; simpl;
      [by rewrite Ho, <-app_assoc|done|intros Hfailed _; by apply Hw| |done].
    intros Hfailed. by destruct (Hf Hfailed).
Qed.

Lemma session_on_write_ok failed s :
  session_ok s → is_Some (writing s) →
  ∃ s', on_write failed s = Returns s' ∧ session_ok s'
    ∧ write_failed s' = failed.
Proof.
  intros [Ho Hb Hw Hf Hr] [msg Hm]. specialize (Hb _ Hm).
  assert (write_failed s = false) as Hnf.
  { destruct (write_failed s) eqn:E; [|done]. destruct (Hf eq_refl) as [? _]. congruence. }
  unfold on_write. simpl. destruct failed.
  - eexists. split; [done|]. split; [|done]. split; simpl; [done|done|done| |done].
    intros _. split; [done|]. by destruct (write_queue s).
  - destruct (write_queue s) as [|m ms] eqn:Eq; [done|]. simpl in Hb. injection Hb as ->. rewrite Hm. simpl.
    destruct ms as [|m' ms]; simpl.
    + eexists. split; [done|]. split; [|done].
      split; simpl; [by rewrite Ho, <-app_assoc|done|done|congruence|done].
    + eexists. split; [done|]. split; [|done].
      split; simpl; [by rewrite Ho, <-app_assoc|by intros ? [= <-]|by eauto|congruence|done].
Qed.

Lemma on_read_ok cfg self data s q :
  session_ok s → reading s = true → (is_Some data → is_open s = true) →
  ∃ s' q' sig, on_read cfg self data s q = Returns (s', q', sig) ∧ session_ok s'
    ∧ sent s' = sent s ∧ write_failed s' = write_failed s.
Proof.
  intros [Ho Hb Hw Hf Hr] _ Hopen. unfold on_read. destruct data as [data|].
  2:{ eexists _, _, _. split; [done|]. by split. }
  unfold push_incoming_packet. destruct (try_push_back _ _ _) as [[ok q'] sig]. simpl.
  eexists _, _, _. split; [done|]. split; [|done]. split; simpl; try done.
  rewrite Hopen in Hr |- * by done. destruct Hr as [[-> _]|[? _]]; [|done].
  destruct ok; simpl; [by left|right; eauto].
Qed.

Lemma session_handler_ok cfg self s o :
  session_ok s → session_handler cfg self s o → ∃ s', o = Returns s' ∧ session_ok s'.
Proof.
  intros Hok Hh. destruct Hh as [msg|msg ps Hp|failed Hw|data q Hr Hopen].
  - eexists. split; [done|]. by apply send_ok.
  - destruct (run_send_ok msg ps s Hok Hp) as (s' & ? & ? & _). eauto.
  - destruct (session_on_write_ok failed s Hok Hw) as (s' & ? & ? & _). eauto.
  - destruct (on_read_ok cfg self data s q Hok Hr Hopen) as (s' & q' & sig & -> & ? & _). eauto.
Qed.

Lemma session_reachable_ok cfg self s : session_reachable cfg self s → session_ok s.
Proof.
  intros Hr. apply (rtc_invariant (session_step cfg self) session_ok) with (with_reading true new_session);
    [|done|apply session_ok_initial].
  intros s1 s2 Hok Hstep. destruct (session_handler_ok _ _ _ _ Hok Hstep) as (s' & [= <-] & Hok'). done.
Qed.
End session.

(** ** Properties *)

(** C27. A session writes the messages given to [send] in the order of the calls,
    each once, one write at a time: the messages written, those queued and those
    posted are, in this order, all that were sent, and the outstanding write is
    that of the first queued one.  No handler has undefined behaviour, and a
    session with nothing posted whose writes have not failed and is not writing
    has written everything. *)
Theorem websocket_messages_in_order (cfg : queue_config) (self : nat) (s : session) :
  session_reachable cfg self s →
  requested s = sent s ++ write_queue s ++ posted s
  ∧ (∀ msg, writing s = Some msg → head (write_queue s) = Some msg)
  ∧ (∀ o, session_handler cfg self s o → ∃ s', o = Returns s')
  ∧ (write_failed s = false → posted s = [] → writing s = None → sent s = requested s).
Proof.
  intros Hr. pose proof (session_reachable_ok cfg self s Hr) as Hok. split_and!.
  - apply (in_order _ Hok).
  - apply (buffer_is_front _ Hok).
  - intros o Ho. destruct (session_handler_ok cfg self s o Hok Ho) as (s' & ? & _). eauto.
  - intros Hf Hp Hw. rewrite (in_order _ Hok), Hp, app_nil_r.
    destruct (write_queue s) as [|m ms] eqn:E; [by rewrite app_nil_r|].
    destruct (writes_when_queued _ Hok Hf) as [? ?]; congruence.
Qed.

(** What a session puts in the incoming queue is what it read, in order,
    until a packet is refused: then the stream is closed, and nothing after the
    refused packet is ever read. *)
Theorem flooding_closes_the_session (cfg : queue_config) (self : nat) (s : session) :
  session_reachable cfg self s →
  (received s = accepted s ∧ is_open s = true)
  ∨ (is_open s = false ∧ ∃ refused, received s = accepted s ++ [refused]).
Proof. intros Hr. apply (read_in_order _ (session_reachable_ok cfg self s Hr)). Qed.

(** After a failed write a session never writes again: whatever happens
    later, nothing more is sent, and every message still given to [send] stays
    in the write queue. *)
Theorem failed_write_silences_the_session (cfg : queue_config) (self : nat) (s s' : session) :
  session_reachable cfg self s → write_failed s = true → rtc (session_step cfg self) s s' →
  write_failed s' = true ∧ sent s' = sent s ∧ writing s' = None
  ∧ requested s' = sent s ++ write_queue s' ++ posted s'.
Proof.
  intros Hr Hf Hrun.
  assert (session_ok s' ∧ write_failed s' = true ∧ sent s' = sent s) as (Hok & Hf' & Hsent).
  { revert Hrun. apply (rtc_ind_r (λ x, session_ok x ∧ write_failed x = true ∧ sent x = sent s)).
    - split; [by apply (session_reachable_ok cfg self)|done].
    - intros s1 s2 _ Hstep (Hok & Hf1 & Hs1).
      split; [by destruct (session_handler_ok _ _ _ _ Hok Hstep) as (? & [= <-] & ?)|].
      unfold session_step in Hstep. remember (Returns s2) as o eqn:Eo. destruct Hstep as [msg|msg ps Hp|failed Hw|data q Hrd Hopen].
      + injection Eo as <-. by rewrite <-Hf1, <-Hs1.
      + destruct (run_send_ok msg ps s1 Hok Hp) as (s3 & Heq & _ & ? & ?). rewrite Heq in Eo.
        injection Eo as <-. split; congruence.
      + destruct (silent_after_failure _ Hok Hf1) as [Hnone _]. rewrite Hnone in Hw. by destruct Hw.
      + destruct (on_read_ok cfg self data s1 q Hok Hrd Hopen) as (s3 & q' & sig & Heq & _ & ? & ?).
        rewrite Heq in Eo. injection Eo as <-. split; congruence. }
  split_and!; try done; [by apply (silent_after_failure _ Hok)|].
  rewrite <-Hsent. apply (in_order _ Hok).
Qed.

(** ** Witnesses *)
Section witnesses.

(** Events, with the incoming queue that a read finds. *)
Inductive session_event :=
  | EvSend (msg : string)
  | EvPosted
  | EvWrote (failed : bool)
  | EvRead (data : string) (q : queue incoming_packet).

Definition small_queue : queue_config := bounded_config 1 1000.

Definition session_event_run (e : session_event) (s : session) : option session :=
  match e with
  | EvSend msg => Some (send msg s)
  | EvPosted =>
      match posted s with
      | msg :: ps => match run_send msg (with_posted ps s) with Returns s' => Some s' | _ => None end
      | [] => None
      end
  | EvWrote failed =>
      match writing s, on_write failed s with Some _, Returns s' => Some s' | _, _ => None end
  | EvRead data q =>
      if reading s && is_open s then
        match on_read small_queue 0 (Some data) s q with Returns (s', _, _) => Some s' | _ => None end
      else None
  end.

Fixpoint session_events_run (es : list session_event) (s : session) : option session :=
  match es with
  | [] => Some s
  | e :: es' => match session_event_run e s with Some s1 => session_events_run es' s1 | None => None end
  end.

Lemma session_event_sound e s s' : session_event_run e s = Some s' → session_step small_queue 0 s s'.
Proof.
  unfold session_step, session_event_run. destruct e as [msg| |failed|data q]; intros Hrun.
  - simplify_eq. constructor.
  - destruct (posted s) as [|msg ps] eqn:E; [done|].
    destruct (run_send _ _) eqn:Er; simplify_eq. rewrite <-Er. by constructor.
  - destruct (writing s) eqn:E; [|done]. destruct (on_write _ _) eqn:Er; simplify_eq.
    rewrite <-Er. constructor. by eexists.
  - destruct (reading s) eqn:Erd, (is_open s) eqn:Eo; try done. cbn [andb] in Hrun.
    destruct (on_read small_queue 0 (Some data) s q) as [[[s1 q1] sig]| |] eqn:Er; simplify_eq.
    pose proof (handler_read small_queue 0 s (Some data) q Erd (λ _, Eo)) as Hh. by rewrite Er in Hh.
Qed.

Lemma session_events_sound es s s' :
  session_events_run es s = Some s' → rtc (session_step small_queue 0) s s'.
Proof.
  revert s. induction es as [|e es IH]; intros s; simpl; [by intros [= ->]|].
  destruct (session_event_run e s) as [s1|] eqn:E; [|done]. intros Hrun.
  eapply rtc_l; [by apply (session_event_sound e)|by apply IH].
Qed.

Definition session_after (es : list session_event) : session :=
  default new_session (session_events_run es (with_reading true new_session)).

Definition chatter : list session_event :=
  [EvSend "a"; EvSend "b"; EvPosted; EvPosted; EvWrote false; EvWrote false].

Lemma websocket_messages_in_order_witness :
  let s := session_after chatter in
  sent s = ["a"; "b"]
  ∧ requested s = sent s ++ write_queue s ++ posted s
  ∧ (∀ msg, writing s = Some msg → head (write_queue s) = Some msg)
  ∧ (∀ o, session_handler small_queue 0 s o → ∃ s', o = Returns s')
  ∧ (write_failed s = false → posted s = [] → writing s = None → sent s = requested s).
Proof.
  split; [vm_compute; reflexivity|]. apply (websocket_messages_in_order small_queue 0 (session_after chatter)).
  apply (session_events_sound chatter). vm_compute. reflexivity.
Defined.

Definition full_queue : queue incoming_packet := Queue [IncomingPacket 1 "x"] false 1.

Definition flood : list session_event := [EvRead "a" new_queue; EvRead "b" full_queue].

Lemma flooding_closes_the_session_witness :
  let s := session_after flood in
  accepted s = ["a"]
  ∧ ((received s = accepted s ∧ is_open s = true)
     ∨ (is_open s = false ∧ ∃ refused, received s = accepted s ++ [refused])).
Proof.
  split; [vm_compute; reflexivity|]. apply (flooding_closes_the_session small_queue 0 (session_after flood)).
  apply (session_events_sound flood). vm_compute. reflexivity.
Defined.

Definition broken : list session_event := [EvSend "a"; EvPosted; EvWrote true].

Definition after_broken : session :=
  default new_session (session_events_run [EvSend "b"; EvPosted; EvSend "c"; EvPosted] (session_after broken)).

Lemma failed_write_silences_the_session_witness :
  write_queue after_broken = ["a"; "b"; "c"]
  ∧ write_failed after_broken = true ∧ sent after_broken = sent (session_after broken)
  ∧ writing after_broken = None
  ∧ requested after_broken = sent (session_after broken) ++ write_queue after_broken ++ posted after_broken.
Proof.
  split; [reflexivity|].
  apply (failed_write_silences_the_session small_queue 0 (session_after broken) after_broken).
  - apply (session_events_sound broken). vm_compute. reflexivity.
  - reflexivity.
  - apply (session_events_sound [EvSend "b"; EvPosted; EvSend "c"; EvPosted]). vm_compute. reflexivity.
Defined.
End witnesses.
