(* ===== verification/PersistentServer.v ===== *)
(** * The persistent server: [src/network/servers/persistent_server_base.hpp]

    The sessions of a WebSocket server, the accept handler, [broadcast], and the
    [update] of [testing/servers/broadcast_server.hpp], which sends every
    incoming packet to all active sessions.  The update thread runs [update] to
    its end on the state it finds; what happens when the context thread works
    meanwhile is in [BroadcastServer.v]. *)
From S2P Require Import Prelude ThreadSafeQueue WebSocketSession.

(** The default limits of [incoming_packets_queue]. *)
Definition DEFAULT_MAX_INCOMING_PACKETS : Z := 128 * 1024.
Definition DEFAULT_MAX_INCOMING_BYTES : Z := 64 * 1024 * 1024.

Definition default_incoming_queue : queue_config :=
  bounded_config DEFAULT_MAX_INCOMING_PACKETS DEFAULT_MAX_INCOMING_BYTES.

(** A [shared_ptr<websocket_session>]: null, or the number of the session.
    [active_sessions] is listed in its iteration order. *)
Record persistent_server := PersistentServer {
  sessions : gmap nat session;
  active_sessions : list (option nat);
  incoming_packets_queue : queue incoming_packet;
  (** Members of [broadcast_server]. *)
  processed_packets_count : Z;
  last_received_payload : string
}.

(** [std::atomic<int>::operator++] wraps around. *)
Definition wrap_int (z : Z) : Z := ((z + 2147483648) mod 4294967296 - 2147483648)%Z.

Definition is_i32 (z : Z) : Prop := (-2147483648 ≤ z < 2147483648)%Z.

Section persistent_server.
Context (cfg : queue_config).
Implicit Types (srv : persistent_server) (msg : string) (k : nat).

Definition new_server : persistent_server := PersistentServer ∅ [] new_queue 0 "".

Definition with_sessions v srv := PersistentServer v (active_sessions srv)
  (incoming_packets_queue srv) (processed_packets_count srv) (last_received_payload srv).

(** [active_sessions.insert(session)], at some place of the iteration order. *)
Definition insert_session (place : nat) k (active : list (option nat)) : list (option nat) :=
  if decide (Some k ∈ active) then active else take place active ++ Some k :: drop place active.

(** [setup_client_connection]: the session [k] is a new object. *)
Definition setup_client_connection (place k : nat) srv : persistent_server :=
  PersistentServer (<[k := new_session]> (sessions srv)) (insert_session place k (active_sessions srv))
    (incoming_packets_queue srv) (processed_packets_count srv) (last_received_payload srv).

(** The completion handler of [async_accept]; the boolean tells whether it
    accepts again. *)
Definition on_accept_client (failed running : bool) (place k : nat) srv : persistent_server * bool :=
  (if failed then srv else setup_client_connection place k srv, running).

(** [remove_session], which nothing calls. *)
Definition remove_session k srv : persistent_server :=
  PersistentServer (sessions srv) (filter (λ p, p ≠ Some k) (active_sessions srv))
    (incoming_packets_queue srv) (processed_packets_count srv) (last_received_payload srv).

(** The loop of [broadcast]: the pointers kept, and the sessions. *)
Fixpoint broadcast_loop msg (todo : list (option nat)) (ss : gmap nat session)
    : list (option nat) * gmap nat session :=
  match todo with
  | [] => ([], ss)
  | Some k :: todo' =>
      let '(kept, ss') := broadcast_loop msg todo' (alter (send msg) k ss) in
      (Some k :: kept, ss')
  | None :: todo' => broadcast_loop msg todo' ss
  end.

Definition broadcast msg srv : persistent_server :=
  let '(kept, ss) := broadcast_loop msg (active_sessions srv) (sessions srv) in
  PersistentServer ss kept (incoming_packets_queue srv) (processed_packets_count srv)
    (last_received_payload srv).

(** One turn of the loop of [broadcast_server::update]. *)
Definition process_packet srv : outcome persistent_server :=
  let! ' (packet, q) := pop_front cfg (incoming_packets_queue srv) in
  Returns (broadcast (payload packet)
    (PersistentServer (sessions srv) (active_sessions srv) q
      (wrap_int (processed_packets_count srv + 1)) (payload packet))).

(** [while (!incoming_packets_queue.empty()) ...]; [None]: more turns are needed. *)
Fixpoint update_loop (fuel : nat) srv : option (outcome persistent_server) :=
  if empty (incoming_packets_queue srv) then Some (Returns srv)
  else
    match fuel with
    | 0 => None
    | S fuel' =>
        match process_packet srv with
        | Returns srv' => update_loop fuel' srv'
        | o => Some o
        end
    end.

Definition update srv : option (outcome persistent_server) :=
  update_loop (length (dequeue (incoming_packets_queue srv))) srv.

(** ** What a broadcast does *)

(** Every active pointer is to a session that exists, and none is repeated. *)
Record active_ok srv : Prop := ActiveOk {
  active_live : ∀ k, Some k ∈ active_sessions srv → is_Some (sessions srv !! k);
  active_once : NoDup (active_sessions srv)
}.

(** A session that was given the messages [msgs], in this order. *)
Definition sent_all (msgs : list string) (s : session) : session := foldl (flip send) s msgs.

Lemma broadcast_loop_spec msg todo ss :
  NoDup todo →
  (broadcast_loop msg todo ss).1 = filter (λ p, is_Some p) todo
  ∧ ∀ k, (broadcast_loop msg todo ss).2 !! k
      = if decide (Some k ∈ todo) then send msg <$> ss !! k else ss !! k.
Proof.
  intros Hnd. revert ss. induction Hnd as [|p todo Hp Hnd IH]; intros ss.
  { split; [done|]. intros k. by rewrite decide_False by apply not_elem_of_nil. }
  destruct p as [k0|]; cbn [broadcast_loop].
  - destruct (IH (alter (send msg) k0 ss)) as [Hkept Hss].
    destruct (broadcast_loop msg todo _) as [kept ss']. simpl in *. split.
    { rewrite filter_cons_True by done. by rewrite Hkept. }
    intros k. rewrite Hss. destruct (decide (k = k0)) as [->|Hne].
    + rewrite lookup_alter_eq, (decide_False (P := Some k0 ∈ todo)) by done. rewrite decide_True by (by left). done.
    + rewrite lookup_alter_ne by done. destruct (decide (Some k ∈ todo)) as [Hin|Hin].
      * by rewrite decide_True by (by right).
      * rewrite decide_False; [done|]. intros [[= ?]|?]%elem_of_cons; done.
  - destruct (IH ss) as [Hkept Hss]. split.
    { rewrite filter_cons_False by (by intros [? ?]). done. }
    intros k. rewrite Hss. destruct (decide (Some k ∈ todo)) as [Hin|Hin].
    + by rewrite decide_True by (by right).
    + rewrite decide_False; [done|]. intros [?|?]%elem_of_cons; done.
Qed.

Lemma active_filtered (ps : list (option nat)) k : Some k ∈ filter (λ p, is_Some p) ps ↔ Some k ∈ ps.
Proof. rewrite list_elem_of_filter. split; [by intros [_ ?]|]. intros ?. split; [by eexists|done]. Qed.

Lemma broadcast_spec msg srv :
  active_ok srv →
  let srv' := broadcast msg srv in
  active_ok srv' ∧ (∀ k, Some k ∈ active_sessions srv' ↔ Some k ∈ active_sessions srv)
  ∧ (∀ k, sessions srv' !! k
      = if decide (Some k ∈ active_sessions srv) then send msg <$> sessions srv !! k else sessions srv !! k)
  ∧ incoming_packets_queue srv' = incoming_packets_queue srv
  ∧ processed_packets_count srv' = processed_packets_count srv
  ∧ last_received_payload srv' = last_received_payload srv.
Proof.
  intros [Hlive Honce]. cbv zeta. unfold broadcast.
  destruct (broadcast_loop_spec msg (active_sessions srv) (sessions srv) Honce) as [Hkept Hss].
  destruct (broadcast_loop msg _ _) as [kept ss]. simpl in *. subst kept.
  split_and!; try done; [|by intros k; apply active_filtered].
  split; simpl; [|by apply NoDup_filter]. intros k Hk. rewrite active_filtered in Hk.
  rewrite Hss, decide_True by done. apply fmap_is_Some. by apply Hlive.
Qed.

Lemma process_packet_spec srv packet ps :
  active_ok srv → dequeue (incoming_packets_queue srv) = packet :: ps →
  ∃ srv', process_packet srv = Returns srv' ∧ active_ok srv'
    ∧ dequeue (incoming_packets_queue srv') = ps
    ∧ (∀ k, Some k ∈ active_sessions srv' ↔ Some k ∈ active_sessions srv)
    ∧ (∀ k, sessions srv' !! k
        = if decide (Some k ∈ active_sessions srv)
          then send (payload packet) <$> sessions srv !! k else sessions srv !! k)
    ∧ processed_packets_count srv' = wrap_int (processed_packets_count srv + 1)
    ∧ last_received_payload srv' = payload packet.
Proof.
  intros Hok Hq. unfold process_packet, pop_front. rewrite Hq. cbn [outcome_bind].
  set (srv1 := PersistentServer _ _ _ _ _).
  assert (active_ok srv1) as Hok1 by (destruct Hok; by split).
  destruct (broadcast_spec (payload packet) srv1 Hok1) as (Hok' & Hact & Hss & Hqueue & Hcount & Hlast).
  eexists. split; [reflexivity|]. split; [done|]. split.
  { rewrite Hqueue. simpl. unfold drop_front, removal_protocol. by destruct (bytes_limited cfg); simpl; rewrite Hq. }
  split_and!; try done.
Qed.

Lemma wrap_int_add a b : wrap_int (wrap_int a + b) = wrap_int (a + b).
Proof.
  unfold wrap_int. f_equal.
  replace ((a + 2147483648) mod 4294967296 - 2147483648 + b + 2147483648)%Z
    with ((a + 2147483648) mod 4294967296 + b)%Z by lia.
  rewrite Zplus_mod_idemp_l. f_equal. lia.
Qed.

Lemma wrap_int_small z : is_i32 z → wrap_int z = z.
Proof. unfold is_i32, wrap_int. intros Hz. rewrite Z.mod_small by lia. lia. Qed.

Lemma wrap_int_range z : is_i32 (wrap_int z).
Proof.
  unfold is_i32, wrap_int. pose proof (Z.mod_pos_bound (z + 2147483648) 4294967296 ltac:(done)). lia.
Qed.

Lemma update_loop_spec fuel srv :
  active_ok srv → length (dequeue (incoming_packets_queue srv)) ≤ fuel →
  is_i32 (processed_packets_count srv) →
  let payloads := payload <$> dequeue (incoming_packets_queue srv) in
  ∃ srv', update_loop fuel srv = Some (Returns srv')
    ∧ dequeue (incoming_packets_queue srv') = []
    ∧ (∀ k, sessions srv' !! k
        = if decide (Some k ∈ active_sessions srv)
          then sent_all payloads <$> sessions srv !! k else sessions srv !! k)
    ∧ (∀ k, Some k ∈ active_sessions srv' ↔ Some k ∈ active_sessions srv)
    ∧ processed_packets_count srv' = wrap_int (processed_packets_count srv + zlen payloads)
    ∧ last_received_payload srv' = default (last_received_payload srv) (last payloads).
Proof.
  cbv zeta. revert srv. induction fuel as [|fuel IH]; intros srv Hok Hfuel Hint; simpl.
  - unfold empty. destruct (dequeue (incoming_packets_queue srv)) as [|packet ps] eqn:Eq;
      [|simpl in Hfuel; lia].
    exists srv. split_and!; try done; [|unfold zlen; simpl; by rewrite Z.add_0_r, wrap_int_small].
    intros k. case_decide; [|done]. unfold sent_all. simpl. by rewrite option_fmap_id.
  - unfold empty. destruct (dequeue (incoming_packets_queue srv)) as [|packet ps] eqn:Eq.
    { exists srv. split_and!; try done; [|unfold zlen; simpl; by rewrite Z.add_0_r, wrap_int_small].
      intros k. case_decide; [|done]. unfold sent_all. simpl. by rewrite option_fmap_id. }
    destruct (process_packet_spec srv packet ps Hok Eq)
      as (srv1 & -> & Hok1 & Hq1 & Hact1 & Hss1 & Hcount1 & Hlast1).
    simpl in Hfuel. destruct (IH srv1 Hok1) as (srv' & -> & Hq' & Hss' & Hact' & Hcount' & Hlast').
    { rewrite Hq1. lia. }
    { rewrite Hcount1. apply wrap_int_range. }
    exists srv'. split_and!; try done.
    + intros k. rewrite Hss', Hss1. destruct (decide (Some k ∈ active_sessions srv)) as [Hk|Hk].
      * rewrite decide_True by by apply Hact1. rewrite Hq1. by destruct (sessions srv !! k).
      * rewrite decide_False; [done|]. by rewrite Hact1.
    + intros k. by rewrite Hact', Hact1.
    + rewrite Hcount', Hcount1, Hq1, wrap_int_add, fmap_cons, zlen_cons. f_equal. lia.
    + rewrite Hlast', Hlast1, Hq1, fmap_cons, last_cons. by destruct (last (payload <$> ps)).
Qed.
End persistent_server.

(** ** Properties *)

(** One [update] of the broadcast server terminates without throwing, empties
    the incoming queue, and hands every payload, in queue order, to [send] of
    every active session and of no other session; the packets are counted. *)
Theorem update_broadcasts_every_packet (cfg : queue_config) (srv : persistent_server) :
  active_ok srv → is_i32 (processed_packets_count srv) →
  let payloads := payload <$> dequeue (incoming_packets_queue srv) in
  ∃ srv', update cfg srv = Some (Returns srv')
    ∧ dequeue (incoming_packets_queue srv') = []
    ∧ (∀ k s, sessions srv !! k = Some s → Some k ∈ active_sessions srv →
         ∃ s', sessions srv' !! k = Some s' ∧ posted s' = posted s ++ payloads
           ∧ requested s' = requested s ++ payloads ∧ sent s' = sent s)
    ∧ (∀ k, Some k ∉ active_sessions srv → sessions srv' !! k = sessions srv !! k)
    ∧ processed_packets_count srv' = wrap_int (processed_packets_count srv + zlen payloads)
    ∧ last_received_payload srv' = default (last_received_payload srv) (last payloads).
Proof.
  intros Hok Hint. cbv zeta.
  destruct (update_loop_spec cfg _ srv Hok (le_n _) Hint) as (srv' & Hrun & Hq & Hss & _ & Hcount & Hlast).
  exists srv'. split; [exact Hrun|]. split_and!; try done.
  - intros k s Hk Hact. exists (sent_all (payload <$> dequeue (incoming_packets_queue srv)) s).
    rewrite Hss, decide_True, Hk by done. split; [done|].
    generalize (payload <$> dequeue (incoming_packets_queue srv)). clear. intros msgs.
    revert s. induction msgs as [|msg msgs IH]; intros s; [simpl; by rewrite !app_nil_r|].
    change (sent_all (msg :: msgs) s) with (sent_all msgs (send msg s)).
    destruct (IH (send msg s)) as (-> & -> & ->). simpl. by rewrite <-!app_assoc.
  - intros k Hk. by rewrite Hss, decide_False.
Qed.

(** ** Witness: two sessions, one of them closed by nobody *)
Section witnesses.
Definition two_sessions : persistent_server :=
  let srv := setup_client_connection 0 1 (setup_client_connection 0 0 new_server) in
  PersistentServer (sessions srv) (active_sessions srv)
    (Queue [IncomingPacket 0 "hello"; IncomingPacket 1 "bye"] false 8) 0 "".

Lemma update_broadcasts_every_packet_witness :
  ∃ srv', update (bounded_config 10 100) two_sessions = Some (Returns srv')
    ∧ dequeue (incoming_packets_queue srv') = []
    ∧ (∀ k s, sessions two_sessions !! k = Some s → Some k ∈ active_sessions two_sessions →
         ∃ s', sessions srv' !! k = Some s' ∧ posted s' = posted s ++ ["hello"; "bye"]
           ∧ requested s' = requested s ++ ["hello"; "bye"] ∧ sent s' = sent s)
    ∧ (∀ k, Some k ∉ active_sessions two_sessions → sessions srv' !! k = sessions two_sessions !! k)
    ∧ processed_packets_count srv' = 2%Z
    ∧ last_received_payload srv' = "bye".
Proof.
  apply (update_broadcasts_every_packet (bounded_config 10 100) two_sessions).
  - split; [|by apply (bool_decide_eq_true_1 _)]. intros k. simpl.
    intros [[= ->]|[[= ->]|Hk%elem_of_nil]%elem_of_cons]%elem_of_cons; [by eexists..|done].
  - by vm_compute.
Defined.
End witnesses.
