(* ===== verification/BroadcastServer.v ===== *)
(** * The broadcast server as a whole

    The composition of [persistent_server_base] and
    [testing/servers/broadcast_server.hpp]: the context thread (accepting,
    handshakes, the handlers of the sessions) and the update thread, which pops
    the packets that the sessions read and hands each to every active session.
    The update thread is cut into its accesses to shared state: the test of
    [empty()], [pop_front], and one step for each session [broadcast] visits.
    [active_sessions] has no lock, so a client that connects while [broadcast]
    iterates over it is a data race: that step is [Undefined]. *)
From S2P Require Import Prelude ThreadSafeQueue WebSocketSession PersistentServer.

(** Where the update thread is. *)
Inductive updater :=
  | BetweenFrames
  (** In [update], before [empty()] and before [pop_front()]. *)
  | InUpdate
  | SawPacket
  (** In [broadcast]: the pointers visited and kept, and those to come. *)
  | Broadcasting (msg : string) (visited todo : list (option nat)).

(** [arrived], [broadcasted] and [joined] are history: the packets the incoming
    queue accepted, the payloads popped, and how many had been popped when a
    session joined. *)
Record broadcast_server := BroadcastServer {
  base : persistent_server;
  handshaking : gset nat;
  updating : updater;
  arrived : list incoming_packet;
  broadcasted : list string;
  joined : gmap nat nat
}.

Section broadcast_server.
Context (cfg : queue_config).
Implicit Types (s : broadcast_server) (ss : session) (k : nat).

Definition initial_broadcast_server : broadcast_server :=
  BroadcastServer new_server ∅ BetweenFrames [] [] ∅.

Definition session_of s k : option session := sessions (base s) !! k.

(** Session [k] has become [ss], and the queue [q] with the packets [ps] added. *)
Definition with_session k ss (q : queue incoming_packet) (ps : list incoming_packet) s : broadcast_server :=
  BroadcastServer (PersistentServer (<[k := ss]> (sessions (base s))) (active_sessions (base s)) q
      (processed_packets_count (base s)) (last_received_payload (base s)))
    (handshaking s) (updating s) (arrived s ++ ps) (broadcasted s) (joined s).

Definition only_session k ss s : broadcast_server :=
  with_session k ss (incoming_packets_queue (base s)) [] s.

Definition with_updating u s : broadcast_server :=
  BroadcastServer (base s) (handshaking s) u (arrived s) (broadcasted s) (joined s).

(** ** The context thread *)

(** A client is accepted: [setup_client_connection]. *)
Definition connects (place k : nat) s : outcome broadcast_server :=
  match updating s with
  | Broadcasting _ _ _ => Undefined
  | _ => Returns (BroadcastServer (setup_client_connection place k (base s)) ({[k]} ∪ handshaking s)
           (updating s) (arrived s) (broadcasted s) (<[k := length (broadcasted s)]> (joined s)))
  end.

(** The handshake of session [k] is over. *)
Definition handshakes k (failed : bool) ss s : outcome broadcast_server :=
  let! ss' := on_accept failed ss in
  Returns (BroadcastServer (base (only_session k ss' s)) (handshaking s ∖ {[k]}) (updating s)
    (arrived s) (broadcasted s) (joined s)).

(** What a read adds to the packets that arrived. *)
Definition arrival k (data : option string) (q : queue incoming_packet) : list incoming_packet :=
  match data with
  | None => []
  | Some d =>
      let '(ok, _, _) := try_push_back cfg (IncomingPacket k d) q in
      if ok then [IncomingPacket k d] else []
  end.

Definition reads k (data : option string) ss s : outcome broadcast_server :=
  let q := incoming_packets_queue (base s) in
  let! ' (ss', q', _) := on_read cfg k data ss q in
  Returns (with_session k ss' q' (arrival k data q) s).

(** ** The update thread *)

(** [while (!incoming_packets_queue.empty())]. *)
Definition checks_empty s : broadcast_server :=
  with_updating (if empty (incoming_packets_queue (base s)) then BetweenFrames else SawPacket) s.

(** [pop_front], the two members, and the call of [broadcast]. *)
Definition pops s : outcome broadcast_server :=
  let! ' (packet, q) := pop_front cfg (incoming_packets_queue (base s)) in
  Returns (BroadcastServer (PersistentServer (sessions (base s)) (active_sessions (base s)) q
      (wrap_int (processed_packets_count (base s) + 1)) (payload packet))
    (handshaking s) (Broadcasting (payload packet) [] (active_sessions (base s)))
    (arrived s) (broadcasted s ++ [payload packet]) (joined s)).

(** One turn of the loop of [broadcast], or its end. *)
Definition visits (msg : string) (visited todo : list (option nat)) s : broadcast_server :=
  match todo with
  | [] => with_updating InUpdate s
  | Some k :: todo' =>
      BroadcastServer (PersistentServer (alter (send msg) k (sessions (base s)))
          (active_sessions (base s)) (incoming_packets_queue (base s))
          (processed_packets_count (base s)) (last_received_payload (base s)))
        (handshaking s) (Broadcasting msg (visited ++ [Some k]) todo') (arrived s) (broadcasted s)
        (joined s)
  | None :: todo' =>
      BroadcastServer (PersistentServer (sessions (base s)) (visited ++ todo')
          (incoming_packets_queue (base s)) (processed_packets_count (base s))
          (last_received_payload (base s)))
        (handshaking s) (Broadcasting msg visited todo') (arrived s) (broadcasted s) (joined s)
  end.

(** ** Events *)
Inductive broadcast_event :=
  | Connects (place k : nat)
  | Handshakes (k : nat) (failed : bool)
  | Reads (k : nat) (data : option string)
  | RunsPosted (k : nat)
  | Wrote (k : nat) (failed : bool)
  | FrameStarts
  | UpdateSteps.

(** What the event leads to; [None] if it cannot happen. *)
Definition broadcast_step (e : broadcast_event) s : option (outcome broadcast_server) :=
  match e with
  | Connects place k =>
      match session_of s k with Some _ => None | None => Some (connects place k s) end
  | Handshakes k failed =>
      ss ← session_of s k;
      if decide (k ∈ handshaking s) then Some (handshakes k failed ss s) else None
  | Reads k data =>
      ss ← session_of s k;
      if reading ss && (is_open ss || negb (bool_decide (is_Some data)))
      then Some (reads k data ss s) else None
  | RunsPosted k =>
      ss ← session_of s k;
      match posted ss with
      | [] => None
      | msg :: ps => Some (let! ss' := run_send msg (with_posted ps ss) in Returns (only_session k ss' s))
      end
  | Wrote k failed =>
      ss ← session_of s k;
      match writing ss with
      | None => None
      | Some _ => Some (let! ss' := on_write failed ss in Returns (only_session k ss' s))
      end
  | FrameStarts =>
      match updating s with BetweenFrames => Some (Returns (with_updating InUpdate s)) | _ => None end
  | UpdateSteps =>
      match updating s with
      | BetweenFrames => None
      | InUpdate => Some (Returns (checks_empty s))
      | SawPacket => Some (pops s)
      | Broadcasting msg visited todo => Some (Returns (visits msg visited todo s))
      end
  end.

Definition broadcast_steps s s' : Prop := ∃ e, broadcast_step e s = Some (Returns s').

Definition broadcast_reachable s : Prop := rtc broadcast_steps initial_broadcast_server s.

Fixpoint broadcast_run (es : list broadcast_event) s : option broadcast_server :=
  match es with
  | [] => Some s
  | e :: es' =>
      match broadcast_step e s with
      | Some (Returns s') => broadcast_run es' s'
      | _ => None
      end
  end.

Lemma broadcast_run_steps es s s' : broadcast_run es s = Some s' → rtc broadcast_steps s s'.
Proof.
  revert s. induction es as [|e es IH]; intros s; simpl; [by intros [= ->]|].
  destruct (broadcast_step e s) as [[s1| |]|] eqn:E; try done.
  intros Hrun. eapply rtc_l; [by exists e|by apply IH].
Qed.

(** ** Invariant *)

(** The payloads that have reached session [k] if it was there all along: the
    one being broadcast has not if the session is still to be visited. *)
Definition delivered_to k s : list string :=
  match updating s with
  | Broadcasting _ _ todo =>
      if decide (Some k ∈ todo) then removelast (broadcasted s) else broadcasted s
  | _ => broadcasted s
  end.

(** The payloads that arrived from session [k]. *)
Definition arrived_from k s : list string :=
  payload <$> filter (λ p, packet_session p = k) (arrived s).

Record member_ok s k ss : Prop := MemberOk {
  member_session : session_ok ss;
  member_accepted : accepted ss = arrived_from k s;
  member_requested : ∃ n, joined s !! k = Some n ∧ n ≤ length (delivered_to k s)
    ∧ requested ss = drop n (delivered_to k s);
  member_active : Some k ∈ active_sessions (base s);
  member_handshaking : k ∈ handshaking s → reading ss = false
}.

Record broadcast_ok s : Prop := BroadcastOk {
  first_in_first_out : payload <$> arrived s = broadcasted s ++ (payload <$> dequeue (incoming_packets_queue (base s)));
  saw_packet : updating s = SawPacket → dequeue (incoming_packets_queue (base s)) ≠ [];
  active_known : active_ok (base s);
  iterating msg visited todo : updating s = Broadcasting msg visited todo →
    active_sessions (base s) = visited ++ todo ∧ last (broadcasted s) = Some msg;
  members_ok k ss : session_of s k = Some ss → member_ok s k ss;
  handshaking_known k : k ∈ handshaking s → is_Some (session_of s k);
  arrived_known p : p ∈ arrived s → is_Some (session_of s (packet_session p))
}.
End broadcast_server.

(** ** What the handlers of a session change *)
Section handlers.
Context (cfg : queue_config).
Implicit Types (ss : session) (q : queue incoming_packet).

(** The fields of a session that only [send] and [async_read] change. *)
Definition same_traffic ss ss' : Prop :=
  requested ss' = requested ss ∧ accepted ss' = accepted ss ∧ reading ss' = reading ss.

Lemma write_message_keeps ss ss' : write_message_async ss = Returns ss' → same_traffic ss ss'.
Proof. intros (_ & msg & _ & ->)%write_message_async_cases. by split_and!. Qed.

Lemma run_send_keeps msg ss ss' : run_send msg ss = Returns ss' → same_traffic ss ss'.
Proof.
  unfold run_send. destruct (write_queue ss) as [|m ms]; cbv zeta iota.
  - by intros ?%write_message_keeps.
  - intros E. by injection E as <-.
Qed.

Lemma on_write_keeps failed ss ss' : on_write failed ss = Returns ss' → same_traffic ss ss'.
Proof.
  unfold on_write. destruct failed; [intros E; by injection E as <-|].
  cbv zeta. cbn [write_queue with_writing]. destruct (write_queue ss) as [|m [|m' ms]]; [done| |].
  - intros E. by injection E as <-.
  - by intros ?%write_message_keeps.
Qed.

Lemma arrival_push k d q :
  ∃ q' sig, try_push_back cfg (IncomingPacket k d) q
      = (bool_decide (arrival cfg k (Some d) q ≠ []), q', sig)
    ∧ dequeue q' = dequeue q ++ arrival cfg k (Some d) q
    ∧ arrival cfg k (Some d) q = (if bool_decide (arrival cfg k (Some d) q ≠ []) then [IncomingPacket k d] else []).
Proof.
  unfold arrival. destruct (try_push_back_shape cfg (IncomingPacket k d) q) as [(q' & -> & Hd & _)| ->];
    simpl; eexists _, _; split_and!; try done. by rewrite app_nil_r.
Qed.

Lemma on_read_keeps k data ss q ss' q' sig :
  on_read cfg k data ss q = Returns (ss', q', sig) →
  requested ss' = requested ss
  ∧ accepted ss' = accepted ss ++ (payload <$> arrival cfg k data q)
  ∧ dequeue q' = dequeue q ++ arrival cfg k data q.
Proof.
  unfold on_read. destruct data as [d|]; [|intros [= <- <- <-]; simpl; by rewrite !app_nil_r].
  unfold push_incoming_packet. destruct (arrival_push k d q) as (q1 & sig1 & -> & Hd & Ha).
  generalize dependent (arrival cfg k (Some d) q). intros l Hd Ha.
  set (ok := bool_decide _) in *. simpl. intros E. injection E as <- <- <-. simpl. split_and!; [done| |done].
  rewrite Ha. by destruct ok; rewrite ?app_nil_r.
Qed.
End handlers.

(** ** The steps keep the invariant *)
Section steps.
Context (cfg : queue_config).
Implicit Types (s : broadcast_server) (ss : session) (k : nat).

Lemma broadcast_ok_initial : broadcast_ok initial_broadcast_server.
Proof.
  split; simpl; try done.
  - split; [by intros k Hk%elem_of_nil|by apply NoDup_nil].
  - by intros p Hp%elem_of_nil.
Qed.

(** A session changes and the queue takes a packet, or not. *)
Lemma session_step_ok s k ss ss' q' (ps : list incoming_packet) :
  broadcast_ok s → session_of s k = Some ss → session_ok ss' →
  requested ss' = requested ss → accepted ss' = accepted ss ++ (payload <$> ps) →
  (k ∈ handshaking s → reading ss' = false) →
  dequeue q' = dequeue (incoming_packets_queue (base s)) ++ ps →
  Forall (λ p, packet_session p = k) ps →
  broadcast_ok (with_session k ss' q' ps s).
Proof.
  intros [Hf Hsaw Hact Hit Hmem Hhs Har] Hk Hok Hreq Hacc Hread Hq Hps.
  assert (∀ k', filter (λ p, packet_session p = k') ps = if decide (k' = k) then ps else []) as Hfil.
  { intros k'. clear Hq Hacc. induction Hps as [|p ps Hp Hps IH]; [by destruct (decide (k' = k))|].
    rewrite filter_cons, IH. subst k.
    destruct (decide (packet_session p = k')), (decide (k' = packet_session p)); congruence. }
  split; simpl; try done.
  - by rewrite Hq, !fmap_app, Hf, app_assoc.
  - intros Hu. rewrite Hq. specialize (Hsaw Hu). by destruct (dequeue (incoming_packets_queue (base s))).
  - destruct Hact as [Hlive Honce]. split; [|done]. simpl. intros k' Hk'.
    rewrite lookup_insert_is_Some'. right. by apply Hlive.
  - unfold session_of. simpl. intros k' ss1 Hk1. destruct (decide (k' = k)) as [->|Hne].
    + rewrite lookup_insert_eq in Hk1. simplify_eq. destruct (Hmem k ss Hk) as [_ Ha Hr Hac Hh].
      split; try done.
      * unfold arrived_from in *. simpl. by rewrite filter_app, fmap_app, Hfil, decide_True, Hacc, Ha.
      * by rewrite Hreq.
    + rewrite lookup_insert_ne in Hk1 by done. destruct (Hmem k' ss1 Hk1) as [? Ha Hr Hac Hh].
      split; try done. unfold arrived_from in *. simpl.
      by rewrite filter_app, fmap_app, Hfil, decide_False, app_nil_r.
  - intros k' Hk'. unfold session_of. simpl. rewrite lookup_insert_is_Some'. right. by apply Hhs.
  - intros p Hp. unfold session_of. simpl. rewrite lookup_insert_is_Some'.
    apply elem_of_app in Hp as [Hp|Hp]; [right; by apply Har|left].
    rewrite Forall_forall in Hps. symmetry. by apply Hps.
Qed.

(** A handler that neither reads nor is given a message. *)
Lemma quiet_handler_ok s k ss ss' :
  broadcast_ok s → session_of s k = Some ss → session_ok ss' → same_traffic ss ss' →
  broadcast_ok (only_session k ss' s).
Proof.
  intros Hs Hk Hok (Hr & Ha & Hrd). apply session_step_ok with ss; try done.
  - by rewrite app_nil_r.
  - rewrite Hrd. apply (members_ok _ Hs k ss Hk).
  - by rewrite app_nil_r.
Qed.

Lemma insert_session_in place k (ps : list (option nat)) p :
  p ∈ insert_session place k ps ↔ p = Some k ∨ p ∈ ps.
Proof.
  unfold insert_session. case_decide as Hin; [set_solver|].
  rewrite elem_of_app, elem_of_cons. rewrite <-(take_drop place ps) at 3. rewrite elem_of_app. naive_solver.
Qed.

Lemma insert_session_NoDup place k (ps : list (option nat)) : NoDup ps → NoDup (insert_session place k ps).
Proof.
  intros Hnd. unfold insert_session. case_decide as Hin; [done|].
  apply (NoDup_Permutation_proper (Some k :: ps)).
  - rewrite <-(take_drop place ps) at 1. apply Permutation_middle.
  - by apply NoDup_cons.
Qed.

Lemma arrived_from_none k (ps : list incoming_packet) :
  (∀ p, p ∈ ps → packet_session p ≠ k) → filter (λ p, packet_session p = k) ps = [].
Proof.
  intros Hps. induction ps as [|p ps IH]; [done|]. rewrite filter_cons_False.
  - apply IH. intros p' Hp'. apply Hps. by right.
  - apply Hps. by left.
Qed.

Lemma connects_ok place k s s' :
  broadcast_ok s → session_of s k = None → connects place k s = Returns s' → broadcast_ok s'.
Proof.
  intros [Hf Hsaw Hact Hit Hmem Hhs Har] Hk Hc.
  assert (∀ msg visited todo, updating s ≠ Broadcasting msg visited todo) as Hnb
    by (intros msg visited todo E; unfold connects in Hc; by rewrite E in Hc).
  assert (s' = BroadcastServer (setup_client_connection place k (base s)) ({[k]} ∪ handshaking s)
    (updating s) (arrived s) (broadcasted s) (<[k := length (broadcasted s)]> (joined s))) as ->.
  { unfold connects in Hc. destruct (updating s) as [| | |msg visited todo]; by simplify_eq. }
  split; simpl; try done.
  - destruct Hact as [Hlive Honce]. split; simpl; [|by apply insert_session_NoDup].
    intros k' [[= ->]|Hk']%insert_session_in; rewrite lookup_insert_is_Some'; [by left|right; by apply Hlive].
  - by intros msg visited todo ?%Hnb.
  - unfold session_of. simpl. intros k' ss Hss. destruct (decide (k' = k)) as [->|Hne].
    + rewrite lookup_insert_eq in Hss. simplify_eq. split; simpl; try done.
      * split; simpl; try done. by left.
      * unfold arrived_from. simpl. rewrite arrived_from_none; [done|].
        intros p Hp <-. destruct (Har p Hp). congruence.
      * rewrite lookup_insert_eq. eexists. split; [done|]. unfold delivered_to. simpl.
        destruct (updating s) as [| | |msg visited todo] eqn:E; [| | |by destruct (Hnb msg visited todo)];
          by rewrite drop_all.
      * apply insert_session_in. by left.
    + rewrite lookup_insert_ne in Hss by done. destruct (Hmem k' ss Hss) as [? Ha Hr Hac Hh].
      split; simpl; try done; [by rewrite lookup_insert_ne|apply insert_session_in; by right|].
      intros [?%elem_of_singleton|?]%elem_of_union; [done|by apply Hh].
  - intros k' Hk'. unfold session_of. simpl. rewrite lookup_insert_is_Some'.
    apply elem_of_union in Hk' as [->%elem_of_singleton|Hk']; [by left|right; by apply Hhs].
  - intros p Hp. unfold session_of. simpl. rewrite lookup_insert_is_Some'. right. by apply Har.
Qed.

Lemma handshakes_ok k failed ss s s' :
  broadcast_ok s → session_of s k = Some ss → k ∈ handshaking s →
  handshakes k failed ss s = Returns s' → broadcast_ok s'.
Proof.
  intros Hs Hk Hin Hh. unfold handshakes in Hh.
  destruct (members_ok _ Hs k ss Hk) as [Hok _ _ _ Hnr]. specialize (Hnr Hin).
  unfold on_accept, read_message_async in Hh. rewrite Hnr in Hh.
  set (ss' := if failed then ss else with_reading true ss).
  assert (s' = BroadcastServer (base (only_session k ss' s)) (handshaking s ∖ {[k]}) (updating s)
    (arrived s) (broadcasted s) (joined s)) as -> by (by destruct failed; injection Hh as <-).
  assert (session_ok ss') as Hok' by (unfold ss'; by destruct failed; [|destruct Hok]).
  destruct Hs as [Hf Hsaw Hact Hit Hmem Hhs Har].
  assert (∀ k', is_Some (sessions (base s) !! k') → is_Some (<[k := ss']> (sessions (base s)) !! k')) as Hsome
    by (intros k' ?; rewrite lookup_insert_is_Some'; by right).
  split; simpl; try done.
  - destruct Hact as [Hlive Honce]. split; [|done]. simpl. intros k' Hk'. by apply Hsome, Hlive.
  - unfold session_of. simpl. intros k' ss1 Hk1. destruct (decide (k' = k)) as [->|Hne].
    + rewrite lookup_insert_eq in Hk1. injection Hk1 as <-. destruct (Hmem k ss Hk) as [_ Ha Hr Hac _].
      split; try done; [unfold ss'; by destruct failed..|]. set_solver.
    + rewrite lookup_insert_ne in Hk1 by done. destruct (Hmem k' ss1 Hk1) as [? Ha Hr Hac Hh'].
      split; try done. simpl. intros [? _]%elem_of_difference. by apply Hh'.
  - intros k' [Hk' _]%elem_of_difference. by apply Hsome, Hhs.
  - intros p Hp. by apply Hsome, Har.
Qed.
(** The update thread moves between broadcasts. *)
Lemma with_updating_ok u s :
  broadcast_ok s → (∀ k, delivered_to k (with_updating u s) = delivered_to k s) →
  (u = SawPacket → dequeue (incoming_packets_queue (base s)) ≠ []) →
  (∀ msg visited todo, u ≠ Broadcasting msg visited todo) → broadcast_ok (with_updating u s).
Proof.
  intros [Hf Hsaw Hact Hit Hmem Hhs Har] Hdel Hu Hnb. split; try done.
  - intros msg visited todo E. by destruct (Hnb msg visited todo).
  - intros k ss Hk. destruct (Hmem k ss Hk) as [? Ha Hr Hac Hh]. split; try done. by rewrite Hdel.
Qed.

(** [broadcast] gives the payload to session [k]. *)
Lemma visit_session_ok k msg visited todo s :
  broadcast_ok s → updating s = Broadcasting msg visited (Some k :: todo) →
  active_sessions (base s) = visited ++ Some k :: todo → last (broadcasted s) = Some msg →
  Some k ∉ todo → broadcast_ok (visits msg visited (Some k :: todo) s).
Proof.
  intros [Hf Hsaw Hact Hit Hmem Hhs Har] Hu Hactive Hlast Hnot.
  assert (∀ k', is_Some (alter (send msg) k (sessions (base s)) !! k') ↔ is_Some (session_of s k')) as Hsome.
  { intros k'. unfold session_of. destruct (decide (k' = k)) as [->|Hne].
    - by rewrite lookup_alter_eq, fmap_is_Some.
    - by rewrite lookup_alter_ne. }
  split; simpl; try done.
  - destruct Hact as [Hlive Honce]. split; [|done]. simpl. intros k' Hk'. by apply Hsome, Hlive.
  - intros msg' visited' todo' [= <- <- <-]. by rewrite <-app_assoc.
  - unfold session_of. simpl. intros k' ss Hss. destruct (decide (k' = k)) as [->|Hne].
    + rewrite lookup_alter_eq in Hss. apply fmap_Some in Hss as (ss0 & Hss0 & ->).
      destruct (Hmem k ss0 Hss0) as [Hok Ha (n & Hn & Hle & Hr) Hac Hh].
      split; simpl; try done; [by apply send_ok|]. exists n. split; [done|].
      unfold delivered_to in *. simpl. rewrite Hu in Hle, Hr. rewrite decide_True in Hle, Hr by (by left).
      rewrite decide_False by done. rewrite Hr, (last_split _ _ Hlast) at 1.
      rewrite (last_split _ _ Hlast). rewrite removelast_last, length_app, drop_app_le by done.
      split; [lia|done].
    + rewrite lookup_alter_ne in Hss by done. destruct (Hmem k' ss Hss) as [? Ha Hr Hac Hh].
      split; simpl; try done. unfold delivered_to in *. simpl. rewrite Hu in Hr.
      destruct (decide (Some k' ∈ todo)) as [Hin|Hin].
      * by rewrite decide_True in Hr by (by right).
      * rewrite decide_False in Hr; [done|]. intros [[= ?]|?]%elem_of_cons; done.
  - intros k' Hk'. by apply Hsome, Hhs.
  - intros p Hp. by apply Hsome, Har.
Qed.

(** [broadcast] visits the next pointer. *)
Lemma visits_ok msg visited todo s :
  broadcast_ok s → updating s = Broadcasting msg visited todo → broadcast_ok (visits msg visited todo s).
Proof.
  intros Hs Hu. destruct (iterating _ Hs _ _ _ Hu) as [Hact Hlast].
  pose proof (active_once _ (active_known _ Hs)) as Hnd. rewrite Hact in Hnd.
  destruct todo as [|[k|] todo]; simpl.
  - apply with_updating_ok; try done. intros k. unfold delivered_to. simpl. rewrite Hu.
    rewrite decide_False; [done|by intros ?%elem_of_nil].
  - apply (visit_session_ok k); [done..|]. apply NoDup_app in Hnd as (_ & _ & Hnd). by apply NoDup_cons in Hnd as [? _].
  - destruct Hs as [Hf Hsaw Hact' Hit Hmem Hhs Har].
    assert (∀ k, Some k ∈ visited ++ None :: todo ↔ Some k ∈ visited ++ todo) as Hsome
      by (intros k; rewrite !elem_of_app, elem_of_cons; naive_solver).
    split; simpl; try done.
    + destruct Hact' as [Hlive Honce]. split; simpl.
      * intros k Hk. apply Hlive. rewrite Hact. by apply Hsome.
      * rewrite <-Permutation_middle in Hnd. by apply NoDup_cons in Hnd as [_ ?].
    + by intros msg' visited' todo' [= <- <- <-].
    + intros k ss Hk. destruct (Hmem k ss Hk) as [? Ha Hr Hac Hh]. split; simpl; try done.
      * unfold delivered_to in *. simpl. rewrite Hu in Hr.
        by destruct (decide (Some k ∈ todo)), (decide (Some k ∈ None :: todo)); set_solver.
      * apply Hsome. by rewrite <-Hact.
Qed.

(** The next access of the update thread to shared state is defined. *)
Lemma update_step_ok s o :
  broadcast_ok s → broadcast_step cfg UpdateSteps s = Some o → ∃ s', o = Returns s' ∧ broadcast_ok s'.
Proof.
  intros Hs Ho. simpl in Ho. destruct (updating s) as [| | |msg visited todo] eqn:Hu; simplify_eq.
  - eexists. split; [done|]. unfold checks_empty, empty.
    destruct (dequeue (incoming_packets_queue (base s))) as [|x l] eqn:E; apply with_updating_ok; try done.
    1,2: intros k; unfold delivered_to; simpl; by rewrite Hu.
    by rewrite E.
  - unfold pops. destruct (pop_front_shape cfg (incoming_packets_queue (base s))) as
      [(packet & q & -> & Hq & _)|[E _]]; [|by destruct (saw_packet _ Hs Hu)].
    simpl. eexists. split; [done|]. destruct Hs as [Hf Hsaw Hact Hit Hmem Hhs Har]. split; simpl; try done.
    + by rewrite Hf, Hq, <-app_assoc.
    + by destruct Hact.
    + intros msg visited todo [= <- <- <-]. by rewrite last_snoc.
    + intros k ss Hk. destruct (Hmem k ss Hk) as [? Ha Hr Hac Hh]. split; try done.
      unfold delivered_to in *. simpl. rewrite Hu in Hr. rewrite decide_True by done. by rewrite removelast_last.
  - eexists. split; [done|]. by apply visits_ok.
Qed.
(** Every step is defined and keeps the invariant, unless a client joins while
    [broadcast] iterates. *)
Lemma broadcast_step_ok e s o :
  broadcast_ok s → broadcast_step cfg e s = Some o →
  (∃ s', o = Returns s' ∧ broadcast_ok s')
  ∨ (o = Undefined ∧ ∃ place k msg visited todo,
       e = Connects place k ∧ updating s = Broadcasting msg visited todo).
Proof.
  intros Hs Ho. destruct e as [place k|k failed|k data|k|k failed| |].
  - simpl in Ho. destruct (session_of s k) eqn:Hk; simplify_eq.
    destruct (connects place k s) as [s'| |] eqn:Hc.
    + left. eexists. split; [done|]. by eapply connects_ok.
    + unfold connects in Hc. by destruct (updating s).
    + right. split; [done|]. unfold connects in Hc.
      destruct (updating s) as [| | |msg visited todo]; try done. by exists place, k, msg, visited, todo.
  - left. simpl in Ho. destruct (session_of s k) as [ss|] eqn:Hk; simplify_eq/=. case_decide as Hin; simplify_eq.
    assert (∃ s', handshakes k failed ss s = Returns s') as [s' Hs'].
    { unfold handshakes, on_accept, read_message_async.
      destruct (members_ok _ Hs k ss Hk) as [_ _ _ _ Hnr]. rewrite (Hnr Hin). destruct failed; by eexists. }
    exists s'. split; [done|]. by eapply handshakes_ok.
  - left. simpl in Ho. destruct (session_of s k) as [ss|] eqn:Hk; simplify_eq/=.
    destruct (reading ss) eqn:Hr; [|done]. destruct (is_open ss || _) eqn:Hopen; simplify_eq/=.
    destruct (members_ok _ Hs k ss Hk) as [Hok _ _ _ Hnr].
    assert (is_Some data → is_open ss = true) as Hop.
    { intros Hd. apply orb_true_iff in Hopen as [|Hopen]; [done|]. by rewrite bool_decide_eq_true_2 in Hopen. }
    destruct (on_read_ok cfg k data ss (incoming_packets_queue (base s)) Hok Hr Hop)
      as (ss' & q' & sig & Hread & Hok' & _).
    destruct (on_read_keeps cfg k data ss _ ss' q' sig Hread) as (Hreq & Hacc & Hq).
    unfold reads. rewrite Hread. eexists. split; [done|]. apply session_step_ok with ss; try done.
    + intros Hin. by rewrite Hnr in Hr.
    + unfold arrival. destruct data; [|done]. destruct (try_push_back _ _ _) as [[[] ?] ?]; by constructor.
  - left. simpl in Ho. destruct (session_of s k) as [ss|] eqn:Hk; simplify_eq/=.
    destruct (posted ss) as [|msg ps] eqn:Hp; simplify_eq.
    destruct (members_ok _ Hs k ss Hk) as [Hok _ _ _ _].
    destruct (run_send_ok msg ps ss Hok Hp) as (ss' & Hrun & Hok' & _). rewrite Hrun.
    eexists. split; [done|]. apply (quiet_handler_ok s k ss); [done..|].
    by apply run_send_keeps in Hrun.
  - left. simpl in Ho. destruct (session_of s k) as [ss|] eqn:Hk; simplify_eq/=.
    destruct (writing ss) as [msg|] eqn:Hw; simplify_eq.
    destruct (members_ok _ Hs k ss Hk) as [Hok _ _ _ _].
    destruct (session_on_write_ok failed ss Hok) as (ss' & Hrun & Hok' & _); [by rewrite Hw|]. rewrite Hrun.
    eexists. split; [done|]. apply (quiet_handler_ok s k ss); [done..|].
    by apply on_write_keeps in Hrun.
  - left. simpl in Ho. destruct (updating s) eqn:Hu; simplify_eq.
    eexists. split; [done|]. apply with_updating_ok; try done.
    intros k. unfold delivered_to. simpl. by rewrite Hu.
  - left. by eapply update_step_ok.
Qed.

Lemma broadcast_reachable_ok s : broadcast_reachable cfg s → broadcast_ok s.
Proof.
  intros Hr. apply (rtc_invariant (broadcast_steps cfg) broadcast_ok) with initial_broadcast_server;
    [|done|apply broadcast_ok_initial].
  intros s1 s2 Hok [e He]. destruct (broadcast_step_ok e s1 _ Hok He) as [(s' & [= <-] & ?)|[? _]]; done.
Qed.
End steps.

(** ** [broadcast] without interruption

    The visits, when nothing happens in between, do what [broadcast] does as a
    function. *)
Lemma visits_run cfg msg todo visited (s : broadcast_server) :
  updating s = Broadcasting msg visited todo → active_sessions (base s) = visited ++ todo →
  ∃ s', broadcast_run cfg (replicate (S (length todo)) UpdateSteps) s = Some s'
    ∧ updating s' = InUpdate
    ∧ sessions (base s') = (broadcast_loop msg todo (sessions (base s))).2
    ∧ active_sessions (base s') = visited ++ (broadcast_loop msg todo (sessions (base s))).1.
Proof.
  revert visited s. induction todo as [|p todo IH]; intros visited s Hu Ha.
  { eexists. simpl. rewrite Hu. split_and!; done. }
  cbn [length replicate broadcast_run broadcast_step]. rewrite Hu.
  destruct p as [k|]; cbn [broadcast_loop visits].
  - destruct (IH (visited ++ [Some k]) (visits msg visited (Some k :: todo) s)) as (s' & Hrun & Hu' & Hss & Hact);
      [done|simpl; by rewrite <-app_assoc|].
    exists s'. split; [exact Hrun|]. split; [done|]. rewrite Hss, Hact. cbn [base sessions visits].
    destruct (broadcast_loop msg todo _) as [kept ss]. simpl. by rewrite <-app_assoc.
  - destruct (IH visited (visits msg visited (None :: todo) s)) as (s' & Hrun & Hu' & Hss & Hact); [done..|].
    exists s'. split; [exact Hrun|]. by split_and!.
Qed.

Lemma broadcast_uninterrupted cfg msg (s : broadcast_server) :
  updating s = Broadcasting msg [] (active_sessions (base s)) →
  ∃ s', broadcast_run cfg (replicate (S (length (active_sessions (base s)))) UpdateSteps) s = Some s'
    ∧ updating s' = InUpdate
    ∧ sessions (base s') = sessions (broadcast msg (base s))
    ∧ active_sessions (base s') = active_sessions (broadcast msg (base s)).
Proof.
  intros Hu. destruct (visits_run cfg msg _ [] s Hu eq_refl) as (s' & Hrun & Hu' & Hss & Hact).
  exists s'. unfold broadcast. destruct (broadcast_loop msg _ _) as [kept ss]. by split_and!.
Qed.

(** ** Properties *)

(** C10. All clients of the broadcast server see one sequence of messages.  In
    every reachable state the packets that arrived are those already broadcast
    followed by those still queued, those from a session being what it read, in
    order.  What was given to [send] of a session is that sequence from the
    message at which it joined, except that the one being broadcast may not have
    reached it; what was written to it is a prefix of this, and all of it once
    the session has nothing posted or being written and no write failed. *)
Theorem clients_see_one_sequence (cfg : queue_config) (s : broadcast_server) :
  broadcast_reachable cfg s →
  payload <$> arrived s = broadcasted s ++ (payload <$> dequeue (incoming_packets_queue (base s)))
  ∧ ∀ k ss, session_of s k = Some ss →
      accepted ss = arrived_from k s
      ∧ ∃ n, joined s !! k = Some n ∧ requested ss = drop n (delivered_to k s)
        ∧ sent ss `prefix_of` drop n (broadcasted s)
        ∧ (write_failed ss = false → posted ss = [] → writing ss = None →
           sent ss = drop n (delivered_to k s)).
Proof.
  intros Hs%broadcast_reachable_ok. split; [apply Hs|]. intros k ss Hk.
  destruct (members_ok _ Hs k ss Hk) as [Hok Ha (n & Hn & Hle & Hr) _ _].
  split; [done|]. exists n. split_and!; [done..| |].
  - transitivity (drop n (delivered_to k s)).
    + rewrite <-Hr, (in_order _ Hok). by eexists.
    + unfold delivered_to in *. destruct (updating s) as [| | |msg visited todo] eqn:Hu; try done.
      case_decide; [|done]. destruct (iterating _ Hs _ _ _ Hu) as [_ Hl].
      rewrite (last_split _ _ Hl) at 2. rewrite drop_app_le by done. by eexists.
  - intros Hf Hp Hw. rewrite <-Hr, (in_order _ Hok), Hp, app_nil_r.
    destruct (write_queue ss) as [|m ms] eqn:E; [by rewrite app_nil_r|].
    destruct (writes_when_queued _ Hok Hf) as [? ?]; congruence.
Qed.


(** ** Witnesses: two clients, the second joins after the first message *)
Section witnesses.
Definition chat_config : queue_config := bounded_config 10 100.

Definition chat_events : list broadcast_event :=
  [Connects 0 0; Handshakes 0 false; Reads 0 (Some "one"); FrameStarts; UpdateSteps; UpdateSteps;
   UpdateSteps; UpdateSteps; Connects 0 1; Handshakes 1 false; Reads 1 (Some "two");
   RunsPosted 0; Wrote 0 false; UpdateSteps; UpdateSteps; UpdateSteps].

Definition chat : broadcast_server :=
  default initial_broadcast_server (broadcast_run chat_config chat_events initial_broadcast_server).

Lemma chat_reachable : broadcast_reachable chat_config chat.
Proof.
  apply (broadcast_run_steps chat_config chat_events). unfold chat.
  assert (bool_decide (is_Some (broadcast_run chat_config chat_events initial_broadcast_server)) = true) as Hr
    by (vm_compute; reflexivity).
  apply bool_decide_eq_true in Hr. by destruct Hr as [s ->].
Qed.

Lemma clients_see_one_sequence_witness :
  broadcasted chat = ["one"; "two"]
  ∧ payload <$> arrived chat
    = broadcasted chat ++ (payload <$> dequeue (incoming_packets_queue (base chat)))
  ∧ ∀ k ss, session_of chat k = Some ss →
      accepted ss = arrived_from k chat
      ∧ ∃ n, joined chat !! k = Some n ∧ requested ss = drop n (delivered_to k chat)
        ∧ sent ss `prefix_of` drop n (broadcasted chat)
        ∧ (write_failed ss = false → posted ss = [] → writing ss = None →
           sent ss = drop n (delivered_to k chat)).
Proof.
  split; [vm_compute; reflexivity|].
  apply (clients_see_one_sequence chat_config chat). apply chat_reachable.
Defined.

End witnesses.
