(* ===== verification/StringOps.v ===== *)
(** * Strings

    The members of [std::string] and [std::filesystem::path] that the sources
    use ([find], [substr], [rfind] and appending), and the reference notions the
    parsers are compared with: the prefix of characters of a class, cutting at
    the first separator, and the pieces between separators. *)
From S2P Require Import Prelude.
From Stdlib Require Import Ascii.

(** ** Prefixes of characters of a class *)

(** The longest prefix whose characters satisfy [p], and what follows it. *)
Fixpoint span (p : ascii → bool) (s : string) : string * string :=
  match s with
  | EmptyString => (EmptyString, EmptyString)
  | String c s' =>
      if p c then let '(a, b) := span p s' in (String c a, b) else (EmptyString, s)
  end.

Fixpoint all_chars (p : ascii → bool) (s : string) : bool :=
  match s with
  | EmptyString => true
  | String c s' => p c && all_chars p s'
  end.

Section strings.
Implicit Types (p : ascii → bool) (s t : string).

Lemma string_app_length s t : String.length (s +:+ t) = (String.length s + String.length t)%nat.
Proof. induction s as [|c s IH]; simpl; [done|]. by rewrite IH. Qed.

Lemma string_app_cons c s t : String c s +:+ t = String c (s +:+ t).
Proof. reflexivity. Qed.

Lemma string_nil_app s : EmptyString +:+ s = s.
Proof. reflexivity. Qed.

Lemma string_app_nil s : s +:+ EmptyString = s.
Proof. induction s as [|c s IH]; [done|]. exact (f_equal (String c) IH). Qed.

Lemma string_app_assoc s t u : (s +:+ t) +:+ u = s +:+ (t +:+ u).
Proof. induction s as [|c s IH]; [done|]. exact (f_equal (String c) IH). Qed.

Lemma all_chars_app p s t : all_chars p (s +:+ t) = all_chars p s && all_chars p t.
Proof. induction s as [|c s IH]; simpl; [done|]. by rewrite IH, andb_assoc. Qed.

Lemma span_all p s : all_chars p s = true → span p s = (s, EmptyString).
Proof.
  induction s as [|c s IH]; simpl; [done|].
  intros [Hc Hs]%andb_true_iff. by rewrite Hc, IH.
Qed.

Lemma span_app p s a b : span p s = (a, b) → s = a +:+ b.
Proof.
  revert a b. induction s as [|c s IH]; intros a b; simpl; [by intros [= <- <-]|].
  destruct (p c); [|by intros [= <- <-]].
  destruct (span p s) as [a' b']. intros [= <- <-]. exact (f_equal (String c) (IH _ _ eq_refl)).
Qed.

Lemma span_prefix p s a b : span p s = (a, b) → all_chars p a = true.
Proof.
  revert a b. induction s as [|c s IH]; intros a b; simpl; [by intros [= <- _]|].
  destruct (p c) eqn:Hc; [|by intros [= <- _]].
  destruct (span p s) as [a' b']. intros [= <- _]. simpl. rewrite Hc. exact (IH _ _ eq_refl).
Qed.

(** A prefix of the class that the class does not continue is what [span] cuts. *)
Lemma span_stop p a b :
  all_chars p a = true → span p b = (EmptyString, b) → span p (a +:+ b) = (a, b).
Proof.
  intros Ha Hb. induction a as [|c a IH]; [exact Hb|].
  simpl in Ha. apply andb_true_iff in Ha as [Hc Ha].
  rewrite string_app_cons. simpl. by rewrite Hc, (IH Ha).
Qed.
End strings.

(** ** [std::string] *)

(** [s.find(c)] and [s.find(c, from)]; [None] is [npos]. *)
Fixpoint find_char (c : ascii) (s : string) : option nat :=
  match s with
  | EmptyString => None
  | String d s' => if Ascii.eqb d c then Some 0%nat else S <$> find_char c s'
  end.

(** [s.rfind(c)]. *)
Fixpoint rfind_char (c : ascii) (s : string) : option nat :=
  match s with
  | EmptyString => None
  | String d s' =>
      match rfind_char c s' with
      | Some i => Some (S i)
      | None => if Ascii.eqb d c then Some 0%nat else None
      end
  end.

Fixpoint string_drop (n : nat) (s : string) : string :=
  match n, s with
  | S n', String _ s' => string_drop n' s'
  | _, _ => s
  end.

Definition find_from (c : ascii) (from : nat) (s : string) : option nat :=
  (λ i, (from + i)%nat) <$> find_char c (string_drop from s).

(** [s.substr(pos)] and [s.substr(pos, count)]. *)
Definition substr_from (pos : nat) (s : string) : outcome string :=
  if (pos <=? String.length s)%nat then Returns (string_drop pos s)
  else Throws "basic_string::substr".

Fixpoint string_take (n : nat) (s : string) : string :=
  match n, s with
  | S n', String c s' => String c (string_take n' s')
  | _, _ => EmptyString
  end.

Definition substr (pos count : nat) (s : string) : outcome string :=
  let! rest := substr_from pos s in Returns (string_take count rest).

(** ** Cutting at separators *)

(** The text before and after the first [c]. *)
Fixpoint cut (c : ascii) (s : string) : option (string * string) :=
  match s with
  | EmptyString => None
  | String d s' =>
      if Ascii.eqb d c then Some (EmptyString, s')
      else '(a, b) ← cut c s'; Some (String d a, b)
  end.

(** The pieces between the separators. *)
Fixpoint pieces (c : ascii) (s : string) : list string :=
  match s with
  | EmptyString => [EmptyString]
  | String d s' =>
      if Ascii.eqb d c then EmptyString :: pieces c s'
      else match pieces c s' with
           | a :: rest => String d a :: rest
           | [] => []
           end
  end.

Lemma cut_find c s :
  match cut c s with
  | None => find_char c s = None
  | Some (a, b) =>
      ∃ i, find_char c s = Some i ∧ (i < String.length s)%nat ∧
        string_take i s = a ∧ string_drop (i + 1) s = b
  end.
Proof.
  induction s as [|d s IH]; simpl; [done|].
  destruct (Ascii.eqb d c); [exists 0%nat; split_and!; [done|simpl; lia|done..]|].
  destruct (cut c s) as [[a b]|]; simpl.
  - destruct IH as (i & -> & Hi & <- & <-). exists (S i). split_and!; [done|simpl; lia|done..].
  - by rewrite IH.
Qed.

(** ** Dropping and searching *)
Section drop.
Implicit Types (s : string).

Lemma string_drop_length n s : String.length (string_drop n s) = (String.length s - n)%nat.
Proof. revert s. induction n as [|n IH]; intros [|c s]; simpl; [done..|apply IH]. Qed.

Lemma string_drop_drop n m s : string_drop n (string_drop m s) = string_drop (m + n) s.
Proof. revert s. induction m as [|m IH]; intros [|c s]; simpl; [done..|by destruct n|apply IH]. Qed.

Lemma string_take_all n s : (String.length s ≤ n)%nat → string_take n s = s.
Proof.
  revert n. induction s as [|c s IH]; intros [|n] Hn; simpl in *; [done..|lia|].
  by rewrite IH by lia.
Qed.

Lemma string_drop_all n s : (String.length s ≤ n)%nat → string_drop n s = EmptyString.
Proof.
  revert n. induction s as [|c s IH]; intros [|n] Hn; simpl in *; [done..|lia|].
  by rewrite IH by lia.
Qed.

(** The first piece ends where the separator is found. *)
Lemma pieces_step c s :
  pieces c s =
    match find_char c s with
    | None => [s]
    | Some i => string_take i s :: pieces c (string_drop (i + 1) s)
    end.
Proof.
  induction s as [|d s IH]; [done|]. simpl. destruct (Ascii.eqb d c); [done|].
  rewrite IH. by destruct (find_char c s).
Qed.

Lemma find_char_lt c s i : find_char c s = Some i → (i < String.length s)%nat.
Proof.
  revert i. induction s as [|d s IH]; intros i; simpl; [done|].
  destruct (Ascii.eqb d c); [intros [= <-]; lia|].
  destruct (find_char c s) as [j|]; simpl; [|done]. intros [= <-]. specialize (IH j eq_refl). lia.
Qed.
End drop.

(** ** Strings without a character *)
Section no_char.
Implicit Types (s t : string).

Definition no_char (c : ascii) (s : string) : bool := all_chars (λ d, negb (Ascii.eqb d c)) s.

Lemma cut_app c s t : no_char c s = true → cut c (s +:+ String c t) = Some (s, t).
Proof.
  unfold no_char. induction s as [|d s IH]; rewrite ?string_nil_app, ?string_app_cons; cbn [cut all_chars].
  { by rewrite Ascii.eqb_refl. }
  intros [Hd Hs]%andb_true_iff. apply negb_true_iff in Hd. by rewrite Hd, IH.
Qed.

Lemma pieces_app c s t : no_char c s = true → pieces c (s +:+ String c t) = s :: pieces c t.
Proof.
  unfold no_char. induction s as [|d s IH]; rewrite ?string_nil_app, ?string_app_cons; cbn [pieces all_chars].
  { by rewrite Ascii.eqb_refl. }
  intros [Hd Hs]%andb_true_iff. apply negb_true_iff in Hd. by rewrite Hd, IH.
Qed.

Lemma pieces_one c s : no_char c s = true → pieces c s = [s].
Proof.
  unfold no_char. induction s as [|d s IH]; [done|].
  cbn [pieces all_chars]. intros [Hd Hs]%andb_true_iff. apply negb_true_iff in Hd. by rewrite Hd, IH.
Qed.

Lemma no_char_find c s : no_char c s = true ↔ find_char c s = None.
Proof.
  unfold no_char. induction s as [|d s IH]; [done|]. cbn [find_char all_chars].
  rewrite andb_true_iff, negb_true_iff, IH. destruct (Ascii.eqb d c); [naive_solver|].
  destruct (find_char c s); naive_solver.
Qed.

Lemma no_char_rfind c s : no_char c s = true → rfind_char c s = None.
Proof.
  unfold no_char. induction s as [|d s IH]; [done|]. cbn [rfind_char all_chars].
  intros [Hd Hs]%andb_true_iff. apply negb_true_iff in Hd. by rewrite IH, Hd.
Qed.

Lemma no_char_app c s t : no_char c (s +:+ t) = no_char c s && no_char c t.
Proof. apply all_chars_app. Qed.

(** The last separator is the one in front of a text without any. *)
Lemma rfind_app c s t :
  no_char c t = true → rfind_char c (s +:+ String c t) = Some (String.length s).
Proof.
  intros Ht. induction s as [|d s IH]; rewrite ?string_nil_app, ?string_app_cons; cbn [rfind_char].
  - rewrite no_char_rfind by done. by rewrite Ascii.eqb_refl.
  - by rewrite IH.
Qed.

Lemma rfind_none_app c s t :
  no_char c s = true → rfind_char c (s +:+ t) = (λ i, String.length s + i)%nat <$> rfind_char c t.
Proof.
  unfold no_char. induction s as [|d s IH]; rewrite ?string_nil_app, ?string_app_cons; cbn [rfind_char all_chars].
  - intros _. by destruct (rfind_char c t).
  - intros [Hd Hs]%andb_true_iff. apply negb_true_iff in Hd. rewrite IH, Hd by done.
    by destruct (rfind_char c t).
Qed.

Lemma string_drop_app n s t : n = String.length s → string_drop n (s +:+ t) = t.
Proof. intros ->. induction s as [|d s IH]; [done|exact IH]. Qed.

Lemma string_app_inj_r s t u : s +:+ u = t +:+ u → s = t.
Proof.
  revert t. induction s as [|c s IH]; intros [|d t]; rewrite ?string_nil_app, ?string_app_cons; [done|..].
  - intros E%(f_equal String.length). revert E.
    cbn [String.length]. rewrite string_app_length. lia.
  - intros E%(f_equal String.length). revert E.
    cbn [String.length]. rewrite string_app_length. lia.
  - intros [= -> ->%IH]. done.
Qed.

Lemma pieces_split c s t : pieces c (s +:+ String c t) = pieces c s ++ pieces c t.
Proof.
  induction s as [|d s IH]; rewrite ?string_nil_app, ?string_app_cons; cbn [pieces].
  { by rewrite Ascii.eqb_refl. }
  rewrite IH. destruct (Ascii.eqb d c); [done|].
  destruct (pieces c s) as [|a l] eqn:E; [|done].
  exfalso. clear IH. revert E. destruct s as [|e s]; cbn [pieces]; [done|].
  destruct (Ascii.eqb e c); [done|]. by rewrite pieces_step; destruct (find_char c s).
Qed.

Lemma all_chars_mono (p q : ascii → bool) s :
  (∀ c, p c = true → q c = true) → all_chars p s = true → all_chars q s = true.
Proof.
  intros Hpq. induction s as [|c s IH]; [done|]. simpl.
  intros [Hc Hs]%andb_true_iff. by rewrite (Hpq c), IH.
Qed.
End no_char.
