(* ===== verification/Logger.v ===== *)
(** * The debug log: [src/logger.hpp]

    A [log_debug] temporary writes a mark when it is constructed, every value
    that is inserted into it, and a newline when the full expression ends; with
    [DEBUG_MODE] undefined it does nothing.  What [std::cout] makes of a value is
    its text; each insertion is one write, and the writes of several threads can
    come in any order. *)
From S2P Require Import Prelude StringOps.
From Stdlib Require Import Ascii.

Section logger.
(** Whether the program was compiled with [DEBUG_MODE]. *)
Context (DEBUG_MODE : bool).
Implicit Types (out text : string) (values : list string).

Definition joined (l : list string) : string := foldr String.append EmptyString l.

Definition newline : string := String (ascii_of_N 10) EmptyString.

Definition log_debug out : string := if DEBUG_MODE then out +:+ "<Debug> " else out.

Definition log_value text out : string := if DEBUG_MODE then out +:+ text else out.

Definition end_log_debug out : string :=
  if DEBUG_MODE then out +:+ newline else out.

(** [log_debug() << v1 << ... << vn;]. *)
Definition log_statement values out : string :=
  end_log_debug (foldl (λ out text, log_value text out) (log_debug out) values).

(** The statements of the servers.  The messages of [launch] and [stop] end in a
    newline of their own; [broadcast_server] overrides the hooks with nothing. *)
Definition log_launching : string → string := log_statement ["[SERVER] launching " +:+ newline].
Definition log_stopped : string → string := log_statement ["[SERVER] stopped " +:+ newline].
Definition on_client_connected : string → string := log_statement ["[SERVER] Client connected"].
Definition on_client_disconnected : string → string := log_statement ["[SERVER] Client disconnected"].

(** The writes of a statement, in order. *)
Inductive log_write := Mark | Inserted text | Newline.

Definition perform (w : log_write) out : string :=
  match w with
  | Mark => log_debug out
  | Inserted text => log_value text out
  | Newline => end_log_debug out
  end.

Definition writes_of values : list log_write := Mark :: (Inserted <$> values) ++ [Newline].

Definition written ws out : string := foldl (λ out w, perform w out) out ws.

Definition write_text (w : log_write) : string :=
  match w with
  | Mark => "<Debug> "
  | Inserted text => text
  | Newline => newline
  end.

Lemma log_statement_writes values out : log_statement values out = written (writes_of values) out.
Proof.
  unfold log_statement, written, writes_of. cbn [foldl perform]. rewrite foldl_app. cbn [foldl perform].
  f_equal. generalize (log_debug out). induction values as [|text values IH]; intros out'; [done|].
  cbn. apply IH.
Qed.

(** Whatever the order of the writes, the log is their texts in that order, or
    nothing at all. *)
Lemma log_is_what_was_written ws out :
  written ws out =
    if DEBUG_MODE then out +:+ joined (write_text <$> ws) else out.
Proof.
  unfold written. revert out. induction ws as [|w ws IH]; intros out.
  { destruct DEBUG_MODE; [|done]. simpl. by rewrite string_app_nil. }
  cbn [foldl]. rewrite IH. unfold perform, log_debug, log_value, end_log_debug.
  destruct DEBUG_MODE; [|by destruct w].
  change (joined (write_text <$> w :: ws)) with (write_text w +:+ joined (write_text <$> ws)).
  destruct w; by rewrite string_app_assoc.
Qed.
End logger.

(** A statement of a debug build is one line, unless a value has a newline of its
    own, as the messages of [launch] and [stop] do. *)
Lemma debug_statement values out :
  log_statement true values out = out +:+ ("<Debug> " +:+ (joined values +:+ newline)).
Proof.
  rewrite log_statement_writes, log_is_what_was_written. f_equal. unfold writes_of.
  change (joined (write_text <$> Mark :: ?l)) with ("<Debug> " +:+ joined (write_text <$> l)).
  f_equal. rewrite fmap_app. induction values as [|text values IH]; [done|].
  change (joined (text :: values)) with (text +:+ joined values). rewrite string_app_assoc, <-IH. done.
Qed.

(** Without [DEBUG_MODE] nothing is written. *)
Lemma release_statement values out : log_statement false values out = out.
Proof. by rewrite log_statement_writes, log_is_what_was_written. Qed.

(** The statements of two threads whose writes alternate give mixed lines. *)
Example lines_can_mix :
  written true [Mark; Mark; Inserted "[SERVER] stopped"; Inserted "[SERVER] Client connected"; Newline; Newline]
    EmptyString
  = ("<Debug> <Debug> [SERVER] stopped[SERVER] Client connected" +:+ (newline +:+ newline))%string.
Proof. by vm_compute. Qed.
