(* ===== verification/Numerals.v ===== *)
(** * Numerals: [std::stoll], [std::stoi], [std::stoull] and [std::stod]

    The conversions of the C++ standard library that [parse_query] and the
    benchmarks call, in the "C" locale: [strtoll] and [strtod] read the longest
    prefix that is a numeral and report its length; [stoll] and [stod] throw when
    there is none or when the value does not fit.  The value of [stod] is correctly rounded. *)
From S2P Require Import Prelude StringOps.
From stdpp Require Import pretty.
From Stdlib Require Import Ascii SpecFloat.

(** ** Characters of the "C" locale *)
Definition code (c : ascii) : Z := Z.of_N (N_of_ascii c).

Definition in_range (lo hi : ascii) (c : ascii) : bool :=
  ((code lo <=? code c) && (code c <=? code hi))%Z.

(** [isspace]: space, \t, \n, \v, \f, \r. *)
Definition is_space (c : ascii) : bool := ((code c =? 32) || ((9 <=? code c) && (code c <=? 13)))%Z.

Definition is_digit (c : ascii) : bool := in_range "0" "9" c.

Definition is_hex_digit (c : ascii) : bool :=
  is_digit c || in_range "a" "f" c || in_range "A" "F" c.

Definition is_word (c : ascii) : bool :=
  is_digit c || in_range "a" "z" c || in_range "A" "Z" c || (code c =? 95)%Z.

Definition tolower (c : ascii) : ascii :=
  if in_range "A" "Z" c then ascii_of_N (N_of_ascii c + 32) else c.

Definition digit_value (c : ascii) : Z :=
  if is_digit c then code c - 48
  else if in_range "a" "f" c then code c - 87 else code c - 55.

(** The value of a string of digits that follow a number [acc]. *)
Fixpoint digits_value (base acc : Z) (s : string) : Z :=
  match s with
  | EmptyString => acc
  | String c s' => digits_value base (acc * base + digit_value c)%Z s'
  end.

(** An optional sign: [true] for minus. *)
Definition read_sign (s : string) : bool * string :=
  match s with
  | String "+" s' => (false, s')
  | String "-" s' => (true, s')
  | _ => (false, s)
  end.

(** What is left of [s] after a word, whatever the case of its letters; the
    word is given in lower case. *)
Fixpoint strip_word (w s : string) : option string :=
  match w, s with
  | EmptyString, _ => Some s
  | String a w', String c s' => if Ascii.eqb (tolower c) a then strip_word w' s' else None
  | String _ _, EmptyString => None
  end.

(** ** [std::stoll(str, &pos)] *)
Definition stoll (s : string) : outcome (Z * nat) :=
  let '(_, unspaced) := span is_space s in
  let '(negative, unsigned) := read_sign unspaced in
  let '(digits, rest) := span is_digit unsigned in
  if (String.length digits =? 0)%nat then Throws "stoll"
  else
    let magnitude := digits_value 10 0 digits in
    let value := if negative then (- magnitude)%Z else magnitude in
    if ((-9223372036854775808 <=? value) && (value <? 9223372036854775808))%Z
    then Returns (value, String.length s - String.length rest)%nat
    else Throws "stoll".

(** ** [std::stoi(str)], with a 32-bit [int] and a 64-bit [long] *)
Definition stoi (s : string) : outcome Z :=
  let! '(value, _) := stoll s in
  if ((-2147483648 <=? value) && (value <? 2147483648))%Z then Returns value else Throws "stoi".

(** ** [std::stoull(str)]

    [strtoull] reads a minus sign too and negates in [unsigned long long]; only
    the magnitude has to fit. *)
Definition stoull (s : string) : outcome Z :=
  let '(_, unspaced) := span is_space s in
  let '(negative, unsigned) := read_sign unspaced in
  let '(digits, _) := span is_digit unsigned in
  if (String.length digits =? 0)%nat then Throws "stoull"
  else
    let magnitude := digits_value 10 0 digits in
    if (magnitude <? two64)%Z then Returns (if negative then u64 (- magnitude) else magnitude)
    else Throws "stoull".

(** ** [std::stod(str, &pos)] *)

(** The number a prefix denotes. *)
Inductive numeral :=
  | Finite (num den : positive)
  | Zero
  | Infinity
  | NotANumber.

(** The quotient of two integers. *)
Definition finite_numeral (m : Z) (scale_base scale : Z) : numeral :=
  match m with
  | Zpos n =>
      if (0 <=? scale)%Z
      then Finite (Z.to_pos (Zpos n * scale_base ^ scale)) 1
      else Finite n (Z.to_pos (scale_base ^ (- scale)))
  | _ => Zero
  end.

(** An exponent part introduced by the letter [mark]: it counts only when a
    digit follows the letter and the optional sign. *)
Definition read_exponent (mark : ascii) (s : string) : Z * string :=
  match s with
  | String c s' =>
      if Ascii.eqb (tolower c) mark then
        let '(negative, unsigned) := read_sign s' in
        let '(digits, rest) := span is_digit unsigned in
        if (String.length digits =? 0)%nat then (0%Z, s)
        else
          let e := digits_value 10 0 digits in
          ((if negative then - e else e)%Z, rest)
      else (0%Z, s)
  | EmptyString => (0%Z, s)
  end.

(** Digits with an optional radix point: the whole digits, the digits after the
    point, and what follows; at least one digit is needed. *)
Definition read_mantissa (digit : ascii → bool) (s : string) : option (string * string * string) :=
  let '(whole, after) := span digit s in
  let '(fraction, rest) :=
    match after with
    | String "." after' => span digit after'
    | _ => (EmptyString, after)
    end in
  if (String.length whole + String.length fraction =? 0)%nat then None
  else Some (whole, fraction, rest).

Definition read_decimal (s : string) : option (numeral * string) :=
  match read_mantissa is_digit s with
  | None => None
  | Some (whole, fraction, rest) =>
      let '(e, rest') := read_exponent "e" rest in
      Some (finite_numeral (digits_value 10 0 (whole +:+ fraction)) 10
              (e - Z.of_nat (String.length fraction)), rest')
  end.

(** Each hexadecimal digit after the point is worth four binary places. *)
Definition read_hexadecimal (s : string) : option (numeral * string) :=
  match read_mantissa is_hex_digit s with
  | None => None
  | Some (whole, fraction, rest) =>
      let '(e, rest') := read_exponent "p" rest in
      Some (finite_numeral (digits_value 16 0 (whole +:+ fraction)) 2
              (e - 4 * Z.of_nat (String.length fraction)), rest')
  end.

(** [nan] may be followed by word characters in parentheses. *)
Definition read_nan (s : string) : numeral * string :=
  match s with
  | String "(" s' =>
      match span is_word s' with
      | (_, String ")" rest) => (NotANumber, rest)
      | _ => (NotANumber, s)
      end
  | _ => (NotANumber, s)
  end.

(** The longest numeral at the start of [s], after the sign. *)
Definition read_numeral (s : string) : option (numeral * string) :=
  match strip_word "infinity" s with
  | Some rest => Some (Infinity, rest)
  | None =>
  match strip_word "inf" s with
  | Some rest => Some (Infinity, rest)
  | None =>
  match strip_word "nan" s with
  | Some rest => Some (read_nan rest)
  | None =>
  match strip_word "0x" s with
  | Some hex =>
      match read_hexadecimal hex with
      | Some r => Some r
      | None => read_decimal s
      end
  | None => read_decimal s
  end end end end.

(** The [double] nearest to [num / den], of the given sign. *)
Definition nearest (negative : bool) (num den : positive) : spec_float :=
  let '(m, e, l) := SFdiv_core_binary 53 1024 (Zpos num) 0 (Zpos den) 0 in
  binary_round_aux 53 1024 negative m e l.

Definition is_infinity (x : spec_float) : bool :=
  match x with S754_infinity _ => true | _ => false end.

(** [num / den < 2 ^ -1022], the smallest normal number. *)
Definition below_normal (num den : positive) : bool :=
  (Zpos num * 2 ^ 1022 <? Zpos den)%Z.

Section stod.
(** Whether [errno] becomes [ERANGE] for a value below the smallest normal
    number: C leaves it to the implementation. *)
Context (underflow_is_error : positive → positive → bool).

Definition stod (s : string) : outcome (spec_float * nat) :=
  let '(_, unspaced) := span is_space s in
  let '(negative, unsigned) := read_sign unspaced in
  match read_numeral unsigned with
  | None => Throws "stod"
  | Some (x, rest) =>
      let pos := (String.length s - String.length rest)%nat in
      match x with
      | Zero => Returns (S754_zero negative, pos)
      | Infinity => Returns (S754_infinity negative, pos)
      | NotANumber => Returns (S754_nan, pos)
      | Finite num den =>
          let value := nearest negative num den in
          if is_infinity value || (below_normal num den && underflow_is_error num den)
          then Throws "stod"
          else Returns (value, pos)
      end
  end.
End stod.

Lemma stoll_defined s : stoll s ≠ Undefined.
Proof. unfold stoll. repeat case_match; discriminate. Qed.

Lemma stod_defined u s : stod u s ≠ Undefined.
Proof. unfold stod. repeat case_match; discriminate. Qed.

(** ** Decimal integers *)
Section decimal.
Implicit Types (n : N) (z : Z).

Lemma pretty_digit n :
  (n < 10)%N →
  is_digit (pretty_N_char n) = true ∧ digit_value (pretty_N_char n) = Z.of_N n ∧
  strip_word "x" (String (pretty_N_char n) "") = None.
Proof.
  intros Hn. assert (n = 0 ∨ n = 1 ∨ n = 2 ∨ n = 3 ∨ n = 4 ∨ n = 5 ∨ n = 6 ∨ n = 7 ∨ n = 8 ∨ n = 9)%N
    as Hd by lia.
  repeat destruct Hd as [->|Hd]; try (by vm_compute); by subst.
Qed.

Lemma digits_value_acc s acc :
  digits_value 10 acc s = (acc * 10 ^ Z.of_nat (String.length s) + digits_value 10 0 s)%Z.
Proof.
  revert acc. induction s as [|c s IH]; intros acc; cbn [digits_value String.length]; [lia|].
  rewrite IH, (IH (0 * 10 + _)%Z), Nat2Z.inj_succ, Z.pow_succ_r by lia. ring.
Qed.

Lemma digits_value_nonneg s acc :
  all_chars is_digit s = true → (0 ≤ acc)%Z → (0 ≤ digits_value 10 acc s)%Z.
Proof.
  revert acc. induction s as [|c s IH]; intros acc; simpl; [done|].
  intros [Hc Hs]%andb_true_iff Hacc. apply IH; [done|].
  unfold digit_value. rewrite Hc. unfold is_digit, in_range in Hc.
  apply andb_true_iff in Hc as [Hc%Z.leb_le _]. change (code "0") with 48%Z in Hc. lia.
Qed.

(** Printing a number in front of digits multiplies it by a power of ten. *)
Lemma pretty_N_go_value n s :
  all_chars is_digit s = true →
  all_chars is_digit (pretty_N_go n s) = true ∧
  digits_value 10 0 (pretty_N_go n s) = digits_value 10 (Z.of_N n) s ∧
  (String.length s + (if decide (n = 0)%N then 0 else 1) ≤ String.length (pretty_N_go n s))%nat.
Proof.
  revert s. induction (N.lt_wf_0 n) as [n _ IH]; intros s Hs.
  destruct (decide (n = 0)%N) as [->|Hn].
  { rewrite pretty_N_go_0. split_and!; [done..|lia]. }
  rewrite pretty_N_go_step by lia.
  destruct (pretty_digit (n `mod` 10)) as (Hd & Hv & _); [by apply N.mod_lt|].
  destruct (IH (n `div` 10)%N) with (s := String (pretty_N_char (n `mod` 10)) s)
    as (Ha & Hval & Hlen); [apply N.div_lt; lia|simpl; by rewrite Hd|].
  split_and!; [done| |destruct (decide _); simpl in Hlen; lia].
  rewrite Hval. simpl. f_equal. rewrite Hv, N2Z.inj_div, N2Z.inj_mod.
  pose proof (Z.div_mod (Z.of_N n) 10). lia.
Qed.

Lemma pretty_N_value n :
  all_chars is_digit (pretty n) = true ∧ digits_value 10 0 (pretty n) = Z.of_N n ∧
  pretty n ≠ EmptyString.
Proof.
  unfold pretty, pretty_N. destruct (decide (n = 0)%N) as [->|Hn]; [by vm_compute|].
  destruct (pretty_N_go_value n EmptyString) as (Ha & Hv & Hl); [done|].
  split_and!; [done..|]. intros E. rewrite E, decide_False in Hl by done. simpl in Hl. lia.
Qed.

(** A decimal integer is its sign and the digits of its magnitude. *)
Lemma pretty_Z_digits z :
  pretty z = (if (z <? 0)%Z then "-" else EmptyString) +:+ pretty (Z.abs_N z).
Proof. by destruct z. Qed.

Lemma digit_not_special c :
  is_digit c = true →
  is_space c = false ∧ c ≠ "+"%char ∧ c ≠ "-"%char ∧ tolower c = c ∧
  c ≠ "i"%char ∧ c ≠ "n"%char ∧ c ≠ "x"%char ∧ c ≠ "&"%char ∧ c ≠ "="%char ∧ c ≠ "."%char.
Proof.
  destruct c as [[] [] [] [] [] [] [] []]; vm_compute; intros; try done; split_and!; done.
Qed.

(** The common start of [stoll] and [stod] on a decimal integer. *)
Lemma read_sign_pretty z :
  span is_space (pretty z) = (EmptyString, pretty z) ∧
  read_sign (pretty z) = ((z <? 0)%Z, pretty (Z.abs_N z)) ∧
  String.length (pretty (Z.abs_N z)) ≠ 0%nat.
Proof.
  rewrite pretty_Z_digits. destruct (pretty_N_value (Z.abs_N z)) as (Hd & _ & Hne).
  destruct (pretty (Z.abs_N z)) as [|c s]; [done|].
  simpl in Hd. apply andb_true_iff in Hd as [Hc Hs].
  destruct (digit_not_special c Hc) as (Hsp & Hp & Hm & _).
  destruct (z <? 0)%Z; simpl; [by vm_compute|].
  rewrite Hsp. split_and!; [done| |done].
  unfold read_sign. clear -Hp Hm. destruct c as [[] [] [] [] [] [] [] []]; done.
Qed.

Lemma stoll_pretty z :
  stoll (pretty z) =
    if ((-9223372036854775808 <=? z) && (z <? 9223372036854775808))%Z
    then Returns (z, String.length (pretty z)) else Throws "stoll".
Proof.
  destruct (read_sign_pretty z) as (Hsp & Hsign & Hlen).
  destruct (pretty_N_value (Z.abs_N z)) as (Hd & Hv & _).
  unfold stoll. rewrite Hsp, Hsign, (span_all _ _ Hd), Hv.
  destruct (Nat.eqb_spec (String.length (pretty (Z.abs_N z))) 0); [done|].
  assert ((if (z <? 0)%Z then - Z.of_N (Z.abs_N z) else Z.of_N (Z.abs_N z))%Z = z) as ->
    by (rewrite N2Z.inj_abs_N; zbool; lia).
  simpl. by rewrite Nat.sub_0_r.
Qed.

Lemma stoull_range s (n : Z) : stoull s = Returns n → is_u64 n.
Proof.
  unfold stoull. destruct (span is_space s) as [? unspaced]. destruct (read_sign unspaced) as [negative unsigned].
  destruct (span is_digit unsigned) as [digits ?] eqn:Hd. destruct (_ =? 0)%nat; [done|].
  destruct (Z.ltb_spec (digits_value 10 0 digits) two64) as [Hlt|]; [|done]. intros E. injection E as <-.
  destruct negative; [apply u64_range|]. split; [|done].
  apply digits_value_nonneg; [by eapply span_prefix|done].
Qed.

Lemma stoull_pretty z :
  stoull (pretty z) =
    if (Z.abs z <? two64)%Z then Returns (u64 z) else Throws "stoull".
Proof.
  destruct (read_sign_pretty z) as (Hsp & Hsign & Hlen).
  destruct (pretty_N_value (Z.abs_N z)) as (Hd & Hv & _).
  unfold stoull. rewrite Hsp, Hsign, (span_all _ _ Hd), Hv.
  destruct (Nat.eqb_spec (String.length (pretty (Z.abs_N z))) 0); [done|].
  rewrite N2Z.inj_abs_N. destruct (Z.ltb_spec (Z.abs z) two64); [|done]. f_equal.
  destruct (Z.ltb_spec z 0); [f_equal; lia|]. rewrite u64_small; [lia|]. unfold is_u64. lia.
Qed.

(** The text of an integer: blanks, an optional sign and at least one digit. *)
Definition integer_text (text : string) (i : Z) : Prop :=
  ∃ blanks sign digits, text = blanks +:+ (sign +:+ digits) ∧
    all_chars is_space blanks = true ∧ sign ∈ [EmptyString; "+"; "-"]%string ∧
    all_chars is_digit digits = true ∧ digits ≠ EmptyString ∧
    i = (if bool_decide (sign = "-"%string) then - digits_value 10 0 digits
         else digits_value 10 0 digits)%Z.

Definition int64 (i : Z) : Prop := (-9223372036854775808 ≤ i < 9223372036854775808)%Z.

(** What [read_sign] takes off, put back. *)
Lemma read_sign_app s negative rest :
  read_sign s = (negative, rest) →
  ∃ sign, s = sign +:+ rest ∧ sign ∈ [EmptyString; "+"; "-"]%string ∧
    negative = bool_decide (sign = "-"%string).
Proof.
  assert (∀ b t, (b, t) = (negative, rest) → ∀ sign, s = sign +:+ t →
    sign ∈ [EmptyString; "+"; "-"]%string → b = bool_decide (sign = "-"%string) →
    ∃ sign, s = sign +:+ rest ∧ sign ∈ [EmptyString; "+"; "-"]%string ∧
      negative = bool_decide (sign = "-"%string)) as Hpack.
  { intros b t E sign Hs Hin Hb. injection E as <- <-. by exists sign. }
  unfold read_sign. intros E. destruct s as [|c s].
  { by apply (Hpack _ _ E EmptyString); [|left|]. }
  destruct (decide (c = "+"%char)) as [->|Hp].
  { apply (Hpack _ _ E "+"%string); [done|right; left|by vm_compute]. }
  destruct (decide (c = "-"%char)) as [->|Hm].
  { apply (Hpack _ _ E "-"%string); [done|right; right; left|by vm_compute]. }
  assert ((false, String c s) = (negative, rest)) as E'.
  { rewrite <-E. clear -Hp Hm. destruct c as [[] [] [] [] [] [] [] []]; done. }
  by apply (Hpack _ _ E' EmptyString); [|left|].
Qed.

Lemma read_sign_digits sign digits :
  sign ∈ [EmptyString; "+"; "-"]%string → all_chars is_digit digits = true →
  digits ≠ EmptyString →
  span is_space (sign +:+ digits) = (EmptyString, sign +:+ digits) ∧
  read_sign (sign +:+ digits) = (bool_decide (sign = "-"%string), digits).
Proof.
  intros Hsign Hd Hne. destruct digits as [|c s]; [done|].
  simpl in Hd. apply andb_true_iff in Hd as [Hc _].
  destruct (digit_not_special c Hc) as (Hsp & Hp & Hm & _).
  repeat (apply elem_of_cons in Hsign as [->|Hsign]); [| | |by apply elem_of_nil in Hsign];
    rewrite ?string_app_cons, string_nil_app; simpl; [rewrite Hsp|done|done].
  split; [done|]. unfold read_sign. clear -Hp Hm. destruct c as [[] [] [] [] [] [] [] []]; done.
Qed.

(** [stoll] reads the whole of a text exactly when that is the text of a 64-bit
    integer. *)
Lemma stoll_whole text i :
  stoll text = Returns (i, String.length text) ↔ integer_text text i ∧ int64 i.
Proof.
  unfold int64. split.
  - unfold stoll. destruct (span is_space text) as [blanks unspaced] eqn:Hblanks.
    destruct (read_sign unspaced) as [negative unsigned] eqn:Hsign.
    destruct (span is_digit unsigned) as [digits rest] eqn:Hdigits.
    destruct (Nat.eqb_spec (String.length digits) 0) as [|Hlen]; [done|].
    destruct (_ && _)%Z eqn:Hrange; [|done]. intros E. injection E as <- Hpos.
    pose proof (span_app _ _ _ _ Hblanks) as ->.
    destruct (read_sign_app _ _ _ Hsign) as (sign & -> & Hin & ->).
    pose proof (span_app _ _ _ _ Hdigits) as ->. rewrite !string_app_length in Hpos.
    assert (rest = EmptyString) as -> by (destruct rest; [done|simpl in Hpos; lia]).
    rewrite string_app_nil. apply andb_true_iff in Hrange as [?%Z.leb_le ?%Z.ltb_lt].
    split; [|lia]. exists blanks, sign, digits.
    split_and!; [done|by eapply span_prefix|done|by eapply span_prefix|by destruct digits|done].
  - intros [(blanks & sign & digits & -> & Hblanks & Hsign & Hd & Hne & ->) Hrange].
    destruct (read_sign_digits sign digits Hsign Hd Hne) as [Hspace Hread].
    unfold stoll. rewrite (span_stop _ _ _ Hblanks Hspace), Hread, (span_all _ _ Hd).
    destruct (Nat.eqb_spec (String.length digits) 0) as [|Hlen]; [by destruct digits|].
    rewrite (proj2 (andb_true_iff _ _)) by (rewrite Z.leb_le, Z.ltb_lt; lia).
    simpl. by rewrite Nat.sub_0_r.
Qed.

Lemma read_decimal_digits s :
  all_chars is_digit s = true → s ≠ EmptyString →
  read_decimal s = Some (finite_numeral (digits_value 10 0 s) 10 0, EmptyString).
Proof.
  intros Hd Hne. unfold read_decimal, read_mantissa. rewrite (span_all _ _ Hd).
  assert ((String.length s + String.length "" =? 0)%nat = false) as -> by (by destruct s).
  cbv beta iota zeta. by rewrite string_app_nil.
Qed.

Lemma read_numeral_digits s :
  all_chars is_digit s = true → s ≠ EmptyString →
  read_numeral s = Some (finite_numeral (digits_value 10 0 s) 10 0, EmptyString).
Proof.
  intros Hd Hne. rewrite <-read_decimal_digits by done. destruct s as [|c s]; [done|].
  simpl in Hd. apply andb_true_iff in Hd as [Hc Hs].
  destruct (digit_not_special c Hc) as (_ & _ & _ & Hl & Hi & Hn & _).
  unfold read_numeral. cbn [strip_word]. rewrite Hl.
  rewrite (proj2 (Ascii.eqb_neq c "i") Hi), (proj2 (Ascii.eqb_neq c "n") Hn).
  destruct (Ascii.eqb c "0"); [|done]. destruct s as [|d s]; [done|].
  simpl in Hs. apply andb_true_iff in Hs as [Hc' _].
  destruct (digit_not_special d Hc') as (_ & _ & _ & Hl' & _ & _ & Hx & _).
  by rewrite Hl', (proj2 (Ascii.eqb_neq d "x") Hx).
Qed.

(** A decimal integer that is not zero is read as the nearest [double], unless
    that is infinite. *)
Lemma stod_pretty u z :
  (z ≠ 0)%Z →
  let value := nearest (z <? 0)%Z (Z.to_pos (Z.abs z)) 1 in
  stod u (pretty z) =
    if is_infinity value then Throws "stod" else Returns (value, String.length (pretty z)).
Proof.
  intros Hz value. destruct (read_sign_pretty z) as (Hsp & Hsign & Hlen).
  destruct (pretty_N_value (Z.abs_N z)) as (Hd & Hv & Hne).
  unfold stod. rewrite Hsp, Hsign, (read_numeral_digits _ Hd Hne), Hv, N2Z.inj_abs_N.
  destruct (Z.abs z) as [|n|n] eqn:En; [lia| |lia]. cbn [finite_numeral].
  change (0 <=? 0)%Z with true. cbv iota beta. rewrite Z.mul_1_r.
  subst value. cbn [Z.to_pos]. assert (below_normal n 1 = false) as ->.
  { apply Z.ltb_ge. etrans; [|apply Z.mul_le_mono_nonneg_r with (n := 1%Z)]; [|done|lia]. by vm_compute. }
  rewrite orb_false_r. by rewrite Nat.sub_0_r.
Qed.
End decimal.

(** Samples. *)
Example stoll_samples :
  stoll "42" = Returns (42%Z, 2%nat) ∧ stoll " -7x" = Returns ((-7)%Z, 3%nat) ∧
  stoll "9223372036854775808" = Throws "stoll" ∧ stoll "-" = Throws "stoll".
Proof. by vm_compute. Qed.

Example stod_samples :
  stod (λ _ _, true) "0x1.8p1z" = Returns (nearest false 3 1, 7%nat) ∧
  stod (λ _ _, true) "-.5e1" = Returns (nearest true 5 1, 5%nat) ∧
  stod (λ _ _, true) "0.1" = Returns (S754_finite false 7205759403792794 (-56), 3%nat) ∧
  stod (λ _ _, true) "1e400" = Throws "stod" ∧
  stod (λ _ _, true) "Infinity" = Returns (S754_infinity false, 8%nat) ∧
  stod (λ _ _, true) "nan(x1)" = Returns (S754_nan, 7%nat) ∧
  stod (λ _ _, true) "1e+" = Returns (nearest false 1 1, 1%nat).
Proof. by vm_compute. Qed.
