(* ===== verification/Query.v ===== *)
(** * Query strings: [http_parser::parse_query]

    The loop over the text after the first question mark, its index arithmetic
    on [std::string] included, and how the text of a parameter becomes an
    integer, a floating-point number or a string. *)
From S2P Require Import Prelude StringOps Numerals.
From stdpp Require Import pretty.
From Stdlib Require Import Ascii SpecFloat.

(** [try { m } catch (...) { handler }]. *)
Definition catch_all {A : Type} (m handler : outcome A) : outcome A :=
  match m with Throws _ => handler | _ => m end.

(** ** Parameter values *)
Inductive value :=
  | Integer (i : Z)
  | Float (f : spec_float)
  | Text (s : string).

(** The JSON object the parameters are collected in, of a library: an empty
    object, [params[key] = value], and what a key is mapped to. *)
Class Params := {
  params : Type;
  no_params : params;
  set_param : string → value → params → params;
  param : string → params → option value
}.

Class ParamsLaws `{Params} : Prop := {
  param_none k : param k no_params = None;
  param_set k v p : param k (set_param k v p) = Some v;
  param_set_ne k k' v p : k ≠ k' → param k (set_param k' v p) = param k p
}.

#[export] Instance map_params : Params := {|
  params := gmap string value;
  no_params := ∅;
  set_param := λ k v p, <[k := v]> p;
  param := λ k p, p !! k
|}.

#[export] Instance map_params_laws : ParamsLaws.
Proof.
  split; intros; simpl; [apply lookup_empty|apply lookup_insert_eq|by apply lookup_insert_ne].
Qed.

Section query.
(** How [std::stod] treats values below the normal range. *)
Context (underflow_is_error : positive → positive → bool).

(** The first [try] block. *)
Definition try_integer (text : string) : outcome value :=
  let! '(i, pos) := stoll text in
  if (pos =? String.length text)%nat then Returns (Integer i) else Throws "not int".

(** The second one, whose handler stores the text. *)
Definition try_float (text : string) : outcome value :=
  let! '(f, pos) := stod underflow_is_error text in
  if (pos =? String.length text)%nat then Returns (Float f) else Returns (Text text).

Definition parse_value (text : string) : outcome value :=
  catch_all (try_integer text) (catch_all (try_float text) (Returns (Text text))).

Context `{Params}.
Implicit Types (p : params).

(** The body of the loop for one piece of the query. *)
Definition add_pair (pair : string) p : outcome params :=
  match find_char "=" pair with
  | None => Returns p
  | Some eq =>
      let! key := substr 0 eq pair in
      let! text := substr_from (eq + 1) pair in
      let! v := parse_value text in
      Returns (set_param key v p)
  end.

(** [while (start < query.size())]; [None] when the fuel does not suffice. *)
Fixpoint query_loop (fuel : nat) (query : string) (start : nat) p : option (outcome params) :=
  match fuel with
  | O => None
  | S fuel' =>
      if (start <? String.length query)%nat then
        let amp := default (String.length query) (find_from "&" start query) in
        match let! pair := substr start (amp - start) query in add_pair pair p with
        | Returns p' => query_loop fuel' query (amp + 1) p'
        | Throws e => Some (Throws e)
        | Undefined => Some Undefined
        end
      else Some (Returns p)
  end.

(** Every iteration advances [start], so one more than the length suffices. *)
Definition parse_query (target : string) : option (outcome params) :=
  match find_char "?" target with
  | None => Some (Returns no_params)
  | Some pos =>
      match substr_from (pos + 1) target with
      | Returns query => query_loop (S (String.length query)) query 0 no_params
      | Throws e => Some (Throws e)
      | Undefined => Some Undefined
      end
  end.
End query.

(** ** Reference definitions: the pieces of a query *)

(** The assignments of a target, in order. *)
Definition assignments (target : string) : list (string * string) :=
  match cut "?" target with
  | None => []
  | Some (_, query) => omap (cut "=") (pieces "&" query)
  end.

(** The text the last assignment to a key gives it. *)
Definition last_text (k : string) (kvs : list (string * string)) : option string :=
  last (omap (λ kv, if decide (kv.1 = k) then Some kv.2 else None) kvs).

(** ** The loop *)
Section loop.
Context (underflow_is_error : positive → positive → bool) `{Params}.
Implicit Types (p : params) (kvs : list (string * string)).

Lemma parse_value_returns text : ∃ v, parse_value underflow_is_error text = Returns v.
Proof.
  unfold parse_value, try_integer, try_float.
  pose proof (stoll_defined text). pose proof (stod_defined underflow_is_error text).
  destruct (stoll text) as [[i pos]|e|]; simpl; [destruct (pos =? _)%nat; simpl; [by eexists|]| |done].
  all: destruct (stod _ text) as [[f pos']|e'|]; simpl; [by destruct (pos' =? _)%nat; eexists|by eexists|done].
Qed.

(** What the type of a stored value says of the text it was read from. *)
Definition typed (text : string) (v : value) : Prop :=
  match v with
  | Integer i => integer_text text i ∧ int64 i
  | Float f => (∀ i, int64 i → ¬ integer_text text i) ∧
      stod underflow_is_error text = Returns (f, String.length text)
  | Text s => s = text ∧ (∀ i, int64 i → ¬ integer_text text i) ∧
      ∀ f, stod underflow_is_error text ≠ Returns (f, String.length text)
  end.

Lemma parse_value_typed text v : parse_value underflow_is_error text = Returns v → typed text v.
Proof.
  assert ((∀ i, stoll text ≠ Returns (i, String.length text)) →
    ∀ i, int64 i → ¬ integer_text text i) as Hno.
  { intros Hs i Hi Ht. apply (Hs i). by apply stoll_whole. }
  pose proof (stoll_defined text) as Hd. pose proof (stod_defined underflow_is_error text) as Hd'.
  assert (∀ v, catch_all (try_float underflow_is_error text) (Returns (Text text)) = Returns v →
    (∀ i, stoll text ≠ Returns (i, String.length text)) → typed text v) as Hfloat.
  { clear v. intros v Hv Hs. specialize (Hno Hs). unfold try_float in Hv.
    destruct (stod underflow_is_error text) as [[f pos]|e|] eqn:Ef; simpl in Hv; [| |done].
    - destruct (Nat.eqb_spec pos (String.length text)) as [->|Hpos]; injection Hv as <-; simpl;
        [done|]. split_and!; [done|done|]. intros f' E. congruence.
    - injection Hv as <-. simpl. split_and!; [done|done|]. intros f' E. congruence. }
  unfold parse_value, try_integer.
  destruct (stoll text) as [[i pos]|e|] eqn:Es; simpl; [| |done].
  - destruct (Nat.eqb_spec pos (String.length text)) as [->|Hpos]; simpl.
    + intros E. injection E as <-. by apply stoll_whole.
    + intros Hv. apply Hfloat; [done|]. intros i' E. congruence.
  - intros Hv. by apply Hfloat.
Qed.

Lemma parse_value_integer text v i :
  parse_value underflow_is_error text = Returns v →
  v = Integer i ↔ integer_text text i ∧ int64 i.
Proof.
  intros Hv. pose proof (parse_value_typed _ _ Hv) as Ht. split; [by intros ->|].
  intros [Hi Hr]. destruct v as [j|f|s]; simpl in Ht;
    [|by destruct Ht as [Ht _]; destruct (Ht i)|by destruct Ht as (_ & Ht & _); destruct (Ht i)].
  apply stoll_whole in Ht. pose proof (proj2 (stoll_whole text i) (conj Hi Hr)). congruence.
Qed.

(** What the loop does with the assignments it finds. *)
Definition assign_all kvs p : outcome params :=
  foldl (λ m '(k, text),
    let! p := m in let! v := parse_value underflow_is_error text in Returns (set_param k v p))
    (Returns p) kvs.

Lemma assign_all_nil p : assign_all [] p = Returns p.
Proof. reflexivity. Qed.

Lemma assign_all_cons k text v kvs p :
  parse_value underflow_is_error text = Returns v →
  assign_all ((k, text) :: kvs) p = assign_all kvs (set_param k v p).
Proof. intros Hv. unfold assign_all. simpl. by rewrite Hv. Qed.

Lemma add_pair_cut pair p :
  add_pair underflow_is_error pair p =
    match cut "=" pair with
    | None => Returns p
    | Some (k, text) => assign_all [(k, text)] p
    end.
Proof.
  unfold add_pair. pose proof (cut_find "=" pair) as Hc. destruct (cut "=" pair) as [[k text]|].
  - destruct Hc as (i & -> & Hi & <- & <-). unfold substr, substr_from, assign_all. simpl.
    rewrite (proj2 (Nat.leb_le (i + 1) _)) by lia. done.
  - by rewrite Hc.
Qed.

Lemma query_loop_spec fuel query start p :
  (String.length query - start < fuel)%nat →
  query_loop underflow_is_error fuel query start p =
    Some (assign_all (omap (cut "=") (pieces "&" (string_drop start query))) p).
Proof.
  revert start p. induction fuel as [|fuel IH]; intros start p Hfuel; [lia|]. cbn [query_loop].
  destruct (Nat.ltb_spec start (String.length query)) as [Hlt|Hge]; [|by rewrite string_drop_all].
  unfold find_from, substr, substr_from. rewrite (proj2 (Nat.leb_le start _)) by lia.
  cbn [outcome_bind]. rewrite pieces_step.
  set (rest := string_drop start query).
  assert (String.length rest = String.length query - start)%nat as Hrest by apply string_drop_length.
  destruct (find_char "&" rest) as [i|] eqn:Hfind; cbn [fmap option_fmap option_map default from_option id].
  - apply find_char_lt in Hfind.
    replace (start + i - start)%nat with i by lia. cbn [id].
    rewrite add_pair_cut. cbn [omap list_omap].
    destruct (cut "=" (string_take i rest)) as [[k text]|].
    + destruct (parse_value_returns text) as [v Hv]. rewrite !(assign_all_cons k text v) by done.
      rewrite assign_all_nil, IH by lia. unfold rest. by rewrite string_drop_drop, Nat.add_assoc.
    + rewrite IH by lia. unfold rest. by rewrite string_drop_drop, Nat.add_assoc.
  - rewrite string_take_all, add_pair_cut by lia. cbn [omap list_omap].
    destruct (cut "=" rest) as [[k text]|].
    + destruct (parse_value_returns text) as [v Hv]. rewrite !(assign_all_cons k text v) by done.
      rewrite assign_all_nil, IH by lia. by rewrite string_drop_all by lia.
    + rewrite IH by lia. by rewrite string_drop_all by lia.
Qed.

Lemma parse_query_spec target :
  parse_query underflow_is_error target = Some (assign_all (assignments target) no_params).
Proof.
  unfold parse_query, assignments, substr_from. pose proof (cut_find "?" target) as Hc.
  destruct (cut "?" target) as [[path query]|]; [|by rewrite Hc].
  destruct Hc as (i & -> & Hi & _ & <-). rewrite (proj2 (Nat.leb_le (i + 1) _)) by lia.
  by rewrite query_loop_spec by lia.
Qed.

Lemma assign_all_lookup `{!ParamsLaws} kvs p :
  ∃ p', assign_all kvs p = Returns p' ∧
    ∀ k, match last_text k kvs with
         | None => param k p' = param k p
         | Some text => ∃ v, parse_value underflow_is_error text = Returns v ∧ param k p' = Some v
         end.
Proof.
  revert p. induction kvs as [|[k0 text0] kvs IH]; intros p; [by exists p|].
  destruct (parse_value_returns text0) as [v0 Hv0].
  rewrite (assign_all_cons k0 text0 v0) by done.
  destruct (IH (set_param k0 v0 p)) as (p' & Hp' & Hall). exists p'. split; [done|].
  intros k. specialize (Hall k). unfold last_text in *. cbn [omap list_omap fst snd].
  destruct (decide (k0 = k)) as [->|Hne]; cbn [last].
  - destruct (omap _ kvs) as [|t ts] eqn:E.
    + cbn in *. exists v0. by rewrite Hall, param_set.
    + rewrite last_cons. destruct (last (t :: ts)) eqn:El; [done|].
      by apply last_None in El.
  - destruct (last _); [done|]. by rewrite Hall, param_set_ne.
Qed.
End loop.

(** ** Writing a query *)
Section writing.
Implicit Types (s : string) (kvs : list (string * string)).

Definition write_pair (kv : string * string) : string := kv.1 +:+ String "=" kv.2.

(** [path?k1=v1&k2=v2...]. *)
Definition write_target (path : string) kvs : string :=
  path +:+ String "?" (String.concat "&" (write_pair <$> kvs)).

Lemma no_char_pair k text :
  no_char "&" k = true → no_char "&" text = true → no_char "&" (write_pair (k, text)) = true.
Proof. unfold no_char, write_pair. intros Hk Ht. rewrite all_chars_app. simpl. by rewrite Hk, Ht. Qed.

Lemma assignments_write path kvs :
  no_char "?" path = true →
  Forall (λ kv, no_char "&" kv.1 = true ∧ no_char "=" kv.1 = true ∧ no_char "&" kv.2 = true) kvs →
  assignments (write_target path kvs) = kvs.
Proof.
  intros Hpath Hkvs. unfold assignments, write_target. rewrite cut_app by done.
  induction Hkvs as [|[k text] kvs (Hk & He & Ht) Hkvs IH]; [done|].
  assert (cut "=" (write_pair (k, text)) = Some (k, text)) as Hcut by by apply cut_app.
  assert (no_char "&" (write_pair (k, text)) = true) as Hno by by apply no_char_pair.
  destruct kvs as [|kv kvs].
  - cbn [fmap list_fmap String.concat]. rewrite pieces_one by done.
    cbn [omap list_omap]. by rewrite Hcut.
  - change (String.concat "&" (write_pair <$> (k, text) :: kv :: kvs))
      with (write_pair (k, text) +:+ String "&" (String.concat "&" (write_pair <$> kv :: kvs))).
    rewrite pieces_app by done. cbn [omap list_omap]. rewrite Hcut. f_equal. exact IH.
Qed.

Lemma last_text_unique k text kvs : NoDup kvs.*1 → (k, text) ∈ kvs → last_text k kvs = Some text.
Proof.
  unfold last_text. induction kvs as [|[k' text'] kvs IH]; [by intros _ ?%elem_of_nil|].
  cbn [fmap list_fmap fst omap list_omap snd]. intros [Hk' Hnd]%NoDup_cons Hin.
  assert (∀ l : list (string * string), k' ∉ l.*1 →
    omap (λ kv, if decide (kv.1 = k') then Some kv.2 else None) l = []) as Hnone.
  { clear. induction l as [|[k t] l IH]; [done|]. cbn [fmap list_fmap fst omap list_omap].
    rewrite not_elem_of_cons. intros [Hne Hl]. rewrite decide_False by done. by apply IH. }
  apply elem_of_cons in Hin as [[= -> ->]|Hin].
  - rewrite decide_True by done. by rewrite Hnone.
  - rewrite decide_False; [by apply IH|]. intros ->. apply Hk'.
    apply list_elem_of_fmap. by exists (k, text).
Qed.

(** A decimal integer has no ampersand. *)
Lemma no_char_pretty (z : Z) : no_char "&" (pretty z) = true.
Proof.
  rewrite pretty_Z_digits. unfold no_char. rewrite all_chars_app. apply andb_true_iff. split.
  - by destruct (z <? 0)%Z.
  - destruct (pretty_N_value (Z.abs_N z)) as (Hd & _). revert Hd. apply all_chars_mono.
    intros c (_ & _ & _ & _ & _ & _ & _ & Hne & _)%digit_not_special.
    apply negb_true_iff. by apply Ascii.eqb_neq.
Qed.

(** The parameters a client can write, as text: integers of 64 bits, and texts
    that are not the text of a number. *)
Definition written (v : value) : string :=
  match v with Integer i => pretty i | Float _ => EmptyString | Text s => s end.

Definition writable (u : positive → positive → bool) (v : value) : Prop :=
  match v with
  | Integer i => (-9223372036854775808 ≤ i < 9223372036854775808)%Z
  | Float _ => False
  | Text s => no_char "&" s = true ∧ parse_value u s = Returns (Text s)
  end.
End writing.

Lemma strip_word_app w w' s rest :
  strip_word (w +:+ w') s = Some rest → ∃ t, strip_word w s = Some t ∧ strip_word w' t = Some rest.
Proof.
  revert s. induction w as [|a w IH]; intros s; [by exists s|].
  rewrite string_app_cons. destruct s as [|c s]; [done|]. cbn [strip_word].
  destruct (Ascii.eqb _ _); [apply IH|done].
Qed.

(** A word that denotes a number is read whole, and has no digit to offer to
    [stoll]. *)
Lemma number_word_start word text :
  word = "infinity" ∨ word = "inf" ∨ word = "nan" →
  strip_word word text = Some EmptyString →
  read_numeral text = Some (if decide (word = "nan") then NotANumber else Infinity, EmptyString) ∧
  ∃ c s, text = String c s ∧ span is_space text = (EmptyString, text) ∧
    read_sign text = (false, text) ∧ span is_digit text = (EmptyString, text).
Proof.
  intros Hword Hstrip.
  assert (∃ c s, text = String c s ∧ (tolower c = "i"%char ∨ tolower c = "n"%char)) as (c & s & -> & Hc).
  { destruct text as [|c s]; [by destruct Hword as [->|[->| ->]]|]. exists c, s. split; [done|].
    destruct Hword as [->|[->| ->]]; cbn [strip_word] in Hstrip;
      destruct (Ascii.eqb_spec (tolower c) "i") as [E|];
      destruct (Ascii.eqb_spec (tolower c) "n") as [E'|]; try done; auto. }
  split; [|exists c, s; split; [done|]].
  - destruct Hword as [->|[->| ->]]; unfold read_numeral.
    + by rewrite Hstrip.
    + rewrite Hstrip. destruct (strip_word "infinity" _) as [rest|] eqn:E; [|done].
      by apply (strip_word_app "inf" "inity") in E as (t & Ht & E); simplify_eq.
    + assert (∀ w, strip_word (String "i" w) (String c s) = None) as Hi.
      { intros w. cbn [strip_word] in *.
        destruct (Ascii.eqb_spec (tolower c) "n") as [->|]; [done|done]. }
      by rewrite !Hi, Hstrip.
  - clear Hstrip. destruct c as [[] [] [] [] [] [] [] []]; vm_compute in Hc;
      destruct Hc; simplify_eq; done.
Qed.

(** ** Properties *)
Section properties.
Context (underflow_is_error : positive → positive → bool) `{ParamsLaws}.

(** C12. [parse_query] returns, and no exception leaves it, for every request
    target: every key has the value of its last assignment in the text after
    the first question mark, cut at ampersands and then at the first equals
    sign; a key that is not assigned is absent. *)
Theorem parse_query_keeps_last_assignment target :
  ∃ p, parse_query underflow_is_error target = Some (Returns p) ∧
    ∀ k, match last_text k (assignments target) with
         | None => param k p = None
         | Some text => ∃ v, parse_value underflow_is_error text = Returns v ∧ param k p = Some v
         end.
Proof.
  rewrite parse_query_spec.
  destruct (assign_all_lookup underflow_is_error (assignments target) no_params) as (p & -> & Hp).
  exists p. split; [done|]. intros k. specialize (Hp k).
  destruct (last_text k _); [done|]. by rewrite Hp, param_none.
Qed.

(** C25. A query that a client writes out of distinct keys, 64-bit integers in
    decimal and texts that are not numerals is read back exactly: integers as
    integers, texts as texts. *)
Theorem query_round_trip path (kvs : list (string * value)) :
  no_char "?" path = true → NoDup kvs.*1 →
  Forall (λ kv, no_char "&" kv.1 = true ∧ no_char "=" kv.1 = true ∧
    writable underflow_is_error kv.2) kvs →
  ∃ p, parse_query underflow_is_error (write_target path (prod_map id written <$> kvs))
       = Some (Returns p) ∧
    ∀ k v, (k, v) ∈ kvs → param k p = Some v.
Proof.
  intros Hpath Hnd Hkvs. rewrite parse_query_spec, assignments_write; [|done|].
  2:{ rewrite Forall_fmap. eapply Forall_impl; [exact Hkvs|]. intros [k v] (Hk & He & Hv). simpl in *.
      split_and!; [done..|]. destruct v; simpl in *; [apply no_char_pretty|done|apply Hv]. }
  destruct (assign_all_lookup underflow_is_error (prod_map id written <$> kvs) no_params)
    as (p & -> & Hp).
  exists p. split; [done|]. intros k v Hin. specialize (Hp k).
  rewrite (last_text_unique k (written v)) in Hp.
  - destruct Hp as (v' & Hv' & ->). f_equal.
    rewrite Forall_forall in Hkvs. destruct (Hkvs _ Hin) as (_ & _ & Hw).
    destruct v as [i|f|s]; simpl in Hw, Hv'; [|done|destruct Hw as [_ Hw]; congruence].
    unfold parse_value, try_integer in Hv'. rewrite stoll_pretty in Hv'.
    rewrite (proj2 (Z.leb_le _ i)), (proj2 (Z.ltb_lt i _)) in Hv' by lia.
    simpl in Hv'. rewrite Nat.eqb_refl in Hv'. by simplify_eq/=.
  - by rewrite <-list_fmap_compose.
  - apply list_elem_of_fmap. by exists (k, v).
Qed.

(** A decimal integer beyond 64 bits is not kept as an integer: it becomes
    the nearest floating-point number, or stays text when that is infinite. *)
Theorem large_integers_become_floats (z : Z) :
  ¬ (-9223372036854775808 ≤ z < 9223372036854775808)%Z →
  let nearest_float := nearest (z <? 0)%Z (Z.to_pos (Z.abs z)) 1 in
  parse_value underflow_is_error (pretty z) =
    Returns (if is_infinity nearest_float then Text (pretty z) else Float nearest_float).
Proof.
  intros Hz nearest_float. unfold parse_value, try_integer, try_float. rewrite stoll_pretty.
  assert (((-9223372036854775808 <=? z) && (z <? 9223372036854775808))%Z = false) as ->
    by (apply andb_false_iff; rewrite Z.leb_gt, Z.ltb_ge; lia).
  cbn [outcome_bind catch_all]. rewrite stod_pretty by lia. fold nearest_float.
  destruct (is_infinity nearest_float); [done|]. cbn [outcome_bind]. by rewrite Nat.eqb_refl.
Qed.

(** The words [inf], [infinity] and [nan], in any case and with any sign,
    are stored as floating-point numbers and not as the text that was sent. *)
Theorem number_words_become_floats (text : string) (word : string) (minus : bool) :
  word = "infinity" ∨ word = "inf" ∨ word = "nan" →
  strip_word word text = Some EmptyString →
  parse_value underflow_is_error ((if minus then "-" else EmptyString) +:+ text) =
    Returns (Float (if decide (word = "nan") then S754_nan else S754_infinity minus)).
Proof.
  intros Hword Hstrip.
  destruct (number_word_start word text Hword Hstrip) as (Hread & c & s & -> & Hspan & Hsign & Hd).
  unfold parse_value, try_integer, try_float, stoll, stod.
  assert (span is_space ((if minus then "-" else EmptyString) +:+ String c s) =
    (EmptyString, (if minus then "-" else EmptyString) +:+ String c s)) as ->
    by (destruct minus; [done|exact Hspan]).
  assert (read_sign ((if minus then "-" else EmptyString) +:+ String c s) = (minus, String c s)) as ->
    by (destruct minus; [done|exact Hsign]).
  rewrite Hd, Hread. cbn [String.length Nat.eqb outcome_bind catch_all].
  by destruct (decide _); simpl; rewrite Nat.sub_0_r, Nat.eqb_refl.
Qed.

(** C13. [parse_query] returns typed parameters for every request target.  A
    parameter is an integer exactly when the text of its last assignment is
    blanks, a sign and digits, of a value of 64 bits, and then it is that value;
    it is a floating-point number when the text is not such and [std::stod]
    reads all of it; and otherwise it is the text itself, unchanged. *)
Theorem parameters_are_typed target :
  ∃ p, parse_query underflow_is_error target = Some (Returns p) ∧
    ∀ k v, param k p = Some v →
      ∃ text, last_text k (assignments target) = Some text ∧
        typed underflow_is_error text v ∧
        ∀ i, v = Integer i ↔ integer_text text i ∧ int64 i.
Proof.
  rewrite parse_query_spec.
  destruct (assign_all_lookup underflow_is_error (assignments target) no_params) as (p & -> & Hp).
  exists p. split; [done|]. intros k v Hk. specialize (Hp k). rewrite Hk in Hp.
  destruct (last_text k _) as [text|]; [|by rewrite param_none in Hp].
  destruct Hp as (v' & Hv & E). injection E as <-. exists text. split; [done|].
  split; [by apply parse_value_typed|intros i; exact (parse_value_integer _ _ _ _ Hv)].
Qed.
End properties.

(** ** Witnesses *)
Definition reported (_ _ : positive) : bool := true.

Lemma parse_query_keeps_last_assignment_witness :
  ∃ p, parse_query reported "/a?x=1&x=2" = Some (Returns p) ∧ param "x" p = Some (Integer 2).
Proof.
  destruct (parse_query_keeps_last_assignment reported "/a?x=1&x=2") as (p & Hp & Hall).
  exists p. split; [exact Hp|]. destruct (Hall "x") as (v & Hv & ->). vm_compute in Hv. by injection Hv as <-.
Defined.

Lemma parameters_are_typed_witness :
  ∃ p, parse_query reported "/a?x=+7&y=7x" = Some (Returns p) ∧
    param "y" p = Some (Text "7x") ∧ integer_text "+7" 7.
Proof.
  destruct (parameters_are_typed reported "/a?x=+7&y=7x") as (p & Hp & Hall).
  vm_compute in Hp. injection Hp as <-. eexists. split; [reflexivity|]. split; [by vm_compute|].
  destruct (Hall "x" (Integer 7)) as (text & Htext & _ & Hi); [by vm_compute|].
  vm_compute in Htext. injection Htext as <-. by apply Hi.
Defined.

Lemma query_round_trip_witness :
  ∃ p, parse_query reported "/scores?player=al&count=-3" = Some (Returns p) ∧
    param "count" p = Some (Integer (-3)).
Proof.
  destruct (query_round_trip reported "/scores" [("player", Text "al"); ("count", Integer (-3))])
    as (p & Hp & Hall).
  - reflexivity.
  - apply (bool_decide_unpack _). by vm_compute.
  - repeat constructor; by vm_compute.
  - exists p. split; [exact Hp|]. apply Hall. right. left.
Defined.

Lemma large_integers_become_floats_witness :
  parse_value reported "9223372036854775808" =
    Returns (Float (S754_finite false 4503599627370496 11)).
Proof. apply (large_integers_become_floats reported 9223372036854775808). lia. Defined.

Lemma number_words_become_floats_witness :
  parse_value reported "-Inf" = Returns (Float (S754_infinity true)).
Proof.
  apply (number_words_become_floats reported "Inf" "inf" true); [by right; left|reflexivity].
Defined.

(** The value of a repeated parameter is the last one; a piece without an equals
    sign counts for nothing; text is not percent-decoded. *)
Example query_samples :
  parse_query reported "/a?x=1&x=2&flag&&y=0x10&z=a%20b=c" =
    Some (Returns (<["z" := Text "a%20b=c"]> (<["y" := Float (nearest false 16 1)]>
      (<["x" := Integer 2]> ∅)))).
Proof. by vm_compute. Qed.
