(* ===== verification/FileHelper.v ===== *)
(** * File names: [src/storage/file_helper.hpp]

    [is_valid_filename] and the two overloads of [get_file_path], over a model
    of [std::filesystem::path] for POSIX systems, where a path is its pathname.
    [create_directories] is the operating system's: a parameter that may fail
    with the text of a [filesystem_error] and changes a state of its own. *)
From S2P Require Import Prelude StringOps.
From Stdlib Require Import Ascii.

(** ** [std::filesystem::path] *)
Section path.
Implicit Types (p q : string).

Definition starts_with_slash p : bool :=
  match p with String c _ => Ascii.eqb c "/" | EmptyString => false end.

Definition ends_with_slash p : bool :=
  match rfind_char "/" p with
  | Some i => (S i =? String.length p)%nat
  | None => false
  end.

(** [p.is_absolute()]: on POSIX, the path has a root directory. *)
Definition is_absolute p : bool := starts_with_slash p.

(** The names between slashes; repeated slashes count as one. *)
Definition names p : list string := filter (λ n, n ≠ EmptyString) (pieces "/" p).

(** What a range-based [for] over the path visits: the root directory, the
    names, and an empty element for a trailing slash. *)
Definition path_parts p : list string :=
  (if starts_with_slash p then ["/"] else []) ++ names p ++
  (if ends_with_slash p && negb (bool_decide (names p = [])) then [EmptyString] else []).

(** [p.filename()] and [p.extension()]. *)
Definition filename p : string :=
  match rfind_char "/" p with
  | Some i => string_drop (S i) p
  | None => p
  end.

Definition extension p : string :=
  let f := filename p in
  if bool_decide (f = "." ∨ f = "..") then EmptyString
  else match rfind_char "." f with
       | None | Some 0%nat => EmptyString
       | Some i => string_drop i f
       end.

(** [p / q]. *)
Definition join p q : string :=
  if is_absolute q then q
  else if bool_decide (filename p = EmptyString) then p +:+ q
  else p +:+ String "/" q.
End path.

(** ** [file_helper] *)
Section file_helper.
Implicit Types (name : string).

Definition is_valid_filename name : bool :=
  if bool_decide (name = EmptyString) then false
  else if is_absolute name then false
  else if existsb (λ part, bool_decide (part = "..")) (path_parts name) then false
  else match find_char "/" name, find_char "\" name with
       | None, None => true
       | _, _ => false
       end.

(** The [.json] that both overloads add to [file]. *)
Definition with_json_extension name : string :=
  if bool_decide (extension name = ".json") then name else name +:+ ".json".

Definition invalid_filename_error : string := "Invalid filename - file_helper".

Context {os : Type} (create_directories : string → os → option string * os).
Implicit Types (o : os).

(** The overload with a subdirectory. *)
Definition get_file_path_in_subdirectory (parent_directory subdirectory_name name : string) o
    : outcome string * os :=
  if is_valid_filename name then
    let directory := join parent_directory subdirectory_name in
    match create_directories directory o with
    | (None, o') => (Returns (join directory (with_json_extension name)), o')
    | (Some what, o') =>
        (Throws ("Unable to create " +:+ subdirectory_name +:+ " directory for filename: " +:+ name +:+
                 "under " +:+ parent_directory +:+ "/" +:+ subdirectory_name +:+ " - " +:+ what), o')
    end
  else (Throws invalid_filename_error, o).

(** The overload without. *)
Definition get_file_path (parent_directory name : string) o : outcome string * os :=
  if is_valid_filename name then
    match create_directories parent_directory o with
    | (None, o') => (Returns (join parent_directory (with_json_extension name)), o')
    | (Some what, o') =>
        (Throws ("Unable to create directory for filename: " +:+ name +:+
                 "under " +:+ parent_directory +:+ " - " +:+ what), o')
    end
  else (Throws invalid_filename_error, o).
End file_helper.

(** ** Lemmas on paths *)
Section path_lemmas.
Implicit Types (p q name : string).

Lemma filename_plain name : no_char "/" name = true → filename name = name.
Proof. intros Hn. unfold filename. by rewrite no_char_rfind. Qed.

Lemma not_absolute name : no_char "/" name = true → is_absolute name = false.
Proof.
  destruct name as [|c s]; [done|]. unfold no_char. simpl.
  intros [Hc _]%andb_true_iff. by apply negb_true_iff in Hc.
Qed.

Lemma names_plain name : no_char "/" name = true → name ≠ EmptyString → names name = [name].
Proof. intros Hn Hne. unfold names. rewrite pieces_one by done. by rewrite filter_cons_True. Qed.

Lemma ends_plain name : no_char "/" name = true → ends_with_slash name = false.
Proof. intros Hn. unfold ends_with_slash. by rewrite no_char_rfind. Qed.

Lemma starts_plain name : no_char "/" name = true → starts_with_slash name = false.
Proof. apply not_absolute. Qed.

(** A name without slashes is the only part of its path. *)
Lemma parts_plain name :
  no_char "/" name = true → name ≠ EmptyString → path_parts name = [name].
Proof.
  intros Hn Hne. unfold path_parts. by rewrite starts_plain, ends_plain, names_plain.
Qed.

(** An empty file name means an empty path or a trailing slash. *)
Lemma filename_empty p :
  filename p = EmptyString → p = EmptyString ∨ ∃ p', p = p' +:+ String "/" EmptyString.
Proof.
  unfold filename. destruct (rfind_char "/" p) as [i|] eqn:E; [|by left]. intros Hd. right.
  revert i E Hd. induction p as [|c p IH]; intros i; cbn [rfind_char]; [done|].
  destruct (rfind_char "/" p) as [j|] eqn:E.
  - intros [= <-] Hd. destruct (IH j eq_refl Hd) as [p' ->]. by exists (String c p').
  - destruct (Ascii.eqb_spec c "/") as [->|]; [|done]. intros [= <-]. simpl. intros ->.
    by exists EmptyString.
Qed.

(** A name is appended to a directory as its last part. *)
Lemma join_parts p name :
  no_char "/" name = true → name ≠ EmptyString →
  names (join p name) = names p ++ [name] ∧
  ends_with_slash (join p name) = false ∧
  is_absolute (join p name) = is_absolute p ∧
  filename (join p name) = name.
Proof.
  intros Hn Hne. unfold join. rewrite not_absolute by done.
  assert (∀ p', names (p' +:+ String "/" name) = names p' ++ [name] ∧
    ends_with_slash (p' +:+ String "/" name) = false ∧ filename (p' +:+ String "/" name) = name) as Hslash.
  { intros p'. unfold names, ends_with_slash, filename.
    rewrite pieces_split, filter_app, rfind_app by done.
    rewrite (pieces_one "/" name), filter_cons_True, filter_nil, string_app_length by done.
    split_and!; [done| |].
    - destruct name; [done|]. apply Nat.eqb_neq. simpl. lia.
    - replace (S (String.length p')) with (String.length (p' +:+ "/"))
        by (rewrite string_app_length; simpl; lia).
      change (String "/" name) with ("/" +:+ name). rewrite <-string_app_assoc.
      by apply string_drop_app. }
  case_bool_decide as Hf.
  - destruct (filename_empty p Hf) as [->|[p' ->]].
    + rewrite string_nil_app, names_plain, ends_plain, filename_plain by done.
      split_and!; [done..|by apply not_absolute|done].
    + rewrite string_app_assoc. change ("/" +:+ name) with (String "/" name).
      destruct (Hslash p') as (-> & -> & ->). split_and!; [|done| |done].
      * f_equal. unfold names. rewrite pieces_split, filter_app. simpl. by rewrite app_nil_r.
      * by destruct p'.
  - destruct (Hslash p) as (-> & -> & ->). split_and!; [done..| |done].
    destruct p as [|c p]; [by destruct Hf|]. done.
Qed.
End path_lemmas.

(** ** Lemmas on file names *)
Section name_lemmas.
Implicit Types (name : string).

(** The specification of a valid name. *)
Record plain_name name : Prop := PlainName {
  plain_nonempty : name ≠ EmptyString;
  plain_not_dots : name ≠ "..";
  plain_no_slash : no_char "/" name = true;
  plain_no_backslash : no_char "\" name = true
}.

Lemma valid_plain name : is_valid_filename name = true ↔ plain_name name.
Proof.
  unfold is_valid_filename. case_bool_decide as He; [by split; [|intros []]|].
  destruct (is_absolute name) eqn:Ha.
  { split; [done|]. intros [_ _ Hs _]. by rewrite not_absolute in Ha. }
  destruct (find_char "/" name) eqn:Hs.
  { split; [by case_match|]. intros [_ _ Hn _]. by apply no_char_find in Hn; simplify_eq. }
  apply no_char_find in Hs. rewrite parts_plain by done. simpl. rewrite orb_false_r.
  case_bool_decide as Hd; [by split; [|intros []]|].
  destruct (find_char "\" name) eqn:Hb.
  { split; [done|]. intros [_ _ _ Hn]. by apply no_char_find in Hn; simplify_eq. }
  apply no_char_find in Hb. by split.
Qed.

(** What a file name ends with, from its last dot on. *)
Lemma extension_suffix name suffix :
  no_char "/" (name +:+ suffix) = true → name ≠ EmptyString → suffix ≠ EmptyString →
  no_char "." suffix = true → extension (name +:+ String "." suffix) = String "." suffix.
Proof.
  rewrite no_char_app. intros [Hn Hs]%andb_true_iff Hne Hse Hd. unfold extension.
  rewrite filename_plain by (rewrite no_char_app, Hn; exact Hs).
  rewrite rfind_app by done. rewrite bool_decide_eq_false_2.
  - destruct name as [|c name]; [done|]. cbn [String.length]. by apply string_drop_app.
  - destruct suffix; [done|].
    intros [E|E]; apply (f_equal String.length) in E; rewrite string_app_length in E;
      destruct name; simpl in E; lia || done.
Qed.

Lemma extension_plain name :
  no_char "/" name = true → name ≠ EmptyString → extension (name +:+ ".json") = ".json".
Proof. intros Hn Hne. apply extension_suffix; [by rewrite no_char_app, Hn|done..]. Qed.

Lemma with_json_plain name :
  plain_name name → plain_name (with_json_extension name) ∧ extension (with_json_extension name) = ".json".
Proof.
  intros [He Hd Hs Hb]. unfold with_json_extension. case_bool_decide as Hx; [by split|].
  split; [|by apply extension_plain]. split.
  - by destruct name.
  - intros E. apply (f_equal String.length) in E. rewrite string_app_length in E. simpl in E. lia.
  - by rewrite no_char_app, Hs.
  - by rewrite no_char_app, Hb.
Qed.
End name_lemmas.

(** ** Properties *)

(** Two valid names get the same file exactly when they are equal or differ
    in a [.json] that one of them leaves out: the boards [scores] and
    [scores.json] share a file. *)
Theorem json_names_collide name1 name2 :
  is_valid_filename name1 = true → is_valid_filename name2 = true →
  (with_json_extension name1 = with_json_extension name2) ↔
    name1 = name2
    ∨ (name2 = name1 +:+ ".json" ∧ extension name1 ≠ ".json")
    ∨ (name1 = name2 +:+ ".json" ∧ extension name2 ≠ ".json").
Proof.
  intros [He1 _ Hs1 _]%valid_plain [He2 _ Hs2 _]%valid_plain.
  pose proof (extension_plain name1 Hs1 He1) as Hx1.
  pose proof (extension_plain name2 Hs2 He2) as Hx2.
  unfold with_json_extension. repeat case_bool_decide; split; try naive_solver.
  intros ->%string_app_inj_r. by left.
Qed.

Section properties.
Context {os : Type} (create_directories : string → os → option string * os).
Implicit Types (o : os).

(** A name is valid exactly when it is neither empty nor [..] and has no
    slash and no backslash: the tests of the path for an absolute path and of
    its parts for [..] come down to that. *)
Theorem valid_filename_iff_plain name :
  is_valid_filename name = true ↔
  name ≠ EmptyString ∧ name ≠ ".." ∧
  no_char "/" name = true ∧ no_char "\" name = true.
Proof. rewrite valid_plain. split; [by intros []|by intros (? & ? & ? & ?)]. Qed.

(** C24. A path that [get_file_path] returns lies directly in the directory it
    has created, whatever the file name: its parts are those of the directory
    followed by one name, neither [.] nor [..], with extension [.json].  When
    the subdirectory is a single name too, that directory is directly in the
    parent. *)
Theorem file_path_is_inside_directory parent subdirectory name path o o' :
  get_file_path_in_subdirectory create_directories parent subdirectory name o = (Returns path, o') →
  ∃ directory leaf,
    create_directories directory o = (None, o') ∧
    path_parts path = (if is_absolute directory then ["/"] else []) ++ names directory ++ [leaf] ∧
    extension path = ".json" ∧ (leaf ∉ ["."; ".."]) ∧ (leaf = name ∨ leaf = name +:+ ".json") ∧
    (plain_name subdirectory →
      names directory = names parent ++ [subdirectory] ∧ is_absolute directory = is_absolute parent).
Proof.
  unfold get_file_path_in_subdirectory. destruct (is_valid_filename name) eqn:Hv; [|done].
  apply valid_plain in Hv. destruct (with_json_plain name Hv) as [Hj Hx].
  set (directory := join parent subdirectory).
  destruct (create_directories directory o) as [[what|] o1] eqn:Hc; intros [= <- <-].
  exists directory, (with_json_extension name).
  destruct (join_parts directory (with_json_extension name)) as (Hn & He & Ha & Hf);
    [apply Hj|apply Hj|].
  split_and!; [done| | | | |].
  - unfold path_parts. rewrite Hn, He, <-Ha. unfold is_absolute. simpl. by rewrite app_nil_r.
  - unfold extension in *. rewrite Hf.
    by rewrite (filename_plain (with_json_extension name)) in Hx by apply Hj.
  - intros Hin. rewrite !elem_of_cons in Hin.
    destruct Hin as [E|[E|[]%elem_of_nil]]; by rewrite E in Hx.
  - unfold with_json_extension. case_bool_decide; auto.
  - intros Hsub. destruct (join_parts parent subdirectory) as (? & _ & ? & _); [apply Hsub..|done].
Qed.

(** The name of the subdirectory is not checked: one that is absolute
    replaces the parent directory, so that the file is created outside it. *)
Theorem absolute_subdirectory_replaces_parent parent1 parent2 subdirectory name o :
  is_absolute subdirectory = true →
  (get_file_path_in_subdirectory create_directories parent1 subdirectory name o).2 =
  (get_file_path_in_subdirectory create_directories parent2 subdirectory name o).2
  ∧ ∀ path, (get_file_path_in_subdirectory create_directories parent1 subdirectory name o).1 = Returns path →
    (get_file_path_in_subdirectory create_directories parent2 subdirectory name o).1 = Returns path
    ∧ path_parts path = "/" :: names subdirectory ++ [with_json_extension name].
Proof.
  intros Ha. unfold get_file_path_in_subdirectory.
  destruct (is_valid_filename name) eqn:Hv; [|done].
  apply valid_plain, with_json_plain in Hv as [Hj _].
  assert (∀ p, join p subdirectory = subdirectory) as Hd by (intros p; unfold join; by rewrite Ha).
  rewrite !Hd. destruct (create_directories subdirectory o) as [[what|] o1]; [done|]. simpl.
  split; [done|]. intros path [= <-]. split; [done|].
  destruct (join_parts subdirectory (with_json_extension name)) as (Hn & He & Ha' & _);
    [apply Hj|apply Hj|].
  unfold path_parts. rewrite Hn, He, Ha in *. unfold is_absolute in Ha'. rewrite Ha'.
  simpl. by rewrite app_nil_r.
Qed.
End properties.

(** ** Witnesses *)

(** A file system in which every directory can be made, and which lists them. *)
Definition make_directory (directory : string) (made : list string) : option string * list string :=
  (None, directory :: made).

Lemma file_path_is_inside_directory_witness :
  ∃ directory leaf,
    make_directory directory [] = (None, ["/srv/boards"]) ∧
    path_parts "/srv/boards/top.json" =
      (if is_absolute directory then ["/"] else []) ++ names directory ++ [leaf] ∧
    extension "/srv/boards/top.json" = ".json" ∧ (leaf ∉ ["."; ".."]) ∧
    (leaf = "top" ∨ leaf = "top" +:+ ".json") ∧
    (plain_name "boards" →
      names directory = names "/srv/" ++ ["boards"] ∧ is_absolute directory = is_absolute "/srv/").
Proof.
  apply (file_path_is_inside_directory make_directory "/srv/" "boards" "top"). reflexivity.
Defined.

Lemma json_names_collide_witness :
  with_json_extension "scores" = with_json_extension "scores.json".
Proof.
  apply (json_names_collide "scores" "scores.json"); [reflexivity..|].
  right. left. split; [reflexivity|]. by vm_compute.
Defined.

Lemma absolute_subdirectory_replaces_parent_witness :
  (get_file_path_in_subdirectory make_directory "/srv" "/etc" "top" []).2 =
  (get_file_path_in_subdirectory make_directory "/tmp" "/etc" "top" []).2
  ∧ ∀ path, (get_file_path_in_subdirectory make_directory "/srv" "/etc" "top" []).1 = Returns path →
    (get_file_path_in_subdirectory make_directory "/tmp" "/etc" "top" []).1 = Returns path
    ∧ path_parts path = "/" :: names "/etc" ++ [with_json_extension "top"].
Proof. apply (absolute_subdirectory_replaces_parent make_directory "/srv" "/tmp" "/etc"). reflexivity. Defined.

(** A dot file has no extension, and [.] is a valid name. *)
Example file_name_samples :
  with_json_extension ".json" = ".json.json" ∧ with_json_extension "." = "..json" ∧
  with_json_extension "a.txt" = "a.txt.json" ∧ is_valid_filename "." = true ∧
  path_parts "//a//../b/" = ["/"; "a"; ".."; "b"; EmptyString].
Proof. by vm_compute. Qed.
