(* ===== verification/Lifecycle.v ===== *)
(** * Starting and stopping a server: [src/network/servers/server_base.hpp]

    [launch], [try_stop] and [stop] of [server_base] and of the two classes
    derived from it, as events of a transition system: the calls of [try_stop]
    (any number, from any thread), the thread that runs [asio_context], and the
    background threads of the derived class, which read the server's queue.
    Both derived classes stop alike (the base class, the queue, then a join of
    every background thread); what their threads do is an interface, [Loop],
    whose instances are in [ServerLife.v]. *)
From S2P Require Import Prelude ThreadSafeQueue.

(** ** Background threads

    [loop_step context_stopped q b] is the next step of a thread in state [b]:
    its new state, the new queue and what it has finished processing; [None]
    while it is blocked or when its function has returned. *)
Class Loop (T : Type) := {
  loop_state : Type;
  loop_start : loop_state;
  loop_ended : loop_state → bool;
  loop_step : bool → queue T → loop_state → option (loop_state * queue T * list T);
  (** Whether that step runs a virtual function that only the most derived
      class defines. *)
  loop_runs_derived : queue T → loop_state → bool;
  (** What the thread has taken from the queue and is working on. *)
  loop_holds : loop_state → list T;
  (** A bound on the steps left once the context is stopped. *)
  loop_weight : loop_state → nat
}.

Class LoopLaws (T : Type) `{Loop T} : Prop := {
  loop_ended_stays cs q b : loop_ended b = true → loop_step cs q b = None;
  loop_conserves cs q b b' q' out :
    loop_step cs q b = Some (b', q', out) →
    loop_holds b ++ dequeue q ≡ₚ out ++ loop_holds b' ++ dequeue q' ∧ stopped q' = stopped q;
  loop_decreases q b b' q' out :
    loop_step true q b = Some (b', q', out) →
    loop_weight b' + 3 * length (dequeue q') < loop_weight b + 3 * length (dequeue q);
  loop_proceeds q b :
    stopped q = true → loop_ended b = false → is_Some (loop_step true q b);
  loop_start_holds : loop_holds loop_start = [];
  loop_start_runs : loop_ended loop_start = false;
  loop_ended_holds b : loop_ended b = true → loop_holds b = []
}.

(** ** The state of a server *)

(** Where a call of [try_stop] is. *)
Inductive stop_point :=
  | AtExchange
  | AtContextStop
  | AtContextJoin
  | AtQueueStop
  | AtLoopJoin (i : nat)
  | StopReturned.

(** [context_thread], and whether it is inside a handler or inside call [n] of
    [try_stop] made by a handler. [NoThread] is not joinable, the others are. *)
Inductive context_state := NoThread | Polling | Handling | HandlerStops (n : nat) | ContextEnded.

(** The thread that makes a call. *)
Inductive call_site := Elsewhere | OnContext | OnLoop (i : nat).

(** Why the program is gone: an assignment to a joinable [std::thread], a
    thread that joins itself (the [std::system_error] leaves the thread's
    function), or a virtual call whose overrider has been destroyed. *)
Inductive crash := AssignedJoinable | JoinedItself | DestroyedOverrider.

#[export] Instance stop_point_eq_dec : EqDecision stop_point.
Proof. solve_decision. Defined.
#[export] Instance context_state_eq_dec : EqDecision context_state.
Proof. solve_decision. Defined.
#[export] Instance call_site_eq_dec : EqDecision call_site.
Proof. solve_decision. Defined.
#[export] Instance crash_eq_dec : EqDecision crash.
Proof. solve_decision. Defined.

Section life.
Context {T : Type} `{QueueSizeTraits T} `{Loop T} (cfg : queue_config).

(** A background thread: joinable (in some state of its function, possibly
    inside call [n] of [try_stop]) or joined. *)
Inductive background_thread :=
  | Joinable (b : loop_state)
  | LoopStops (b : loop_state) (n : nat)
  | Joined.

Record server_life := ServerLife {
  stopping : bool;
  context_stopped : bool;
  context_thread : context_state;
  server_queue : queue T;
  background : list background_thread;
  stop_calls : gmap nat (call_site * stop_point);
  (** The most derived part of the object has not been destroyed. *)
  derived_alive : bool;
  crashed : option crash;
  (** History: the call that won the exchange, and what was put into the queue
      and has been processed. *)
  winner : option nat;
  queued : list T;
  processed : list T
}.
Implicit Types (s : server_life) (n i : nat).

Definition with_call n (v : call_site * stop_point) s : server_life :=
  ServerLife (stopping s) (context_stopped s) (context_thread s) (server_queue s) (background s)
    (<[n := v]> (stop_calls s)) (derived_alive s) (crashed s) (winner s) (queued s) (processed s).

Definition with_context (cs : bool) (ct : context_state) s : server_life :=
  ServerLife (stopping s) cs ct (server_queue s) (background s) (stop_calls s) (derived_alive s)
    (crashed s) (winner s) (queued s) (processed s).

Definition with_queue (q : queue T) (added : list T) s : server_life :=
  ServerLife (stopping s) (context_stopped s) (context_thread s) q (background s) (stop_calls s)
    (derived_alive s) (crashed s) (winner s) (queued s ++ added) (processed s).

Definition with_background (bs : list background_thread) s : server_life :=
  ServerLife (stopping s) (context_stopped s) (context_thread s) (server_queue s) bs (stop_calls s)
    (derived_alive s) (crashed s) (winner s) (queued s) (processed s).

Definition with_processed (out : list T) s : server_life :=
  ServerLife (stopping s) (context_stopped s) (context_thread s) (server_queue s) (background s)
    (stop_calls s) (derived_alive s) (crashed s) (winner s) (queued s) (processed s ++ out).

Definition with_winner n s : server_life :=
  ServerLife true (context_stopped s) (context_thread s) (server_queue s) (background s)
    (stop_calls s) (derived_alive s) (crashed s) (Some n) (queued s) (processed s).

Definition with_destroyed s : server_life :=
  ServerLife (stopping s) (context_stopped s) (context_thread s) (server_queue s) (background s)
    (stop_calls s) false (crashed s) (winner s) (queued s) (processed s).

Definition with_crash (c : crash) s : server_life :=
  ServerLife (stopping s) (context_stopped s) (context_thread s) (server_queue s) (background s)
    (stop_calls s) (derived_alive s) (Some c) (winner s) (queued s) (processed s).

(** A server after its constructors, which start [at_construction] threads. *)
Definition new_server (at_construction : nat) : server_life :=
  ServerLife false false NoThread new_queue (replicate at_construction (Joinable loop_start))
    ∅ true None None [] [].

(** [is_running()]. *)
Definition is_running s : bool := negb (context_stopped s).

(** [launch()]: the context thread, then the [at_launch] threads that the
    derived class starts there in place of those of a former launch. *)
Definition launch (at_launch : nat) s : server_life :=
  match context_thread s with
  | NoThread =>
      let s := with_context (context_stopped s) Polling s in
      if decide (at_launch = 0) then s
      else if forallb (λ b, match b with Joined => true | _ => false end) (background s)
      then with_background (replicate at_launch (Joinable loop_start)) s
      else with_crash AssignedJoinable s
  | _ => with_crash AssignedJoinable s
  end.

(** Call [n] of [try_stop] returns to where it was made. *)
Definition stop_returns n (site : call_site) s : server_life :=
  let s := with_call n (site, StopReturned) s in
  match site with
  | Elsewhere => s
  | OnContext => with_context (context_stopped s) Handling s
  | OnLoop i =>
      match background s !! i with
      | Some (LoopStops b _) => with_background (<[i := Joinable b]> (background s)) s
      | _ => s
      end
  end.

(** The next step of call [n]: [try_stop], then [stop] of the derived class,
    which runs [server_base::stop] first.  [None] while it waits for a thread
    it joins. *)
Definition stop_step n (site : call_site) (at_point : stop_point) s : option server_life :=
  match at_point with
  | AtExchange =>
      if stopping s then Some (stop_returns n site s)
      else Some (with_call n (site, AtContextStop) (with_winner n s))
  | AtContextStop => Some (with_call n (site, AtContextJoin) (with_context true (context_thread s) s))
  | AtContextJoin =>
      match context_thread s with
      | NoThread => Some (with_call n (site, AtQueueStop) s)
      | ContextEnded =>
          Some (with_call n (site, AtQueueStop) (with_context (context_stopped s) NoThread s))
      | HandlerStops m => if decide (m = n) then Some (with_crash JoinedItself s) else None
      | Polling | Handling => None
      end
  | AtQueueStop =>
      Some (with_call n (site, AtLoopJoin 0) (with_queue (ThreadSafeQueue.stop (server_queue s)).1 [] s))
  | AtLoopJoin i =>
      match background s !! i with
      | None => Some (stop_returns n site s)
      | Some Joined => Some (with_call n (site, AtLoopJoin (S i)) s)
      | Some (Joinable b) =>
          if loop_ended b
          then Some (with_call n (site, AtLoopJoin (S i)) (with_background (<[i := Joined]> (background s)) s))
          else None
      | Some (LoopStops _ m) => if decide (m = n) then Some (with_crash JoinedItself s) else None
      end
  | StopReturned => None
  end.

(** ** Events *)
Inductive event :=
  | Launch (at_launch : nat)
  (** The context thread takes up a handler; the handler ends, having put an
      item into the queue or not; [run] returns once the context is stopped. *)
  | Dispatch
  | HandlerEnds (item : option T)
  | ContextReturns
  | LoopStep (i : nat)
  (** Call [n] of [try_stop] is made, and proceeds. *)
  | Call (n : nat) (site : call_site)
  | StopStep (n : nat)
  (** The destructor of the most derived class has run. *)
  | Destroy.

(** What the event leads to; [None] if it cannot happen. *)
Definition step (e : event) s : option server_life :=
  match crashed s, e with
  | Some _, _ => None
  | None, Launch at_launch => Some (launch at_launch s)
  | None, Dispatch =>
      match context_thread s with
      | Polling => if context_stopped s then None else Some (with_context false Handling s)
      | _ => None
      end
  | None, HandlerEnds item =>
      match context_thread s, item with
      | Handling, None => Some (with_context (context_stopped s) Polling s)
      | Handling, Some x =>
          let '(admitted, q, _) := try_push_back cfg x (server_queue s) in
          Some (with_context (context_stopped s) Polling
                  (with_queue q (if admitted then [x] else []) s))
      | _, _ => None
      end
  | None, ContextReturns =>
      match context_thread s with
      | Polling => if context_stopped s then Some (with_context true ContextEnded s) else None
      | _ => None
      end
  | None, LoopStep i =>
      match background s !! i with
      | Some (Joinable b) =>
          if loop_runs_derived (server_queue s) b && negb (derived_alive s)
          then Some (with_crash DestroyedOverrider s)
          else
            '(b', q, out) ← loop_step (context_stopped s) (server_queue s) b;
            Some (with_processed out
                    (with_background (<[i := Joinable b']> (background s)) (with_queue q [] s)))
      | _ => None
      end
  | None, Call n site =>
      match stop_calls s !! n with
      | Some _ => None
      | None =>
          let s' := with_call n (site, AtExchange) s in
          match site with
          | Elsewhere => Some s'
          | OnContext =>
              match context_thread s with
              | Handling => Some (with_context (context_stopped s) (HandlerStops n) s')
              | _ => None
              end
          | OnLoop i =>
              match background s !! i with
              | Some (Joinable b) =>
                  if loop_ended b then None
                  else Some (with_background (<[i := LoopStops b n]> (background s)) s')
              | _ => None
              end
          end
      end
  | None, StopStep n =>
      '(site, at_point) ← stop_calls s !! n; stop_step n site at_point s
  | None, Destroy => Some (with_destroyed s)
  end.

Fixpoint run (es : list event) s : option server_life :=
  match es with
  | [] => Some s
  | e :: es' => s' ← step e s; run es' s'
  end.

(** ** Careful programs

    They launch a server once, before any call of [try_stop], call [try_stop]
    only from other threads, and destroy the server only after the call that
    won the exchange has returned. *)
Definition winner_returned s : bool :=
  match winner s with
  | Some n => match stop_calls s !! n with
              | Some (_, StopReturned) => true
              | _ => false
              end
  | None => false
  end.

Definition careful (e : event) s : bool :=
  match e with
  | Launch at_launch =>
      negb (stopping s) && bool_decide (context_thread s = NoThread)
      && bool_decide (at_launch = 0 ∨ background s = [])
  | Call _ site => bool_decide (site = Elsewhere)
  | Destroy => winner_returned s
  | _ => true
  end.

Definition any_step s s' : Prop := ∃ e, step e s = Some s'.
Definition careful_step s s' : Prop := ∃ e, careful e s = true ∧ step e s = Some s'.

(** The steps that happen by themselves: no further launch, call or
    destruction. *)
Definition settling (e : event) : bool :=
  match e with Launch _ | Call _ _ | Destroy => false | _ => true end.
Definition settle_step s s' : Prop := ∃ e, settling e = true ∧ step e s = Some s'.

(** ** Invariants *)

(** How far the call that won the exchange has come; [n] is the number of
    background threads. *)
Definition rank (n : nat) (at_point : stop_point) : nat :=
  match at_point with
  | AtExchange => 0
  | AtContextStop => 1
  | AtContextJoin => 2
  | AtQueueStop => 3
  | AtLoopJoin i => 4 + i
  | StopReturned => 4 + n
  end.

Definition stage s : nat :=
  match winner s with
  | Some n =>
      match stop_calls s !! n with
      | Some (_, at_point) => rank (length (background s)) at_point
      | None => 0
      end
  | None => 0
  end.

(** What the background threads have taken and not finished. *)
Definition thread_holds (b : background_thread) : list T :=
  match b with Joinable b | LoopStops b _ => loop_holds b | Joined => [] end.
Definition held s : list T := concat (thread_holds <$> background s).

(** The calls of [try_stop]: at most the winner is past the exchange. *)
Record calls_ok s : Prop := CallsOk {
  stopping_is_won : stopping s = bool_decide (is_Some (winner s));
  winner_called n : winner s = Some n →
    ∃ site at_point, stop_calls s !! n = Some (site, at_point) ∧ at_point ≠ AtExchange;
  others_lost n site at_point : stop_calls s !! n = Some (site, at_point) →
    at_point = AtExchange ∨ at_point = StopReturned ∨ winner s = Some n
}.

(** The states of a careful program. *)
Record life_ok s : Prop := LifeOk {
  life_calls : calls_ok s;
  life_runs : crashed s = None;
  calls_elsewhere : map_Forall (λ _ v, v.1 = Elsewhere) (stop_calls s);
  handler_never_stops n : context_thread s ≠ HandlerStops n;
  loop_never_stops i b n : background s !! i ≠ Some (LoopStops b n);
  context_stop_done : context_stopped s = bool_decide (2 ≤ stage s);
  context_joined : 3 ≤ stage s → context_thread s = NoThread;
  context_end_stopped : context_thread s = ContextEnded → context_stopped s = true;
  queue_stop_done : stopped (server_queue s) = bool_decide (4 ≤ stage s);
  loops_joined i b : 4 + i < stage s → background s !! i ≠ Some (Joinable b);
  joined_by_winner i : background s !! i = Some Joined → 4 + i < stage s;
  work_conserved : queued s ≡ₚ processed s ++ held s ++ dequeue (server_queue s);
  destroyed_late : derived_alive s = false → winner_returned s = true
}.
End life.
Arguments background_thread T {_}.
Arguments server_life T {_}.
Arguments event T : clear implicits.

Section life_lemmas.
Context {T : Type} `{QueueSizeTraits T} `{LoopLaws T} (cfg : queue_config).
Implicit Types (s : server_life T) (n i : nat) (e : event T) (q : queue T).

(** ** Calls *)

Lemma stage_call n v s :
  winner s = Some n → stage (with_call n v s) = rank (length (background s)) v.2.
Proof. intros Hw. unfold stage. simpl. rewrite Hw, lookup_insert_eq. by destruct v. Qed.

Lemma stage_other n v s : winner s ≠ Some n → stage (with_call n v s) = stage s.
Proof.
  intros Hw. unfold stage. simpl. destruct (winner s) as [m|]; [|done].
  rewrite lookup_insert_ne by congruence. done.
Qed.

Lemma returned_stage s :
  winner_returned s = true → stage s = 4 + length (background s).
Proof.
  unfold winner_returned, stage. destruct (winner s) as [n|]; [|done].
  by destruct (stop_calls s !! n) as [[site []]|].
Qed.

(** A call is made. *)
Lemma calls_ok_call n site s :
  calls_ok s → stop_calls s !! n = None → calls_ok (with_call n (site, AtExchange) s).
Proof.
  intros [Hs Hw Ho] Hn. split; simpl; [done| |].
  - intros m Hm. destruct (Hw m Hm) as (site' & p & Hp & Hne).
    exists site', p. by rewrite lookup_insert_ne by congruence.
  - intros m site' p. destruct (decide (n = m)) as [<-|Hne].
    + rewrite lookup_insert_eq. intros [= <- <-]. by left.
    + rewrite lookup_insert_ne by done. apply Ho.
Qed.

(** A call that lost the exchange returns. *)
Lemma calls_ok_lost n site site' s :
  calls_ok s → stop_calls s !! n = Some (site, AtExchange) →
  calls_ok (with_call n (site', StopReturned) s) ∧ winner s ≠ Some n.
Proof.
  intros [Hs Hw Ho] Hn. assert (winner s ≠ Some n) as Hne.
  { intros (site1 & p & Hp & Hx)%Hw. by simplify_eq. }
  split; [|done]. split; simpl; [done| |].
  - intros m Hm. destruct (Hw m Hm) as (site1 & p & Hp & Hx). exists site1, p.
    by rewrite lookup_insert_ne by congruence.
  - intros m site1 p. destruct (decide (n = m)) as [<-|Hnm].
    + rewrite lookup_insert_eq. intros [= <- <-]. by right; left.
    + rewrite lookup_insert_ne by done. apply Ho.
Qed.

(** A call wins the exchange. *)
Lemma calls_ok_won n site s :
  calls_ok s → stopping s = false → stop_calls s !! n = Some (site, AtExchange) →
  calls_ok (with_call n (site, AtContextStop) (with_winner n s)) ∧ winner s = None.
Proof.
  intros [Hs Hw Ho] Hst Hn. assert (winner s = None) as Hnone.
  { rewrite Hst in Hs. symmetry in Hs. apply bool_decide_eq_false in Hs.
    by destruct (winner s); [destruct Hs|]. }
  split; [|done]. split; simpl; [done| |].
  - intros m [= <-]. exists site, AtContextStop. by rewrite lookup_insert_eq.
  - intros m site1 p. destruct (decide (n = m)) as [<-|Hnm]; [by right; right|].
    rewrite lookup_insert_ne by done. intros Hp. destruct (Ho m site1 p Hp) as [|[|Hm]]; [by left|by right; left|].
    by rewrite Hnone in Hm.
Qed.

(** The winner proceeds. *)
Lemma calls_ok_proceeds n site site' p p' s :
  calls_ok s → stop_calls s !! n = Some (site, p) → p ≠ AtExchange → p ≠ StopReturned →
  p' ≠ AtExchange → calls_ok (with_call n (site', p') s) ∧ winner s = Some n.
Proof.
  intros [Hs Hw Ho] Hn Hp1 Hp2 Hp'. assert (winner s = Some n) as Hwin.
  { by destruct (Ho n site p Hn) as [|[|]]. }
  split; [|done]. split; simpl; [done| |].
  - intros m Hm. rewrite Hwin in Hm. simplify_eq. exists site', p'. by rewrite lookup_insert_eq.
  - intros m site1 p1. destruct (decide (n = m)) as [<-|Hnm]; [by right; right|].
    rewrite lookup_insert_ne by done. apply Ho.
Qed.

(** Only the calls, the winner and the flag matter. *)
Lemma calls_ok_congr s s' :
  stopping s' = stopping s → winner s' = winner s → stop_calls s' = stop_calls s →
  calls_ok s → calls_ok s'.
Proof. intros Es Ew Ec [Hs Hw Ho]. split; rewrite ?Es, ?Ew, ?Ec; done. Qed.

Lemma calls_ok_step e s s' : step cfg e s = Some s' → calls_ok s → calls_ok s'.
Proof.
  intros Hstep Hok. unfold step in Hstep. destruct (crashed s); [done|]. destruct e as [k| |o| |i|n site|n|].
  - simplify_eq. eapply calls_ok_congr; [..|exact Hok]; unfold launch; by repeat case_match.
  - repeat case_match; simplify_eq; by eapply calls_ok_congr; [..|exact Hok].
  - repeat case_match; simplify_eq; by eapply calls_ok_congr; [..|exact Hok].
  - repeat case_match; simplify_eq; by eapply calls_ok_congr; [..|exact Hok].
  - repeat case_match; simplify_option_eq; repeat case_match; simplify_eq;
      by eapply calls_ok_congr; [..|exact Hok].
  - destruct (stop_calls s !! n) eqn:En; [done|].
    assert (calls_ok (with_call n (site, AtExchange) s)) as Hc by by apply calls_ok_call.
    repeat case_match; simplify_eq; by eapply calls_ok_congr; [..|exact Hc].
  - destruct (stop_calls s !! n) as [[site p]|] eqn:En; [|done]. simpl in Hstep.
    destruct p as [| | | |i|]; simpl in Hstep.
    + destruct (stopping s) eqn:Es; simplify_eq; [|by apply calls_ok_won].
      destruct (calls_ok_lost n site site s Hok En) as [Hc _].
      unfold stop_returns. repeat case_match; by eapply calls_ok_congr; [..|exact Hc].
    + simplify_eq. destruct (calls_ok_proceeds n site site AtContextStop AtContextJoin s) as [Hc _]; try done.
      by eapply calls_ok_congr; [..|exact Hc].
    + destruct (calls_ok_proceeds n site site AtContextJoin AtQueueStop s) as [Hc _]; try done.
      repeat case_match; simplify_eq; (by eapply calls_ok_congr; [..|exact Hc]) || by eapply calls_ok_congr; [..|exact Hok].
    + simplify_eq. destruct (calls_ok_proceeds n site site AtQueueStop (AtLoopJoin 0) s) as [Hc _]; try done.
      by eapply calls_ok_congr; [..|exact Hc].
    + destruct (calls_ok_proceeds n site site (AtLoopJoin i) (AtLoopJoin (S i)) s) as [Hc _]; try done.
      destruct (calls_ok_proceeds n site site (AtLoopJoin i) StopReturned s) as [Hr _]; try done.
      repeat case_match; simplify_eq; unfold stop_returns; repeat case_match;
        first [by eapply calls_ok_congr; [..|exact Hc]|by eapply calls_ok_congr; [..|exact Hr]
              |by eapply calls_ok_congr; [..|exact Hok]].
    + done.
  - simplify_eq. by eapply calls_ok_congr; [..|exact Hok].
Qed.

(** ** A careful program *)

Lemma life_ok_context ct s :
  life_ok s → (3 ≤ stage s → ct = NoThread) → (∀ n, ct ≠ HandlerStops n) →
  (ct = ContextEnded → context_stopped s = true) →
  life_ok (with_context (context_stopped s) ct s).
Proof. intros [Hc Hr He Hn Hl Hs Hj Hce Hq Hlj Hjw Hw Hd] Ha Hb Hx. split; try done. by eapply calls_ok_congr; [..|exact Hc]. Qed.

(** Work on the queue, by a handler or by a background thread. *)
Lemma life_ok_work bs q added out ct s :
  life_ok s → length bs = length (background s) → stopped q = stopped (server_queue s) →
  (∀ i b n, bs !! i ≠ Some (LoopStops b n)) →
  (∀ i b, bs !! i = Some (Joinable b) → ∃ b0, background s !! i = Some (Joinable b0)) →
  (∀ i, bs !! i = Some Joined → background s !! i = Some Joined) →
  (3 ≤ stage s → ct = NoThread) → (∀ n, ct ≠ HandlerStops n) →
  (ct = ContextEnded → context_stopped s = true) →
  queued s ++ added ≡ₚ (processed s ++ out) ++ concat (thread_holds <$> bs) ++ dequeue q →
  life_ok (ServerLife (stopping s) (context_stopped s) ct q bs (stop_calls s) (derived_alive s)
    (crashed s) (winner s) (queued s ++ added) (processed s ++ out)).
Proof.
  intros [Hc Hr He Hn Hl Hs Hj Hce Hq Hlj Hjw Hw Hd] Hlen Hst Hls Hjo Hjd Ha Hb Hx Hwork.
  assert (∀ s', winner s' = winner s → stop_calls s' = stop_calls s →
    length (background s') = length (background s) → stage s' = stage s) as Hstage.
  { intros s' Ew Ec El. unfold stage. by rewrite Ew, Ec, El. }
  split; simpl; try done; rewrite ?Hstage by done; try done.
  - by eapply calls_ok_congr; [..|exact Hc].
  - congruence.
  - intros i b Hi Hib. destruct (Hjo i b Hib) as [b0 Hb0]. by apply (Hlj i b0).
  - intros i Hib. by apply Hjw, Hjd.
Qed.

(** A call that is past the exchange and has not returned is the winner. *)
Lemma winner_moves n site p s :
  life_ok s → stop_calls s !! n = Some (site, p) → p ≠ AtExchange → p ≠ StopReturned →
  winner s = Some n ∧ stage s = rank (length (background s)) p ∧ site = Elsewhere ∧
  winner_returned s = false.
Proof.
  intros Hok Hn Hp1 Hp2. destruct (calls_ok_proceeds n site site p p s) as [_ Hw]; try done; [apply Hok|].
  split_and!; [done| | |].
  - unfold stage. by rewrite Hw, Hn.
  - by apply (calls_elsewhere _ Hok n _ Hn).
  - unfold winner_returned. rewrite Hw, Hn. by destruct p.
Qed.

Lemma sites_insert n p s :
  life_ok s → map_Forall (λ (_ : nat) (v : call_site * stop_point), v.1 = Elsewhere)
    (stop_calls (with_call n (Elsewhere, p) s)).
Proof. intros Hok. apply map_Forall_insert_2; [done|apply Hok]. Qed.

Lemma concat_fresh m : concat (thread_holds <$> replicate m (Joinable loop_start)) = [].
Proof.
  induction m as [|m IH]; [done|]. rewrite replicate_S, fmap_cons. cbn [thread_holds concat].
  by rewrite loop_start_holds, IH.
Qed.

Lemma life_ok_launch k s : life_ok s → careful (Launch k) s = true → life_ok (launch k s).
Proof.
  intros Hok [[Hst Hct%bool_decide_eq_true]%andb_true_iff Hk%bool_decide_eq_true]%andb_true_iff.
  destruct Hok as [Hc Hr He Hn Hl Hs Hj Hce Hq Hlj Hjw Hw Hd]. apply negb_true_iff in Hst.
  assert (stage s = 0) as Hs0.
  { rewrite (stopping_is_won _ Hc) in Hst. apply bool_decide_eq_false in Hst.
    unfold stage. destruct (winner s); [by destruct Hst|done]. }
  unfold launch. rewrite Hct. destruct (decide (k = 0)) as [->|Hne].
  - apply life_ok_context; [by split|rewrite Hs0; lia|done|done].
  - destruct Hk as [|Hb]; [done|].
    change (background (with_context (context_stopped s) Polling s)) with (background s).
    rewrite Hb. cbn [forallb].
    assert (∀ bs, stage (with_background bs (with_context (context_stopped s) Polling s)) = 0) as Hstage.
    { intros bs. unfold stage in *. simpl. destruct (winner s) as [n|]; [|done].
      destruct (stop_calls s !! n) as [[site []]|] eqn:E; simpl in *; try done; lia. }
    split; try done; rewrite ?Hstage, ?Hs0 in *; simpl; try done; try lia.
    + by eapply calls_ok_congr; [..|exact Hc].
    + intros i b n. by intros [? _]%lookup_replicate.
    + intros i. by intros [? _]%lookup_replicate.
    + rewrite Hw. unfold held. cbn [background with_background]. by rewrite Hb, concat_fresh.
Qed.

Lemma concat_holds_insert i b b' s :
  background s !! i = Some (Joinable b) →
  ∃ l, concat (thread_holds <$> background s) ≡ₚ loop_holds b ++ l ∧
    concat (thread_holds <$> <[i := b']> (background s)) ≡ₚ thread_holds b' ++ l.
Proof.
  intros Hi. pose proof (take_drop_middle _ _ _ Hi) as Hsplit.
  exists (concat (thread_holds <$> take i (background s)) ++
          concat (thread_holds <$> drop (S i) (background s))). split.
  - rewrite <-Hsplit at 1. rewrite fmap_app, concat_app, fmap_cons.
    apply Permutation_app_swap_app.
  - rewrite insert_take_drop by by eapply lookup_lt_Some.
    rewrite fmap_app, concat_app, fmap_cons. apply Permutation_app_swap_app.
Qed.

Lemma life_ok_loop_step i b b' q out s :
  life_ok s → background s !! i = Some (Joinable b) →
  loop_step (context_stopped s) (server_queue s) b = Some (b', q, out) →
  life_ok (with_processed out
    (with_background (<[i := Joinable b']> (background s)) (with_queue q [] s))).
Proof.
  intros Hok Hi Hstep. destruct (loop_conserves _ _ _ _ _ _ Hstep) as [Hperm Hst].
  assert (i < length (background s)) as Hlt by by eapply lookup_lt_Some.
  apply (life_ok_work (<[i := Joinable b']> (background s)) q [] out (context_thread s) s);
    rewrite ?length_insert; try apply Hok; try done.
  - intros j b1 n. destruct (decide (i = j)) as [<-|Hne].
    + by rewrite list_lookup_insert_eq.
    + rewrite list_lookup_insert_ne by done. apply Hok.
  - intros j b1. destruct (decide (i = j)) as [<-|Hne]; [by eexists|].
    rewrite list_lookup_insert_ne by done. by eexists.
  - intros j. destruct (decide (i = j)) as [<-|Hne]; [by rewrite list_lookup_insert_eq|].
    by rewrite list_lookup_insert_ne.
  - rewrite app_nil_r, (work_conserved _ Hok). unfold held.
    destruct (concat_holds_insert i b (Joinable b') s Hi) as (l & -> & ->). cbn [thread_holds].
    rewrite <-!(assoc_L (++)). f_equiv. rewrite (Permutation_app_swap_app (loop_holds b) l).
    rewrite Hperm, (Permutation_app_swap_app l out). f_equiv. apply Permutation_app_swap_app.
Qed.

Lemma life_ok_handler_ends item s s' :
  life_ok s → step cfg (HandlerEnds item) s = Some s' → life_ok s'.
Proof.
  intros Hok Hstep. unfold step in Hstep. rewrite (life_runs _ Hok) in Hstep.
  destruct (context_thread s) eqn:Ect; [done..| |done|by destruct item].
  assert (¬ 3 ≤ stage s) as Hstage by (intros ?%(context_joined _ Hok); congruence).
  destruct item as [x|]; simplify_eq; [|by apply life_ok_context].
  destruct (try_push_back cfg x (server_queue s)) as [[admitted q] sig] eqn:Epush. simplify_eq.
  assert (stopped q = stopped (server_queue s) ∧
    dequeue q = dequeue (server_queue s) ++ if admitted then [x] else []) as [Hst Hdq].
  { revert Epush. unfold try_push_back, pre_addition_check_protocol.
    repeat case_match; intros Epush; simplify_eq; simpl; by rewrite ?app_nil_r. }
  pose proof (life_ok_work (background s) q (if admitted then [x] else []) [] Polling s Hok) as Hw.
  rewrite app_nil_r in Hw. apply Hw; try done; try apply Hok; [by eexists|].
  rewrite (work_conserved _ Hok), Hdq. unfold held. by rewrite !(assoc_L (++)).
Qed.

(** A call that is not the winner changes nothing else. *)
Lemma life_ok_other n p s :
  life_ok s → winner s ≠ Some n → calls_ok (with_call n (Elsewhere, p) s) →
  life_ok (with_call n (Elsewhere, p) s).
Proof.
  intros Hok Hne Hcalls. pose proof (stage_other n (Elsewhere, p) s Hne) as Hstage.
  pose proof (sites_insert n p s Hok) as Hsites.
  destruct Hok as [Hc Hr He Hn Hl Hs Hj Hce Hq Hlj Hjw Hw Hd].
  split; rewrite ?Hstage; try done.
  intros Hda. specialize (Hd Hda). unfold winner_returned in *. cbn.
  destruct (winner s); [|done]. rewrite lookup_insert_ne by congruence. done.
Qed.

Lemma life_ok_wins n s :
  life_ok s → stopping s = false → stop_calls s !! n = Some (Elsewhere, AtExchange) →
  life_ok (with_call n (Elsewhere, AtContextStop) (with_winner n s)).
Proof.
  intros Hok Hst Hn. destruct (calls_ok_won n Elsewhere s) as [Hcalls Hnone]; try done; [apply Hok|].
  pose proof (stage_call n (Elsewhere, AtContextStop) (with_winner n s) eq_refl) as Hstage.
  pose proof (sites_insert n AtContextStop s Hok) as Hsites.
  assert (stage s = 0) as Hs0 by (unfold stage; by rewrite Hnone).
  destruct Hok as [Hc Hr He Hh Hl Hs Hj Hce Hq Hlj Hjw Hw Hd].
  rewrite Hs0 in *. split; rewrite ?Hstage; cbn [rank snd] in *; try done; try lia.
  - intros i Hi. cbn in Hi. apply Hjw in Hi. lia.
  - intros Hda. specialize (Hd Hda). unfold winner_returned in Hd. by rewrite Hnone in Hd.
Qed.

(** The winner stops the context, finds the context thread ended, stops the
    queue, and joins the background threads one by one. *)
Lemma life_ok_context_stop n s :
  life_ok s → stop_calls s !! n = Some (Elsewhere, AtContextStop) →
  life_ok (with_call n (Elsewhere, AtContextJoin) (with_context true (context_thread s) s)).
Proof.
  intros Hok Hn. destruct (winner_moves n Elsewhere AtContextStop s) as (Hwin & Hst & _ & Hret); try done.
  pose proof (stage_call n (Elsewhere, AtContextJoin) (with_context true (context_thread s) s) Hwin) as Hstage.
  destruct (calls_ok_proceeds n Elsewhere Elsewhere AtContextStop AtContextJoin s) as [Hcalls _];
    try done; [apply Hok|].
  pose proof (sites_insert n AtContextJoin s Hok) as Hsites.
  destruct Hok as [Hc Hr He Hh Hl Hs Hj Hce Hq Hlj Hjw Hw Hd]. cbn [rank] in Hst.
  rewrite Hst in *. split; rewrite ?Hstage; cbn [rank snd] in *; try done; try lia.
  - by eapply calls_ok_congr; [..|exact Hcalls].
  - intros i Hi. cbn in Hi. apply Hjw in Hi. lia.
  - intros Hda. specialize (Hd Hda). congruence.
Qed.

Lemma life_ok_context_join n s :
  life_ok s → stop_calls s !! n = Some (Elsewhere, AtContextJoin) →
  life_ok (with_call n (Elsewhere, AtQueueStop) (with_context (context_stopped s) NoThread s)).
Proof.
  intros Hok Hn. destruct (winner_moves n Elsewhere AtContextJoin s) as (Hwin & Hst & _ & Hret); try done.
  pose proof (stage_call n (Elsewhere, AtQueueStop) (with_context (context_stopped s) NoThread s) Hwin) as Hstage.
  destruct (calls_ok_proceeds n Elsewhere Elsewhere AtContextJoin AtQueueStop s) as [Hcalls _];
    try done; [apply Hok|].
  pose proof (sites_insert n AtQueueStop s Hok) as Hsites.
  destruct Hok as [Hc Hr He Hh Hl Hs Hj Hce Hq Hlj Hjw Hw Hd]. cbn [rank] in Hst.
  rewrite Hst in *. split; rewrite ?Hstage; cbn [rank snd] in *; try done; try lia.
  - by eapply calls_ok_congr; [..|exact Hcalls].
  - intros i Hi. cbn in Hi. apply Hjw in Hi. lia.
  - intros Hda. specialize (Hd Hda). congruence.
Qed.

Lemma life_ok_queue_stop n s :
  life_ok s → stop_calls s !! n = Some (Elsewhere, AtQueueStop) →
  life_ok (with_call n (Elsewhere, AtLoopJoin 0)
    (with_queue (ThreadSafeQueue.stop (server_queue s)).1 [] s)).
Proof.
  intros Hok Hn. destruct (winner_moves n Elsewhere AtQueueStop s) as (Hwin & Hst & _ & Hret); try done.
  set (q := (ThreadSafeQueue.stop (server_queue s)).1).
  pose proof (stage_call n (Elsewhere, AtLoopJoin 0) (with_queue q [] s) Hwin) as Hstage.
  destruct (calls_ok_proceeds n Elsewhere Elsewhere AtQueueStop (AtLoopJoin 0) s) as [Hcalls _];
    try done; [apply Hok|].
  pose proof (sites_insert n (AtLoopJoin 0) s Hok) as Hsites.
  assert (stopped q = true ∧ dequeue q = dequeue (server_queue s)) as [Hqs Hqd].
  { unfold q, ThreadSafeQueue.stop. by destruct (stopped (server_queue s)) eqn:E. }
  destruct Hok as [Hc Hr He Hh Hl Hs Hj Hce Hq Hlj Hjw Hw Hd]. cbn [rank] in Hst.
  rewrite Hst in *. split; rewrite ?Hstage; cbn [rank snd] in *; try done; try lia.
  - by eapply calls_ok_congr; [..|exact Hcalls].
  - intros _. apply Hj. lia.
  - intros i Hi. cbn in Hi. apply Hjw in Hi. lia.
  - cbn. rewrite app_nil_r, Hw, Hqd. done.
  - intros Hda. specialize (Hd Hda). congruence.
Qed.

Lemma life_ok_loop_join n i s bs :
  life_ok s → stop_calls s !! n = Some (Elsewhere, AtLoopJoin i) →
  (bs = background s ∧ background s !! i = Some Joined)
  ∨ (∃ b, background s !! i = Some (Joinable b) ∧ loop_ended b = true
       ∧ bs = <[i := Joined]> (background s)) →
  life_ok (with_call n (Elsewhere, AtLoopJoin (S i)) (with_background bs s)).
Proof.
  intros Hok Hn Hbs. destruct (winner_moves n Elsewhere (AtLoopJoin i) s) as (Hwin & Hst & _ & Hret); try done.
  pose proof (stage_call n (Elsewhere, AtLoopJoin (S i)) (with_background bs s) Hwin) as Hstage.
  destruct (calls_ok_proceeds n Elsewhere Elsewhere (AtLoopJoin i) (AtLoopJoin (S i)) s) as [Hcalls _];
    try done; [apply Hok|].
  pose proof (sites_insert n (AtLoopJoin (S i)) s Hok) as Hsites.
  assert (bs !! i = Some Joined ∧ (∀ j, j ≠ i → bs !! j = background s !! j)) as [Hi Hother].
  { destruct Hbs as [[-> Hi]|(b & Hi & _ & ->)]; [done|].
    split; [apply list_lookup_insert_eq; by eapply lookup_lt_Some|].
    intros j Hj. by apply list_lookup_insert_ne. }
  assert (concat (thread_holds <$> bs) ≡ₚ concat (thread_holds <$> background s)) as Hheld.
  { destruct Hbs as [[-> _]|(b & Hb & He & ->)]; [done|].
    destruct (concat_holds_insert i b Joined s Hb) as (l & -> & ->). by rewrite loop_ended_holds. }
  destruct Hok as [Hc Hr He Hh Hl Hs Hj Hce Hq Hlj Hjw Hw Hd]. cbn [rank] in Hst.
  rewrite Hst in *. split; rewrite ?Hstage; cbn [rank snd] in *; try done; try lia.
  - by eapply calls_ok_congr; [..|exact Hcalls].
  - intros j b m Hb. cbn in Hb. destruct (decide (j = i)) as [->|Hne]; [by simplify_eq|].
    rewrite Hother in Hb by done. by eapply Hl.
  - intros _. apply Hj. lia.
  - intros j b Hjlt Hb. cbn in Hb. destruct (decide (j = i)) as [->|Hne]; [by simplify_eq|].
    rewrite Hother in Hb by done. by apply (Hlj j b); [lia|].
  - intros j Hb. cbn in Hb. destruct (decide (j = i)) as [->|Hne]; [lia|].
    rewrite Hother in Hb by done. apply Hjw in Hb. lia.
  - cbn. rewrite Hw. unfold held. cbn. by rewrite Hheld.
  - intros Hda. specialize (Hd Hda). congruence.
Qed.

Lemma life_ok_returns n i s :
  life_ok s → stop_calls s !! n = Some (Elsewhere, AtLoopJoin i) → background s !! i = None →
  life_ok (with_call n (Elsewhere, StopReturned) s).
Proof.
  intros Hok Hn Hi. destruct (winner_moves n Elsewhere (AtLoopJoin i) s) as (Hwin & Hst & _ & Hret); try done.
  pose proof (stage_call n (Elsewhere, StopReturned) s Hwin) as Hstage.
  destruct (calls_ok_proceeds n Elsewhere Elsewhere (AtLoopJoin i) StopReturned s) as [Hcalls _];
    try done; [apply Hok|].
  pose proof (sites_insert n StopReturned s Hok) as Hsites. apply lookup_ge_None in Hi.
  destruct Hok as [Hc Hr He Hh Hl Hs Hj Hce Hq Hlj Hjw Hw Hd]. cbn [rank] in Hst.
  rewrite Hst in *. split; rewrite ?Hstage; cbn [rank snd] in *; try done; try lia.
  - intros _. apply Hj. lia.
  - intros j b Hjlt Hb. apply (Hlj j b); [|done]. apply lookup_lt_Some in Hb. cbn in *. lia.
  - intros j Hb. cbn in *. apply lookup_lt_Some in Hb. lia.
  - intros Hda. specialize (Hd Hda). congruence.
Qed.

Lemma life_ok_stop_step n p s s' :
  life_ok s → stop_calls s !! n = Some (Elsewhere, p) → stop_step n Elsewhere p s = Some s' →
  life_ok s'.
Proof.
  intros Hok Hn Hstep. destruct p as [| | | |i|]; simpl in Hstep.
  - destruct (stopping s) eqn:Es; simplify_eq; [|by apply life_ok_wins].
    destruct (calls_ok_lost n Elsewhere Elsewhere s) as [Hc Hne]; [apply Hok|done|].
    by apply life_ok_other.
  - simplify_eq. by apply life_ok_context_stop.
  - destruct (context_thread s) eqn:Ect; simplify_eq.
    + pose proof (life_ok_context_join n s Hok Hn) as Hj.
      unfold with_context in Hj. rewrite <-Ect in Hj. by destruct s.
    + by destruct (handler_never_stops _ Hok n0).
    + by apply life_ok_context_join.
  - simplify_eq. by apply life_ok_queue_stop.
  - destruct (background s !! i) as [[b|b m|]|] eqn:Eb; simplify_eq.
    + destruct (loop_ended b) eqn:Ee; simplify_eq.
      apply life_ok_loop_join; [done..|right; by exists b].
    + by destruct (loop_never_stops _ Hok i b m).
    + pose proof (life_ok_loop_join n i s (background s) Hok Hn (or_introl (conj eq_refl Eb))) as Hj.
      by destruct s.
    + by apply (life_ok_returns n i).
  - done.
Qed.

Lemma life_ok_step e s s' :
  careful e s = true → step cfg e s = Some s' → life_ok s → life_ok s'.
Proof.
  intros Hcare Hstep Hok. pose proof Hstep as Hall.
  unfold step in Hstep. rewrite (life_runs _ Hok) in Hstep. destruct e as [k| |o| |i|n site|n|].
  - simplify_eq. by apply life_ok_launch.
  - destruct (context_thread s) eqn:Ect; try done. destruct (context_stopped s) eqn:Ecs; simplify_eq.
    rewrite <-Ecs. apply life_ok_context; [done| |done|done].
    intros Hst%(context_joined _ Hok). congruence.
  - by apply (life_ok_handler_ends o s).
  - destruct (context_thread s) eqn:Ect; try done. destruct (context_stopped s) eqn:Ecs; simplify_eq.
    rewrite <-Ecs. apply life_ok_context; [done| |done|done].
    intros Hst%(context_joined _ Hok). congruence.
  - destruct (background s !! i) as [[b|b m|]|] eqn:Eb; try done.
    destruct (loop_runs_derived (server_queue s) b && negb (derived_alive s)) eqn:Ed.
    + apply andb_true_iff in Ed as [_ Ed%negb_true_iff].
      apply (destroyed_late _ Hok), returned_stage in Ed.
      destruct (loops_joined _ Hok i b); [|done]. apply lookup_lt_Some in Eb. lia.
    + destruct (loop_step _ _ _) as [[[b' q] out]|] eqn:El; simplify_eq/=.
      by apply (life_ok_loop_step i b).
  - apply bool_decide_eq_true in Hcare as ->. destruct (stop_calls s !! n) eqn:En; simplify_eq.
    apply life_ok_other; [done| |apply calls_ok_call; [apply Hok|done]].
    intros (site & p & Hp & _)%(winner_called _ (life_calls _ Hok)). congruence.
  - destruct (stop_calls s !! n) as [[site p]|] eqn:En; [|done]. simpl in Hstep.
    pose proof (calls_elsewhere _ Hok n _ En) as Hsite. simpl in Hsite. subst site.
    by apply (life_ok_stop_step n p s).
  - simplify_eq. destruct Hok as [Hc Hr He Hh Hl Hs Hj Hce Hq Hlj Hjw Hw Hd]. split; try done.
    by eapply calls_ok_congr; [..|exact Hc].
Qed.

Lemma life_ok_initial k : life_ok (new_server (T := T) k).
Proof.
  split; try done; simpl.
  - intros i b n. by intros [? _]%lookup_replicate.
  - intros i b Hi. unfold stage in Hi. simpl in Hi. lia.
  - intros i. by intros [? _]%lookup_replicate.
  - unfold held. simpl. by rewrite concat_fresh.
Qed.

Lemma life_ok_reachable k s : rtc (careful_step cfg) (new_server k) s → life_ok s.
Proof.
  intros Hrun. apply (rtc_invariant (careful_step cfg) life_ok) with (new_server k);
    [|done|apply life_ok_initial].
  intros s1 s2 Hok (e & Hcare & Hstep). by apply (life_ok_step e s1).
Qed.

(** ** Termination *)

Definition call_weight (threads : nat) (v : call_site * stop_point) : nat :=
  match v.2 with
  | AtExchange => 5 + threads
  | AtContextStop => 4 + threads
  | AtContextJoin => 3 + threads
  | AtQueueStop => 2 + threads
  | AtLoopJoin i => 1 + (threads - i)
  | StopReturned => 0
  end.

Definition calls_weight (threads : nat) (m : gmap nat (call_site * stop_point)) : nat :=
  map_weight (call_weight threads) m.

Definition context_weight (c : context_state) : nat :=
  match c with NoThread | ContextEnded => 0 | Polling => 1 | Handling | HandlerStops _ => 5 end.

Definition thread_weight (b : background_thread T) : nat :=
  match b with Joinable b | LoopStops b _ => loop_weight b | Joined => 0 end.

Definition life_weight s : nat :=
  calls_weight (length (background s)) (stop_calls s) + context_weight (context_thread s)
  + sum_list (thread_weight <$> background s) + 3 * length (dequeue (server_queue s)).

Lemma calls_weight_insert k m n v v' :
  m !! n = Some v → calls_weight k (<[n := v']> m) + call_weight k v = call_weight k v' + calls_weight k m.
Proof. apply map_weight_insert. Qed.

Lemma threads_weight_insert i x y (bs : list (background_thread T)) :
  bs !! i = Some x →
  sum_list (thread_weight <$> <[i := y]> bs) + thread_weight x
    = thread_weight y + sum_list (thread_weight <$> bs).
Proof. apply sum_list_insert. Qed.

(** A call that proceeds comes nearer to its return. *)
Lemma stop_step_decreases n p s s' :
  life_ok s → stop_calls s !! n = Some (Elsewhere, p) → stop_step n Elsewhere p s = Some s' →
  context_stopped s = true → life_weight s' < life_weight s ∧ context_stopped s' = true.
Proof.
  intros Hok En Hstep Hcs.
  assert (∀ p', call_weight (length (background s)) (Elsewhere, p')
    < call_weight (length (background s)) (Elsewhere, p) →
    calls_weight (length (background s)) (<[n := (Elsewhere, p')]> (stop_calls s))
      < calls_weight (length (background s)) (stop_calls s)) as Hless.
  { intros p' Hp'. pose proof (calls_weight_insert (length (background s)) _ _ _ (Elsewhere, p') En). lia. }
  unfold life_weight. destruct p as [| | | |i|]; simpl in Hstep.
  - specialize (Hless (if stopping s then StopReturned else AtContextStop)).
    destruct (stopping s); simplify_eq; cbn in *; (split; [lia|done]).
  - simplify_eq. specialize (Hless AtContextJoin). cbn in *. split; [lia|done].
  - specialize (Hless AtQueueStop). destruct (context_thread s) eqn:Ect; simplify_eq; cbn in *.
    + rewrite Ect. cbn. split; [lia|done].
    + by destruct (handler_never_stops _ Hok n0).
    + split; [lia|done].
  - simplify_eq. specialize (Hless (AtLoopJoin 0)). cbn in *. split; [|done].
    assert (dequeue (ThreadSafeQueue.stop (server_queue s)).1 = dequeue (server_queue s)) as ->;
      [|lia]. unfold ThreadSafeQueue.stop. by destruct (stopped (server_queue s)).
  - destruct (background s !! i) as [[b|b m|]|] eqn:Eb; simplify_eq.
    2: by destruct (loop_never_stops _ Hok i b m).
    1, 2: assert (i < length (background s)) by (by eapply lookup_lt_Some);
      specialize (Hless (AtLoopJoin (S i))).
    + destruct (loop_ended b); simplify_eq. cbn in *. rewrite length_insert.
      pose proof (threads_weight_insert i _ Joined _ Eb) as Hw. cbn in Hw. split; [lia|done].
    + cbn in *. split; [lia|done].
    + specialize (Hless StopReturned). cbn in *. split; [lia|done].
  - done.
Qed.

(** A careful program does not destroy what a background thread runs in. *)
Lemma no_destroyed_overrider i b s :
  life_ok s → background s !! i = Some (Joinable b) →
  loop_runs_derived (server_queue s) b && negb (derived_alive s) = false.
Proof.
  intros Hok Eb. apply not_true_iff_false. intros [_ Ed%negb_true_iff]%andb_true_iff.
  apply (destroyed_late _ Hok), returned_stage in Ed.
  destruct (loops_joined _ Hok i b); [|done]. apply lookup_lt_Some in Eb. lia.
Qed.

(** Once the context is stopped, every step brings the server nearer to rest. *)
Lemma settle_decreases e s s' :
  life_ok s → context_stopped s = true → settling e = true → step cfg e s = Some s' →
  life_weight s' < life_weight s ∧ context_stopped s' = true.
Proof.
  intros Hok Hcs Hset Hstep. unfold step in Hstep. rewrite (life_runs _ Hok) in Hstep.
  destruct e as [k| |o| |i|n site|n|]; try done.
  - by rewrite Hcs in Hstep; repeat case_match.
  - destruct (context_thread s) eqn:Ect; [done..| |done|by destruct o].
    unfold life_weight. rewrite Ect. destruct o as [x|]; simplify_eq; [|cbn; split; [lia|done]].
    unfold try_push_back, pre_addition_check_protocol in Hstep.
    repeat case_match; simplify_eq; cbn; rewrite ?length_app; cbn; split; try done; lia.
  - rewrite Hcs in Hstep. destruct (context_thread s) eqn:Ect; simplify_eq.
    unfold life_weight. rewrite Ect. cbn. split; [lia|done].
  - destruct (background s !! i) as [[b|b m|]|] eqn:Eb; try done.
    rewrite (no_destroyed_overrider i b s Hok Eb), Hcs in Hstep.
    destruct (loop_step _ _ _) as [[[b' q] out]|] eqn:El; simplify_eq/=.
    split; [|done]. pose proof (loop_decreases _ _ _ _ _ El).
    unfold life_weight. cbn. rewrite length_insert.
    pose proof (threads_weight_insert i _ (Joinable b') _ Eb) as Hw. cbn in Hw. lia.
  - destruct (stop_calls s !! n) as [[site p]|] eqn:En; [|done]. simpl in Hstep.
    pose proof (calls_elsewhere _ Hok n _ En) as Hsite. simpl in Hsite. subst site.
    by apply (stop_step_decreases n p).
Qed.

Lemma settling_careful e s : settling e = true → careful e s = true.
Proof. by destruct e. Qed.

Lemma settle_accessible s :
  life_ok s → context_stopped s = true → Acc (flip (settle_step cfg)) s.
Proof.
  remember (life_weight s) as w eqn:Ew. revert s Ew.
  induction (lt_wf w) as [w _ IH]. intros s -> Hok Hcs. constructor. intros s' (e & Hset & Hstep).
  destruct (settle_decreases e s s' Hok Hcs Hset Hstep) as [Hlt Hcs'].
  refine (IH _ Hlt s' eq_refl _ Hcs').
  exact (life_ok_step e s s' (settling_careful e s Hset) Hstep Hok).
Qed.

Lemma settle_run s s' :
  rtc (settle_step cfg) s s' → life_ok s → context_stopped s = true →
  life_ok s' ∧ context_stopped s' = true.
Proof.
  induction 1 as [|s1 s2 s3 (e & Hset & Hstep) _ IH]; [done|]. intros Hok Hcs. apply IH.
  - exact (life_ok_step e s1 s2 (settling_careful e s1 Hset) Hstep Hok).
  - exact (proj2 (settle_decreases e s1 s2 Hok Hcs Hset Hstep)).
Qed.

(** Nothing blocks a call for ever. *)
Lemma call_proceeds n site p s :
  life_ok s → context_stopped s = true → stop_calls s !! n = Some (site, p) → p ≠ StopReturned →
  ∃ s', settle_step cfg s s'.
Proof.
  intros Hok Hcs Hn Hp. pose proof (calls_elsewhere _ Hok n _ Hn) as Hsite. simpl in Hsite. subst site.
  pose proof (life_runs _ Hok) as Hrun.
  assert (∀ s', stop_step n Elsewhere p s = Some s' → ∃ s', settle_step cfg s s') as Hown.
  { intros s' Hs'. exists s', (StopStep n). split; [done|]. unfold step. by rewrite Hrun, Hn. }
  destruct p as [| | | |i|]; [| | | | |by destruct Hp].
  - simpl in Hown. destruct (stopping s); by eapply Hown.
  - by eapply Hown.
  - simpl in Hown. destruct (context_thread s) eqn:Ect; [by eapply Hown| | | |by eapply Hown].
    + eexists _, ContextReturns. split; [done|]. unfold step. by rewrite Hrun, Ect, Hcs.
    + eexists _, (HandlerEnds None). split; [done|]. unfold step. by rewrite Hrun, Ect.
    + by destruct (handler_never_stops _ Hok n0).
  - by eapply Hown.
  - simpl in Hown. destruct (background s !! i) as [[b|b m|]|] eqn:Eb; [|by destruct (loop_never_stops _ Hok i b m)|by eapply Hown..].
    destruct (loop_ended b) eqn:Ee; [by eapply Hown|].
    destruct (winner_moves n Elsewhere (AtLoopJoin i) s) as (_ & Hst & _); try done.
    assert (stopped (server_queue s) = true) as Hq.
    { rewrite (queue_stop_done _ Hok), Hst. apply bool_decide_eq_true. cbn. lia. }
    destruct (loop_proceeds (server_queue s) b Hq Ee) as [[[b' q] out] Hl].
    destruct (loop_runs_derived (server_queue s) b && negb (derived_alive s)) eqn:Ed;
      eexists _, (LoopStep i); (split; [done|]); unfold step; rewrite Hrun, Eb, Ed; [done|].
    rewrite Hcs, Hl. done.
Qed.
End life_lemmas.

(** ** Calls made on the server's own threads *)
Section own_threads.
Context {T : Type} `{QueueSizeTraits T} `{Loop T} (cfg : queue_config).
Implicit Types (s : server_life T) (n i : nat) (e : event T).

(** A thread inside a call stays in it, and a winner never gets past the join
    of its own thread. *)
Record own_ok s : Prop := OwnOk {
  own_calls : calls_ok s;
  own_context n p : stop_calls s !! n = Some (OnContext, p) → p ≠ StopReturned →
    context_thread s = HandlerStops n;
  own_loop n i p : stop_calls s !! n = Some (OnLoop i, p) → p ≠ StopReturned →
    ∃ b, background s !! i = Some (LoopStops b n);
  own_context_stuck n p : winner s = Some n → stop_calls s !! n = Some (OnContext, p) →
    p = AtContextStop ∨ p = AtContextJoin;
  own_loop_stuck n i p : winner s = Some n → stop_calls s !! n = Some (OnLoop i, p) →
    p ≠ StopReturned ∧ ∀ j, p = AtLoopJoin j → j ≤ i
}.

(** Steps of the threads and of the queue. *)
Lemma own_ok_threads s s' :
  own_ok s → calls_ok s' → winner s' = winner s → stop_calls s' = stop_calls s →
  (∀ n, context_thread s = HandlerStops n → context_thread s' = HandlerStops n) →
  (∀ i b n, background s !! i = Some (LoopStops b n) → background s' !! i = Some (LoopStops b n)) →
  own_ok s'.
Proof.
  intros [Hc Ho Hl Hos Hls] Hc' Ew Es Hct Hbg. split; rewrite ?Ew, ?Es; try done.
  - intros n p Hn Hp. apply Hct. by eapply Ho.
  - intros n i p Hn Hp. destruct (Hl n i p Hn Hp) as [b Hb]. exists b. by apply Hbg.
Qed.

(** A step of call [n], from anywhere. *)
Lemma own_ok_call n site p p' s s' :
  own_ok s → calls_ok s' → stop_calls s !! n = Some (site, p) → p ≠ StopReturned →
  stop_calls s' = <[n := (site, p')]> (stop_calls s) →
  (∀ m, m ≠ n → winner s' = Some m → winner s = Some m) →
  (winner s' = Some n →
    (site = OnContext → p' = AtContextStop ∨ p' = AtContextJoin) ∧
    (∀ i, site = OnLoop i → p' ≠ StopReturned ∧ ∀ j, p' = AtLoopJoin j → j ≤ i)) →
  (∀ m, (m ≠ n ∨ p' ≠ StopReturned) →
    context_thread s = HandlerStops m → context_thread s' = HandlerStops m) →
  (∀ i b m, (m ≠ n ∨ p' ≠ StopReturned) →
    background s !! i = Some (LoopStops b m) → background s' !! i = Some (LoopStops b m)) →
  own_ok s'.
Proof.
  intros [Hc Ho Hl Hos Hls] Hc' Hn Hp Es Ew Hwin Hct Hbg. split; rewrite ?Es; try done.
  - intros m p1. destruct (decide (n = m)) as [<-|Hne].
    + rewrite lookup_insert_eq. intros [= -> ->] Hp1. apply Hct; [by right|]. by eapply Ho.
    + rewrite lookup_insert_ne by done. intros Hm Hp1. apply Hct; [by left|]. by eapply Ho.
  - intros m i p1. destruct (decide (n = m)) as [<-|Hne].
    + rewrite lookup_insert_eq. intros [= -> ->] Hp1. destruct (Hl n i p Hn Hp) as [b Hb].
      exists b. apply Hbg; [by right|done].
    + rewrite lookup_insert_ne by done. intros Hm Hp1. destruct (Hl m i p1 Hm Hp1) as [b Hb].
      exists b. apply Hbg; [by left|done].
  - intros m p1 Hw. destruct (decide (n = m)) as [<-|Hne].
    + rewrite lookup_insert_eq. intros [= -> ->]. by apply Hwin.
    + rewrite lookup_insert_ne by done. apply Hos. by apply Ew.
  - intros m i p1 Hw. destruct (decide (n = m)) as [<-|Hne].
    + rewrite lookup_insert_eq. intros [= -> ->]. by apply Hwin.
    + rewrite lookup_insert_ne by done. apply Hls. by apply Ew.
Qed.

(** A call that has not been made is at no point. *)
Lemma own_ok_fresh n site s s' :
  own_ok s → calls_ok s' → stop_calls s !! n = None →
  stop_calls s' = <[n := (site, AtExchange)]> (stop_calls s) → winner s' = winner s →
  (site = OnContext → context_thread s' = HandlerStops n) →
  (∀ i, site = OnLoop i → ∃ b, background s' !! i = Some (LoopStops b n)) →
  (∀ m, context_thread s = HandlerStops m → context_thread s' = HandlerStops m) →
  (∀ i b m, background s !! i = Some (LoopStops b m) → background s' !! i = Some (LoopStops b m)) →
  own_ok s'.
Proof.
  intros [Hc Ho Hl Hos Hls] Hc' Hn Es Ew Hon Hol Hct Hbg.
  assert (winner s ≠ Some n) as Hnw.
  { intros (site' & p & Hp & _)%(winner_called _ Hc). congruence. }
  split; rewrite ?Es, ?Ew; try done.
  - intros m p1. destruct (decide (n = m)) as [<-|Hne].
    + rewrite lookup_insert_eq. intros [= -> <-] _. by apply Hon.
    + rewrite lookup_insert_ne by done. intros Hm Hp1. apply Hct. by eapply Ho.
  - intros m i p1. destruct (decide (n = m)) as [<-|Hne].
    + rewrite lookup_insert_eq. intros [= -> <-] _. by apply Hol.
    + rewrite lookup_insert_ne by done. intros Hm Hp1. destruct (Hl m i p1 Hm Hp1) as [b Hb].
      exists b. by apply Hbg.
  - intros m p1 Hw. destruct (decide (n = m)) as [<-|Hne]; [done|].
    rewrite lookup_insert_ne by done. by apply Hos.
  - intros m i p1 Hw. destruct (decide (n = m)) as [<-|Hne]; [done|].
    rewrite lookup_insert_ne by done. by apply Hls.
Qed.

(** Writing over a thread that is in no call. *)
Lemma keep_stops i (x y : background_thread T) (bs : list (background_thread T)) :
  bs !! i = Some x → (∀ b n, x ≠ LoopStops b n) →
  ∀ j b n, bs !! j = Some (LoopStops b n) → <[i := y]> bs !! j = Some (LoopStops b n).
Proof.
  intros Hi Hx j b n Hj. destruct (decide (i = j)) as [<-|Hne].
  - rewrite Hi in Hj. simplify_eq. by destruct (Hx b n).
  - by rewrite list_lookup_insert_ne.
Qed.

(** Returning only changes the thread the call was made on. *)
Lemma stop_returns_keeps n site p s :
  own_ok s → stop_calls s !! n = Some (site, p) → p ≠ StopReturned →
  winner (stop_returns n site s) = winner s ∧
  stop_calls (stop_returns n site s) = <[n := (site, StopReturned)]> (stop_calls s) ∧
  (∀ m, m ≠ n → context_thread s = HandlerStops m →
     context_thread (stop_returns n site s) = HandlerStops m) ∧
  (∀ i b m, m ≠ n → background s !! i = Some (LoopStops b m) →
     background (stop_returns n site s) !! i = Some (LoopStops b m)).
Proof.
  intros Hok Hn Hp. destruct site as [| |j]; simpl.
  - done.
  - pose proof (own_context _ Hok n p Hn Hp). split_and!; [done..| |done]. intros m Hm. congruence.
  - destruct (own_loop _ Hok n j p Hn Hp) as [b Hb]. rewrite Hb. split_and!; [done..|].
    intros i b' m Hm Hi. destruct (decide (j = i)) as [<-|Hne]; [congruence|].
    cbn. by rewrite list_lookup_insert_ne.
Qed.

Lemma own_ok_returns n site p s :
  own_ok s → calls_ok (stop_returns n site s) → stop_calls s !! n = Some (site, p) →
  p ≠ StopReturned → (winner s = Some n → site = Elsewhere) → own_ok (stop_returns n site s).
Proof.
  intros Hok Hc' Hn Hp Hsite.
  destruct (stop_returns_keeps n site p s Hok Hn Hp) as (Ew & Es & Hct & Hbg).
  apply (own_ok_call n site p StopReturned s); try done.
  - intros m _. by rewrite Ew.
  - rewrite Ew. intros ->%Hsite. done.
  - intros m [Hm|]; [by apply Hct|done].
  - intros i b m [Hm|]; [by apply Hbg|done].
Qed.

(** The winner moves on to [p']. *)
Lemma own_ok_moves n site p p' s s' :
  own_ok s → calls_ok s' → stop_calls s !! n = Some (site, p) → p ≠ StopReturned →
  p' ≠ StopReturned → stop_calls s' = <[n := (site, p')]> (stop_calls s) →
  (∀ m, m ≠ n → winner s' = Some m → winner s = Some m) →
  (site = OnContext → p' = AtContextStop ∨ p' = AtContextJoin) →
  (∀ i j, site = OnLoop i → p' = AtLoopJoin j → j ≤ i) →
  (∀ m, context_thread s = HandlerStops m → context_thread s' = HandlerStops m) →
  (∀ i b m, background s !! i = Some (LoopStops b m) → background s' !! i = Some (LoopStops b m)) →
  own_ok s'.
Proof.
  intros Hok Hc' Hn Hp Hp' Es Ew Hon Hol Hct Hbg.
  apply (own_ok_call n site p p' s); try done; [|naive_solver..].
  intros _. split; [done|]. intros i Hi. split; [done|]. intros j. by apply Hol.
Qed.

Lemma own_ok_stop_step n site p s s' :
  own_ok s → calls_ok s' → stop_calls s !! n = Some (site, p) → stop_step n site p s = Some s' →
  own_ok s'.
Proof.
  intros Hok Hc' Hn Hstep.
  assert (p ≠ AtExchange → p ≠ StopReturned → winner s = Some n) as Hwin.
  { intros Hx Hr. by destruct (others_lost _ (own_calls _ Hok) n site p Hn) as [|[|]]. }
  destruct p as [| | | |i|]; simpl in Hstep.
  - destruct (stopping s) eqn:Es; simplify_eq.
    + apply (own_ok_returns n site AtExchange); try done.
      intros (site' & p & Hp & Hx)%(winner_called _ (own_calls _ Hok)). congruence.
    + apply (own_ok_moves n site AtExchange AtContextStop s); try done; [|by left].
      intros m Hm. cbn. congruence.
  - simplify_eq. apply (own_ok_moves n site AtContextStop AtContextJoin s); try done. by right.
  - destruct (context_thread s) eqn:Ect; simplify_eq.
    + apply (own_ok_moves n site AtContextJoin AtQueueStop s); try done.
      intros ->. by rewrite (own_context _ Hok n _ Hn) in Ect.
    + case_decide; simplify_eq. by apply (own_ok_threads s).
    + apply (own_ok_moves n site AtContextJoin AtQueueStop s); try done.
      * intros ->. by rewrite (own_context _ Hok n _ Hn) in Ect.
      * intros m. congruence.
  - simplify_eq. specialize (Hwin ltac:(done) ltac:(done)).
    apply (own_ok_moves n site AtQueueStop (AtLoopJoin 0) s); try done.
    + intros ->. by destruct (own_context_stuck _ Hok n _ Hwin Hn).
    + intros j k _ [= <-]. lia.
  - specialize (Hwin ltac:(done) ltac:(done)).
    assert (site ≠ OnContext) as Hctx.
    { intros ->. by destruct (own_context_stuck _ Hok n _ Hwin Hn). }
    assert (∀ j, site = OnLoop j → i ≤ j ∧ ∃ b, background s !! j = Some (LoopStops b n)) as Hloop.
    { intros j ->. split; [by eapply (own_loop_stuck _ Hok n j _ Hwin Hn)|by eapply own_loop]. }
    destruct (background s !! i) as [[b|b m|]|] eqn:Eb; simplify_eq.
    + destruct (loop_ended b); simplify_eq.
      apply (own_ok_moves n site (AtLoopJoin i) (AtLoopJoin (S i)) s); try done.
      * intros j k Hs [= <-]. destruct (Hloop j Hs) as [Hle [b' Hb']].
        assert (i ≠ j) by (intros ->; congruence). lia.
      * by apply (keep_stops i (Joinable b)).
    + case_decide; simplify_eq. by apply (own_ok_threads s).
    + apply (own_ok_moves n site (AtLoopJoin i) (AtLoopJoin (S i)) s); try done.
      intros j k Hs [= <-]. destruct (Hloop j Hs) as [Hle [b' Hb']].
      assert (i ≠ j) by (intros ->; congruence). lia.
    + apply (own_ok_returns n site (AtLoopJoin i)); try done. intros _.
      destruct site as [| |j]; [done|done|]. destruct (Hloop j eq_refl) as [Hle [b' Hb']].
      apply lookup_ge_None in Eb. apply lookup_lt_Some in Hb'. lia.
  - done.
Qed.

Lemma own_ok_step e s s' : step cfg e s = Some s' → own_ok s → own_ok s'.
Proof.
  intros Hstep Hok. pose proof (calls_ok_step cfg e s s' Hstep (own_calls _ Hok)) as Hc'.
  unfold step in Hstep. destruct (crashed s); [done|]. destruct e as [k| |o| |i|n site|n|].
  - simplify_eq. apply (own_ok_threads s); [done..| | | |]; unfold launch.
    1, 2: by repeat case_match.
    + intros n Hn. by rewrite Hn.
    + intros i b n Hi. destruct (context_thread s); try done.
      case_match; [done|]. case_match eqn:Hall; [|done].
      rewrite forallb_forall in Hall. cbn in *.
      apply list_elem_of_lookup_2, list_elem_of_In in Hi. by apply Hall in Hi.
  - destruct (context_thread s) eqn:Ect; try done. destruct (context_stopped s); simplify_eq.
    by apply (own_ok_threads s); rewrite ?Ect.
  - destruct (context_thread s) eqn:Ect; try done; destruct o; try done;
      repeat case_match; simplify_eq; by apply (own_ok_threads s); rewrite ?Ect.
  - destruct (context_thread s) eqn:Ect; try done. destruct (context_stopped s); simplify_eq.
    by apply (own_ok_threads s); rewrite ?Ect.
  - destruct (background s !! i) as [[b|b m|]|] eqn:Eb; try done.
    case_match; simplify_eq; [by apply (own_ok_threads s)|].
    destruct (loop_step _ _ _) as [[[b' q] out]|]; simplify_eq/=.
    apply (own_ok_threads s); try done. by apply (keep_stops i (Joinable b)).
  - destruct (stop_calls s !! n) eqn:En; [done|]. destruct site as [| |i].
    + simplify_eq. by apply (own_ok_fresh n Elsewhere s).
    + destruct (context_thread s) eqn:Ect; simplify_eq.
      apply (own_ok_fresh n OnContext s); try done. by rewrite Ect.
    + destruct (background s !! i) as [[b|b m|]|] eqn:Eb; try done.
      destruct (loop_ended b); simplify_eq.
      apply (own_ok_fresh n (OnLoop i) s); try done.
      * intros j [= <-]. exists b. cbn. apply list_lookup_insert_eq. by eapply lookup_lt_Some.
      * by apply (keep_stops i (Joinable b)).
  - destruct (stop_calls s !! n) as [[site p]|] eqn:En; [|done]. simpl in Hstep.
    by apply (own_ok_stop_step n site p s).
  - simplify_eq. by apply (own_ok_threads s).
Qed.
End own_threads.
