(* ===== verification/ServerLife.v ===== *)
(** * The life of the two servers: [request_server_base.hpp], [persistent_server_base.hpp]

    What the background threads of the servers do, as instances of
    [Lifecycle.Loop]: the worker threads of [request_server_base], and the
    update thread of [persistent_server_base] (with the [update] of the
    repository's [broadcast_server]).  The properties of starting, stopping and
    destroying a server follow, first for any server and then for each. *)
From S2P Require Import Prelude ThreadSafeQueue Doubles Lifecycle.
From Stdlib Require QArith_base.

(** ** [request_server_base::worker_loop] *)
Section workers.
Context {T : Type} `{QueueSizeTraits T} (cfg : queue_config).

Inductive worker_state :=
  | WorkerWaits
  | WorkerBusy (task : T)
  | WorkerEnded.

(** [while (auto task = request_queue.wait_and_pop()) { process; send }]: a step
    takes a task, or finds the stopped queue empty and ends the loop, or
    finishes a task. *)
Definition worker_step (context_stopped : bool) (q : queue T) (b : worker_state)
    : option (worker_state * queue T * list T) :=
  match b with
  | WorkerWaits =>
      match wait_and_pop cfg q with
      | None => None
      | Some (None, q') => Some (WorkerEnded, q', [])
      | Some (Some task, q') => Some (WorkerBusy task, q', [])
      end
  | WorkerBusy task => Some (WorkerWaits, q, [task])
  | WorkerEnded => None
  end.

(** [process_client_request] is pure virtual in [request_server_base]: it is
    called for a task that is taken. *)
Definition worker_runs_derived (q : queue T) (b : worker_state) : bool :=
  match b with
  | WorkerWaits => negb (empty q)
  | WorkerBusy _ => true
  | WorkerEnded => false
  end.

Definition worker_loop : Loop T := {|
  loop_state := worker_state;
  loop_start := WorkerWaits;
  loop_ended := λ b, match b with WorkerEnded => true | _ => false end;
  loop_step := worker_step;
  loop_runs_derived := worker_runs_derived;
  loop_holds := λ b, match b with WorkerBusy task => [task] | _ => [] end;
  loop_weight := λ b, match b with WorkerWaits => 1 | WorkerBusy _ => 2 | WorkerEnded => 0 end
|}.

Lemma front_removed item q l :
  dequeue q = item :: l →
  dequeue (drop_front (removal_protocol cfg item q)) = l
  ∧ stopped (drop_front (removal_protocol cfg item q)) = stopped q.
Proof. intros E. unfold removal_protocol. destruct (bytes_limited cfg); cbn; by rewrite E. Qed.

Lemma wait_and_pop_cases q :
  (dequeue q = [] ∧ stopped q = true ∧ wait_and_pop cfg q = Some (None, q))
  ∨ (dequeue q = [] ∧ stopped q = false ∧ wait_and_pop cfg q = None)
  ∨ ∃ x q', wait_and_pop cfg q = Some (Some x, q') ∧ dequeue q = x :: dequeue q' ∧ stopped q' = stopped q.
Proof.
  unfold wait_and_pop, wait_ready, wait_and_pop_ready, empty.
  destruct (dequeue q) as [|x l] eqn:E.
  - rewrite orb_false_r. destruct (stopped q) eqn:Es; [by left|by right; left].
  - rewrite orb_true_r. right. right. destruct (front_removed x q l E) as [Hd Hs].
    exists x. eexists. by rewrite Hd.
Qed.

Lemma worker_loop_laws : @LoopLaws T worker_loop.
Proof.
  split; simpl; try done.
  - by intros cs q [].
  - intros cs q b b' q' out. destruct b as [|task|]; simpl; [|by intros [= <- <- <-]|done].
    destruct (wait_and_pop_cases q) as [(Hd & Hs & ->)|[(Hd & Hs & ->)|(x & q1 & -> & Hd & Hs)]];
      intros; simplify_eq/=; by rewrite ?Hd.
  - intros q b b' q' out. destruct b as [|task|]; simpl; [|intros [= <- <- <-]; lia|done].
    destruct (wait_and_pop_cases q) as [(Hd & Hs & ->)|[(Hd & Hs & ->)|(x & q1 & -> & Hd & Hs)]];
      intros; simplify_eq/=; rewrite ?Hd; simpl; lia.
  - intros q b Hst He. destruct b as [|task|]; simpl; [|by eexists|done].
    destruct (wait_and_pop_cases q) as [(Hd & Hs & ->)|[(Hd & Hs & ->)|(x & q1 & -> & Hd & Hs)]];
      [by eexists|congruence|by eexists].
  - by intros [].
Qed.
End workers.

(** ** The update thread of [persistent_server_base::launch] *)
Section update_thread.
Context {T : Type} `{QueueSizeTraits T} (cfg : queue_config).

Inductive update_state := ChecksRunning | Updates | Sleeps | UpdateEnded.

(** [while (is_running()) { update(); sleep }], where [update] is that of
    [broadcast_server]: it pops packets until it finds the queue empty. *)
Definition update_thread_step (context_stopped : bool) (q : queue T) (b : update_state)
    : option (update_state * queue T * list T) :=
  match b with
  | ChecksRunning => Some (if context_stopped then UpdateEnded else Updates, q, [])
  | Updates =>
      if empty q then Some (Sleeps, q, [])
      else match pop_front cfg q with
           | Returns (packet, q') => Some (Updates, q', [packet])
           | _ => None
           end
  | Sleeps => Some (ChecksRunning, q, [])
  | UpdateEnded => None
  end.

Definition update_thread : Loop T := {|
  loop_state := update_state;
  loop_start := ChecksRunning;
  loop_ended := λ b, match b with UpdateEnded => true | _ => false end;
  loop_step := update_thread_step;
  loop_runs_derived := λ _ b, match b with Updates => true | _ => false end;
  loop_holds := λ _, [];
  loop_weight := λ b, match b with
                      | Updates => 3 | Sleeps => 2 | ChecksRunning => 1 | UpdateEnded => 0
                      end
|}.

Lemma pop_front_cases q :
  (empty q = true ∧ dequeue q = [])
  ∨ ∃ x q', empty q = false ∧ pop_front cfg q = Returns (x, q') ∧ dequeue q = x :: dequeue q'
      ∧ stopped q' = stopped q.
Proof.
  unfold empty, pop_front. destruct (dequeue q) as [|x l] eqn:E; [by left|].
  right. destruct (front_removed cfg x q l E) as [Hd Hs]. exists x. eexists. by rewrite Hd.
Qed.

Lemma update_thread_laws : @LoopLaws T update_thread.
Proof.
  split; simpl; try done.
  - by intros cs q [].
  - intros cs q b b' q' out. destruct b; simpl; try (by intros [= <- <- <-]).
    destruct (pop_front_cases q) as [(-> & Hd)|(x & q1 & -> & -> & Hd & Hs)];
      intros; simplify_eq/=; by rewrite ?Hd.
  - intros q b b' q' out. destruct b; simpl; [intros [= <- <- <-]; lia| |intros [= <- <- <-]; lia|done].
    destruct (pop_front_cases q) as [(-> & Hd)|(x & q1 & -> & -> & Hd & Hs)];
      intros; simplify_eq/=; rewrite ?Hd; simpl; lia.
  - intros q b Hst He. destruct b; simpl; [by eexists| |by eexists|done].
    destruct (pop_front_cases q) as [(-> & Hd)|(x & q1 & -> & -> & Hd & Hs)]; by eexists.
Qed.
End update_thread.

(** ** The two [launch] functions

    [request_server_base] starts nothing more in [launch]; the update thread of
    [persistent_server_base] is started there, unless the frame time is zero. *)
Section launch.
Context {T : Type} `{QueueSizeTraits T} `{Loop T} `{Double}.
Implicit Types (s : server_life T).

Definition request_launch s : server_life T := launch 0 s.

(** [std::max(_fixed_delta_time, 0.0f)]. *)
Definition clamp_delta_time (fixed_delta_time : double) : double :=
  if d_ltb fixed_delta_time d_zero then d_zero else fixed_delta_time.

Definition persistent_launch (fixed_delta_time : double) s : server_life T :=
  launch (if d_leb fixed_delta_time d_zero then 0 else 1) s.
End launch.

(** A server constructed with a negative frame time has no update thread. *)
Lemma negative_delta_time_never_updates {T : Type} `{QueueSizeTraits T} `{Loop T} (delta : QArith_base.Q) (s : server_life T) :
  QArith_base.Qlt delta (QArith_base.inject_Z 0) → context_thread s = NoThread →
  background (@persistent_launch T _ exact (@clamp_delta_time exact delta) s) = background s.
Proof.
  intros Hneg Hct. unfold persistent_launch, clamp_delta_time, launch. rewrite Hct. cbn.
  destruct (QArith_base.Qle_bool _ delta) eqn:E; [|done].
  apply QArith_base.Qle_bool_iff in E. exfalso. exact (QArith_base.Qlt_not_le _ _ Hneg E).
Qed.

(** ** Every server *)
Section any_server.
Context {T : Type} `{QueueSizeTraits T} `{Loop T} (cfg : queue_config).
Implicit Types (s : server_life T).

Lemma calls_ok_reachable k s : rtc (any_step cfg) (new_server k) s → calls_ok s.
Proof.
  intros Hrun. apply (rtc_invariant (any_step cfg) calls_ok) with (new_server k); [|done|by split].
  intros s1 s2 Hok (e & Hstep). by eapply calls_ok_step.
Qed.

(** A run of a careful program, computed. *)
Fixpoint careful_run (es : list (event T)) s : option (server_life T) :=
  match es with
  | [] => Some s
  | e :: es' => if careful e s then s' ← step cfg e s; careful_run es' s' else None
  end.

Lemma careful_run_steps es s s' : careful_run es s = Some s' → rtc (careful_step cfg) s s'.
Proof.
  revert s. induction es as [|e es IH]; intros s; cbn [careful_run]; [by intros [= ->]|].
  destruct (careful e s) eqn:Hc; [|done]. destruct (step cfg e s) as [s1|] eqn:Hs; [|done].
  intros Hrun. eapply rtc_l; [by exists e|by apply IH].
Qed.

Lemma run_steps es s s' : run cfg es s = Some s' → rtc (any_step cfg) s s'.
Proof.
  revert s. induction es as [|e es IH]; intros s; cbn [run]; [by intros [= ->]|].
  destruct (step cfg e s) as [s1|] eqn:Hs; [|done].
  intros Hrun. eapply rtc_l; [by exists e|by apply IH].
Qed.

(** A handler that puts an item into the queue. *)
Lemma handler_queues x q s :
  crashed s = None → context_thread s = Handling →
  try_push_back cfg x (server_queue s) = (true, q, NotifyOne) →
  step cfg (HandlerEnds (Some x)) s =
    Some (with_context (context_stopped s) Polling (with_queue q [x] s)).
Proof. intros Hcr Hct Hq. unfold step. by rewrite Hcr, Hct, Hq. Qed.

(** A background thread that ends without looking at the queue, once the context
    is stopped, leaves what is there. *)
Lemma unfinished_work_stays x bytes b :
  try_push_back cfg x new_queue = (true, Queue [x] false bytes, NotifyOne) →
  (∀ q, loop_step true q loop_start = Some (b, q, [])) → loop_ended b = true →
  (∀ q, loop_runs_derived q loop_start = false) →
  ∃ s, rtc (careful_step cfg) (new_server 0) s ∧ winner_returned s = true ∧
    queued s = [x] ∧ processed s = [] ∧ dequeue (server_queue s) = [x].
Proof.
  intros Hq Hstep Hend Hder.
  set (q := Queue [x] false bytes). set (closed_q := Queue [x] true bytes).
  set (at_point p := {[0 := (Elsewhere, p)]} : gmap nat (call_site * stop_point)).
  exists (ServerLife true true NoThread closed_q [Joined] (at_point StopReturned) true None (Some 0) [x] []).
  split; [|done].
  assert (step cfg (LoopStep 0)
      (ServerLife true true NoThread closed_q [Joinable loop_start] (at_point (AtLoopJoin 0)) true None
        (Some 0) [x] [])
    = Some (ServerLife true true NoThread closed_q [Joinable b] (at_point (AtLoopJoin 0)) true None
        (Some 0) [x] [])) as Hends.
  { unfold step. cbn [crashed background lookup list_lookup server_queue context_stopped].
    by rewrite Hder, Hstep. }
  assert (step cfg (StopStep 0)
      (ServerLife true true NoThread closed_q [Joinable b] (at_point (AtLoopJoin 0)) true None
        (Some 0) [x] [])
    = Some (ServerLife true true NoThread closed_q [Joined] (at_point (AtLoopJoin 1)) true None
        (Some 0) [x] [])) as Hjoins.
  { change (stop_step 0 Elsewhere (AtLoopJoin 0)
        (ServerLife true true NoThread closed_q [Joinable b] (at_point (AtLoopJoin 0)) true None
          (Some 0) [x] [])
      = Some (ServerLife true true NoThread closed_q [Joined] (at_point (AtLoopJoin 1)) true None
          (Some 0) [x] [])).
    unfold stop_step. cbn [background lookup list_lookup]. by rewrite Hend. }
  etrans; [apply (careful_run_steps [Launch 1; Dispatch] _
    (ServerLife false false Handling new_queue [Joinable loop_start] ∅ true None None [] [])); done|].
  eapply rtc_l; [exists (HandlerEnds (Some x)); split; [done|by apply handler_queues]|].
  etrans; [apply (careful_run_steps [Call 0 Elsewhere; StopStep 0; StopStep 0; ContextReturns;
    StopStep 0; StopStep 0] _
    (ServerLife true true NoThread closed_q [Joinable loop_start] (at_point (AtLoopJoin 0)) true None
      (Some 0) [x] [])); vm_compute; reflexivity|].
  eapply rtc_l; [exists (LoopStep 0); split; [done|exact Hends]|].
  eapply rtc_l; [exists (StopStep 0); split; [done|exact Hjoins]|].
  apply (careful_run_steps [StopStep 0]). vm_compute. reflexivity.
Qed.

(** Of all the calls of [try_stop], from whatever threads and at whatever
    time, at most one is ever inside [stop]. *)
Theorem one_stop_at_a_time k s n1 n2 site1 site2 point1 point2 :
  rtc (any_step cfg) (new_server k) s →
  stop_calls s !! n1 = Some (site1, point1) → stop_calls s !! n2 = Some (site2, point2) →
  point1 ∉ [AtExchange; StopReturned] → point2 ∉ [AtExchange; StopReturned] → n1 = n2.
Proof.
  intros Hrun%calls_ok_reachable E1 E2 N1 N2. rewrite !not_elem_of_cons in N1, N2.
  destruct (others_lost _ Hrun n1 site1 point1 E1) as [|[|W1]]; [naive_solver..|].
  destruct (others_lost _ Hrun n2 site2 point2 E2) as [|[|W2]]; [naive_solver..|].
  congruence.
Qed.

(** A call of [try_stop] made on one of the server's own threads, by a
    handler or by a background thread, never returns when it is the one that
    stops the server: it comes to the join of its own thread. *)
Theorem own_thread_stop_never_returns k s n site point :
  rtc (any_step cfg) (new_server k) s →
  winner s = Some n → stop_calls s !! n = Some (site, point) → site ≠ Elsewhere →
  point ≠ StopReturned ∧ (∀ i j, site = OnLoop i → point = AtLoopJoin j → j ≤ i).
Proof.
  intros Hrun Hw Hn Hsite.
  assert (own_ok s) as Hok.
  { apply (rtc_invariant (any_step cfg) own_ok) with (new_server k); [|done|by split].
    intros s1 s2 Hok1 (e & Hstep). by eapply own_ok_step. }
  destruct site as [| |i]; [done| |].
  - destruct (own_context_stuck _ Hok n point Hw Hn) as [-> | ->]; by split.
  - destruct (own_loop_stuck _ Hok n i point Hw Hn) as [Hne Hle]. split; [done|].
    intros i' j [= <-]. by apply Hle.
Qed.

(** [try_stop] can return while the server still runs: a second call returns
    at once, and then a handler may be running, the context not be stopped and
    every background thread be at work. *)
Theorem second_stop_returns_early k :
  ∃ s, rtc (careful_step cfg) (new_server k) s ∧
    stop_calls s !! 1 = Some (Elsewhere, StopReturned) ∧ stopping s = true ∧ is_running s = true ∧
    context_thread s = Handling ∧ background s = replicate k (Joinable loop_start).
Proof.
  eexists. split.
  - eapply rtc_l; [by exists (Launch 0)|].
    eapply rtc_l; [by exists Dispatch|].
    eapply rtc_l; [by exists (Call 0 Elsewhere)|].
    eapply rtc_l; [by exists (Call 1 Elsewhere)|].
    eapply rtc_l; [by exists (StopStep 0)|].
    eapply rtc_l; [by exists (StopStep 1)|]. apply rtc_refl.
  - by split_and!.
Qed.

(** After the winner has returned, no call does more than lose the exchange. *)
Lemma returned_step e s s' :
  calls_ok s → step cfg e s = Some s' → winner_returned s = true →
  winner_returned s' = true ∧ (context_thread s ≠ NoThread → context_thread s' ≠ NoThread).
Proof.
  intros Hc Hstep Hret. unfold step in Hstep. destruct (crashed s); [done|].
  assert (∀ s1, winner s1 = winner s → stop_calls s1 = stop_calls s → winner_returned s1 = true) as Hsame.
  { intros s1 Ew Es. rewrite <-Hret. unfold winner_returned. by rewrite Ew, Es. }
  assert (∀ n v s1, winner s1 = winner s → stop_calls s1 = <[n := v]> (stop_calls s) →
    winner s ≠ Some n → winner_returned s1 = true) as Hother.
  { intros n v s1 Ew Es Hn. rewrite <-Hret. unfold winner_returned. rewrite Ew, Es.
    destruct (winner s) as [m|]; [|done]. by rewrite lookup_insert_ne by congruence. }
  destruct e as [k| |o| |i|n site|n|].
  - simplify_eq. split; [apply Hsame; unfold launch; by repeat case_match|].
    unfold launch. intros Hne. by destruct (context_thread s) eqn:E; repeat case_match; cbn; rewrite ?E.
  - destruct (context_thread s); try done. destruct (context_stopped s); simplify_eq.
    split; [by apply Hsame|done].
  - destruct (context_thread s), o; try done; repeat case_match; simplify_eq; (split; [by apply Hsame|done]).
  - destruct (context_thread s); try done. destruct (context_stopped s); simplify_eq.
    split; [by apply Hsame|done].
  - destruct (background s !! i) as [[b|b m|]|]; try done. case_match; simplify_eq; [by split; [apply Hsame|]|].
    destruct (loop_step _ _ _) as [[[b' q] out]|]; simplify_eq/=. by split; [apply Hsame|].
  - destruct (stop_calls s !! n) eqn:En; [done|]. assert (winner s ≠ Some n) as Hn.
    { intros (? & ? & ? & _)%(winner_called _ Hc). congruence. }
    destruct site as [| |i]; [|destruct (context_thread s)|destruct (background s !! i) as [[b|b m|]|]];
      try done; repeat case_match; simplify_eq; (split; [by eapply Hother|done]).
  - destruct (stop_calls s !! n) as [[site p]|] eqn:En; [|done]. simpl in Hstep.
    destruct (decide (p = StopReturned)) as [->|Hp]; [done|].
    assert (winner s ≠ Some n) as Hn.
    { intros Hw. unfold winner_returned in Hret. rewrite Hw, En in Hret. by destruct p. }
    assert (p = AtExchange) as -> by (destruct (others_lost _ Hc n site p En) as [|[|]]; done).
    simpl in Hstep. assert (stopping s = true) as Hst.
    { rewrite (stopping_is_won _ Hc). apply bool_decide_eq_true.
      unfold winner_returned in Hret. by destruct (winner s). }
    rewrite Hst in Hstep. simplify_eq. unfold stop_returns.
    split; [apply (Hother n (site, StopReturned)); [..|exact Hn]|];
      destruct site as [| |i]; try done; cbn; by repeat case_match.
  - simplify_eq. by split; [apply Hsame|].
Qed.

(** A server that is launched again after it was stopped keeps a context
    thread that nothing joins any more: whatever happens next, [context_thread]
    is joinable, so that destroying it ends the program. *)
Theorem relaunched_server_is_never_joined k at_launch s s' :
  rtc (any_step cfg) (new_server k) s → crashed s = None → winner_returned s = true →
  rtc (any_step cfg) (launch at_launch s) s' →
  context_thread s' ≠ NoThread.
Proof.
  intros Hrun Hcr Hret Hrun'.
  assert (calls_ok (launch at_launch s)) as Hc.
  { eapply (calls_ok_step cfg (Launch at_launch)); [|by eapply calls_ok_reachable]. unfold step. by rewrite Hcr. }
  assert (winner_returned (launch at_launch s) = true) as Hr.
  { rewrite <-Hret. assert (winner (launch at_launch s) = winner s ∧
      stop_calls (launch at_launch s) = stop_calls s) as [Ew Es] by (unfold launch; by repeat case_match).
    unfold winner_returned. by rewrite Ew, Es. }
  assert (context_thread (launch at_launch s) ≠ NoThread) as Hne.
  { unfold launch. destruct (context_thread s) eqn:E; repeat case_match; cbn; congruence. }
  clear Hrun Hret Hcr. induction Hrun' as [|s1 s2 s3 (e & Hstep) _ IH]; [done|].
  destruct (returned_step e s1 s2 Hc Hstep Hr) as [Hr' Hne'].
  apply IH; [by eapply calls_ok_step|done|by apply Hne'].
Qed.
End any_server.

(** ** Careful programs *)
Section careful_program.
Context {T : Type} `{QueueSizeTraits T} `{LoopLaws T} (cfg : queue_config).
Implicit Types (s : server_life T).

Lemma quiet_background s i b :
  life_ok s → stage s = 4 + length (background s) → background s !! i = Some b → b = Joined.
Proof.
  intros Hok Hst Hi. destruct b as [b|b n|]; [|by destruct (loop_never_stops _ Hok i b n)|done].
  destruct (loops_joined _ Hok i b); [|done]. apply lookup_lt_Some in Hi. lia.
Qed.

Lemma quiet_holds_nothing s :
  (∀ i b, background s !! i = Some b → b = Joined) → held s = [].
Proof.
  intros Hq. unfold held. assert (background s = replicate (length (background s)) Joined) as ->.
  { apply list_eq. intros i. destruct (background s !! i) as [b|] eqn:E.
    - rewrite (Hq i b E). symmetry. apply lookup_replicate_2. by eapply lookup_lt_Some.
    - symmetry. apply lookup_replicate_None. by apply lookup_ge_None. }
  induction (length (background s)) as [|m IH]; [done|exact IH].
Qed.

Lemma returned_server_at_rest k s :
  rtc (careful_step cfg) (new_server k) s → winner_returned s = true →
  crashed s = None ∧ is_running s = false ∧ context_thread s = NoThread ∧
  (∀ i b, background s !! i = Some b → b = Joined) ∧
  stopped (server_queue s) = true ∧
  queued s ≡ₚ processed s ++ dequeue (server_queue s).
Proof.
  intros Hok%life_ok_reachable Hret. pose proof (returned_stage s Hret) as Hst.
  pose proof (quiet_background s) as Hq.
  split_and!.
  - apply Hok.
  - unfold is_running. rewrite (context_stop_done _ Hok), Hst. apply negb_false_iff, bool_decide_eq_true. lia.
  - apply Hok. lia.
  - intros i b. by apply Hq.
  - rewrite (queue_stop_done _ Hok), Hst. apply bool_decide_eq_true. lia.
  - rewrite (work_conserved _ Hok), quiet_holds_nothing; [done|]. intros i b. by apply Hq.
Qed.

(** C18. When the call of [try_stop] that won has returned, the server is at
    rest: the context thread has ended and been joined, every background thread
    has ended and been joined, the queue is closed, nothing crashed, and every
    item that was queued has been processed or is still in the queue. *)
Theorem stopped_server_is_quiet k s :
  rtc (careful_step cfg) (new_server k) s → winner_returned s = true →
  crashed s = None ∧ is_running s = false ∧ context_thread s = NoThread ∧
  (∀ i b, background s !! i = Some b → b = Joined) ∧
  stopped (server_queue s) = true ∧
  queued s ≡ₚ processed s ++ dequeue (server_queue s).
Proof. exact (returned_server_at_rest k s). Qed.

End careful_program.

(** ** The request server *)
Section request_server.
Context {T : Type} `{QueueSizeTraits T} (cfg : queue_config).
#[local] Instance the_worker_loop : Loop T := worker_loop cfg.
#[local] Instance the_worker_laws : LoopLaws T := worker_loop_laws cfg.
Implicit Types (s : server_life T).

(** A worker leaves its loop only when the queue is closed and empty. *)
Definition drained s : Prop :=
  (∃ i b, background s !! i = Some b ∧ (b = Joined ∨ b = Joinable WorkerEnded)) →
  dequeue (server_queue s) = [] ∧ stopped (server_queue s) = true.

Lemma drained_same s s' :
  drained s → dequeue (server_queue s') = dequeue (server_queue s) →
  (stopped (server_queue s) = true → stopped (server_queue s') = true) →
  (∀ i b, background s' !! i = Some b → b = Joined ∨ b = Joinable WorkerEnded →
    ∃ j b', background s !! j = Some b' ∧ (b' = Joined ∨ b' = Joinable WorkerEnded)) →
  drained s'.
Proof.
  intros Hd Eq Hs Hb (i & b & Hi & He). destruct (Hd (Hb i b Hi He)) as [Hq Hst].
  rewrite Eq. split; [done|by apply Hs].
Qed.

Lemma drained_loop_step i w w' q out s s' :
  drained s → background s !! i = Some (Joinable w) →
  worker_step cfg (context_stopped s) (server_queue s) w = Some (w', q, out) →
  background s' = <[i := Joinable w']> (background s) → server_queue s' = q → drained s'.
Proof.
  intros Hd Eb Hstep Ebs Eq. assert (i < length (background s)) as Hlt by (by eapply lookup_lt_Some).
  assert (∀ j b, background s' !! j = Some b → b = Joined ∨ b = Joinable WorkerEnded →
    (j = i ∧ w' = WorkerEnded) ∨
    ∃ j b', background s !! j = Some b' ∧ (b' = Joined ∨ b' = Joinable WorkerEnded)) as Hends.
  { intros j b Hj He. rewrite Ebs in Hj. destruct (decide (i = j)) as [<-|Hne].
    - rewrite list_lookup_insert_eq in Hj by done. injection Hj as <-. left.
      destruct He as [He|He]; by simplify_eq.
    - rewrite list_lookup_insert_ne in Hj by done. right. by exists j, b. }
  destruct w as [|task|]; cbn [worker_step] in Hstep; [| |done].
  - destruct (wait_and_pop_cases cfg (server_queue s)) as [(Hq & Hs & E)|[(Hq & Hs & E)|(x & q1 & E & Hq & Hs)]];
      rewrite E in Hstep; simplify_eq/=.
    + intros _. split; congruence.
    + intros (j & b & Hj & He). destruct (Hends j b Hj He) as [[_ ?]|Hex]; [done|].
      destruct (Hd Hex). congruence.
  - simplify_eq/=. intros (j & b & Hj & He). destruct (Hends j b Hj He) as [[_ ?]|Hex]; [done|].
    destruct (Hd Hex). split; congruence.
Qed.

Lemma drained_stop_step n p s s' :
  drained s → stop_step n Elsewhere p s = Some s' → drained s'.
Proof.
  intros Hd Hstep. destruct p as [| | | |i|]; simpl in Hstep; [| | | | |done].
  - destruct (stopping s); simplify_eq; apply (drained_same s); eauto.
  - simplify_eq. apply (drained_same s); eauto.
  - repeat case_match; simplify_eq; by (apply (drained_same s); eauto).
  - simplify_eq. apply (drained_same s); cbn; eauto; unfold ThreadSafeQueue.stop;
      destruct (stopped (server_queue s)) eqn:Es; cbn; by rewrite ?Es.
  - destruct (background s !! i) as [[b|b m|]|] eqn:Eb; simplify_eq.
    + destruct b; cbn in Hstep; simplify_eq. apply (drained_same s); cbn; eauto.
    + case_decide; simplify_eq; apply (drained_same s); eauto.
    + apply (drained_same s); eauto.
    + apply (drained_same s); eauto.
Qed.

Lemma drained_step e s s' :
  careful e s = true → step cfg e s = Some s' → life_ok s → drained s → drained s'.
Proof.
  intros Hcare Hstep Hok Hd. unfold step in Hstep. rewrite (life_runs _ Hok) in Hstep.
  destruct e as [k| |o| |i|n site|n|].
  - simplify_eq. apply andb_true_iff in Hcare as [Hcare Hk%bool_decide_eq_true].
    apply andb_true_iff in Hcare as [_ Hct%bool_decide_eq_true]. unfold launch. rewrite Hct.
    destruct (decide (k = 0)) as [->|Hne]; [by apply (drained_same s); eauto|].
    destruct Hk as [|Hb]; [done|]. cbn. rewrite Hb. cbn.
    intros (i & b & [-> _]%lookup_replicate & [|]); done.
  - destruct (context_thread s); try done. destruct (context_stopped s); simplify_eq.
    apply (drained_same s); eauto.
  - destruct (context_thread s), o as [x|]; try done; simplify_eq; [|by apply (drained_same s); eauto].
    unfold try_push_back, pre_addition_check_protocol in Hstep.
    destruct (stopped (server_queue s)) eqn:Es; simplify_eq/=; [by apply (drained_same s); eauto|].
    assert (background s' = background s) as Eb by (repeat case_match; by simplify_eq).
    intros (i & b & Hi & He). rewrite Eb in Hi. destruct Hd as [_ Hst]; [by exists i, b|congruence].
  - destruct (context_thread s); try done. destruct (context_stopped s); simplify_eq.
    apply (drained_same s); eauto.
  - destruct (background s !! i) as [[b|b m|]|] eqn:Eb; try done.
    rewrite (no_destroyed_overrider i b s Hok Eb) in Hstep.
    cbn [loop_step the_worker_loop worker_loop] in Hstep.
    destruct (worker_step _ _ _ b) as [[[b' q] out]|] eqn:El; simplify_eq/=.
    by eapply (drained_loop_step i b b' q out s).
  - apply bool_decide_eq_true in Hcare as ->. destruct (stop_calls s !! n); simplify_eq.
    apply (drained_same s); eauto.
  - destruct (stop_calls s !! n) as [[site p]|] eqn:En; [|done]. simpl in Hstep.
    pose proof (calls_elsewhere _ Hok n _ En) as Hsite. simpl in Hsite. subst site.
    by apply (drained_stop_step n p s).
  - simplify_eq. apply (drained_same s); eauto.
Qed.

Lemma drained_reachable k s :
  rtc (careful_step cfg) (new_server k) s → life_ok s ∧ drained s.
Proof.
  intros Hrun. apply (rtc_invariant (careful_step cfg) (λ s, life_ok s ∧ drained s)) with (new_server k);
    [|done|split; [apply life_ok_initial|]].
  - intros s1 s2 [Hok Hd] (e & Hcare & Hstep).
    split; [by eapply life_ok_step|by eapply drained_step].
  - intros (i & b & [-> _]%lookup_replicate & [|]); done.
Qed.

(** C17. A request server that has stopped has processed every request it
    queued: with at least one worker, the workers empty the queue before the
    call of [try_stop] that won returns. *)
Theorem stopped_request_server_has_processed_everything k s :
  rtc (careful_step cfg) (new_server k) s → winner_returned s = true → background s ≠ [] →
  dequeue (server_queue s) = [] ∧ queued s ≡ₚ processed s.
Proof.
  intros Hrun Hret Hne. destruct (drained_reachable k s Hrun) as [Hok Hd].
  pose proof (returned_stage s Hret) as Hst.
  destruct (returned_server_at_rest cfg k s Hrun Hret) as (_ & _ & _ & Hq & _ & Hperm).
  assert (dequeue (server_queue s) = []) as Hempty.
  { destruct (background s) as [|b bs] eqn:Eb; [done|].
    apply Hd. exists 0, b. rewrite Eb. split; [done|]. left. by apply (Hq 0). }
  split; [done|]. by rewrite Hempty, app_nil_r in Hperm.
Qed.

(** The derived part is gone, and there is work in the queue. *)
Record doomed s : Prop := Doomed {
  doomed_calls : calls_ok s;
  doomed_destroyed : derived_alive s = false;
  doomed_work : dequeue (server_queue s) ≠ [];
  doomed_workers : background s ≠ [];
  doomed_at_work i b : background s !! i = Some b →
    b ≠ Joined ∧ b ≠ Joinable WorkerEnded ∧ ∀ n, b ≠ LoopStops WorkerEnded n;
  doomed_winner n site p : winner s = Some n → stop_calls s !! n = Some (site, p) →
    p ≠ StopReturned ∧ ∀ i, p = AtLoopJoin i → i = 0
}.

Lemma doomed_same s s' :
  doomed s → calls_ok s' → derived_alive s' = derived_alive s →
  (dequeue (server_queue s) ≠ [] → dequeue (server_queue s') ≠ []) →
  (background s ≠ [] → background s' ≠ []) →
  (∀ i b, background s' !! i = Some b →
     background s !! i = Some b ∨
     ∃ w n m, (background s !! i = Some (Joinable w) ∨ background s !! i = Some (LoopStops w m)) ∧
       (b = Joinable w ∨ b = LoopStops w n)) →
  (∀ n site p, winner s' = Some n → stop_calls s' !! n = Some (site, p) →
     (winner s = Some n ∧ stop_calls s !! n = Some (site, p))
     ∨ (p ≠ StopReturned ∧ ∀ i, p = AtLoopJoin i → i = 0)) →
  doomed s'.
Proof.
  intros [Hc Hd Hw Hne Hb Hp] Hc' Ed Hw' Hne' Hb' Hp'. split; try done; [by rewrite Ed|auto..| |].
  - intros i b Hi. destruct (Hb' i b Hi) as [Hi'|(w & n & m & Hs & Hx)]; [by eapply Hb|].
    destruct Hs as [Hs|Hs]; destruct (Hb _ _ Hs) as (H1 & H2 & H3); destruct Hx as [-> | ->]; naive_solver.
  - intros n site p Hn Hs. destruct (Hp' n site p Hn Hs) as [[Hn' Hs']|]; [by eapply Hp|done].
Qed.

Lemma insert_cases i j (x b : background_thread T) (bs : list (background_thread T)) :
  <[i := x]> bs !! j = Some b → bs !! j = Some b ∨ (j = i ∧ b = x).
Proof. intros [(-> & -> & _)|[_ Hj]]%list_lookup_insert_Some; auto. Qed.

Lemma insert_nonempty i (x : background_thread T) (bs : list (background_thread T)) :
  bs ≠ [] → <[i := x]> bs ≠ [].
Proof. by destruct bs, i. Qed.

(** A thread that takes up or leaves a call of [try_stop]. *)
Lemma doomed_thread s s' i w x y :
  doomed s → calls_ok s' → derived_alive s' = derived_alive s →
  server_queue s' = server_queue s → background s !! i = Some x →
  background s' = <[i := y]> (background s) →
  (∃ n m, (x = Joinable w ∨ x = LoopStops w m) ∧ (y = Joinable w ∨ y = LoopStops w n)) →
  (∀ n site p, winner s' = Some n → stop_calls s' !! n = Some (site, p) →
     (winner s = Some n ∧ stop_calls s !! n = Some (site, p))
     ∨ (p ≠ StopReturned ∧ ∀ i, p = AtLoopJoin i → i = 0)) →
  doomed s'.
Proof.
  intros Hok Hc' Ed Eq Hi Eb (n & m & Hx & Hy) Hp. apply (doomed_same s); rewrite ?Eq, ?Eb; try done.
  - intros _. by apply insert_nonempty, Hok.
  - intros j b [Hj|[-> ->]]%insert_cases; [by left|]. right. exists w, n, m.
    split; [|done]. by destruct Hx as [-> | ->]; [left|right].
Qed.

Lemma doomed_stop_step n site p s s' :
  doomed s → calls_ok s' → stop_calls s !! n = Some (site, p) → stop_step n site p s = Some s' →
  doomed s'.
Proof.
  intros Hok Hc' Hn Hstep.
  assert (∀ p', (p' ≠ StopReturned ∧ ∀ i, p' = AtLoopJoin i → i = 0) →
    ∀ m site' p1, winner s = Some m → <[n := (site, p')]> (stop_calls s) !! m = Some (site', p1) →
    (winner s = Some m ∧ stop_calls s !! m = Some (site', p1))
    ∨ (p1 ≠ StopReturned ∧ ∀ i, p1 = AtLoopJoin i → i = 0)) as Hmove.
  { intros p' Hp' m site' p1 Hw. destruct (decide (n = m)) as [<-|Hne].
    - rewrite lookup_insert_eq. intros [= <- <-]. by right.
    - rewrite lookup_insert_ne by done. by left. }
  assert (p ≠ AtExchange → p ≠ StopReturned → winner s = Some n) as Hwin.
  { intros Hx Hr. by destruct (others_lost _ (doomed_calls _ Hok) n site p Hn) as [|[|]]. }
  destruct p as [| | | |i|]; simpl in Hstep.
  - destruct (stopping s) eqn:Es; simplify_eq.
    + assert (winner s ≠ Some n) as Hne.
      { intros (site' & p & Hp & Hx)%(winner_called _ (doomed_calls _ Hok)). congruence. }
      assert (∀ m site' p1, winner s = Some m →
        <[n := (site, StopReturned)]> (stop_calls s) !! m = Some (site', p1) →
        (winner s = Some m ∧ stop_calls s !! m = Some (site', p1))
        ∨ (p1 ≠ StopReturned ∧ ∀ i, p1 = AtLoopJoin i → i = 0)) as Hlost.
      { intros m site' p1 Hw. rewrite lookup_insert_ne by congruence. by left. }
      destruct site as [| |i]; simpl in *; [by apply (doomed_same s); eauto..|].
      destruct (background s !! i) as [[b|b m|]|] eqn:Eb; [by apply (doomed_same s); eauto| |by apply (doomed_same s); eauto..].
      apply (doomed_thread s _ i b (LoopStops b m) (Joinable b)); try done.
      exists 0, m. auto.
    + apply (doomed_same s); eauto. intros m site' p1 [= <-]. cbn.
      rewrite lookup_insert_eq. intros [= <- <-]. by right.
  - simplify_eq. apply (doomed_same s); eauto. by apply Hmove.
  - repeat case_match; simplify_eq; apply (doomed_same s); eauto; by apply Hmove.
  - simplify_eq. apply (doomed_same s); eauto.
    + cbn. unfold ThreadSafeQueue.stop. by destruct (stopped (server_queue s)).
    + apply Hmove. split; [done|]. by intros i [= <-].
  - specialize (Hwin ltac:(done) ltac:(done)).
    destruct (doomed_winner _ Hok n site _ Hwin Hn) as [_ Hi]. specialize (Hi i eq_refl). subst i.
    destruct (background s !! 0) as [[b|b m|]|] eqn:Eb; simplify_eq.
    + destruct (doomed_at_work _ Hok 0 _ Eb) as (_ & He & _). by destruct b.
    + case_decide; simplify_eq. apply (doomed_same s); eauto.
    + by destruct (doomed_at_work _ Hok 0 _ Eb).
    + apply lookup_ge_None in Eb. pose proof (doomed_workers _ Hok). destruct (background s); simpl in *; [done|lia].
  - done.
Qed.

Lemma doomed_step e s s' : step cfg e s = Some s' → doomed s → doomed s'.
Proof.
  intros Hstep Hok. pose proof (calls_ok_step cfg e s s' Hstep (doomed_calls _ Hok)) as Hc'.
  unfold step in Hstep. destruct (crashed s); [done|]. destruct e as [k| |o| |i|n site|n|].
  - simplify_eq. assert (forallb (λ b : background_thread T, match b with Joined => true | _ => false end)
      (background s) = false) as Hall.
    { pose proof (doomed_workers _ Hok). destruct (background s) as [|b bs] eqn:Eb; [done|].
      destruct (doomed_at_work _ Hok 0 b) as (Hb & _); [by rewrite Eb|]. by destruct b. }
    unfold launch in *. destruct (context_thread s); try by apply (doomed_same s); eauto.
    destruct (decide (k = 0)); [by apply (doomed_same s); eauto|]. cbn in *. rewrite Hall in *.
    by apply (doomed_same s); eauto.
  - destruct (context_thread s); try done. destruct (context_stopped s); simplify_eq.
    apply (doomed_same s); eauto.
  - destruct (context_thread s), o as [x|]; try done; simplify_eq; [|by apply (doomed_same s); eauto].
    unfold try_push_back, pre_addition_check_protocol in Hstep.
    repeat case_match; simplify_eq; apply (doomed_same s); eauto; cbn; intros _ [_ ?]%app_nil; done.
  - destruct (context_thread s); try done. destruct (context_stopped s); simplify_eq.
    apply (doomed_same s); eauto.
  - destruct (background s !! i) as [[b|b m|]|] eqn:Eb; try done.
    assert (loop_runs_derived (server_queue s) b && negb (derived_alive s) = true) as Hr.
    { rewrite (doomed_destroyed _ Hok). destruct (doomed_at_work _ Hok i _ Eb) as (_ & He & _).
      destruct b as [|task|]; cbn; [|done|done]. pose proof (doomed_work _ Hok).
      unfold empty. by destruct (dequeue (server_queue s)). }
    rewrite Hr in Hstep. simplify_eq. apply (doomed_same s); eauto.
  - destruct (stop_calls s !! n) eqn:En; [done|].
    assert (∀ m site' p1, winner s = Some m →
      <[n := (site, AtExchange)]> (stop_calls s) !! m = Some (site', p1) →
      (winner s = Some m ∧ stop_calls s !! m = Some (site', p1))
      ∨ (p1 ≠ StopReturned ∧ ∀ i, p1 = AtLoopJoin i → i = 0)) as Hcall.
    { intros m site' p1 Hw. destruct (decide (n = m)) as [<-|Hne].
      - rewrite lookup_insert_eq. intros [= <- <-]. by right.
      - rewrite lookup_insert_ne by done. by left. }
    destruct site as [| |i]; [simplify_eq; by apply (doomed_same s); eauto|..].
    + destruct (context_thread s); simplify_eq. apply (doomed_same s); eauto.
    + destruct (background s !! i) as [[b|b m|]|] eqn:Eb; try done.
      destruct (loop_ended b); simplify_eq.
      apply (doomed_thread s _ i b (Joinable b) (LoopStops b n)); try done. exists n, 0. auto.
  - destruct (stop_calls s !! n) as [[site p]|] eqn:En; [|done]. simpl in Hstep.
    by apply (doomed_stop_step n site p s).
  - simplify_eq. apply (doomed_same s); eauto. by rewrite (doomed_destroyed _ Hok).
Qed.

(** C31. A class derived from [request_server_base] has to stop the server in
    its own destructor: once its part of the object is destroyed while requests
    are queued and the queue is open, no call of [try_stop], the one in
    [~request_server_base] included, ever completes. *)
Theorem late_stop_never_completes k s s' :
  rtc (careful_step cfg) (new_server k) s →
  stopped (server_queue s) = false → dequeue (server_queue s) ≠ [] → background s ≠ [] →
  rtc (any_step cfg) (with_destroyed s) s' →
  winner_returned s' = false.
Proof.
  intros Hrun Hst Hq Hne Hrun'. destruct (drained_reachable k s Hrun) as [Hok Hd].
  assert (stage s < 4) as Hstage.
  { rewrite (queue_stop_done _ Hok) in Hst. apply bool_decide_eq_false in Hst. lia. }
  assert (doomed (with_destroyed s)) as Hdoomed.
  { split; try done.
    - by eapply calls_ok_congr; [..|apply Hok].
    - intros i b Hi. split_and!.
      + intros ->. apply (joined_by_winner _ Hok) in Hi. lia.
      + intros ->. destruct Hd as [? _]; [|done]. eexists i, _. split; [exact Hi|by right].
      + intros n ->. by apply (loop_never_stops _ Hok) in Hi.
    - intros n site p Hw Hn. unfold stage in Hstage. cbn in Hw, Hn. rewrite Hw, Hn in Hstage.
      destruct p; cbn in Hstage; split; try done; try lia; intros i [= <-]; lia. }
  assert (doomed s') as [_ _ _ _ _ Hwin].
  { apply (rtc_invariant (any_step cfg) doomed) with (with_destroyed s); [|done..].
    intros s1 s2 Hok1 (e & Hstep). by eapply doomed_step. }
  unfold winner_returned. destruct (winner s') as [n|] eqn:Ew; [|done].
  destruct (stop_calls s' !! n) as [[site p]|] eqn:En; [|done].
  destruct (Hwin n site p eq_refl En) as [Hp _]. by destruct p.
Qed.
End request_server.

(** ** The persistent server *)
Section persistent_server.
Context {T : Type} `{QueueSizeTraits T} (cfg : queue_config).
#[local] Instance the_update_thread : Loop T := update_thread cfg.

(** A persistent server drops packets when it stops: a packet that was
    received, and accepted by the queue, can still be in the queue, never
    processed, when [try_stop] has returned. *)
Theorem stopped_persistent_server_drops_packets (packet : T) :
  (pre_addition_check_protocol cfg packet new_queue).1 = true →
  ∃ s, rtc (careful_step cfg) (new_server 0) s ∧ winner_returned s = true ∧
    queued s = [packet] ∧ processed s = [] ∧ dequeue (server_queue s) = [packet].
Proof.
  intros Hadmit.
  assert (∃ q, try_push_back cfg packet new_queue = (true, q, NotifyOne) ∧
    dequeue q = [packet] ∧ stopped q = false) as (q & Hq & Hd & Hs).
  { unfold try_push_back. destruct (pre_addition_check_protocol cfg packet new_queue) as [b q] eqn:E.
    simpl in Hadmit. subst b. eexists. split; [done|]. revert E.
    unfold pre_addition_check_protocol. by repeat case_match; intros [= <-]. }
  destruct q as [l b bytes]. simpl in Hd, Hs. subst l b.
  apply (unfinished_work_stays cfg packet bytes (UpdateEnded : @loop_state T (update_thread cfg))); done.
Qed.
End persistent_server.

(** ** Witnesses *)
Section witnesses.
#[local] Existing Instance int_traits.

Definition no_limits : queue_config := bounded_config 0 0.
#[local] Instance int_workers : Loop Z := worker_loop no_limits.
#[local] Instance int_workers_laws : LoopLaws Z := worker_loop_laws no_limits.

(** A computed run, and a test of where it ends. *)
Lemma tested {A : Type} (o : option A) (test : A → bool) :
  from_option test false o = true → ∃ a, o = Some a ∧ test a = true.
Proof. destruct o as [a|]; [by exists a|done]. Qed.

Definition call_at (n : nat) (v : call_site * stop_point) (s : server_life Z) : bool :=
  bool_decide (stop_calls s !! n = Some v).

(** A server with one worker takes a request, is stopped, and the worker
    processes the request. *)
Definition stop_and_drain : list (event Z) :=
  [Launch 0; Dispatch; HandlerEnds (Some 7%Z); Call 0 Elsewhere; StopStep 0; StopStep 0; ContextReturns;
   StopStep 0; StopStep 0; LoopStep 0; LoopStep 0; LoopStep 0; StopStep 0; StopStep 0].

Definition stopped_server : option (server_life Z) :=
  careful_run no_limits stop_and_drain (new_server 1).

Definition nonempty {A : Type} (l : list A) : bool := match l with [] => false | _ => true end.

Lemma nonempty_true {A : Type} (l : list A) : nonempty l = true → l ≠ [].
Proof. by destruct l. Qed.

Lemma one_stop_at_a_time_witness :
  ∃ s, run no_limits [Call 3 Elsewhere; StopStep 3] (new_server 1) = Some s ∧ 3 = 3.
Proof.
  destruct (tested (run no_limits [Call 3 Elsewhere; StopStep 3] (new_server 1))
    (call_at 3 (Elsewhere, AtContextStop))) as (s & Hs & Ht); [by vm_compute|].
  apply bool_decide_eq_true in Ht. exists s. split; [exact Hs|].
  apply (one_stop_at_a_time no_limits 1 s 3 3 Elsewhere Elsewhere AtContextStop AtContextStop);
    [by eapply run_steps|exact Ht|exact Ht|..]; rewrite !not_elem_of_cons; by split_and!; [..|apply not_elem_of_nil].
Defined.

Lemma own_thread_stop_never_returns_witness :
  ∃ s, run no_limits [Launch 0; Dispatch; Call 0 OnContext; StopStep 0; StopStep 0] (new_server 1) = Some s
    ∧ AtContextJoin ≠ StopReturned.
Proof.
  destruct (tested (run no_limits [Launch 0; Dispatch; Call 0 OnContext; StopStep 0; StopStep 0] (new_server 1))
    (λ s, call_at 0 (OnContext, AtContextJoin) s && bool_decide (winner s = Some 0))) as (s & Hs & Ht);
    [by vm_compute|].
  apply andb_true_iff in Ht as [Hc%bool_decide_eq_true Hw%bool_decide_eq_true].
  exists s. split; [exact Hs|].
  apply (own_thread_stop_never_returns no_limits 1 s 0 OnContext AtContextJoin); [by eapply run_steps|done..].
Defined.

Lemma relaunched_server_is_never_joined_witness :
  ∃ s, stopped_server = Some s ∧ context_thread (launch 0 s) ≠ NoThread.
Proof.
  destruct (tested (run no_limits stop_and_drain (new_server 1))
    (λ s, winner_returned s && bool_decide (crashed s = None))) as (s & Hs & Ht); [by vm_compute|].
  apply andb_true_iff in Ht as [Hr Hc%bool_decide_eq_true].
  exists s. split; [rewrite <-Hs; by vm_compute|].
  apply (relaunched_server_is_never_joined no_limits 1 0 s (launch 0 s)); [by eapply run_steps|done..|apply rtc_refl].
Defined.

Lemma stopped_server_is_quiet_witness :
  ∃ s, stopped_server = Some s ∧ is_running s = false.
Proof.
  destruct (tested stopped_server winner_returned) as (s & Hs & Ht); [by vm_compute|].
  exists s. split; [exact Hs|].
  apply (stopped_server_is_quiet no_limits 1 s); [by eapply careful_run_steps|exact Ht].
Defined.


Lemma stopped_request_server_has_processed_everything_witness :
  ∃ s, stopped_server = Some s ∧ queued s ≡ₚ processed s.
Proof.
  destruct (tested stopped_server (λ s, winner_returned s && nonempty (background s))) as (s & Hs & Ht);
    [by vm_compute|].
  apply andb_true_iff in Ht as [Hr Hb%nonempty_true]. exists s. split; [exact Hs|].
  apply (stopped_request_server_has_processed_everything no_limits 1 s);
    [by eapply careful_run_steps|exact Hr|exact Hb].
Defined.

(** The requests are there when the derived part is destroyed, and the worker
    that takes one calls a pure virtual function. *)
Lemma late_stop_never_completes_witness :
  ∃ s s', careful_run no_limits [Launch 0; Dispatch; HandlerEnds (Some 7%Z)] (new_server 1) = Some s
    ∧ run no_limits [Call 0 Elsewhere; StopStep 0; LoopStep 0] (with_destroyed s) = Some s'
    ∧ crashed s' = Some DestroyedOverrider ∧ winner_returned s' = false.
Proof.
  destruct (tested (careful_run no_limits [Launch 0; Dispatch; HandlerEnds (Some 7%Z)] (new_server 1))
    (λ s, negb (stopped (server_queue s)) && nonempty (dequeue (server_queue s)) && nonempty (background s)
      && from_option (λ s', bool_decide (crashed s' = Some DestroyedOverrider)) false
           (run no_limits [Call 0 Elsewhere; StopStep 0; LoopStep 0] (with_destroyed s))))
    as (s & Hs & Ht); [by vm_compute|].
  apply andb_true_iff in Ht as [[[Hq%negb_true_iff Hd%nonempty_true]%andb_true_iff Hb%nonempty_true]%andb_true_iff Hr].
  apply tested in Hr as (s' & Hs' & Hc%bool_decide_eq_true). exists s, s'. split_and!; [done..|].
  apply (late_stop_never_completes no_limits 1 s s'); [by eapply careful_run_steps|exact Hq|exact Hd|exact Hb|].
  by eapply run_steps.
Defined.
End witnesses.

Lemma stopped_persistent_server_drops_packets_witness :
  ∃ s, rtc (@careful_step Z int_traits (@update_thread Z int_traits no_limits) no_limits)
         (@new_server Z (@update_thread Z int_traits no_limits) 0) s ∧ dequeue (server_queue s) = [7%Z].
Proof.
  destruct (@stopped_persistent_server_drops_packets Z int_traits no_limits 7%Z) as (s & Hs & _ & _ & _ & Hd);
    [reflexivity|]. by exists s.
Defined.
