(* ===== verification/Destruction.v ===== *)
(** * Destroying a server: the destructors of [server_base], [request_server_base],
    [persistent_server_base] and [thread_safe_queue]

    Each destructor of the servers calls [try_stop]; then its members are
    destroyed, in the reverse order of their declarations: a [std::thread] that
    is still joinable ends the program, and a queue is stopped.  The call of
    [try_stop] is an event of [Lifecycle]; here are the members, from the state
    in which that call has returned. *)
From S2P Require Import Prelude ThreadSafeQueue Lifecycle ServerLife.

Section destruction.
Context {T : Type} `{QueueSizeTraits T} `{Loop T}.
Implicit Types (s : server_life T) (q : queue T).

(** [~thread]: [std::terminate] ([None]) while it is joinable. *)
Definition destroy_thread (joinable : bool) s : option (server_life T) :=
  if joinable then None else Some s.

Definition thread_joinable (b : background_thread T) : bool :=
  match b with Joined => false | _ => true end.

Definition context_joinable s : bool :=
  match context_thread s with NoThread => false | _ => true end.

(** [workers], or [update_loop_thread]. *)
Definition destroy_background s : option (server_life T) :=
  destroy_thread (existsb thread_joinable (background s)) s.

(** [~thread_safe_queue() { stop(); }]. *)
Definition destroy_queue s : server_life T :=
  with_queue (ThreadSafeQueue.stop (server_queue s)).1 [] s.

(** [~server_base], where [stopping] is set, as it is since the destructor of the
    derived class: [try_stop] returns at once, and [context_thread] is destroyed. *)
Definition destroy_base s : option (server_life T) :=
  destroy_thread (context_joinable s) s.

(** [request_queue] is declared before [workers]; [ip_rate_limiter], which is
    declared last and destroyed first, is in [RateLimiter.v]. *)
Definition destroy_request_server s : option (server_life T) :=
  s ← destroy_background s; destroy_base (destroy_queue s).

(** [update_loop_thread] is declared before [incoming_packets_queue]. *)
Definition destroy_persistent_server s : option (server_life T) :=
  s ← destroy_background (destroy_queue s); destroy_base s.

Lemma destroy_queue_again s : stopped (server_queue s) = true → destroy_queue s = s.
Proof.
  unfold destroy_queue, with_queue, ThreadSafeQueue.stop. intros ->. rewrite app_nil_r. by destruct s.
Qed.

(** What is destroyed first makes no difference. *)
Lemma destruction_orders s : destroy_request_server s = destroy_persistent_server s.
Proof.
  unfold destroy_request_server, destroy_persistent_server, destroy_background, destroy_thread, destroy_queue.
  cbn. by destruct (existsb _ _).
Qed.

Lemma joined_not_joinable (bs : list (background_thread T)) :
  (∀ i b, bs !! i = Some b → b = Joined) → existsb thread_joinable bs = false.
Proof.
  intros Hall. apply not_true_iff_false. intros (b & [i Hi]%list_elem_of_In%list_elem_of_lookup & Hb)%existsb_exists.
  by rewrite (Hall i b Hi) in Hb.
Qed.

(** A joinable context thread ends the program. *)
Lemma running_context_terminates s : context_thread s ≠ NoThread → destroy_request_server s = None.
Proof.
  intros Hct. unfold destroy_request_server, destroy_background, destroy_thread.
  destruct (existsb _ _); [done|]. cbn. unfold destroy_base, destroy_thread, context_joinable. cbn.
  by destruct (context_thread s).
Qed.

Context `{!LoopLaws T} (cfg : queue_config).

(** The call that stops the server leaves [stopping] set. *)
Lemma returned_stopping k s :
  rtc (careful_step cfg) (new_server k) s → winner_returned s = true → stopping s = true.
Proof.
  intros Hok%life_ok_reachable Hret. rewrite (stopping_is_won _ (life_calls _ Hok)).
  unfold winner_returned in Hret. by destruct (winner s).
Qed.

(** C19. The destructors are safe for the thread that stopped the server: when
    its call of [try_stop] has returned, every member is destroyed without
    ending the program, and nothing of the server changes any more.  They are
    not safe for another thread: its call of [try_stop] can return while the
    first still works, and then destroying the threads ends the program. *)
Theorem destruction_is_safe_after_own_stop k :
  (∀ s, rtc (careful_step cfg) (new_server k) s → winner_returned s = true →
    stopping s = true ∧ destroy_request_server s = Some s ∧ destroy_persistent_server s = Some s)
  ∧ ∃ s, rtc (careful_step cfg) (new_server k) s ∧
      stop_calls s !! 1 = Some (Elsewhere, StopReturned) ∧ stopping s = true ∧
      destroy_request_server s = None ∧ destroy_persistent_server s = None.
Proof.
  split.
  - intros s Hrun Hret. split; [by eapply returned_stopping|]. rewrite <-destruction_orders.
    assert (destroy_request_server s = Some s) as E; [|by rewrite E].
    destruct (returned_server_at_rest cfg k s Hrun Hret) as (_ & _ & Hct & Hbg & Hq & _).
    unfold destroy_request_server, destroy_background. rewrite joined_not_joinable by done. cbn.
    rewrite destroy_queue_again by done. unfold destroy_base, context_joinable. by rewrite Hct.
  - destruct (second_stop_returns_early cfg k) as (s & Hrun & Hcall & Hst & _ & Hct & _).
    exists s. rewrite <-destruction_orders, running_context_terminates by congruence. by split_and!.
Qed.
End destruction.

(** ** Witness *)
Lemma destruction_is_safe_after_own_stop_witness :
  ∃ s, stopped_server = Some s ∧ @destroy_request_server Z int_workers s = Some s.
Proof.
  destruct (tested stopped_server winner_returned) as (s & Hs & Ht); [by vm_compute|].
  exists s. split; [exact Hs|].
  apply (@destruction_is_safe_after_own_stop Z int_traits int_workers int_workers_laws no_limits 1);
    [by eapply careful_run_steps|exact Ht].
Defined.
