(* ===== verification/ServerProgress.v ===== *)
(** * Progress of the request server

    [RequestServer] says what the responses are; this file says that they come:
    left to itself (no connection accepted, no request read), the server comes
    to rest after finitely many steps of its workers, strands and writes, and at
    rest every connection that has not ended has answered all its requests. *)
From S2P Require Import Prelude ThreadSafeQueue Doubles RateLimiter HttpMessages HttpConnection.
From S2P Require Import RequestServer.

Section progress.
Context `{HttpMessages} `{Double} (cfg : queue_config) (ip_limits : limits).
Context (worker_count : nat) (application : string → request → outcome response).
Implicit Types (s : server) (v : served) (c : http_connection).

(** The steps the server takes by itself, with its [worker_count] threads. *)
Definition own_event (e : server_event) : bool :=
  match e with
  | EvPop w => w <? worker_count
  | EvAnswer _ | EvStrand _ | EvWrite _ _ => true
  | EvAccept _ _ _ _ | EvRead _ _ | EvLeave _ => false
  end.

Definition own_step s s' : Prop :=
  ∃ e, own_event e = true ∧ run_event cfg ip_limits application e s = Some s'.

(** What [process_client_request] may return. *)
Definition answers (ip : string) (rq : request) (r : response) : Prop := application ip rq = Returns r.

Abbreviation server_step := (server_step answers cfg ip_limits).
Abbreviation server_ok := (server_ok answers).
Abbreviation server_reachable := (server_reachable answers cfg ip_limits).

Lemma own_step_server_step s s' : own_step s s' → server_step s s'.
Proof. intros (e & _ & He). eapply run_event_sound; [|exact He]. done. Qed.

(** ** The distance to rest *)
Definition connection_weight v : nat :=
  let c := connection v in
  3 * length (posted c) + base.size (responses c) + match in_flight c with Some _ => 1 | None => 0 end.

Definition server_weight s : nat :=
  5 * length (dequeue (request_queue s)) + 4 * base.size (workers s)
  + map_weight connection_weight (connections s).

(** ** One connection

    A connection whose writing has ended has been closed. *)
Definition closed_when_ended c : Prop := writing c = true → in_flight c = None → peer c = None.

Lemma write_effect c c' :
  write c = Returns c' → in_flight c = None →
  posted c' = posted c ∧ base.size (responses c') = base.size (responses c) ∧ closed_when_ended c'.
Proof.
  intros Hw Hf. destruct (write_cases c c' Hw) as [[_ ->]|(r & Hr & _ & ->)]; split_and!; try done.
  simpl. apply map_size_insert_Some. by eexists.
Qed.

Lemma emplace_size id r c : base.size (responses (emplace_response id r c)) ≤ S (base.size (responses c)).
Proof.
  destruct (emplace_response_cases id r c) as [[_ ->]|[Hn ->]]; simpl; [lia|].
  by rewrite map_size_insert_None.
Qed.

Lemma closure_progress c l p ps c' :
  conn_ok c → closed_when_ended c → posted c = p :: ps → run_closure p (with_posted ps c) = Returns c' →
  connection_weight (Served c' l) < connection_weight (Served c l) ∧ closed_when_ended c'.
Proof.
  intros Hc Hend Hp. rewrite run_closure_eq.
  destruct (emplaced_rest (with_posted ps c) (closure_answer p).1 (closure_answer p).2)
    as (Hp1 & _ & _ & Hwr1 & Hf1 & _ & _).
  assert (peer (emplace_response (closure_answer p).1 (closure_answer p).2 (with_posted ps c)) = peer c) as Hpe
    by (unfold emplace_response; by case_match).
  pose proof (emplace_size (closure_answer p).1 (closure_answer p).2 (with_posted ps c)) as Hsz.
  set (c1 := emplace_response _ _ _) in *. simpl in *. unfold connection_weight. simpl. rewrite Hp.
  unfold write_unless_writing. rewrite Hwr1. destruct (writing c) eqn:Ewr.
  - intros E. injection E as <-. rewrite Hp1, Hf1. simpl. split; [destruct (in_flight c); lia|].
    unfold closed_when_ended. rewrite Hf1, Hpe. intros _. by apply Hend.
  - destruct (idle_has_nothing c Hc Ewr) as [Hf0 _]. intros Hw.
    destruct (write_effect c1 c' Hw) as (Hp' & Hs' & He'); [by rewrite Hf1|].
    rewrite Hp', Hs', Hp1, Hf0. simpl. split; [|done]. destruct (in_flight c'); lia.
Qed.

Lemma wrote_progress c l failed c' :
  conn_ok c → is_Some (in_flight c) → on_write failed c = Returns c' →
  connection_weight (Served c' l) < connection_weight (Served c l) ∧ closed_when_ended c'.
Proof.
  intros Hc [r Hr] Hw. destruct (flight_is_next c Hc r Hr) as [_ Hnext].
  unfold on_write in Hw. rewrite Hr in Hw. unfold connection_weight. cbn [connection]. rewrite Hr.
  destruct failed; [injection Hw as <-; by split; [simpl; lia|]|].
  assert (base.size (delete (next_response_sequence_id c) (responses c)) < base.size (responses c)) as Hsz.
  { pose proof (map_size_delete_S (responses c) (next_response_sequence_id c) ltac:(by eexists)). lia. }
  destruct (keep_alive r).
  - destruct (write_effect _ _ Hw eq_refl) as (Hp' & Hs' & He'). rewrite Hp', Hs'. simpl.
    split; [|done]. destruct (in_flight c'); lia.
  - injection Hw as <-. simpl. split; [lia|done].
Qed.

Lemma on_read_ended k rq c q c' q' sig :
  closed_when_ended c → on_read cfg k rq c q = Returns (c', q', sig) → closed_when_ended c'.
Proof.
  intros Hend Hread. unfold on_read in Hread. destruct rq as [rq|]; [|by injection Hread as <- _ _].
  simpl in Hread. unfold get_client_ip in Hread. simpl in Hread.
  destruct (peer c) as [ip|] eqn:Hp; [|done]. simpl in Hread.
  assert (∀ c1, peer c1 = peer c → writing c1 = writing c → in_flight c1 = in_flight c → closed_when_ended c1) as Hsame.
  { intros c1 E1 E2 E3. unfold closed_when_ended. rewrite E1, E2, E3. exact Hend. }
  destruct (try_push_back_move _ _ _) as [[[[] q1] sig1] left]; injection Hread as <- _ _; by apply Hsame.
Qed.

(** ** The whole server *)
Definition ended_closed s : Prop := map_Forall (λ _ v, closed_when_ended (connection v)) (connections s).

Lemma ended_closed_insert s k v q ws ips :
  ended_closed s → closed_when_ended (connection v) →
  ended_closed (Server (<[k := v]> (connections s)) q ws ips).
Proof. intros Hs Hv. by apply map_Forall_insert_2. Qed.

Lemma ended_closed_step s s' : server_ok s → ended_closed s → server_step s s' → ended_closed s'.
Proof.
  intros Hs Hend Hstep.
  destruct Hstep as [failed peer now c ips' k s Hacc Hk|failed peer now ips' s _
    |k c l rq c' q' sig s Hk Hrd Hread|w task q' s Hw Hq|w task r c l s Hw Hans Hk|k c l p ps c' s Hk Hp Hc'
    |k c l failed c' s Hk Hf Hc'|k c l s Hk]; try done; apply ended_closed_insert; try done; simpl.
  - unfold on_accept in Hacc. destruct failed; [done|]. destruct peer as [ip|]; [|done].
    destruct (consume ip_limits ip d_one now (ip_rate_limiter s)) as [[] ips]; [|done].
    by injection Hacc as <- _.
  - eapply on_read_ended; [|exact Hread]. exact (Hend k _ Hk).
  - exact (Hend _ _ Hk).
  - apply (closure_progress c l p ps c'); try done; [|exact (Hend k _ Hk)].
    exact (served_conn_ok _ _ (all_served_ok _ _ Hs k _ Hk)).
  - apply (wrote_progress c l failed c'); try done.
    exact (served_conn_ok _ _ (all_served_ok _ _ Hs k _ Hk)).
Qed.

Lemma own_step_decreases s s' :
  server_ok s → ended_closed s → own_step s s' → server_weight s' < server_weight s.
Proof.
  intros Hs Hend (e & Hown & He). unfold server_weight.
  destruct e as [failed peer now k|k rq|w|w|k|k failed|k]; simpl in Hown, He; try done.
  - destruct (workers s !! w) eqn:Hw; [done|]. destruct (worker_takes cfg (request_queue s)) as [[task q']|] eqn:Hq; [|done].
    apply worker_takes_head in Hq. simplify_eq. simpl. rewrite Hq, map_size_insert_None by done. simpl. lia.
  - destruct (workers s !! w) as [task|] eqn:Hw; [|done].
    destruct (connections s !! task_connection task) as [[c l]|] eqn:Hk; [|done].
    destruct (application _ _) as [r| |]; simplify_eq. simpl.
    pose proof (map_weight_insert connection_weight _ _ _
      (Served (send_response r (task_sequence_id task) c) l) Hk) as Hm.
    assert (connection_weight (Served (send_response r (task_sequence_id task) c) l) = connection_weight (Served c l) + 3)
      as Hc by (unfold connection_weight; simpl; rewrite length_app; simpl; lia).
    pose proof (map_size_delete_S (workers s) w ltac:(by eexists)). lia.
  - destruct (connections s !! k) as [[c l]|] eqn:Hk; [|done]. destruct (posted c) as [|p ps] eqn:Hp; [done|].
    destruct (run_closure p (with_posted ps c)) as [c'| |] eqn:Hc; simplify_eq. simpl.
    pose proof (map_weight_insert connection_weight _ _ _ (Served c' l) Hk) as Hm.
    destruct (closure_progress c l p ps c') as [Hlt _]; try done; [..|lia].
    + exact (served_conn_ok _ _ (all_served_ok _ _ Hs k _ Hk)).
    + exact (Hend k _ Hk).
  - destruct (connections s !! k) as [[c l]|] eqn:Hk; [|done]. destruct (in_flight c) as [r|] eqn:Hf; [|done].
    destruct (on_write failed c) as [c'| |] eqn:Hc; simplify_eq. simpl.
    pose proof (map_weight_insert connection_weight _ _ _ (Served c' l) Hk) as Hm.
    destruct (wrote_progress c l failed c') as [Hlt _]; [| |done|lia].
    + exact (served_conn_ok _ _ (all_served_ok _ _ Hs k _ Hk)).
    + by rewrite Hf.
Qed.

(** No step reads a request. *)
Definition requests_of s : gmap nat (list (string * request)) := received <$> connections s.

Lemma requests_of_insert s k c c' l q ws ips :
  connections s !! k = Some (Served c l) →
  requests_of (Server (<[k := Served c' l]> (connections s)) q ws ips) = requests_of s.
Proof.
  intros Hk. unfold requests_of. simpl. rewrite fmap_insert. simpl. apply insert_id.
  by rewrite lookup_fmap, Hk.
Qed.

Lemma own_step_requests s s' : own_step s s' → requests_of s' = requests_of s.
Proof.
  intros (e & Hown & He).
  destruct e as [failed peer now k1|k1 rq|w|w|k1|k1 failed|k1]; simpl in Hown, He; try done;
    repeat case_match; simplify_eq; first [done|by eapply requests_of_insert].
Qed.

Lemma ids_fit_requests s s' : requests_of s' = requests_of s → ids_fit s → ids_fit s'.
Proof.
  intros Hreq Hfit k v Hk. apply (f_equal (lookup k)) in Hreq. unfold requests_of in Hreq.
  rewrite !lookup_fmap, Hk in Hreq. simpl in Hreq. destruct (connections s !! k) as [v0|] eqn:Hk0; [|done].
  injection Hreq as Hv. rewrite Hv. exact (Hfit k v0 Hk0).
Qed.

(** ** At rest *)
Definition at_rest s : Prop := ∀ s', ¬ own_step s s'.

Lemma worker_takes_nonempty (q : queue request_task) :
  dequeue q ≠ [] → is_Some (worker_takes cfg q).
Proof.
  intros Hq. unfold worker_takes. destruct (wait_and_pop_shape cfg q) as [[_ Hw]| ->].
  - by apply wait_ready_false in Hw as [_ ?].
  - destruct (wait_ready_shape cfg q) as [(task & q' & -> & _)|[? _]]; [by eexists|done].
Qed.

Context (application_returns : ∀ ip rq, ∃ r, application ip rq = Returns r).
Context (some_worker : 0 < worker_count).

Lemma rest_workers s : server_ok s → at_rest s → workers s = ∅.
Proof.
  intros Hs Hrest. apply map_empty. intros w. destruct (workers s !! w) as [task|] eqn:Hw; [exfalso|done].
  destruct (all_tasks_ok _ _ Hs task ltac:(right; by exists w)) as ([c l] & n & Hk & _).
  destruct (application_returns (task_client_ip task) (task_request task)) as [r Hr].
  eapply Hrest. exists (EvAnswer w). split; [done|]. simpl. by rewrite Hw, Hk, Hr.
Qed.

Lemma rest_queue s : server_ok s → at_rest s → dequeue (request_queue s) = [].
Proof.
  intros Hs Hrest. destruct (decide (dequeue (request_queue s) = [])) as [|Hne]; [done|exfalso].
  destruct (worker_takes_nonempty _ Hne) as [[task q'] Hq].
  eapply Hrest. exists (EvPop 0). split; [by apply Nat.ltb_lt|]. simpl.
  by rewrite (rest_workers s Hs Hrest), lookup_empty, Hq.
Qed.

Lemma rest_connection s k v :
  server_ok s → at_rest s → connections s !! k = Some v →
  posted (connection v) = [] ∧ in_flight (connection v) = None.
Proof.
  intros Hs Hrest Hk. pose proof (served_conn_ok _ _ (all_served_ok _ _ Hs k v Hk)) as Hc.
  destruct v as [c l]. simpl in *. split.
  - destruct (posted c) as [|p ps] eqn:Hp; [done|exfalso].
    assert (conn_ok (with_posted ps c)) as Hc' by (by apply (conn_ok_congr c)).
    destruct (write_unless_writing_ok (closure_answer p).1 (closure_answer p).2 _ Hc') as (c' & Hrun & _).
    eapply Hrest. exists (EvStrand k). split; [done|]. simpl. by rewrite Hk, Hp, run_closure_eq, Hrun.
  - destruct (in_flight c) as [r|] eqn:Hf; [exfalso|done].
    destruct (on_write_ok true c Hc ltac:(by eexists)) as (c' & Hrun & _).
    eapply Hrest. exists (EvWrite k true). split; [done|]. simpl. by rewrite Hk, Hf, Hrun.
Qed.

(** ** Runs *)
Record running_ok s : Prop := RunningOk {
  running_server_ok : server_ok s;
  running_ended : ended_closed s;
  running_fit : ids_fit s
}.

Lemma own_step_running s s' : running_ok s → own_step s s' → running_ok s'.
Proof.
  intros [Hs Hend Hfit] Hstep. pose proof (own_step_server_step s s' Hstep) as Hserver.
  assert (ids_fit s') as Hfit' by (by apply (ids_fit_requests s); [apply own_step_requests|]).
  split; [by apply (server_ok_step answers cfg ip_limits s)|by apply (ended_closed_step s)|done].
Qed.

Lemma own_run s s' : rtc own_step s s' → running_ok s → running_ok s' ∧ requests_of s' = requests_of s.
Proof.
  induction 1 as [s|s1 s2 s3 Hstep _ IH]; intros Hok; [done|].
  destruct (IH (own_step_running s1 s2 Hok Hstep)) as [Hok' ->]. split; [done|]. by apply own_step_requests.
Qed.

Lemma own_steps_accessible s : running_ok s → Acc (flip own_step) s.
Proof.
  remember (server_weight s) as n eqn:Hn. revert s Hn. induction (lt_wf n) as [n _ IH].
  intros s -> Hok. constructor. intros s' Hstep. unfold flip in Hstep.
  apply (IH (server_weight s')); [|done|by apply (own_step_running s)].
  apply own_step_decreases; [apply Hok..|done].
Qed.

Lemma server_reachable_running s : server_reachable s → ids_fit s → running_ok s.
Proof.
  intros Hr Hfit. split; [by apply (server_reachable_ok answers cfg ip_limits)| |done].
  revert Hfit. revert s Hr. refine (rtc_ind_r (λ x, ids_fit x → ended_closed x) initial_server _ _); [done|].
  intros s1 s2 Hrun Hstep IH Hfit2. pose proof (ids_fit_step answers cfg ip_limits s1 s2 Hstep Hfit2) as Hfit1.
  apply (ended_closed_step s1); [by apply (server_reachable_ok answers cfg ip_limits)|by apply IH|done].
Qed.
End progress.

(** ** Property *)

(** C2. The server answers.  Take any reachable state; from there on let only
    the server move: its worker threads (at least one), the strands, and the
    completion of writes, in any order.  Then only finitely many steps follow,
    and once none is left every connection has answered all the requests read
    on it, or has been closed because a write failed or a response did not keep
    it alive. *)
Theorem server_comes_to_rest `{HttpMessages} `{Double} (cfg : queue_config) (ip_limits : limits)
    (worker_count : nat) (application : string → request → outcome response) (s : server) :
  (∀ ip rq, ∃ r, application ip rq = Returns r) → 0 < worker_count →
  server_reachable (answers application) cfg ip_limits s → ids_fit s →
  let own_step := own_step cfg ip_limits worker_count application in
  Acc (flip own_step) s
  ∧ ∀ s', rtc own_step s s' → (∀ s'', ¬ own_step s' s'') →
      dequeue (request_queue s') = [] ∧ workers s' = ∅
      ∧ ∀ k v, connections s !! k = Some v →
          ∃ v', connections s' !! k = Some v' ∧ received v' = received v
            ∧ (length (wire (connection v')) = length (received v)
               ∨ (peer (connection v') = None ∧ writing (connection v') = true)).
Proof.
  intros Happ Hcount Hreach Hfit own_step.
  pose proof (server_reachable_running cfg ip_limits application s Hreach Hfit) as Hok.
  split; [by apply own_steps_accessible|]. intros s' Hrun Hrest.
  destruct (own_run cfg ip_limits worker_count application s s' Hrun Hok) as [Hok' Hreq].
  pose proof (running_server_ok _ _ Hok') as Hs'.
  pose proof (rest_queue cfg ip_limits worker_count application Happ Hcount s' Hs' Hrest) as Hq.
  pose proof (rest_workers cfg ip_limits worker_count application Happ s' Hs' Hrest) as Hw.
  split_and!; [done..|]. intros k v Hk. apply (f_equal (lookup k)) in Hreq.
  unfold requests_of in Hreq. rewrite !lookup_fmap, Hk in Hreq. simpl in Hreq.
  destruct (connections s' !! k) as [v'|] eqn:Hk'; [|done]. injection Hreq as Hv.
  exists v'. split_and!; [done..|].
  destruct (rest_connection cfg ip_limits worker_count application s' k v' Hs' Hrest Hk') as [Hp Hf].
  destruct (writing (connection v')) eqn:Hwr; [right; split; [|done]|left].
  - by apply (running_ended _ _ Hok' k v' Hk').
  - rewrite <-Hv. by apply (quiet_answered _ s' k v' Hs' (running_fit _ _ Hok')).
Qed.

(** ** Witness: three requests on two connections, two workers *)
Section witnesses.
#[local] Existing Instance PlainMessages.messages.
#[local] Existing Instance exact.

Definition busy_schedule : list server_event :=
  [EvAccept false (Some "10.0.0.1") 0 0; EvAccept false (Some "10.0.0.2") 0 1;
   EvRead 0 (Some (sample_request "a")); EvPop 0; EvRead 1 (Some (sample_request "b"))].

Lemma server_comes_to_rest_witness :
  length (dequeue (request_queue (after_schedule busy_schedule))) = 1 ∧
  let own_step := own_step small_queue default_ip_limits 2 shout in
  Acc (flip own_step) (after_schedule busy_schedule)
  ∧ ∀ s', rtc own_step (after_schedule busy_schedule) s' → (∀ s'', ¬ own_step s' s'') →
      dequeue (request_queue s') = [] ∧ workers s' = ∅
      ∧ ∀ k v, connections (after_schedule busy_schedule) !! k = Some v →
          ∃ v', connections s' !! k = Some v' ∧ received v' = received v
            ∧ (length (wire (connection v')) = length (received v)
               ∨ (peer (connection v') = None ∧ writing (connection v') = true)).
Proof.
  split; [vm_compute; reflexivity|].
  apply (server_comes_to_rest small_queue default_ip_limits 2 shout (after_schedule busy_schedule)).
  - intros ip rq. by eexists.
  - lia.
  - apply (after_schedule_reachable busy_schedule). vm_compute. reflexivity.
  - apply few_requests_fit. vm_compute. reflexivity.
Defined.
End witnesses.
