(* ===== verification/Admission.v ===== *)
(** * Admission to the request server

    What the constructor's arguments promise about the server as a whole:
    [ip_rate_limiter] bounds the connections accepted from an address, and
    [request_queue] the requests and the bytes that wait for a worker. *)
From S2P Require Import Prelude ThreadSafeQueue Doubles RateLimiter HttpMessages HttpConnection.
From S2P Require Import RequestServer.
From Stdlib Require Import QArith Lqa.
#[local] Close Scope Q_scope.

(** ** The default arguments *)
Definition DEFAULT_WORKER_THREAD_COUNT : nat := 4.
Definition DEFAULT_MAX_PENDING_REQUESTS : Z := 64 * 1024.
Definition DEFAULT_MAX_REQUEST_BYTES : Z := 64 * 1024 * 1024.

Definition default_request_queue : queue_config :=
  bounded_config DEFAULT_MAX_PENDING_REQUESTS DEFAULT_MAX_REQUEST_BYTES.

Lemma default_request_queue_wf : wf_config default_request_queue.
Proof. by split. Qed.

(** ** Accepting

    The completions of [async_accept] and the rounds of the cleanup thread, in
    the order in which they lock the limiter, each with the clock it reads.  A
    socket whose peer is gone makes [remote_endpoint] throw: the exception
    leaves [io_context::run], and nothing is accepted any more. *)
Section accepting.
Context `{HttpMessages} `{Double} (ip_limits : limits).

Inductive admission_event :=
  | Accepts (failed : bool) (peer : option string)
  | CleansUp.

(** The addresses of the connections started. *)
Fixpoint accept_all (es : list (Z * admission_event)) (ips : gmap string bucket) : list string :=
  match es with
  | [] => []
  | (now, Accepts failed peer) :: es' =>
      match on_accept ip_limits failed peer now ips with
      | Returns (Some c, ips') => option_list (HttpConnection.peer c) ++ accept_all es' ips'
      | Returns (None, ips') => accept_all es' ips'
      | _ => []
      end
  | (now, CleansUp) :: es' => accept_all es' (cleanup ip_limits now ips)
  end.

(** The calls of the limiter that the events make. *)
Fixpoint limiter_calls (es : list (Z * admission_event)) : list (Z * limiter_call) :=
  match es with
  | [] => []
  | (now, Accepts false (Some ip)) :: es' => (now, Consume ip d_one) :: limiter_calls es'
  | (now, Accepts false None) :: es' => []
  | (now, Accepts true _) :: es' => limiter_calls es'
  | (now, CleansUp) :: es' => (now, Cleanup) :: limiter_calls es'
  end.

Fixpoint events_from (start : Z) (es : list (Z * admission_event)) : Prop :=
  match es with
  | [] => True
  | (now, _) :: es' => (start ≤ now)%Z ∧ events_from now es'
  end.

Fixpoint events_end (start : Z) (es : list (Z * admission_event)) : Z :=
  match es with
  | [] => start
  | (now, _) :: es' => events_end now es'
  end.

Lemma clock_from_earlier (t0 t : Z) (cs : list (Z * limiter_call)) :
  (t0 ≤ t)%Z → clock_from t cs → clock_from t0 cs.
Proof. destruct cs as [|[now c] cs]; simpl; [done|]. intros ? [? ?]. split; [lia|done]. Qed.

Lemma events_end_later es t : events_from t es → (t ≤ events_end t es)%Z.
Proof.
  revert t. induction es as [|[now e] es IH]; intros t; simpl; [lia|].
  intros [Hle Hes%IH]. lia.
Qed.

Lemma limiter_calls_clock es t t' :
  (t' ≤ t)%Z → events_from t es →
  clock_from t' (limiter_calls es) ∧ (clock_end t' (limiter_calls es) ≤ events_end t es)%Z.
Proof.
  revert t t'. induction es as [|[now e] es IH]; intros t t' Ht; simpl; [done|]. intros [Hle Hes].
  pose proof (events_end_later es now Hes).
  destruct e as [[] [ip|]|]; simpl; try (apply IH; [lia|done]);
    try (split; [split; [lia|]|]; by apply (IH now now)).
  split; [done|lia].
Qed.
End accepting.

(** ** In exact arithmetic *)
Section exact_admission.
#[local] Existing Instance exact.
#[local] Open Scope Q_scope.
Context `{HttpMessages} (l : limits).

Definition accepted_from (ip : string) (accepted : list string) : Q :=
  inject_Z (zlen (filter (λ a, a = ip) accepted)).

(** What was accepted is what the limiter granted. *)
Lemma admit_granted ip es ips :
  accepted_from ip (accept_all l es ips) == granted_cost ip (limiter_run l (limiter_calls es) ips).1.
Proof.
  revert ips. induction es as [|[now e] es IH]; intros ips; [reflexivity|].
  destruct e as [[] [ip'|]|]; cbn [accept_all limiter_calls on_accept limiter_run limiter_step];
    try apply IH; try reflexivity.
  - destruct (consume l ip' d_one now ips) as [granted ips'] eqn:Hc. specialize (IH ips').
    destruct (limiter_run l (limiter_calls es) ips') as [log requests]. cbn [fst] in *.
    destruct granted; cbn; [|exact IH]. unfold accepted_from in *. rewrite filter_cons.
    destruct (decide (ip' = ip)); rewrite <-IH.
    + rewrite zlen_cons, inject_Z_plus. reflexivity.
    + symmetry. apply Qplus_0_l.
  - specialize (IH (cleanup l now ips)).
    destruct (limiter_run l (limiter_calls es) (cleanup l now ips)) as [log requests]. exact IH.
Qed.
End exact_admission.

(** ** Properties *)
Section properties.
#[local] Existing Instance exact.
#[local] Open Scope Q_scope.

End properties.

(** ** The request queue *)
Section waiting.
Context `{HttpMessages} `{Double} (process_client_request : string → request → response → Prop).
Context (cfg : queue_config) (Hcfg : wf_config cfg) (ip_limits : limits).
Implicit Types (s : server) (q : queue request_task).

Lemma on_read_within k rq c q c' q' sig :
  within_limits cfg q → on_read cfg k rq c q = Returns (c', q', sig) → within_limits cfg q'.
Proof.
  intros Hq Hread. unfold on_read in Hread. destruct rq as [rq|]; [|by injection Hread as _ <- _].
  simpl in Hread. destruct (get_client_ip _) as [ip| |]; try done. simpl in Hread.
  set (task := RequestTask _ _ _ _) in *.
  pose proof (call_within_limits cfg Hcfg (CallTryPushBack task) q eq_refl Hq) as Hpush.
  cbn [call] in Hpush. unfold try_push_back, try_push_back_move in *.
  destruct (pre_addition_check_protocol cfg task q) as [[] q1]; simpl in *.
  - by injection Hread as _ <- _.
  - by injection Hread as _ <- _.
Qed.

Lemma worker_takes_within q task q' :
  within_limits cfg q → worker_takes cfg q = Some (task, q') → within_limits cfg q'.
Proof.
  intros Hq Htake. pose proof (call_within_limits cfg Hcfg CallWaitAndPop q eq_refl Hq) as Hpop.
  unfold worker_takes in Htake. cbn [call] in Hpop.
  destruct (wait_and_pop cfg q) as [[[x|] q1]|]; by simplify_eq.
Qed.

Lemma server_queue_within s :
  server_reachable process_client_request cfg ip_limits s → within_limits cfg (request_queue s).
Proof.
  intros Hr. refine (rtc_invariant _ (λ x, within_limits cfg (request_queue x)) _ _ s Hr _);
    [|by apply within_limits_new].
  intros s1 s2 Hq Hstep. destruct Hstep; simpl in *; try done.
  - by eapply on_read_within.
  - by eapply worker_takes_within.
Qed.
End waiting.

(** C22. Whatever clients send and however slow the workers are, no more than
    [max_pending_requests] requests, with bodies of no more than
    [max_request_bytes] in all, ever wait in the queue of a request server, and
    its byte counter is exact. *)
Theorem request_queue_stays_bounded `{HttpMessages} `{Double}
    (process_client_request : string → request → response → Prop)
    (max_pending_requests max_request_bytes : Z) (ip_limits : limits) (s : server) :
  (0 < max_pending_requests < two64)%Z → (0 < max_request_bytes < two64)%Z →
  server_reachable process_client_request
    (bounded_config max_pending_requests max_request_bytes) ip_limits s →
  (zlen (dequeue (request_queue s)) ≤ max_pending_requests)%Z
  ∧ current_bytes (request_queue s)
      = zsum (λ task, u64 (Z.of_nat (String.length (request_body (task_request task)))))
          (dequeue (request_queue s))
  ∧ (current_bytes (request_queue s) ≤ max_request_bytes)%Z.
Proof.
  intros Hp Hb Hr. set (cfg := bounded_config max_pending_requests max_request_bytes) in *.
  assert (wf_config cfg) as Hcfg by (split; unfold is_u64; simpl; lia).
  destruct (server_queue_within process_client_request cfg Hcfg ip_limits s Hr) as [Hs Hbytes Ha].
  assert (size_limited cfg = true) as Hsl by (unfold size_limited; simpl; apply negb_true_iff, Z.eqb_neq; lia).
  assert (bytes_limited cfg = true) as Hbl by (unfold bytes_limited; simpl; apply negb_true_iff, Z.eqb_neq; lia).
  specialize (Hs Hsl). specialize (Hbytes Hbl). specialize (Ha Hbl).
  pose proof (total_bytes_nonneg (dequeue (request_queue s))) as Hnn. simpl in Hs, Hbytes.
  rewrite u64_small in Ha by (unfold is_u64; lia). rewrite Ha. by split_and!.
Qed.

(** ** Witnesses *)
Section witnesses.
#[local] Existing Instance PlainMessages.messages.
#[local] Existing Instance exact.
#[local] Open Scope Q_scope.

(** Three connections of one client within 3 ns, of a burst of two. *)
Definition tight_limits : limits := @Limits exact 2 1 120.

Definition three_accepts : list (Z * admission_event) :=
  [(1%Z, Accepts false (Some "10.0.0.1")); (2%Z, Accepts false (Some "10.0.0.1"));
   (3%Z, Accepts true None); (3%Z, CleansUp); (3%Z, Accepts false (Some "10.0.0.1"))].


#[local] Close Scope Q_scope.

Lemma request_queue_stays_bounded_witness :
  let s := after_schedule [EvAccept false (Some "10.0.0.1") 0 0; EvRead 0 (Some (sample_request "a"));
                           EvRead 0 (Some (sample_request "b"))] in
  zlen (dequeue (request_queue s)) = 1%Z
  ∧ ((zlen (dequeue (request_queue s)) ≤ 1)%Z
  ∧ current_bytes (request_queue s)
      = zsum (λ task, u64 (Z.of_nat (String.length (request_body (task_request task)))))
          (dequeue (request_queue s))
  ∧ (current_bytes (request_queue s) ≤ 1000)%Z).
Proof.
  intros s. split; [vm_compute; reflexivity|].
  apply (request_queue_stays_bounded shouts 1 1000 default_ip_limits s).
  - by vm_compute.
  - by vm_compute.
  - apply after_schedule_reachable. vm_compute. reflexivity.
Defined.
End witnesses.
