(* ===== verification/EchoServer.v ===== *)
(** * The echo server: [src/testing/servers/echo_server.hpp]

    An application of [request_server_base]: its [process_client_request]
    answers the body of the request in capitals.  The server it makes is
    [RequestServer] with this function as the application. *)
From S2P Require Import Prelude StringOps ThreadSafeQueue Doubles RateLimiter HttpMessages.
From S2P Require Import HttpConnection RequestServer.
From Stdlib Require Import Ascii.

(** ** [::toupper] on the characters of a string

    [char] is signed, and [toupper] is undefined for an argument that is neither
    [EOF] nor the value of an [unsigned char]. *)
Definition signed_char (c : ascii) : Z :=
  let n := Z.of_N (N_of_ascii c) in if (n <? 128)%Z then n else (n - 256)%Z.

Definition toupper (n : Z) : outcome Z :=
  if ((n <? -1) || (255 <? n))%Z then Undefined
  else if ((97 <=? n) && (n <=? 122))%Z then Returns (n - 32)%Z
  else Returns n.

(** The conversion of an [int] to [char]. *)
Definition char_of_int (n : Z) : ascii := ascii_of_N (Z.to_N (n mod 256)).

(** [std::transform(s.begin(), s.end(), s.begin(), ::toupper)]. *)
Fixpoint transform_toupper (s : string) : outcome string :=
  match s with
  | EmptyString => Returns EmptyString
  | String c s' =>
      let! n := toupper (signed_char c) in
      let! t := transform_toupper s' in
      Returns (String (char_of_int n) t)
  end.

Section echo_server.
Context `{HttpMessages}.

Definition process_client_request (client_ip : string) (rq : request) : outcome response :=
  let! text := transform_toupper (request_body rq) in
  let res := set_version (request_version rq) new_response in
  let res := set_result status_ok res in
  let res := set_field content_type "text/plain" res in
  let res := set_body text res in
  Returns (prepare_payload res).

(** The application as [RequestServer] has it. *)
Definition echo_answers (client_ip : string) (rq : request) (r : response) : Prop :=
  process_client_request client_ip rq = Returns r.
End echo_server.

(** ** Capitals *)

(** The characters [toupper] accepts: ASCII, and the byte that is [EOF]. *)
Definition echoable (c : ascii) : bool :=
  (N_of_ascii c <? 128)%N || (N_of_ascii c =? 255)%N.

Definition is_lower (c : ascii) : bool :=
  (97 <=? N_of_ascii c)%N && (N_of_ascii c <=? 122)%N.

Definition capital (c : ascii) : ascii :=
  if is_lower c then ascii_of_N (N_of_ascii c - 32) else c.

Fixpoint capitals (s : string) : string :=
  match s with
  | EmptyString => EmptyString
  | String c s' => String (capital c) (capitals s')
  end.

(** Checks a property of all 256 characters by evaluation. *)
Ltac all_characters := intros [[] [] [] [] [] [] [] []]; vm_compute; reflexivity.

Lemma toupper_capital c :
  (let! n := toupper (signed_char c) in Returns (char_of_int n))
  = if echoable c then Returns (capital c) else Undefined.
Proof. revert c. all_characters. Qed.

Lemma transform_toupper_spec s :
  transform_toupper s = if all_chars echoable s then Returns (capitals s) else Undefined.
Proof.
  induction s as [|c s IH]; [done|]. simpl. rewrite IH. pose proof (toupper_capital c) as Hc.
  destruct (toupper (signed_char c)) as [m|e|], (echoable c); try discriminate Hc; [|reflexivity].
  injection Hc as <-. simpl. destruct (all_chars echoable s); reflexivity.
Qed.

Lemma capitals_length s : String.length (capitals s) = String.length s.
Proof. induction s as [|c s IH]; [done|]. simpl. by rewrite IH. Qed.

(** ** Properties *)

(** [process_client_request] answers a request exactly when its body is made of
    characters [toupper] accepts; otherwise its behaviour is undefined.  The
    answer has status 200, the version of the request, and the body in
    capitals. *)
Theorem echo_answers_iff `{HttpMessagesLaws} (ip : string) (rq : request) :
  match process_client_request ip rq with
  | Returns r =>
      all_chars echoable (request_body rq) = true
      ∧ response_result r = status_ok ∧ response_version r = request_version rq
      ∧ response_field content_type r = Some "text/plain"
      ∧ response_body r = capitals (request_body rq)
  | Throws _ => False
  | Undefined => all_chars echoable (request_body rq) = false
  end.
Proof.
  unfold process_client_request. rewrite transform_toupper_spec.
  destruct (all_chars echoable (request_body rq)) eqn:Hb; [|done]. simpl.
  split_and!; by autorewrite with http.
Qed.

(** The echo server as a whole: in every reachable state, what a client reads as
    the [n]-th response is the body of its [n]-th request in capitals, with
    status 200, unless the request was refused by the full queue; then it is the
    overload response, and the last one. *)
Theorem echo_server_echoes_in_order `{HttpMessagesLaws} `{Double} (cfg : queue_config)
    (ip_limits : limits) (s : server) (k : nat) (v : served) (n : nat) (id : Z) (r : response) :
  server_reachable echo_answers cfg ip_limits s → ids_fit s →
  connections s !! k = Some v → wire (connection v) !! n = Some (id, r) →
  ∃ ip rq, received v !! n = Some (ip, rq)
    ∧ ((response_result r = status_ok ∧ response_body r = capitals (request_body rq))
       ∨ (response_result r = status_service_unavailable ∧ response_body r = "Server overloaded"
          ∧ S n = length (received v))).
Proof.
  intros Hr Hfit Hk Hn.
  pose proof (server_reachable_ok echo_answers cfg ip_limits s Hr Hfit) as Hs.
  destruct (served_wire _ _ (all_served_ok _ _ Hs k v Hk) n id r Hn) as (r0 & -> & ip & rq & Hrec & Ha).
  exists ip, rq. split; [done|]. destruct Ha as [Ha|(-> & Hlast & _)].
  - left. unfold echo_answers in Ha. pose proof (echo_answers_iff ip rq) as He. rewrite Ha in He.
    destruct He as (_ & Hres & _ & _ & Hb). by autorewrite with http.
  - right. unfold overload_response, set_response_server_overloaded. by autorewrite with http.
Qed.

(** ** Witness: two pipelined requests, answered in the opposite order *)
Section witnesses.
#[local] Existing Instance PlainMessages.messages.
#[local] Existing Instance PlainMessages.messages_laws.
#[local] Existing Instance exact.

Definition echo_schedule : list server_event :=
  [EvAccept false (Some "10.0.0.1") 0 0;
   EvRead 0 (Some (sample_request "hello")); EvPop 0;
   EvRead 0 (Some (sample_request "World 1z")); EvPop 1;
   EvAnswer 1; EvAnswer 0; EvStrand 0; EvStrand 0; EvWrite 0 false; EvWrite 0 false].

Definition echo_run : option server :=
  run_schedule small_queue default_ip_limits process_client_request echo_schedule initial_server.

Definition echoed : server := default initial_server echo_run.

Lemma echo_run_some : echo_run = Some echoed.
Proof.
  assert (match echo_run with Some _ => true | None => false end = true) as Hr
    by (vm_compute; reflexivity).
  unfold echoed. by destruct echo_run.
Qed.

Lemma echoed_reachable : server_reachable echo_answers small_queue default_ip_limits echoed.
Proof.
  apply (run_schedule_sound echo_answers small_queue default_ip_limits process_client_request
           ltac:(done) echo_schedule), echo_run_some.
Qed.

Lemma echo_server_echoes_in_order_witness :
  response_body (written_on echoed 0 1).2 = "WORLD 1Z"
  ∧ ∃ ip rq, received (served_on echoed 0) !! 1 = Some (ip, rq)
      ∧ ((response_result (written_on echoed 0 1).2 = status_ok
          ∧ response_body (written_on echoed 0 1).2 = capitals (request_body rq))
         ∨ (response_result (written_on echoed 0 1).2 = status_service_unavailable
            ∧ response_body (written_on echoed 0 1).2 = "Server overloaded"
            ∧ 2 = length (received (served_on echoed 0)))).
Proof.
  split; [vm_compute; reflexivity|].
  apply (echo_server_echoes_in_order small_queue default_ip_limits
           echoed 0 (served_on echoed 0) 1 (written_on echoed 0 1).1).
  - apply echoed_reachable.
  - apply few_requests_fit. vm_compute. reflexivity.
  - apply has_connection_lookup. vm_compute. reflexivity.
  - apply has_written_lookup. vm_compute. reflexivity.
Defined.

(** A body that is not ASCII. *)
Example echo_utf8_is_undefined :
  process_client_request "10.0.0.1"
    (sample_request (String (ascii_of_N 195) (String (ascii_of_N 169) EmptyString))) = Undefined.
Proof. reflexivity. Qed.
End witnesses.
