(* ===== verification/BoardFiles.v ===== *)
(** * The files of the boards

    Where an application keeps its boards ([file_helper::get_file_path] with the
    subdirectories that the headers of the boards name), and what happens when
    several boards are saved at the same time: [save] as the operations it
    performs on the file system, interleaved with those of other boards. *)
From S2P Require Import Prelude StringOps FileHelper Json.
From Stdlib Require Import Ascii.

(** ** Subdirectories *)
Inductive board_kind := LeaderboardFile | NameboardFile | ScoreStreamFile.

#[export] Instance board_kind_eq_dec : EqDecision board_kind.
Proof. solve_decision. Defined.

Definition LEADERBOARDS_SUBDIRECTORY_NAME : string := "leaderboards".
Definition NAMEBOARDS_SUBDIRECTORY_NAME : string := "nameboards".
Definition SCORE_STREAM_SUBDIRECTORY_NAME : string := "score-streams".

Definition subdirectory_name (kind : board_kind) : string :=
  match kind with
  | LeaderboardFile => LEADERBOARDS_SUBDIRECTORY_NAME
  | NameboardFile => NAMEBOARDS_SUBDIRECTORY_NAME
  | ScoreStreamFile => SCORE_STREAM_SUBDIRECTORY_NAME
  end.

(** ** [save] as operations on the file system *)
Section operations.
Context `{Json}.
Implicit Types (path p q : string) (fs : gmap string text).

(** A file gets new contents, is removed or renamed. *)
Inductive disk_op :=
  | Put (p : string) (t : text)
  | Remove (p : string)
  | Rename (p q : string).

Definition apply_op (o : disk_op) fs : gmap string text :=
  match o with
  | Put p t => <[p := t]> fs
  | Remove p => delete p fs
  | Rename p q => match fs !! p with Some t => <[q := t]> (delete p fs) | None => fs end
  end.

(** The file system after each operation, and after all. *)
Fixpoint states_of (os : list disk_op) fs : list (gmap string text) :=
  match os with
  | [] => []
  | o :: os' => apply_op o fs :: states_of os' (apply_op o fs)
  end.

Definition run_ops (os : list disk_op) fs : gmap string text := foldl (flip apply_op) fs os.

(** [catch (...)]. *)
Definition give_up_ops path (ev : disk_events) : list disk_op :=
  if remove_succeeds ev then [Remove (temp_path path)] else [].

(** [save], once the array [j] is built: the stream is opened with [trunc],
    drained and flushed, and the file renamed. *)
Definition save_ops path (j : json) (ev : disk_events) : list disk_op * bool :=
  if negb (open_succeeds ev) then ([], false)
  else
    let opening := Put (temp_path path) empty_text in
    match dump j with
    | None => (opening :: give_up_ops path ev, false)
    | Some t =>
        let draining := Put (temp_path path) <$> partial_contents ev in
        if negb (write_succeeds ev) then (opening :: draining, false)
        else
          let flushing := Put (temp_path path) t in
          if rename_succeeds ev then
            (opening :: draining ++ [flushing; Rename (temp_path path) path], true)
          else (opening :: draining ++ flushing :: give_up_ops path ev, false)
    end.

(** ** Saves at the same time

    A trace lists the operations of all boards in the order in which they
    happen, each with the number of its board. *)
Definition ops_of (i : nat) (trace : list (nat * disk_op)) : list disk_op :=
  (filter (λ e, e.1 = i) trace).*2.

Definition run_trace (trace : list (nat * disk_op)) fs : gmap string text := run_ops trace.*2 fs.

(** What is saved where, and what the disk does meanwhile. *)
Record save_job := SaveJob { job_path : string; job_json : json; job_disk : disk_events }.

Definition job_ops (job : save_job) : list disk_op * bool :=
  save_ops (job_path job) (job_json job) (job_disk job).

(** Every operation of the trace is the next one of one of the jobs. *)
Record trace_of (jobs : list save_job) (trace : list (nat * disk_op)) : Prop := TraceOf {
  trace_known e : e ∈ trace → is_Some (jobs !! e.1);
  trace_in_order i job : jobs !! i = Some job → ops_of i trace `prefix_of` (job_ops job).1
}.

(** The files an operation reads or changes. *)
Definition within path (o : disk_op) : Prop :=
  match o with
  | Put p _ | Remove p => p = path ∨ p = temp_path path
  | Rename p q => (p = path ∨ p = temp_path path) ∧ (q = path ∨ q = temp_path path)
  end.
End operations.

Section operation_lemmas.
Context `{Json}.
Implicit Types (path p q : string) (fs : gmap string text) (os : list disk_op).

Lemma run_ops_app os1 os2 fs : run_ops (os1 ++ os2) fs = run_ops os2 (run_ops os1 fs).
Proof. apply foldl_app. Qed.

Lemma states_of_app os1 os2 fs :
  states_of (os1 ++ os2) fs = states_of os1 fs ++ states_of os2 (run_ops os1 fs).
Proof.
  revert fs. induction os1 as [|o os1 IH]; intros fs; [done|]. simpl. f_equal. apply IH.
Qed.

(** Overwriting a file again and again. *)
Lemma overwrites p ts c fs :
  states_of (Put p <$> ts) (<[p := c]> fs) = (λ t, <[p := t]> fs) <$> ts
  ∧ ∃ c', run_ops (Put p <$> ts) (<[p := c]> fs) = <[p := c']> fs.
Proof.
  revert c. induction ts as [|t ts IH]; intros c; [by split; [|exists c]|].
  rewrite !fmap_cons. unfold run_ops in *. cbn [states_of foldl]. unfold flip at 2. cbn [apply_op].
  rewrite insert_insert_eq. destruct (IH t) as [-> [c' Hc]]. split; [done|]. by exists c'.
Qed.

(** The operations give the history that [save_json] lists. *)
Lemma save_ops_history path j ev fs :
  disk_history (save_json path j ev fs) = states_of (save_ops path j ev).1 fs
  ∧ saved (save_json path j ev fs) = (save_ops path j ev).2.
Proof.
  unfold save_json, save_ops. destruct (open_succeeds ev); [|done].
  assert (∀ fs', give_up_save path ev fs' = states_of (give_up_ops path ev) fs') as Hgive
    by (intros fs'; unfold give_up_save, give_up_ops; by destruct (remove_succeeds ev)).
  destruct (dump j) as [t|]; simpl; [|by rewrite Hgive].
  destruct (overwrites (temp_path path) (partial_contents ev) empty_text fs) as [Hd [c Hc]].
  destruct (write_succeeds ev); simpl; [|by rewrite Hd].
  assert (<[temp_path path := t]> (run_ops (Put (temp_path path) <$> partial_contents ev)
    (<[temp_path path := empty_text]> fs)) = <[temp_path path := t]> fs) as Hw
    by (by rewrite Hc, insert_insert_eq).
  destruct (rename_succeeds ev); simpl; rewrite states_of_app, Hd; simpl; rewrite Hw.
  - by rewrite lookup_insert_eq, delete_insert_eq.
  - by rewrite Hgive.
Qed.

Lemma save_ops_within path j ev : Forall (within path) (save_ops path j ev).1.
Proof.
  assert (Forall (within path) (give_up_ops path ev)) as Hg
    by (unfold give_up_ops; destruct (remove_succeeds ev); repeat constructor; by right).
  assert (Forall (within path) (Put (temp_path path) <$> partial_contents ev)) as Hd.
  { apply Forall_fmap, Forall_forall. intros t _. by right. }
  unfold save_ops. repeat case_match; cbn [fst]; rewrite ?Forall_cons, ?Forall_app, ?Forall_cons, ?Forall_nil;
    split_and?; simpl; auto.
Qed.

(** Two file systems that agree on a file and its temporary. *)
Definition agree path fs fs' : Prop :=
  fs !! path = fs' !! path ∧ fs !! temp_path path = fs' !! temp_path path.

Lemma agree_within path o fs fs' :
  within path o → agree path fs fs' → agree path (apply_op o fs) (apply_op o fs').
Proof.
  pose proof (temp_path_ne path) as Hne. unfold agree. intros Hw [E1 E2].
  destruct o as [p t|p|p q]; simpl in *.
  - destruct Hw as [-> | ->]; split; by rewrite ?lookup_insert_eq, ?lookup_insert_ne by done.
  - destruct Hw as [-> | ->]; split; by rewrite ?lookup_delete_eq, ?lookup_delete_ne by done.
  - assert (fs' !! p = fs !! p) as -> by (by destruct Hw as [[-> | ->] _]).
    destruct (fs !! p) as [t|]; [|done].
    destruct Hw as [[-> | ->] [-> | ->]]; split;
      by rewrite ?lookup_insert_eq, ?lookup_insert_ne, ?lookup_delete_eq, ?lookup_delete_ne by done.
Qed.

(** Two paths that no save confuses. *)
Definition apart p q : Prop := p ≠ q ∧ p ≠ temp_path q ∧ temp_path p ≠ q ∧ temp_path p ≠ temp_path q.

Lemma agree_apart path q o fs : within q o → apart path q → agree path (apply_op o fs) fs.
Proof.
  unfold agree. intros Hw (N1 & N2 & N3 & N4). destruct o as [p t|p|p p']; simpl in *.
  - destruct Hw as [-> | ->]; split; by rewrite lookup_insert_ne.
  - destruct Hw as [-> | ->]; split; by rewrite lookup_delete_ne.
  - destruct (fs !! p); [|done].
    destruct Hw as [[-> | ->] [-> | ->]]; split; by rewrite lookup_insert_ne, lookup_delete_ne by done.
Qed.

Lemma agree_trans path fs1 fs2 fs3 : agree path fs1 fs2 → agree path fs2 fs3 → agree path fs1 fs3.
Proof. unfold agree. intuition congruence. Qed.
End operation_lemmas.

(** ** Distinct boards have distinct files *)
Section paths.
Context {os : Type} (create_directories : string → os → option string * os).
Implicit Types (kind : board_kind) (name path : string).

(** [path] is the file that [get_file_path] gives for a board. *)
Definition board_path (parent : string) (kind : board_kind) name path : Prop :=
  ∃ o o', get_file_path_in_subdirectory create_directories parent (subdirectory_name kind) name o
    = (Returns path, o').

Lemma subdirectory_plain kind : plain_name (subdirectory_name kind).
Proof. by destruct kind; split. Qed.

Lemma subdirectory_name_inj kind1 kind2 :
  subdirectory_name kind1 = subdirectory_name kind2 → kind1 = kind2.
Proof. by destruct kind1, kind2. Qed.

Lemma board_path_join parent kind name path :
  board_path parent kind name path →
  plain_name (with_json_extension name) ∧ extension (with_json_extension name) = ".json"
  ∧ path = join (join parent (subdirectory_name kind)) (with_json_extension name).
Proof.
  intros (o & o' & Hp). unfold get_file_path_in_subdirectory in Hp.
  destruct (is_valid_filename name) eqn:Hv; [|done]. apply valid_plain, with_json_plain in Hv as [Hj Hx].
  destruct (create_directories _ o) as [[what|] o1]; [done|]. by injection Hp as <- <-.
Qed.

(** The last two names of the path of a board. *)
Lemma board_path_names parent kind name path :
  board_path parent kind name path →
  names path = names parent ++ [subdirectory_name kind; with_json_extension name]
  ∧ extension path = ".json" ∧ extension (temp_path path) = ".tmp".
Proof.
  intros (Hj & Hx & ->)%board_path_join. pose proof (subdirectory_plain kind) as Hs.
  set (directory := join parent (subdirectory_name kind)).
  destruct (join_parts directory (with_json_extension name)) as (Hn & _ & _ & Hf); [apply Hj..|].
  destruct (join_parts parent (subdirectory_name kind)) as (Hd & _ & _ & _); [apply Hs..|].
  split_and!.
  - unfold directory in *. by rewrite Hn, Hd, <-app_assoc.
  - unfold extension in *. rewrite Hf. by rewrite (filename_plain (with_json_extension name)) in Hx by apply Hj.
  - destruct Hj as [He _ Hsl _]. set (leaf := with_json_extension name) in *.
    assert (no_char "/" (leaf +:+ ".tmp") = true) as Hsl' by (by rewrite no_char_app, Hsl).
    assert (leaf +:+ ".tmp" ≠ EmptyString) as He' by (by destruct leaf).
    assert (temp_path (join directory leaf) = join directory (leaf +:+ ".tmp")) as ->.
    { unfold temp_path, join. rewrite !not_absolute by done.
      by case_bool_decide; rewrite string_app_assoc. }
    destruct (join_parts directory (leaf +:+ ".tmp")) as (_ & _ & _ & Hf'); [done..|].
    pose proof (extension_suffix leaf "tmp") as Ht. unfold extension in *.
    rewrite (filename_plain (leaf +:+ ".tmp")) in Ht by done. rewrite Hf'.
    apply Ht; [by rewrite no_char_app, Hsl|done..].
Qed.

Lemma temp_path_inj p q : temp_path p = temp_path q → p = q.
Proof. apply string_app_inj_r. Qed.

Lemma board_paths_apart parent kind1 name1 path1 kind2 name2 path2 :
  board_path parent kind1 name1 path1 → board_path parent kind2 name2 path2 →
  (kind1, with_json_extension name1) ≠ (kind2, with_json_extension name2) → apart path1 path2.
Proof.
  intros (Hn1 & Hx1 & Ht1)%board_path_names (Hn2 & Hx2 & Ht2)%board_path_names Hne.
  assert (path1 ≠ path2) as Hp.
  { intros ->. rewrite Hn1 in Hn2. apply app_inv_head in Hn2.
    injection Hn2 as Hk Hw. apply subdirectory_name_inj in Hk. congruence. }
  split_and!; [done|intros E..|by intros ?%temp_path_inj].
  - by rewrite E, Ht2 in Hx1.
  - by rewrite <-E, Ht1 in Hx2.
Qed.
End paths.

(** ** Interleaved saves *)
Section interleaved.
Context `{Json}.
Implicit Types (fs : gmap string text) (trace : list (nat * disk_op)) (jobs : list save_job).

Lemma save_json_states path j ev fs fs' :
  fs' ∈ disk_history (save_json path j ev fs) →
  fs' !! path = fs !! path ∨ (fs' !! path = dump j ∧ is_Some (dump j)).
Proof.
  pose proof (temp_path_ne path) as Hne. intros Hin.
  destruct (save_json_history path j ev fs) as [[_ Hh]|(_ & t & before & Ht & Heq & Hh)];
    rewrite Forall_forall in Hh.
  - left. by apply (Hh fs' Hin).
  - rewrite Heq in Hin. apply elem_of_app in Hin as [Hin|Hin%list_elem_of_singleton]; [left; by apply (Hh fs' Hin)|].
    right. by rewrite Hin, lookup_insert_eq, Ht.
Qed.

Lemma run_prefix (os os' : list disk_op) fs :
  os `prefix_of` os' → run_ops os fs = fs ∨ run_ops os fs ∈ states_of os' fs.
Proof.
  intros [rest ->]. rewrite states_of_app. revert fs.
  induction os as [|o os IH]; intros fs; [by left|]. right. simpl.
  destruct (IH (apply_op o fs)) as [E|Hin]; [|by right].
  unfold run_ops in *. simpl. unfold flip at 2. rewrite E. by left.
Qed.

Lemma last_states_of os fs : default fs (last (states_of os fs)) = run_ops os fs.
Proof.
  revert fs. induction os as [|o os IH]; intros fs; [done|].
  change (run_ops (o :: os) fs) with (run_ops os (apply_op o fs)). rewrite <-IH.
  cbn [states_of]. rewrite last_cons. by destruct (last (states_of os (apply_op o fs))).
Qed.

(** On its own files a board sees only its own operations. *)
Lemma run_trace_agree path i trace fs1 fs2 :
  (∀ e, e ∈ trace → if decide (e.1 = i) then within path e.2 else ∃ q, within q e.2 ∧ apart path q) →
  agree path fs1 fs2 → agree path (run_trace trace fs1) (run_ops (ops_of i trace) fs2).
Proof.
  revert fs1 fs2. induction trace as [|[k o] trace IH]; intros fs1 fs2 Hall Ha; [done|].
  pose proof (Hall (k, o) ltac:(left)) as Hko. simpl in Hko. unfold ops_of. rewrite filter_cons. simpl.
  destruct (decide (k = i)) as [->|Hne].
  - apply IH; [intros e He; apply Hall; by right|]. by apply agree_within.
  - apply IH; [intros e He; apply Hall; by right|]. destruct Hko as (q & Hq & Hap).
    eapply agree_trans; [by apply (agree_apart path q)|done].
Qed.
(** Every operation of a trace is on the files of its own job. *)
Lemma trace_within jobs trace k o job :
  trace_of jobs trace → jobs !! k = Some job → (k, o) ∈ trace → within (job_path job) o.
Proof.
  intros Htr Hk Hin. pose proof (trace_in_order _ _ Htr k job Hk) as [rest Hops].
  pose proof (save_ops_within (job_path job) (job_json job) (job_disk job)) as Hw.
  unfold job_ops in Hops. rewrite Hops in Hw. rewrite Forall_app, Forall_forall in Hw.
  apply (proj1 Hw). unfold ops_of. apply list_elem_of_fmap. exists (k, o). split; [done|].
  by apply list_elem_of_filter.
Qed.

(** A save that has come to any point has left its file or replaced it. *)
Lemma save_prefix_old_or_new (os : list disk_op) job fs :
  os `prefix_of` (job_ops job).1 →
  run_ops os fs !! job_path job = fs !! job_path job
  ∨ (run_ops os fs !! job_path job = dump (job_json job) ∧ is_Some (dump (job_json job))).
Proof.
  intros Hpre. destruct (run_prefix os (job_ops job).1 fs Hpre) as [->|Hin]; [by left|].
  unfold job_ops in Hin.
  rewrite <-(proj1 (save_ops_history (job_path job) (job_json job) (job_disk job) fs)) in Hin.
  by apply save_json_states in Hin.
Qed.

(** A save that is over has done what it returned. *)
Lemma save_complete job fs :
  if (job_ops job).2
  then run_ops (job_ops job).1 fs !! job_path job = dump (job_json job) ∧ is_Some (dump (job_json job))
  else run_ops (job_ops job).1 fs !! job_path job = fs !! job_path job.
Proof.
  unfold job_ops. rewrite <-last_states_of.
  destruct (save_ops_history (job_path job) (job_json job) (job_disk job) fs) as [<- <-].
  pose proof (temp_path_ne (job_path job)) as Hne.
  destruct (save_json_history (job_path job) (job_json job) (job_disk job) fs)
    as [[-> Hh]|(-> & t & before & Ht & Heq & _)].
  - destruct (last _) as [fs'|] eqn:E; simpl; [|done].
    rewrite Forall_forall in Hh. apply Hh; [by apply last_Some_elem_of|done].
  - rewrite Heq, last_snoc, Ht. simpl. by rewrite lookup_insert_eq.
Qed.
End interleaved.

(** ** Properties *)

(** A job that saves a board of the application. *)
Definition saves_board `{Json} {os : Type} (create_directories : string → os → option string * os)
    (parent : string) (board : board_kind * string) (job : save_job) : Prop :=
  board_path create_directories parent board.1 board.2 (job_path job).

(** The boards have no file in common. *)
Definition distinct_files (boards : list (board_kind * string)) : Prop :=
  NoDup ((λ b, (b.1, with_json_extension b.2)) <$> boards).

Lemma jobs_apart `{Json} {os : Type} (create_directories : string → os → option string * os)
    parent boards jobs i k job job' :
  Forall2 (saves_board create_directories parent) boards jobs → distinct_files boards →
  jobs !! i = Some job → jobs !! k = Some job' → k ≠ i → apart (job_path job) (job_path job').
Proof.
  intros Hboards Hdist Hi Hk Hne.
  destruct (Forall2_lookup_r _ _ _ _ _ Hboards Hi) as ([kind1 name1] & Hb1 & Hp1).
  destruct (Forall2_lookup_r _ _ _ _ _ Hboards Hk) as ([kind2 name2] & Hb2 & Hp2).
  apply (board_paths_apart create_directories parent kind1 name1 _ kind2 name2); [done..|].
  intros E. apply Hne. unfold distinct_files in Hdist. rewrite NoDup_alt in Hdist.
  apply (Hdist k i (kind1, with_json_extension name1)); rewrite list_lookup_fmap.
  - rewrite Hb2. simpl. by rewrite E.
  - by rewrite Hb1.
Qed.

(** C30. Boards can be saved at the same time.  Give the boards of an application
    their files by [get_file_path] in one directory, with names that do not
    differ in a [.json] only.  However the operations of their saves interleave,
    and wherever they stop, the file of each board is its old one or its
    complete new one; once a save is over it is the new one if [save] returned
    [true], and the old one if it returned [false]. *)
Theorem concurrent_saves_are_independent `{Json} {os : Type}
    (create_directories : string → os → option string * os) (parent : string)
    (boards : list (board_kind * string)) (jobs : list save_job) (trace : list (nat * disk_op))
    (fs : gmap string text) (i : nat) (job : save_job) :
  Forall2 (saves_board create_directories parent) boards jobs → distinct_files boards →
  trace_of jobs trace → jobs !! i = Some job →
  let fs' := run_trace trace fs in
  let path := job_path job in
  (fs' !! path = fs !! path ∨ (fs' !! path = dump (job_json job) ∧ is_Some (dump (job_json job))))
  ∧ (ops_of i trace = (job_ops job).1 →
     if (job_ops job).2 then fs' !! path = dump (job_json job) ∧ is_Some (dump (job_json job))
     else fs' !! path = fs !! path).
Proof.
  intros Hboards Hdist Htr Hi fs' path.
  assert (agree path fs' (run_ops (ops_of i trace) fs)) as [-> _].
  { apply run_trace_agree; [|done]. intros [k o] Hin. simpl.
    destruct (trace_known _ _ Htr _ Hin) as [job' Hk]. simpl in Hk.
    pose proof (trace_within jobs trace k o job' Htr Hk Hin) as Hw.
    case_decide as Hki; [by simplify_eq|]. exists (job_path job'). split; [done|].
    by eapply jobs_apart. }
  pose proof (trace_in_order _ _ Htr i job Hi) as Hpre. split.
  - by apply save_prefix_old_or_new.
  - intros ->. by apply save_complete.
Qed.

(** Two boards whose names differ in a [.json] have one file and one temporary,
    and a save that returns [true] can leave an empty file behind: the other
    board truncated the temporary before it was renamed. *)
Theorem colliding_saves_leave_an_empty_file `{Json} {os : Type}
    (create_directories : string → os → option string * os) (parent : string) (kind : board_kind)
    (name path : string) (j1 j2 : json) (t1 t2 : text) (fs : gmap string text) :
  board_path create_directories parent kind name path → extension name ≠ ".json" →
  dump j1 = Some t1 → dump j2 = Some t2 →
  let job1 := SaveJob path j1 quiet_disk in
  let job2 := SaveJob path j2 quiet_disk in
  board_path create_directories parent kind (name +:+ ".json") path
  ∧ ∃ trace, trace_of [job1; job2] trace ∧ ops_of 0 trace = (job_ops job1).1
      ∧ (job_ops job1).2 = true ∧ run_trace trace fs !! path = Some empty_text.
Proof.
  intros (o & o' & Hp) Hx Ht1 Ht2 job1 job2. split.
  - exists o, o'. unfold get_file_path_in_subdirectory in *.
    destruct (is_valid_filename name) eqn:Hv; [|done]. apply valid_plain in Hv as Hn.
    assert (with_json_extension name = name +:+ ".json") as Hw
      by (unfold with_json_extension; by rewrite bool_decide_eq_false_2).
    destruct (with_json_plain name Hn) as [Hj Hjx]. rewrite Hw in Hj, Hjx, Hp.
    rewrite (proj2 (valid_plain _) Hj).
    replace (with_json_extension (name +:+ ".json")) with (name +:+ ".json")
      by (unfold with_json_extension; by rewrite Hjx, bool_decide_eq_true_2).
    by destruct (create_directories _ o) as [[what|] o1].
  - set (tmp := temp_path path).
    exists [(0, Put tmp empty_text); (0, Put tmp t1); (1, Put tmp empty_text); (0, Rename tmp path)].
    assert ((job_ops job1).1 = [Put tmp empty_text; Put tmp t1; Rename tmp path]
      ∧ (job_ops job1).2 = true) as [E1 E1'] by (unfold job_ops, save_ops; simpl; by rewrite Ht1).
    assert ((job_ops job2).1 = [Put tmp empty_text; Put tmp t2; Rename tmp path]) as E2
      by (unfold job_ops, save_ops; simpl; by rewrite Ht2).
    split_and!; [split|by rewrite E1|done|].
    + intros e He. rewrite !elem_of_cons in He. destruct He as [->|[->|[->|[->|[]%elem_of_nil]]]]; by eexists.
    + intros [|[|i]] job Hi; simplify_eq/=; [by rewrite E1|rewrite E2; by eexists].
    + unfold run_trace, run_ops. simpl. by rewrite lookup_insert_eq, lookup_insert_eq.
Qed.

(** ** Witnesses

    A leaderboard and a nameboard of the same name are saved at the same time;
    the nameboard's save is interrupted. *)
Section witnesses.
#[local] Existing Instance PlainJson.plain_json.

Definition no_rows : json := PlainJson.VArray [].
Definition one_row : json := PlainJson.VArray [PlainJson.VInt 1].

Definition two_boards : list (board_kind * string) :=
  [(LeaderboardFile, "global"); (NameboardFile, "global")].

Definition two_jobs : list save_job :=
  [SaveJob "/srv/leaderboards/global.json" no_rows quiet_disk;
   SaveJob "/srv/nameboards/global.json" one_row quiet_disk].

Definition interleaved_trace : list (nat * disk_op) :=
  [(0, Put "/srv/leaderboards/global.json.tmp" empty_text);
   (1, Put "/srv/nameboards/global.json.tmp" empty_text);
   (0, Put "/srv/leaderboards/global.json.tmp" no_rows);
   (1, Put "/srv/nameboards/global.json.tmp" one_row);
   (0, Rename "/srv/leaderboards/global.json.tmp" "/srv/leaderboards/global.json")].

Lemma two_boards_saved : Forall2 (saves_board make_directory "/srv") two_boards two_jobs.
Proof. repeat constructor; by exists []; eexists. Qed.

Lemma two_boards_distinct : distinct_files two_boards.
Proof. apply NoDup_cons. split; [|apply NoDup_singleton]. by intros [= ]%list_elem_of_singleton. Qed.

Lemma interleaved_trace_of : trace_of two_jobs interleaved_trace.
Proof.
  split.
  - unfold interleaved_trace. intros e He. rewrite !elem_of_cons in He.
    destruct He as [->|[->|[->|[->|[->|[]%elem_of_nil]]]]]; by eexists.
  - intros [|[|i]] job Hi; simplify_eq/=; by eexists.
Qed.

Lemma concurrent_saves_are_independent_witness :
  let fs' := run_trace interleaved_trace ∅ in
  let path := "/srv/leaderboards/global.json" in
  (fs' !! path = (∅ : gmap string text) !! path
   ∨ (fs' !! path = dump no_rows ∧ is_Some (dump no_rows)))
  ∧ (ops_of 0 interleaved_trace = (job_ops (SaveJob path no_rows quiet_disk)).1 →
     fs' !! path = dump no_rows ∧ is_Some (dump no_rows)).
Proof.
  apply (concurrent_saves_are_independent make_directory "/srv" two_boards two_jobs interleaved_trace ∅ 0
           (SaveJob "/srv/leaderboards/global.json" no_rows quiet_disk)).
  - apply two_boards_saved.
  - apply two_boards_distinct.
  - apply interleaved_trace_of.
  - reflexivity.
Defined.

Lemma colliding_saves_leave_an_empty_file_witness :
  board_path make_directory "/srv" LeaderboardFile "top.json" "/srv/leaderboards/top.json".
Proof.
  apply (colliding_saves_leave_an_empty_file make_directory "/srv" LeaderboardFile "top"
           "/srv/leaderboards/top.json" no_rows no_rows
           no_rows no_rows ∅).
  - by exists []; eexists.
  - by vm_compute.
  - reflexivity.
  - reflexivity.
Defined.
End witnesses.
