(* ===== verification/UpdateLoop.v ===== *)
(** * The frames of the update thread: [persistent_server_base::launch]

    One iteration of the loop reads the clock, calls [update], reads the clock
    again and sleeps for what is left of the frame time.  The times are the
    nanoseconds of [steady_clock]; the frame time is a [Double] (the code has
    [float]).  How long [update] takes, and by how much [sleep_for] oversleeps,
    is arbitrary. *)
From S2P Require Import Prelude Doubles.
From Stdlib Require Import QArith Lqa.

Section frames.
Context `{Double}.

(** [if (elapsed < frame_duration) sleep_for(frame_duration - elapsed)]. *)
Definition frame_sleep (fixed_delta_time : double) (frame_start frame_end : Z) : option double :=
  let elapsed := d_seconds (frame_end - frame_start) in
  if d_ltb elapsed fixed_delta_time then Some (d_sub fixed_delta_time elapsed) else None.

(** A frame: when it starts and when [update] has returned.  The next one starts
    after the sleep, which lasts at least as long as it was asked to. *)
Record frame := Frame { frame_start : Z; frame_end : Z }.

Definition next_frame (fixed_delta_time : double) (f g : frame) : Prop :=
  (frame_start f ≤ frame_end f)%Z ∧ (frame_end f ≤ frame_start g)%Z ∧
  match frame_sleep fixed_delta_time (frame_start f) (frame_end f) with
  | Some pause => d_leb pause (d_seconds (frame_start g - frame_end f)) = true
  | None => True
  end.

Inductive frames (fixed_delta_time : double) : list frame → Prop :=
  | frames_one f : frames fixed_delta_time [f]
  | frames_next f g fs :
      next_frame fixed_delta_time f g → frames fixed_delta_time (g :: fs) →
      frames fixed_delta_time (f :: g :: fs).
End frames.

(** ** Exact arithmetic *)
Section exact_frames.
Implicit Types (delta : Q) (f g : frame).

Lemma seconds_add (a b : Z) : (@d_seconds exact (a + b) == @d_seconds exact a + @d_seconds exact b)%Q.
Proof. unfold Qeq, Qplus. cbn. rewrite Pos2Z.inj_mul. ring. Qed.

(** A frame lasts at least the frame time. *)
Lemma frame_lasts delta f g :
  @next_frame exact delta f g → (delta <= @d_seconds exact (frame_start g - frame_start f))%Q.
Proof.
  unfold next_frame, frame_sleep. intros (_ & Hge & Hsleep).
  set (elapsed := @d_seconds exact (frame_end f - frame_start f)) in *.
  assert (@d_seconds exact (frame_start g - frame_start f)
    == elapsed + @d_seconds exact (frame_start g - frame_end f))%Q as ->.
  { unfold elapsed. rewrite <-seconds_add. by replace (frame_end f - frame_start f + (frame_start g - frame_end f))%Z
      with (frame_start g - frame_start f)%Z by lia. }
  change (@d_ltb exact elapsed delta) with (negb (Qle_bool delta elapsed)) in Hsleep.
  destruct (Qle_bool delta elapsed) eqn:E; simpl in Hsleep.
  - apply Qle_bool_iff in E.
    assert (0 <= @d_seconds exact (frame_start g - frame_end f))%Q by (unfold Qle; cbn; lia).
    lra.
  - apply Qle_bool_iff in Hsleep. change (@d_sub exact delta elapsed) with (delta - elapsed)%Q in Hsleep.
    cbn in *. lra.
Qed.

Definition first_start (fs : list frame) : Z := match fs with f :: _ => frame_start f | [] => 0 end.
Definition last_start (fs : list frame) : Z := match last fs with Some f => frame_start f | None => 0 end.

Lemma frames_last f g fs : last_start (f :: g :: fs) = last_start (g :: fs).
Proof. reflexivity. Qed.

End exact_frames.

