(* ===== verification/ServerShutdown.v ===== *)
(** * Stopping the request server

    [request_server_base::stop] composed with the connections, the queue and
    the workers of [RequestServer]: first the [io_context] is stopped and its
    thread joined, then the queue is stopped, then the workers are joined.
    [Lifecycle] has the calls of [stop] and their threads for any server; here
    the handlers and the workers are the real ones. *)
From S2P Require Import Prelude ThreadSafeQueue Doubles RateLimiter HttpMessages HttpConnection.
From S2P Require Import RequestServer.

Section shutdown.
Context `{HttpMessages} `{Double} (cfg : queue_config) (ip_limits : limits).
Context (worker_count : nat) (application : string → request → outcome response).

(** A server, whether [server_base::stop] has returned, and the workers whose
    [worker_loop] has returned. *)
Record running_server := Running { state : server; context_ended : bool; returned : gset nat }.
Implicit Types (s : server) (x : running_server) (v : served) (c : http_connection).

Definition initial_running : running_server := Running initial_server false ∅.

Inductive system_event :=
  | ServerDoes (e : server_event)
  (** [asio_context.stop(); join_context_thread();] *)
  | ContextStops
  (** [request_queue.stop();] *)
  | QueueStops
  (** [worker_loop] of this worker gets [std::nullopt] and returns. *)
  | WorkerReturns (w : nat).

(** The thread that runs this event is still there. *)
Definition thread_runs (e : server_event) x : bool :=
  match e with
  | EvAccept _ _ _ _ | EvRead _ _ | EvStrand _ | EvWrite _ _ => negb (context_ended x)
  | EvPop w => (w <? worker_count) && bool_decide (w ∉ returned x)
  | EvAnswer _ | EvLeave _ => true
  end.

Definition with_queue (q : queue request_task) s : server :=
  Server (connections s) q (workers s) (ip_rate_limiter s).

Definition system_step (e : system_event) x : option running_server :=
  match e with
  | ServerDoes e =>
      if thread_runs e x then
        match run_event cfg ip_limits application e (state x) with
        | Some s' => Some (Running s' (context_ended x) (returned x))
        | None => None
        end
      else None
  | ContextStops =>
      if context_ended x then None else Some (Running (state x) true (returned x))
  | QueueStops =>
      if context_ended x && negb (stopped (request_queue (state x))) then
        Some (Running (with_queue (stop (request_queue (state x))).1 (state x))
          (context_ended x) (returned x))
      else None
  | WorkerReturns w =>
      if (w <? worker_count) && bool_decide (w ∉ returned x) then
        match workers (state x) !! w, wait_and_pop cfg (request_queue (state x)) with
        | None, Some (None, q') =>
            Some (Running (with_queue q' (state x)) (context_ended x) ({[w]} ∪ returned x))
        | _, _ => None
        end
      else None
  end.

Definition any_step x x' : Prop := ∃ e, system_step e x = Some x'.

Fixpoint run_system (es : list system_event) x : option running_server :=
  match es with
  | [] => Some x
  | e :: es' => match system_step e x with Some x1 => run_system es' x1 | None => None end
  end.

Lemma run_system_steps es x x' : run_system es x = Some x' → rtc any_step x x'.
Proof.
  revert x. induction es as [|e es IH]; intros x; simpl; [by intros [= ->]|].
  destruct (system_step e x) as [x1|] eqn:E; [|done]. intros Hrun.
  eapply rtc_l; [by exists e|by apply IH].
Qed.

(** What is left to do once the context has ended: the rest of [stop] and of
    the worker threads. *)
Definition shutdown_event (e : system_event) : bool :=
  match e with
  | ServerDoes (EvPop _) | ServerDoes (EvAnswer _) | QueueStops | WorkerReturns _ => true
  | _ => false
  end.

Definition shutdown_step x x' : Prop :=
  ∃ e, shutdown_event e = true ∧ system_step e x = Some x'.

Abbreviation answers := (λ ip rq r, application ip rq = Returns r).
Abbreviation server_ok := (server_ok answers).

(** ** Invariant *)
Record system_ok x : Prop := SystemOk {
  system_server : ids_fit (state x) → server_ok (state x);
  queue_after_context : stopped (request_queue (state x)) = true → context_ended x = true;
  return_after_drain w : w ∈ returned x →
    stopped (request_queue (state x)) = true ∧ dequeue (request_queue (state x)) = []
}.

Lemma server_ok_with_queue q s :
  dequeue q = dequeue (request_queue s) → server_ok s → server_ok (with_queue q s).
Proof.
  intros Hq [Hv Ht Ha].
  assert (∀ task, outstanding (with_queue q s) task ↔ outstanding s task) as Hout
    by (intros task; unfold outstanding; simpl; by rewrite Hq).
  split; [done| |].
  - intros task Htask. apply Hout in Htask. exact (Ht task Htask).
  - intros k v n Hk Hn. destruct (Ha k v n Hk Hn) as [(task & Ht' & ?)|?]; [left|by right].
    exists task. by rewrite Hout.
Qed.

Lemma worker_takes_shape q task q' :
  worker_takes cfg q = Some (task, q') → dequeue q = task :: dequeue q' ∧ stopped q' = stopped q.
Proof.
  unfold worker_takes. destruct (wait_and_pop_shape cfg q) as [[-> _]| ->]; [done|].
  destruct (wait_ready_shape cfg q) as [(t & q1 & -> & Hd & Hs)|[_ ->]]; [|done].
  by intros [= -> ->].
Qed.

Lemma try_push_back_move_stopped (item : request_task) (q : queue request_task) pushed q' sig left :
  try_push_back_move cfg item q = (pushed, q', sig, left) → stopped q' = stopped q.
Proof.
  unfold try_push_back_move, pre_addition_check_protocol. intros E.
  repeat case_match; by simplify_eq.
Qed.

Lemma run_event_stopped e s s' :
  run_event cfg ip_limits application e s = Some s' →
  stopped (request_queue s') = stopped (request_queue s).
Proof.
  destruct e as [failed peer now k|k rq|w|w|k|k failed|k]; simpl; intros Hrun;
    try (repeat case_match; by simplify_eq).
  - destruct (connections s !! k) as [[c l]|]; [|done]. destruct (reading c); [|done].
    destruct (on_read cfg k rq c (request_queue s)) as [[[c' q'] sig]| |] eqn:E; simplify_eq. simpl.
    unfold on_read in E. destruct rq as [rq|]; [|by injection E as _ <- _].
    simpl in E. destruct (get_client_ip _) as [ip| |]; [|done..]. simpl in E.
    destruct (try_push_back_move cfg _ _) as [[[pushed q1] sig1] left] eqn:Eq.
    apply try_push_back_move_stopped in Eq. destruct pushed; by injection E as _ <- _.
  - destruct (workers s !! w); [done|].
    destruct (worker_takes cfg (request_queue s)) as [[task q']|] eqn:E; [|done].
    injection Hrun as <-. simpl. by apply worker_takes_shape in E as [_ ?].
Qed.

(** With the context ended, only taking a task changes the queue. *)
Lemma idle_queue e x s' :
  context_ended x = true → thread_runs e x = true →
  run_event cfg ip_limits application e (state x) = Some s' →
  dequeue (request_queue (state x)) = [] → dequeue (request_queue s') = [].
Proof.
  intros Hend Hruns Hrun Hq.
  destruct e as [failed peer now k|k rq|w|w|k|k failed|k]; simpl in Hruns, Hrun;
    rewrite ?Hend in Hruns; try done; [|repeat case_match; by simplify_eq..].
  destruct (workers (state x) !! w); [done|].
  destruct (worker_takes cfg (request_queue (state x))) as [[task q']|] eqn:E; [|done].
  apply worker_takes_shape in E as [E _]. congruence.
Qed.

Lemma system_ok_event e x s' :
  thread_runs e x = true → run_event cfg ip_limits application e (state x) = Some s' →
  system_ok x → system_ok (Running s' (context_ended x) (returned x)).
Proof.
  intros Hruns Hrun [Hs Hq Hret]. pose proof (run_event_stopped e _ _ Hrun) as Hst.
  assert (server_step answers cfg ip_limits (state x) s') as Hstep
    by (eapply run_event_sound; [|exact Hrun]; done).
  split; simpl.
  - intros Hfit. eapply server_ok_step; [|exact Hfit|exact Hstep].
    apply Hs. by eapply ids_fit_step.
  - rewrite Hst. apply Hq.
  - intros w Hw. destruct (Hret w Hw) as [Hstop Hnil]. rewrite Hst. split; [done|].
    eapply idle_queue; eauto.
Qed.

Lemma returns_only_when_drained q q' :
  wait_and_pop cfg q = Some (None, q') → q' = q ∧ stopped q = true ∧ dequeue q = [].
Proof.
  unfold wait_and_pop. destruct (wait_ready q) eqn:Hr; [|done].
  destruct (wait_ready_shape cfg q) as [(t & q1 & -> & _)|[Hd ->]]; [done|].
  intros [= <-]. split_and!; [done| |done]. unfold wait_ready, empty in Hr. rewrite Hd in Hr.
  by rewrite orb_false_r in Hr.
Qed.

Lemma system_ok_step e x x' : system_step e x = Some x' → system_ok x → system_ok x'.
Proof.
  destruct e as [e| | |w]; simpl; intros Hstep Hok.
  - destruct (thread_runs e x) eqn:Hruns; [|done].
    destruct (run_event _ _ _ e (state x)) as [s'|] eqn:Hrun; [|done]. injection Hstep as <-.
    by apply (system_ok_event e).
  - destruct (context_ended x) eqn:Hend; [done|]. injection Hstep as <-. by destruct Hok.
  - destruct (context_ended x) eqn:Hend; [|done]. simpl in Hstep.
    destruct (stopped (request_queue (state x))) eqn:Hs; [done|]. injection Hstep as <-.
    destruct Hok as [Hsrv _ Hret].
    assert (dequeue (stop (request_queue (state x))).1 = dequeue (request_queue (state x))) as Hd
      by (unfold stop; by rewrite Hs).
    split; simpl; [|done|].
    + intros Hfit. apply server_ok_with_queue; [done|]. by apply Hsrv.
    + intros w Hw. destruct (Hret w Hw). congruence.
  - destruct ((w <? worker_count) && _) eqn:Hw; [|done].
    destruct (workers (state x) !! w); [done|].
    destruct (wait_and_pop cfg _) as [[[item|] q']|] eqn:E; [done| |done]. injection Hstep as <-.
    apply returns_only_when_drained in E as (-> & Hst & Hd). destruct Hok as [Hsrv Hend Hret].
    split; simpl; [|done|done].
    intros Hfit. apply server_ok_with_queue; [done|]. by apply Hsrv.
Qed.

Lemma system_ok_start : system_ok initial_running.
Proof. split; simpl; [intros _; apply server_ok_initial|done|set_solver]. Qed.

Lemma system_ok_run x x' : rtc any_step x x' → system_ok x → system_ok x'.
Proof.
  apply (rtc_invariant any_step system_ok). intros x1 x2 Hok [e He]. by apply (system_ok_step e x1).
Qed.

(** ** What a client can see *)
Definition observed s : gmap nat (list (string * request) * list (Z * response)) :=
  (λ v, (received v, wire (connection v))) <$> connections s.

Lemma observed_insert s k c c' l q ws ips :
  connections s !! k = Some (Served c l) → wire c' = wire c →
  observed (Server (<[k := Served c' l]> (connections s)) q ws ips) = observed s.
Proof.
  intros Hk Hw. unfold observed. simpl. rewrite fmap_insert. simpl. rewrite Hw. apply insert_id.
  by rewrite lookup_fmap, Hk.
Qed.

Lemma observed_step e x x' :
  context_ended x = true → system_step e x = Some x' →
  context_ended x' = true ∧ observed (state x') = observed (state x).
Proof.
  intros Hend Hstep. destruct e as [e| | |w]; simpl in Hstep.
  - destruct (thread_runs e x) eqn:Hruns; [|done].
    destruct (run_event _ _ _ e (state x)) as [s'|] eqn:Hrun; [|done]. injection Hstep as <-.
    split; [done|]. simpl.
    destruct e as [failed peer now k|k rq|w|w|k|k failed|k]; simpl in Hruns, Hrun;
      rewrite ?Hend in Hruns; try done;
      repeat case_match; simplify_eq; first [done|by eapply observed_insert].
  - by rewrite Hend in Hstep.
  - rewrite Hend in Hstep. simpl in Hstep. destruct (stopped _); [done|]. by injection Hstep as <-.
  - repeat case_match; simplify_eq. done.
Qed.

Lemma observed_run x x' :
  rtc any_step x x' → context_ended x = true →
  context_ended x' = true ∧ observed (state x') = observed (state x).
Proof.
  induction 1 as [x|x1 x2 x3 [e He] _ IH]; intros Hend; [done|].
  destruct (observed_step e x1 x2 Hend He) as [Hend2 Hob]. rewrite <-Hob. by apply IH.
Qed.

Lemma ids_fit_observed s s' : observed s' = observed s → ids_fit s → ids_fit s'.
Proof.
  intros Hob Hfit k v Hk. apply (f_equal (lookup k)) in Hob. unfold observed in Hob.
  rewrite !lookup_fmap, Hk in Hob. simpl in Hob. destruct (connections s !! k) as [v0|] eqn:Hk0; [|done].
  injection Hob as Hr _. rewrite Hr. exact (Hfit k v0 Hk0).
Qed.

(** ** The distance to the end of [stop] *)
Definition shutdown_weight x : nat :=
  (if stopped (request_queue (state x)) then 0 else 1)
  + 2 * length (dequeue (request_queue (state x))) + base.size (workers (state x))
  + base.size (set_seq (C := gset nat) 0 worker_count ∖ returned x).

Lemma remaining_decreases w (r : gset nat) :
  w < worker_count → w ∉ r →
  base.size (set_seq (C := gset nat) 0 worker_count ∖ ({[w]} ∪ r))
  < base.size (set_seq (C := gset nat) 0 worker_count ∖ r).
Proof.
  intros Hw Hr. apply subset_size. split; [set_solver|]. intros Hsub.
  assert (w ∈ set_seq (C := gset nat) 0 worker_count ∖ ({[w]} ∪ r)) as Hin
    by (apply Hsub, elem_of_difference; split; [apply elem_of_set_seq; lia|done]).
  set_solver.
Qed.

Lemma shutdown_step_decreases x x' :
  shutdown_step x x' → shutdown_weight x' < shutdown_weight x.
Proof.
  intros (e & He & Hstep). unfold shutdown_weight.
  destruct e as [[failed peer now k|k rq|w|w|k|k failed|k]| | |w]; simpl in He; try done; simpl in Hstep.
  - destruct ((w <? worker_count) && _); [|done].
    destruct (workers (state x) !! w) eqn:Hw; [done|].
    destruct (worker_takes cfg (request_queue (state x))) as [[task q']|] eqn:Hq; [|done].
    injection Hstep as <-. apply worker_takes_shape in Hq as [Hd Hs]. simpl.
    rewrite Hd, Hs, map_size_insert_None by done. simpl. lia.
  - destruct (workers (state x) !! w) as [task|] eqn:Hw; [|done].
    destruct (connections (state x) !! task_connection task) as [[c l]|]; [|done].
    destruct (application _ _) as [r| |]; [|done..]. injection Hstep as <-. simpl.
    pose proof (map_size_delete_S (workers (state x)) w ltac:(by eexists)). lia.
  - destruct (context_ended x); [|done]. simpl in Hstep.
    destruct (stopped (request_queue (state x))) eqn:Hs; [done|]. injection Hstep as <-. simpl.
    unfold stop. rewrite Hs. simpl. lia.
  - destruct (w <? worker_count) eqn:Hw; [|done]. simpl in Hstep.
    destruct (bool_decide_reflect (w ∉ returned x)) as [Hr|]; [|done].
    destruct (workers (state x) !! w); [done|].
    destruct (wait_and_pop cfg _) as [[[item|] q']|] eqn:E; [done| |done]. injection Hstep as <-.
    apply returns_only_when_drained in E as (-> & _ & _). simpl. apply Nat.ltb_lt in Hw.
    pose proof (remaining_decreases w (returned x) Hw Hr). lia.
Qed.

Lemma shutdown_accessible x : Acc (flip shutdown_step) x.
Proof.
  remember (shutdown_weight x) as n eqn:Hn. revert x Hn. induction (lt_wf n) as [n _ IH].
  intros x ->. constructor. intros x' Hstep.
  exact (IH (shutdown_weight x') (shutdown_step_decreases x x' Hstep) x' eq_refl).
Qed.

(** ** The end of [stop] *)
Context (application_returns : ∀ ip rq, ∃ r, application ip rq = Returns r).

Lemma ended_workers x :
  server_ok (state x) → (∀ x', ¬ shutdown_step x x') → workers (state x) = ∅.
Proof.
  intros Hs Hrest. apply map_empty. intros w.
  destruct (workers (state x) !! w) as [task|] eqn:Hw; [exfalso|done].
  destruct (all_tasks_ok _ _ Hs task ltac:(right; by exists w)) as ([c l] & n & Hk & _).
  destruct (application_returns (task_client_ip task) (task_request task)) as [r Hr].
  eapply Hrest. exists (ServerDoes (EvAnswer w)). split; [done|]. simpl. by rewrite Hw, Hk, Hr.
Qed.

Lemma ended_returned x w :
  server_ok (state x) → context_ended x = true → (∀ x', ¬ shutdown_step x x') →
  w < worker_count → w ∈ returned x.
Proof.
  intros Hs Hend Hrest Hw. destruct (decide (w ∈ returned x)) as [|Hr]; [done|exfalso].
  pose proof (ended_workers x Hs Hrest) as Hidle. apply Nat.ltb_lt in Hw.
  destruct (stopped (request_queue (state x))) eqn:Hst.
  - destruct (wait_ready_shape cfg (request_queue (state x))) as [(t & q1 & E & _)|[_ E]].
    + eapply Hrest. exists (ServerDoes (EvPop w)). split; [done|]. simpl.
      rewrite Hw, (bool_decide_eq_true_2 _ Hr), Hidle, lookup_empty. simpl.
      unfold worker_takes, wait_and_pop, wait_ready. by rewrite Hst, E.
    + eapply Hrest. exists (WorkerReturns w). split; [done|]. simpl.
      rewrite Hw, (bool_decide_eq_true_2 _ Hr), Hidle, lookup_empty. simpl.
      unfold wait_and_pop, wait_ready. by rewrite Hst, E.
  - eapply Hrest. exists QueueStops. split; [done|]. simpl. by rewrite Hend, Hst.
Qed.

(** A request not answered on the wire is held by its connection. *)
Lemma ended_held s k v n :
  server_ok s → dequeue (request_queue s) = [] → workers s = ∅ → connections s !! k = Some v →
  length (wire (connection v)) ≤ n < length (received v) → held_by (connection v) (Z.of_nat n).
Proof.
  intros Hs Hq Hw Hk [Hge Hlt].
  destruct (all_accounted _ _ Hs k v n Hk Hlt) as [(t & [Ht|[w Ht]] & _)|[Hp|[Hr|?]]]; [..|lia].
  - rewrite Hq in Ht. by apply elem_of_nil in Ht.
  - by rewrite Hw in Ht.
  - by left.
  - by right.
Qed.
End shutdown.

(** ** Property *)

(** C4. Stopping the request server computes answers that are never sent.  From
    any reachable state in which [server_base::stop] has ended the context
    thread, the rest of [stop] takes finitely many steps; when it is over every
    worker has returned and the queue is empty, so every request read has been
    given to the application; but what has been read and written on each
    connection is what it was when the context ended, and every response not
    written by then is left in its connection, posted to the strand or waiting
    in the map of responses. *)
Theorem stop_computes_answers_it_never_sends `{HttpMessages} `{Double} (cfg : queue_config)
    (ip_limits : limits) (worker_count : nat) (application : string → request → outcome response)
    (x : running_server) :
  (∀ ip rq, ∃ r, application ip rq = Returns r) → 0 < worker_count →
  let any_step := any_step cfg ip_limits worker_count application in
  let shutdown_step := shutdown_step cfg ip_limits worker_count application in
  rtc any_step initial_running x → context_ended x = true → ids_fit (state x) →
  Acc (flip shutdown_step) x
  ∧ ∀ x', rtc any_step x x' → (∀ x'', ¬ shutdown_step x' x'') →
      (∀ w, w < worker_count → w ∈ returned x')
      ∧ dequeue (request_queue (state x')) = [] ∧ workers (state x') = ∅
      ∧ ∀ k v, connections (state x) !! k = Some v →
          ∃ v', connections (state x') !! k = Some v' ∧ received v' = received v
            ∧ wire (connection v') = wire (connection v)
            ∧ ∀ n, length (wire (connection v)) ≤ n < length (received v) →
                held_by (connection v') (Z.of_nat n).
Proof.
  intros Happ Hcount any_step shutdown_step Hreach Hend Hfit. split; [by apply shutdown_accessible|].
  intros x' Hrun Hrest.
  pose proof (system_ok_run cfg ip_limits worker_count application _ _ Hreach
    (system_ok_start application)) as Hok.
  pose proof (system_ok_run cfg ip_limits worker_count application _ _ Hrun Hok) as Hok'.
  destruct (observed_run cfg ip_limits worker_count application _ _ Hrun Hend) as [Hend' Hob].
  pose proof (system_server _ _ Hok' (ids_fit_observed _ _ Hob Hfit)) as Hs.
  assert (∀ w, w < worker_count → w ∈ returned x') as Hret
    by (intros w; by eapply ended_returned).
  destruct (return_after_drain _ _ Hok' 0 (Hret 0 Hcount)) as [_ Hq].
  pose proof (ended_workers cfg ip_limits worker_count application Happ x' Hs Hrest) as Hw.
  split_and!; [done..|]. intros k v Hk. apply (f_equal (lookup k)) in Hob. unfold observed in Hob.
  rewrite !lookup_fmap, Hk in Hob. simpl in Hob.
  destruct (connections (state x') !! k) as [v'|] eqn:Hk'; [|done]. injection Hob as Hrec Hwire.
  exists v'. split_and!; [done..|]. intros n Hn. rewrite <-Hrec, <-Hwire in Hn.
  by eapply ended_held.
Qed.

(** ** Witness: one request queued and one with a worker when the server stops *)
Section witness.
#[local] Existing Instance PlainMessages.messages.
#[local] Existing Instance exact.

Definition stopping_events : list system_event :=
  (ServerDoes <$> [EvAccept false (Some "10.0.0.1") 0 0;
     EvRead 0 (Some (sample_request "a")); EvPop 0; EvAnswer 0; EvStrand 0; EvWrite 0 false;
     EvRead 0 (Some (sample_request "b")); EvPop 1; EvRead 0 (Some (sample_request "c"))])
  ++ [ContextStops].

Definition run_small (es : list system_event) (x : running_server) : option running_server :=
  run_system small_queue default_ip_limits 2 shout es x.

Definition stopping_server : running_server :=
  default initial_running (run_small stopping_events initial_running).

(** The rest of [stop]: both requests are processed, neither is sent. *)
Example unsent_answers :
  let x := run_small [QueueStops; ServerDoes (EvPop 0); ServerDoes (EvAnswer 1);
      ServerDoes (EvAnswer 0); WorkerReturns 0; WorkerReturns 1] stopping_server in
  (λ x, let v := served_on (state x) 0 in
     (length (received v), length (wire (connection v)), length (posted (connection v)))) <$> x
  = Some (3, 1, 2).
Proof. vm_compute. reflexivity. Qed.

Lemma stop_computes_answers_it_never_sends_witness :
  length (received (served_on (state stopping_server) 0)) = 3 ∧
  let any_step := any_step small_queue default_ip_limits 2 shout in
  let shutdown_step := shutdown_step small_queue default_ip_limits 2 shout in
  Acc (flip shutdown_step) stopping_server
  ∧ ∀ x', rtc any_step stopping_server x' → (∀ x'', ¬ shutdown_step x' x'') →
      (∀ w, w < 2 → w ∈ returned x')
      ∧ dequeue (request_queue (state x')) = [] ∧ workers (state x') = ∅
      ∧ ∀ k v, connections (state stopping_server) !! k = Some v →
          ∃ v', connections (state x') !! k = Some v' ∧ received v' = received v
            ∧ wire (connection v') = wire (connection v)
            ∧ ∀ n, length (wire (connection v)) ≤ n < length (received v) →
                held_by (connection v') (Z.of_nat n).
Proof.
  split; [vm_compute; reflexivity|].
  apply (stop_computes_answers_it_never_sends small_queue default_ip_limits 2 shout stopping_server).
  - intros ip rq. by eexists.
  - lia.
  - apply (run_system_steps _ _ _ _ stopping_events).
    destruct (run_system _ _ _ _ _ _) as [x|] eqn:E; [|vm_compute in E; discriminate E].
    unfold stopping_server, run_small. by rewrite E.
  - vm_compute. reflexivity.
  - apply few_requests_fit. vm_compute. reflexivity.
Defined.
End witness.
