(* ===== verification/ServerErrors.v ===== *)
(** * Exceptions in the request server

    [RequestServer] has the steps that succeed.  Here every event has an
    outcome, with the exceptions that leave a completion handler or a worker:
    nothing catches them, neither [http_connection], nor [io_context::run], nor
    the lambdas of the threads in [server_base::launch] and the constructor of
    [request_server_base], so each one ends the program. *)
From S2P Require Import Prelude ThreadSafeQueue Doubles RateLimiter HttpMessages HttpConnection.
From S2P Require Import RequestServer.

Section errors.
Context `{HttpMessages} `{Double} (cfg : queue_config) (ip_limits : limits).
Context (application : string → request → outcome response).
Implicit Types (s : server) (v : served) (c : http_connection).

(** Replaces connection [k], whose history is [l], by what a handler leaves. *)
Definition update_connection (k : nat) l s (o : outcome http_connection) : outcome server :=
  let! c' := o in Returns (with_connection k (Served c' l) s).

(** What the event does if it can happen in [s]. *)
Definition event_outcome (e : server_event) s : option (outcome server) :=
  match e with
  | EvAccept failed peer now k =>
      match on_accept ip_limits failed peer now (ip_rate_limiter s), connections s !! k with
      | Returns (Some _, _), Some _ => None
      | accepted, _ => Some (
          let! '(started, ips') := accepted in
          Returns (Server
            (match started with Some c => <[k := Served c []]> (connections s) | None => connections s end)
            (request_queue s) (workers s) ips'))
      end
  | EvRead k rq =>
      match connections s !! k with
      | Some (Served c l) =>
          if reading c then Some (
            let! '(c', q', _) := on_read cfg k rq c (request_queue s) in
            Returns (Server (<[k := Served c' (log_request c rq l)]> (connections s)) q'
              (workers s) (ip_rate_limiter s)))
          else None
      | None => None
      end
  | EvPop w =>
      match workers s !! w, worker_takes cfg (request_queue s) with
      | None, Some (task, q') =>
          Some (Returns (Server (connections s) q' (<[w := task]> (workers s)) (ip_rate_limiter s)))
      | _, _ => None
      end
  | EvAnswer w =>
      match workers s !! w with
      | Some task =>
          match connections s !! task_connection task with
          | Some (Served c l) => Some (
              let! r := application (task_client_ip task) (task_request task) in
              Returns (Server
                (<[task_connection task := Served (send_response r (task_sequence_id task) c) l]>
                  (connections s))
                (request_queue s) (delete w (workers s)) (ip_rate_limiter s)))
          | None => None
          end
      | None => None
      end
  | EvStrand k =>
      match connections s !! k with
      | Some (Served c l) =>
          match posted c with
          | p :: ps => Some (update_connection k l s (run_closure p (with_posted ps c)))
          | [] => None
          end
      | None => None
      end
  | EvWrite k failed =>
      match connections s !! k with
      | Some (Served c l) =>
          match in_flight c with
          | Some _ => Some (update_connection k l s (on_write failed c))
          | None => None
          end
      | None => None
      end
  | EvLeave k =>
      match connections s !! k with
      | Some (Served c l) => Some (Returns (with_connection k (Served (with_peer None c) l) s))
      | None => None
      end
  end.

(** The steps of [RequestServer] are the outcomes that return. *)
Lemma run_event_outcome e s :
  run_event cfg ip_limits application e s
  = match event_outcome e s with Some (Returns s') => Some s' | _ => None end.
Proof.
  destruct e as [failed peer now k|k rq|w|w|k|k failed|k]; simpl.
  - destruct (on_accept _ _ _ _ _) as [[[c|] ips']| |]; by destruct (connections s !! k).
  - destruct (connections s !! k) as [[c l]|]; [|done]. destruct (reading c); [|done].
    by destruct (on_read _ _ _ _ _) as [[[c' q'] sig]| |].
  - destruct (workers s !! w); [done|]. by destruct (worker_takes _ _) as [[task q']|].
  - destruct (workers s !! w) as [task|]; [|done].
    destruct (connections s !! task_connection task) as [[c l]|]; [|done].
    by destruct (application _ _).
  - destruct (connections s !! k) as [[c l]|]; [|done]. destruct (posted c) as [|p ps]; [done|].
    unfold update_connection. by destruct (run_closure _ _).
  - destruct (connections s !! k) as [[c l]|]; [|done]. destruct (in_flight c) as [r|]; [|done].
    unfold update_connection. by destruct (on_write _ _).
  - by destruct (connections s !! k) as [[c l]|].
Qed.

(** [remote_endpoint] is asked for the address of a client that has gone: by
    the accept handler of [request_server_base], or by the read handler of
    [http_connection] with a request that had been read. *)
Definition peer_is_missing (e : server_event) s : bool :=
  match e with
  | EvAccept false None _ _ => true
  | EvRead k (Some _) =>
      match connections s !! k with
      | Some (Served c _) => match peer c with None => true | Some _ => false end
      | None => false
      end
  | _ => false
  end.

Abbreviation answers := (λ ip rq r, application ip rq = Returns r).

(** Outcomes of the handlers, as the theorem wants them. *)
Definition outcome_is (thrown : bool) {A : Type} (o : outcome A) : Prop :=
  match o with Returns _ => thrown = false | Throws _ => thrown = true | Undefined => False end.

Lemma outcome_is_bind (thrown : bool) {A B : Type} (o : outcome A) (f : A → B) :
  outcome_is thrown o → outcome_is thrown (let! x := o in Returns (f x)).
Proof. by destruct o. Qed.

Lemma on_accept_outcome failed peer now ips :
  outcome_is (match failed, peer with false, None => true | _, _ => false end)
    (on_accept ip_limits failed peer now ips).
Proof.
  unfold on_accept. destruct failed; [done|]. destruct peer as [ip|]; [|done].
  destruct (consume _ _ _ _ _) as [[] ips']; done.
Qed.

Lemma on_read_outcome k rq c q :
  outcome_is (match rq, peer c with Some _, None => true | _, _ => false end) (on_read cfg k rq c q).
Proof.
  unfold on_read. destruct rq as [rq|]; [|done]. simpl. unfold get_client_ip. simpl.
  destruct (peer c) as [ip|]; [|done]. simpl.
  by destruct (try_push_back_move _ _ _) as [[[[] q'] sig] left].
Qed.

Lemma closure_outcome c p ps :
  conn_ok c → posted c = p :: ps → outcome_is false (run_closure p (with_posted ps c)).
Proof.
  intros Hc Hp. assert (conn_ok (with_posted ps c)) as Hc' by (by apply (conn_ok_congr c)).
  rewrite run_closure_eq.
  by destruct (write_unless_writing_ok (closure_answer p).1 (closure_answer p).2 _ Hc') as (c' & -> & _).
Qed.

(** Every handler of a good state returns, unless an address is missing. *)
Lemma event_outcome_ok e s o :
  server_ok answers s → (∀ ip rq, ∃ r, application ip rq = Returns r) →
  event_outcome e s = Some o → outcome_is (peer_is_missing e s) o.
Proof.
  intros Hs Happ.
  destruct e as [failed peer now k|k rq|w|w|k|k failed|k]; simpl; intros Ho.
  - pose proof (on_accept_outcome failed peer now (ip_rate_limiter s)) as Hacc.
    destruct (on_accept _ _ _ _ _) as [[[c|] ips']| |]; destruct (connections s !! k); simplify_eq/=;
      by destruct failed, peer.
  - destruct (connections s !! k) as [[c l]|]; [|done]. destruct (reading c); [|done].
    injection Ho as <-. pose proof (on_read_outcome k rq c (request_queue s)) as Hread.
    destruct (on_read _ _ _ _ _) as [[[c' q'] sig]| |], rq; simpl in *; by destruct (peer c).
  - by destruct (workers s !! w), (worker_takes cfg (request_queue s)) as [[task q']|]; simplify_eq/=.
  - destruct (workers s !! w) as [task|]; [|done].
    destruct (connections s !! task_connection task) as [[c l]|]; [|done]. injection Ho as <-.
    by destruct (Happ (task_client_ip task) (task_request task)) as [r ->].
  - destruct (connections s !! k) as [[c l]|] eqn:Hk; [|done].
    destruct (posted c) as [|p ps] eqn:Hp; [done|]. injection Ho as <-.
    apply outcome_is_bind, closure_outcome; [|done].
    exact (served_conn_ok _ _ (all_served_ok _ _ Hs k _ Hk)).
  - destruct (connections s !! k) as [[c l]|] eqn:Hk; [|done].
    destruct (in_flight c) as [r|] eqn:Hf; [|done]. injection Ho as <-. apply outcome_is_bind.
    destruct (on_write_ok failed c (served_conn_ok _ _ (all_served_ok _ _ Hs k _ Hk))
      ltac:(by eexists)) as (c' & -> & _). done.
  - destruct (connections s !! k) as [[c l]|]; [|done]. by injection Ho as <-.
Qed.
End errors.

(** ** Property *)


(** ** Witness: a request is read, then its client disappears *)
Section witness.
#[local] Existing Instance PlainMessages.messages.
#[local] Existing Instance exact.

Definition abandoned_schedule : list server_event :=
  [EvAccept false (Some "10.0.0.1") 0 0; EvRead 0 (Some (sample_request "a")); EvLeave 0].

End witness.
