(* ===== verification/QueueBenchmark.v ===== *)
(** * The benchmark of the queue: [src/testing/benchmarks/thread_safe_queue_benchmark.cpp]

    [run_benchmark] is a template over the queue it measures: the calls it makes
    are an interface here ([WorkQueue], [WorkQueueLaws]), with the two
    implementations the program passes, [thread_safe_queue] and the baseline
    [mutex_deque].  The threads of [run_benchmark] are proved correct against
    the interface. *)
From S2P Require Import Prelude ThreadSafeQueue StringOps Numerals.

(** ** The interface *)

(** What [run_benchmark] calls on its [Queue&]; [wait_and_pop] is the predicate
    of its wait and the part that runs once the predicate holds. *)
Class WorkQueue := {
  work_queue : Type;
  wq_new : work_queue;
  wq_push_back : Z → work_queue → work_queue;
  wq_ready : work_queue → bool;
  wq_pop_ready : work_queue → option Z * work_queue;
  wq_stop : work_queue → work_queue
}.

(** A queue that gives its elements in order, and the end once it is stopped
    and empty.  Nothing is promised of an addition to a stopped queue. *)
Class WorkQueueLaws `{WorkQueue} := {
  wq_contents : work_queue → list Z;
  wq_closed : work_queue → bool;
  wq_new_law : wq_contents wq_new = [] ∧ wq_closed wq_new = false;
  wq_push_law v q : wq_closed q = false →
    wq_contents (wq_push_back v q) = wq_contents q ++ [v] ∧ wq_closed (wq_push_back v q) = false;
  wq_ready_law q : wq_ready q = wq_closed q || negb (bool_decide (wq_contents q = []));
  wq_pop_law q :
    match wq_contents q with
    | [] => wq_pop_ready q = (None, q)
    | v :: l => ∃ q', wq_pop_ready q = (Some v, q') ∧ wq_contents q' = l ∧ wq_closed q' = wq_closed q
    end;
  wq_stop_law q : wq_contents (wq_stop q) = wq_contents q ∧ wq_closed (wq_stop q) = true
}.

(** ** The baseline *)

(** The members of [mutex_deque] guarded by [mutex_]. *)
Record mutex_deque := MutexDeque { queue_ : list Z; stopped_ : bool }.

Module MutexDeque.
Definition push_back (value : Z) (d : mutex_deque) : mutex_deque * signal :=
  if stopped_ d then (d, NoSignal)
  else (MutexDeque (queue_ d ++ [value]) (stopped_ d), NotifyOne).

(** The predicate given to [condition_.wait]. *)
Definition wait_ready (d : mutex_deque) : bool := stopped_ d || negb (bool_decide (queue_ d = [])).

Definition wait_and_pop_ready (d : mutex_deque) : option Z * mutex_deque :=
  match queue_ d with
  | [] => (None, d)
  | value :: rest => (Some value, MutexDeque rest (stopped_ d))
  end.

Definition stop (d : mutex_deque) : mutex_deque * signal := (MutexDeque (queue_ d) true, NotifyAll).
End MutexDeque.

#[export] Instance mutex_deque_queue : WorkQueue := {|
  work_queue := mutex_deque;
  wq_new := MutexDeque [] false;
  wq_push_back v d := (MutexDeque.push_back v d).1;
  wq_ready := MutexDeque.wait_ready;
  wq_pop_ready := MutexDeque.wait_and_pop_ready;
  wq_stop d := (MutexDeque.stop d).1
|}.

#[export] Instance mutex_deque_laws : @WorkQueueLaws mutex_deque_queue.
Proof.
  refine {| wq_contents (q : @work_queue mutex_deque_queue) := queue_ q;
            wq_closed (q : @work_queue mutex_deque_queue) := stopped_ q |};
    simpl; try done.
  - intros v d Hd. unfold MutexDeque.push_back. by rewrite Hd.
  - intros d. unfold MutexDeque.wait_and_pop_ready. destruct (queue_ d); [done|]. by eexists.
Defined.

(** ** [thread_safe_queue<uint64_t, ...>], with any flags and limits *)
Definition value_traits : QueueSizeTraits Z := sizeof_traits Z 8 ltac:(unfold is_u64, two64; lia).

Definition thread_safe_work_queue (cfg : queue_config) : WorkQueue := {|
  work_queue := queue Z;
  wq_new := new_queue;
  wq_push_back v q := (@push_back _ value_traits cfg v q).1;
  wq_ready := wait_ready;
  wq_pop_ready := @wait_and_pop_ready _ value_traits cfg;
  wq_stop q := (stop q).1
|}.

#[export] Instance thread_safe_work_queue_laws cfg : @WorkQueueLaws (thread_safe_work_queue cfg).
Proof.
  refine {| wq_contents (q : @work_queue (thread_safe_work_queue cfg)) := dequeue q;
            wq_closed (q : @work_queue (thread_safe_work_queue cfg)) := stopped q |};
    simpl; try done.
  - intros v q Hq. destruct (@push_back_shape _ value_traits cfg v q) as (q1 & E & Hd & Hs).
    change (dequeue (@push_back _ value_traits cfg v q).1 = dequeue q ++ [v]
      ∧ stopped (@push_back _ value_traits cfg v q).1 = false).
    rewrite E. simpl. by rewrite Hs.
  - intros q. unfold wait_ready, empty. f_equal. by destruct (dequeue q).
  - intros q. destruct (@wait_ready_shape _ value_traits cfg q) as [(v & q1 & E & -> & Hs)|[-> E]];
      [by exists q1|done].
  - intros q. by destruct (stop_shape q) as [[-> ?]|(q1 & -> & ? & ?)].
Defined.

(** ** Sequential calls *)
Inductive work_call := PushBack (v : Z) | WaitAndPop | Stop.

(** The results of the calls of [wait_and_pop]; [None]: a call blocks. *)
Fixpoint work_results `{WorkQueue} (cs : list work_call) (q : work_queue) : option (list (option Z)) :=
  match cs with
  | [] => Some []
  | PushBack v :: cs' => work_results cs' (wq_push_back v q)
  | WaitAndPop :: cs' =>
      if wq_ready q then
        let '(item, q') := wq_pop_ready q in
        match work_results cs' q' with Some rs => Some (item :: rs) | None => None end
      else None
  | Stop :: cs' => work_results cs' (wq_stop q)
  end.

(** No [push_back] follows a [stop]. *)
Fixpoint pushes_before_stop (closed : bool) (cs : list work_call) : bool :=
  match cs with
  | [] => true
  | PushBack _ :: cs' => negb closed && pushes_before_stop closed cs'
  | WaitAndPop :: cs' => pushes_before_stop closed cs'
  | Stop :: cs' => pushes_before_stop true cs'
  end.

(** What the interface promises of the results. *)
Fixpoint promised_results (cs : list work_call) (l : list Z) (closed : bool) : option (list (option Z)) :=
  match cs with
  | [] => Some []
  | PushBack v :: cs' => promised_results cs' (l ++ [v]) closed
  | WaitAndPop :: cs' =>
      match l with
      | v :: l' => match promised_results cs' l' closed with Some rs => Some (Some v :: rs) | None => None end
      | [] =>
          if closed then
            match promised_results cs' [] closed with Some rs => Some (None :: rs) | None => None end
          else None
      end
  | Stop :: cs' => promised_results cs' l true
  end.

Lemma work_results_promised `{WorkQueueLaws} cs (q : work_queue) :
  pushes_before_stop (wq_closed q) cs = true →
  work_results cs q = promised_results cs (wq_contents q) (wq_closed q).
Proof.
  revert q. induction cs as [|[v| |] cs IH]; intros q; simpl; [done|..].
  - intros [Hc Hcs]%andb_true_iff. apply negb_true_iff in Hc.
    destruct (wq_push_law v q Hc) as [Hd Hs]. rewrite IH by congruence. by rewrite Hd, Hs, Hc.
  - intros Hcs. rewrite wq_ready_law. pose proof (wq_pop_law q) as Hpop.
    destruct (wq_contents q) as [|v l] eqn:Hl.
    + rewrite Hpop. simpl. rewrite orb_false_r. destruct (wq_closed q) eqn:Hc; [|done].
      rewrite IH by congruence. by rewrite Hl, Hc.
    + destruct Hpop as (q' & -> & Hd & Hs). rewrite bool_decide_eq_false_2 by done. rewrite orb_true_r.
      rewrite IH by congruence. by rewrite Hd, Hs.
  - intros Hcs. destruct (wq_stop_law q) as [Hd Hs]. rewrite IH by congruence. by rewrite Hd, Hs.
Qed.

(** ** The workload *)
Section workload.
Local Open Scope Z_scope.

(** [expected_checksum], in [uint64_t]. *)
Definition expected_checksum (total : Z) : Z := u64 (total * u64 (total + 1)) / 2.

(** The loop that gives each producer its [first_value] and [operations]:
    [count] producers from [producer_id] on. *)
Fixpoint distribute (per_producer remainder : Z) (count : nat) (producer_id next_value : Z)
    : list (Z * Z) :=
  match count with
  | O => []
  | S count' =>
      let operations := u64 (per_producer + (if producer_id <? remainder then 1 else 0)) in
      (next_value, operations)
        :: distribute per_producer remainder count' (producer_id + 1) (u64 (next_value + operations))
  end.

Definition ranges (total : Z) (producer_count : nat) : list (Z * Z) :=
  distribute (total / Z.of_nat producer_count) (total mod Z.of_nat producer_count) producer_count 0 1.

(** What a producer pushes that has done [i] of its [operations]. *)
Definition to_push (first operations i : Z) : list Z := seqZ (first + i) (operations - i).

(** The number of operations of the producers before number [id]. *)
Definition before (per_producer remainder id : Z) : Z := per_producer * id + Z.min id remainder.

Lemma distribute_covers per remainder count id :
  0 ≤ per → 0 ≤ remainder → 0 ≤ id → before per remainder (id + Z.of_nat count) < two64 →
  let rs := distribute per remainder count id (u64 (1 + before per remainder id)) in
  Forall (λ r, is_u64 r.1 ∧ 0 ≤ r.2 < two64) rs
  ∧ concat ((λ r, to_push r.1 r.2 0) <$> rs)
    = seqZ (1 + before per remainder id)
        (before per remainder (id + Z.of_nat count) - before per remainder id).
Proof.
  intros Hper Hrem. revert id. induction count as [|count IH]; intros id Hid Hfit; cbn [distribute].
  { split; [constructor|]. simpl. rewrite Z.add_0_r, Z.sub_diag. done. }
  set (extra := if id <? remainder then 1 else 0).
  assert (before per remainder (id + 1) = before per remainder id + (per + extra)) as Hnext.
  { unfold before, extra. zbool; lia. }
  assert (∀ m, id + 1 ≤ m → before per remainder (id + 1) ≤ before per remainder m) as Hmono.
  { intros m Hm. unfold before. nia. }
  specialize (Hmono (id + Z.of_nat (S count)) ltac:(lia)).
  assert (0 ≤ before per remainder id) as Hpos by (unfold before; lia).
  assert (0 ≤ extra ≤ 1) as Hex by (unfold extra; zbool; lia).
  assert (u64 (per + extra) = per + extra) as Hops by (apply u64_small; unfold is_u64; lia).
  destruct (IH (id + 1)) as [Hall Hcat]; [lia|by replace (id + 1 + Z.of_nat count) with (id + Z.of_nat (S count)) by lia|].
  rewrite Hops. rewrite u64_add_l.
  replace (1 + before per remainder id + (per + extra)) with (1 + before per remainder (id + 1)) by lia.
  split; [constructor; [split; simpl; [apply u64_range|lia]|done]|].
  rewrite fmap_cons. cbn [concat]. rewrite Hcat. unfold to_push. simpl.
  destruct (decide (per + extra = 0)) as [Hz|Hnz].
  { replace (per + extra - 0) with 0 by lia. simpl. f_equal; [lia|]. f_equal; [|lia]. f_equal. lia. }
  rewrite u64_small by (unfold is_u64; lia).
  replace (before per remainder (id + Z.of_nat (S count)) - before per remainder id)
    with ((per + extra) + (before per remainder (id + 1 + Z.of_nat count) - before per remainder (id + 1)))
    by (replace (id + 1 + Z.of_nat count) with (id + Z.of_nat (S count)) by lia; lia).
  rewrite seqZ_app by (replace (id + 1 + Z.of_nat count) with (id + Z.of_nat (S count)) by lia; lia).
  rewrite Z.add_0_r, Z.sub_0_r. f_equal. f_equal. lia.
Qed.

Lemma length_distribute per remainder count id next :
  length (distribute per remainder count id next) = count.
Proof. revert id next. induction count as [|count IH]; intros id next; [done|]. simpl. by rewrite IH. Qed.

(** The producers push 1, 2, ..., [total], each value once. *)
Lemma ranges_cover total (producer_count : nat) :
  (0 < producer_count)%nat → 0 ≤ total < two64 →
  Forall (λ r, is_u64 r.1 ∧ 0 ≤ r.2 < two64) (ranges total producer_count)
  ∧ concat ((λ r, to_push r.1 r.2 0) <$> ranges total producer_count) = seqZ 1 total.
Proof.
  intros Hcount Htotal. unfold ranges.
  set (n := Z.of_nat producer_count). assert (0 < n) as Hn by (unfold n; lia).
  pose proof (Z.div_mod total n ltac:(lia)) as Hdiv. pose proof (Z.mod_pos_bound total n Hn) as Hmod.
  assert (0 ≤ total / n) as Hper by (apply Z.div_pos; lia).
  assert (before (total / n) (total mod n) 0 = 0) as H0 by (unfold before; lia).
  assert (before (total / n) (total mod n) (0 + n) = total) as H1 by (unfold before; nia).
  pose proof (distribute_covers (total / n) (total mod n) producer_count 0) as Hcover.
  fold n in Hcover. rewrite H0, H1 in Hcover. rewrite u64_small in Hcover by (unfold is_u64, two64; lia).
  replace (total - 0) with total in Hcover by lia. apply Hcover; lia.
Qed.
End workload.

(** ** The threads of [run_benchmark]

    Between two accesses to what the threads share (the barrier, the queue, the
    two atomics) a thread does nothing that others can see, so each step is one
    access.  A [wait_and_pop] that finds the predicate false has no step: it
    waits, and both queues notify a waiting consumer of every addition and all
    of them of the stop ([QueueThreads] has the wake-ups of
    [thread_safe_queue]). *)
Inductive producer_point := ProducerArrives | ProducerAtBarrier | Pushes (i : Z) | ProducerEnded.

Record producer := Producer { first_value : Z; operations : Z; producer_at : producer_point }.

Inductive consumer_point :=
  | ConsumerArrives
  | ConsumerAtBarrier
  | Takes
  | AddsChecksum (value : Z)
  | Counts
  | ConsumerEnded.

#[export] Instance consumer_point_eq_dec : EqDecision consumer_point.
Proof. solve_decision. Defined.

Inductive main_point :=
  | MainArrives
  | MainAtBarrier
  | JoinsProducers
  | Spins
  | StopsQueue
  | JoinsConsumers
  | Verifies.

Section run.
Context `{WorkQueue}.
(** The arguments of [run_benchmark]. *)
Context (producer_count consumer_count : nat) (total_operations : Z).

Record benchmark := Benchmark {
  bench_queue : work_queue;
  (** [consumed] and [checksum]. *)
  consumed : Z;
  checksum : Z;
  (** The threads that have arrived at [start_barrier]. *)
  arrived : nat;
  producers : list producer;
  consumers : list consumer_point;
  main : main_point;
  (** The values added to [checksum] so far (a history variable). *)
  added : list Z
}.
Implicit Types (b : benchmark).

Definition initial_benchmark : benchmark :=
  Benchmark wq_new 0 0 0
    ((λ r, Producer r.1 r.2 ProducerArrives) <$> ranges total_operations producer_count)
    (replicate consumer_count ConsumerArrives) MainArrives [].

(** [start_barrier(producer_count + consumer_count + 1)] lets the threads go. *)
Definition barrier_open b : bool := arrived b =? producer_count + consumer_count + 1.

Definition producer_moves (i : nat) (p : producer) (at_point : producer_point) (q : work_queue)
    (arrived : nat) b : benchmark :=
  Benchmark q (consumed b) (checksum b) arrived
    (<[i := Producer (first_value p) (operations p) at_point]> (producers b))
    (consumers b) (main b) (added b).

Definition producer_step (id : nat) b : option benchmark :=
  match producers b !! id with
  | Some p =>
      match producer_at p with
      | ProducerArrives =>
          Some (producer_moves id p ProducerAtBarrier (bench_queue b) (S (arrived b)) b)
      | ProducerAtBarrier =>
          if barrier_open b then Some (producer_moves id p (Pushes 0) (bench_queue b) (arrived b) b)
          else None
      | Pushes i =>
          if (i <? operations p)%Z then
            Some (producer_moves id p (Pushes (u64 (i + 1)))
              (wq_push_back (u64 (first_value p + i)) (bench_queue b)) (arrived b) b)
          else Some (producer_moves id p ProducerEnded (bench_queue b) (arrived b) b)
      | ProducerEnded => None
      end
  | None => None
  end.

Definition consumer_moves (i : nat) (at_point : consumer_point) b : benchmark :=
  Benchmark (bench_queue b) (consumed b) (checksum b) (arrived b) (producers b)
    (<[i := at_point]> (consumers b)) (main b) (added b).

Definition consumer_step (id : nat) b : option benchmark :=
  match consumers b !! id with
  | Some ConsumerArrives =>
      Some (Benchmark (bench_queue b) (consumed b) (checksum b) (S (arrived b)) (producers b)
        (<[id := ConsumerAtBarrier]> (consumers b)) (main b) (added b))
  | Some ConsumerAtBarrier => if barrier_open b then Some (consumer_moves id Takes b) else None
  | Some Takes =>
      if wq_ready (bench_queue b) then
        let '(value, q') := wq_pop_ready (bench_queue b) in
        let at_point := match value with Some v => AddsChecksum v | None => ConsumerEnded end in
        Some (Benchmark q' (consumed b) (checksum b) (arrived b) (producers b)
          (<[id := at_point]> (consumers b)) (main b) (added b))
      else None
  | Some (AddsChecksum v) =>
      Some (Benchmark (bench_queue b) (consumed b) (u64 (checksum b + v)) (arrived b) (producers b)
        (<[id := Counts]> (consumers b)) (main b) (added b ++ [v]))
  | Some Counts =>
      let count := u64 (consumed b + 1) in
      let at_point := if (count =? total_operations)%Z then ConsumerEnded else Takes in
      Some (Benchmark (bench_queue b) count (checksum b) (arrived b) (producers b)
        (<[id := at_point]> (consumers b)) (main b) (added b))
  | Some ConsumerEnded | None => None
  end.

Definition main_moves (at_point : main_point) b : benchmark :=
  Benchmark (bench_queue b) (consumed b) (checksum b) (arrived b) (producers b) (consumers b)
    at_point (added b).

Definition producer_ended (p : producer) : bool :=
  match producer_at p with ProducerEnded => true | _ => false end.

Definition consumer_ended (c : consumer_point) : bool :=
  match c with ConsumerEnded => true | _ => false end.

(** The main thread; an iteration of its spinning loop that goes on is no step. *)
Definition main_step b : option benchmark :=
  match main b with
  | MainArrives =>
      Some (Benchmark (bench_queue b) (consumed b) (checksum b) (S (arrived b)) (producers b)
        (consumers b) MainAtBarrier (added b))
  | MainAtBarrier => if barrier_open b then Some (main_moves JoinsProducers b) else None
  | JoinsProducers => if forallb producer_ended (producers b) then Some (main_moves Spins b) else None
  | Spins => if (consumed b <? total_operations)%Z then None else Some (main_moves StopsQueue b)
  | StopsQueue =>
      Some (Benchmark (wq_stop (bench_queue b)) (consumed b) (checksum b) (arrived b) (producers b)
        (consumers b) JoinsConsumers (added b))
  | JoinsConsumers =>
      if forallb consumer_ended (consumers b) then Some (main_moves Verifies b) else None
  | Verifies => None
  end.

(** The two correctness checks at the end: [false] is [std::exit]. *)
Definition verified b : bool :=
  (consumed b =? total_operations)%Z && (checksum b =? expected_checksum total_operations)%Z.

Inductive benchmark_event := OfProducer (id : nat) | OfConsumer (id : nat) | OfMain.

Definition benchmark_step (e : benchmark_event) b : option benchmark :=
  match e with
  | OfProducer id => producer_step id b
  | OfConsumer id => consumer_step id b
  | OfMain => main_step b
  end.

Definition bench_step b b' : Prop := ∃ e, benchmark_step e b = Some b'.
End run.

(** ** Invariant *)
Section run_lemmas.
Context `{WorkQueueLaws}.
Context (producer_count consumer_count : nat) (total_operations : Z).
Context (total_range : (0 < total_operations < two64)%Z).
Implicit Types (b : benchmark) (p : producer) (c : consumer_point).

(** What a thread has still to push, or holds. *)
Definition remaining p : list Z :=
  match producer_at p with
  | ProducerArrives | ProducerAtBarrier => to_push (first_value p) (operations p) 0
  | Pushes i => to_push (first_value p) (operations p) i
  | ProducerEnded => []
  end.

Definition in_hand c : list Z := match c with AddsChecksum v => [v] | _ => [] end.

Definition counting c : nat := match c with Counts => 1 | _ => 0 end.

Definition producer_arrived p : nat := match producer_at p with ProducerArrives => 0 | _ => 1 end.
Definition consumer_arrived c : nat := match c with ConsumerArrives => 0 | _ => 1 end.
Definition main_arrived (m : main_point) : nat := match m with MainArrives => 0 | _ => 1 end.

Definition producer_good p : Prop :=
  match producer_at p with Pushes i => (0 ≤ i ≤ operations p ∧ operations p < two64)%Z | _ => (0 ≤ operations p < two64)%Z end.

Definition producers_joined (m : main_point) : bool :=
  match m with MainArrives | MainAtBarrier | JoinsProducers => false | _ => true end.

Definition all_counted (m : main_point) : bool :=
  match m with StopsQueue | JoinsConsumers | Verifies => true | _ => false end.

Definition queue_stopped (m : main_point) : bool :=
  match m with JoinsConsumers | Verifies => true | _ => false end.

(** The operations are where the threads say; numbers and phases agree. *)
Record bench_ok b : Prop := BenchOk {
  bench_items :
    concat (remaining <$> producers b) ++ wq_contents (bench_queue b)
      ++ concat (in_hand <$> consumers b) ++ added b ≡ₚ seqZ 1 total_operations;
  bench_producers : Forall producer_good (producers b);
  bench_checksum : checksum b = u64 (zsum (λ v, v) (added b));
  bench_consumed : (0 ≤ consumed b)%Z
    ∧ (consumed b + Z.of_nat (sum_list (counting <$> consumers b)) = zlen (added b))%Z;
  bench_arrived : arrived b = sum_list (producer_arrived <$> producers b)
    + sum_list (consumer_arrived <$> consumers b) + main_arrived (main b);
  bench_lengths : length (producers b) = producer_count ∧ length (consumers b) = consumer_count;
  bench_joined : producers_joined (main b) = true → Forall (λ p, producer_at p = ProducerEnded) (producers b);
  bench_counted : all_counted (main b) = true ∨ ConsumerEnded ∈ consumers b → consumed b = total_operations;
  bench_stopped : wq_closed (bench_queue b) = queue_stopped (main b)
}.

Lemma zlen_seqZ m n : (0 ≤ n)%Z → zlen (seqZ m n) = n.
Proof. intros Hn. unfold zlen. rewrite length_seqZ. lia. Qed.

Lemma items_total b :
  bench_ok b →
  (zlen (concat (remaining <$> producers b)) + zlen (wq_contents (bench_queue b))
   + zlen (concat (in_hand <$> consumers b)) + zlen (added b) = total_operations)%Z.
Proof.
  intros Hok. pose proof (Permutation_length (bench_items b Hok)) as Hlen.
  rewrite length_seqZ, !length_app in Hlen. unfold zlen. lia.
Qed.

(** Once all operations are counted there is nothing anywhere else. *)
Lemma counted_full b :
  bench_ok b → consumed b = total_operations →
  added b ≡ₚ seqZ 1 total_operations ∧ wq_contents (bench_queue b) = []
  ∧ sum_list (counting <$> consumers b) = 0.
Proof.
  intros Hok Hall. pose proof (items_total b Hok) as Hlen. destruct (bench_consumed b Hok) as [_ Hc].
  rewrite Hall in Hc.
  pose proof (zlen_nonneg (concat (remaining <$> producers b))).
  pose proof (zlen_nonneg (wq_contents (bench_queue b))).
  pose proof (zlen_nonneg (concat (in_hand <$> consumers b))).
  assert (concat (remaining <$> producers b) = []) as Hr by (apply length_zero_iff_nil; unfold zlen in *; lia).
  assert (wq_contents (bench_queue b) = []) as Hq by (apply length_zero_iff_nil; unfold zlen in *; lia).
  assert (concat (in_hand <$> consumers b) = []) as Hh by (apply length_zero_iff_nil; unfold zlen in *; lia).
  pose proof (bench_items b Hok) as Hitems. rewrite Hr, Hq, Hh in Hitems.
  split_and!; [done|done|lia].
Qed.

Lemma counting_lookup id b : consumers b !! id = Some Counts → 1 ≤ sum_list (counting <$> consumers b).
Proof.
  intros Hid. pose proof (sum_list_insert counting _ _ _ Takes Hid) as Hs. simpl in Hs. lia.
Qed.

Lemma bench_ok_initial :
  0 < producer_count → bench_ok (initial_benchmark producer_count consumer_count total_operations).
Proof.
  intros Hp. destruct (ranges_cover total_operations producer_count Hp ltac:(lia)) as [Hgood Hcover].
  destruct wq_new_law as [Hnew Hopen].
  assert (∀ n, concat (in_hand <$> replicate n ConsumerArrives) = []) as Hhand
    by (intros n; by induction n).
  assert (∀ {A : Type} (f : A → nat) (l : list A), (∀ x, f x = 0) → sum_list (f <$> l) = 0) as Hzero
    by (intros A f l Hf; induction l as [|x l IH]; [done|]; simpl; rewrite (Hf x); exact IH).
  split; simpl; try done.
  - rewrite Hnew, Hhand, <-list_fmap_compose. cbn [app]. rewrite app_nil_r, <-Hcover. done.
  - apply Forall_fmap. eapply Forall_impl; [exact Hgood|]. intros r [_ Hr]. exact Hr.
  - assert (∀ n, sum_list (counting <$> replicate n ConsumerArrives) = 0) as ->
      by (intros n; by induction n). done.
  - assert (∀ n, sum_list (consumer_arrived <$> replicate n ConsumerArrives) = 0) as ->
      by (intros n; by induction n).
    rewrite <-list_fmap_compose, Hzero; [done|]. done.
  - rewrite length_fmap, length_replicate. split; [|done]. apply length_distribute.
  - intros [?|Hin]; [done|]. apply elem_of_replicate in Hin as [? _]. done.
Qed.

(** One producer moves: what it no longer has to push is in the queue. *)
Lemma producer_moves_ok id p at_point q' arr b :
  bench_ok b → producers b !! id = Some p → producer_at p ≠ ProducerEnded →
  let p' := Producer (first_value p) (operations p) at_point in
  remaining p ++ wq_contents (bench_queue b) ≡ₚ remaining p' ++ wq_contents q' →
  wq_closed q' = wq_closed (bench_queue b) → producer_good p' →
  arr + producer_arrived p = arrived b + producer_arrived p' →
  bench_ok (producer_moves id p at_point q' arr b).
Proof.
  intros Hok Hid Hlive p' Hitems Hclosed Hgood Harr.
  pose proof (concat_insert remaining _ _ _ p' Hid) as Hcat.
  pose proof (sum_list_insert producer_arrived _ _ _ p' Hid) as Hsum.
  destruct Hok as [Hi Hp Hsum0 Hcons Harr0 [Hlp Hlc] Hj Hcnt Hst].
  split; simpl; fold p'; try done.
  - rewrite <-Hi. apply (Permutation_app_inv_l (remaining p)).
    transitivity ((remaining p ++ concat (remaining <$> <[id:=p']> (producers b))) ++ wq_contents q'
      ++ concat (in_hand <$> consumers b) ++ added b); [by rewrite !app_assoc|].
    rewrite <-Hcat.
    transitivity (concat (remaining <$> producers b) ++ (remaining p' ++ wq_contents q')
      ++ concat (in_hand <$> consumers b) ++ added b).
    { rewrite <-!app_assoc. apply Permutation_app_swap_app. }
    rewrite <-Hitems, <-!app_assoc. apply Permutation_app_swap_app.
  - by apply Forall_insert.
  - lia.
  - by rewrite length_insert.
  - intros Hjoined. exfalso. apply Hlive. by eapply (Forall_lookup_1 _ _ _ _ (Hj Hjoined)).
  - by rewrite Hclosed.
Qed.

(** One consumer moves: what it takes, holds or adds stays accounted for. *)
Lemma consumer_moves_ok t c c' q' count sum arr added' b :
  bench_ok b → consumers b !! t = Some c → c ≠ ConsumerEnded →
  wq_contents (bench_queue b) ++ in_hand c ++ added b ≡ₚ wq_contents q' ++ in_hand c' ++ added' →
  wq_closed q' = wq_closed (bench_queue b) →
  sum = u64 (zsum (λ v, v) added') → (0 ≤ count)%Z →
  (count + Z.of_nat (counting c') - zlen added' = consumed b + Z.of_nat (counting c) - zlen (added b))%Z →
  arr + consumer_arrived c = arrived b + consumer_arrived c' →
  (consumed b = total_operations → count = total_operations) →
  (c' = ConsumerEnded → count = total_operations) →
  bench_ok (Benchmark q' count sum arr (producers b) (<[t := c']> (consumers b)) (main b) added').
Proof.
  intros Hok Hid Hlive Hitems Hclosed Hsum Hpos Hcount Harr Hkeep Hend.
  pose proof (concat_insert in_hand _ _ _ c' Hid) as Hcat.
  pose proof (sum_list_insert counting _ _ _ c' Hid) as Hc.
  pose proof (sum_list_insert consumer_arrived _ _ _ c' Hid) as Ha.
  destruct Hok as [Hi Hp Hsum0 [Hc0 Hc1] Harr0 [Hlp Hlc] Hj Hcnt Hst].
  split; simpl; try done.
  - rewrite <-Hi. apply Permutation_app_head. apply (Permutation_app_inv_l (in_hand c)).
    transitivity (wq_contents q' ++ (in_hand c ++ concat (in_hand <$> <[t:=c']> (consumers b))) ++ added').
    { rewrite <-!app_assoc. apply Permutation_app_swap_app. }
    rewrite <-Hcat.
    transitivity (concat (in_hand <$> consumers b) ++ (wq_contents q' ++ in_hand c' ++ added')).
    { solve_Permutation. }
    rewrite <-Hitems. solve_Permutation.
  - split; [done|lia].
  - lia.
  - by rewrite length_insert.
  - intros [Hall|Hin]; [by apply Hkeep, Hcnt; left|].
    apply list_elem_of_lookup in Hin as [j Hj']. destruct (decide (j = t)) as [->|Hne].
    + rewrite list_lookup_insert_eq in Hj' by by eapply lookup_lt_Some. injection Hj' as Hc'. by apply Hend.
    + rewrite list_lookup_insert_ne in Hj' by done. apply Hkeep, Hcnt. right.
      apply list_elem_of_lookup. by exists j.
  - by rewrite Hclosed.
Qed.

(** ** Every step keeps the invariant *)
Abbreviation bench_step := (bench_step producer_count consumer_count total_operations).

Lemma to_push_next first ops i :
  (i < ops)%Z → to_push first ops i = (first + i)%Z :: to_push first ops (i + 1).
Proof.
  intros Hi. unfold to_push. rewrite seqZ_cons by lia. repeat f_equal; lia.
Qed.

Lemma pushed_in_range b t p v l :
  bench_ok b → producers b !! t = Some p → remaining p = v :: l → (1 ≤ v ≤ total_operations)%Z.
Proof.
  intros Hok Ht Hv. assert (v ∈ seqZ 1 total_operations) as Hin%elem_of_seqZ; [|lia].
  rewrite <-(bench_items b Hok), elem_of_app. left. apply list_elem_of_In, in_concat.
  exists (remaining p). split; [|rewrite Hv; by left].
  apply list_elem_of_In, list_elem_of_fmap. exists p. split; [done|]. by eapply list_elem_of_lookup_2.
Qed.

Lemma still_open b t p :
  bench_ok b → producers b !! t = Some p → producer_at p ≠ ProducerEnded →
  wq_closed (bench_queue b) = false.
Proof.
  intros Hok Ht Hlive. rewrite (bench_stopped b Hok). destruct (main b) eqn:Hm; try done;
    destruct Hlive; apply (Forall_lookup_1 _ _ _ _ (bench_joined b Hok ltac:(by rewrite Hm)) Ht).
Qed.

Lemma producer_step_ok t b b' :
  bench_ok b → producer_step producer_count consumer_count t b = Some b' → bench_ok b'.
Proof.
  intros Hok. unfold producer_step. destruct (producers b !! t) as [p|] eqn:Ht; [|done].
  pose proof (Forall_lookup_1 _ _ _ _ (bench_producers b Hok) Ht) as Hgood. unfold producer_good in Hgood.
  pose proof (producer_moves_ok t p) as Hmove.
  destruct (producer_at p) as [| |i|] eqn:Hat; [..|done]; unfold remaining, producer_arrived in Hmove;
    rewrite Hat in Hmove; cbn [producer_at first_value operations] in Hmove.
  - intros [= <-]. apply Hmove; try done. lia.
  - destruct (barrier_open _ _ b); [|done]. intros [= <-]. apply Hmove; try done. unfold producer_good. simpl. lia.
  - destruct (Z.ltb_spec i (operations p)) as [Hlt|Hge]; intros [= <-].
    + assert (1 ≤ first_value p + i ≤ total_operations)%Z as Hv.
      { eapply (pushed_in_range b t p); [done|done|]. unfold remaining. rewrite Hat. by apply to_push_next. }
      rewrite !u64_small by (unfold is_u64; lia).
      destruct (wq_push_law (first_value p + i) (bench_queue b)) as [Hc Ho];
        [by eapply still_open; [..|rewrite Hat]|].
      apply Hmove; try done; [|by rewrite Ho; symmetry; eapply still_open; [..|rewrite Hat]|unfold producer_good; simpl; lia].
      rewrite to_push_next by done. rewrite Hc. solve_Permutation.
    + apply Hmove; try done; [|unfold producer_good; simpl; lia]. unfold to_push. rewrite seqZ_nil by lia. done.
Qed.

Lemma taken_ok b : bench_ok b → wq_ready (bench_queue b) = true →
  match wq_contents (bench_queue b) with
  | [] => consumed b = total_operations
  | _ => True
  end.
Proof.
  intros Hok. rewrite wq_ready_law. destruct (wq_contents (bench_queue b)); [|done].
  simpl. rewrite orb_false_r, (bench_stopped b Hok). intros Hm. apply (bench_counted b Hok). left.
  by destruct (main b).
Qed.

Lemma consumer_step_ok t b b' :
  bench_ok b → consumer_step producer_count consumer_count total_operations t b = Some b' → bench_ok b'.
Proof.
  intros Hok. pose proof (bench_consumed b Hok) as [Hpos Hcons]. pose proof (bench_checksum b Hok) as Hsum.
  unfold consumer_step. destruct (consumers b !! t) as [[| | |v| |]|] eqn:Ht; try done.
  - intros [= <-]. eapply (consumer_moves_ok t); try done. simpl. lia.
  - destruct (barrier_open _ _ b); [|done]. intros [= <-]. by eapply (consumer_moves_ok t).
  - destruct (wq_ready (bench_queue b)) eqn:Hr; [|done]. pose proof (taken_ok b Hok Hr) as Hall.
    pose proof (wq_pop_law (bench_queue b)) as Hpop.
    destruct (wq_contents (bench_queue b)) as [|v l] eqn:Hl.
    + rewrite Hpop. intros [= <-]. by eapply (consumer_moves_ok t).
    + destruct Hpop as (q' & -> & Hd & Hc). intros [= <-].
      eapply (consumer_moves_ok t); try done. rewrite Hl, Hd. simpl. solve_Permutation.
  - intros [= <-]. eapply (consumer_moves_ok t); try done.
    + simpl. solve_Permutation.
    + rewrite zsum_app, Hsum, u64_add_l. f_equal. simpl. lia.
    + simpl. rewrite zlen_app. unfold zlen. simpl. lia.
  - intros [= <-]. pose proof (counting_lookup t b Ht) as Hone. pose proof (items_total b Hok) as Hlen.
    pose proof (zlen_nonneg (concat (remaining <$> producers b))).
    pose proof (zlen_nonneg (wq_contents (bench_queue b))).
    pose proof (zlen_nonneg (concat (in_hand <$> consumers b))).
    rewrite u64_small by (unfold is_u64; lia).
    eapply (consumer_moves_ok t); try done; zbool; simpl; try done; lia.
Qed.

Lemma main_step_ok b b' :
  bench_ok b → main_step producer_count consumer_count total_operations b = Some b' → bench_ok b'.
Proof.
  intros Hok. pose proof (items_total b Hok) as Hlen. pose proof Hok as [Hi Hp Hs [Hc0 Hc1] Ha Hl Hj Hcnt Hst].
  unfold main_step. destruct (main b) eqn:Hm; simpl in *; try done.
  - intros [= <-]. split; simpl; try done. lia.
  - destruct (barrier_open _ _ b); [|done]. intros [= <-]. by split.
  - destruct (forallb producer_ended (producers b)) eqn:Hend; [|done]. intros [= <-]. split; simpl; try done.
    intros _. apply Forall_forall. intros p Hin. apply forallb_forall with (x := p) in Hend;
      [|by apply list_elem_of_In]. unfold producer_ended in Hend. by destruct (producer_at p).
  - destruct (Z.ltb_spec (consumed b) total_operations) as [|Hge]; [done|]. intros [= <-].
    split; simpl; try done. intros _.
    pose proof (zlen_nonneg (concat (remaining <$> producers b))).
    pose proof (zlen_nonneg (wq_contents (bench_queue b))).
    pose proof (zlen_nonneg (concat (in_hand <$> consumers b))). lia.
  - intros [= <-]. destruct (wq_stop_law (bench_queue b)) as [Hsc Hcl]. split; simpl; try done; by rewrite Hsc.
  - destruct (forallb consumer_ended (consumers b)) eqn:Hend; [|done]. intros [= <-]. split; simpl; try done; auto.
Qed.

Lemma bench_ok_step b b' : bench_ok b → bench_step b b' → bench_ok b'.
Proof.
  intros Hok [[t|t|] He]; simpl in He; [by eapply producer_step_ok|by eapply consumer_step_ok|by eapply main_step_ok].
Qed.

Lemma bench_ok_reachable b :
  0 < producer_count →
  rtc bench_step (initial_benchmark producer_count consumer_count total_operations) b → bench_ok b.
Proof.
  intros Hp Hrun. eapply (rtc_invariant bench_step bench_ok); [|exact Hrun|by apply bench_ok_initial].
  intros b1 b2. apply bench_ok_step.
Qed.

(** ** Termination *)
Definition producer_weight p : nat :=
  match producer_at p with
  | ProducerArrives => 3 + 5 * Z.to_nat (operations p)
  | ProducerAtBarrier => 2 + 5 * Z.to_nat (operations p)
  | Pushes i => 1 + 5 * Z.to_nat (operations p - i)
  | ProducerEnded => 0
  end.

Definition consumer_weight c : nat :=
  match c with
  | ConsumerArrives | AddsChecksum _ => 3
  | ConsumerAtBarrier | Counts => 2
  | Takes => 1
  | ConsumerEnded => 0
  end.

Definition main_weight (m : main_point) : nat :=
  match m with
  | MainArrives => 6 | MainAtBarrier => 5 | JoinsProducers => 4 | Spins => 3 | StopsQueue => 2
  | JoinsConsumers => 1 | Verifies => 0
  end.

Definition bench_weight b : nat :=
  sum_list (producer_weight <$> producers b) + 4 * length (wq_contents (bench_queue b))
  + sum_list (consumer_weight <$> consumers b) + main_weight (main b).

Lemma producer_step_decreases t b b' :
  bench_ok b → producer_step producer_count consumer_count t b = Some b' → bench_weight b' < bench_weight b.
Proof.
  intros Hok. unfold producer_step, bench_weight. destruct (producers b !! t) as [p|] eqn:Ht; [|done].
  pose proof (Forall_lookup_1 _ _ _ _ (bench_producers b Hok) Ht) as Hgood. unfold producer_good in Hgood.
  pose proof (λ p', sum_list_insert producer_weight _ _ _ p' Ht) as Hw.
  destruct (producer_at p) as [| |i|] eqn:Hat; [..|done]; unfold producer_weight at 2 in Hw; rewrite Hat in Hw.
  - intros [= <-]. simpl. specialize (Hw (Producer (first_value p) (operations p) ProducerAtBarrier)).
    unfold producer_weight at 2 in Hw. simpl in Hw. lia.
  - destruct (barrier_open _ _ b); [|done]. intros [= <-]. simpl.
    specialize (Hw (Producer (first_value p) (operations p) (Pushes 0))).
    unfold producer_weight at 2 in Hw. simpl in Hw. rewrite Z.sub_0_r in Hw. lia.
  - destruct (Z.ltb_spec i (operations p)) as [Hlt|Hge]; intros [= <-]; simpl.
    + destruct (wq_push_law (u64 (first_value p + i)) (bench_queue b)) as [Hc _];
        [by eapply still_open; [..|rewrite Hat]|].
      rewrite Hc, length_app. simpl. rewrite u64_small by (unfold is_u64; lia).
      specialize (Hw (Producer (first_value p) (operations p) (Pushes (i + 1)))).
      unfold producer_weight at 2 in Hw. simpl in Hw. lia.
    + specialize (Hw (Producer (first_value p) (operations p) ProducerEnded)).
      unfold producer_weight at 2 in Hw. simpl in Hw. lia.
Qed.

Lemma consumer_step_decreases t b b' :
  consumer_step producer_count consumer_count total_operations t b = Some b' → bench_weight b' < bench_weight b.
Proof.
  unfold consumer_step, bench_weight. destruct (consumers b !! t) as [c|] eqn:Ht; [|done].
  pose proof (λ c', sum_list_insert consumer_weight _ _ _ c' Ht) as Hw.
  destruct c as [| | |v| |]; try done.
  - intros [= <-]. simpl. specialize (Hw ConsumerAtBarrier). simpl in Hw. lia.
  - destruct (barrier_open _ _ b); [|done]. intros [= <-]. simpl. specialize (Hw Takes). simpl in Hw. lia.
  - destruct (wq_ready (bench_queue b)); [|done]. pose proof (wq_pop_law (bench_queue b)) as Hpop.
    destruct (wq_contents (bench_queue b)) as [|v l] eqn:Hl.
    + rewrite Hpop. intros [= <-]. simpl. rewrite Hl. specialize (Hw ConsumerEnded). simpl in *. lia.
    + destruct Hpop as (q' & -> & Hd & _). intros [= <-]. simpl. rewrite Hd.
      specialize (Hw (AddsChecksum v)). simpl in *. lia.
  - intros [= <-]. simpl. specialize (Hw Counts). simpl in Hw. lia.
  - intros [= <-]. simpl. destruct (_ =? _)%Z; [specialize (Hw ConsumerEnded)|specialize (Hw Takes)];
      simpl in Hw; lia.
Qed.

Lemma main_step_decreases b b' :
  main_step producer_count consumer_count total_operations b = Some b' → bench_weight b' < bench_weight b.
Proof.
  unfold main_step, bench_weight. destruct (wq_stop_law (bench_queue b)) as [Hs _].
  destruct (main b) eqn:Hm; intros Hstep; repeat case_match; simplify_eq; simpl; rewrite ?Hs, ?Hm; simpl; lia.
Qed.

Lemma bench_accessible b : bench_ok b → Acc (flip bench_step) b.
Proof.
  remember (bench_weight b) as n eqn:Hn. revert b Hn. induction (lt_wf n) as [n _ IH].
  intros b -> Hok. constructor. intros b' Hstep. unfold flip in Hstep.
  apply (IH (bench_weight b')); [|done|by apply (bench_ok_step b)].
  destruct Hstep as [[t|t|] He]; simpl in He;
    [by eapply producer_step_decreases|by eapply consumer_step_decreases|by eapply main_step_decreases].
Qed.

(** ** No deadlock *)
Lemma sum_list_ones {A : Type} (f : A → nat) (l : list A) :
  Forall (λ x, f x = 1) l → sum_list (f <$> l) = length l.
Proof. induction 1 as [|x l Hx _ IH]; simpl; [done|]. rewrite Hx. exact (f_equal S IH). Qed.

Definition stuck b : Prop := ∀ b', ¬ bench_step b b'.

Lemma stuck_barrier b : bench_ok b → stuck b → barrier_open producer_count consumer_count b = true.
Proof.
  intros Hok Hstuck. unfold barrier_open. rewrite (bench_arrived b Hok).
  destruct (bench_lengths b Hok) as [Hlp Hlc]. rewrite !sum_list_ones, Hlp, Hlc.
  - destruct (main b) eqn:Hm; simpl; [exfalso|by apply Nat.eqb_refl..].
    eapply Hstuck. exists OfMain. simpl. unfold main_step. by rewrite Hm.
  - apply Forall_lookup_2. intros t c Ht. destruct c; try done. exfalso.
    eapply Hstuck. exists (OfConsumer t). simpl. unfold consumer_step. by rewrite Ht.
  - apply Forall_lookup_2. intros t p Ht. unfold producer_arrived.
    destruct (producer_at p) eqn:Hat; try done. exfalso.
    eapply Hstuck. exists (OfProducer t). simpl. unfold producer_step. by rewrite Ht, Hat.
Qed.

Lemma stuck_producers b : bench_ok b → stuck b → Forall (λ p, producer_at p = ProducerEnded) (producers b).
Proof.
  intros Hok Hstuck. pose proof (stuck_barrier b Hok Hstuck) as Hopen.
  apply Forall_lookup_2. intros t p Ht.
  destruct (producer_at p) as [| |i|] eqn:Hat; [exfalso..|done].
  - eapply Hstuck. exists (OfProducer t). simpl. unfold producer_step. by rewrite Ht, Hat.
  - eapply Hstuck. exists (OfProducer t). simpl. unfold producer_step. by rewrite Ht, Hat, Hopen.
  - destruct (i <? operations p)%Z eqn:Hi; eapply Hstuck; exists (OfProducer t); simpl;
      unfold producer_step; by rewrite Ht, Hat, Hi.
Qed.

Lemma stuck_consumer b t c :
  bench_ok b → stuck b → consumers b !! t = Some c →
  c = ConsumerEnded ∨ (c = Takes ∧ wq_ready (bench_queue b) = false).
Proof.
  intros Hok Hstuck Ht. pose proof (stuck_barrier b Hok Hstuck) as Hopen.
  destruct c as [| | |v| |]; [exfalso|exfalso| |exfalso|exfalso|by left].
  - eapply Hstuck. exists (OfConsumer t). simpl. unfold consumer_step. by rewrite Ht.
  - eapply Hstuck. exists (OfConsumer t). simpl. unfold consumer_step. by rewrite Ht, Hopen.
  - right. split; [done|]. destruct (wq_ready (bench_queue b)) eqn:Hr; [exfalso|done].
    destruct (wq_pop_ready (bench_queue b)) as [value q'] eqn:Hpop.
    eapply Hstuck. exists (OfConsumer t). simpl. unfold consumer_step. by rewrite Ht, Hr, Hpop.
  - eapply Hstuck. exists (OfConsumer t). simpl. unfold consumer_step. by rewrite Ht.
  - eapply Hstuck. exists (OfConsumer t). simpl. unfold consumer_step. by rewrite Ht.
Qed.

(** Not all is counted: an item is left in the queue, and a consumer for it. *)
Lemma stuck_counted b : 0 < consumer_count → bench_ok b → stuck b → consumed b = total_operations.
Proof.
  intros Hcc Hok Hstuck. destruct (decide (ConsumerEnded ∈ consumers b)) as [Hin|Hnone].
  { apply (bench_counted b Hok). by right. }
  assert (Forall (λ c, c = Takes ∧ wq_ready (bench_queue b) = false) (consumers b)) as Hall.
  { apply Forall_lookup_2. intros t c Ht. destruct (stuck_consumer b t c Hok Hstuck Ht) as [->|?]; [|done].
    destruct Hnone. by eapply list_elem_of_lookup_2. }
  assert (concat (in_hand <$> consumers b) = [] ∧ sum_list (counting <$> consumers b) = 0) as [Hh Hc].
  { clear -Hall. induction Hall as [|c l [-> _] _ [IH1 IH2]]; [done|]. by split. }
  assert (concat (remaining <$> producers b) = []) as Hr.
  { pose proof (stuck_producers b Hok Hstuck) as Hp. clear -Hp.
    induction Hp as [|p l Hat _ IH]; [done|]. simpl. unfold remaining at 1. rewrite Hat. exact IH. }
  assert (wq_ready (bench_queue b) = false) as Hready.
  { destruct (bench_lengths b Hok) as [_ Hlc]. destruct (consumers b) as [|c l]; [simpl in Hlc; lia|].
    by apply Forall_cons in Hall as [[_ ?] _]. }
  rewrite wq_ready_law in Hready. apply orb_false_iff in Hready as [_ Hq].
  apply negb_false_iff, bool_decide_eq_true in Hq.
  pose proof (items_total b Hok) as Hlen. destruct (bench_consumed b Hok) as [_ Hcons].
  rewrite Hr, Hh, Hq, Hc in *. unfold zlen in *. simpl in *. lia.
Qed.

Lemma stuck_verifies b : 0 < consumer_count → bench_ok b → stuck b → main b = Verifies.
Proof.
  intros Hcc Hok Hstuck. pose proof (stuck_barrier b Hok Hstuck) as Hopen.
  pose proof (stuck_counted b Hcc Hok Hstuck) as Hall. pose proof (bench_stopped b Hok) as Hst.
  destruct (main b) eqn:Hm; [exfalso..|done]; eapply Hstuck; exists OfMain; simpl; unfold main_step; rewrite Hm.
  - done.
  - by rewrite Hopen.
  - replace (forallb producer_ended (producers b)) with true; [done|]. symmetry. apply forallb_forall.
    intros p Hin%list_elem_of_In. pose proof (stuck_producers b Hok Hstuck) as Hp.
    rewrite Forall_forall in Hp. unfold producer_ended. by rewrite (Hp p Hin).
  - by rewrite Hall, Z.ltb_irrefl.
  - done.
  - replace (forallb consumer_ended (consumers b)) with true; [done|]. symmetry. apply forallb_forall.
    intros c Hin%list_elem_of_In. apply list_elem_of_lookup in Hin as [t Ht].
    destruct (stuck_consumer b t c Hok Hstuck Ht) as [->|[_ Hr]]; [done|].
    by rewrite wq_ready_law, Hst in Hr.
Qed.

(** ** The final checks *)
Lemma double_sum n : (0 ≤ n)%Z → (2 * zsum (λ v, v) (seqZ 1 n) = n * (n + 1))%Z.
Proof.
  intros Hn. rewrite <-(Z2Nat.id n Hn). generalize (Z.to_nat n) as k. clear. intros k.
  induction k as [|k IH]; [done|]. rewrite seqZ_S, zsum_app. simpl zsum at 2. lia.
Qed.

Lemma sum_of_operations : zsum (λ v, v) (seqZ 1 total_operations) = (total_operations * (total_operations + 1) / 2)%Z.
Proof. pose proof (double_sum total_operations ltac:(lia)) as Hd. rewrite <-Hd, Z.mul_comm, Z.div_mul; lia. Qed.

Lemma expected_is_half_width :
  expected_checksum total_operations = (zsum (λ v, v) (seqZ 1 total_operations) mod 2 ^ 63)%Z.
Proof.
  unfold expected_checksum. unfold u64. rewrite Z.mul_mod_idemp_r by (unfold two64; lia).
  rewrite <-double_sum by lia. replace two64 with (2 * 2 ^ 63)%Z by done.
  rewrite Z.mul_mod_distr_l by lia. rewrite Z.mul_comm, Z.div_mul; lia.
Qed.

(** The [checksum] wraps at 2{^64}, what it is compared with at 2{^63}. *)
Lemma checks_agree :
  (u64 (zsum (λ v, v) (seqZ 1 total_operations)) = expected_checksum total_operations
   ↔ u64 (total_operations * (total_operations + 1) / 2) < 2 ^ 63)%Z.
Proof.
  rewrite expected_is_half_width, <-sum_of_operations. set (sum := zsum _ _).
  assert (sum mod 2 ^ 63 = u64 sum mod 2 ^ 63)%Z as ->
    by (symmetry; apply Z.mod_mod_divide; by exists 2%Z).
  pose proof (u64_range sum) as Hr. unfold is_u64 in Hr. split; intros Hs.
  - rewrite Hs. apply Z.mod_pos_bound. lia.
  - symmetry. apply Z.mod_small. lia.
Qed.

Lemma verifies_result b :
  bench_ok b → main b = Verifies →
  added b ≡ₚ seqZ 1 total_operations ∧ consumed b = total_operations
  ∧ checksum b = u64 (total_operations * (total_operations + 1) / 2)
  ∧ (verified total_operations b = true ↔ u64 (total_operations * (total_operations + 1) / 2) < 2 ^ 63)%Z.
Proof.
  intros Hok Hm.
  assert (consumed b = total_operations) as Hall by (apply (bench_counted b Hok); left; by rewrite Hm).
  destruct (counted_full b Hok Hall) as (Hadded & _ & _).
  pose proof (bench_checksum b Hok) as Hsum. rewrite (zsum_permutation _ _ _ Hadded) in Hsum.
  split_and!; [done..|by rewrite Hsum, sum_of_operations|].
  unfold verified. rewrite Hall, Z.eqb_refl, Hsum. simpl. rewrite Z.eqb_eq. apply checks_agree.
Qed.
End run_lemmas.

(** ** The command line

    [main] with the arguments after the name of the program: the producers, the
    consumers and the operations, or [None] when it prints its usage or an error
    and returns. *)
Section command_line.
Local Open Scope Z_scope.

Definition DEFAULT_PRODUCERS : Z := 4.
Definition DEFAULT_CONSUMERS : Z := 4.
Definition DEFAULT_OPERATIONS_COUNT : Z := 100000000.

(** An argument, read if it is there. *)
Definition argument (read : string → outcome Z) (default_value : Z) (argv : list string) (i : nat) : outcome Z :=
  match argv !! i with Some text => read text | None => Returns default_value end.

Definition read_workload (argv : list string) : option (Z * Z * Z) :=
  if bool_decide (argv !! 0%nat = Some "--help"%string) then None
  else
    let arguments :=
      let! producer_count := argument stoi DEFAULT_PRODUCERS argv 0 in
      let! consumer_count := argument stoi DEFAULT_CONSUMERS argv 1 in
      let! total_operations := argument stoull DEFAULT_OPERATIONS_COUNT argv 2 in
      Returns (producer_count, consumer_count, total_operations) in
    match arguments with
    | Returns (producer_count, consumer_count, total_operations) =>
        if producer_count <=? 0 then None
        else if consumer_count <=? 0 then None
        else if total_operations =? 0 then None
        else Some (producer_count, consumer_count, total_operations)
    | _ => None
    end.

(** Whatever is accepted is a workload the benchmark is right for. *)
Lemma read_workload_positive argv p c n :
  read_workload argv = Some (p, c, n) → 0 < p ∧ 0 < c ∧ 0 < n < two64.
Proof.
  unfold read_workload. destruct (bool_decide _); [done|].
  destruct (argument stoi DEFAULT_PRODUCERS argv 0) as [p0| |]; simpl; [|done..].
  destruct (argument stoi DEFAULT_CONSUMERS argv 1) as [c0| |]; simpl; [|done..].
  destruct (argument stoull DEFAULT_OPERATIONS_COUNT argv 2) as [n0| |] eqn:Hn; simpl; [|done..].
  assert (is_u64 n0) as Hrange.
  { unfold argument in Hn. destruct (argv !! 2%nat); [by eapply stoull_range|]. by injection Hn as <-. }
  zbool; try done. intros E. injection E as <- <- <-. unfold is_u64 in Hrange. lia.
Qed.

(** A minus sign is read by [stoull]: this is a workload of 2{^64} - 1 operations. *)
Example negative_operations_are_accepted :
  read_workload ["4"; "4"; "-1"] = Some (4, 4, 18446744073709551615).
Proof. vm_compute. reflexivity. Qed.
End command_line.

(** ** Properties *)

(** C16. The benchmark counts every operation once.  With any queue that keeps
    the interface ([thread_safe_queue] with any flags and limits, and the
    baseline), any positive numbers of producers and consumers and any total
    that fits in [uint64_t]: from every reachable state only finitely many
    steps are left, no state is a deadlock, and when the main thread verifies
    the result every value from 1 to the total has been added exactly once,
    [consumed] is the total and [checksum] the sum modulo 2{^64}; the check of
    the checksum passes if and only if that sum modulo 2{^64} is below 2{^63}. *)
Theorem benchmark_counts_every_operation_once `{WorkQueueLaws} (producer_count consumer_count : nat)
    (total : Z) (b : benchmark) :
  0 < producer_count → 0 < consumer_count → (0 < total < two64)%Z →
  let bench_step := bench_step producer_count consumer_count total in
  rtc bench_step (initial_benchmark producer_count consumer_count total) b →
  Acc (flip bench_step) b
  ∧ ((∀ b', ¬ bench_step b b') → main b = Verifies)
  ∧ (main b = Verifies →
     added b ≡ₚ seqZ 1 total ∧ consumed b = total ∧ checksum b = u64 (total * (total + 1) / 2)
     ∧ (verified total b = true ↔ u64 (total * (total + 1) / 2) < 2 ^ 63)%Z).
Proof.
  intros Hp Hc Htotal bench_step Hrun.
  pose proof (bench_ok_reachable producer_count consumer_count total Htotal b Hp Hrun) as Hok.
  split_and!.
  - by eapply bench_accessible.
  - intros Hstuck. by eapply stuck_verifies.
  - intros Hm. by eapply verifies_result.
Qed.

(** The baseline is the queue it is compared with, until the stop: as long as
    nothing is added after a [stop], [mutex_deque] and [thread_safe_queue], with
    any flags and limits, return the same from every call of [wait_and_pop] and
    block at the same call. *)
Theorem baseline_agrees_until_the_stop (cfg : queue_config) (cs : list work_call) :
  pushes_before_stop false cs = true →
  @work_results mutex_deque_queue cs wq_new = @work_results (thread_safe_work_queue cfg) cs wq_new.
Proof.
  intros Hcs.
  transitivity (promised_results cs [] false).
  - exact (@work_results_promised _ mutex_deque_laws cs (MutexDeque [] false) Hcs).
  - symmetry. exact (@work_results_promised _ (thread_safe_work_queue_laws cfg) cs new_queue Hcs).
Qed.

(** After the stop they differ: [thread_safe_queue::push_back] adds to a stopped
    queue, the baseline drops the value. *)
Theorem baseline_differs_after_the_stop (cfg : queue_config) (v : Z) :
  let cs := [Stop; PushBack v; WaitAndPop] in
  @work_results mutex_deque_queue cs wq_new = Some [None]
  ∧ @work_results (thread_safe_work_queue cfg) cs wq_new = Some [Some v].
Proof. by destruct cfg as [? [] ? [|?|?]]. Qed.

(** With 2{^32} operations a run in which every value was consumed exactly once
    fails the check of the checksum. *)
Theorem checksum_of_large_workload_is_rejected `{WorkQueueLaws} (producer_count consumer_count : nat)
    (b : benchmark) :
  let total := (2 ^ 32)%Z in
  0 < producer_count →
  rtc (bench_step producer_count consumer_count total)
    (initial_benchmark producer_count consumer_count total) b →
  main b = Verifies → verified total b = false.
Proof.
  intros total Hp Hrun Hm.
  pose proof (bench_ok_reachable producer_count consumer_count total ltac:(done) b Hp Hrun) as Hok.
  destruct (verifies_result producer_count consumer_count total ltac:(done) b Hok Hm) as (_ & _ & _ & Hv).
  destruct (verified total b); [|done]. destruct Hv as [Hv _]. by specialize (Hv eq_refl).
Qed.

(** ** Witnesses: two producers, two consumers, three operations *)
Section witnesses.
#[local] Existing Instance mutex_deque_queue.

(** Lets each of the threads take its step, in this order, if it has one. *)
Definition run_enabled `{WorkQueue} (events : list benchmark_event) (b : benchmark) : benchmark :=
  foldl (λ b e, default b (benchmark_step 2 2 3 e b)) b events.

Lemma run_enabled_steps `{WorkQueue} events b : rtc (bench_step 2 2 3) b (run_enabled events b).
Proof.
  revert b. induction events as [|e events IH]; intros b; simpl; [done|].
  destruct (benchmark_step 2 2 3 e b) as [b1|] eqn:E; [|apply IH].
  eapply rtc_l; [by exists e|apply IH].
Qed.

Definition round : list benchmark_event :=
  [OfMain; OfConsumer 0; OfProducer 1; OfConsumer 1; OfProducer 0].

Definition finished_benchmark : benchmark :=
  run_enabled (concat (replicate 20 round)) (initial_benchmark 2 2 3).

Lemma benchmark_counts_every_operation_once_witness :
  (main finished_benchmark = Verifies ∧ added finished_benchmark = [3; 1; 2]%Z
    ∧ verified 3 finished_benchmark = true) ∧
  let bench_step := bench_step 2 2 3 in
  Acc (flip bench_step) finished_benchmark
  ∧ ((∀ b', ¬ bench_step finished_benchmark b') → main finished_benchmark = Verifies)
  ∧ (main finished_benchmark = Verifies →
     added finished_benchmark ≡ₚ seqZ 1 3 ∧ consumed finished_benchmark = 3%Z
     ∧ checksum finished_benchmark = u64 (3 * (3 + 1) / 2)
     ∧ (verified 3 finished_benchmark = true ↔ u64 (3 * (3 + 1) / 2) < 2 ^ 63)%Z).
Proof.
  split; [vm_compute; auto|].
  apply (benchmark_counts_every_operation_once 2 2 3 finished_benchmark).
  - lia.
  - lia.
  - done.
  - apply run_enabled_steps.
Defined.

Lemma baseline_agrees_until_the_stop_witness :
  let cs := [PushBack 1; PushBack 2; WaitAndPop; Stop; WaitAndPop; WaitAndPop]%Z in
  work_results cs wq_new = Some [Some 1; Some 2; None]%Z
  ∧ work_results cs wq_new = @work_results (thread_safe_work_queue (bounded_config 1 8)) cs wq_new.
Proof.
  split; [reflexivity|]. apply baseline_agrees_until_the_stop. reflexivity.
Defined.
End witnesses.
