(* ===== verification/BenchmarkStartup.v ===== *)
(** * Starting the clients of the server benchmarks

    [http_benchmark.cpp] and [socket_benchmark.cpp] in [src/testing/benchmarks]
    have the same protocol: the clients connect, count themselves as ready and
    wait for [start_measurement]; [run_benchmark] waits for all of them, with a
    timeout, and starts the measurement or gives up.  Each step is one critical
    section of [startup.mutex] or one access outside of it. *)
From S2P Require Import Prelude.

(** Where a client thread is in [run_client]; what it counts in
    [client_result::failed] is kept with it. *)
Inductive client_point :=
  (** Resolving, connecting (and the WebSocket handshake). *)
  | Connecting
  (** [++startup.ready_clients] comes next. *)
  | Connected
  (** In [startup.cv.wait]. *)
  | AwaitsStart
  (** Past the wait; reads [startup.failed] under the mutex. *)
  | LooksAtFailed
  (** In the measurement loop. *)
  | Measures
  (** In [report_startup_failure]. *)
  | Reports
  | Returned.

Record client := Client { client_at : client_point; client_failed : nat; measured : bool }.

(** The points of [run_benchmark]. *)
Inductive runner_point := AwaitsClients | JoinsClients | Finished.

Record startup_state := Startup {
  ready_clients : nat;
  failed : bool;
  start_measurement : bool;
  clients : list client;
  runner : runner_point;
  startup_successful : bool
}.
Implicit Types (s : startup_state) (c : client).

Section startup.
(** [config.connections]. *)
Context (connections : nat).

Definition initial_startup : startup_state :=
  Startup 0 false false (replicate connections (Client Connecting 0 false)) AwaitsClients false.

(** What the outside decides: whether connecting works, how a measurement loop
    ends ([errors] more failed requests, or an exception; in the socket benchmark
    an exception there also meets the running receiver thread, whose destructor
    ends the program), whether the wait of [run_benchmark] times out. *)
Inductive startup_event :=
  | Connects (i : nat) (ok : bool)
  | CountsReady (i : nat)
  | Wakes (i : nat)
  | ReadsFailed (i : nat)
  | EndsMeasuring (i : nat) (errors : nat) (throws : bool)
  | ReportsFailure (i : nat)
  | Decides (timed_out : bool)
  | JoinsAll.

Definition with_client (i : nat) c s : startup_state :=
  Startup (ready_clients s) (failed s) (start_measurement s) (<[i := c]> (clients s)) (runner s)
    (startup_successful s).

Definition returned c : bool := match client_at c with Returned => true | _ => false end.

(** The step of client [i], which is at [c]. *)
Definition client_step (e : startup_event) (i : nat) c s : option startup_state :=
  match e, client_at c with
  | Connects _ true, Connecting => Some (with_client i (Client Connected (client_failed c) (measured c)) s)
  | Connects _ false, Connecting =>
      Some (with_client i (Client Reports (S (client_failed c)) (measured c)) s)
  | CountsReady _, Connected =>
      Some (Startup (S (ready_clients s)) (failed s) (start_measurement s)
        (<[i := Client AwaitsStart (client_failed c) (measured c)]> (clients s)) (runner s)
        (startup_successful s))
  | Wakes _, AwaitsStart =>
      if start_measurement s || failed s
      then Some (with_client i (Client LooksAtFailed (client_failed c) (measured c)) s) else None
  | ReadsFailed _, LooksAtFailed =>
      let at_point := if failed s then Returned else Measures in
      Some (with_client i (Client at_point (client_failed c) (negb (failed s))) s)
  | EndsMeasuring _ errors throws, Measures =>
      let at_point := if throws then Reports else Returned in
      let more := if throws then S errors else errors in
      Some (with_client i (Client at_point (client_failed c + more) (measured c)) s)
  | ReportsFailure _, Reports =>
      Some (Startup (ready_clients s) true (start_measurement s)
        (<[i := Client Returned (client_failed c) (measured c)]> (clients s)) (runner s)
        (startup_successful s))
  | _, _ => None
  end.

(** [startup.cv.wait_for] and the rest of the block that holds the mutex: the
    wait returns its predicate, also after a timeout. *)
Definition decide_startup (timed_out : bool) s : option startup_state :=
  let predicate := (ready_clients s =? connections) || failed s in
  if predicate || timed_out then
    let failed' := failed s || negb predicate in
    Some (Startup (ready_clients s) failed' (start_measurement s || negb failed') (clients s)
      JoinsClients (negb failed'))
  else None.

Definition startup_step (e : startup_event) s : option startup_state :=
  match e with
  | Connects i _ | CountsReady i | Wakes i | ReadsFailed i | EndsMeasuring i _ _ | ReportsFailure i =>
      match clients s !! i with Some c => client_step e i c s | None => None end
  | Decides timed_out =>
      match runner s with AwaitsClients => decide_startup timed_out s | _ => None end
  | JoinsAll =>
      match runner s with
      | JoinsClients =>
          if forallb returned (clients s) then
            Some (Startup (ready_clients s) (failed s) (start_measurement s) (clients s) Finished
              (startup_successful s))
          else None
      | _ => None
      end
  end.

(** [result.failed]: at least one when the start failed. *)
Definition failed_count s : nat :=
  let sum := sum_list (client_failed <$> clients s) in
  if negb (startup_successful s) && (sum =? 0) then 1 else sum.

Definition any_startup_step s s' : Prop := ∃ e, startup_step e s = Some s'.

(** ** Invariant *)

(** A client still on its way to counting itself. *)
Definition pending c : nat := match client_at c with Connecting | Connected => 1 | _ => 0 end.

Definition client_ok (start fail : bool) c : Prop :=
  (measured c = true → start = true)
  ∧ match client_at c with
    | LooksAtFailed => start = true ∨ fail = true
    | Measures => measured c = true
    | Reports => 0 < client_failed c
    | Returned => measured c = true ∨ 0 < client_failed c ∨ fail = true
    | _ => True
    end.

Record startup_ok s : Prop := StartupOk {
  ok_clients : Forall (client_ok (start_measurement s) (failed s)) (clients s);
  (** Somebody has counted a failure, or [run_benchmark] has given up. *)
  ok_failed : failed s = true →
    (∃ i c, clients s !! i = Some c ∧ 0 < client_failed c)
    ∨ (runner s ≠ AwaitsClients ∧ startup_successful s = false);
  ok_undecided : runner s = AwaitsClients → start_measurement s = false;
  ok_decided : runner s ≠ AwaitsClients →
    startup_successful s = start_measurement s ∧ (start_measurement s = true ∨ failed s = true);
  ok_count : length (clients s) = connections;
  ok_ready : ready_clients s + sum_list (pending <$> clients s) ≤ connections;
  ok_started : start_measurement s = true → ready_clients s = connections;
  ok_finished : runner s = Finished → Forall (λ c, client_at c = Returned) (clients s)
}.

Lemma client_ok_mono (start start' fail fail' : bool) c :
  (start = true → start' = true) → (fail = true → fail' = true) →
  client_ok start fail c → client_ok start' fail' c.
Proof.
  unfold client_ok. intros Hs Hf [Hm Hc]. split; [auto|]. destruct (client_at c); naive_solver.
Qed.

Lemma startup_ok_initial : startup_ok initial_startup.
Proof.
  split; simpl; try done.
  - by apply Forall_replicate.
  - by rewrite length_replicate.
  - assert (∀ n, sum_list (pending <$> replicate n (Client Connecting 0 false)) = n) as ->; [|done].
    intros n. induction n as [|n IH]; [done|]. exact (f_equal S IH).
Qed.

(** Client [i] moves from [c] to [c']. *)
Lemma startup_ok_client i c c' (r : nat) (f : bool) s :
  startup_ok s → clients s !! i = Some c → client_at c ≠ Returned →
  client_failed c ≤ client_failed c' →
  (f = failed s ∨ (f = true ∧ 0 < client_failed c')) →
  client_ok (start_measurement s) f c' →
  r + pending c' ≤ ready_clients s + pending c → (r = ready_clients s ∨ pending c = 1) →
  startup_ok (Startup r f (start_measurement s) (<[i := c']> (clients s)) (runner s) (startup_successful s)).
Proof.
  intros [Hc Hf Hu Hd Hn Hr Hs Hfin] Hi Hlive Hmore Hfail Hc' Hready Hsame.
  pose proof (sum_list_insert pending _ _ _ c' Hi) as Hsum.
  assert (failed s = true → f = true) as Hff by (destruct Hfail as [->|[-> _]]; auto).
  split; simpl.
  - apply Forall_insert; [|done]. eapply Forall_impl; [exact Hc|]. intros c0. by apply client_ok_mono.
  - assert (0 < client_failed c' → ∃ j c0, <[i:=c']> (clients s) !! j = Some c0 ∧ 0 < client_failed c0) as Hnew.
    { intros Hpos. exists i, c'. split; [|done]. apply list_lookup_insert_eq. by eapply lookup_lt_Some. }
    intros Ht. destruct Hfail as [->|[_ Hpos]]; [|left; auto].
    destruct (Hf Ht) as [(j & c0 & Hj & Hpos)|?]; [left|by right].
    destruct (decide (j = i)) as [->|Hne]; [apply Hnew; replace c0 with c in * by congruence; lia|].
    exists j, c0. by rewrite list_lookup_insert_ne.
  - done.
  - intros Hrun. destruct (Hd Hrun) as [Hsucc Hor]. split; [done|]. destruct Hor; auto.
  - by rewrite length_insert.
  - lia.
  - intros Hstart. specialize (Hs Hstart). destruct Hsame as [->|Hp]; [done|].
    exfalso. pose proof (sum_list_insert pending _ _ _ (Client Returned 0 false) Hi) as Hzero.
    change (pending (Client Returned 0 false)) with 0 in Hzero. lia.
  - intros Hdone. destruct Hlive. exact (Forall_lookup_1 _ _ _ _ (Hfin Hdone) Hi).
Qed.

Lemma startup_ok_decide timed_out s s' :
  startup_ok s → runner s = AwaitsClients → decide_startup timed_out s = Some s' → startup_ok s'.
Proof.
  intros [Hc Hf Hu Hd Hn Hr Hs Hfin] Hrun. unfold decide_startup. rewrite (Hu Hrun). simpl.
  set (f := failed s || negb (_ || _)). destruct (_ || timed_out); [|done]. intros E. injection E as <-.
  assert (f = false → ready_clients s = connections) as Hall.
  { unfold f. destruct (Nat.eqb_spec (ready_clients s) connections), (failed s); done. }
  split; simpl; try done.
  - eapply Forall_impl; [exact Hc|]. intros c. rewrite (Hu Hrun). apply client_ok_mono; [done|].
    unfold f. by intros ->.
  - intros ->. by right.
  - intros _. split; [done|]. destruct f; auto.
  - destruct f; [done|]. auto.
Qed.

(** The side conditions of [startup_ok_client] that hold by computation. *)
Ltac moves H := apply H; unfold pending; simpl; try done; try lia; auto.

Lemma startup_ok_step e s s' : startup_step e s = Some s' → startup_ok s → startup_ok s'.
Proof.
  intros Hstep Hok.
  assert (∀ i, match clients s !! i with Some c => client_step e i c s | None => None end = Some s' →
    startup_ok s') as Hclient.
  { intros i Hi. destruct (clients s !! i) as [c|] eqn:Hc; [|done].
    pose proof (Forall_lookup_1 _ _ _ _ (ok_clients _ Hok) Hc) as [Hm Hat].
    pose proof (startup_ok_client i c) as Hmove.
    assert (pending c = match client_at c with Connecting | Connected => 1 | _ => 0 end) as Hpend by done.
    unfold client_step, with_client in Hi. rewrite Hpend in Hmove. clear Hpend. revert Hi Hat Hmove.
    destruct e as [j ok|j|j|j|j errors throws|j|t|], (client_at c) eqn:Hp; try done;
      try destruct ok; intros Hi Hat Hmove; simplify_eq.
    - moves Hmove.
    - moves Hmove. split; simpl; [done|lia].
    - moves Hmove.
    - destruct (start_measurement s || failed s) eqn:Hwake; [|done]. simplify_eq.
      moves Hmove. split; [done|]. simpl. by apply orb_true_iff.
    - destruct (failed s) eqn:Hf; moves Hmove; (split; simpl; [|auto]); [done|].
      intros _. destruct Hat; [done|congruence].
    - destruct throws; moves Hmove; split; simpl; auto. lia.
    - moves Hmove. split; simpl; auto. }
  destruct e; simpl in Hstep; try (by eapply Hclient).
  - destruct (runner s) eqn:Hrun; try done. by eapply startup_ok_decide.
  - destruct (runner s) eqn:Hrun; try done.
    destruct (forallb returned (clients s)) eqn:Hall; [|done]. injection Hstep as <-.
    destruct Hok as [Hc Hf Hu Hd Hn Hr Hs Hfin]. split; simpl; try done.
    + intros Ht. destruct (Hf Ht) as [?|[_ ?]]; [by left|right]. split; [done|done].
    + intros _. apply Hd. by rewrite Hrun.
    + intros _. apply Forall_forall. intros c Hin. apply list_elem_of_In in Hin.
      rewrite forallb_forall in Hall. specialize (Hall c Hin). unfold returned in Hall.
      by destruct (client_at c).
Qed.

Lemma startup_ok_reachable s : rtc any_startup_step initial_startup s → startup_ok s.
Proof.
  intros Hrun. apply (rtc_invariant any_startup_step startup_ok) with initial_startup;
    [|done|apply startup_ok_initial].
  intros s1 s2 Hok [e He]. by apply (startup_ok_step e s1).
Qed.

(** ** Termination *)
Definition client_distance c : nat :=
  match client_at c with
  | Connecting => 6 | Connected => 5 | AwaitsStart => 4 | LooksAtFailed => 3 | Measures => 2
  | Reports => 1 | Returned => 0
  end.

Definition startup_distance s : nat :=
  sum_list (client_distance <$> clients s)
  + match runner s with AwaitsClients => 2 | JoinsClients => 1 | Finished => 0 end.

Lemma startup_step_decreases e s s' : startup_step e s = Some s' → startup_distance s' < startup_distance s.
Proof.
  intros Hstep. unfold startup_distance.
  assert (∀ i, match clients s !! i with Some c => client_step e i c s | None => None end = Some s' →
    runner s' = runner s
    ∧ sum_list (client_distance <$> clients s') < sum_list (client_distance <$> clients s)) as Hclient.
  { intros i Hi. destruct (clients s !! i) as [c|] eqn:Hc; [|done].
    pose proof (λ c', sum_list_insert client_distance _ _ _ c' Hc) as Hsum.
    unfold client_distance at 2 in Hsum.
    unfold client_step, with_client in Hi. revert Hi Hsum.
    destruct e as [j ok|j|j|j|j errors throws|j|t|], (client_at c) eqn:Hp; try done;
      try destruct ok; try destruct (start_measurement s || failed s); intros Hi Hsum; simplify_eq;
      try destruct (failed s); try destruct throws; simpl; (split; [done|]);
      match goal with |- context [ <[i := ?c']> _ ] => specialize (Hsum c') end;
      unfold client_distance at 2 in Hsum; simpl in Hsum; lia. }
  destruct e; simpl in Hstep; try (by apply Hclient in Hstep as [-> ?]; lia).
  - destruct (runner s) eqn:Hrun; try done. unfold decide_startup in Hstep.
    destruct (_ || timed_out); [|done]. injection Hstep as <-. simpl. lia.
  - destruct (runner s) eqn:Hrun; try done. destruct (forallb returned _); [|done].
    injection Hstep as <-. simpl. lia.
Qed.

Lemma startup_accessible s : Acc (flip any_startup_step) s.
Proof.
  remember (startup_distance s) as n eqn:Hn. revert s Hn. induction (lt_wf n) as [n _ IH].
  intros s ->. constructor. intros s' [e He].
  exact (IH (startup_distance s') (startup_step_decreases e s s' He) s' eq_refl).
Qed.

(** Nobody waits for ever: every client that has not returned has a step. *)
Lemma stuck_is_finished s : startup_ok s → (∀ s', ¬ any_startup_step s s') → runner s = Finished.
Proof.
  intros Hok Hstuck. destruct (runner s) eqn:Hrun; [exfalso|exfalso|done].
  - eapply Hstuck. exists (Decides true). simpl. rewrite Hrun. unfold decide_startup.
    by rewrite orb_true_r.
  - destruct (ok_decided _ Hok ltac:(by rewrite Hrun)) as [_ Hor].
    assert (Forall (λ c, client_at c = Returned) (clients s)) as Hall.
    { apply Forall_lookup_2. intros i c Hi.
      assert (∀ e, (match clients s !! i with Some c => client_step e i c s | None => None end
        = startup_step e s) → client_step e i c s = None) as Hno.
      { intros e He. rewrite Hi in He. destruct (client_step e i c s) as [s'|] eqn:Hc; [|done].
        destruct (Hstuck s'). exists e. by rewrite <-He. }
      destruct (client_at c) eqn:Hp; [exfalso..|done].
      - specialize (Hno (Connects i true) eq_refl). unfold client_step in Hno. by rewrite Hp in Hno.
      - specialize (Hno (CountsReady i) eq_refl). unfold client_step in Hno. by rewrite Hp in Hno.
      - specialize (Hno (Wakes i) eq_refl). unfold client_step in Hno. rewrite Hp in Hno.
        assert (start_measurement s || failed s = true) as Hwake by (by apply orb_true_iff).
        by rewrite Hwake in Hno.
      - specialize (Hno (ReadsFailed i) eq_refl). unfold client_step in Hno. by rewrite Hp in Hno.
      - specialize (Hno (EndsMeasuring i 0 false) eq_refl). unfold client_step in Hno. by rewrite Hp in Hno.
      - specialize (Hno (ReportsFailure i) eq_refl). unfold client_step in Hno. by rewrite Hp in Hno. }
    eapply Hstuck. exists JoinsAll. simpl. rewrite Hrun.
    replace (forallb returned (clients s)) with true; [done|]. symmetry. apply forallb_forall.
    intros c Hin%list_elem_of_In. rewrite Forall_forall in Hall. unfold returned. by rewrite (Hall c Hin).
Qed.

(** ** The result *)
Lemma sum_list_zero (l : list nat) : sum_list l = 0 → Forall (λ n, n = 0) l.
Proof.
  induction l as [|n l IH]; [constructor|]. change (n + sum_list l = 0 → Forall (λ n, n = 0) (n :: l)).
  intros Hs. constructor; [lia|apply IH; lia].
Qed.

Lemma no_failure_all_measured s :
  startup_ok s → runner s = Finished → failed_count s = 0 →
  startup_successful s = true ∧ Forall (λ c, measured c = true) (clients s).
Proof.
  intros Hok Hfin. unfold failed_count. destruct (startup_successful s) eqn:Hsucc; simpl;
    [|destruct (Nat.eqb_spec (sum_list (client_failed <$> clients s)) 0); intros ?; lia].
  intros Hz%sum_list_zero. rewrite Forall_fmap in Hz. split; [done|].
  assert (failed s = false) as Hf.
  { destruct (failed s) eqn:Hf; [exfalso|done]. destruct (ok_failed _ Hok Hf) as [(i & c & Hi & Hpos)|[_ ?]];
      [|congruence]. pose proof (Forall_lookup_1 _ _ _ _ Hz Hi) as Hzero. simpl in Hzero. lia. }
  pose proof (ok_finished _ Hok Hfin) as Hret. pose proof (ok_clients _ Hok) as Hc.
  apply Forall_lookup_2. intros i c Hi.
  pose proof (Forall_lookup_1 _ _ _ _ Hz Hi) as Hzero. simpl in Hzero.
  pose proof (Forall_lookup_1 _ _ _ _ Hret Hi) as Hat.
  destruct (Forall_lookup_1 _ _ _ _ Hc Hi) as [_ Hcase]. simpl in Hat. rewrite Hat in Hcase.
  destruct Hcase as [?|[?|?]]; [done|lia|congruence].
Qed.

Lemma started_all_ready s c :
  startup_ok s → start_measurement s = true → c ∈ clients s → client_at c ≠ Connecting ∧ client_at c ≠ Connected.
Proof.
  intros Hok Hs Hin. pose proof (ok_started _ Hok Hs) as Hall. pose proof (ok_ready _ Hok) as Hready.
  apply list_elem_of_lookup in Hin as [i Hi].
  pose proof (sum_list_insert pending _ _ _ (Client Returned 0 false) Hi) as Hsum.
  assert (pending (Client Returned 0 false) = 0) as Hz by done.
  split; intros Hat; unfold pending at 2 in Hsum; rewrite Hat in Hsum; lia.
Qed.
End startup.

(** ** Property *)


(** ** Witnesses: two clients, first both connect, then one does not *)
Fixpoint run_startup (connections : nat) (es : list startup_event) (s : startup_state) : option startup_state :=
  match es with
  | [] => Some s
  | e :: es' => match startup_step connections e s with Some s1 => run_startup connections es' s1 | None => None end
  end.

Lemma run_startup_steps connections es s s' :
  run_startup connections es s = Some s' → rtc (any_startup_step connections) s s'.
Proof.
  revert s. induction es as [|e es IH]; intros s; simpl; [by intros [= ->]|].
  destruct (startup_step connections e s) as [s1|] eqn:E; [|done]. intros Hrun.
  eapply rtc_l; [by exists e|by apply IH].
Qed.

Definition good_start : list startup_event :=
  [Connects 1 true; Connects 0 true; CountsReady 1; CountsReady 0; Decides false; Wakes 0; Wakes 1;
   ReadsFailed 1; EndsMeasuring 1 0 false; ReadsFailed 0; EndsMeasuring 0 0 false; JoinsAll].

Definition bad_start : list startup_event :=
  [Connects 1 true; Connects 0 false; CountsReady 1; ReportsFailure 0; Wakes 1; ReadsFailed 1;
   Decides false; JoinsAll].

Definition started (es : list startup_event) : startup_state :=
  default (initial_startup 2) (run_startup 2 es (initial_startup 2)).

Example failed_start_measures_nothing :
  (runner (started bad_start), failed_count (started bad_start), measured <$> clients (started bad_start))
  = (Finished, 1, [false; false]).
Proof. reflexivity. Qed.

