(* ===== verification/ClientBenchmarks.v ===== *)
(** * The clients of the server benchmarks: [src/testing/benchmarks]

    The statistics of [benchmark_common.hpp], the messages and the receiver of
    [socket_benchmark.cpp], the request and the checks of [http_benchmark.cpp].
    The percentages and averages are computed in exact arithmetic (rationals for
    [double]); the integers have their widths. *)
From S2P Require Import Prelude StringOps Numerals Query ThreadSafeQueue Doubles RateLimiter HttpMessages.
From S2P Require Import HttpConnection RequestServer EchoServer.
From stdpp Require Import pretty sorting.
From Stdlib Require Import Ascii QArith Qround.
Local Open Scope Z_scope.

(** ** [latency_stats]: [samples] is the list of nanoseconds *)
Definition add_sample (nanoseconds : Z) (samples : list Z) : list Z := samples ++ [nanoseconds].

Definition merge (other samples : list Z) : list Z := samples ++ other.

Definition sort (samples : list Z) : list Z := merge_sort Z.le samples.

(** An index past the end is undefined behaviour. *)
Definition percentile (p : Q) (samples : list Z) : outcome Z :=
  match samples with
  | [] => Returns 0
  | _ =>
      let index := (p * inject_Z (zlen samples - 1))%Q in
      match samples !! Z.to_nat (Qfloor index) with Some v => Returns v | None => Undefined end
  end.

Definition minimum (samples : list Z) : Z := match samples with [] => 0 | v :: _ => v end.

Definition maximum (samples : list Z) : Z := default 0 (last samples).

Definition average (samples : list Z) : Q :=
  match samples with
  | [] => 0%Q
  | _ => (inject_Z (u64 (zsum (λ v, v) samples)) / inject_Z (zlen samples))%Q
  end.

(** [benchmark_result::throughput]. *)
Definition throughput (completed : Z) (elapsed_seconds : Q) : Q :=
  if Qle_bool elapsed_seconds 0 then 0%Q else (inject_Z completed / elapsed_seconds)%Q.

(** ** Order statistics *)
Lemma sorted_lookup_le (l : list Z) i j v w :
  Sorted Z.le l → l !! i = Some v → l !! j = Some w → (i ≤ j)%nat → v ≤ w.
Proof.
  intros Hs%Sorted_StronglySorted; [|intros x y z; lia]. revert i j.
  induction Hs as [|x l Hs IH Hx]; intros i j Hi Hj Hij; [done|].
  destruct i as [|i], j as [|j]; simpl in *; simplify_eq; [lia| |lia|apply (IH i j); (done || lia)].
  rewrite Forall_forall in Hx. apply Hx. by eapply list_elem_of_lookup_2.
Qed.

Lemma sort_permutation samples : sort samples ≡ₚ samples.
Proof. apply merge_sort_Permutation. Qed.

Lemma sort_sorted samples : Sorted Z.le (sort samples).
Proof. apply Sorted_merge_sort. intros x y. lia. Qed.

Lemma filter_permutation_length (P : Z → Prop) `{∀ x, Decision (P x)} (l k : list Z) :
  l ≡ₚ k → length (filter P l) = length (filter P k).
Proof. intros Hp. by rewrite Hp. Qed.

Lemma filter_all (P : Z → Prop) `{∀ x, Decision (P x)} (l : list Z) :
  Forall P l → filter P l = l.
Proof. induction 1 as [|x l Hx _ IH]; [done|]. by rewrite filter_cons_True, IH. Qed.

Lemma take_counts (P : Z → Prop) `{∀ x, Decision (P x)} (l : list Z) n :
  Forall P (take n l) → (n ≤ length l)%nat → (n ≤ length (filter P l))%nat.
Proof.
  intros Hp Hn. rewrite <-(take_drop n l), filter_app, length_app, (filter_all P) by done.
  rewrite length_take. lia.
Qed.

Lemma drop_counts (P : Z → Prop) `{∀ x, Decision (P x)} (l : list Z) n :
  Forall P (drop n l) → (length l - n ≤ length (filter P l))%nat.
Proof.
  intros Hp. rewrite <-(take_drop n l) at 2. rewrite filter_app, length_app, (filter_all P (drop n l)) by done.
  rewrite length_drop. lia.
Qed.

Lemma percentile_index (p : Q) (n : Z) :
  (0 <= p <= 1)%Q → 0 ≤ n → 0 ≤ Qfloor (p * inject_Z n) ≤ n.
Proof.
  intros [Hp0 Hp1] Hn. assert (0 <= inject_Z n)%Q as Hn' by (change 0%Q with (inject_Z 0); by rewrite <-Zle_Qle).
  split.
  - apply (Qfloor_resp_le 0 (p * inject_Z n)). by apply Qmult_le_0_compat.
  - rewrite <-(Qfloor_Z n) at 2. apply Qfloor_resp_le. rewrite <-(Qmult_1_l (inject_Z n)) at 2.
    by apply Qmult_le_compat_r.
Qed.

(** The rank of a percentile among the samples. *)
Definition rank (p : Q) (samples : list Z) : nat := Z.to_nat (Qfloor (p * inject_Z (zlen samples - 1))).

Lemma zlen_sort samples : zlen (sort samples) = zlen samples.
Proof. unfold zlen. by rewrite (Permutation_length (sort_permutation samples)). Qed.

Lemma percentile_lookup p samples v :
  samples ≠ [] → samples !! rank p samples = Some v → percentile p samples = Returns v.
Proof. intros Hne Hv. unfold percentile. destruct samples; [done|]. unfold rank in Hv. by rewrite Hv. Qed.

Lemma rank_lt p samples : (0 <= p <= 1)%Q → samples ≠ [] → (rank p samples < length samples)%nat.
Proof.
  intros Hp Hne. assert (0 < zlen samples) as Hlen by (unfold zlen; destruct samples; [done|simpl; lia]).
  pose proof (percentile_index p (zlen samples - 1) Hp ltac:(lia)). unfold rank, zlen in *. lia.
Qed.

Lemma minimum_least samples v : Sorted Z.le samples → v ∈ samples → minimum samples ≤ v.
Proof.
  intros Hs [i Hi]%list_elem_of_lookup. destruct samples as [|w l]; [done|].
  apply (sorted_lookup_le (w :: l) 0 i); [done|done|done|lia].
Qed.

Lemma maximum_greatest samples v : Sorted Z.le samples → v ∈ samples → v ≤ maximum samples.
Proof.
  intros Hs [i Hi]%list_elem_of_lookup. unfold maximum. destruct (last samples) as [w|] eqn:Hl.
  - rewrite last_lookup in Hl. simpl. apply (sorted_lookup_le samples i (pred (length samples))); try done.
    apply lookup_lt_Some in Hi. lia.
  - apply last_None in Hl. by subst.
Qed.

Lemma percentile_of_sorted p samples :
  (0 <= p <= 1)%Q → samples ≠ [] →
  ∃ v, percentile p (sort samples) = Returns v ∧ v ∈ samples
    ∧ minimum (sort samples) ≤ v ≤ maximum (sort samples)
    ∧ (S (rank p samples) ≤ length (filter (λ x, (x ≤ v)%Z) samples))%nat
    ∧ (length samples - rank p samples ≤ length (filter (λ x, (v ≤ x)%Z) samples))%nat.
Proof.
  intros Hp Hne. pose proof (sort_permutation samples) as Hperm. pose proof (sort_sorted samples) as Hs.
  assert (rank p (sort samples) = rank p samples) as Hrank by (unfold rank; by rewrite zlen_sort).
  pose proof (rank_lt p samples Hp Hne) as Hlt. rewrite <-(Permutation_length Hperm) in Hlt.
  destruct (lookup_lt_is_Some_2 (sort samples) (rank p samples) Hlt) as [v Hv].
  assert (v ∈ sort samples) as Hin by (by eapply list_elem_of_lookup_2).
  assert (sort samples ≠ []) as Hne' by (intros E; by rewrite E in Hin; apply elem_of_nil in Hin).
  exists v. split_and!.
  - apply percentile_lookup; [done|]. by rewrite Hrank.
  - by rewrite <-Hperm.
  - by apply minimum_least.
  - by apply maximum_greatest.
  - rewrite <-(filter_permutation_length _ _ _ Hperm). apply take_counts; [|lia].
    apply Forall_lookup_2. intros j w [Hw Hj]%lookup_take_Some.
    apply (sorted_lookup_le (sort samples) j (rank p samples)); [done..|lia].
  - rewrite <-(filter_permutation_length _ _ _ Hperm), <-(Permutation_length Hperm). apply drop_counts.
    apply Forall_lookup_2. intros j w Hw. rewrite lookup_drop in Hw.
    apply (sorted_lookup_le (sort samples) (rank p samples) (rank p samples + j)); [done..|lia].
Qed.

(** ** The messages of the socket benchmark *)

(** [make_message] at [timestamp]: the message, and [global_message_id] after
    [fetch_add]. *)
Definition make_message (global_message_id timestamp : Z) : string * Z :=
  (pretty global_message_id +:+ ":" +:+ pretty timestamp +:+ ":" +:+ "hello", u64 (global_message_id + 1)).

(** The message id and the timestamp, or [false]; [substr] and [stoull] throw
    and the handler catches all. *)
Definition parse_message (message : string) : option (Z * Z) :=
  match find_char ":" message with
  | None => None
  | Some first_separator =>
      match find_from ":" (first_separator + 1) message with
      | None => None
      | Some second_separator =>
          let parsed :=
            let! id_text := substr 0 first_separator message in
            let! message_id := stoull id_text in
            let! time_text := substr (first_separator + 1) (second_separator - first_separator - 1) message in
            let! timestamp := stoull time_text in
            Returns (message_id, timestamp) in
          match parsed with Returns r => Some r | _ => None end
      end
  end.

(** [client_result]. *)
Record client_result := ClientResult {
  sent : Z;
  received_messages : Z;
  failed_operations : Z;
  latency : list Z
}.

(** [static_cast<int64_t>] of a [uint64_t], and the range of [int64_t]. *)
Definition to_int64 (n : Z) : Z := if n <? 9223372036854775808 then n else n - two64.

(** The receiver with a message read at [received_time]; the subtraction of two
    [int64_t] must not overflow. *)
Definition receive_message (collect_latency : bool) (received_time : Z) (message : string)
    (result : client_result) : outcome client_result :=
  match parse_message message with
  | None =>
      Returns (ClientResult (sent result) (received_messages result) (u64 (failed_operations result + 1))
        (latency result))
  | Some (_, timestamp) =>
      let received' := u64 (received_messages result + 1) in
      if collect_latency && (to_int64 timestamp <=? received_time) then
        let elapsed := received_time - to_int64 timestamp in
        if elapsed <? 9223372036854775808 then
          Returns (ClientResult (sent result) received' (failed_operations result)
            (add_sample (u64 elapsed) (latency result)))
        else Undefined
      else Returns (ClientResult (sent result) received' (failed_operations result) (latency result))
  end.

(** Two numerals between separators are cut out again. *)
Lemma find_app (c : ascii) (s t : string) :
  no_char c s = true → find_char c (s +:+ String c t) = Some (String.length s).
Proof.
  intros Hs. pose proof (cut_find c (s +:+ String c t)) as Hcut. rewrite cut_app in Hcut by done.
  destruct Hcut as (i & -> & Hi & Htake & Hdrop). f_equal.
  apply (f_equal String.length) in Hdrop. rewrite string_drop_length, string_app_length in *.
  simpl in *. lia.
Qed.

Lemma string_take_app (s t : string) : string_take (String.length s) (s +:+ t) = s.
Proof. induction s as [|c s IH]; [by destruct t|]. simpl. f_equal. exact IH. Qed.

Lemma no_colon_pretty (z : Z) : no_char ":" (pretty z) = true.
Proof.
  rewrite pretty_Z_digits. unfold no_char. rewrite all_chars_app. apply andb_true_iff. split.
  - by destruct (z <? 0).
  - destruct (pretty_N_value (Z.abs_N z)) as (Hd & _). revert Hd. apply all_chars_mono.
    intros c Hc. apply negb_true_iff, Ascii.eqb_neq. by intros ->.
Qed.

Lemma parse_two_numbers (a b : string) (x y : Z) (rest : string) :
  no_char ":" a = true → no_char ":" b = true → stoull a = Returns x → stoull b = Returns y →
  parse_message (a +:+ String ":" (b +:+ String ":" rest)) = Some (x, y).
Proof.
  intros Ha Hb Hx Hy. unfold parse_message. rewrite find_app by done. unfold find_from.
  assert (string_drop (String.length a + 1) (a +:+ String ":" (b +:+ String ":" rest))
    = b +:+ String ":" rest) as Hdrop.
  { rewrite <-string_drop_drop, (string_drop_app _ a) by done. done. }
  rewrite Hdrop, find_app by done. simpl. unfold substr, substr_from. rewrite Hdrop. simpl.
  rewrite string_take_app, Hx. simpl. rewrite !string_app_length. simpl.
  destruct (Nat.leb_spec (String.length a + 1) (String.length a + S (String.length (b +:+ String ":" rest)))) as [_|];
    [|lia]. simpl.
  replace (String.length a + 1 + String.length b - String.length a - 1)%nat with (String.length b) by lia.
  by rewrite string_take_app, Hy.
Qed.

(** ** The clients of the HTTP benchmark *)

(** [uppercase]: the lambda takes its character as [unsigned char]. *)
Fixpoint uppercase (value : string) : outcome string :=
  match value with
  | EmptyString => Returns EmptyString
  | String c rest =>
      let! n := toupper (Z.of_N (N_of_ascii c)) in
      let! rest' := uppercase rest in
      Returns (String (char_of_int n) rest')
  end.

Section http_client.
Context `{HttpMessages}.

(** What one request meets: the error of [http::write], the error of
    [http::read] or the response, and the time that has passed. *)
Record attempt := Attempt { write_error : option string; reply : string + response; elapsed : Z }.

(** [run_single_request]: the error if it failed, and the samples of
    [*latency], if any are collected. *)
Definition run_single_request (expected : string) (a : attempt) (samples : option (list Z))
    : option string * option (list Z) :=
  match write_error a, reply a with
  | Some message, _ => (Some ("write failed: " +:+ message), samples)
  | None, inl message => (Some ("read failed: " +:+ message), samples)
  | None, inr r =>
      let samples := add_sample (u64 (elapsed a)) <$> samples in
      if negb (response_result r =? status_ok) then
        (Some ("unexpected HTTP status: " +:+ pretty (response_result r)), samples)
      else if negb (String.eqb (response_body r) expected) then (Some "invalid response body", samples)
      else if negb (keep_alive r) then (Some "server closed keep-alive connection", samples)
      else (None, samples)
  end.

(** The measurement loop of [run_client], for the requests it has time for:
    [completed], [failed] and the samples.  The first failure ends it. *)
Fixpoint measure (expected : string) (attempts : list attempt) (completed : Z) (samples : option (list Z))
    : Z * Z * option (list Z) :=
  match attempts with
  | [] => (completed, 0, samples)
  | a :: attempts' =>
      match run_single_request expected a samples with
      | (None, samples') => measure expected attempts' (u64 (completed + 1)) samples'
      | (Some _, samples') => (completed, 1, samples')
      end
  end.
End http_client.

Lemma uppercase_capitals s : uppercase s = Returns (capitals s).
Proof.
  induction s as [|c s IH]; [done|]. cbn [uppercase capitals]. rewrite IH.
  assert ((let! n := toupper (Z.of_N (N_of_ascii c)) in Returns (char_of_int n)) = Returns (capital c)) as Hc
    by (revert c; all_characters).
  destruct (toupper _) as [n|e|]; [|discriminate Hc..]. simpl in *. by injection Hc as ->.
Qed.

(** Replies that pass the checks are all counted as completed. *)
Lemma measure_successes `{HttpMessages} expected attempts completed samples :
  is_u64 completed →
  Forall (λ a, write_error a = None ∧ ∃ r, reply a = inr r ∧ response_result r = status_ok
    ∧ response_body r = expected ∧ keep_alive r = true) attempts →
  measure expected attempts completed samples
  = (u64 (completed + zlen attempts), 0, (λ l, l ++ (u64 ∘ elapsed <$> attempts)) <$> samples).
Proof.
  intros Hrange Hall. revert completed samples Hrange.
  induction Hall as [|a attempts (Hw & r & Hr & Hres & Hbody & Hka) _ IH]; intros completed samples Hrange.
  - cbn [measure]. change (zlen []) with 0. rewrite Z.add_0_r, u64_small by done. destruct samples as [l|]; simpl; [|done].
    by rewrite app_nil_r.
  - cbn [measure]. unfold run_single_request. rewrite Hw, Hr, Hres, Hbody, Hka, String.eqb_refl. simpl.
    rewrite IH by apply u64_range. rewrite zlen_cons, u64_add_l. f_equal.
    + f_equal. f_equal. lia.
    + destruct samples as [l|]; simpl; [|done]. unfold add_sample. by rewrite <-app_assoc.
Qed.

(** [result.completed], [result.failed] and the samples of [run_benchmark],
    from those of the clients. *)
Definition collect_results (startup_successful collect_latency : bool) (results : list (Z * Z * list Z))
    : Z * Z * list Z :=
  let '(completed, failed, samples) :=
    foldl (λ '(completed, failed, samples) '(c, f, l),
      (u64 (completed + c), u64 (failed + f), if collect_latency then merge l samples else samples))
      (0, 0, []) results in
  (completed, if negb startup_successful && (failed =? 0) then 1 else failed,
   if collect_latency then sort samples else samples).

(** The sending loop of the socket benchmark: whether each [write] succeeds. *)
Fixpoint send_loop (writes : list bool) (result : client_result) : client_result :=
  match writes with
  | [] => result
  | true :: writes' =>
      send_loop writes' (ClientResult (u64 (sent result + 1)) (received_messages result)
        (failed_operations result) (latency result))
  | false :: _ =>
      ClientResult (sent result) (received_messages result) (u64 (failed_operations result + 1)) (latency result)
  end.

(** [parse_int], and the checks of [main]: the connections and the seconds. *)
Definition parse_int (value : string) : option Z :=
  match stoi value with Returns n => Some n | _ => None end.

Definition read_config (argv : list string) : option (Z * Z) :=
  connections ← match argv !! 0%nat with Some text => parse_int text | None => Some 8 end;
  duration ← match argv !! 1%nat with Some text => parse_int text | None => Some 10 end;
  if (connections <=? 0) || (duration <=? 0) then None else Some (connections, duration).

(** The samples of the result are those of all clients, sorted. *)
Lemma collected_samples startup_successful results :
  (collect_results startup_successful true results).2 = sort (concat results.*2).
Proof.
  unfold collect_results.
  assert (∀ c0 f0 l0, (foldl (λ '(completed, failed, samples) '(c, f, l),
    (u64 (completed + c), u64 (failed + f), merge l samples)) (c0, f0, l0) results).2
    = l0 ++ concat results.*2) as Hfold.
  { induction results as [|[[c f] l] results IH]; intros c0 f0 l0; simpl; [by rewrite app_nil_r|].
    rewrite IH. unfold merge. by rewrite <-app_assoc. }
  specialize (Hfold 0 0 []). destruct (foldl _ _ _) as [[completed failed] samples]. simpl in *. by rewrite Hfold.
Qed.

(** ** Properties *)

(** A message of the socket benchmark arrives as it was sent: for every
    message id and every timestamp of the steady clock, [parse_message] reads
    back what [make_message] wrote, and the receiver counts one more message
    and no failure, and when it collects latencies adds exactly the time since
    the message was made. *)
Theorem benchmark_messages_round_trip (message_id timestamp now : Z) (collect : bool) (result : client_result) :
  is_u64 message_id → (0 ≤ timestamp ≤ now)%Z → (now < 2 ^ 63)%Z →
  let message := (make_message message_id timestamp).1 in
  parse_message message = Some (message_id, timestamp)
  ∧ receive_message collect now message result
    = Returns (ClientResult (sent result) (u64 (received_messages result + 1)) (failed_operations result)
        (latency result ++ if collect then [now - timestamp] else [])).
Proof.
  intros Hid Htime Hnow message. unfold is_u64 in Hid.
  assert (parse_message message = Some (message_id, timestamp)) as Hparse.
  { assert (∀ z, 0 ≤ z < two64 → stoull (pretty z) = Returns z) as Hread.
    { intros z Hz. rewrite stoull_pretty, (proj2 (Z.ltb_lt (Z.abs z) two64)) by lia.
      by rewrite u64_small. }
    apply (parse_two_numbers (pretty message_id) (pretty timestamp));
      [apply no_colon_pretty..|by apply Hread|apply Hread; unfold two64; lia]. }
  split; [done|]. unfold receive_message. rewrite Hparse. unfold to_int64.
  rewrite (proj2 (Z.ltb_lt timestamp 9223372036854775808)), (proj2 (Z.leb_le timestamp now)) by lia.
  destruct collect; simpl; [|by rewrite app_nil_r].
  rewrite (proj2 (Z.ltb_lt (now - timestamp) 9223372036854775808)) by lia.
  rewrite (u64_small (now - timestamp)) by (unfold is_u64, two64; lia). done.
Qed.

(** Percentiles are order statistics: of any non-empty samples, in any
    order, every percentile between 0 and 1 of the sorted samples is in bounds,
    is one of the samples, lies between the minimum and the maximum, and has at
    least rank + 1 samples that are no larger and at least size - rank that are
    no smaller. *)
Theorem percentiles_are_order_statistics (p : Q) (samples : list Z) :
  (0 <= p <= 1)%Q → samples ≠ [] →
  ∃ v, percentile p (sort samples) = Returns v ∧ v ∈ samples
    ∧ minimum (sort samples) ≤ v ≤ maximum (sort samples)
    ∧ (S (rank p samples) ≤ length (filter (λ x, (x ≤ v)%Z) samples))%nat
    ∧ (length samples - rank p samples ≤ length (filter (λ x, (v ≤ x)%Z) samples))%nat.
Proof. apply percentile_of_sorted. Qed.

(** C40. The HTTP benchmark accepts the echo server: in every reachable state of
    the echo server, if a client has only sent HTTP/1.1 requests with the body
    of the configuration and none was refused, then the responses on its
    connection, read in order, all pass the checks of [run_single_request]
    against [uppercase] of the body: all are completed and none fails. *)
Theorem http_benchmark_accepts_the_echo_server `{HttpMessagesLaws} `{Double} (cfg : queue_config)
    (ip_limits : limits) (s : server) (k : nat) (v : served) (body : string) (times : nat → Z)
    (default_keep_alive : ∀ status text b,
      keep_alive (set_body b (set_field content_type text (set_result status (set_version 11 new_response)))) = true) :
  server_reachable echo_answers cfg ip_limits s → ids_fit s → connections s !! k = Some v →
  (∀ ip rq, (ip, rq) ∈ received v → request_body rq = body ∧ request_version rq = 11) →
  (∀ e, e ∈ wire (connection v) → response_result e.2 ≠ status_service_unavailable) →
  let attempts := imap (λ i e, Attempt None (inr e.2) (times i)) (wire (connection v)) in
  ∃ expected, uppercase body = Returns expected
    ∧ measure expected attempts 0 None = (zlen (wire (connection v)), 0, None).
Proof.
  intros Hreach Hfit Hk Hsent Hserved attempts. exists (capitals body). split; [apply uppercase_capitals|].
  pose proof (server_reachable_ok echo_answers cfg ip_limits s Hreach Hfit) as Hs.
  pose proof (all_served_ok _ _ Hs k v Hk) as Hv.
  rewrite measure_successes; [|done|].
  - unfold attempts, zlen at 1. rewrite length_imap. simpl. f_equal. f_equal. apply u64_small.
    pose proof (wire_short _ v Hv). specialize (Hfit k v Hk). simpl in Hfit. unfold is_u64, zlen. lia.
  - apply Forall_lookup_2. intros n a Ha. unfold attempts in Ha. rewrite list_lookup_imap in Ha.
    destruct (wire (connection v) !! n) as [[id r]|] eqn:Hn; [|done]. simpl in Ha. injection Ha as <-.
    split; [done|]. exists r. split; [done|].
    destruct (served_wire _ _ Hv n id r Hn) as (r0 & -> & ip & rq & Hrec & Hans).
    destruct (Hsent ip rq (list_elem_of_lookup_2 _ _ _ Hrec)) as [Hbody Hversion].
    destruct Hans as [Hans|(-> & _)].
    + unfold echo_answers in Hans. pose proof (echo_answers_iff ip rq) as He. rewrite Hans in He.
      destruct He as (_ & Hres & _ & _ & Hb). autorewrite with http. split_and!; [done|by rewrite Hb, Hbody|].
      unfold process_client_request in Hans. rewrite transform_toupper_spec in Hans.
      destruct (all_chars echoable _); [|done]. injection Hans as <-. rewrite Hversion.
      by autorewrite with http.
    + destruct (Hserved _ (list_elem_of_lookup_2 _ _ _ Hn)). simpl.
      unfold overload_response, set_response_server_overloaded. by autorewrite with http.
Qed.

(** A message whose timestamp is not one of the steady clock: the receiver
    computes the latency in [int64_t], and the subtraction overflows. *)
Theorem large_timestamp_overflows (now : Z) (result : client_result) :
  0 ≤ now →
  receive_message true now "0:9223372036854775808:hello" result = Undefined.
Proof.
  intros Hnow. unfold receive_message.
  assert (parse_message "0:9223372036854775808:hello" = Some (0, 9223372036854775808)) as -> by (vm_compute; reflexivity).
  change (to_int64 9223372036854775808) with (-9223372036854775808).
  rewrite (proj2 (Z.leb_le (-9223372036854775808) now)) by lia. cbn [andb].
  by rewrite (proj2 (Z.ltb_ge (now - -9223372036854775808) 9223372036854775808)) by lia.
Qed.

(** ** Witnesses *)
Lemma benchmark_messages_round_trip_witness :
  (make_message 7 1000).1 = "7:1000:hello"%string
  ∧ parse_message "7:1000:hello" = Some (7, 1000)
  ∧ receive_message true 1250 "7:1000:hello" (ClientResult 0 3 0 [10])
    = Returns (ClientResult 0 4 0 [10; 250]).
Proof.
  split; [vm_compute; reflexivity|].
  apply (benchmark_messages_round_trip 7 1000 1250 true (ClientResult 0 3 0 [10])).
  - unfold is_u64, two64. lia.
  - lia.
  - lia.
Defined.

Definition sample_latencies : list Z := [30; 10; 20; 40].

Lemma percentiles_are_order_statistics_witness :
  sort sample_latencies = [10; 20; 30; 40] ∧ rank (1 # 2) sample_latencies = 1%nat
  ∧ ∃ v, percentile (1 # 2) (sort sample_latencies) = Returns v ∧ v ∈ sample_latencies
    ∧ minimum (sort sample_latencies) ≤ v ≤ maximum (sort sample_latencies)
    ∧ (S (rank (1 # 2) sample_latencies) ≤ length (filter (λ x, (x ≤ v)%Z) sample_latencies))%nat
    ∧ (length sample_latencies - rank (1 # 2) sample_latencies
       ≤ length (filter (λ x, (v ≤ x)%Z) sample_latencies))%nat.
Proof.
  split; [vm_compute; reflexivity|]. split; [vm_compute; reflexivity|].
  apply (percentiles_are_order_statistics (1 # 2) sample_latencies).
  - split; vm_compute; discriminate.
  - discriminate.
Defined.

Section echo_witness.
#[local] Existing Instance PlainMessages.messages.
#[local] Existing Instance PlainMessages.messages_laws.
#[local] Existing Instance exact.

(** A client of the benchmark sends its second request after the first reply. *)
Definition benchmark_schedule : list server_event :=
  [EvAccept false (Some "127.0.0.1"%string) 0 0;
   EvRead 0 (Some (sample_request "hello")); EvPop 0; EvAnswer 0; EvStrand 0; EvWrite 0 false;
   EvRead 0 (Some (sample_request "hello")); EvPop 1; EvAnswer 1; EvStrand 0; EvWrite 0 false].

Definition benchmark_run : option server :=
  run_schedule small_queue default_ip_limits process_client_request benchmark_schedule initial_server.

Definition benchmarked : server := default initial_server benchmark_run.

Lemma benchmarked_reachable : server_reachable echo_answers small_queue default_ip_limits benchmarked.
Proof.
  assert (match benchmark_run with Some _ => true | None => false end = true) as Hr
    by (vm_compute; reflexivity).
  apply (run_schedule_sound echo_answers small_queue default_ip_limits process_client_request
           ltac:(done) benchmark_schedule).
  fold benchmark_run. unfold benchmarked. by destruct benchmark_run.
Qed.

Definition all_hello (v : served) : bool :=
  forallb (λ e, String.eqb (request_body e.2) "hello" && (request_version e.2 =? 11)) (received v)
  && forallb (λ e, negb (response_result e.2 =? status_service_unavailable)) (wire (connection v)).

Lemma http_benchmark_accepts_the_echo_server_witness :
  let v := served_on benchmarked 0 in
  zlen (wire (connection v)) = 2 ∧
  let attempts := imap (λ i e, Attempt None (inr e.2) (Z.of_nat i)) (wire (connection v)) in
  ∃ expected, uppercase "hello" = Returns expected
    ∧ measure expected attempts 0 None = (zlen (wire (connection v)), 0, None).
Proof.
  intros v. assert (all_hello v = true) as Hhello by (vm_compute; reflexivity).
  apply andb_true_iff in Hhello as [Hrec Hwire]. split; [vm_compute; reflexivity|].
  apply (http_benchmark_accepts_the_echo_server small_queue default_ip_limits benchmarked 0 v "hello" Z.of_nat).
  - done.
  - apply benchmarked_reachable.
  - apply few_requests_fit. vm_compute. reflexivity.
  - apply has_connection_lookup. vm_compute. reflexivity.
  - intros ip rq Hin%list_elem_of_In. rewrite forallb_forall in Hrec. specialize (Hrec _ Hin).
    apply andb_true_iff in Hrec as [Hb Hv]. split; [by apply String.eqb_eq|by apply Z.eqb_eq].
  - intros e Hin%list_elem_of_In. rewrite forallb_forall in Hwire. specialize (Hwire _ Hin).
    by apply negb_true_iff, Z.eqb_neq in Hwire.
Defined.
End echo_witness.
